(* ===== verification/_CoqProject ===== *)
-Q . S2P
Prelude.v
OrdMap.v
Codec.v
Node.v
Hash.v
Heap.v
HeapRefine.v
HeapRead.v
Cache.v
Persisted.v
LayoutNative.v
Snapshot.v
Tree.v
TreeSpec.v
Iterator.v
Export.v
Exporter.v
Import.v
MultiTree.v
WorkerGroup.v
Proofs.v
Wal.v
WalOpen.v
Pending.v
Db.v
DbDir.v
DbRewrite.v
DbApi.v
Handles.v
Lifetime.v
DbLocks.v
Changeset.v
ExtSort.v
VersionDb.v
VersionMem.v
VersionStore.v
VersionSuite.v
HistCache.v
MemStore.v
RootMulti.v
RootSpec.v
RootQuery.v
StateSync.v
Setup.v
ClientVerify.v
StoreHistory.v
ClientDump.v
ClientDumpIavl.v
ClientSst.v
ClientAppDb.v
ClientRestore.v
ClientVersionDb.v
VersionAdmin.v
ClientRoot.v
