(* ===== verification/Prelude.v ===== *)
(** * cronos-store: a verification development

    cronos-store keeps the state of a Cosmos SDK application.  This library
    models its Go code as Rocq functions and step relations and proves what the
    parts promise to each other.

    ** The program

    - [memiavl] is a versioned, Merkleized key-value database in memory: AVL
      trees of shared, copy-on-write nodes ([node.go], [mem_node.go], [tree.go]);
      snapshot files that are read in place ([snapshot.go], [persisted_node.go],
      [layout_little_endian.go]); a set of named trees with a commit info
      ([multitree.go]); a write-ahead log ([wal.go]); a database that commits,
      logs, rewrites snapshots in the background, prunes, reloads and rolls back
      ([db.go]); iterators, proofs, export and import of trees.
    - [store] puts it under the SDK: one store per module ([memiavlstore]), the
      root multi-store with loading, upgrades, commit, queries at old heights and
      state sync ([rootmulti]).
    - [versiondb] keeps old values in RocksDB with user timestamps, fed by a
      streaming service.  Its client has the tools around change set files: they
      dump the changes of a database, verify them by a replay, sort them
      externally into SST files that are ingested, and restore databases from
      snapshots.

    A block flows through the parts like this: the application writes to the
    memiavl stores; the root store pops their change sets, sorts them by name
    and gives them to the database, which records them in its pending log and
    applies them to the trees; [Commit] saves the version of every tree, logs the
    pending entry and may switch to a snapshot rewritten in the background; the
    listeners of the block go to the versioned store.

    ** Files

    - [Prelude]: results, machine integers, byte strings and their order,
      tactics, hints.  [OrdMap]: ordered maps as association lists, the abstract
      state of a tree.  [Codec]: varints, fixed-width little-endian integers.
    - [Node] is the AVL algorithm of [node.go] and [mem_node.go] on immutable
      trees, [Hash] its Merkle hash.  [Heap] is the same code on an explicit
      store of mutable shared nodes; [HeapRefine] and [HeapRead] prove that it
      computes the functions of [Node], writes only nodes it owns, and reads
      through cached hashes.
    - [Cache] (the sharded cache of [tree.go]), [Tree] ([tree.go]) and
      [TreeSpec]: a tree as an ordered map, copies that stay isolated.
    - [Persisted] and [Snapshot]: bytes of the snapshot files, the writer, the
      checks of opening, nodes read by index arithmetic; [LayoutNative]: the same
      records through the structs of [layout_native.go].
    - [Iterator], [Export], [Import], [Proofs]: one file each for
      [iterator.go], [export.go] with the export of [snapshot.go], the importer
      of [import.go], [proof.go].
    - [Exporter]: the goroutine, channel and cancellation of an exporter;
      [WorkerGroup]: the group of workers that writes the trees of a snapshot.
    - [MultiTree] ([multitree.go]), [Wal] ([wal.go]) with [WalOpen] (opening a log
      after a crash), and for [db.go]: [Pending] (the pending log entry and its
      index), [Db] (commit, log writer, background rewrite, as steps of one state),
      [DbDir] (directory, [Load], rollback, pruning, state changes), [DbRewrite]
      (snapshots added to the directory), [DbApi] (the other methods), [DbLocks]
      (which mutexes and channels the methods take, as programs that interleave).
    - [Handles] ([mmap.go], [filelock.go], opening and closing of snapshots and
      multi-trees) and [Lifetime] ([Load], [Reload], the switch and [Close] of
      [db.go]): the same code in a world of files, mappings and locks in which every
      call may fail.
    - [Changeset] ([versiondb/client/changeset.go]), [ExtSort]
      ([versiondb/extsort]), [VersionDb] ([versiondb/tsrocksdb]), [VersionMem]
      (an implementation of the RocksDB interface), [VersionStore] (the
      streaming service and the stores that read and iterate at a version),
      [VersionSuite] ([versiondb/backend_test_utils.go], the conformance suite of
      the stores), [VersionAdmin] (options, opening, trimming and compaction).
    - [HistCache] (the cache of historical databases of
      [store/rootmulti/store.go] as goroutines over a shared memory),
      [MemStore] ([store/memiavlstore/store.go]), [RootMulti] (the root store),
      [RootSpec] and [RootQuery] (its theorems), [StateSync] (the importer and
      exporter of all trees, [rootmulti/snapshot.go], [rootmulti/import.go]),
      [Setup] ([store/setup.go], [store/config]: configuration and installation).
    - The commands of [versiondb/client]: [ClientVerify] ([verify.go]),
      [StoreHistory] (the history of one store in the log, for the proofs),
      [ClientDump] ([dump.go] on memiavl, work splitting and files),
      [ClientDumpIavl] ([dump.go] on iavl, with its workers), [ClientSst]
      ([convert_to_sst.go]), [ClientAppDb] and [ClientRestore]
      ([restore_app_db.go]: one store, the command), [ClientVersionDb]
      ([to_versiondb.go], [ingest_sst.go], [restore.go], [print.go], [stores.go],
      [fixdata.go], [dump-versiondb]); [ClientRoot] is [memiavl/client].

    ** How code is modelled

    Definitions keep the names of the source where they are free.  A Go error is
    [Err], a panic is [Panic] of [res]; [option] is for nil and for slices out of
    bounds.  Integers are [Z] with their wrap-around written out ([u8], [u32],
    [u64], [i8], [i32], [i64]).  A byte slice that may be nil is a [slice].
    Mutable nodes, cache entries and databases that goroutines share live in
    explicit stores; other state is passed.  Goroutines are step relations
    ([Db.db_step], [HistCache.world_step], [ClientDumpIavl.dump_step],
    [WorkerGroup.group_step], [Exporter.export_step], the runs of [DbLocks]) or
    take the schedule as an argument (log writer rounds, completion order of
    sorted chunks and of the stores of a command, [select] choices, [quits] of
    [StateSync]).  A loop over a Go map takes the order of its visits as an
    argument, and the theorems hold for every order.  The file system is the
    contents of the files and directories; in [Handles] and [Lifetime] it is an
    abstract world that also counts what is open, and what is computed there is
    shown to be what the functions on contents compute.

    ** What the theorems show

    - Trees: the AVL algorithm is an ordered map and keeps its invariant, on
      immutable trees and on the store of shared nodes; a copy and its source
      behave as if alone; equal root hashes mean equal trees or a collision; reads
      through the caches are reads of the map; iterators visit their range and
      end; proofs recompute the root hash.
    - Snapshots, export and import: writing and opening gives the same tree; the
      sequential export is the post-order traversal; importing an export gives
      the same bytes; binary search agrees with the walk; both layouts of the
      records agree; an exporter delivers the nodes and its goroutine ends; a group
      of workers ends, reports every failure and writes the snapshot of the trees.
    - Multi-trees: names sorted and indexed, versions in step; upgrades act on the
      map of trees; replay of the log is the live history.
    - Database: along every interleaving of commits, log writer and background
      rewrites, log and queue hold the committed entries and the tree is their
      replay; recovery, loading a version, rollback, pruning and rewriting give
      and keep the states of the history; a rewrite and a reload of a committed
      database are invisible.
    - Resources: opening a log after a crash cuts only the torn entry; loading owns
      exactly the files, the log and the lock of the database it returns and nothing
      when it fails; closing gives everything back after any history; calls and
      goroutines that take the mutexes always end with every lock free.
    - Root store: the announced hash is the committed one; loading accepts exactly
      the mounted stores; queries prove the state at their height; borrowed
      databases stay open, all queries end and everything is closed; state sync
      carries a state over.
    - Versioned store: blocks told to the listener are what reads and iterators
      at a version show, for every store that keeps the interface, and every such
      store passes the conformance suite; trimming is a rollback of the reads;
      change set files round-trip and survive torn tails; external sorting sorts.
    - Client: a dump followed by a verification reproduces the commit info of the
      database; verification of any files that tell the history gives the commit
      info of the chain; every run of the dump workers writes the same files;
      feeding change sets and ingesting the SST files built from them leave the
      same records and read as the history; a versioned store restored from a
      state-sync stream reads as the trees; [application.db] restored from
      snapshots holds every node, the roots and the commit info.

    Each numbered theorem has, where it has hypotheses, a witness that applies it
    to a concrete input.

    ** Interfaces and hypotheses

    Code outside the repository is a parameter, with what the code relies on as a
    hypothesis or a class of laws: [sha256] (length 32; nothing about
    collisions), the leaf and inner operations of ics23, the LRU cache of
    cosmos/iavl, the log of tidwall/wal ([Log], [LogLaws]), the protobuf codec of
    log entries (a round trip up to empty slices), RocksDB with user timestamps
    ([VersionDb]) with its SST writers and ingestion ([ClientSst], [ClientAppDb],
    [ClientRestore], [ClientVersionDb]) and its administration ([VersionAdmin]),
    the operating system with memory mappings and file locks ([Handles],
    [Lifetime]), [wal.Open] ([WalOpen]), the conversion of configured values and
    the base application of the SDK ([Setup]), iavl databases and key formats, snappy
    and zlib, [sort.Slice] and [container/heap] as far as the code uses them, the SDK's
    commit info hash (a function of names and hashes), [PrefixEndBytes],
    [RequireProof], transient and memory stores.  [VersionMem], the [ListLog] of
    [Db] and the [MemOS] of [Handles] implement the interfaces, so the laws can
    hold.

    ** Bounds and fuel

    Structural recursion is used where the code's loop has a structure to follow.
    The rest has fuel that a theorem shows to be enough: tree recursion by the
    height (below 256, an AVL tree of fewer than 2^32 leaves is lower than 47),
    scans and iterators by the number of nodes, merges and drains by the number
    of items, log replay by the number of entries, the poll of the log by the
    number of polls of its schedule.  Versions, leaf indices and sizes have the
    bounds of their fields (2^32, 2^64, histories shorter than 2^62), stated in
    the theorems; snapshot names are read back below 2^31.

    ** Not modelled

    The durability of written files ([fsync] is a write that has taken effect);
    generated protobuf code; object stores (a build tag that adds a store kind the
    SDK implements); setters with an empty body, tracing and the SDK's cache
    wrappers; the registration of commands and flags; the JSON texts that commands
    print; closing of readers and iterators of the client.  What remains of these is
    calls into other libraries without logic of the repository. *)
From stdpp Require Import prelude strings countable sorting.
From Stdlib Require Import ZArith Lia.
From Stdlib Require Strings.Byte.

#[global] Set Default Goal Selector "!".
Local Open Scope Z_scope.

(** [lia] that also understands [/] and [mod] by constants. *)
Ltac dlia := intros; Z.to_euclidean_division_equations; lia.

(** * Machine integers

    A Go integer of width [w] is a [Z] in range; every operation that can
    leave the range is wrapped by the conversion of its type. *)

Definition u8 (z : Z) : Z := z mod 2 ^ 8.
Definition u32 (z : Z) : Z := z mod 2 ^ 32.
Definition u64 (z : Z) : Z := z mod 2 ^ 64.
Definition i8 (z : Z) : Z := (z + 2 ^ 7) mod 2 ^ 8 - 2 ^ 7.
Definition i64 (z : Z) : Z := (z + 2 ^ 63) mod 2 ^ 64 - 2 ^ 63.

Definition MaxUint32 : Z := 2 ^ 32 - 1.

Create HintDb ints.

Lemma u8_small z : 0 <= z < 2 ^ 8 -> u8 z = z.
Proof. apply Z.mod_small. Qed.

Lemma u32_small z : 0 <= z < 2 ^ 32 -> u32 z = z.
Proof. apply Z.mod_small. Qed.

Lemma u64_small z : 0 <= z < 2 ^ 64 -> u64 z = z.
Proof. apply Z.mod_small. Qed.

Lemma i64_small z : - 2 ^ 63 <= z < 2 ^ 63 -> i64 z = z.
Proof. intros H. unfold i64. rewrite Z.mod_small; lia. Qed.

Lemma i8_small z : - 2 ^ 7 <= z < 2 ^ 7 -> i8 z = z.
Proof. intros H. unfold i8. rewrite Z.mod_small; lia. Qed.

Lemma u64_range z : 0 <= u64 z < 2 ^ 64.
Proof. apply Z.mod_pos_bound. lia. Qed.

(** The wrapped sum only depends on the operands modulo the width. *)
Lemma u32_add_l a b : u32 (u32 a + b) = u32 (a + b).
Proof. apply Zplus_mod_idemp_l. Qed.

Lemma u32_sub_l a b : u32 (u32 a - b) = u32 (a - b).
Proof. apply Zminus_mod_idemp_l. Qed.

(** * Slices of bytes *)

Abbreviation byte := Byte.byte.
Abbreviation bytes := (list byte).

(** A Go [[]byte] whose nil-ness the code observes: [None] is nil. *)
Abbreviation slice := (option bytes).

Definition b2z (b : byte) : Z := Z.of_N (Byte.to_N b).

Definition z2b (z : Z) : byte :=
  match Byte.of_N (Z.to_N (z mod 256)) with
  | Some b => b
  | None => Byte.x00
  end.

Lemma b2z_range b : 0 <= b2z b < 256.
Proof. unfold b2z. pose proof (Byte.to_N_bounded b). lia. Qed.

Lemma z2b_b2z b : z2b (b2z b) = b.
Proof.
  unfold z2b. rewrite Z.mod_small by apply b2z_range.
  unfold b2z. by rewrite N2Z.id, Byte.of_to_N.
Qed.

Lemma b2z_z2b z : b2z (z2b z) = z mod 256.
Proof.
  unfold z2b. pose proof (Z.mod_pos_bound z 256 ltac:(lia)) as Hr.
  destruct (Byte.of_N (Z.to_N (z mod 256))) as [b|] eqn:E.
  - apply Byte.to_of_N in E. unfold b2z. rewrite E. lia.
  - apply Byte.of_N_None_iff in E. lia.
Qed.

Lemma b2z_inj a b : b2z a = b2z b -> a = b.
Proof. intros H. by rewrite <- (z2b_b2z a), <- (z2b_b2z b), H. Qed.

#[export] Instance byte_eq_dec : EqDecision byte := Byte.byte_eq_dec.
#[export] Instance byte_countable : Countable byte.
Proof.
  apply (inj_countable Byte.to_N Byte.of_N). intros b. apply Byte.of_to_N.
Defined.

(** [len(b)] as a Go int. *)
Definition len {A} (l : list A) : Z := Z.of_nat (length l).

Lemma len_nonneg {A} (l : list A) : 0 <= len l.
Proof. unfold len. lia. Qed.

Lemma len_app {A} (l k : list A) : len (l ++ k) = len l + len k.
Proof. unfold len. rewrite length_app. lia. Qed.

Lemma len_cons {A} (x : A) l : len (x :: l) = 1 + len l.
Proof. unfold len. simpl. lia. Qed.

Lemma len_nil {A} : len (@nil A) = 0.
Proof. reflexivity. Qed.

(** [lia] that knows lengths are not negative. *)
Ltac len_facts :=
  repeat match goal with
  | |- context [len ?l] =>
      lazymatch goal with H : 0 <= len l |- _ => fail | _ => pose proof (len_nonneg l) end
  | _ : context [len ?l] |- _ =>
      lazymatch goal with H : 0 <= len l |- _ => fail | _ => pose proof (len_nonneg l) end
  end.
Ltac llia := rewrite ?len_app, ?len_cons, ?len_nil in *; len_facts; lia.

(** [b[lo:hi]]; [None] is the out-of-range panic. *)
Definition subslice {A} (b : list A) (lo hi : Z) : option (list A) :=
  if decide (0 <= lo /\ lo <= hi /\ hi <= len b)
  then Some (take (Z.to_nat (hi - lo)) (drop (Z.to_nat lo) b))
  else None.

(** Reading the middle of a concatenation gives the middle part. *)
Lemma subslice_mid {A} (a b c : list A) lo hi :
  lo = len a -> hi = len a + len b -> subslice (a ++ b ++ c) lo hi = Some b.
Proof.
  intros -> ->. unfold subslice. rewrite !len_app.
  pose proof (len_nonneg a). pose proof (len_nonneg b). pose proof (len_nonneg c).
  rewrite decide_True by lia. f_equal.
  replace (len a + len b - len a) with (len b) by lia.
  unfold len. rewrite !Nat2Z.id, drop_app_length, take_app_length. done.
Qed.

Lemma subslice_len {A} (b s : list A) lo hi :
  subslice b lo hi = Some s -> len s = hi - lo.
Proof.
  unfold subslice. intros H. case_decide; simplify_eq.
  unfold len in *. rewrite length_take, length_drop. lia.
Qed.

(** * [bytes.Compare]: the lexicographic order *)

Fixpoint bytes_compare (a b : bytes) : comparison :=
  match a, b with
  | [], [] => Eq
  | [], _ :: _ => Lt
  | _ :: _, [] => Gt
  | x :: a', y :: b' =>
      match Z.compare (b2z x) (b2z y) with
      | Eq => bytes_compare a' b'
      | c => c
      end
  end.

Definition bytes_lt (a b : bytes) : Prop := bytes_compare a b = Lt.
Definition bytes_ltb (a b : bytes) : bool :=
  match bytes_compare a b with Lt => true | _ => false end.

Declare Scope mem_scope.
Delimit Scope mem_scope with mem.
Notation "a ≺ b" := (bytes_lt a b) (at level 70) : mem_scope.
#[global] Open Scope mem_scope.

Lemma bytes_compare_refl a : bytes_compare a a = Eq.
Proof. induction a as [|x a IH]; simpl; [done|]. by rewrite Z.compare_refl. Qed.

Lemma bytes_compare_eq a b : bytes_compare a b = Eq <-> a = b.
Proof.
  split; [|intros ->; apply bytes_compare_refl].
  revert b. induction a as [|x a IH]; intros [|y b]; simpl; try done.
  destruct (Z.compare_spec (b2z x) (b2z y)) as [E| |]; try done.
  intros H. by rewrite (b2z_inj _ _ E), (IH b H).
Qed.

Lemma bytes_compare_antisym a b : bytes_compare b a = CompOpp (bytes_compare a b).
Proof.
  revert b. induction a as [|x a IH]; intros [|y b]; simpl; try done.
  rewrite (Z.compare_antisym (b2z x) (b2z y)).
  destruct (Z.compare (b2z x) (b2z y)); simpl; auto.
Qed.

Lemma bytes_lt_trans a b c : a ≺ b -> b ≺ c -> a ≺ c.
Proof.
  unfold bytes_lt. revert b c.
  induction a as [|x a IH]; intros [|y b] [|z c]; simpl; try done.
  destruct (Z.compare_spec (b2z x) (b2z y)) as [Hxy|Hxy|Hxy];
    destruct (Z.compare_spec (b2z y) (b2z z)) as [Hyz|Hyz|Hyz]; try done;
    destruct (Z.compare_spec (b2z x) (b2z z)); intros; eauto; lia.
Qed.

Lemma bytes_lt_irrefl a : ~ a ≺ a.
Proof. unfold bytes_lt. by rewrite bytes_compare_refl. Qed.

#[export] Instance bytes_lt_strict : StrictOrder bytes_lt.
Proof. split; [intros a; apply bytes_lt_irrefl | intros a b c; apply bytes_lt_trans]. Qed.

Lemma bytes_compare_gt a b : bytes_compare a b = Gt <-> b ≺ a.
Proof.
  unfold bytes_lt. rewrite (bytes_compare_antisym a b).
  by destruct (bytes_compare a b).
Qed.

Lemma bytes_compare_spec a b :
  CompareSpec (a = b) (a ≺ b) (b ≺ a) (bytes_compare a b).
Proof.
  destruct (bytes_compare a b) eqn:E; constructor; auto.
  - by apply bytes_compare_eq.
  - by apply bytes_compare_gt.
Qed.

Lemma bytes_ltb_lt a b : bytes_ltb a b = true <-> a ≺ b.
Proof. unfold bytes_ltb, bytes_lt. by destruct (bytes_compare a b). Qed.

Lemma bytes_ltb_nlt a b : bytes_ltb a b = false <-> ~ a ≺ b.
Proof. rewrite <- bytes_ltb_lt. destruct (bytes_ltb a b); naive_solver. Qed.

#[export] Instance bytes_lt_dec a b : Decision (a ≺ b).
Proof.
  destruct (bytes_ltb a b) eqn:E; [left | right].
  - by apply bytes_ltb_lt.
  - by apply bytes_ltb_nlt.
Defined.

Lemma bytes_lt_total a b : a ≺ b \/ a = b \/ b ≺ a.
Proof. destruct (bytes_compare_spec a b); auto. Qed.

Lemma bytes_nlt_le a b : ~ a ≺ b -> b = a \/ b ≺ a.
Proof. destruct (bytes_lt_total a b) as [?|[?|?]]; naive_solver. Qed.

Lemma bytes_nlt_trans a b c : ~ b ≺ a -> ~ c ≺ b -> ~ c ≺ a.
Proof.
  intros H1 H2 H3. destruct (bytes_nlt_le _ _ H2) as [->|H]; [done|].
  apply H1. by transitivity c.
Qed.

(** * Results: a Go call returns a value, an error, or panics *)

Inductive res (A : Type) : Type :=
| Ok (a : A)
| Err (e : string)
| Panic (msg : string).
Arguments Ok {A} _.
Arguments Err {A} _.
Arguments Panic {A} _.

Definition res_bind {A B} (m : res A) (f : A -> res B) : res B :=
  match m with
  | Ok a => f a
  | Err e => Err e
  | Panic s => Panic s
  end.

Notation "'let*' x ':=' m 'in' k" := (res_bind m (fun x => k))
  (at level 10, x pattern, k at level 200) : mem_scope.
Notation "'let?' x ':=' m 'in' k" := (@mbind option _ _ _ (fun x => k) m)
  (at level 10, x pattern, k at level 200) : mem_scope.

Definition of_option {A} (msg : string) (o : option A) : res A :=
  match o with Some a => Ok a | None => Panic msg end.

Lemma res_bind_ok {A B} (m : res A) (f : A -> res B) b :
  res_bind m f = Ok b <-> exists a, m = Ok a /\ f a = Ok b.
Proof. destruct m; simpl; naive_solver. Qed.

Lemma subslice_app_l {A} (a b : list A) hi : hi = len a -> subslice (a ++ b) 0 hi = Some a.
Proof. intros ->. rewrite <- (app_nil_l (a ++ b)). by apply subslice_mid. Qed.

Lemma Ok_inj {A} (a b : A) : Ok a = Ok b -> a = b.
Proof. by intros [= ->]. Qed.
