(* ===== verification/OrdMap.v ===== *)
(** The abstract ordered map.

    An IAVL store promises an ordered map from keys to values.  Its abstract
    value is the list of its pairs in strictly increasing key order; this file
    holds the reference operations on that list and the lemmas that let a tree
    proof work on the two halves of a node separately. *)
From stdpp Require Import prelude strings sorting.
From Stdlib Require Import ZArith Lia.
From S2P Require Import Prelude.
Local Open Scope Z_scope.

Abbreviation pairs := (list (bytes * slice)).

Definition keys_sorted (l : pairs) : Prop := StronglySorted bytes_lt l.*1.

Fixpoint assoc_get (k : bytes) (l : pairs) : slice :=
  match l with
  | [] => None
  | (k', v) :: l' => if decide (k = k') then v else assoc_get k l'
  end.

(** Insert or overwrite, keeping the order. *)
Fixpoint assoc_set (k : bytes) (v : slice) (l : pairs) : pairs :=
  match l with
  | [] => [(k, v)]
  | (k', v') :: l' =>
      match bytes_compare k k' with
      | Lt => (k, v) :: l
      | Eq => (k, v) :: l'
      | Gt => (k', v') :: assoc_set k v l'
      end
  end.

Definition assoc_del (k : bytes) (l : pairs) : pairs :=
  filter (fun p => p.1 <> k) l.

(** The number of keys strictly below [k]. *)
Fixpoint assoc_rank (k : bytes) (l : pairs) : Z :=
  match l with
  | [] => 0
  | (k', _) :: l' => (if bytes_ltb k' k then 1 else 0) + assoc_rank k l'
  end.

(** The pairs whose key lies in [[start, end)]; [None] is an open bound. *)
Definition in_range (start stop : slice) (k : bytes) : bool :=
  match start with None => true | Some s => negb (bytes_ltb k s) end &&
  match stop with None => true | Some e => bytes_ltb k e end.

Definition assoc_range (start stop : slice) (l : pairs) : pairs :=
  filter (fun p => in_range start stop p.1 = true) l.

(** Bounds of a half: every key below [k], every key at or above [k]. *)
Definition keys_below (k : bytes) (l : pairs) : Prop := Forall (fun p => p.1 ≺ k) l.
Definition keys_above (k : bytes) (l : pairs) : Prop := Forall (fun p => ~ p.1 ≺ k) l.

Create HintDb ordmap.

Lemma keys_sorted_app l1 l2 :
  keys_sorted (l1 ++ l2) <->
  keys_sorted l1 /\ keys_sorted l2 /\
  (forall p q, p ∈ l1 -> q ∈ l2 -> p.1 ≺ q.1).
Proof.
  unfold keys_sorted. rewrite fmap_app, StronglySorted_app.
  split; intros (H1 & H2 & H3); split_and!; auto.
  - intros p q Hp Hq. apply H1; by apply list_elem_of_fmap_2.
  - intros x y (p & -> & Hp)%list_elem_of_fmap_1 (q & -> & Hq)%list_elem_of_fmap_1. auto.
Qed.

Lemma keys_sorted_split k l1 l2 :
  keys_sorted l1 -> keys_sorted l2 -> keys_below k l1 -> keys_above k l2 ->
  keys_sorted (l1 ++ l2).
Proof.
  intros S1 S2 B A. apply keys_sorted_app. split_and!; auto.
  intros p q Hp Hq. unfold keys_below, keys_above in *.
  rewrite Forall_forall in B, A. specialize (B p Hp). specialize (A q Hq).
  destruct (bytes_nlt_le _ _ A) as [<-|]; [done|]. by transitivity k.
Qed.

(** A key on the left of a separator is handled entirely by the left half,
    one at or above it entirely by the right half. *)
Section Halves.
Context (k x : bytes) (l r : pairs).

Lemma keys_above_head : x ≺ k -> keys_above k r ->
  forall p, p ∈ r -> x ≺ p.1.
Proof.
  intros Hx A p Hp. unfold keys_above in A. rewrite Forall_forall in A.
  destruct (bytes_nlt_le _ _ (A p Hp)) as [<-|]; [done|]. by transitivity k.
Qed.

Lemma keys_below_tail : ~ x ≺ k -> keys_below k l ->
  forall p, p ∈ l -> p.1 ≺ x.
Proof.
  intros Hx B p Hp. unfold keys_below in B. rewrite Forall_forall in B.
  destruct (bytes_nlt_le _ _ Hx) as [<-|]; [by apply B|].
  transitivity k; auto.
Qed.

Lemma assoc_set_left v : x ≺ k -> keys_above k r ->
  assoc_set x v (l ++ r) = assoc_set x v l ++ r.
Proof.
  intros Hx A. pose proof (keys_above_head Hx A) as H. clear A.
  induction l as [|[k' v'] l' IH]; simpl.
  - destruct r as [|[k' v'] r']; simpl; [done|].
    specialize (H (k', v') ltac:(left)). simpl in H. unfold bytes_lt in H. by rewrite H.
  - destruct (bytes_compare x k'); simpl; by rewrite ?IH.
Qed.

Lemma assoc_set_right v : ~ x ≺ k -> keys_below k l ->
  assoc_set x v (l ++ r) = l ++ assoc_set x v r.
Proof.
  intros Hx B. pose proof (keys_below_tail Hx B) as H. clear B.
  induction l as [|[k' v'] l' IH]; simpl; [done|].
  assert (Hlt : k' ≺ x) by (apply (H (k', v')); left).
  apply bytes_compare_gt in Hlt. rewrite Hlt, IH; [done|].
  intros p Hp. apply H. by right.
Qed.

Lemma assoc_get_notin : (forall p, p ∈ l -> p.1 <> x) ->
  assoc_get x (l ++ r) = assoc_get x r.
Proof.
  intros H. induction l as [|[k' v'] l' IH]; simpl; [done|].
  rewrite decide_False.
  - apply IH. intros p Hp. apply H. by right.
  - intros ->. by apply (H (k', v')); [left|].
Qed.

Lemma assoc_get_left : x ≺ k -> keys_above k r ->
  assoc_get x (l ++ r) = assoc_get x l.
Proof.
  intros Hx A. pose proof (keys_above_head Hx A) as H. clear A.
  induction l as [|[k' v'] l' IH]; simpl.
  - induction r as [|[k' v'] r' IH]; simpl; [done|].
    rewrite decide_False.
    + apply IH. intros p Hp. apply H. by right.
    + intros <-. apply (bytes_lt_irrefl x), (H (x, v')). left.
  - case_decide; auto.
Qed.

Lemma assoc_get_right : ~ x ≺ k -> keys_below k l ->
  assoc_get x (l ++ r) = assoc_get x r.
Proof.
  intros Hx B. pose proof (keys_below_tail Hx B) as H.
  apply assoc_get_notin. intros p Hp E. specialize (H p Hp).
  rewrite E in H. by apply bytes_lt_irrefl in H.
Qed.

End Halves.

Lemma assoc_del_notin x l : (forall p, p ∈ l -> p.1 <> x) -> assoc_del x l = l.
Proof.
  intros H. induction l as [|p l IH]; [done|]. unfold assoc_del in *.
  rewrite filter_cons_True by (apply H; left).
  f_equal. apply IH. intros q Hq. apply H. by right.
Qed.

Lemma assoc_del_app x l r : assoc_del x (l ++ r) = assoc_del x l ++ assoc_del x r.
Proof. apply filter_app. Qed.

Lemma assoc_del_one x v : assoc_del x [(x, v)] = [].
Proof. unfold assoc_del. by rewrite filter_cons_False by (simpl; tauto). Qed.

Lemma assoc_del_left k x l r : x ≺ k -> keys_above k r ->
  assoc_del x (l ++ r) = assoc_del x l ++ r.
Proof.
  intros Hx A. rewrite assoc_del_app. f_equal. apply assoc_del_notin.
  intros p Hp E. pose proof (keys_above_head _ _ _ Hx A p Hp) as H.
  rewrite E in H. by apply bytes_lt_irrefl in H.
Qed.

Lemma assoc_del_right k x l r : ~ x ≺ k -> keys_below k l ->
  assoc_del x (l ++ r) = l ++ assoc_del x r.
Proof.
  intros Hx B. rewrite assoc_del_app. f_equal. apply assoc_del_notin.
  intros p Hp E. pose proof (keys_below_tail _ _ _ Hx B p Hp) as H.
  rewrite E in H. by apply bytes_lt_irrefl in H.
Qed.

Lemma assoc_rank_app x l r : assoc_rank x (l ++ r) = assoc_rank x l + assoc_rank x r.
Proof. induction l as [|[k v] l IH]; simpl; [done|]. rewrite IH. lia. Qed.

Lemma assoc_rank_all x l : (forall p, p ∈ l -> p.1 ≺ x) -> assoc_rank x l = len l.
Proof.
  induction l as [|[k v] l IH]; intros H; [done|]. simpl. rewrite len_cons.
  rewrite (proj2 (bytes_ltb_lt k x)) by (apply (H (k, v)); left).
  rewrite IH; [done|]. intros p Hp. apply H. by right.
Qed.

Lemma assoc_rank_none x l : (forall p, p ∈ l -> x ≺ p.1) -> assoc_rank x l = 0.
Proof.
  induction l as [|[k v] l IH]; intros H; [done|]. simpl.
  assert (Hk : x ≺ k) by (apply (H (k, v)); left).
  rewrite (proj2 (bytes_ltb_nlt k x)); [|intros Hk'; by apply (bytes_lt_irrefl x); transitivity k].
  rewrite IH; [done|]. intros p Hp. apply H. by right.
Qed.

Lemma assoc_rank_left k x l r : x ≺ k -> keys_above k r ->
  assoc_rank x (l ++ r) = assoc_rank x l.
Proof.
  intros Hx A. rewrite assoc_rank_app, (assoc_rank_none x r); [lia|].
  by apply (keys_above_head k).
Qed.

Lemma assoc_rank_right k x l r : ~ x ≺ k -> keys_below k l ->
  assoc_rank x (l ++ r) = len l + assoc_rank x r.
Proof.
  intros Hx B. rewrite assoc_rank_app, (assoc_rank_all x l); [lia|].
  by apply (keys_below_tail k).
Qed.

Lemma assoc_rank_bounds x l : 0 <= assoc_rank x l <= len l.
Proof.
  induction l as [|[k v] l IH]; simpl; [done|]. rewrite len_cons.
  destruct (bytes_ltb k x); lia.
Qed.

(** ** What the reference operations do to the contents *)

Lemma elem_of_assoc_set x v l p :
  p ∈ assoc_set x v l -> p = (x, v) \/ p ∈ l.
Proof.
  induction l as [|[k' v'] l IH]; simpl.
  - rewrite list_elem_of_singleton. auto.
  - destruct (bytes_compare x k'); rewrite !elem_of_cons; naive_solver.
Qed.

Lemma elem_of_assoc_del x l p : p ∈ assoc_del x l <-> p.1 <> x /\ p ∈ l.
Proof. unfold assoc_del. by rewrite list_elem_of_filter. Qed.

Lemma Forall_assoc_set (P : bytes * slice -> Prop) x v l :
  P (x, v) -> Forall P l -> Forall P (assoc_set x v l).
Proof.
  rewrite !Forall_forall. intros Hx Hl p Hp.
  apply elem_of_assoc_set in Hp as [->|]; auto.
Qed.

Lemma Forall_assoc_del (P : bytes * slice -> Prop) x l :
  Forall P l -> Forall P (assoc_del x l).
Proof.
  rewrite !Forall_forall. intros Hl p Hp. apply elem_of_assoc_del in Hp as []. auto.
Qed.

Lemma keys_sorted_cons p l :
  keys_sorted (p :: l) <-> keys_sorted l /\ (forall q, q ∈ l -> p.1 ≺ q.1).
Proof.
  change (p :: l) with ([p] ++ l). rewrite keys_sorted_app. split.
  - intros (_ & H & Hlt). split; [done|]. intros q. apply Hlt. by left.
  - intros (H & Hlt). split_and!; [|done|].
    + repeat constructor.
    + intros q r ->%list_elem_of_singleton. apply Hlt.
Qed.

Lemma keys_sorted_set x v l : keys_sorted l -> keys_sorted (assoc_set x v l).
Proof.
  induction l as [|[k' v'] l IH]; simpl; intros Hs.
  - repeat constructor.
  - pose proof Hs as [Hl Hlt]%keys_sorted_cons.
    destruct (bytes_compare_spec x k') as [->|Hx|Hx].
    + by apply keys_sorted_cons.
    + apply keys_sorted_cons. split; [done|]. intros q [->|Hq]%elem_of_cons; [done|].
      transitivity k'; [done|]. by apply Hlt.
    + apply keys_sorted_cons. split; [by apply IH|]. intros q [->|Hq]%elem_of_assoc_set; auto.
Qed.

Lemma keys_sorted_del x l : keys_sorted l -> keys_sorted (assoc_del x l).
Proof.
  induction l as [|p l IH]; intros Hs; [done|].
  pose proof Hs as [Hl Hlt]%keys_sorted_cons. unfold assoc_del. rewrite filter_cons.
  case_decide; [|by apply IH]. apply keys_sorted_cons. split; [by apply IH|].
  intros q [_ Hq]%elem_of_assoc_del. auto.
Qed.

(** Reading back: the ordered map is a map. *)
Lemma assoc_get_set x y v l : keys_sorted l ->
  assoc_get y (assoc_set x v l) = if decide (y = x) then v else assoc_get y l.
Proof.
  induction l as [|[k' v'] l IH]; simpl; intros Hs; [done|].
  pose proof Hs as [Hl Hlt]%keys_sorted_cons.
  destruct (bytes_compare_spec x k') as [->|Hx|Hx]; simpl; [by repeat case_decide..|].
  rewrite IH by done. repeat case_decide; subst; try done.
  by apply bytes_lt_irrefl in Hx.
Qed.

Lemma assoc_get_del x y l :
  assoc_get y (assoc_del x l) = if decide (y = x) then None else assoc_get y l.
Proof.
  induction l as [|[k' v'] l IH]; simpl; [by case_decide|].
  unfold assoc_del in *. rewrite filter_cons. simpl.
  repeat (case_decide; simpl; subst; try done).
Qed.

Lemma assoc_get_lookup (l : pairs) x v :
  keys_sorted l -> (x, v) ∈ l -> assoc_get x l = v.
Proof.
  induction l as [|[k' v'] l IH]; simpl; [by intros _ ?%elem_of_nil|].
  intros [Hl Hlt]%keys_sorted_cons [?|Hin]%elem_of_cons; [simplify_eq; by rewrite decide_True|].
  specialize (Hlt _ Hin). simpl in Hlt. case_decide; [subst; by apply bytes_lt_irrefl in Hlt|auto].
Qed.

Lemma len_assoc_set x v l : len l <= len (assoc_set x v l) <= len l + 1.
Proof.
  induction l as [|[y w] l IH]; simpl; [llia|].
  destruct (bytes_compare x y); rewrite ?len_cons; llia.
Qed.

Lemma len_assoc_del x l : len (assoc_del x l) <= len l.
Proof. unfold len, assoc_del. pose proof (length_filter (fun p : bytes * slice => p.1 <> x) l). lia. Qed.

(** In a sorted list the rank separates the keys below [x] from the others. *)
Lemma assoc_rank_spec x l i p :
  keys_sorted l -> l !! i = Some p -> (p.1 ≺ x <-> Z.of_nat i < assoc_rank x l).
Proof.
  revert i. induction l as [|[y v] l IH]; intros i S Hi; [done|].
  apply keys_sorted_cons in S as [S Ha]. simpl.
  assert (Hz : ~ y ≺ x -> assoc_rank x l = 0).
  { intros Hn. apply assoc_rank_none. intros q Hq. specialize (Ha q Hq). simpl in Ha.
    destruct (bytes_nlt_le _ _ Hn) as [->|]; [done|by transitivity y]. }
  pose proof (assoc_rank_bounds x l). destruct i as [|i]; simplify_eq/=.
  - destruct (bytes_ltb y x) eqn:E; [apply bytes_ltb_lt in E|apply bytes_ltb_nlt in E].
    + split; [lia|done].
    + rewrite Hz by done. split; [done|lia].
  - rewrite (IH i S Hi). destruct (bytes_ltb y x) eqn:E; [lia|].
    apply bytes_ltb_nlt in E. rewrite Hz by done. lia.
Qed.

Lemma assoc_get_rank x l :
  keys_sorted l ->
  assoc_get x l = match l !! Z.to_nat (assoc_rank x l) with
                  | Some (k, v) => if decide (k = x) then v else None
                  | None => None
                  end.
Proof.
  induction l as [|[y v] l IH]; intros S; [done|].
  apply keys_sorted_cons in S as [S Ha]. simpl. pose proof (assoc_rank_bounds x l).
  destruct (bytes_ltb y x) eqn:E.
  - apply bytes_ltb_lt in E. rewrite Z2Nat.inj_add by lia. simpl.
    rewrite decide_False by (intros ->; by apply bytes_lt_irrefl in E). by apply IH.
  - apply bytes_ltb_nlt in E.
    assert (Hz : assoc_rank x l = 0).
    { apply assoc_rank_none. intros q Hq. specialize (Ha q Hq). simpl in Ha.
      destruct (bytes_nlt_le _ _ E) as [->|]; [done|by transitivity y]. }
    rewrite IH, Hz by done. simpl. destruct (decide (x = y)) as [->|]; [by rewrite decide_True|].
    rewrite decide_False by done. destruct l as [|[z w] l]; [done|]. simpl.
    rewrite decide_False; [done|]. intros ->.
    specialize (Ha (x, w) ltac:(left)). done.
Qed.

Lemma assoc_rank_at x v l i : keys_sorted l -> l !! i = Some (x, v) -> assoc_rank x l = Z.of_nat i.
Proof.
  revert i. induction l as [|[y w] l IH]; intros i S Hi; [done|].
  apply keys_sorted_cons in S as [S Ha]. destruct i as [|i]; simplify_eq/=.
  - rewrite (proj2 (bytes_ltb_nlt x x)) by apply bytes_lt_irrefl.
    rewrite assoc_rank_none; [done|]. intros p Hp. by apply (Ha p).
  - rewrite (proj2 (bytes_ltb_lt y x)) by (apply (Ha (x, v)), (list_elem_of_lookup_2 _ _ _ Hi)).
    rewrite (IH i S Hi). lia.
Qed.
