(* ===== verification/Codec.v ===== *)
(** Byte encodings: what the code uses of Go's [encoding/binary], and the
    length-prefixed strings of [memiavl/mem_node.go] ([EncodeBytes]).

    Every decoder returns the unread suffix, so that round trips compose. *)
From stdpp Require Import prelude strings.
From Stdlib Require Import ZArith Lia.
From S2P Require Import Prelude.
Local Open Scope Z_scope.

(** ** Little-endian integers: [binary.LittleEndian.PutUintN]/[UintN] *)

Fixpoint le_encode (n : nat) (z : Z) : bytes :=
  match n with
  | O => []
  | S n' => z2b z :: le_encode n' (Z.shiftr z 8)
  end.

Fixpoint le_decode (bs : bytes) : Z :=
  match bs with
  | [] => 0
  | b :: bs' => b2z b + Z.shiftl (le_decode bs') 8
  end.

Definition PutUint32 (z : Z) : bytes := le_encode 4 z.
Definition PutUint64 (z : Z) : bytes := le_encode 8 z.

(** [Uint32(b)] reads the first four bytes and panics on a shorter slice. *)
Definition Uint32 (b : bytes) : option Z :=
  if decide (4 <= len b) then Some (le_decode (take 4 b)) else None.
Definition Uint64 (b : bytes) : option Z :=
  if decide (8 <= len b) then Some (le_decode (take 8 b)) else None.

Lemma length_le_encode n z : length (le_encode n z) = n.
Proof. revert z. induction n as [|n IH]; intros z; simpl; auto. Qed.

Lemma len_le_encode n z : len (le_encode n z) = Z.of_nat n.
Proof. unfold len. by rewrite length_le_encode. Qed.

Lemma le_decode_encode n z : le_decode (le_encode n z) = z mod 2 ^ (8 * Z.of_nat n).
Proof.
  revert z. induction n as [|n IH]; intros z; cbn [le_encode le_decode].
  - by rewrite Z.mod_1_r.
  - rewrite IH, b2z_z2b, Z.shiftr_div_pow2, Z.shiftl_mul_pow2 by lia.
    replace (8 * Z.of_nat (S n)) with (8 + 8 * Z.of_nat n) by lia.
    rewrite Z.pow_add_r by lia. change (2 ^ 8) with 256.
    rewrite (Z.rem_mul_r z 256) by lia. lia.
Qed.

Lemma Uint32_Put z rest : 0 <= z < 2 ^ 32 -> Uint32 (PutUint32 z ++ rest) = Some z.
Proof.
  intros Hz. unfold Uint32, PutUint32. rewrite decide_True by (pose proof (len_le_encode 4 z); llia).
  rewrite take_app_length' by by rewrite length_le_encode.
  rewrite le_decode_encode. f_equal. by apply Z.mod_small.
Qed.

Lemma Uint64_Put z rest : 0 <= z < 2 ^ 64 -> Uint64 (PutUint64 z ++ rest) = Some z.
Proof.
  intros Hz. unfold Uint64, PutUint64. rewrite decide_True by (pose proof (len_le_encode 8 z); llia).
  rewrite take_app_length' by by rewrite length_le_encode.
  rewrite le_decode_encode. f_equal. by apply Z.mod_small.
Qed.

(** ** Variable-length integers *)

Definition MaxVarintLen64 : nat := 10.

(** [PutUvarint]: ten bytes hold any [uint64], so ten rounds are enough. *)
Fixpoint put_uvarint (fuel : nat) (x : Z) : bytes :=
  match fuel with
  | O => []
  | S f =>
      if x <? 128 then [z2b x]
      else z2b (Z.lor x 128) :: put_uvarint f (Z.shiftr x 7)
  end.
Definition PutUvarint (x : Z) : bytes := put_uvarint MaxVarintLen64 x.

(** [PutVarint]: the zig-zag code of an [int64]. *)
Definition PutVarint (x : Z) : bytes :=
  let ux := u64 (Z.shiftl x 1) in
  PutUvarint (if x <? 0 then u64 (Z.lnot ux) else ux).

(** The loop shared by [Uvarint] and [ReadUvarint]: [i] bytes were read, [s]
    is the shift, [x] the value so far. *)
Inductive uvarint_result : Type :=
| UvDone (x : Z) (rest : bytes)
| UvTruncated (i : nat)
| UvOverflow (i : nat).

Fixpoint uvarint_loop (i : nat) (s x : Z) (buf : bytes) : uvarint_result :=
  match buf with
  | [] => UvTruncated i
  | b :: rest =>
      if decide (i = MaxVarintLen64) then UvOverflow i
      else if b2z b <? 128 then
        if decide (i = pred MaxVarintLen64 /\ 1 < b2z b) then UvOverflow i
        else UvDone (Z.lor x (u64 (Z.shiftl (b2z b) s))) rest
      else uvarint_loop (S i) (s + 7) (Z.lor x (u64 (Z.shiftl (Z.land (b2z b) 127) s))) rest
  end.

Definition uvarint (buf : bytes) : uvarint_result := uvarint_loop 0 0 0 buf.

(** [binary.Uvarint]: the value and the bytes read, [n <= 0] on failure. *)
Definition Uvarint (buf : bytes) : Z * Z :=
  match uvarint buf with
  | UvDone x rest => (x, len buf - len rest)
  | UvTruncated _ => (0, 0)
  | UvOverflow i => (0, - (Z.of_nat i + 1))
  end.

(** [binary.ReadUvarint] on a reader holding [buf]. *)
Definition ReadUvarint (buf : bytes) : res (Z * bytes) :=
  match uvarint buf with
  | UvDone x rest => Ok (x, rest)
  | UvTruncated O => Err "EOF"
  | UvTruncated (S _) => Err "unexpected EOF"
  | UvOverflow _ => Err "binary: varint overflows a 64-bit integer"
  end.

(** [io.ReadFull] of [n] bytes. *)
Definition ReadFull (n : Z) (buf : bytes) : res (bytes * bytes) :=
  if decide (n <= len buf) then Ok (take (Z.to_nat n) buf, drop (Z.to_nat n) buf)
  else if decide (len buf = 0) then Err "EOF" else Err "unexpected EOF".

(** [io.ByteReader.ReadByte]. *)
Definition ReadByte (buf : bytes) : res (byte * bytes) :=
  match buf with b :: rest => Ok (b, rest) | [] => Err "EOF" end.

Lemma lor_128_byte x : 0 <= x -> b2z (z2b (Z.lor x 128)) = 128 + x mod 128.
Proof.
  intros Hx. rewrite b2z_z2b. change 256 with (2 ^ 8). rewrite <- Z.land_ones by lia.
  rewrite Z.land_lor_distr_l, Z.land_ones by lia. change (Z.land 128 (Z.ones 8)) with 128.
  replace (x mod 128) with ((x mod 2 ^ 8) mod 128) by (change (2^8) with (128 * 2); dlia).
  pose proof (Z.mod_pos_bound x (2 ^ 8) ltac:(lia)) as Hr.
  generalize dependent (x mod 2 ^ 8). clear Hx x. intros y Hy.
  assert (H : forallb (fun n => Z.lor (Z.of_nat n) 128 =? 128 + Z.of_nat n mod 128) (seq 0 256) = true)
    by (vm_compute; reflexivity).
  rewrite forallb_forall in H. specialize (H (Z.to_nat y)).
  rewrite Z2Nat.id in H by lia. apply Z.eqb_eq, H. apply in_seq. lia.
Qed.

Lemma land_127_byte b : 128 <= b < 256 -> Z.land b 127 = b - 128.
Proof.
  intros Hb. change 127 with (Z.ones 7). rewrite Z.land_ones by lia.
  change (2 ^ 7) with 128. dlia.
Qed.

(** Adding a digit above the bits already read. *)
Lemma lor_digit x d s : 0 <= s -> 0 <= x < 2 ^ s -> 0 <= d -> d * 2 ^ s < 2 ^ 64 ->
  Z.lor x (u64 (Z.shiftl d s)) = x + d * 2 ^ s.
Proof.
  intros Hs Hx Hd Hb. rewrite Z.shiftl_mul_pow2 by lia. rewrite u64_small by nia.
  symmetry. apply Z.add_nocarry_lor.
  apply Z.bits_inj'. intros i Hi. rewrite Z.land_spec, Z.bits_0.
  destruct (decide (i < s)).
  - rewrite Z.mul_pow2_bits_low by lia. by rewrite andb_false_r.
  - destruct (decide (x = 0)) as [->|]; [by rewrite Z.bits_0|].
    rewrite (Z.bits_above_log2 x i); [done|lia|].
    apply Z.log2_lt_pow2; [lia|]. eapply Z.lt_le_trans; [apply Hx|].
    apply Z.pow_le_mono_r; lia.
Qed.

Lemma uvarint_loop_put f i acc x rest :
  (f + i = MaxVarintLen64)%nat -> (0 < f)%nat ->
  0 <= acc < 2 ^ (7 * Z.of_nat i) -> 0 <= x < 2 ^ (64 - 7 * Z.of_nat i) ->
  uvarint_loop i (7 * Z.of_nat i) acc (put_uvarint f x ++ rest) =
  UvDone (acc + x * 2 ^ (7 * Z.of_nat i)) rest.
Proof.
  revert i acc x. induction f as [|f IH]; intros i acc x Hf Hpos Hacc Hx; [lia|].
  assert (Hi : (i <= 9)%nat) by (unfold MaxVarintLen64 in *; lia).
  assert (Hxs : x * 2 ^ (7 * Z.of_nat i) < 2 ^ 64).
  { replace 64 with (64 - 7 * Z.of_nat i + 7 * Z.of_nat i) at 1 by lia.
    rewrite Z.pow_add_r by lia. apply Z.mul_lt_mono_pos_r; lia. }
  cbn [put_uvarint]. destruct (Z.ltb_spec x 128) as [Hlt|Hge]; cbn [app uvarint_loop].
  - rewrite decide_False by (unfold MaxVarintLen64; lia).
    rewrite b2z_z2b, Z.mod_small by lia. rewrite (proj2 (Z.ltb_lt x 128)) by done.
    rewrite decide_False.
    + by rewrite lor_digit by lia.
    + intros [Hi9 Hx1]. unfold MaxVarintLen64 in Hi9. simpl in Hi9. subst i. simpl in Hx. lia.
  - rewrite decide_False by (unfold MaxVarintLen64; lia).
    rewrite lor_128_byte by lia. destruct (Z.ltb_spec (128 + x mod 128) 128); [dlia|].
    rewrite land_127_byte by dlia. replace (128 + x mod 128 - 128) with (x mod 128) by lia.
    assert (Hi8 : (i <= 8)%nat).
    { destruct (decide (i = 9%nat)) as [->|]; [simpl in Hx; lia|lia]. }
    set (s := 7 * Z.of_nat i) in *.
    assert (Hs7 : 2 ^ (s + 7) = 128 * 2 ^ s) by (rewrite Z.pow_add_r by lia; lia).
    assert (Hdm : x = 128 * (x / 128) + x mod 128) by dlia.
    assert (Hm : 0 <= x mod 128 < 128) by dlia.
    rewrite lor_digit by nia.
    replace (s + 7) with (7 * Z.of_nat (S i)) by lia.
    rewrite Z.shiftr_div_pow2 by lia. change (2 ^ 7) with 128.
    assert (E7 : 7 * Z.of_nat (S i) = s + 7) by lia.
    rewrite IH; try (unfold MaxVarintLen64 in *; lia).
    + rewrite E7, Hs7.
      match goal with |- UvDone ?a _ = UvDone ?b _ => assert (a = b) as ->; [nia|done] end.
    + rewrite E7, Hs7. nia.
    + assert (2 ^ (64 - s) = 128 * 2 ^ (64 - 7 * Z.of_nat (S i))).
      { change 128 with (2 ^ 7). rewrite <- Z.pow_add_r by lia. f_equal. lia. }
      split; [dlia|]. apply Z.div_lt_upper_bound; lia.
Qed.

Lemma uvarint_Put x rest : 0 <= x < 2 ^ 64 -> uvarint (PutUvarint x ++ rest) = UvDone x rest.
Proof.
  intros Hx. unfold uvarint, PutUvarint. change 0 with (7 * Z.of_nat 0) at 1.
  rewrite uvarint_loop_put; unfold MaxVarintLen64; try (simpl; lia). f_equal. simpl. lia.
Qed.

Lemma ReadUvarint_Put x rest : 0 <= x < 2 ^ 64 -> ReadUvarint (PutUvarint x ++ rest) = Ok (x, rest).
Proof. intros Hx. unfold ReadUvarint. by rewrite uvarint_Put. Qed.

Lemma Uvarint_Put x rest : 0 <= x < 2 ^ 64 ->
  Uvarint (PutUvarint x ++ rest) = (x, len (PutUvarint x)).
Proof. intros Hx. unfold Uvarint. rewrite uvarint_Put by done. f_equal. llia. Qed.

Lemma ReadFull_app a rest n : n = len a -> ReadFull n (a ++ rest) = Ok (a, rest).
Proof.
  intros ->. unfold ReadFull. rewrite decide_True by llia. unfold len. rewrite Nat2Z.id.
  by rewrite take_app_length, drop_app_length.
Qed.

Lemma PutUvarint_nonempty x : PutUvarint x <> [].
Proof. unfold PutUvarint, MaxVarintLen64. cbn [put_uvarint]. by destruct (x <? 128). Qed.

(** The zig-zag code separates the signed integers. *)
Lemma PutVarint_inj x y :
  - 2 ^ 63 <= x < 2 ^ 63 -> - 2 ^ 63 <= y < 2 ^ 63 -> forall r r',
  PutVarint x ++ r = PutVarint y ++ r' -> x = y /\ r = r'.
Proof.
  intros Hx Hy r r' E. unfold PutVarint in E.
  assert (Zz : forall z, - 2 ^ 63 <= z < 2 ^ 63 ->
    (if z <? 0 then u64 (Z.lnot (u64 (Z.shiftl z 1))) else u64 (Z.shiftl z 1)) =
    if z <? 0 then - 2 * z - 1 else 2 * z).
  { intros z Hz. rewrite Z.shiftl_mul_pow2 by lia. destruct (Z.ltb_spec z 0).
    - assert (u64 (z * 2 ^ 1) = 2 * z + 2 ^ 64) as ->.
      { unfold u64. symmetry. apply (Z.mod_unique _ _ (-1)); lia. }
      unfold Z.lnot, u64. symmetry. apply (Z.mod_unique _ _ (-1)); lia.
    - rewrite u64_small; lia. }
  rewrite !Zz in E by done.
  apply (f_equal uvarint) in E.
  rewrite !uvarint_Put in E by (destruct (x <? 0) eqn:?, (y <? 0) eqn:?; lia).
  injection E as E ->. split; [|done].
  destruct (Z.ltb_spec x 0), (Z.ltb_spec y 0); lia.
Qed.

(** ** Length-prefixed byte strings *)

Definition EncodeBytes (bz : bytes) : bytes := PutUvarint (len bz) ++ bz.

Definition DecodeBytes (buf : bytes) : res (bytes * bytes) :=
  let* (n, rest) := ReadUvarint buf in ReadFull n rest.

Lemma DecodeBytes_Encode bz rest : len bz < 2 ^ 64 ->
  DecodeBytes (EncodeBytes bz ++ rest) = Ok (bz, rest).
Proof.
  intros Hl. unfold DecodeBytes, EncodeBytes. rewrite <- app_assoc, ReadUvarint_Put by llia.
  simpl. by apply ReadFull_app.
Qed.

Lemma EncodeBytes_inj a b r r' : len a < 2 ^ 64 -> len b < 2 ^ 64 ->
  EncodeBytes a ++ r = EncodeBytes b ++ r' -> a = b /\ r = r'.
Proof.
  intros Ha Hb E. apply (f_equal DecodeBytes) in E.
  rewrite !DecodeBytes_Encode in E by done. by injection E as -> ->.
Qed.

#[global] Arguments PutUint32 : simpl never.
#[global] Arguments PutUint64 : simpl never.
#[global] Arguments PutVarint : simpl never.
#[global] Arguments PutUvarint : simpl never.
#[global] Arguments EncodeBytes : simpl never.
