(* ===== verification/Node.v ===== *)
(** The IAVL tree as a value: [memiavl/node.go] and [memiavl/mem_node.go].

    [Node] is the tree the Go [Node] interface presents, without the
    difference between [MemNode] and [PersistedNode] and with value semantics:
    [Mutate] returns the node with its version replaced.  [Heap.v] models the
    same code on a store of mutable [MemNode]s and proves that it computes
    what is defined here; [Persisted.v] proves that a [PersistedNode] presents
    the tree that was written to its snapshot.

    Theorems: [setRecursive] and [removeRecursive] keep the AVL balance, the
    cached height and size (at their machine widths) and the search-tree
    order, and act on the leaves as the ordered map of [OrdMap.v]; [Get] and
    [GetByIndex] read that map. *)
From stdpp Require Import prelude strings sorting.
From Stdlib Require Import ZArith Lia.
From S2P Require Import Prelude OrdMap.
Local Open Scope Z_scope.

(** A leaf has height 0 and size 1; a branch caches its height and size. *)
Inductive Node : Type :=
| Leaf (version : Z) (key : bytes) (value : slice)
| Branch (height size version : Z) (key : bytes) (left right : Node).

Definition Height (n : Node) : Z := match n with Leaf _ _ _ => 0 | Branch h _ _ _ _ _ => h end.
Definition IsLeaf (n : Node) : bool := match n with Leaf _ _ _ => true | _ => false end.
Definition Size (n : Node) : Z := match n with Leaf _ _ _ => 1 | Branch _ s _ _ _ _ => s end.
Definition Version (n : Node) : Z := match n with Leaf v _ _ | Branch _ _ v _ _ _ => v end.
Definition Key (n : Node) : bytes := match n with Leaf _ k _ | Branch _ _ _ k _ _ => k end.
Definition Value (n : Node) : slice := match n with Leaf _ _ v => v | _ => None end.

Definition newLeafNode (key : bytes) (value : slice) (version : Z) : Node :=
  Leaf version key value.

(** [Mutate]: the node that will be modified, stamped with the new version. *)
Definition Mutate (n : Node) (version : Z) : Node :=
  match n with
  | Leaf _ k v => Leaf version k v
  | Branch h s _ k l r => Branch h s version k l r
  end.

Definition updateHeightSize (n : Node) : Node :=
  match n with
  | Leaf _ _ _ => n
  | Branch _ _ v k l r =>
      Branch (u8 (Z.max (Height l) (Height r) + 1)) (i64 (Size l + Size r)) v k l r
  end.

Definition calcBalance (n : Node) : Z :=
  match n with
  | Leaf _ _ _ => 0
  | Branch _ _ _ _ l r => Height l - Height r
  end.

Definition rotateRight (n : Node) (version : Z) : Node :=
  match n with
  | Branch h s v k l r =>
      match Mutate l version with
      | Branch lh ls lv lk ll lr =>
          updateHeightSize (Branch lh ls lv lk ll (updateHeightSize (Branch h s v k lr r)))
      | Leaf _ _ _ => n
      end
  | Leaf _ _ _ => n
  end.

Definition rotateLeft (n : Node) (version : Z) : Node :=
  match n with
  | Branch h s v k l r =>
      match Mutate r version with
      | Branch rh rs rv rk rl rr =>
          updateHeightSize (Branch rh rs rv rk (updateHeightSize (Branch h s v k l rl)) rr)
      | Leaf _ _ _ => n
      end
  | Leaf _ _ _ => n
  end.

Definition reBalance (n : Node) (version : Z) : Node :=
  match n with
  | Leaf _ _ _ => n
  | Branch h s v k l r =>
      let balance := calcBalance n in
      if balance >? 1 then
        if calcBalance l >=? 0 then rotateRight n version
        else rotateRight (Branch h s v k (rotateLeft (Mutate l version) version) r) version
      else if balance <? -1 then
        if calcBalance r <=? 0 then rotateLeft n version
        else rotateLeft (Branch h s v k l (rotateRight (Mutate r version) version)) version
      else n
  end.

(** [setRecursive] below a non-nil node: the new node and the [updated] flag. *)
Fixpoint setNode (node : Node) (key : bytes) (value : slice) (version : Z) : Node * bool :=
  match node with
  | Leaf _ nodeKey _ =>
      match bytes_compare key nodeKey with
      | Lt => (Branch 1 2 version nodeKey (newLeafNode key value version) node, false)
      | Gt => (Branch 1 2 version key node (newLeafNode key value version), false)
      | Eq => (newLeafNode nodeKey value version, true)
      end
  | Branch h s v nodeKey l r =>
      let '(newNode, updated) :=
        if bytes_ltb key nodeKey then
          let '(newChild, updated) := setNode l key value version in
          (Branch h s version nodeKey newChild r, updated)
        else
          let '(newChild, updated) := setNode r key value version in
          (Branch h s version nodeKey l newChild, updated) in
      if updated then (newNode, true)
      else (reBalance (updateHeightSize newNode) version, false)
  end.

(** The root of an empty tree is nil ([None]). *)
Definition setRecursive (node : option Node) (key : bytes) (value : slice) (version : Z)
  : Node * bool :=
  match node with
  | None => (newLeafNode key value version, true)
  | Some n => setNode n key value version
  end.

(** [removeRecursive] below a non-nil node: the removed value (nil when the key
    is absent), the new subtree (nil when the leaf itself is removed) and the
    new smallest key of the subtree, when it changed. *)
Fixpoint removeNode (node : Node) (key : bytes) (version : Z)
  : slice * option Node * option bytes :=
  match node with
  | Leaf _ nodeKey value =>
      if decide (nodeKey = key) then (value, None, None) else (None, Some node, None)
  | Branch h s v nodeKey l r =>
      if bytes_ltb key nodeKey then
        match removeNode l key version with
        | (None, _, _) => (None, Some node, None)
        | (Some value, None, _) => (Some value, Some r, Some nodeKey)
        | (Some value, Some newLeft, newKey) =>
            (Some value,
             Some (reBalance (updateHeightSize (Branch h s version nodeKey newLeft r)) version),
             newKey)
        end
      else
        match removeNode r key version with
        | (None, _, _) => (None, Some node, None)
        | (Some value, None, _) => (Some value, Some l, None)
        | (Some value, Some newRight, newKey) =>
            let nodeKey' := match newKey with Some k => k | None => nodeKey end in
            (Some value,
             Some (reBalance (updateHeightSize (Branch h s version nodeKey' l newRight)) version),
             None)
        end
  end.

Definition removeRecursive (node : option Node) (key : bytes) (version : Z)
  : slice * option Node * option bytes :=
  match node with
  | None => (None, None, None)
  | Some n => removeNode n key version
  end.

(** [Get]: the value and the rank of the key, at [uint32]. *)
Fixpoint Get (n : Node) (key : bytes) : slice * Z :=
  match n with
  | Leaf _ k v =>
      match bytes_compare k key with
      | Lt => (None, 1)
      | Gt => (None, 0)
      | Eq => (v, 0)
      end
  | Branch _ s _ k l r =>
      if bytes_ltb key k then Get l key
      else let '(value, index) := Get r key in
           (value, u32 (u32 (index + u32 s) - u32 (Size r)))
  end.

Fixpoint GetByIndex (n : Node) (index : Z) : option (bytes * slice) :=
  match n with
  | Leaf _ k v => if index =? 0 then Some (k, v) else None
  | Branch _ _ _ _ l r =>
      let leftSize := u32 (Size l) in
      if index <? leftSize then GetByIndex l index
      else GetByIndex r (u32 (index - leftSize))
  end.

(** ** The well-formedness invariant *)

(** The leaves, in order: the abstract ordered map. *)
Fixpoint to_list (n : Node) : pairs :=
  match n with
  | Leaf _ k v => [(k, v)]
  | Branch _ _ _ _ l r => to_list l ++ to_list r
  end.

Fixpoint min_key (n : Node) : bytes :=
  match n with Leaf _ k _ => k | Branch _ _ _ _ l _ => min_key l end.

(** Cached heights are right and siblings differ by at most one. *)
Fixpoint avl (n : Node) : Prop :=
  match n with
  | Leaf _ _ _ => True
  | Branch h _ _ _ l r =>
      avl l /\ avl r /\ h = 1 + Z.max (Height l) (Height r) /\
      -1 <= Height l - Height r <= 1
  end.

(** Cached sizes are right. *)
Fixpoint sized (n : Node) : Prop :=
  match n with
  | Leaf _ _ _ => True
  | Branch _ s _ _ l r => sized l /\ sized r /\ s = Size l + Size r
  end.

(** A branch key separates its halves and is the smallest key of the right one. *)
Fixpoint search_tree (n : Node) : Prop :=
  match n with
  | Leaf _ _ _ => True
  | Branch _ _ _ k l r =>
      search_tree l /\ search_tree r /\
      keys_below k (to_list l) /\ keys_above k (to_list r) /\ k = min_key r
  end.

Definition wf (n : Node) : Prop := avl n /\ sized n /\ search_tree n.

(** Far above what the [uint32] leaf indices of a snapshot admit. *)
Definition max_leaves : Z := 2 ^ 62.
Definition small (n : Node) : Prop := len (to_list n) < max_leaves.

(** ** Basic facts of the invariant *)

Lemma to_list_nonempty n : 1 <= len (to_list n).
Proof.
  induction n as [v k x|h s v k l IHl r IHr]; simpl; [done|].
  rewrite len_app. lia.
Qed.

Lemma sized_len n : sized n -> Size n = len (to_list n).
Proof.
  induction n as [v k x|h s v k l IHl r IHr]; simpl; [done|].
  intros (Hl & Hr & ->). rewrite len_app, IHl, IHr; auto.
Qed.

Lemma avl_height_nonneg n : avl n -> 0 <= Height n.
Proof.
  induction n as [v k x|h s v k l IHl r IHr]; simpl; [done|].
  intros (Hl & Hr & -> & _). specialize (IHl Hl). specialize (IHr Hr). lia.
Qed.

(** A balanced tree of height [h] has at least [2 ^ (h / 2)] leaves. *)
Lemma avl_leaves n : avl n -> 2 ^ (Height n / 2) <= len (to_list n).
Proof.
  induction n as [v k x|h s v k l IHl r IHr]; simpl; [done|].
  intros (Hl & Hr & -> & Hb). specialize (IHl Hl). specialize (IHr Hr).
  apply avl_height_nonneg in Hl, Hr. rewrite len_app.
  remember (1 + Z.max (Height l) (Height r)) as h' eqn:Eh.
  destruct (decide (h' = 1)) as [->|Hh].
  - pose proof (to_list_nonempty l). pose proof (len_nonneg (to_list r)).
    change (2 ^ (1 / 2)) with 1. lia.
  - assert (E : 2 ^ (h' / 2) = 2 * 2 ^ (h' / 2 - 1)).
    { rewrite <- Z.pow_succ_r by dlia. f_equal. dlia. }
    assert (2 ^ (h' / 2 - 1) <= 2 ^ (Height l / 2)) by (apply Z.pow_le_mono_r; dlia).
    assert (2 ^ (h' / 2 - 1) <= 2 ^ (Height r / 2)) by (apply Z.pow_le_mono_r; dlia).
    lia.
Qed.

Lemma avl_height_bound n : avl n -> small n -> 0 <= Height n < 124.
Proof.
  intros Ha Hs. split; [by apply avl_height_nonneg|].
  pose proof (avl_leaves n Ha) as H. unfold small, max_leaves in Hs.
  apply Znot_ge_lt. intros Hge.
  assert (2 ^ 62 <= 2 ^ (Height n / 2)); [|lia].
  apply Z.pow_le_mono_r; [lia|]. apply Z.div_le_lower_bound; lia.
Qed.

Lemma search_tree_sorted n : search_tree n -> keys_sorted (to_list n).
Proof.
  induction n as [v k x|h s v k l IHl r IHr]; simpl; [repeat constructor|].
  intros (Hl & Hr & Hb & Ha & _). apply (keys_sorted_split k); auto.
Qed.

Lemma min_key_to_list n : exists v l, to_list n = (min_key n, v) :: l.
Proof.
  induction n as [v k x|h s v k l IHl r IHr]; simpl; [eauto|].
  destruct IHl as (v' & l' & ->). simpl. eauto.
Qed.

Lemma min_key_hd n : min_key n = from_option fst [] (head (to_list n)).
Proof. by destruct (min_key_to_list n) as (?&?&->). Qed.

(** ** Assembling a node from two well-formed halves *)

(** [joins k l r]: [l] and [r] can become the children of a branch with key [k]. *)
Record joins (k : bytes) (l r : Node) : Prop := {
  joins_l : wf l;
  joins_r : wf r;
  joins_below : keys_below k (to_list l);
  joins_above : keys_above k (to_list r);
  joins_key : k = min_key r;
}.

Lemma wf_branch h s v k l r :
  wf (Branch h s v k l r) <->
  joins k l r /\ h = 1 + Z.max (Height l) (Height r) /\
  -1 <= Height l - Height r <= 1 /\ s = Size l + Size r.
Proof.
  unfold wf. simpl. split.
  - intros ((?&?&?&?)&(?&?&?)&(?&?&?&?&?)). split; [by constructor|tauto].
  - intros ([(?&?&?) (?&?&?) ? ? ?]&?&?&?). tauto.
Qed.

(** Rotations regroup the leaves without reordering them. *)
Lemma joins_assoc k1 k2 a b c h s v :
  wf (Branch h s v k1 a b) -> joins k2 (Branch h s v k1 a b) c ->
  joins k2 b c /\ (forall h' s' v', wf (Branch h' s' v' k2 b c) -> joins k1 a (Branch h' s' v' k2 b c)).
Proof.
  intros [[Wa Wb B1 A1 K1] _]%wf_branch [_ Wc B2 A2 K2]. simpl in B2.
  unfold keys_below in B2. rewrite Forall_app in B2. destruct B2 as [B2 B2'].
  split; [by constructor|]. intros h' s' v' W. constructor; auto.
  simpl. unfold keys_above in *. rewrite Forall_app. split; [done|].
  (* every key of [c] is at least [k2], which is above [k1] *)
  assert (K12 : k1 ≺ k2).
  { subst k1. destruct (min_key_to_list b) as (x & t & E). rewrite E in B2'.
    by inversion B2'. }
  rewrite Forall_forall in *. intros p Hp Hlt. apply (A2 p Hp). by transitivity k1.
Qed.

Lemma joins_assoc_r k1 k2 a b c h s v :
  wf (Branch h s v k2 b c) -> joins k1 a (Branch h s v k2 b c) ->
  joins k1 a b /\ (forall h' s' v', wf (Branch h' s' v' k1 a b) -> joins k2 (Branch h' s' v' k1 a b) c).
Proof.
  intros [[Wb Wc B2 A2 K2] _]%wf_branch [Wa _ B1 A1 K1]. simpl in A1, K1.
  unfold keys_above in A1. rewrite Forall_app in A1. destruct A1 as [A1 A1'].
  split; [by constructor|]. intros h' s' v' W. constructor; auto.
  simpl. unfold keys_below in *. rewrite Forall_app. split; [|done].
  assert (K12 : k1 ≺ k2).
  { subst k1. destruct (min_key_to_list b) as (x & t & E). rewrite E in B2.
    by inversion B2. }
  rewrite Forall_forall in *. intros p Hp. transitivity k1; auto.
Qed.

Lemma joins_merge k l b a r : joins k l b -> joins k a r -> joins k l r.
Proof. intros [? ? ? ? ?] [? ? ? ? ?]. by constructor. Qed.

(** ** Balancing *)

(** Within [max_leaves] neither the [uint8] height nor the [int64] size wraps. *)
Lemma updateHeightSize_eq h s v k l r :
  wf l -> wf r -> len (to_list l) + len (to_list r) < max_leaves ->
  updateHeightSize (Branch h s v k l r) =
  Branch (1 + Z.max (Height l) (Height r)) (Size l + Size r) v k l r.
Proof.
  intros (Al & Sl & _) (Ar & Sr & _) Hs. unfold updateHeightSize.
  pose proof (len_nonneg (to_list l)). pose proof (len_nonneg (to_list r)).
  pose proof (avl_height_bound l Al ltac:(unfold small; lia)).
  pose proof (avl_height_bound r Ar ltac:(unfold small; lia)).
  rewrite (sized_len l Sl), (sized_len r Sr). unfold max_leaves in Hs.
  rewrite u8_small, i64_small by lia. f_equal. lia.
Qed.

Lemma updateHeightSize_ok h s v k l r :
  joins k l r -> len (to_list l) + len (to_list r) < max_leaves ->
  -1 <= Height l - Height r <= 1 ->
  updateHeightSize (Branch h s v k l r) =
    Branch (1 + Z.max (Height l) (Height r)) (Size l + Size r) v k l r /\
  wf (Branch (1 + Z.max (Height l) (Height r)) (Size l + Size r) v k l r).
Proof.
  intros J Hs Hb. split.
  - apply updateHeightSize_eq; auto; apply J.
  - by apply wf_branch.
Qed.

(** What a (re)balanced version of the pair of halves [l], [r] must be. *)
Record balanced (n : Node) (l r : Node) : Prop := {
  bal_wf : wf n;
  bal_list : to_list n = to_list l ++ to_list r;
  bal_height : Z.max (Height l) (Height r) <= Height n <= 1 + Z.max (Height l) (Height r);
  bal_same : -1 <= Height l - Height r <= 1 -> Height n = 1 + Z.max (Height l) (Height r);
}.

#[local] Arguments updateHeightSize : simpl never.

(** Rewrites the recomputed branch over the halves of [J] and keeps its
    well-formedness. *)
Ltac recompute J W :=
  lazymatch type of J with
  | joins ?k ?l ?r =>
      match goal with
      | |- context [updateHeightSize (Branch ?h ?s ?v k l r)] =>
          let E := fresh in
          destruct (updateHeightSize_ok h s v k l r) as [E W];
          [exact J | simpl in *; llia | simpl in *; lia |];
          rewrite E; clear E
      end
  end.

Lemma reBalance_right h s v k l r ver :
  joins k l r -> len (to_list l) + len (to_list r) < max_leaves ->
  Height l - Height r = 2 -> balanced (reBalance (Branch h s v k l r) ver) l r.
Proof.
  intros J Hs Hd. pose proof (joins_l _ _ _ J) as Wl.
  pose proof (avl_height_nonneg r (proj1 (joins_r _ _ _ J))) as Hr0.
  destruct l as [|lh ls lv lk ll lr]; [simpl in *; lia|].
  pose proof (joins_assoc _ _ _ _ _ _ _ _ Wl J) as [J1 J2].
  pose proof Wl as (Jl & El & Hbl & _)%wf_branch.
  unfold reBalance. cbn [calcBalance]. rewrite (proj2 (Z.gtb_lt _ _)) by lia.
  destruct (Z.geb_spec (Height ll - Height lr) 0) as [Hge|Hlt]; cbn [rotateRight Mutate].
  - simpl in Hd, Hs. rewrite len_app in Hs. recompute J1 W1. specialize (J2 _ _ _ W1).
    recompute J2 W2.
    constructor; [done | simpl; by rewrite app_assoc | simpl; lia | simpl; lia].
  - pose proof (joins_r _ _ _ Jl) as Wlr. simpl in Hd, Hs. rewrite len_app in Hs.
    destruct lr as [|mh ms mv mk ma mb]; [simpl in *; pose proof (avl_height_nonneg ll (proj1 (joins_l _ _ _ Jl))); lia|].
    pose proof (joins_assoc _ _ _ _ _ _ _ _ Wlr J1) as [J3 J4].
    pose proof (joins_assoc_r _ _ _ _ _ _ _ _ Wlr Jl) as [J5 J6].
    pose proof Wlr as (Jm & Em & Hbm & _)%wf_branch.
    simpl in *. rewrite !len_app in *.
    recompute J5 W5. specialize (J6 _ _ _ W5).
    recompute J3 W3. specialize (J4 _ _ _ W3).
    pose proof (joins_merge _ _ _ _ _ J6 J4) as J7. recompute J7 W7.
    constructor; [done | simpl; by rewrite <- !app_assoc | simpl; lia | simpl; lia].
Qed.

Lemma reBalance_left h s v k l r ver :
  joins k l r -> len (to_list l) + len (to_list r) < max_leaves ->
  Height r - Height l = 2 -> balanced (reBalance (Branch h s v k l r) ver) l r.
Proof.
  intros J Hs Hd. pose proof (joins_r _ _ _ J) as Wr.
  pose proof (avl_height_nonneg l (proj1 (joins_l _ _ _ J))) as Hl0.
  destruct r as [|rh rs rv rk rl rr]; [simpl in *; lia|].
  pose proof (joins_assoc_r _ _ _ _ _ _ _ _ Wr J) as [J1 J2].
  pose proof Wr as (Jr & Er & Hbr & _)%wf_branch.
  unfold reBalance. cbn [calcBalance]. simpl in Hd, Hs.
  destruct (Z.gtb_spec (Height l - rh) 1) as [|_]; [lia|]. cbn [Height].
  destruct (Z.gtb_spec (Height l - rh) 1) as [|_]; [lia|].
  rewrite (proj2 (Z.ltb_lt _ _)) by lia.
  destruct (Z.leb_spec (Height rl - Height rr) 0) as [Hle|Hgt]; cbn [rotateLeft Mutate].
  - rewrite len_app in Hs. recompute J1 W1. specialize (J2 _ _ _ W1). recompute J2 W2.
    constructor; [done | simpl; by rewrite app_assoc | simpl; lia | simpl; lia].
  - pose proof (joins_l _ _ _ Jr) as Wrl. rewrite len_app in Hs.
    destruct rl as [|mh ms mv mk ma mb]; [simpl in *; pose proof (avl_height_nonneg rr (proj1 (joins_r _ _ _ Jr))); lia|].
    pose proof (joins_assoc_r _ _ _ _ _ _ _ _ Wrl J1) as [J3 J4].
    pose proof (joins_assoc _ _ _ _ _ _ _ _ Wrl Jr) as [J5 J6].
    pose proof Wrl as (Jm & Em & Hbm & _)%wf_branch.
    simpl in *. rewrite !len_app in *.
    recompute J5 W5. specialize (J6 _ _ _ W5).
    recompute J3 W3. specialize (J4 _ _ _ W3).
    pose proof (joins_merge _ _ _ _ _ J4 J6) as J7. recompute J7 W7.
    constructor; [done | simpl; by rewrite <- !app_assoc | simpl; lia | simpl; lia].
Qed.

(** Restoring the balance after one side grew or shrank by one. *)
Lemma reBalance_ok h s v k l r ver :
  joins k l r -> len (to_list l) + len (to_list r) < max_leaves ->
  -2 <= Height l - Height r <= 2 ->
  balanced (reBalance (updateHeightSize (Branch h s v k l r)) ver) l r.
Proof.
  intros J Hs Hb. rewrite updateHeightSize_eq by (try apply J; done).
  destruct (decide (Height l - Height r = 2)); [by apply reBalance_right|].
  destruct (decide (Height r - Height l = 2)); [by apply reBalance_left; [..|lia]|].
  unfold reBalance. cbn [calcBalance].
  destruct (Z.gtb_spec (Height l - Height r) 1); [lia|].
  destruct (Z.ltb_spec (Height l - Height r) (-1)); [lia|].
  constructor; simpl; try lia; [|done]. apply wf_branch. split_and!; try done; lia.
Qed.

(** ** [setRecursive] *)

Lemma min_key_assoc_set n n' x v :
  ~ x ≺ min_key n -> to_list n' = assoc_set x v (to_list n) -> min_key n' = min_key n.
Proof.
  intros Hx E. rewrite (min_key_hd n'), E.
  destruct (min_key_to_list n) as (w & t & Et). rewrite Et. simpl.
  destruct (bytes_compare_spec x (min_key n)) as [->| |]; done.
Qed.

Lemma assoc_set_len x v l : len l <= len (assoc_set x v l) <= len l + 1.
Proof.
  induction l as [|[k' v'] l IH]; simpl; [unfold len; simpl; lia|].
  destruct (bytes_compare x k'); rewrite !len_cons in *; lia.
Qed.

(** Everything the recursion needs to know about one level of [setNode]. *)
Lemma setNode_ok n x v ver :
  wf n -> len (to_list n) + 1 < max_leaves ->
  let '(n', updated) := setNode n x v ver in
  wf n' /\ to_list n' = assoc_set x v (to_list n) /\
  Height n <= Height n' <= Height n + 1 /\
  (updated = true -> Height n' = Height n /\ Size n' = Size n).
Proof.
  induction n as [lv k w|h s bv k l IHl r IHr]; intros W Hs.
  - simpl. destruct (bytes_compare_spec x k) as [->|Hx|Hx]; simpl; [done|..].
    + split_and!; try done; try lia. apply wf_branch. split_and!; try done.
      constructor; try done; repeat constructor; [done | apply bytes_lt_irrefl].
    + split_and!; try done; try lia. apply wf_branch. split_and!; try done.
      constructor; try done; repeat constructor; [done | apply bytes_lt_irrefl].
  - pose proof W as (J & Eh & Hb & Es)%wf_branch.
    pose proof J as [Wl Wr B A K]. simpl in Hs. rewrite len_app in Hs.
    simpl. destruct (bytes_ltb x k) eqn:Hx.
    + apply bytes_ltb_lt in Hx.
      destruct (setNode l x v ver) as [l' u]. destruct IHl as (W' & L' & H' & U'); [done|llia|].
      assert (J' : joins k l' r).
      { constructor; auto. rewrite L'. by apply Forall_assoc_set. }
      rewrite (assoc_set_left k), <- L' by done. destruct u.
      * destruct (U' eq_refl) as [Eh' Es']. simpl. split_and!; try done; try lia.
        apply wf_branch. split_and!; auto; lia.
      * destruct (reBalance_ok h s ver k l' r ver) as [Wn Ln Hn Hn']; [done| |lia|].
        { rewrite L'. pose proof (assoc_set_len x v (to_list l)). llia. }
        split_and!; try done; lia.
    + apply bytes_ltb_nlt in Hx.
      destruct (setNode r x v ver) as [r' u]. destruct IHr as (W' & L' & H' & U'); [done|llia|].
      assert (J' : joins k l r').
      { constructor; auto.
        - rewrite L'. by apply Forall_assoc_set.
        - rewrite K in *. symmetry. by eapply min_key_assoc_set. }
      rewrite (assoc_set_right k), <- L' by done. destruct u.
      * destruct (U' eq_refl) as [Eh' Es']. simpl. split_and!; try done; try lia.
        apply wf_branch. split_and!; auto; lia.
      * destruct (reBalance_ok h s ver k l r' ver) as [Wn Ln Hn Hn']; [done| |lia|].
        { rewrite L'. pose proof (assoc_set_len x v (to_list r)). llia. }
        split_and!; try done; lia.
Qed.

(** ** [removeRecursive] *)

(** Every stored value is a non-nil slice (possibly empty): [Tree.set] replaces
    nil by [[]byte{}], and the removal code reads a nil value as "not found". *)
Definition values_ok (l : pairs) : Prop := Forall (fun p => is_Some p.2) l.

Lemma keys_above_min n : search_tree n -> keys_above (min_key n) (to_list n).
Proof.
  intros S%search_tree_sorted. destruct (min_key_to_list n) as (w & t & E).
  rewrite E in *. apply keys_sorted_cons in S as [_ S]. unfold keys_above.
  rewrite Forall_forall. intros p [->|Hp]%elem_of_cons; simpl; [apply bytes_lt_irrefl|].
  intros Hlt. apply (bytes_lt_irrefl p.1). transitivity (min_key n); [done|]. by apply S.
Qed.

Lemma min_key_elem n : exists v, (min_key n, v) ∈ to_list n.
Proof. destruct (min_key_to_list n) as (v & t & ->). exists v. left. Qed.

Lemma assoc_del_len x l : len (assoc_del x l) <= len l.
Proof. unfold len, assoc_del. pose proof (length_filter (fun p : bytes * slice => p.1 <> x) l). lia. Qed.

(** The new separator above a right half whose smallest leaf was removed. *)
Lemma joins_new_key k l r r' x :
  joins k l r -> wf r' -> to_list r' = assoc_del x (to_list r) -> joins (min_key r') l r'.
Proof.
  intros [Wl Wr B A K] W' L'. constructor; auto.
  - destruct (min_key_elem r') as [v Hin]. rewrite L' in Hin.
    apply elem_of_assoc_del in Hin as [_ Hin]. unfold keys_below, keys_above in *.
    rewrite Forall_forall in A, B |- *. intros p Hp.
    destruct (bytes_nlt_le _ _ (A _ Hin)) as [Ek|Hlt]; simpl in *; [rewrite <- Ek; auto|].
    transitivity k; auto.
  - apply keys_above_min, W'.
Qed.

Definition removed (n : Node) (x : bytes) (r : slice * option Node * option bytes) : Prop :=
  match r with
  | (None, n', newKey) => n' = Some n /\ newKey = None /\ (forall v, (x, v) ∉ to_list n)
  | (Some v, None, newKey) => to_list n = [(x, Some v)] /\ IsLeaf n = true /\ newKey = None
  | (Some v, Some n', newKey) =>
      wf n' /\ to_list n' = assoc_del x (to_list n) /\ (x, Some v) ∈ to_list n /\
      Height n - 1 <= Height n' <= Height n /\
      min_key n' = default (min_key n) newKey
  end.

(** The two recursive cases, given what the recursive call did. *)
Section RemoveCases.
Context (h s bv : Z) (k : bytes) (l r : Node) (x : bytes) (ver : Z).
Context (W : wf (Branch h s bv k l r)) (Hs : small (Branch h s bv k l r)).

Lemma removed_left res : x ≺ k -> removed l x res ->
  removed (Branch h s bv k l r) x
    match res with
    | (None, _, _) => (None, Some (Branch h s bv k l r), None)
    | (Some value, None, _) => (Some value, Some r, Some k)
    | (Some value, Some newLeft, newKey) =>
        (Some value, Some (reBalance (updateHeightSize (Branch h s ver k newLeft r)) ver), newKey)
    end.
Proof.
  intros Hx IH. pose proof W as (J & Eh & Hb & Es)%wf_branch. pose proof J as [Wl Wr B A K].
  unfold small in Hs. simpl in Hs. rewrite len_app in Hs.
  pose proof (avl_height_nonneg r (proj1 Wr)).
  assert (Hnr : forall v, (x, v) ∉ to_list r).
  { intros v Hin. pose proof (keys_above_head _ _ _ Hx A _ Hin) as Hlt.
    by apply bytes_lt_irrefl in Hlt. }
  destruct res as [[[v|] [l'|]] nk]; cbn [removed to_list] in *.
  - destruct IH as (W' & L' & Hin & Hh & Mk).
    assert (J' : joins k l' r).
    { constructor; auto. rewrite L'. by apply Forall_assoc_del. }
    destruct (reBalance_ok h s ver k l' r ver) as [Wn Ln Hn Hn']; [done| |lia|].
    { rewrite L'. pose proof (assoc_del_len x (to_list l)). llia. }
    split_and!; try done; try (cbn [Height] in *; lia).
    + by rewrite Ln, L', (assoc_del_left k).
    + apply elem_of_app. auto.
    + transitivity (min_key l'); [|exact Mk].
      rewrite !min_key_hd, Ln. by destruct (min_key_to_list l') as (?&?&->).
  - destruct IH as (L' & Lf & ->). destruct l as [lv lk lw|]; [simpl in L'; simplify_eq|done].
    split_and!; try done; try (cbn [Height] in *; lia).
    + rewrite assoc_del_app. cbn [to_list]. rewrite assoc_del_one.
      symmetry. apply assoc_del_notin. intros [y z] Hin Heq. simpl in Heq. subst. by eapply Hnr.
    + by left.
  - destruct IH as (_ & _ & Hin). split_and!; try done. intros v. rewrite elem_of_app. naive_solver.
  - destruct IH as (_ & _ & Hin). split_and!; try done. intros v. rewrite elem_of_app. naive_solver.
Qed.

Lemma removed_right res : ~ x ≺ k -> removed r x res ->
  removed (Branch h s bv k l r) x
    match res with
    | (None, _, _) => (None, Some (Branch h s bv k l r), None)
    | (Some value, None, _) => (Some value, Some l, None)
    | (Some value, Some newRight, newKey) =>
        let k' := match newKey with Some k' => k' | None => k end in
        (Some value, Some (reBalance (updateHeightSize (Branch h s ver k' l newRight)) ver), None)
    end.
Proof.
  intros Hx IH. pose proof W as (J & Eh & Hb & Es)%wf_branch. pose proof J as [Wl Wr B A K].
  unfold small in Hs. simpl in Hs. rewrite len_app in Hs.
  pose proof (avl_height_nonneg l (proj1 Wl)).
  assert (Hnl : forall v, (x, v) ∉ to_list l).
  { intros v Hin. pose proof (keys_below_tail _ _ _ Hx B _ Hin) as Hlt.
    by apply bytes_lt_irrefl in Hlt. }
  destruct res as [[[v|] [r'|]] nk]; cbn [removed to_list] in *.
  - destruct IH as (W' & L' & Hin & Hh & Mk).
    assert (Ek : match nk with Some q => q | None => k end = min_key r')
      by (rewrite K; destruct nk; done).
    cbn zeta. rewrite Ek. pose proof (joins_new_key _ _ _ _ _ J W' L') as J'.
    destruct (reBalance_ok h s ver (min_key r') l r' ver) as [Wn Ln Hn Hn']; [done| |lia|].
    { rewrite L'. pose proof (assoc_del_len x (to_list r)). llia. }
    split_and!; try done; try (cbn [Height] in *; lia).
    + by rewrite Ln, L', (assoc_del_right k).
    + apply elem_of_app. auto.
    + change (min_key (reBalance (updateHeightSize (Branch h s ver (min_key r') l r')) ver) = min_key l).
      rewrite (min_key_hd l), min_key_hd, Ln. by destruct (min_key_to_list l) as (?&?&->).
  - destruct IH as (L' & Lf & ->). destruct r as [rv rk rw|]; [simpl in L'; simplify_eq|done].
    split_and!; try done; try (cbn [Height] in *; lia).
    + rewrite assoc_del_app. cbn [to_list]. rewrite assoc_del_one, app_nil_r. symmetry. apply assoc_del_notin.
      intros [y z] Hin Heq. simpl in Heq. subst. by eapply Hnl.
    + apply elem_of_app. right. by left.
  - destruct IH as (_ & _ & Hin). split_and!; try done. intros v. rewrite elem_of_app. naive_solver.
  - destruct IH as (_ & _ & Hin). split_and!; try done. intros v. rewrite elem_of_app. naive_solver.
Qed.
End RemoveCases.

Lemma removeNode_ok n x ver :
  wf n -> small n -> values_ok (to_list n) -> removed n x (removeNode n x ver).
Proof.
  induction n as [lv k w|h s bv k l IHl r IHr]; intros W Hs V.
  - simpl. case_decide as Hk; simpl.
    + subst. inversion V as [|? ? [v Hv] _]; simplify_eq/=. done.
    + split_and!; try done. intros v. rewrite list_elem_of_singleton. naive_solver.
  - pose proof W as ([Wl Wr _ _ _] & _)%wf_branch.
    simpl in V. apply Forall_app in V as [Vl Vr].
    assert (small l /\ small r) as [Sl Sr] by (unfold small in *; simpl in Hs; split; llia).
    cbn [removeNode]. destruct (bytes_ltb x k) eqn:Hx.
    + apply bytes_ltb_lt in Hx. apply (removed_left h s bv k l r x ver W Hs); auto.
    + apply bytes_ltb_nlt in Hx. apply (removed_right h s bv k l r x ver W Hs); auto.
Qed.

(** ** Reading *)

Lemma Get_ok n x :
  wf n -> len (to_list n) < 2 ^ 32 ->
  Get n x = (assoc_get x (to_list n), assoc_rank x (to_list n)).
Proof.
  induction n as [lv k w|h s bv k l IHl r IHr]; intros W Hs.
  - simpl. unfold bytes_ltb. destruct (bytes_compare_spec k x) as [->|Hx|Hx].
    + by rewrite decide_True.
    + rewrite decide_False; [done|]. intros ->. by apply bytes_lt_irrefl in Hx.
    + rewrite decide_False; [done|]. intros ->. by apply bytes_lt_irrefl in Hx.
  - pose proof W as ([Wl Wr B A K] & _ & _ & Es)%wf_branch. simpl in *.
    rewrite len_app in Hs. destruct (bytes_ltb x k) eqn:Hx.
    + apply bytes_ltb_lt in Hx.
      rewrite IHl, (assoc_get_left k), (assoc_rank_left k); auto. llia.
    + apply bytes_ltb_nlt in Hx.
      rewrite IHr, (assoc_get_right k), (assoc_rank_right k); auto; [|llia]. f_equal.
      pose proof (assoc_rank_bounds x (to_list r)).
      rewrite u32_sub_l, Es, (sized_len l (proj1 (proj2 Wl))), (sized_len r (proj1 (proj2 Wr))).
      rewrite (u32_small (len (to_list l) + _)), (u32_small (len (to_list r))) by llia.
      rewrite u32_small; llia.
Qed.

Lemma GetByIndex_ok n i :
  sized n -> len (to_list n) < 2 ^ 32 -> 0 <= i < 2 ^ 32 ->
  GetByIndex n i = to_list n !! Z.to_nat i.
Proof.
  revert i. induction n as [lv k w|h s bv k l IHl r IHr]; intros i W Hs Hi; simpl.
  - destruct (Z.eqb_spec i 0) as [->|Hn]; [done|].
    symmetry. apply lookup_ge_None. simpl. lia.
  - destruct W as (Wl & Wr & Es). simpl in Hs. rewrite len_app in Hs.
    rewrite (sized_len l Wl), u32_small by llia. destruct (Z.ltb_spec i (len (to_list l))).
    + rewrite IHl, lookup_app_l; auto; [unfold len in *; lia | llia].
    + rewrite (u32_small (i - _)), IHr, lookup_app_r; auto; try llia.
      * f_equal. unfold len. lia.
      * unfold len in *. lia.
Qed.

(** The [updated] flag tells whether the key was already there. *)
Lemma setNode_updated n x v ver :
  wf n -> (setNode n x v ver).2 = bool_decide (x ∈ (to_list n).*1).
Proof.
  induction n as [lv k w|h s bv k l IHl r IHr]; intros W; simpl.
  - destruct (bytes_compare_spec x k) as [->|Hx|Hx]; simpl; symmetry.
    + apply bool_decide_eq_true. by left.
    + apply bool_decide_eq_false. intros ->%list_elem_of_singleton. by apply bytes_lt_irrefl in Hx.
    + apply bool_decide_eq_false. intros ->%list_elem_of_singleton. by apply bytes_lt_irrefl in Hx.
  - pose proof W as ([Wl Wr B A K] & _)%wf_branch. rewrite fmap_app. destruct (bytes_ltb x k) eqn:Hx.
    + apply bytes_ltb_lt in Hx. specialize (IHl Wl). destruct (setNode l x v ver) as [l' u].
      simpl in IHl. transitivity u; [by destruct u|]. rewrite IHl. apply bool_decide_ext.
      rewrite elem_of_app. split; [auto|]. intros [|(p & -> & Hp)%list_elem_of_fmap_1]; [done|].
      pose proof (keys_above_head _ _ _ Hx A _ Hp) as Hlt. by apply bytes_lt_irrefl in Hlt.
    + apply bytes_ltb_nlt in Hx. specialize (IHr Wr). destruct (setNode r x v ver) as [r' u].
      simpl in IHr. transitivity u; [by destruct u|]. rewrite IHr. apply bool_decide_ext.
      rewrite elem_of_app. split; [auto|]. intros [(p & -> & Hp)%list_elem_of_fmap_1|]; [|done].
      pose proof (keys_below_tail _ _ _ Hx B _ Hp) as Hlt. by apply bytes_lt_irrefl in Hlt.
Qed.

(** ** Roots: nil is the empty tree *)

Definition root_list (o : option Node) : pairs := from_option to_list [] o.
Definition root_wf (o : option Node) : Prop := from_option wf True o.

Lemma setRecursive_ok o x v ver :
  root_wf o -> len (root_list o) + 1 < max_leaves ->
  let '(n', updated) := setRecursive o x v ver in
  wf n' /\ to_list n' = assoc_set x v (root_list o) /\
  (updated = true <-> o = None \/ x ∈ (root_list o).*1).
Proof.
  destruct o as [n|]; simpl; intros W Hs.
  - pose proof (setNode_ok n x v ver W Hs) as H. pose proof (setNode_updated n x v ver W) as Hu.
    destruct (setNode n x v ver) as [n' u]. destruct H as (?&?&_). simpl in Hu.
    split_and!; try done. rewrite Hu, bool_decide_eq_true. naive_solver.
  - repeat split; try done. by left.
Qed.

Lemma removeRecursive_ok o x ver :
  root_wf o -> len (root_list o) < max_leaves -> values_ok (root_list o) ->
  let '(v, o', _) := removeRecursive o x ver in
  root_wf o' /\ root_list o' = assoc_del x (root_list o) /\
  v = assoc_get x (root_list o).
Proof.
  destruct o as [n|]; simpl; intros W Hs V; [|done].
  pose proof (removeNode_ok n x ver W Hs V) as H.
  pose proof (search_tree_sorted n (proj2 (proj2 W))) as Hsort.
  destruct (removeNode n x ver) as [[[v|] [n'|]] nk]; simpl in *.
  - destruct H as (W' & L' & Hin & _). split_and!; try done. symmetry. by apply assoc_get_lookup.
  - destruct H as (L' & _ & _). rewrite L', assoc_del_one. simpl. by rewrite decide_True.
  - destruct H as ([= ->] & _ & Hn). split_and!; try done.
    + rewrite assoc_del_notin; [done|]. intros [y w] Hin Heq. simpl in Heq. subst. by eapply Hn.
    + rewrite <- (app_nil_r (to_list n)), assoc_get_notin; [done|].
      intros [y w] Hin Heq. simpl in Heq. subst. by eapply Hn.
  - by destruct H.
Qed.

(** ** Versions of the nodes *)

Fixpoint versions_le (b : Z) (n : Node) : Prop :=
  match n with
  | Leaf v _ _ => v <= b
  | Branch _ _ v _ l r => v <= b /\ versions_le b l /\ versions_le b r
  end.

Lemma versions_le_mono b b' n : versions_le b n -> b <= b' -> versions_le b' n.
Proof. induction n; simpl; intuition lia. Qed.

Lemma reBalance_versions n ver : versions_le ver n -> versions_le ver (reBalance n ver).
Proof.
  destruct n as [|h s v k l r]; [done|]. unfold reBalance, calcBalance, rotateRight, rotateLeft.
  destruct l as [|? ? ? ? ? [|]], r as [|? ? ? ? [|] ?]; simpl;
    repeat match goal with |- context [if ?b then _ else _] => destruct b end;
    simpl; intuition lia.
Qed.

#[local] Arguments reBalance : simpl never.

Lemma setNode_versions n k v ver : versions_le ver n -> versions_le ver (setNode n k v ver).1.
Proof.
  induction n as [lv lk x|h s bv bk l IHl r IHr]; simpl; intros V.
  - destruct (bytes_compare k lk); simpl; lia.
  - destruct V as (V1 & Vl & Vr). destruct (bytes_ltb k bk).
    + specialize (IHl Vl). destruct (setNode l k v ver) as [l' []]; simpl in *; [intuition lia|].
      apply reBalance_versions. simpl. intuition lia.
    + specialize (IHr Vr). destruct (setNode r k v ver) as [r' []]; simpl in *; [intuition lia|].
      apply reBalance_versions. simpl. intuition lia.
Qed.

Lemma removeNode_versions n k ver :
  versions_le ver n -> from_option (versions_le ver) True (removeNode n k ver).1.2.
Proof.
  induction n as [lv lk x|h s bv bk l IHl r IHr]; simpl; intros V.
  - by case_decide.
  - destruct V as (V1 & Vl & Vr). destruct (bytes_ltb k bk).
    + specialize (IHl Vl). destruct (removeNode l k ver) as [[[y|] [l'|]] nk]; simpl in *; auto.
      apply reBalance_versions. simpl. intuition lia.
    + specialize (IHr Vr). destruct (removeNode r k ver) as [[[y|] [r'|]] nk]; simpl in *; auto.
      apply reBalance_versions. simpl. intuition lia.
Qed.

(** ** Properties *)

(** [setRecursive] on a well-formed tree of fewer than 2^62 leaves gives a
    well-formed AVL tree whose leaves are the ordered map with the pair added
    or overwritten, whose height stays far inside [uint8], and whose [updated]
    flag says whether the key was already there. *)
Theorem set_ordered_map (o : option Node) (x : bytes) (v : slice) (ver : Z)
  (W : root_wf o) (Hs : len (root_list o) + 1 < max_leaves) :
  let '(n', updated) := setRecursive o x v ver in
  wf n' /\ 0 <= Height n' < 124 /\ Size n' = len (assoc_set x v (root_list o)) /\
  to_list n' = assoc_set x v (root_list o) /\ keys_sorted (to_list n') /\
  (updated = true <-> o = None \/ x ∈ (root_list o).*1).
Proof.
  pose proof (setRecursive_ok o x v ver W Hs) as H. destruct (setRecursive o x v ver) as [n' u].
  destruct H as ((A & Sz & St) & E & U). pose proof (len_assoc_set x v (root_list o)).
  split_and!; try done; try (apply avl_height_bound; [done|]; unfold small; rewrite E; lia).
  - by rewrite (sized_len n' Sz), E.
  - by apply search_tree_sorted.
Qed.

Lemma set_ordered_map_witness :
  root_list (Some (fst (setRecursive (Some (Leaf 1 [z2b 1] (Some []))) [z2b 2] (Some []) 2))) =
  [([z2b 1], Some []); ([z2b 2], Some [])].
Proof.
  assert (root_wf (Some (Leaf 1 [z2b 1] (Some [])))) as W by done.
  assert (len (root_list (Some (Leaf 1 [z2b 1] (Some [])))) + 1 < max_leaves) as Hs by (vm_compute; done).
  pose proof (set_ordered_map _ [z2b 2] (Some []) 2 W Hs) as H. vm_compute in H. vm_compute. apply H.
Defined.

(** [removeRecursive] on a well-formed tree returns the value of the key
    (nil when it is absent) and a well-formed tree, nil when it became empty,
    whose leaves are the ordered map without the key. *)
Theorem remove_ordered_map (o : option Node) (x : bytes) (ver : Z)
  (W : root_wf o) (Hs : len (root_list o) < max_leaves) (V : values_ok (root_list o)) :
  let '(v, o', _) := removeRecursive o x ver in
  root_wf o' /\ root_list o' = assoc_del x (root_list o) /\ v = assoc_get x (root_list o) /\
  (o' = None <-> assoc_del x (root_list o) = []).
Proof.
  pose proof (removeRecursive_ok o x ver W Hs V) as H.
  destruct (removeRecursive o x ver) as [[v o'] nk]. destruct H as (W' & E & Ev).
  split_and!; try done. rewrite <- E. destruct o' as [n|]; simpl; [|done].
  pose proof (to_list_nonempty n). split; [done|]. intros E0. by rewrite E0 in *.
Qed.

Lemma remove_ordered_map_witness :
  root_wf (Some (Branch 1 2 1 [z2b 2] (Leaf 1 [z2b 1] (Some [])) (Leaf 1 [z2b 2] (Some [])))) /\
  fst (fst (removeRecursive (Some (Branch 1 2 1 [z2b 2] (Leaf 1 [z2b 1] (Some [])) (Leaf 1 [z2b 2] (Some [])))) [z2b 1] 2))
    = Some [].
Proof.
  assert (root_wf (Some (Branch 1 2 1 [z2b 2] (Leaf 1 [z2b 1] (Some [])) (Leaf 1 [z2b 2] (Some []))))) as W.
  { apply wf_branch. split_and!; try done. split; try done; repeat constructor; by intros ?. }
  split; [exact W|].
  pose proof (remove_ordered_map _ [z2b 1] 2 W ltac:(vm_compute; done) ltac:(repeat constructor; by eexists)) as H.
  vm_compute in H. vm_compute. apply H.
Defined.

(** [Get] returns the value of the key and its rank among the keys, and
    [GetByIndex] the pair at a rank, at the [uint32] widths the code uses. *)
Theorem get_by_key_and_rank (n : Node) (x : bytes) (i : Z)
  (W : wf n) (Hs : len (to_list n) < 2 ^ 32) (Hi : 0 <= i < 2 ^ 32) :
  Get n x = (assoc_get x (to_list n), assoc_rank x (to_list n)) /\
  GetByIndex n i = to_list n !! Z.to_nat i /\
  (forall v, to_list n !! Z.to_nat i = Some (x, v) -> Get n x = (v, i)).
Proof.
  pose proof W as (_ & Sz & St). split_and!; [by apply Get_ok|by apply GetByIndex_ok|].
  intros v Hv. rewrite Get_ok by done. pose proof (search_tree_sorted n St) as Srt.
  rewrite (assoc_rank_at x v _ _ Srt Hv), Z2Nat.id by lia. f_equal.
  apply assoc_get_lookup; [done|]. by eapply list_elem_of_lookup_2.
Qed.

Lemma get_by_key_and_rank_witness :
  GetByIndex (Branch 1 2 1 [z2b 2] (Leaf 1 [z2b 1] (Some [])) (Leaf 1 [z2b 2] (Some [z2b 7]))) 1 =
  Some ([z2b 2], Some [z2b 7]).
Proof.
  assert (wf (Branch 1 2 1 [z2b 2] (Leaf 1 [z2b 1] (Some [])) (Leaf 1 [z2b 2] (Some [z2b 7])))) as W.
  { apply wf_branch. split_and!; try done. split; try done; repeat constructor; by intros ?. }
  rewrite (proj1 (proj2 (get_by_key_and_rank _ [z2b 2] 1 W ltac:(vm_compute; done) ltac:(lia)))).
  reflexivity.
Defined.
