(* ===== verification/Hash.v ===== *)
(** Merkle hashing: [writeHashBytes] and [HashNode] of [memiavl/node.go].

    [sha256] is a parameter.  The binding theorem is stated without assuming
    collision resistance: two well-formed trees with one root hash are equal,
    or two different byte strings with one [sha256] value exist. *)
From stdpp Require Import prelude strings.
From Stdlib Require Import ZArith Lia.
From S2P Require Import Prelude OrdMap Codec Node.
Local Open Scope Z_scope.

(** The fields of every node are in the range of their Go types. *)
Fixpoint fields_ok (n : Node) : Prop :=
  0 <= Height n < 2 ^ 8 /\ 0 <= Size n < 2 ^ 63 /\ 0 <= Version n < 2 ^ 32 /\
  match n with
  | Leaf _ k v => len k < 2 ^ 32 /\ is_Some v
  | Branch _ _ _ _ l r => fields_ok l /\ fields_ok r
  end.

Lemma fields_ok_bounds n : fields_ok n ->
  0 <= Height n < 2 ^ 8 /\ 0 <= Size n < 2 ^ 63 /\ 0 <= Version n < 2 ^ 32.
Proof. destruct n; simpl; tauto. Qed.

Lemma fields_ok_values n : fields_ok n -> forall p, p ∈ to_list n -> is_Some p.2.
Proof.
  induction n as [v k x|h s v k l IHl r IHr]; simpl.
  - intros (_ & _ & _ & _ & Hx) p ->%list_elem_of_singleton. done.
  - intros (_ & _ & _ & Fl & Fr) p [Hp|Hp]%elem_of_app; [by apply IHl|by apply IHr].
Qed.

Section Hash.
Context (sha256 : bytes -> bytes).

(** The bytes hashed for a node, given the hashes of its children. *)
Definition hashPayload (n : Node) (hashes : bytes * bytes) : bytes :=
  PutVarint (Height n) ++ PutVarint (Size n) ++ PutVarint (Version n) ++
  match n with
  | Leaf _ k v => EncodeBytes k ++ EncodeBytes (sha256 (default [] v))
  | Branch _ _ _ _ _ _ => EncodeBytes hashes.1 ++ EncodeBytes hashes.2
  end.

Fixpoint HashNode (n : Node) : bytes :=
  sha256 (hashPayload n
    match n with
    | Leaf _ _ _ => ([], [])
    | Branch _ _ _ _ l r => (HashNode l, HashNode r)
    end).

Definition writeHashBytes (n : Node) : bytes :=
  hashPayload n
    match n with
    | Leaf _ _ _ => ([], [])
    | Branch _ _ _ _ l r => (HashNode l, HashNode r)
    end.

Lemma HashNode_unfold n : HashNode n = sha256 (writeHashBytes n).
Proof. by destruct n. Qed.

(** [emptyHash], and the root hash of a possibly empty tree. *)
Definition emptyHash : bytes := sha256 [].
Definition rootHash (o : option Node) : bytes := from_option HashNode emptyHash o.

Definition collision : Prop := exists a b : bytes, a <> b /\ sha256 a = sha256 b.

(** Either the two preimages are equal or they collide. *)
Lemma sha_binding a b : sha256 a = sha256 b -> a = b \/ collision.
Proof. intros H. destruct (decide (a = b)); [auto|]. right. by exists a, b. Qed.

Context (sha256_len : forall b, len (sha256 b) = 32).

Lemma HashNode_len n : len (HashNode n) = 32.
Proof. rewrite HashNode_unfold. apply sha256_len. Qed.

Lemma header_inj n m r r' :
  fields_ok n -> fields_ok m ->
  PutVarint (Height n) ++ PutVarint (Size n) ++ PutVarint (Version n) ++ r =
  PutVarint (Height m) ++ PutVarint (Size m) ++ PutVarint (Version m) ++ r' ->
  Height n = Height m /\ Size n = Size m /\ Version n = Version m /\ r = r'.
Proof.
  intros (?&?&?)%fields_ok_bounds (?&?&?)%fields_ok_bounds E.
  apply PutVarint_inj in E as [-> E]; [|lia..].
  apply PutVarint_inj in E as [-> E]; [|lia..].
  apply PutVarint_inj in E as [-> E]; [done|lia..].
Qed.

Lemma HashNode_binding n m :
  wf n -> wf m -> fields_ok n -> fields_ok m ->
  HashNode n = HashNode m -> n = m \/ collision.
Proof.
  revert m. induction n as [v1 k1 x1|h1 s1 v1 k1 l1 IHl r1 IHr];
    intros [v2 k2 x2|h2 s2 v2 k2 l2 r2] W1 W2 F1 F2 E.
  - rewrite !HashNode_unfold in E. destruct (sha_binding _ _ E) as [E'|]; [|auto].
    apply header_inj in E' as (_ & _ & Ev & E'); [|done..]. simpl in Ev. subst v2.
    destruct F1 as (_&_&_&Lk1&[y1 ->]), F2 as (_&_&_&Lk2&[y2 ->]).
    apply EncodeBytes_inj in E' as [-> E']; [|lia..].
    rewrite <- (app_nil_r (EncodeBytes _)), <- (app_nil_r (EncodeBytes (sha256 (default [] (Some y2))))) in E'.
    apply EncodeBytes_inj in E' as [E' _]; [|rewrite sha256_len; lia..].
    destruct (sha_binding _ _ E') as [E2|]; [|auto]. simpl in E2. subst. auto.
  - rewrite !HashNode_unfold in E. destruct (sha_binding _ _ E) as [E'|]; [|auto].
    apply header_inj in E' as (Eh & _); [|done..]. simpl in Eh. subst h2.
    pose proof W2 as ([[A _] [B _] _ _ _] & E2 & _)%wf_branch.
    apply avl_height_nonneg in A, B. lia.
  - rewrite !HashNode_unfold in E. destruct (sha_binding _ _ E) as [E'|]; [|auto].
    apply header_inj in E' as (Eh & _); [|done..]. simpl in Eh. subst h1.
    pose proof W1 as ([[A _] [B _] _ _ _] & E2 & _)%wf_branch.
    apply avl_height_nonneg in A, B. lia.
  - rewrite !HashNode_unfold in E. destruct (sha_binding _ _ E) as [E'|]; [|auto].
    apply header_inj in E' as (Eh & Es & Ev & E'); [|done..]. cbn in Eh, Es, Ev. subst h2 s2 v2.
    apply EncodeBytes_inj in E' as [El E']; [|cbn; rewrite HashNode_len; lia..].
    cbn [snd] in E'.
    rewrite <- (app_nil_r (EncodeBytes (HashNode r1))), <- (app_nil_r (EncodeBytes (HashNode r2))) in E'.
    apply EncodeBytes_inj in E' as [Er _]; [|cbn; rewrite HashNode_len; lia..].
    destruct F1 as (_&_&_&Fl1&Fr1), F2 as (_&_&_&Fl2&Fr2).
    apply wf_branch in W1 as ([Wl1 Wr1 _ _ K1] & _), W2 as ([Wl2 Wr2 _ _ K2] & _).
    destruct (IHl l2) as [->|]; [done..| |auto].
    destruct (IHr r2) as [->|]; [done..| |auto]. subst. auto.
Qed.
End Hash.

(** A stand-in digest of 32 bytes for evaluation on concrete inputs. *)
Definition digest32 (b : bytes) : bytes := take 32 (b ++ replicate 32 (z2b 0)).

Lemma digest32_len b : len (digest32 b) = 32.
Proof. unfold digest32, len. rewrite length_take, length_app, length_replicate. lia. Qed.

(** The root hash binds the whole tree: two well-formed trees whose fields
    fit their Go types and which have the same hash are equal, or two
    different byte strings with the same [sha256] have been found. *)
Theorem root_hash_binds_tree (sha256 : bytes -> bytes) (sha256_len : forall b, len (sha256 b) = 32)
  (n m : Node) (Wn : wf n) (Wm : wf m) (Fn : fields_ok n) (Fm : fields_ok m)
  (E : HashNode sha256 n = HashNode sha256 m) : n = m \/ collision sha256.
Proof. by apply HashNode_binding. Qed.

Lemma root_hash_binds_tree_witness :
  Leaf 1 [z2b 1] (Some [z2b 2]) = Leaf 1 [z2b 1] (Some [z2b 2]) \/ collision digest32.
Proof.
  apply (root_hash_binds_tree digest32 digest32_len); try (vm_compute; done);
    (simpl; split_and!; try lia; try done; by eexists).
Defined.
