(* ===== verification/HeapRefine.v ===== *)
(** The store operations of [Heap.v] compute the tree operations of [Node.v].

    Each lemma follows one method: from a tree presented by a reference, the
    method returns (no nil dereference, fuel above the height), the result
    presents what [Node.v] computes, and only owned or fresh locations were
    written.  From it, [Tree.Copy] isolation: two trees that share only frozen
    nodes do not disturb each other. *)
From stdpp Require Import prelude strings gmap fin_maps.
From Stdlib Require Import ZArith Lia.
From S2P Require Import Prelude OrdMap Codec Node Hash Heap.
Local Open Scope Z_scope.

(** Unfolds the sequencing of [option] and the field projections and updates. *)
Ltac hsimpl :=
  cbn [mbind option_bind option_fmap option_map m_height m_size m_version m_key m_value m_left
       m_right m_hash set_left set_right set_key set_value set_height_size set_hash].

Section Refine.
Context (sha256 : bytes -> bytes) (cow version : Z) (Hver : cow < version).

Local Abbreviation repr := (repr sha256 cow).
Local Abbreviation writable := (writable cow).

Lemma repr_fields h r n F :
  repr h r n F ->
  refHeight h r = Some (Height n) /\ refSize h r = Some (Size n) /\
  refKey h r = Some (Key n) /\ refIsLeaf h r = Some (IsLeaf n) /\
  refVersion h r = Some (Version n).
Proof.
  destruct 1 as [n|l m Hl Hh Hz Hk|l m rl rr nl nr Fl Fr Hl Hh]; simpl; [done|..];
    rewrite Hl; simpl; rewrite ?Hh, ?Hz; split_and!; try done.
  by destruct (Z.eqb_spec (m_height m) 0).
Qed.

Lemma repr_value h r v k x F : repr h r (Leaf v k x) F -> refValue h r = Some x.
Proof. inversion 1 as [|l m Hl|]; simplify_eq/=; [done|]. by rewrite Hl. Qed.

(** The shape of a branch node: its fields, its children, and whether its
    own location may be written. *)
Inductive branch_shape (h : heap) : Ref -> Z -> Z -> Z -> bytes -> Ref -> Ref -> gset loc -> Prop :=
| shape_persisted hh s v k nl nr :
    branch_shape h (Persisted (Branch hh s v k nl nr)) hh s v k (Persisted nl) (Persisted nr) ∅
| shape_mem l m rl rr :
    h !! l = Some m -> m_left m = Some rl -> m_right m = Some rr ->
    branch_shape h (Mem l) (m_height m) (m_size m) (m_version m) (m_key m) rl rr (own cow l m ∅).

Lemma repr_branch_inv h r hh s v k nl nr F :
  repr h r (Branch hh s v k nl nr) F ->
  exists rl rr Fl Fr O, branch_shape h r hh s v k rl rr O /\
    repr h rl nl Fl /\ repr h rr nr Fr /\
    Fl ## Fr /\ O ## Fl /\ O ## Fr /\ F = O ∪ (Fl ∪ Fr).
Proof.
  inversion 1 as [| |l m rl rr nl' nr' Fl Fr Hl Hh El Er Rl Rr D N1 N2 Hf Hk]; simplify_eq/=.
  - eexists _, _, ∅, ∅, ∅. split_and!; [constructor..| | | |]; set_solver.
  - eexists _, _, Fl, Fr, _. split_and!; [by econstructor|done..| | |];
      unfold own in *; case_decide; set_solver.
Qed.

Lemma shape_frame h h' r hh s v k rl rr O G G' :
  branch_shape h r hh s v k rl rr O -> (forall x, x ∈ G -> writable h x) ->
  extends h h' G G' -> O ## G -> branch_shape h' r hh s v k rl rr O.
Proof.
  intros [|l m rl' rr' Hl El Er] Hw E D; [constructor|].
  constructor; [|done..]. apply (ext_keep _ _ _ _ E); [done|]. intros Hx.
  specialize (Hw _ Hx _ Hl). unfold own in D. case_decide; [lia|set_solver].
Qed.

Lemma shape_children h r hh s v k rl rr O :
  branch_shape h r hh s v k rl rr O ->
  refLeft h r = Some (Some rl) /\ refRight h r = Some (Some rr).
Proof. intros [|l m rl' rr' Hl El Er]; simpl; [done|]. by rewrite Hl; simpl; rewrite El, Er. Qed.

(** A location a tree owning [O] may use for a new or rewritten node. *)
Definition usable (h : heap) (l : loc) (O : gset loc) : Prop :=
  (l ∈ O /\ writable h l) \/ h !! l = None.

Lemma usable_writable h l O : usable h l O -> writable h l.
Proof. intros [[_ H]|H]; [done|]. intros m Hm. congruence. Qed.

Lemma usable_notin h l O r n F : usable h l O -> repr h r n F -> O ## F -> l ∉ F.
Proof.
  intros [[H _]|H] R D Hx; [set_solver|].
  destruct (repr_owned _ _ _ _ _ _ _ R Hx) as (m & ? & _). congruence.
Qed.

Lemma extends_usable h l m F O :
  usable h l O -> O ⊆ F -> extends h (<[l := m]> h) F ({[l]} ∪ F).
Proof.
  intros U S. split.
  - intros x m' Hx Hn. rewrite lookup_insert_ne; [done|]. intros <-.
    destruct U as [[? _]|?]; [set_solver|congruence].
  - intros x [->%elem_of_singleton|]%elem_of_union; [|auto].
    destruct U as [[? _]|?]; [left; set_solver|auto].
Qed.

(** Giving up owned locations is always allowed. *)
Lemma extends_shrink h h' F F' G : extends h h' F F' -> G ⊆ F' -> extends h h' F G.
Proof. intros [K O] S. split; [done|]. intros x Hx. apply O. set_solver. Qed.

Lemma Mutate_shape h r hh s v k rl rr O :
  branch_shape h r hh s v k rl rr O ->
  exists l val, let h' := <[l := mkMem hh s version k val (Some rl) (Some rr) None]> h in
    Mutate h r version cow = Some (l, h') /\ usable h l O /\
    refLeft h' r = Some (Some rl) /\ refRight h' r = Some (Some rr).
Proof.
  assert (Hf : h !! fresh (dom h) = None) by (apply not_elem_of_dom, is_fresh).
  intros [hh' s' v' k' nl nr|l m rl' rr' Hl El Er]; simpl.
  - eexists _, _. split_and!; try done. by right.
  - rewrite Hl. simpl. unfold stamp, own. rewrite El, Er.
    destruct (Z.leb_spec (m_version m) cow).
    + eexists _, _. split; [done|]. rewrite lookup_insert_ne, Hl by congruence. simpl.
      rewrite El, Er. split_and!; [by right|done..].
    + eexists _, _. split; [done|]. rewrite lookup_insert_eq. simpl.
      split_and!; [|done..]. left. rewrite decide_False by lia. split; [set_solver|].
      intros m' Hm'. simplify_eq. lia.
Qed.

(** ** A branch under construction: owned, hash reset *)

Record branch_at (h : heap) (l : loc) (hh s v : Z) (k : bytes) (rl rr : Ref) (nl nr : Node)
    (Fl Fr : gset loc) : Prop := {
  ba_at : exists val, h !! l = Some (mkMem hh s v k val (Some rl) (Some rr) None);
  ba_ver : cow < v;
  ba_l : repr h rl nl Fl;
  ba_r : repr h rr nr Fr;
  ba_disj : Fl ## Fr;
  ba_nl : l ∉ Fl;
  ba_nr : l ∉ Fr;
}.

Lemma branch_at_intro h l hh s v k val rl rr nl nr Fl Fr O :
  cow < v -> usable h l O -> repr h rl nl Fl -> repr h rr nr Fr -> Fl ## Fr ->
  O ## Fl -> O ## Fr ->
  branch_at (<[l := mkMem hh s v k val (Some rl) (Some rr) None]> h) l hh s v k rl rr nl nr Fl Fr.
Proof.
  intros Hv U Rl Rr D Dl Dr.
  pose proof (usable_notin _ _ _ _ _ _ U Rl Dl). pose proof (usable_notin _ _ _ _ _ _ U Rr Dr).
  pose proof (usable_writable _ _ _ U).
  constructor; try done; [|by apply repr_insert..].
  exists val. by rewrite lookup_insert_eq.
Qed.

Lemma branch_at_repr h l hh s v k rl rr nl nr Fl Fr :
  branch_at h l hh s v k rl rr nl nr Fl Fr -> hh <> 0 ->
  repr h (Mem l) (Branch hh s v k nl nr) ({[l]} ∪ (Fl ∪ Fr)).
Proof.
  intros [[val Hl] Hv Rl Rr D Nl Nr] Hh.
  replace ({[l]} ∪ (Fl ∪ Fr)) with
    (own cow l (mkMem hh s v k val (Some rl) (Some rr) None) (Fl ∪ Fr)).
  2:{ unfold own. simpl. by rewrite decide_False by lia. }
  eapply (repr_branch _ _ h l (mkMem hh s v k val (Some rl) (Some rr) None)); eauto; simpl.
  - lia.
  - by left.
Qed.

Lemma branch_at_shape h l hh s v k rl rr nl nr Fl Fr :
  branch_at h l hh s v k rl rr nl nr Fl Fr -> branch_shape h (Mem l) hh s v k rl rr {[l]}.
Proof.
  intros [[val Hl] Hv _ _ _ _ _].
  replace {[l]} with (own cow l (mkMem hh s v k val (Some rl) (Some rr) None) ∅).
  2:{ unfold own. simpl. rewrite decide_False by lia. set_solver. }
  by apply (shape_mem h l (mkMem hh s v k val (Some rl) (Some rr) None)).
Qed.

Lemma branch_at_writable h l hh s v k rl rr nl nr Fl Fr :
  branch_at h l hh s v k rl rr nl nr Fl Fr -> usable h l {[l]}.
Proof.
  intros [[val Hl] Hv _ _ _ _ _]. left. split; [set_solver|].
  intros m Hm. by simplify_eq.
Qed.

Lemma updateHeightSize_at h l hh s v k rl rr nl nr Fl Fr :
  branch_at h l hh s v k rl rr nl nr Fl Fr ->
  exists m, updateHeightSize h l = Some (<[l := m]> h) /\
    branch_at (<[l := m]> h) l (u8 (Z.max (Height nl) (Height nr) + 1))
      (i64 (Size nl + Size nr)) v k rl rr nl nr Fl Fr.
Proof.
  intros B. pose proof (branch_at_writable _ _ _ _ _ _ _ _ _ _ _ _ B) as U.
  destruct B as [[val Hl] Hv Rl Rr D Nl Nr]. unfold updateHeightSize. rewrite Hl. simpl.
  destruct (repr_fields _ _ _ _ Rl) as (-> & -> & _). destruct (repr_fields _ _ _ _ Rr) as (-> & -> & _).
  simpl. eexists. split; [done|]. eapply branch_at_intro; eauto; set_solver.
Qed.

(** Two nodes, the lower one a child of the upper, are both refreshed. *)
Lemma update_two h up lo hh s v k hh' s' v' k' rl rr nl nr Fl Fr ro no Fo (side : bool) :
  branch_at h lo hh s v k rl rr nl nr Fl Fr ->
  (exists val, h !! up = Some (mkMem hh' s' v' k' val
     (Some (if side then Mem lo else ro)) (Some (if side then ro else Mem lo)) None)) ->
  cow < v' -> repr h ro no Fo -> Fo ## Fl ∪ Fr -> lo ∉ Fo -> up <> lo ->
  up ∉ Fo -> up ∉ Fl -> up ∉ Fr ->
  let n := Branch (u8 (Z.max (Height nl) (Height nr) + 1)) (i64 (Size nl + Size nr)) v k nl nr in
  Height n <> 0 ->
  exists h1 m1 m2, updateHeightSize h lo = Some h1 /\
    updateHeightSize h1 up = Some (<[up := m2]> (<[lo := m1]> h)) /\
    let nl' := if side then n else no in let nr' := if side then no else n in
    let F1 := {[lo]} ∪ (Fl ∪ Fr) in
    branch_at (<[up := m2]> (<[lo := m1]> h)) up (u8 (Z.max (Height nl') (Height nr') + 1))
      (i64 (Size nl' + Size nr')) v' k'
      (if side then Mem lo else ro) (if side then ro else Mem lo) nl' nr'
      (if side then F1 else Fo) (if side then Fo else F1).
Proof.
  intros B [val Hup] Hv' Ro Do Nlo Hne No N1 N2 n Hn.
  pose proof (usable_writable _ _ _ (branch_at_writable _ _ _ _ _ _ _ _ _ _ _ _ B)) as Wlo.
  destruct (updateHeightSize_at _ _ _ _ _ _ _ _ _ _ _ _ B) as (m1 & -> & B1).
  apply branch_at_repr in B1; [|done].
  assert (Ro1 : repr (<[lo:=m1]> h) ro no Fo) by (by apply repr_insert).
  assert (Ba : branch_at (<[lo:=m1]> h) up hh' s' v' k' (if side then Mem lo else ro)
     (if side then ro else Mem lo) (if side then n else no) (if side then no else n)
     (if side then {[lo]} ∪ (Fl ∪ Fr) else Fo) (if side then Fo else {[lo]} ∪ (Fl ∪ Fr))).
  { constructor; [exists val; by rewrite lookup_insert_ne|done|destruct side..];
      try done; set_solver. }
  destruct (updateHeightSize_at _ _ _ _ _ _ _ _ _ _ _ _ Ba) as (m2 & E2 & B2).
  exists (<[lo:=m1]> h), m1, m2. done.
Qed.

Lemma extends_two h a b m1 m2 m3 m4 m5 F O :
  usable h a O -> O ⊆ F -> b ∈ F ->
  extends h (<[a := m5]> (<[b := m4]> (<[a := m3]> (<[b := m2]> (<[a := m1]> h))))) F ({[a]} ∪ F).
Proof.
  intros U S Hb. do 4 (eapply extends_trans; [|apply extends_insert; set_solver]).
  by apply (extends_usable h a m1 F O).
Qed.

(** Heights small enough for [uint8] arithmetic to be exact. *)
Definition low (n : Node) : Prop := 0 <= Height n < 200.

Definition at_node (h : heap) (l : loc) (n : Node) (F : gset loc) : Prop :=
  exists hh s v k rl rr nl nr Fl Fr,
    n = Branch hh s v k nl nr /\ F = {[l]} ∪ (Fl ∪ Fr) /\
    branch_at h l hh s v k rl rr nl nr Fl Fr.

Lemma rotateRight_at h l hh s v k rl rr lh ls lv lk ll lr nr Fl Fr :
  branch_at h l hh s v k rl rr (Branch lh ls lv lk ll lr) nr Fl Fr ->
  0 <= Height lr < 250 -> 0 <= Height nr < 250 ->
  exists l' h' F', rotateRight h l version cow = Some (l', h') /\
    at_node h' l' (Node.rotateRight (Branch hh s v k (Branch lh ls lv lk ll lr) nr) version) F' /\
    extends h h' ({[l]} ∪ (Fl ∪ Fr)) F'.
Proof.
  intros [[val Hl] Hv Rl Rr D Nl Nr] H1 H2. unfold rotateRight. rewrite Hl. hsimpl.
  destruct (repr_branch_inv _ _ _ _ _ _ _ _ _ Rl)
    as (rll & rlr & Fll & Flr & O & Sh & Rll & Rlr & D1 & D2 & D3 & ->).
  destruct (Mutate_shape _ _ _ _ _ _ _ _ _ Sh) as (ns & val' & -> & U & _ & ER).
  hsimpl. pose proof (usable_writable _ _ _ U) as W.
  assert (Hne : ns <> l) by (destruct U as [[? _]|?]; [set_solver|congruence]).
  rewrite lookup_insert_ne, Hl by done. hsimpl. rewrite ER. hsimpl.
  rewrite lookup_insert_ne, lookup_insert_eq by done. hsimpl.
  pose proof (usable_notin _ _ _ _ _ _ U Rll D2). pose proof (usable_notin _ _ _ _ _ _ U Rlr D3).
  pose proof (usable_notin _ _ _ _ _ _ U Rr ltac:(set_solver)).
  set (h3 := <[ns := _]> (<[l := _]> _)).
  assert (Wl : writable h l) by (intros ? ?; by simplify_eq/=).
  assert (K : forall r n F, repr h r n F -> ns ∉ F -> l ∉ F -> repr h3 r n F).
  { intros r n F R N1 N2. unfold h3.
    repeat apply repr_insert; try done; intros m; rewrite ?lookup_insert_ne, ?lookup_insert_eq by done;
      try (intros [= <-]; simpl; lia); auto. }
  assert (B : branch_at h3 l hh s v k rlr rr lr nr Flr Fr).
  { constructor; [|done|apply K; set_solver|apply K; set_solver|set_solver..].
    exists val. unfold h3. by rewrite lookup_insert_ne, lookup_insert_eq by done. }
  destruct (update_two h3 ns l hh s v k lh ls version lk rlr rr lr nr Flr Fr rll ll Fll false)
    as (h4 & m1 & m2 & E1 & E2 & B2);
    [done| |done|apply K; set_solver|set_solver|set_solver|done|done|done|done| |].
  - exists val'. unfold h3. by rewrite lookup_insert_eq.
  - simpl. rewrite u8_small by lia. lia.
  - rewrite E1. hsimpl. rewrite E2. hsimpl. eexists _, _, _. split; [done|]. split.
    + eexists _, _, _, _, _, _, _, _, _, _. split; [|split; [reflexivity|exact B2]]. done.
    + eapply extends_shrink; [apply (extends_two h ns l _ _ _ _ _ _ O); set_solver|set_solver].
Qed.

Lemma rotateLeft_at h l hh s v k rl rr rh rs rv rk nrl nrr nl Fl Fr :
  branch_at h l hh s v k rl rr nl (Branch rh rs rv rk nrl nrr) Fl Fr ->
  0 <= Height nl < 250 -> 0 <= Height nrl < 250 ->
  exists l' h' F', rotateLeft h l version cow = Some (l', h') /\
    at_node h' l' (Node.rotateLeft (Branch hh s v k nl (Branch rh rs rv rk nrl nrr)) version) F' /\
    extends h h' ({[l]} ∪ (Fl ∪ Fr)) F'.
Proof.
  intros [[val Hl] Hv Rl Rr D Nl Nr] H1 H2. unfold rotateLeft. rewrite Hl. hsimpl.
  destruct (repr_branch_inv _ _ _ _ _ _ _ _ _ Rr)
    as (rrl & rrr & Frl & Frr & O & Sh & Rrl & Rrr & D1 & D2 & D3 & ->).
  destruct (Mutate_shape _ _ _ _ _ _ _ _ _ Sh) as (ns & val' & -> & U & EL & _).
  hsimpl. pose proof (usable_writable _ _ _ U) as W.
  assert (Hne : ns <> l) by (destruct U as [[? _]|?]; [set_solver|congruence]).
  rewrite lookup_insert_ne, Hl by done. hsimpl. rewrite EL. hsimpl.
  rewrite lookup_insert_ne, lookup_insert_eq by done. hsimpl.
  pose proof (usable_notin _ _ _ _ _ _ U Rrl D2). pose proof (usable_notin _ _ _ _ _ _ U Rrr D3).
  pose proof (usable_notin _ _ _ _ _ _ U Rl ltac:(set_solver)).
  set (h3 := <[ns := _]> (<[l := _]> _)).
  assert (Wl : writable h l) by (intros ? ?; by simplify_eq/=).
  assert (K : forall r n F, repr h r n F -> ns ∉ F -> l ∉ F -> repr h3 r n F).
  { intros r n F R N1 N2. unfold h3.
    repeat apply repr_insert; try done; intros m; rewrite ?lookup_insert_ne, ?lookup_insert_eq by done;
      try (intros [= <-]; simpl; lia); auto. }
  assert (B : branch_at h3 l hh s v k rl rrl nl nrl Fl Frl).
  { constructor; [|done|apply K; set_solver|apply K; set_solver|set_solver..].
    exists val. unfold h3. by rewrite lookup_insert_ne, lookup_insert_eq by done. }
  destruct (update_two h3 ns l hh s v k rh rs version rk rl rrl nl nrl Fl Frl rrr nrr Frr true)
    as (h4 & m1 & m2 & E1 & E2 & B2);
    [done| |done|apply K; set_solver|set_solver|set_solver|done|done|done|done| |].
  - exists val'. unfold h3. by rewrite lookup_insert_eq.
  - simpl. rewrite u8_small by lia. lia.
  - rewrite E1. hsimpl. rewrite E2. hsimpl. eexists _, _, _. split; [done|]. split.
    + eexists _, _, _, _, _, _, _, _, _, _. split; [|split; [reflexivity|exact B2]]. done.
    + eapply extends_shrink; [apply (extends_two h ns l _ _ _ _ _ _ O); set_solver|set_solver].
Qed.

Lemma at_node_repr h l n F : at_node h l n F -> Height n <> 0 -> repr h (Mem l) n F.
Proof. intros (?&?&?&?&?&?&?&?&?&?&->&->&B) Hn. by apply (branch_at_repr _ _ _ _ _ _ _ _ _ _ _ _ B). Qed.

(** Owned locations of a presented tree stay apart from those of a tree it
    does not share with, whatever a permitted update made of the former. *)
Lemma extends_disj h h' F F' r n G :
  extends h h' F F' -> repr h r n G -> F ## G -> F' ## G.
Proof.
  intros E R D x Hx Hg. destruct (ext_own _ _ _ _ E x Hx) as [?|Hn]; [set_solver|].
  destruct (repr_owned _ _ _ _ _ _ _ R Hg) as (m & ? & _). congruence.
Qed.

Lemma repr_extends h h' r n F F' r' n' G :
  repr h r n F -> extends h h' F F' -> repr h r' n' G -> F ## G -> repr h' r' n' G.
Proof.
  intros R E R' D. apply (repr_frame _ _ h h' r' n' G F F'); [done| |done|done].
  intros x Hx. by apply (repr_writable _ _ _ _ _ _ _ R).
Qed.

(** Mutating one child of a branch and updating it further leaves the branch
    itself and the other child in place. *)
Lemma child_step h h' l hh s v k rl rr nl nr Fl Fr F' :
  branch_at h l hh s v k rl rr nl nr Fl Fr -> extends h h' Fl F' ->
  (exists val, h' !! l = Some (mkMem hh s v k val (Some rl) (Some rr) None)) /\
  repr h' rr nr Fr /\ F' ## Fr /\ l ∉ F'.
Proof.
  intros [[val Hl] Hv Rl Rr D Nl Nr] E. split_and!.
  - exists val. by apply (ext_keep _ _ _ _ E).
  - by apply (repr_extends h h' rl nl Fl F').
  - by apply (extends_disj h h' Fl F' rr nr Fr).
  - intros Hx. destruct (ext_own _ _ _ _ E _ Hx); [set_solver|congruence].
Qed.

Lemma child_step_r h h' l hh s v k rl rr nl nr Fl Fr F' :
  branch_at h l hh s v k rl rr nl nr Fl Fr -> extends h h' Fr F' ->
  (exists val, h' !! l = Some (mkMem hh s v k val (Some rl) (Some rr) None)) /\
  repr h' rl nl Fl /\ Fl ## F' /\ l ∉ F'.
Proof.
  intros [[val Hl] Hv Rl Rr D Nl Nr] E. split_and!.
  - exists val. by apply (ext_keep _ _ _ _ E).
  - by apply (repr_extends h h' rr nr Fr F').
  - symmetry. by apply (extends_disj h h' Fr F' rl nl Fl).
  - intros Hx. destruct (ext_own _ _ _ _ E _ Hx); [set_solver|congruence].
Qed.

Lemma Mutate_at h r hh s v k nl nr F :
  repr h r (Branch hh s v k nl nr) F ->
  exists l h' rl rr Fl Fr, Mutate h r version cow = Some (l, h') /\
    branch_at h' l hh s version k rl rr nl nr Fl Fr /\ extends h h' F ({[l]} ∪ (Fl ∪ Fr)).
Proof.
  intros R. destruct (repr_branch_inv _ _ _ _ _ _ _ _ _ R)
    as (rl & rr & Fl & Fr & O & Sh & Rl & Rr & D1 & D2 & D3 & ->).
  destruct (Mutate_shape _ _ _ _ _ _ _ _ _ Sh) as (l & val & E & U & _).
  eexists l, _, rl, rr, Fl, Fr. split; [exact E|]. split.
  - by eapply branch_at_intro.
  - eapply extends_shrink; [apply (extends_usable _ _ _ _ O); set_solver|set_solver].
Qed.

Lemma extends_lift h h' F F' G G' :
  extends h h' F F' -> F ⊆ G -> G' ⊆ F' ∪ G -> extends h h' G G'.
Proof.
  intros [K Ow] S S'. split.
  - intros x m Hx Hn. apply K; set_solver.
  - intros x Hx. destruct (decide (x ∈ F')) as [Hf|]; [destruct (Ow x Hf)|]; set_solver.
Qed.

(** The height premises of a rotation at a doubly heavy node. *)
Lemma branch_of_height n : 0 < Height n -> exists h s v k l r, n = Branch h s v k l r.
Proof. destruct n; simpl; [lia|]. eauto 10. Qed.

Lemma reBalance_left_right h l hh s v k rl rr lh ls lv lk ll lr nr Fl Fr :
  branch_at h l hh s v k rl rr (Branch lh ls lv lk ll lr) nr Fl Fr ->
  avl ll -> avl lr -> low ll -> low lr -> low nr -> Height ll < Height lr ->
  exists l1 h1 l2 h2 m, Mutate h rl version cow = Some (l1, h1) /\
    rotateLeft h1 l1 version cow = Some (l2, h2) /\ h2 !! l = Some m /\
    exists l' h' F', rotateRight (<[l := set_left m (Some (Mem l2))]> h2) l version cow = Some (l', h') /\
      at_node h' l' (Node.rotateRight (Branch hh s v k
        (Node.rotateLeft (Branch lh ls version lk ll lr) version) nr) version) F' /\
      extends h h' ({[l]} ∪ (Fl ∪ Fr)) F'.
Proof.
  intros B All Alr L1 L2 L3 Hlt. unfold low in *.
  destruct (Mutate_at _ _ _ _ _ _ _ _ _ (ba_l _ _ _ _ _ _ _ _ _ _ _ _ B))
    as (l1 & h1 & a & b & Fa & Fb & EM & B1 & E1).
  destruct (branch_of_height lr ltac:(lia)) as (xh & xs & xv & xk & xl & xr & ->).
  assert (0 <= Height xl < 250).
  { simpl in Alr, L2. destruct Alr as (?%avl_height_nonneg & ?%avl_height_nonneg & -> & _). lia. }
  assert (0 <= Height xr < 250).
  { simpl in Alr, L2. destruct Alr as (?%avl_height_nonneg & ?%avl_height_nonneg & -> & _). lia. }
  destruct (rotateLeft_at _ _ _ _ _ _ _ _ _ _ _ _ _ _ _ _ _ B1) as (l2 & h2 & F2 & ER & N2 & E2);
    [lia|done|].
  pose proof (extends_trans _ _ _ _ _ _ E1 E2) as E12.
  destruct (child_step _ _ _ _ _ _ _ _ _ _ _ _ _ _ B E12) as ([val Hl2] & Rr2 & D2 & N).
  apply at_node_repr in N2; [|simpl; rewrite !u8_small; rewrite ?u8_small by lia; lia].
  eexists l1, h1, l2, h2, _. split_and!; [done..|].
  unfold set_left. hsimpl.
  assert (B3 : branch_at (<[l := mkMem hh s v k val (Some (Mem l2)) (Some rr) None]> h2) l hh s v k
    (Mem l2) rr (Node.rotateLeft (Branch lh ls version lk ll (Branch xh xs xv xk xl xr)) version) nr F2 Fr).
  { pose proof (ba_ver _ _ _ _ _ _ _ _ _ _ _ _ B). pose proof (ba_nr _ _ _ _ _ _ _ _ _ _ _ _ B).
    apply (branch_at_intro _ _ _ _ _ _ _ _ _ _ _ _ _ {[l]}); try done; [|set_solver..].
    left. split; [set_solver|]. intros m Hm. by simplify_eq. }
  destruct (rotateRight_at _ _ _ _ _ _ _ _ _ _ _ _ _ _ _ _ _ B3) as (l' & h' & F' & ER' & N' & E');
    [done|lia|].
  eexists _, _, _. split; [done|]. split; [exact N'|].
  eapply extends_trans; [apply (extends_lift _ _ _ _ _ ({[l]} ∪ (F2 ∪ Fr)) E12); set_solver|].
  eapply extends_trans; [apply (extends_insert _ l); set_solver|done].
Qed.

Lemma reBalance_right_left h l hh s v k rl rr rh rs rv rk nrl nrr nl Fl Fr :
  branch_at h l hh s v k rl rr nl (Branch rh rs rv rk nrl nrr) Fl Fr ->
  avl nrl -> avl nrr -> low nrl -> low nrr -> low nl -> Height nrr < Height nrl ->
  exists l1 h1 l2 h2 m, Mutate h rr version cow = Some (l1, h1) /\
    rotateRight h1 l1 version cow = Some (l2, h2) /\ h2 !! l = Some m /\
    exists l' h' F', rotateLeft (<[l := set_right m (Some (Mem l2))]> h2) l version cow = Some (l', h') /\
      at_node h' l' (Node.rotateLeft (Branch hh s v k nl
        (Node.rotateRight (Branch rh rs version rk nrl nrr) version)) version) F' /\
      extends h h' ({[l]} ∪ (Fl ∪ Fr)) F'.
Proof.
  intros B All Alr L1 L2 L3 Hlt. unfold low in *.
  destruct (Mutate_at _ _ _ _ _ _ _ _ _ (ba_r _ _ _ _ _ _ _ _ _ _ _ _ B))
    as (l1 & h1 & a & b & Fa & Fb & EM & B1 & E1).
  destruct (branch_of_height nrl ltac:(lia)) as (xh & xs & xv & xk & xl & xr & ->).
  assert (0 <= Height xl < 250).
  { simpl in All, L1. destruct All as (?%avl_height_nonneg & ?%avl_height_nonneg & -> & _). lia. }
  assert (0 <= Height xr < 250).
  { simpl in All, L1. destruct All as (?%avl_height_nonneg & ?%avl_height_nonneg & -> & _). lia. }
  destruct (rotateRight_at _ _ _ _ _ _ _ _ _ _ _ _ _ _ _ _ _ B1) as (l2 & h2 & F2 & ER & N2 & E2);
    [done|lia|].
  pose proof (extends_trans _ _ _ _ _ _ E1 E2) as E12.
  destruct (child_step_r _ _ _ _ _ _ _ _ _ _ _ _ _ _ B E12) as ([val Hl2] & Rl2 & D2 & N).
  apply at_node_repr in N2; [|simpl; rewrite !u8_small; rewrite ?u8_small by lia; lia].
  eexists l1, h1, l2, h2, _. split_and!; [done..|].
  unfold set_right. hsimpl.
  assert (B3 : branch_at (<[l := mkMem hh s v k val (Some rl) (Some (Mem l2)) None]> h2) l hh s v k
    rl (Mem l2) nl (Node.rotateRight (Branch rh rs version rk (Branch xh xs xv xk xl xr) nrr) version) Fl F2).
  { pose proof (ba_ver _ _ _ _ _ _ _ _ _ _ _ _ B). pose proof (ba_nl _ _ _ _ _ _ _ _ _ _ _ _ B).
    apply (branch_at_intro _ _ _ _ _ _ _ _ _ _ _ _ _ {[l]}); try done; [|set_solver..].
    left. split; [set_solver|]. intros m Hm. by simplify_eq. }
  destruct (rotateLeft_at _ _ _ _ _ _ _ _ _ _ _ _ _ _ _ _ _ B3) as (l' & h' & F' & ER' & N' & E');
    [lia|done|].
  eexists _, _, _. split; [done|]. split; [exact N'|].
  eapply extends_trans; [apply (extends_lift _ _ _ _ _ ({[l]} ∪ (Fl ∪ F2)) E12); set_solver|].
  eapply extends_trans; [apply (extends_insert _ l); set_solver|done].
Qed.

Lemma calcBalance_shape h r hh s v k rl rr O nl nr Fl Fr :
  branch_shape h r hh s v k rl rr O -> repr h rl nl Fl -> repr h rr nr Fr ->
  calcBalance h r = Some (Height nl - Height nr).
Proof.
  intros Sh Rl Rr. unfold calcBalance.
  destruct (shape_children _ _ _ _ _ _ _ _ _ Sh) as [-> ->]. hsimpl.
  by destruct (repr_fields _ _ _ _ Rl) as (-> & _), (repr_fields _ _ _ _ Rr) as (-> & _).
Qed.

Lemma calcBalance_repr h r hh s v k nl nr F :
  repr h r (Branch hh s v k nl nr) F -> calcBalance h r = Some (Height nl - Height nr).
Proof.
  intros R. destruct (repr_branch_inv _ _ _ _ _ _ _ _ _ R)
    as (rl & rr & Fl & Fr & O & Sh & Rl & Rr & _). by eapply calcBalance_shape.
Qed.

Lemma reBalance_at h l hh s v k rl rr nl nr Fl Fr :
  branch_at h l hh s v k rl rr nl nr Fl Fr -> avl nl -> avl nr -> low nl -> low nr ->
  exists l' h' F', reBalance h l version cow = Some (l', h') /\
    at_node h' l' (Node.reBalance (Branch hh s v k nl nr) version) F' /\
    extends h h' ({[l]} ∪ (Fl ∪ Fr)) F'.
Proof.
  intros B Al Ar Ll Lr. pose proof (ba_at _ _ _ _ _ _ _ _ _ _ _ _ B) as [val Hl].
  unfold reBalance, Node.reBalance.
  rewrite (calcBalance_shape _ _ _ _ _ _ _ _ _ _ _ _ _ (branch_at_shape _ _ _ _ _ _ _ _ _ _ _ _ B)
    (ba_l _ _ _ _ _ _ _ _ _ _ _ _ B) (ba_r _ _ _ _ _ _ _ _ _ _ _ _ B)).
  rewrite Hl. hsimpl. cbn [Node.calcBalance].
  unfold low in *. destruct (Z.gtb_spec (Height nl - Height nr) 1) as [Hb|Hb];
    [|destruct (Z.ltb_spec (Height nl - Height nr) (-1)) as [Hb'|Hb']].
  - destruct (branch_of_height nl ltac:(lia)) as (lh & ls & lv & lk & ll & lr & ->).
    rewrite (calcBalance_repr _ _ _ _ _ _ _ _ _ (ba_l _ _ _ _ _ _ _ _ _ _ _ _ B)). hsimpl.
    cbn [Node.calcBalance]. simpl in Al, Ll. destruct Al as (All & Alr & -> & _).
    pose proof (avl_height_nonneg _ All). pose proof (avl_height_nonneg _ Alr).
    destruct (Z.geb_spec (Height ll - Height lr) 0).
    + apply (rotateRight_at _ _ _ _ _ _ _ _ _ _ _ _ _ _ _ _ _ B); lia.
    + destruct (reBalance_left_right _ _ _ _ _ _ _ _ _ _ _ _ _ _ _ _ _ B)
        as (l1 & h1 & l2 & h2 & m & -> & E2 & E3 & R); try done; unfold low; try lia.
      hsimpl. rewrite E2. hsimpl. rewrite E3. exact R.
  - destruct (branch_of_height nr ltac:(lia)) as (rh & rs & rv & rk & nrl & nrr & ->).
    rewrite (calcBalance_repr _ _ _ _ _ _ _ _ _ (ba_r _ _ _ _ _ _ _ _ _ _ _ _ B)). hsimpl.
    cbn [Node.calcBalance]. simpl in Ar, Lr. destruct Ar as (Arl & Arr & -> & _).
    pose proof (avl_height_nonneg _ Arl). pose proof (avl_height_nonneg _ Arr).
    destruct (Z.leb_spec (Height nrl - Height nrr) 0).
    + apply (rotateLeft_at _ _ _ _ _ _ _ _ _ _ _ _ _ _ _ _ _ B); lia.
    + destruct (reBalance_right_left _ _ _ _ _ _ _ _ _ _ _ _ _ _ _ _ _ B)
        as (l1 & h1 & l2 & h2 & m & -> & E2 & E3 & R); try done; unfold low; try lia.
      hsimpl. rewrite E2. hsimpl. rewrite E3. exact R.
  - eexists _, _, _. split; [done|]. split; [|apply extends_refl].
    eexists _, _, _, _, _, _, _, _, _, _. split; [done|]. split; [done|]. exact B.
Qed.

Lemma at_node_avl h l n F : at_node h l n F -> avl n -> repr h (Mem l) n F.
Proof.
  intros N A. apply at_node_repr; [done|]. destruct N as (?&?&?&?&?&?&?&?&?&?&->&_).
  destruct A as (?%avl_height_nonneg & ?%avl_height_nonneg & -> & _). simpl. lia.
Qed.

(** [updateHeightSize] followed by [reBalance], as both operations end. *)
Lemma rebuild_at h l hh s v k rl rr nl nr Fl Fr :
  branch_at h l hh s v k rl rr nl nr Fl Fr -> avl nl -> avl nr -> low nl -> low nr ->
  avl (Node.reBalance (Node.updateHeightSize (Branch hh s v k nl nr)) version) ->
  exists h1, updateHeightSize h l = Some h1 /\
  exists l' h' F', reBalance h1 l version cow = Some (l', h') /\
    repr h' (Mem l') (Node.reBalance (Node.updateHeightSize (Branch hh s v k nl nr)) version) F' /\
    extends h h' ({[l]} ∪ (Fl ∪ Fr)) F'.
Proof.
  intros B Al Ar Ll Lr A.
  destruct (updateHeightSize_at _ _ _ _ _ _ _ _ _ _ _ _ B) as (m & E & B1).
  eexists. split; [exact E|].
  destruct (reBalance_at _ _ _ _ _ _ _ _ _ _ _ _ B1) as (l' & h' & F' & E2 & N & X); try done.
  eexists _, _, _. split; [exact E2|]. split; [by apply at_node_avl|].
  eapply extends_trans; [apply (extends_insert _ l); set_solver|done].
Qed.

Lemma leaf_at h l O k x a b :
  usable h l O ->
  repr (<[l := mkMem 0 1 version k x a b None]> h) (Mem l) (Leaf version k x) {[l]} /\
  extends h (<[l := mkMem 0 1 version k x a b None]> h) O {[l]}.
Proof.
  intros U. split.
  - replace {[l]} with (own cow l (mkMem 0 1 version k x a b None) ∅).
    2:{ unfold own. simpl. rewrite decide_False by lia. set_solver. }
    apply (repr_leaf _ _ _ l (mkMem 0 1 version k x a b None)); try done.
    + by rewrite lookup_insert_eq.
    + by left.
  - eapply extends_shrink; [by apply (extends_usable _ _ _ _ O)|set_solver].
Qed.

Lemma Mutate_leaf h r v k x F :
  repr h r (Leaf v k x) F ->
  exists l a b, Mutate h r version cow = Some (l, <[l := mkMem 0 1 version k x a b None]> h) /\
    usable h l F.
Proof.
  assert (Hf : h !! fresh (dom h) = None) by (apply not_elem_of_dom, is_fresh).
  inversion 1 as [|l m Hl Hh Hz Hk|]; simplify_eq/=.
  - eexists _, _, _. split; [done|]. by right.
  - rewrite Hl. simpl. unfold stamp, own. rewrite Hh, Hz.
    destruct (Z.leb_spec (m_version m) cow).
    + eexists _, _, _. split; [done|]. by right.
    + eexists _, _, _. split; [done|]. left. rewrite decide_False by lia.
      split; [set_solver|]. intros m' Hm'. simplify_eq. lia.
Qed.

Lemma shape_disj h h' r hh s v k rl rr O F F' :
  branch_shape h r hh s v k rl rr O -> extends h h' F F' -> O ## F -> O ## F'.
Proof.
  intros Sh E D x Hx Hf. destruct (ext_own _ _ _ _ E x Hf) as [?|Hn]; [set_solver|].
  destruct Sh as [|l m ? ? Hl]; [set_solver|]. unfold own in Hx. case_decide; [set_solver|].
  assert (x = l) by set_solver. congruence.
Qed.

Section Replace.
Context (h : heap) (r : Ref) (hh s v : Z) (k : bytes) (rl rr : Ref) (O : gset loc)
  (nl nr : Node) (Fl Fr : gset loc).
Hypotheses (Sh : branch_shape h r hh s v k rl rr O)
  (Rl : repr h rl nl Fl) (Rr : repr h rr nr Fr) (D1 : Fl ## Fr) (D2 : O ## Fl) (D3 : O ## Fr).

(** After an operation on one child, the node is made writable and the
    result of the operation becomes its child. *)
Lemma replace_left h1 c n' F' :
  repr h1 c n' F' -> extends h h1 Fl F' ->
  exists l val, Mutate h1 r version cow =
    Some (l, <[l := mkMem hh s version k val (Some rl) (Some rr) None]> h1) /\
    forall k', let h2 := <[l := mkMem hh s version k' val (Some c) (Some rr) None]> h1 in
    branch_at h2 l hh s version k' c rr n' nr F' Fr /\
    extends h h2 (O ∪ (Fl ∪ Fr)) ({[l]} ∪ (F' ∪ Fr)).
Proof.
  intros Rc E. assert (W : forall x, x ∈ Fl -> writable h x).
  { intros x Hx. by apply (repr_writable _ _ _ _ _ _ _ Rl). }
  pose proof (shape_frame _ _ _ _ _ _ _ _ _ _ _ _ Sh W E D2) as Sh1.
  destruct (Mutate_shape _ _ _ _ _ _ _ _ _ Sh1) as (l & val & EM & U & _).
  pose proof (shape_disj _ _ _ _ _ _ _ _ _ _ _ _ Sh E D2) as OF.
  eexists l, val. split; [exact EM|]. intros k'. split.
  - apply (branch_at_intro _ _ _ _ _ _ _ _ _ _ _ _ _ O); try done.
    + by apply (repr_extends h h1 rl nl Fl F').
    + by apply (extends_disj h h1 Fl F' rr nr Fr).
  - eapply extends_trans; [apply (extends_lift _ _ _ _ _ (O ∪ (F' ∪ Fr)) E); set_solver|].
    eapply extends_shrink; [apply (extends_usable _ _ _ _ O); set_solver|set_solver].
Qed.

Lemma replace_right h1 c n' F' :
  repr h1 c n' F' -> extends h h1 Fr F' ->
  exists l val, Mutate h1 r version cow =
    Some (l, <[l := mkMem hh s version k val (Some rl) (Some rr) None]> h1) /\
    forall k', let h2 := <[l := mkMem hh s version k' val (Some rl) (Some c) None]> h1 in
    branch_at h2 l hh s version k' rl c nl n' Fl F' /\
    extends h h2 (O ∪ (Fl ∪ Fr)) ({[l]} ∪ (Fl ∪ F')).
Proof.
  intros Rc E. assert (W : forall x, x ∈ Fr -> writable h x).
  { intros x Hx. by apply (repr_writable _ _ _ _ _ _ _ Rr). }
  pose proof (shape_frame _ _ _ _ _ _ _ _ _ _ _ _ Sh W E D3) as Sh1.
  destruct (Mutate_shape _ _ _ _ _ _ _ _ _ Sh1) as (l & val & EM & U & _).
  pose proof (shape_disj _ _ _ _ _ _ _ _ _ _ _ _ Sh E D3) as OF.
  eexists l, val. split; [exact EM|]. intros k'. split.
  - apply (branch_at_intro _ _ _ _ _ _ _ _ _ _ _ _ _ O); try done.
    + by apply (repr_extends h h1 rr nr Fr F').
    + symmetry. by apply (extends_disj h h1 Fr F' rl nl Fl).
  - eapply extends_trans; [apply (extends_lift _ _ _ _ _ (O ∪ (Fl ∪ F')) E); set_solver|].
    eapply extends_shrink; [apply (extends_usable _ _ _ _ O); set_solver|set_solver].
Qed.

(** When a child has become empty, its sibling takes the node's place. *)
Lemma drop_left h1 :
  extends h h1 Fl ∅ ->
  refRight h1 r = Some (Some rr) /\ repr h1 rr nr Fr /\ extends h h1 (O ∪ (Fl ∪ Fr)) Fr.
Proof.
  intros E. split_and!.
  - eapply shape_children, (shape_frame _ _ _ _ _ _ _ _ _ _ _ _ Sh); [|exact E|done].
    intros x Hx. by apply (repr_writable _ _ _ _ _ _ _ Rl).
  - by apply (repr_extends h h1 rl nl Fl ∅).
  - by apply (extends_lift _ _ _ _ _ _ E); set_solver.
Qed.

Lemma drop_right h1 :
  extends h h1 Fr ∅ ->
  refLeft h1 r = Some (Some rl) /\ repr h1 rl nl Fl /\ extends h h1 (O ∪ (Fl ∪ Fr)) Fl.
Proof.
  intros E. split_and!.
  - eapply shape_children, (shape_frame _ _ _ _ _ _ _ _ _ _ _ _ Sh); [|exact E|done].
    intros x Hx. by apply (repr_writable _ _ _ _ _ _ _ Rr).
  - by apply (repr_extends h h1 rr nr Fr ∅).
  - by apply (extends_lift _ _ _ _ _ _ E); set_solver.
Qed.
End Replace.

Lemma wf_low n : wf n -> small n -> avl n /\ low n.
Proof. intros (A & _ & _) S. split; [done|]. pose proof (avl_height_bound n A S). unfold low. lia. Qed.

Lemma set_leaf_ok fuel h r F v k w key value :
  repr h r (Leaf v k w) F ->
  exists l h' F', setRecursive (S fuel) h (Some r) key value version cow =
      Some (l, (setNode (Leaf v k w) key value version).2, h') /\
    repr h' (Mem l) (setNode (Leaf v k w) key value version).1 F' /\ extends h h' F F'.
Proof.
  intros R. cbn [setRecursive]. destruct (repr_fields _ _ _ _ R) as (_ & _ & -> & -> & _). hsimpl.
  cbn [IsLeaf Key setNode]. destruct (bytes_compare key k) eqn:Ek.
  - destruct (Mutate_leaf _ _ _ _ _ _ R) as (l & a & b & -> & U). hsimpl.
    rewrite lookup_insert_eq. hsimpl. rewrite insert_insert_eq.
    destruct (leaf_at h l F k value a b U). eauto 10.
  - cbn [alloc]. set (l1 := fresh (dom h)). set (h1 := <[l1 := _]> h). set (l2 := fresh (dom h1)).
    assert (U1 : usable h l1 ∅) by (right; apply not_elem_of_dom, is_fresh).
    assert (U2 : usable h1 l2 ∅) by (right; apply not_elem_of_dom, is_fresh).
    destruct (leaf_at h l1 ∅ key value None None U1) as [R1 E1].
    assert (R0 : repr h1 r (Leaf v k w) F).
    { apply repr_insert; [done| |by eapply usable_writable]. by eapply usable_notin. }
    eexists _, _, _. split; [done|]. split.
    + eapply (branch_at_repr _ _ _ _ _ _ _ _ _ _ {[l1]} F); [|done].
      eapply (branch_at_intro _ _ _ _ _ _ _ _ _ _ _ _ _ ∅); try done; [|set_solver..].
      pose proof (usable_notin _ _ _ _ _ _ U1 R ltac:(set_solver)). set_solver.
    + eapply extends_trans; [apply (extends_lift _ _ _ _ F ({[l1]} ∪ F) E1); set_solver|].
      by apply (extends_usable _ _ _ _ ∅).
  - cbn [alloc]. set (l1 := fresh (dom h)). set (h1 := <[l1 := _]> h). set (l2 := fresh (dom h1)).
    assert (U1 : usable h l1 ∅) by (right; apply not_elem_of_dom, is_fresh).
    assert (U2 : usable h1 l2 ∅) by (right; apply not_elem_of_dom, is_fresh).
    destruct (leaf_at h l1 ∅ key value None None U1) as [R1 E1].
    assert (R0 : repr h1 r (Leaf v k w) F).
    { apply repr_insert; [done| |by eapply usable_writable]. by eapply usable_notin. }
    eexists _, _, _. split; [done|]. split.
    + eapply (branch_at_repr _ _ _ _ _ _ _ _ _ _ F {[l1]}); [|done].
      eapply (branch_at_intro _ _ _ _ _ _ _ _ _ _ _ _ _ ∅); try done; [|set_solver..].
      pose proof (usable_notin _ _ _ _ _ _ U1 R ltac:(set_solver)). set_solver.
    + eapply extends_trans; [apply (extends_lift _ _ _ _ F (F ∪ {[l1]}) E1); set_solver|].
      by apply (extends_usable _ _ _ _ ∅).
Qed.

(** What follows the recursive call of [setRecursive]. *)
Lemma set_finish h0 h l hh s k rl rr nl nr Fl Fr F (updated : bool) :
  branch_at h l hh s version k rl rr nl nr Fl Fr -> extends h0 h F ({[l]} ∪ (Fl ∪ Fr)) ->
  avl nl -> avl nr -> low nl -> low nr -> hh <> 0 ->
  let n := if updated then Branch hh s version k nl nr
           else Node.reBalance (Node.updateHeightSize (Branch hh s version k nl nr)) version in
  avl n ->
  exists l' h' F', (if updated then Some (l, true, h)
    else let? h := updateHeightSize h l in
         let? (newNode, h) := reBalance h l version cow in Some (newNode, false, h)) =
    Some (l', updated, h') /\ repr h' (Mem l') n F' /\ extends h0 h' F F'.
Proof.
  intros B E Al Ar Ll Lr Hh n An. destruct updated.
  - eexists _, _, _. split; [done|]. split; [|exact E]. by apply (branch_at_repr _ _ _ _ _ _ _ _ _ _ _ _ B).
  - destruct (rebuild_at _ _ _ _ _ _ _ _ _ _ _ _ B) as (h1 & -> & l' & h' & F' & E2 & R & X); try done.
    hsimpl. rewrite E2. hsimpl. eexists _, _, _. split; [done|]. split; [exact R|].
    by eapply extends_trans.
Qed.

Lemma set_refines n h r F fuel key value :
  repr h r n F -> wf n -> len (to_list n) + 1 < max_leaves -> Height n < Z.of_nat fuel ->
  exists l h' F', setRecursive fuel h (Some r) key value version cow =
      Some (l, (setNode n key value version).2, h') /\
    repr h' (Mem l) (setNode n key value version).1 F' /\ extends h h' F F'.
Proof.
  revert h r F fuel. induction n as [v k w|hh s v k nl IHl nr IHr]; intros h r F fuel R W Hs Hf;
    (destruct fuel as [|fuel]; [pose proof (avl_height_nonneg _ (proj1 W)); lia|]);
    [by apply set_leaf_ok|].
  pose proof (setNode_ok _ key value version W Hs) as Ok.
  destruct (repr_fields _ _ _ _ R) as (_ & _ & Ek & Ei & _).
  destruct (repr_branch_inv _ _ _ _ _ _ _ _ _ R)
    as (rl & rr & Fl & Fr & O & Sh & Rl & Rr & D1 & D2 & D3 & ->).
  destruct (shape_children _ _ _ _ _ _ _ _ _ Sh) as [El Er].
  apply wf_branch in W as ([Wl Wr _ _ _] & -> & _ & _). simpl in Hs. rewrite len_app in Hs.
  pose proof (to_list_nonempty nl). pose proof (to_list_nonempty nr).
  destruct (wf_low nl Wl ltac:(unfold small; lia)) as [Al Ll].
  destruct (wf_low nr Wr ltac:(unfold small; lia)) as [Ar Lr].
  assert (1 + Z.max (Height nl) (Height nr) <> 0) by (unfold low in *; lia).
  cbn [setRecursive]. rewrite Ek, Ei. hsimpl. cbn [IsLeaf Key setNode] in *.
  destruct (bytes_ltb key k).
  - rewrite El. hsimpl. pose proof (setNode_ok nl key value version Wl ltac:(lia)) as Okc.
    destruct (IHl h rl Fl fuel Rl Wl ltac:(lia) ltac:(simpl in Hf; lia)) as (c & h1 & F1 & -> & Rc & E1).
    destruct (setNode nl key value version) as [nl' updated]. hsimpl. cbn [fst snd] in *.
    destruct Okc as (Wc & Lc & _).
    destruct (wf_low nl' Wc) as [Al' Ll'].
    { unfold small. rewrite Lc. pose proof (len_assoc_set key value (to_list nl)). lia. }
    destruct (replace_left _ _ _ _ _ _ _ _ _ _ _ _ _ Sh Rl Rr D1 D2 D3 h1 (Mem c) nl' F1 Rc E1)
      as (l & val & -> & K). hsimpl. rewrite lookup_insert_eq. hsimpl. rewrite insert_insert_eq.
    destruct (K k) as [B E2].
    destruct (set_finish _ _ _ _ _ _ _ _ _ _ _ _ _ updated B E2) as (l' & h' & F' & EQ & R' & X);
      try done; [destruct updated; apply Ok|].
    destruct updated; eauto 10.
  - rewrite Er. hsimpl. pose proof (setNode_ok nr key value version Wr ltac:(lia)) as Okc.
    destruct (IHr h rr Fr fuel Rr Wr ltac:(lia) ltac:(simpl in Hf; lia)) as (c & h1 & F1 & -> & Rc & E1).
    destruct (setNode nr key value version) as [nr' updated]. hsimpl. cbn [fst snd] in *.
    destruct Okc as (Wc & Lc & _).
    destruct (wf_low nr' Wc) as [Ar' Lr'].
    { unfold small. rewrite Lc. pose proof (len_assoc_set key value (to_list nr)). lia. }
    destruct (replace_right _ _ _ _ _ _ _ _ _ _ _ _ _ Sh Rl Rr D1 D2 D3 h1 (Mem c) nr' F1 Rc E1)
      as (l & val & -> & K). hsimpl. rewrite lookup_insert_eq. hsimpl. rewrite insert_insert_eq.
    destruct (K k) as [B E2].
    destruct (set_finish _ _ _ _ _ _ _ _ _ _ _ _ _ updated B E2) as (l' & h' & F' & EQ & R' & X);
      try done; [destruct updated; apply Ok|].
    destruct updated; eauto 10.
Qed.

Definition repr_opt (h : heap) (o : option Ref) (n : option Node) (F : gset loc) : Prop :=
  match o, n with
  | Some r, Some n => repr h r n F
  | None, None => F = ∅
  | _, _ => False
  end.

(** The result of [removeRecursive] presents that of [removeNode], and a key
    that is not found leaves the store as it was. *)
Definition remove_result (h : heap) (F : gset loc)
    (res : option (slice * option Ref * option bytes * heap))
    (pure : slice * option Node * option bytes) : Prop :=
  exists o h' F', res = Some (pure.1.1, o, pure.2, h') /\
    repr_opt h' o pure.1.2 F' /\ extends h h' F F' /\ (pure.1.1 = None -> h' = h).

Lemma remove_unchanged h r n F :
  repr h r n F -> remove_result h F (Some (None, Some r, None, h)) (None, Some n, None).
Proof. intros R. exists (Some r), h, F. split_and!; try done. apply extends_refl. Qed.

(** What follows the recursive call when the child is kept. *)
Lemma remove_finish h0 h l hh s k rl rr nl nr Fl Fr F value newKey :
  branch_at h l hh s version k rl rr nl nr Fl Fr -> extends h0 h F ({[l]} ∪ (Fl ∪ Fr)) ->
  wf nl -> wf nr -> small nl -> small nr ->
  let n := Node.reBalance (Node.updateHeightSize (Branch hh s version k nl nr)) version in
  wf n ->
  remove_result h0 F
    (let? h := updateHeightSize h l in
     let? (n, h) := reBalance h l version cow in Some (Some value, Some (Mem n), newKey, h))
    (Some value, Some n, newKey).
Proof.
  intros B E Wl Wr Sl Sr n Wn.
  destruct (wf_low nl Wl Sl), (wf_low nr Wr Sr).
  destruct (rebuild_at _ _ _ _ _ _ _ _ _ _ _ _ B) as (h1 & -> & l' & h' & F' & E2 & R & X);
    try done; [by destruct Wn|].
  hsimpl. rewrite E2. hsimpl. eexists _, _, _. split; [done|]. split; [exact R|].
  split; [|done]. by eapply extends_trans.
Qed.

Lemma remove_leaf_ok fuel h r F v k w key :
  repr h r (Leaf v k w) F ->
  remove_result h F (removeRecursive (S fuel) h (Some r) key version cow)
    (removeNode (Leaf v k w) key version).
Proof.
  intros R. cbn [removeRecursive]. destruct (repr_fields _ _ _ _ R) as (_ & _ & -> & -> & _). hsimpl.
  cbn [IsLeaf Key removeNode]. case_decide; [|by apply remove_unchanged].
  rewrite (repr_value _ _ _ _ _ _ R). hsimpl. exists None, h, ∅. split_and!; done.
Qed.

Lemma removed_bounds n x v n' nk :
  removed n x (Some v, Some n', nk) -> small n -> wf n' /\ small n'.
Proof.
  intros (W & L & _) S. split; [done|]. unfold small in *. rewrite L.
  pose proof (len_assoc_del x (to_list n)). lia.
Qed.

Lemma remove_refines n h r F fuel key :
  repr h r n F -> wf n -> small n -> values_ok (to_list n) -> Height n < Z.of_nat fuel ->
  remove_result h F (removeRecursive fuel h (Some r) key version cow) (removeNode n key version).
Proof.
  revert h r F fuel. induction n as [v k w|hh s v k nl IHl nr IHr]; intros h r F fuel R W Hs V Hf;
    (destruct fuel as [|fuel]; [pose proof (avl_height_nonneg _ (proj1 W)); lia|]);
    [by apply remove_leaf_ok|].
  pose proof (removeNode_ok _ key version W Hs V) as Ok.
  pose proof (remove_unchanged _ _ _ _ R) as Un.
  destruct (repr_fields _ _ _ _ R) as (_ & _ & Ek & Ei & _).
  destruct (repr_branch_inv _ _ _ _ _ _ _ _ _ R)
    as (rl & rr & Fl & Fr & O & Sh & Rl & Rr & D1 & D2 & D3 & ->).
  destruct (shape_children _ _ _ _ _ _ _ _ _ Sh) as [El Er].
  apply wf_branch in W as ([Wl Wr _ _ _] & -> & _ & _).
  apply Forall_app in V as [Vl Vr]. unfold small in Hs. simpl in Hs. rewrite len_app in Hs.
  pose proof (to_list_nonempty nl). pose proof (to_list_nonempty nr).
  assert (small nl /\ small nr) as [Sl Sr] by (unfold small; lia).
  cbn [removeRecursive]. rewrite Ek, Ei. hsimpl. cbn [IsLeaf Key removeNode] in *.
  destruct (bytes_ltb key k).
  - rewrite El. hsimpl. pose proof (removeNode_ok nl key version Wl Sl Vl) as Okc.
    destruct (IHl h rl Fl fuel Rl Wl Sl Vl ltac:(simpl in Hf; lia)) as (o & h1 & F1 & -> & Ro & E1 & Hn).
    destruct (removeNode nl key version) as [[[value|] on] newKey]; hsimpl; cbn [fst snd] in *;
      [|by rewrite (Hn eq_refl)].
    destruct o as [c|], on as [nl'|]; try done.
    + destruct (removed_bounds _ _ _ _ _ Okc Sl) as [Wl' Sl'].
      destruct (replace_left _ _ _ _ _ _ _ _ _ _ _ _ _ Sh Rl Rr D1 D2 D3 h1 c nl' F1 Ro E1)
        as (l & val & -> & K). hsimpl. rewrite lookup_insert_eq. hsimpl. rewrite insert_insert_eq.
      destruct (K k) as [B E2]. apply (remove_finish _ _ _ _ _ _ _ _ _ _ _ _ _ _ _ B E2); try done.
      apply Ok.
    + simpl in Ro. subst F1. destruct (drop_left _ _ _ _ _ _ _ _ _ _ _ _ _ Sh Rl Rr D1 D2 D3 h1 E1)
        as (-> & Rr1 & X). hsimpl. by exists (Some rr), h1, Fr.
  - rewrite Er. hsimpl. pose proof (removeNode_ok nr key version Wr Sr Vr) as Okc.
    destruct (IHr h rr Fr fuel Rr Wr Sr Vr ltac:(simpl in Hf; lia)) as (o & h1 & F1 & -> & Ro & E1 & Hn).
    destruct (removeNode nr key version) as [[[value|] on] newKey]; hsimpl; cbn [fst snd] in *;
      [|by rewrite (Hn eq_refl)].
    destruct o as [c|], on as [nr'|]; try done.
    + destruct (removed_bounds _ _ _ _ _ Okc Sr) as [Wr' Sr'].
      destruct (replace_right _ _ _ _ _ _ _ _ _ _ _ _ _ Sh Rl Rr D1 D2 D3 h1 c nr' F1 Ro E1)
        as (l & val & -> & K). hsimpl. rewrite lookup_insert_eq. hsimpl.
      destruct newKey as [nk|]; hsimpl; rewrite insert_insert_eq.
      * destruct (K nk) as [B E2].
        apply (remove_finish _ _ _ _ _ _ _ _ _ _ _ _ _ _ _ B E2); try done. apply Ok.
      * destruct (K k) as [B E2].
        apply (remove_finish _ _ _ _ _ _ _ _ _ _ _ _ _ _ _ B E2); try done. apply Ok.
    + simpl in Ro. subst F1. destruct (drop_right _ _ _ _ _ _ _ _ _ _ _ _ _ Sh Rl Rr D1 D2 D3 h1 E1)
        as (-> & Rl1 & X). hsimpl. by exists (Some rl), h1, Fl.
Qed.
End Refine.

(** ** Properties *)

(** C4: [setRecursive] on the store of shared, mutable nodes returns (no nil
    dereference, recursion no deeper than the height), the new root presents
    the tree [setNode] computes, with every cached hash still right, and only
    nodes owned by the tree or freshly allocated were written. *)
Theorem store_set_refines (sha256 : bytes -> bytes) (cow version : Z) (n : Node) (h : heap) (r : Ref)
  (F : gset loc) (key : bytes) (value : slice)
  (Hver : cow < version) (R : repr sha256 cow h r n F) (W : wf n)
  (Hs : len (to_list n) + 1 < max_leaves) :
  exists l h' F',
    setRecursive (Z.to_nat (Height n + 1)) h (Some r) key value version cow =
      Some (l, (setNode n key value version).2, h') /\
    repr sha256 cow h' (Mem l) (setNode n key value version).1 F' /\
    (forall x m, h !! x = Some m -> x ∉ F -> h' !! x = Some m) /\
    (forall x, x ∈ F' -> x ∈ F \/ h !! x = None).
Proof.
  pose proof (avl_height_nonneg n (proj1 W)).
  destruct (set_refines sha256 cow version Hver n h r F (Z.to_nat (Height n + 1)) key value R W Hs ltac:(lia))
    as (l & h' & F' & E & R' & [K O]). by exists l, h', F'.
Qed.

(** A leaf of an earlier version in a store of one node. *)
Definition one_leaf : heap := {[ 1%positive := mkMem 0 1 1 [z2b 1] (Some []) None None None ]}.

Lemma one_leaf_repr sha256 : repr sha256 1 one_leaf (Mem 1) (Leaf 1 [z2b 1] (Some [])) ∅.
Proof.
  apply (repr_leaf sha256 1 one_leaf 1 (mkMem 0 1 1 [z2b 1] (Some []) None None None)); try done.
  by left.
Qed.

Lemma store_set_refines_witness :
  exists l h' F', repr digest32 1 h' (Mem l) (Branch 1 2 2 [z2b 2] (Leaf 1 [z2b 1] (Some [])) (Leaf 2 [z2b 2] (Some []))) F' /\
    h' !! 1%positive = one_leaf !! 1%positive.
Proof.
  destruct (store_set_refines digest32 1 2 (Leaf 1 [z2b 1] (Some [])) one_leaf (Mem 1) ∅ [z2b 2] (Some [])
    ltac:(lia) (one_leaf_repr _) ltac:(done) ltac:(vm_compute; done)) as (l & h' & F' & _ & R & K & _).
  exists l, h', F'. split; [exact R|]. by rewrite (K 1%positive _ eq_refl).
Defined.

(** [removeRecursive] on the store computes [removeNode] in the same
    sense, and a key that is not in the tree leaves the whole store as it was. *)
Theorem store_remove_refines (sha256 : bytes -> bytes) (cow version : Z) (n : Node) (h : heap) (r : Ref)
  (F : gset loc) (key : bytes)
  (Hver : cow < version) (R : repr sha256 cow h r n F) (W : wf n) (Hs : small n)
  (V : values_ok (to_list n)) :
  let '(value, o, newKey) := removeNode n key version in
  exists o' h' F',
    removeRecursive (Z.to_nat (Height n + 1)) h (Some r) key version cow = Some (value, o', newKey, h') /\
    repr_opt sha256 cow h' o' o F' /\
    (forall x m, h !! x = Some m -> x ∉ F -> h' !! x = Some m) /\
    (forall x, x ∈ F' -> x ∈ F \/ h !! x = None) /\
    (assoc_get key (to_list n) = None -> h' = h).
Proof.
  pose proof (avl_height_nonneg n (proj1 W)).
  pose proof (Node.removeRecursive_ok (Some n) key version W Hs V) as Ok.
  destruct (remove_refines sha256 cow version Hver n h r F (Z.to_nat (Height n + 1)) key R W Hs V ltac:(lia))
    as (o' & h' & F' & E & R' & [K O] & Hn). simpl in Ok.
  destruct (removeNode n key version) as [[value o] newKey]. destruct Ok as (_ & _ & Ev). simpl in *.
  exists o', h', F'. split_and!; try done. intros Hg. apply Hn. congruence.
Qed.

Lemma store_remove_refines_witness :
  exists h', repr_opt digest32 1 h' None None ∅ /\ h' !! 1%positive = one_leaf !! 1%positive.
Proof.
  destruct (store_remove_refines digest32 1 2 (Leaf 1 [z2b 1] (Some [])) one_leaf (Mem 1) ∅ [z2b 1]
    ltac:(lia) (one_leaf_repr _) ltac:(done) ltac:(vm_compute; done) ltac:(repeat constructor; by eexists))
    as (o' & h' & F' & _ & R & K & _).
  exists h'. split; [done|]. by rewrite (K 1%positive _ eq_refl).
Defined.
