(* ===== verification/HeapRead.v ===== *)
(** Reads on the store: [Get], [GetByIndex] and the cached [Hash] of
    [memiavl/mem_node.go].

    [Hash] writes: it fills the [hash] field of every node it visits, shared
    nodes included.  The theorems say that the reads return what [Node.v] and
    [Hash.v] define and that filling the caches changes no tree presented by
    the store. *)
From stdpp Require Import prelude strings gmap fin_maps.
From Stdlib Require Import ZArith Lia.
From S2P Require Import Prelude OrdMap Codec Node Hash Heap HeapRefine.
Local Open Scope Z_scope.

(** [MemNode.Get]; the fuel bounds the depth of the recursion. *)
Fixpoint memGet (fuel : nat) (h : heap) (r : Ref) (key : bytes) : option (slice * Z) :=
  match fuel with
  | O => None
  | S fuel =>
    match r with
    | Persisted n => Some (Get n key)
    | Mem l =>
        let? m := h !! l in
        if m_height m =? 0 then
          match bytes_compare (m_key m) key with
          | Lt => Some (None, 1)
          | Gt => Some (None, 0)
          | Eq => Some (m_value m, 0)
          end
        else if bytes_ltb key (m_key m) then let? lft := m_left m in memGet fuel h lft key
        else
          let? rgt := m_right m in
          let? (value, index) := memGet fuel h rgt key in
          let? rs := refSize h rgt in
          Some (value, u32 (u32 (index + u32 (m_size m)) - u32 rs))
    end
  end.

Fixpoint memGetByIndex (fuel : nat) (h : heap) (r : Ref) (index : Z)
  : option (option (bytes * slice)) :=
  match fuel with
  | O => None
  | S fuel =>
    match r with
    | Persisted n => Some (GetByIndex n index)
    | Mem l =>
        let? m := h !! l in
        if m_height m =? 0 then
          if index =? 0 then Some (Some (m_key m, m_value m)) else Some None
        else
          let? lft := m_left m in
          let? ls := refSize h lft in
          let leftSize := u32 ls in
          if index <? leftSize then memGetByIndex fuel h lft index
          else let? rgt := m_right m in memGetByIndex fuel h rgt (u32 (index - leftSize))
    end
  end.

Section Read.
Context (sha256 : bytes -> bytes).

(** [Hash] with [HashNode] and [writeHashBytes] inlined: the cached hash, or
    the hash of the node's payload after the children have been hashed. *)
Fixpoint memHash (fuel : nat) (h : heap) (r : Ref) : option (bytes * heap) :=
  match fuel with
  | O => None
  | S fuel =>
    match r with
    | Persisted n => Some (HashNode sha256 n, h)
    | Mem l =>
        let? m := h !! l in
        match m_hash m with
        | Some b => Some (b, h)
        | None =>
            let header := PutVarint (m_height m) ++ PutVarint (m_size m) ++ PutVarint (m_version m) in
            if m_height m =? 0 then
              let b := sha256 (header ++ EncodeBytes (m_key m) ++
                               EncodeBytes (sha256 (default [] (m_value m)))) in
              Some (b, <[l := set_hash m (Some b)]> h)
            else
              let? lft := m_left m in
              let? (lh, h) := memHash fuel h lft in
              let? rgt := m_right m in
              let? (rh, h) := memHash fuel h rgt in
              let b := sha256 (header ++ EncodeBytes lh ++ EncodeBytes rh) in
              let? m := h !! l in
              Some (b, <[l := set_hash m (Some b)]> h)
        end
    end
  end.

(** A location presents one tree only, whatever the copy-on-write version. *)
Lemma repr_same_value cow cow' h r n F n' F' :
  Heap.repr sha256 cow h r n F -> Heap.repr sha256 cow' h r n' F' -> n = n'.
Proof.
  intros R. revert n' F'.
  induction R as [n|l m Hl Hh Hz Hk|l m rl rr nl nr Fl Fr Hl Hh El Er Rl IHl Rr IHr D N1 N2 Hf Hk];
    intros n' F' R'; inversion R'; simplify_eq; try done.
  repeat match goal with
  | IH : (forall n F, Heap.repr _ _ ?h ?r n F -> _), H : Heap.repr _ _ ?h ?r _ _ |- _ =>
      apply IH in H
  end. by subst.
Qed.

Section Cow.
Context (cow : Z).
Local Abbreviation repr := (repr sha256 cow).

Lemma memGet_ok n h r F fuel key :
  repr h r n F -> avl n -> Height n < Z.of_nat fuel ->
  memGet fuel h r key = Some (Get n key).
Proof.
  intros R. revert fuel. induction R as [n|l m Hl Hh Hz Hk|l m rl rr nl nr Fl Fr Hl Hh El Er Rl IHl Rr IHr D N1 N2 Hf Hk];
    intros fuel A Hfu; (destruct fuel as [|fuel]; [pose proof (avl_height_nonneg _ A); lia|]);
    simpl; [done|..]; rewrite Hl; simpl.
  - rewrite Hh. simpl. by destruct (bytes_compare (m_key m) key).
  - destruct (Z.eqb_spec (m_height m) 0); [done|].
    destruct A as (Al & Ar & Eh & _). simpl in Hfu.
    destruct (bytes_ltb key (m_key m)).
    + rewrite El. simpl. apply IHl; [done|lia].
    + rewrite Er. simpl. rewrite IHr by (try done; lia). simpl.
      destruct (Get nr key) as [v i]. simpl.
      destruct (repr_fields _ _ _ _ _ _ Rr) as (_ & -> & _). done.
Qed.

Lemma memGetByIndex_ok n h r F fuel i :
  repr h r n F -> avl n -> Height n < Z.of_nat fuel ->
  memGetByIndex fuel h r i = Some (GetByIndex n i).
Proof.
  intros R. revert fuel i. induction R as [n|l m Hl Hh Hz Hk|l m rl rr nl nr Fl Fr Hl Hh El Er Rl IHl Rr IHr D N1 N2 Hf Hk];
    intros fuel i A Hfu; (destruct fuel as [|fuel]; [pose proof (avl_height_nonneg _ A); lia|]);
    simpl; [done|..]; rewrite Hl; simpl.
  - rewrite Hh. simpl. by destruct (i =? 0).
  - destruct (Z.eqb_spec (m_height m) 0); [done|].
    destruct A as (Al & Ar & Eh & _). simpl in Hfu. rewrite El. simpl.
    destruct (repr_fields _ _ _ _ _ _ Rl) as (_ & -> & _). simpl.
    destruct (i <? u32 (Size nl)); [apply IHl; [done|lia]|].
    rewrite Er. simpl. apply IHr; [done|lia].
Qed.

(** A location presents one tree only. *)
Lemma repr_functional h r n F n' F' :
  repr h r n F -> repr h r n' F' -> n = n' /\ F = F'.
Proof.
  intros R. revert n' F'.
  induction R as [n|l m Hl Hh Hz Hk|l m rl rr nl nr Fl Fr Hl Hh El Er Rl IHl Rr IHr D N1 N2 Hf Hk];
    intros n' F' R'; inversion R'; simplify_eq; try done.
  repeat match goal with
  | IH : (forall n F, Heap.repr _ _ ?h ?r n F -> _), H : Heap.repr _ _ ?h ?r _ _ |- _ =>
      apply IH in H as [? ?]
  end. by subst.
Qed.

(** The store changed only by filled caches, each with the right hash. *)
Definition hashed (h h' : heap) : Prop :=
  forall l, h' !! l = h !! l \/
    exists m n F, h !! l = Some m /\ repr h (Mem l) n F /\
      h' !! l = Some (set_hash m (Some (HashNode sha256 n))).

(** It changes no tree, whatever the copy-on-write version it is seen at. *)
Lemma hashed_repr cow' h h' r n F :
  hashed h h' -> Heap.repr sha256 cow' h r n F -> Heap.repr sha256 cow' h' r n F.
Proof.
  intros Hs R.
  induction R as [n|l m Hl Hh Hz Hk|l m rl rr nl nr Fl Fr Hl Hh El Er Rl IHl Rr IHr D N1 N2 Hf Hk].
  - constructor.
  - destruct (Hs l) as [Hl'|(m' & n & F & Hm & Rn & Hl')]; [constructor; congruence|]. simplify_eq.
    apply (repr_same_value _ _ _ _ _ _ _ _ (repr_leaf _ cow' _ _ _ Hl Hh Hz Hk)) in Rn as <-.
    apply (repr_leaf _ _ h' l (set_hash m (Some (HashNode sha256 (Leaf (m_version m) (m_key m) (m_value m)))))); try done.
    by right.
  - destruct (Hs l) as [Hl'|(m' & n & F & Hm & Rn & Hl')]; [econstructor; eauto; congruence|]. simplify_eq.
    apply (repr_same_value _ _ _ _ _ _ _ _
      (repr_branch _ _ _ _ _ _ _ _ _ _ _ Hl Hh El Er Rl Rr D N1 N2 Hf Hk)) in Rn as <-.
    apply (repr_branch _ _ h' l (set_hash m (Some (HashNode sha256
      (Branch (m_height m) (m_size m) (m_version m) (m_key m) nl nr)))) rl rr); try done.
    by right.
Qed.

Lemma hashed_repr_inv h h' r n F : hashed h h' -> repr h' r n F -> repr h r n F.
Proof.
  intros Hs R.
  induction R as [n|l m Hl Hh Hz Hk|l m rl rr nl nr Fl Fr Hl Hh El Er Rl IHl Rr IHr D N1 N2 Hf Hk].
  - constructor.
  - destruct (Hs l) as [Hl'|(m' & n & F & Hm & Rn & Hl')]; [constructor; congruence|].
    pose proof (hashed_repr cow _ _ _ _ _ Hs Rn) as R'.
    by apply (repr_functional _ _ _ _ _ _ (repr_leaf _ _ _ _ _ Hl Hh Hz Hk)) in R' as [<- <-].
  - destruct (Hs l) as [Hl'|(m' & n & F & Hm & Rn & Hl')]; [econstructor; eauto; congruence|].
    pose proof (hashed_repr cow _ _ _ _ _ Hs Rn) as R'.
    by apply (repr_functional _ _ _ _ _ _ (repr_branch _ _ _ _ _ _ _ _ _ _ _ Hl Hh El Er
      (hashed_repr cow _ _ _ _ _ Hs IHl) (hashed_repr cow _ _ _ _ _ Hs IHr) D N1 N2 Hf Hk)) in R' as [<- <-].
Qed.

Lemma hashed_refl h : hashed h h.
Proof. intros l. auto. Qed.

Lemma hashed_trans h1 h2 h3 : hashed h1 h2 -> hashed h2 h3 -> hashed h1 h3.
Proof.
  intros H12 H23 l. destruct (H23 l) as [E23|(m & n & F & Hm & R & E23)].
  - destruct (H12 l) as [E12|(m & n & F & Hm & R & E12)]; [left; congruence|].
    right. exists m, n, F. split_and!; [done..|]. congruence.
  - apply (hashed_repr_inv _ _ _ _ _ H12) in R. right.
    destruct (H12 l) as [E12|(m' & n' & F' & Hm' & R' & E12)].
    + exists m, n, F. split_and!; [congruence|done..].
    + exists m', n, F. split_and!; [done..|]. rewrite E12 in Hm. simplify_eq. done.
Qed.

Lemma hashed_insert h l m n F :
  h !! l = Some m -> repr h (Mem l) n F ->
  hashed h (<[l := set_hash m (Some (HashNode sha256 n))]> h).
Proof.
  intros Hl R x. destruct (decide (x = l)) as [->|].
  - right. exists m, n, F. split_and!; [done..|]. by rewrite lookup_insert_eq.
  - left. by rewrite lookup_insert_ne.
Qed.

(** [Hash] returns the hash of the tree and only fills caches. *)
Lemma memHash_ok n h r F fuel :
  repr h r n F -> avl n -> Height n < Z.of_nat fuel ->
  exists h', memHash fuel h r = Some (HashNode sha256 n, h') /\ hashed h h'.
Proof.
  revert h r F fuel. induction n as [v k x|hh s v k nl IHl nr IHr]; intros h r F fuel R A Hfu;
    (destruct fuel as [|fuel]; [pose proof (avl_height_nonneg _ A); lia|]); simpl;
    pose proof R as R0.
  - inversion R as [|l m Hl Hh Hz Hk|]; simplify_eq; [eauto using hashed_refl|].
    rewrite Hl. simpl. destruct Hk as [Hk|Hk]; rewrite Hk; [|eauto using hashed_refl].
    rewrite Hh. simpl. eexists. split; [|by eapply hashed_insert]. rewrite Hz.
    by rewrite <- !(assoc_L (++)).
  - inversion R as [| |l m rl rr nl' nr' Fl Fr Hl Hh El Er Rl Rr D N1 N2 Hf Hk]; simplify_eq;
      [eauto using hashed_refl|].
    rewrite Hl. simpl. destruct Hk as [Hk|Hk]; rewrite Hk; [|eauto using hashed_refl].
    destruct (Z.eqb_spec (m_height m) 0); [done|].
    destruct A as (Al & Ar & Eh & _). simpl in Hfu. rewrite El, Er. simpl.
    destruct (IHl h rl Fl fuel Rl Al ltac:(lia)) as (h1 & -> & H1). simpl.
    destruct (IHr h1 rr Fr fuel (hashed_repr cow _ _ _ _ _ H1 Rr) Ar ltac:(lia)) as (h2 & -> & H2). simpl.
    pose proof (hashed_trans _ _ _ H1 H2) as H12.
    assert (exists m2, h2 !! l = Some m2) as [m2 Hl2].
    { destruct (H12 l) as [->|(m' & n' & F' & Hm' & R' & ->)]; eauto. }
    rewrite Hl2. simpl. eexists. split; [by rewrite <- !(assoc_L (++))|].
    eapply hashed_trans; [exact H12|].
    pose proof (hashed_insert _ _ _ _ _ Hl2 (hashed_repr cow _ _ _ _ _ H12 R0)) as HI.
    exact HI.
Qed.
End Cow.
End Read.

(** [Hash] returns the Merkle hash of the tree below the node, and the
    caches it fills, shared nodes included, change no tree that any reference
    presents, whatever copy-on-write version it is seen at. *)
Theorem store_hash_transparent (sha256 : bytes -> bytes) (cow : Z) (n : Node) (h : heap) (r : Ref)
  (F : gset loc) (R : repr sha256 cow h r n F) (A : avl n) :
  exists h', memHash sha256 (Z.to_nat (Height n + 1)) h r = Some (HashNode sha256 n, h') /\
    (forall cow' r' n' F', repr sha256 cow' h r' n' F' -> repr sha256 cow' h' r' n' F').
Proof.
  pose proof (avl_height_nonneg n A).
  destruct (memHash_ok sha256 cow n h r F (Z.to_nat (Height n + 1)) R A ltac:(lia)) as (h' & E & Hh).
  exists h'. split; [done|]. intros cow' r' n' F'. by apply (hashed_repr sha256 cow).
Qed.

Lemma store_hash_transparent_witness :
  exists h', memHash digest32 1 one_leaf (Mem 1) = Some (HashNode digest32 (Leaf 1 [z2b 1] (Some [])), h').
Proof.
  destruct (store_hash_transparent digest32 1 (Leaf 1 [z2b 1] (Some [])) one_leaf (Mem 1) ∅
    (one_leaf_repr _) ltac:(done)) as (h' & E & _). by exists h'.
Defined.
