(* ===== verification/Cache.v ===== *)
(** The value cache of a tree: [NewCache] and [sharedCache] of
    [memiavl/tree.go].

    [cache.Cache] is an interface of the IAVL module.  [Cache] states what the
    code relies on: a cached node is the last one added under its key and not
    removed since; entries may disappear at any time (eviction).
    [sharedCache] splits the keys over shards by a checksum; the theorems say
    that it keeps the same promise and that the shard capacities add up. *)
From stdpp Require Import prelude strings.
From Stdlib Require Import ZArith Lia.
From S2P Require Import Prelude.
Local Open Scope Z_scope.

(** The operations of [cache.Cache] that the code uses; a node is its key and
    its value.  [contents] is the specification's view. *)
Class Cache (C : Type) := {
  c_new : Z -> C;
  c_add : C -> bytes -> slice -> C;
  c_get : C -> bytes -> option slice * C;
  c_has : C -> bytes -> bool;
  c_remove : C -> bytes -> C;
  c_len : C -> Z;
  contents : C -> bytes -> option slice;
}.

Class CacheLaws (C : Type) `{!Cache C} := {
  law_new : forall n k, contents (c_new n) k = None;
  law_add : forall c k v k' v', contents (c_add c k v) k' = Some v' ->
    (k' = k /\ v' = v) \/ (k' <> k /\ contents c k' = Some v');
  law_get : forall c k, (c_get c k).1 = contents c k;
  law_get_keep : forall c k k' v', contents (c_get c k).2 k' = Some v' -> contents c k' = Some v';
  law_has : forall c k, c_has c k = true <-> is_Some (contents c k);
  law_remove : forall c k k' v', contents (c_remove c k) k' = Some v' ->
    k' <> k /\ contents c k' = Some v';
}.

(** [crc32.ChecksumIEEE] *)
Definition crc32_bit (c : Z) : Z :=
  if Z.odd c then Z.lxor (Z.shiftr c 1) 3988292384 else Z.shiftr c 1.
Definition crc32_byte (c : Z) (b : byte) : Z :=
  Nat.iter 8 crc32_bit (Z.lxor c (b2z b)).
Definition ChecksumIEEE (key : bytes) : Z :=
  Z.lxor (fold_left crc32_byte key (2 ^ 32 - 1)) (2 ^ 32 - 1).

(** The check value of the checksum. *)
Example crc32_check :
  ChecksumIEEE (z2b <$> [49; 50; 51; 52; 53; 54; 55; 56; 57]) = 3421780262.
Proof. reflexivity. Qed.

Definition hashKey (key : bytes) : Z := ChecksumIEEE key.

Definition maxSharedCacheShards : nat := 16.

Section Shared.
Context {C : Type} `{!Cache C}.

(** The shard array; a shard that was not set up has a nil cache. *)
Record sharedCache : Type := mkShared {
  shards : list (option C);
  shardCount : Z;
  shardMask : Z;
}.

(** The doubling loop of [newSharedCache]: at most four rounds to 16. *)
Fixpoint count_shards (fuel : nat) (size count : Z) : Z :=
  match fuel with
  | O => count
  | S fuel =>
      if (count <? Z.of_nat maxSharedCacheShards) && (Z.shiftl count 1 <=? size)
      then count_shards fuel size (Z.shiftl count 1) else count
  end.

Definition shard_capacity (size count i : Z) : Z :=
  let base := Z.quot size count in
  let rem := Z.rem size count in
  if i <? rem then base + 1 else base.

Definition newSharedCache (size : Z) : sharedCache :=
  let count := count_shards 4 size 1 in
  mkShared
    ((fun i => if Z.of_nat i <? count then Some (c_new (shard_capacity size count (Z.of_nat i))) else None)
       <$> seq 0 maxSharedCacheShards)
    count (u32 (count - 1)).

Definition shardForKey (c : sharedCache) (key : bytes) : nat :=
  if shardMask c =? 0 then 0%nat else Z.to_nat (Z.land (hashKey key) (shardMask c)).

(** An operation on the shard of a key; a nil cache or an index out of the
    array gives the default. *)
Definition on_shard {A} (c : sharedCache) (key : bytes) (dflt : A) (f : C -> A) : A :=
  match shards c !! shardForKey c key with
  | Some (Some s) => f s
  | _ => dflt
  end.

Definition set_shard (c : sharedCache) (key : bytes) (s : C) : sharedCache :=
  mkShared (<[shardForKey c key := Some s]> (shards c)) (shardCount c) (shardMask c).

Definition sharedAdd (c : sharedCache) (key : bytes) (value : slice) : sharedCache :=
  on_shard c key c (fun s => set_shard c key (c_add s key value)).
Definition sharedGet (c : sharedCache) (key : bytes) : option slice * sharedCache :=
  on_shard c key (None, c) (fun s => let '(r, s') := c_get s key in (r, set_shard c key s')).
Definition sharedHas (c : sharedCache) (key : bytes) : bool :=
  on_shard c key false (fun s => c_has s key).
Definition sharedRemove (c : sharedCache) (key : bytes) : sharedCache :=
  on_shard c key c (fun s => set_shard c key (c_remove s key)).
Definition sharedLen (c : sharedCache) : Z :=
  fold_left (fun total s => match s with Some s => total + c_len s | None => total end)
    (take (Z.to_nat (shardCount c)) (shards c)) 0.

Definition shared_contents (c : sharedCache) (key : bytes) : option slice :=
  on_shard c key None (fun s => contents s key).

#[export] Instance shared_cache : Cache sharedCache := {
  c_new := newSharedCache;
  c_add := sharedAdd;
  c_get := sharedGet;
  c_has := sharedHas;
  c_remove := sharedRemove;
  c_len := sharedLen;
  contents := shared_contents;
}.

(** [NewCache]: no cache at all for size 0. *)
Definition NewCache (cacheSize : Z) : option sharedCache :=
  if cacheSize =? 0 then None else Some (newSharedCache cacheSize).

Context `{!CacheLaws C}.

Lemma shardForKey_set c key s k : shardForKey (set_shard c key s) k = shardForKey c k.
Proof. done. Qed.

(** After an operation on one shard the other shards are as before. *)
Lemma shared_contents_set c key s k v :
  is_Some (shards c !! shardForKey c key) ->
  shared_contents (set_shard c key s) k = Some v ->
  (shardForKey c k = shardForKey c key /\ contents s k = Some v) \/
  (shardForKey c k <> shardForKey c key /\ shared_contents c k = Some v).
Proof.
  intros Hi. unfold shared_contents, on_shard. rewrite shardForKey_set. simpl.
  destruct (decide (shardForKey c k = shardForKey c key)) as [->|Hn].
  - rewrite list_lookup_insert_eq; [auto|]. apply lookup_lt_is_Some. done.
  - rewrite list_lookup_insert_ne by done. auto.
Qed.

#[export] Instance shared_laws : CacheLaws sharedCache.
Proof.
  split; cbn [c_new c_add c_get c_has c_remove contents shared_cache].
  - intros n k. unfold shared_contents, on_shard.
    destruct (shards (newSharedCache n) !! shardForKey (newSharedCache n) k) as [o|] eqn:E; [|done].
    unfold newSharedCache in E. cbn [shards] in E. apply list_lookup_fmap_Some in E as (i & -> & _).
    destruct (_ <? _); [apply law_new|done].
  - intros c k v k' v'. unfold sharedAdd, on_shard.
    destruct (shards c !! shardForKey c k) as [[s|]|] eqn:E;
      [|unfold shared_contents, on_shard; destruct (decide (k' = k)) as [->|]; [by rewrite E|auto]..].
    intros [[Es Hs]|[Hn Hs]]%shared_contents_set; [..|by rewrite E].
    + apply law_add in Hs as [?|[? Hs]]; [auto|]. right. split; [done|].
      unfold shared_contents, on_shard. by rewrite Es, E.
    + right. split; [congruence|done].
  - intros c k. unfold sharedGet, shared_contents, on_shard.
    destruct (shards c !! shardForKey c k) as [[s|]|]; [|done..].
    pose proof (law_get s k). by destruct (c_get s k).
  - intros c k k' v'. unfold sharedGet, on_shard.
    destruct (shards c !! shardForKey c k) as [[s|]|] eqn:E; [|done..].
    pose proof (law_get_keep s k k' v') as Hg. destruct (c_get s k) as [r s']. simpl in *.
    intros [[Es Hs]|[Hn Hs]]%shared_contents_set; [..|by rewrite E]; [|done].
    unfold shared_contents, on_shard. rewrite Es, E. auto.
  - intros c k. unfold sharedHas, shared_contents, on_shard.
    destruct (shards c !! shardForKey c k) as [[s|]|]; [apply law_has|..]; split; [done|by intros [? ?]|done|by intros [? ?]].
  - intros c k k' v'. unfold sharedRemove, on_shard.
    destruct (shards c !! shardForKey c k) as [[s|]|] eqn:E;
      [|unfold shared_contents, on_shard; destruct (decide (k' = k)) as [->|]; [by rewrite E|auto]..].
    intros [[Es Hs]|[Hn Hs]]%shared_contents_set; [..|by rewrite E].
    + apply law_remove in Hs as [? Hs]. split; [done|].
      unfold shared_contents, on_shard. by rewrite Es, E.
    + split; [congruence|done].
Qed.

End Shared.

Section Shards.
Context {C : Type} `{!Cache C}.

Lemma count_shards_pow size : count_shards 4 size 1 ∈ [1; 2; 4; 8; 16] /\
  (1 <= size -> count_shards 4 size 1 <= size).
Proof.
  unfold count_shards, maxSharedCacheShards. simpl.
  repeat match goal with |- context [?a <=? size] => destruct (Z.leb_spec a size) end;
    (split; [set_solver|lia]).
Qed.

(** [shardForKey] stays within the shards that have a cache. *)
Lemma shardForKey_lt size k :
  Z.of_nat (shardForKey (newSharedCache (C := C) size) k) < count_shards 4 size 1.
Proof.
  unfold shardForKey. cbn [newSharedCache shardMask].
  destruct (count_shards_pow size) as [Hc _]. set (c := count_shards 4 size 1) in *. clearbody c.
  assert (0 <= hashKey k).
  { unfold hashKey, ChecksumIEEE. apply Z.lxor_nonneg. split; [done|intros _].
    assert (forall l c0, 0 <= c0 -> 0 <= fold_left crc32_byte l c0) as Hf; [|by apply Hf].
    assert (Hb : forall c0, 0 <= c0 -> 0 <= crc32_bit c0).
    { intros c0 H0. unfold crc32_bit. rewrite Z.shiftr_div_pow2 by lia.
      assert (0 <= c0 / 2 ^ 1) by (apply Z.div_pos; lia).
      destruct (Z.odd c0); [|done]. apply Z.lxor_nonneg. done. }
    induction l as [|b l IH]; intros c0 H0; simpl; [done|]. apply IH. unfold crc32_byte.
    assert (0 <= Z.lxor c0 (b2z b)) by (apply Z.lxor_nonneg; pose proof (b2z_range b); lia).
    simpl. auto 10. }
  rewrite !elem_of_cons, elem_of_nil in Hc.
  assert (Hl : forall p, 0 <= p ->
    Z.of_nat (if Z.ones p =? 0 then 0%nat else Z.to_nat (Z.land (hashKey k) (Z.ones p))) < 2 ^ p).
  { intros p Hp. pose proof (Z.mod_pos_bound (hashKey k) (2 ^ p) ltac:(lia)).
    destruct (_ =? _); [lia|]. rewrite Z.land_ones by done. lia. }
  destruct Hc as [->|[->|[->|[->|[->|[]]]]]];
    [apply (Hl 0)|apply (Hl 1)|apply (Hl 2)|apply (Hl 3)|apply (Hl 4)]; done.
Qed.

Definition sum_Z (l : list Z) : Z := foldr Z.add 0 l.

Lemma sum_Z_app l k : sum_Z (l ++ k) = sum_Z l + sum_Z k.
Proof. induction l; simpl; lia. Qed.

Lemma capacity_sum size count n :
  0 <= Z.rem size count ->
  sum_Z ((fun i => shard_capacity size count (Z.of_nat i)) <$> seq 0 n) =
  Z.of_nat n * Z.quot size count + Z.min (Z.of_nat n) (Z.rem size count).
Proof.
  intros Hr. induction n as [|n IH]; [simpl; lia|].
  rewrite seq_S, fmap_app, sum_Z_app, IH. simpl. unfold shard_capacity.
  destruct (Z.ltb_spec (Z.of_nat n) (Z.rem size count)); lia.
Qed.

Lemma newSharedCache_shards size :
  1 <= size ->
  sum_Z ((fun i => shard_capacity size (shardCount (newSharedCache (C := C) size)) (Z.of_nat i))
     <$> seq 0 (Z.to_nat (shardCount (newSharedCache (C := C) size)))) = size /\
  (forall i, 1 <= shard_capacity size (shardCount (newSharedCache (C := C) size)) i) /\
  (forall key, exists s, shards (newSharedCache (C := C) size) !! shardForKey (newSharedCache (C := C) size) key = Some (Some s)).
Proof.
  intros Hs. destruct (count_shards_pow size) as [Hc Hle]. specialize (Hle Hs).
  assert (1 <= count_shards 4 size 1 <= 16) as Hr.
  { rewrite !elem_of_cons, elem_of_nil in Hc. lia. }
  cbn [newSharedCache shardCount]. set (c := count_shards 4 size 1) in *.
  pose proof (Z.rem_bound_pos size c ltac:(lia) ltac:(lia)). pose proof (Z.quot_rem' size c).
  assert (1 <= Z.quot size c) by (apply Z.quot_le_lower_bound; lia).
  split_and!.
  - rewrite capacity_sum by lia. rewrite Z2Nat.id by lia. lia.
  - intros i. unfold shard_capacity. destruct (i <? _); lia.
  - intros key. pose proof (shardForKey_lt size key) as Hlt. fold c in Hlt.
    exists (c_new (shard_capacity size c (Z.of_nat (shardForKey (newSharedCache (C := C) size) key)))).
    cbn [newSharedCache shards]. rewrite list_lookup_fmap.
    rewrite lookup_seq_lt by (unfold maxSharedCacheShards; lia). fold c. simpl.
    destruct (Z.ltb_spec (Z.of_nat (shardForKey (newSharedCache (C := C) size) key)) c); [done|lia].
Qed.
End Shards.
Arguments sharedCache : clear implicits.

(** ** Properties *)

(** Operations on a cache, and the value a key would have without eviction. *)
Inductive CacheOp : Type :=
| OpAdd (key : bytes) (value : slice)
| OpRemove (key : bytes)
| OpGet (key : bytes).

Definition cache_step {C} `{!Cache C} (c : C) (op : CacheOp) : C :=
  match op with
  | OpAdd k v => c_add c k v
  | OpRemove k => c_remove c k
  | OpGet k => (c_get c k).2
  end.

Definition last_added (key : bytes) (acc : option slice) (op : CacheOp) : option slice :=
  match op with
  | OpAdd k v => if decide (k = key) then Some v else acc
  | OpRemove k => if decide (k = key) then None else acc
  | OpGet _ => acc
  end.

Lemma cache_run_sound {C} `{!Cache C, !CacheLaws C} key ops : forall (c : C) acc,
  (forall v, contents c key = Some v -> acc = Some v) ->
  forall v, contents (fold_left cache_step ops c) key = Some v -> fold_left (last_added key) ops acc = Some v.
Proof.
  induction ops as [|op ops IH]; intros c acc H v; simpl; [auto|]. apply IH. intros w.
  destruct op as [k x|k|k]; simpl.
  - intros [[-> ->]|[Hn Hw]]%law_add; [by rewrite decide_True|]. rewrite decide_False by done. auto.
  - intros [Hn Hw]%law_remove. rewrite decide_False by done. auto.
  - intros Hw%law_get_keep. auto.
Qed.

(** Whatever the order of insertions, removals and lookups, [Get] of the
    sharded cache answers with nothing or with the value last added under the
    key and not removed since: sharding by checksum adds no staleness to the
    promise of the shards' own cache. *)
Theorem shared_cache_never_stale {C : Type} `{!Cache C, Laws : !CacheLaws C} (size : Z)
  (ops : list CacheOp) (key : bytes) (v : slice) :
  (sharedGet (fold_left cache_step ops (newSharedCache size)) key).1 = Some v ->
  fold_left (last_added key) ops None = Some v.
Proof.
  intros H. apply (cache_run_sound key ops (newSharedCache size) None).
  - intros w Hw. pose proof (law_new (C := sharedCache C) size key) as E. simpl in *. congruence.
  - rewrite <- H. symmetry. exact (law_get (C := sharedCache C) _ key).
Qed.

(** An unbounded cache, newest entry first. *)
Definition ListCache : Type := list (bytes * slice).

Fixpoint list_find (k : bytes) (l : ListCache) : option slice :=
  match l with
  | [] => None
  | (k', v) :: l => if decide (k' = k) then Some v else list_find k l
  end.

Fixpoint list_forget (k : bytes) (l : ListCache) : ListCache :=
  match l with
  | [] => []
  | (k', v) :: l => if decide (k' = k) then list_forget k l else (k', v) :: list_forget k l
  end.

#[export] Instance list_cache : Cache ListCache := {
  c_new := fun _ => [];
  c_add := fun c k v => (k, v) :: c;
  c_get := fun c k => (list_find k c, c);
  c_has := fun c k => match list_find k c with Some _ => true | None => false end;
  c_remove := fun c k => list_forget k c;
  c_len := fun c => len c;
  contents := fun c k => list_find k c;
}.

#[export] Instance list_cache_laws : CacheLaws ListCache.
Proof.
  split; simpl; try done.
  - intros c k v k' v' H. case_decide as E; [subst; left; by simplify_eq|right; by split; [intros ->|]].
  - intros c k. by destruct (list_find k c); split; try done; intros [? ?].
  - intros c k k' v'. induction c as [|[x y] c IH]; simpl; [done|].
    destruct (decide (x = k)) as [->|Hx]; simpl.
    + intros [H1 H2]%IH. split; [done|]. by rewrite decide_False.
    + case_decide as E; [intros [= <-]; split; [congruence|done]|auto].
Qed.

Lemma shared_cache_never_stale_witness :
  fold_left (last_added [z2b 1]) [OpAdd [z2b 1] (Some []); OpAdd [z2b 2] None] None = Some (Some []).
Proof.
  apply (shared_cache_never_stale (C := ListCache) 5
    [OpAdd [z2b 1] (Some []); OpAdd [z2b 2] None] [z2b 1]). vm_compute. reflexivity.
Defined.

(** A sharded cache of size at least one hands its whole capacity to its
    shards, at least one entry each, and every key falls into a shard that has
    a cache. *)
Theorem shared_cache_capacity {C : Type} `{!Cache C} (size : Z) (Hs : 1 <= size) :
  let c := newSharedCache size in
  sum_Z ((fun i => shard_capacity size (shardCount c) (Z.of_nat i)) <$> seq 0 (Z.to_nat (shardCount c))) = size /\
  (forall i, 1 <= shard_capacity size (shardCount c) i) /\
  (forall key, exists s, shards c !! shardForKey c key = Some (Some s)).
Proof. by apply newSharedCache_shards. Qed.

Lemma shared_cache_capacity_witness :
  sum_Z ((fun i => shard_capacity 5 4 (Z.of_nat i)) <$> seq 0 4) = 5.
Proof. exact (proj1 (shared_cache_capacity (C := ListCache) 5 ltac:(lia))). Defined.
