(* ===== verification/Persisted.v ===== *)
(** Persisted nodes: [memiavl/layout_little_endian.go],
    [memiavl/persisted_node.go] and the accessors of [memiavl/snapshot.go].

    A snapshot is three byte strings.  A [PersistedNode] is an index into one
    of them: its fields are decoded from a record of 48 bytes, and its children
    are found by arithmetic on the index, the number of leaves below and the
    number of finished subtrees to the left.  Reads out of range are [None],
    the panic of the Go runtime. *)
From stdpp Require Import prelude strings.
From Stdlib Require Import ZArith Lia.
From S2P Require Import Prelude OrdMap Codec.
Local Open Scope Z_scope.

Definition OffsetHeight : Z := 0.
Definition OffsetPreTrees : Z := OffsetHeight + 1.
Definition OffsetVersion : Z := OffsetHeight + 4.
Definition OffsetSize : Z := OffsetVersion + 4.
Definition OffsetKeyLeaf : Z := OffsetSize + 4.
Definition OffsetHash : Z := OffsetKeyLeaf + 4.
Definition SizeHash : Z := 32.
Definition SizeNodeWithoutHash : Z := OffsetHash.
Definition SizeNode : Z := SizeNodeWithoutHash + SizeHash.

Definition OffsetLeafVersion : Z := 0.
Definition OffsetLeafKeyLen : Z := OffsetLeafVersion + 4.
Definition OffsetLeafKeyOffset : Z := OffsetLeafKeyLen + 4.
Definition OffsetLeafHash : Z := OffsetLeafKeyOffset + 8.
Definition SizeLeafWithoutHash : Z := OffsetLeafHash.
Definition SizeLeaf : Z := SizeLeafWithoutHash + SizeHash.

(** [b[lo:]] *)
Definition slice_from {A} (b : list A) (lo : Z) : option (list A) := subslice b lo (len b).

(** The fields of a branch record. *)
Module NodeLayout.
Definition Node (data : bytes) (i : Z) : option bytes :=
  subslice data (i * SizeNode) (i * SizeNode + SizeNode).
Definition Height (d : bytes) : option Z := b2z <$> d !! Z.to_nat OffsetHeight.
Definition PreTrees (d : bytes) : option Z := b2z <$> d !! Z.to_nat OffsetPreTrees.
Definition Version (d : bytes) : option Z :=
  let? b := subslice d OffsetVersion (OffsetVersion + 4) in Uint32 b.
Definition Size (d : bytes) : option Z :=
  let? b := subslice d OffsetSize (OffsetSize + 4) in Uint32 b.
Definition KeyLeaf (d : bytes) : option Z :=
  let? b := subslice d OffsetKeyLeaf (OffsetKeyLeaf + 4) in Uint32 b.
Definition Hash (d : bytes) : option bytes := subslice d OffsetHash (OffsetHash + SizeHash).
End NodeLayout.

(** The fields of a leaf record. *)
Module LeafLayout.
Definition Leaf (data : bytes) (i : Z) : option bytes :=
  subslice data (i * SizeLeaf) (i * SizeLeaf + SizeLeaf).
Definition Version (d : bytes) : option Z :=
  let? b := subslice d OffsetLeafVersion (OffsetLeafVersion + 4) in Uint32 b.
Definition KeyLength (d : bytes) : option Z :=
  let? b := subslice d OffsetLeafKeyLen (OffsetLeafKeyLen + 4) in Uint32 b.
Definition KeyOffset (d : bytes) : option Z :=
  let? b := subslice d OffsetLeafKeyOffset (OffsetLeafKeyOffset + 8) in Uint64 b.
Definition Hash (d : bytes) : option bytes := subslice d OffsetLeafHash (OffsetLeafHash + 32).
End LeafLayout.

(** [PersistedNode]; the snapshot it points to is an argument of its methods. *)
Record PersistedNode : Type := mkPersisted { isLeaf : bool; index : Z }.

Record Snapshot : Type := mkSnapshot {
  nodes : bytes;
  leaves : bytes;
  kvs : bytes;
  version : Z;
  root : option PersistedNode;
}.

Definition NewEmptySnapshot (v : Z) : Snapshot := mkSnapshot [] [] [] v None.

(** [Close] resets the snapshot to an empty one of the same version. *)
Definition Close (s : Snapshot) : Snapshot := NewEmptySnapshot (version s).

Definition IsEmpty (s : Snapshot) : bool := match root s with None => true | Some _ => false end.
Definition SnapshotNode (i : Z) : PersistedNode := mkPersisted false i.
Definition SnapshotLeaf (i : Z) : PersistedNode := mkPersisted true i.
Definition RootNode (s : Snapshot) : res PersistedNode :=
  match root s with
  | None => Panic "RootNode not supported on an empty snapshot"
  | Some n => Ok n
  end.
Definition nodesLen (s : Snapshot) : Z := len (nodes s) / SizeNode.
Definition leavesLen (s : Snapshot) : Z := len (leaves s) / SizeLeaf.

(** [Key] and [KeyValue]: by offset in the kvs file. *)
Definition SnapshotKey (s : Snapshot) (offset : Z) : option bytes :=
  let? b := slice_from (kvs s) offset in
  let? keyLen := Uint32 b in
  let offset := u64 (offset + 4) in
  subslice (kvs s) offset (u64 (offset + keyLen)).

Definition KeyValue (s : Snapshot) (offset : Z) : option (bytes * bytes) :=
  let? b := slice_from (kvs s) offset in
  let? length := Uint32 b in
  let offset := u64 (offset + 4) in
  let? key := subslice (kvs s) offset (u64 (offset + length)) in
  let offset := u64 (offset + length) in
  let? b := slice_from (kvs s) offset in
  let? length := Uint32 b in
  let offset := u64 (offset + 4) in
  let? value := subslice (kvs s) offset (u64 (offset + length)) in
  Some (key, value).

Definition LeafKey (s : Snapshot) (i : Z) : option bytes :=
  let? leaf := LeafLayout.Leaf (leaves s) i in
  let? keyOffset := LeafLayout.KeyOffset leaf in
  let? keyLength := LeafLayout.KeyLength leaf in
  let offset := u64 (keyOffset + 4) in
  subslice (kvs s) offset (u64 (offset + keyLength)).

Definition LeafKeyValue (s : Snapshot) (i : Z) : option (bytes * bytes) :=
  let? leaf := LeafLayout.Leaf (leaves s) i in
  let? keyOffset := LeafLayout.KeyOffset leaf in
  let? length := LeafLayout.KeyLength leaf in
  let offset := u64 (keyOffset + 4) in
  let? key := subslice (kvs s) offset (u64 (offset + length)) in
  let offset := u64 (offset + length) in
  let? b := slice_from (kvs s) offset in
  let? length := Uint32 b in
  let offset := u64 (offset + 4) in
  let? value := subslice (kvs s) offset (u64 (offset + length)) in
  Some (key, value).

(** Index arithmetic, at [uint32]. *)
Definition getStartLeaf (index size preTrees : Z) : Z :=
  u32 (u32 (u32 (index + 2) - size) + preTrees).
Definition getEndLeaf (index preTrees : Z) : Z := u32 (u32 (index + preTrees) + 1).
Definition getLeftBranch (keyLeaf preTrees : Z) : Z := u32 (u32 (keyLeaf - preTrees) - 2).

(** Go's [sort.Search] on [[0, n)]; the interval at least halves, so [n] rounds
    are more than enough.  The predicate may panic. *)
Fixpoint search_loop (fuel : nat) (f : Z -> option bool) (i j : Z) : option Z :=
  match fuel with
  | O => Some i
  | S fuel =>
      if i <? j then
        let h := (i + j) / 2 in
        let? b := f h in
        if b : bool then search_loop fuel f i h else search_loop fuel f (h + 1) j
      else Some i
  end.
Definition sort_Search (n : Z) (f : Z -> option bool) : option Z :=
  search_loop (Z.to_nat n) f 0 n.

Definition branchNode (s : Snapshot) (p : PersistedNode) : option bytes :=
  NodeLayout.Node (nodes s) (index p).
Definition leafNode (s : Snapshot) (p : PersistedNode) : option bytes :=
  LeafLayout.Leaf (leaves s) (index p).

Module Persisted.
Definition Height (s : Snapshot) (p : PersistedNode) : option Z :=
  if isLeaf p then Some 0 else let? d := branchNode s p in NodeLayout.Height d.
Definition Version (s : Snapshot) (p : PersistedNode) : option Z :=
  if isLeaf p then let? d := leafNode s p in LeafLayout.Version d
  else let? d := branchNode s p in NodeLayout.Version d.
Definition Size (s : Snapshot) (p : PersistedNode) : option Z :=
  if isLeaf p then Some 1 else let? d := branchNode s p in NodeLayout.Size d.
Definition Key (s : Snapshot) (p : PersistedNode) : option bytes :=
  if isLeaf p then LeafKey s (index p)
  else let? d := branchNode s p in
       let? i := NodeLayout.KeyLeaf d in LeafKey s i.
Definition Value (s : Snapshot) (p : PersistedNode) : option slice :=
  if isLeaf p then let? kv := LeafKeyValue s (index p) in Some (Some kv.2)
  else Some None.
Definition Hash (s : Snapshot) (p : PersistedNode) : option bytes :=
  if isLeaf p then let? d := leafNode s p in LeafLayout.Hash d
  else let? d := branchNode s p in NodeLayout.Hash d.

Definition Left (s : Snapshot) (p : PersistedNode) : option PersistedNode :=
  if isLeaf p then None
  else
    let? data := branchNode s p in
    let? preTrees := NodeLayout.PreTrees data in
    let? size := NodeLayout.Size data in
    let startLeaf := getStartLeaf (index p) size preTrees in
    let? keyLeaf := NodeLayout.KeyLeaf data in
    if u32 (startLeaf + 1) =? keyLeaf then Some (mkPersisted true startLeaf)
    else Some (mkPersisted false (getLeftBranch keyLeaf preTrees)).

Definition Right (s : Snapshot) (p : PersistedNode) : option PersistedNode :=
  if isLeaf p then None
  else
    let? data := branchNode s p in
    let? keyLeaf := NodeLayout.KeyLeaf data in
    let? preTrees := NodeLayout.PreTrees data in
    if keyLeaf =? getEndLeaf (index p) preTrees then Some (mkPersisted true keyLeaf)
    else Some (mkPersisted false (u32 (index p - 1))).

(** The fields of the [MemNode] that [Mutate] builds: height, size, version,
    key, value, left and right. *)
Definition Mutate (s : Snapshot) (p : PersistedNode) (version : Z)
  : option (Z * Z * Z * bytes * slice * option PersistedNode * option PersistedNode) :=
  if isLeaf p then
    let? kv := LeafKeyValue s (index p) in
    Some (0, 1, version, kv.1, Some kv.2, None, None)
  else
    let? data := branchNode s p in
    let? h := NodeLayout.Height data in
    let? size := NodeLayout.Size data in
    let? key := Key s p in
    let? l := Left s p in
    let? r := Right s p in
    Some (h, size, version, key, None, Some l, Some r).

Definition Get (s : Snapshot) (p : PersistedNode) (key : bytes) : option (slice * Z) :=
  let? (start, count) :=
    (if isLeaf p then Some (index p, 1)
     else
       let? data := branchNode s p in
       let? preTrees := NodeLayout.PreTrees data in
       let? count := NodeLayout.Size data in
       Some (getStartLeaf (index p) count preTrees, count)) in
  let? i := sort_Search count (fun i =>
    let? leafKey := LeafKey s (u32 (start + u32 i)) in
    Some (negb (bytes_ltb leafKey key))) in
  let i := u32 i in
  let leaf := u32 (i + start) in
  if u32 (start + count) <=? leaf then Some (None, i)
  else
    let? (nodeKey, value) := LeafKeyValue s leaf in
    if decide (nodeKey = key) then Some (Some value, i) else Some (None, i).

(** [Some None] is the pair of nil slices the code returns out of range. *)
Definition GetByIndex (s : Snapshot) (p : PersistedNode) (leafIndex : Z)
  : option (option (bytes * bytes)) :=
  if isLeaf p then
    if leafIndex =? 0 then let? kv := LeafKeyValue s (index p) in Some (Some kv)
    else Some None
  else
    let? data := branchNode s p in
    let? preTrees := NodeLayout.PreTrees data in
    let? size := NodeLayout.Size data in
    let startLeaf := getStartLeaf (index p) size preTrees in
    let endLeaf := getEndLeaf (index p) preTrees in
    let i := u32 (startLeaf + leafIndex) in
    if endLeaf <? i then Some None
    else let? kv := LeafKeyValue s i in Some (Some kv).
End Persisted.

(** ** [sort.Search] finds the boundary of a monotone predicate *)

Lemma search_loop_ok fuel f i j k :
  i <= k <= j -> j - i <= Z.of_nat fuel ->
  (forall x, i <= x < k -> f x = Some false) -> (forall x, k <= x < j -> f x = Some true) ->
  search_loop fuel f i j = Some k.
Proof.
  revert i j. induction fuel as [|fuel IH]; intros i j Hk Hf Hlo Hhi; simpl.
  - f_equal. lia.
  - destruct (Z.ltb_spec i j); [|f_equal; lia].
    destruct (decide ((i + j) / 2 < k)).
    + rewrite Hlo by dlia. simpl. apply IH; try dlia; auto. intros x Hx. apply Hlo. dlia.
    + rewrite Hhi by dlia. simpl. apply IH; try dlia; auto. intros x Hx. apply Hhi. dlia.
Qed.

Lemma sort_Search_ok n f k :
  0 <= k <= n ->
  (forall x, 0 <= x < k -> f x = Some false) -> (forall x, k <= x < n -> f x = Some true) ->
  sort_Search n f = Some k.
Proof. intros. apply search_loop_ok; auto; lia. Qed.
