(* ===== verification/LayoutNative.v ===== *)
(** The layout for little-endian machines: [memiavl/layout_native.go], which a
    build tag puts in the place of [layout_little_endian.go].

    The buffer is seen as an array of structs through an unsafe pointer.  On the
    machines that [init] accepts, a field of a struct is the little-endian number
    in its bytes; the structs have no padding: four [uint32] and 32 bytes for a
    branch, two [uint32], an [uint64] and 32 bytes for a leaf.

    Theorem: on every buffer that this layout accepts, both layouts have the same
    records and every field of them is equal. *)
From stdpp Require Import prelude strings.
From Stdlib Require Import ZArith Lia.
From S2P Require Import Prelude OrdMap Codec Persisted.
Local Open Scope Z_scope.

(** The number in the bytes of memory from an offset on. *)
Definition mem_uint (size : nat) (m : bytes) (offset : nat) : Z := le_decode (take size (drop offset m)).

Record nodeLayout : Type := mkNodeLayout { data : list Z; n_hash : bytes }.
Record leafLayout : Type := mkLeafLayout { l_version : Z; l_keyLen : Z; l_keyOffset : Z; l_hash : bytes }.

Definition view_node (m : bytes) : nodeLayout :=
  mkNodeLayout [mem_uint 4 m 0; mem_uint 4 m 4; mem_uint 4 m 8; mem_uint 4 m 12] (take 32 (drop 16 m)).
Definition view_leaf (m : bytes) : leafLayout :=
  mkLeafLayout (mem_uint 4 m 0) (mem_uint 4 m 4) (mem_uint 8 m 8) (take 32 (drop 16 m)).

(** [unsafe.Slice] over records of 48 bytes. *)
Definition view {A} (f : bytes -> A) (buf : bytes) : list A :=
  (fun i => f (take 48 (drop (i * 48) buf))) <$> seq 0 (Z.to_nat (len buf / 48)).

(** [aligned]: the address of the buffer has the alignment of the struct. *)
Definition NewNodes (aligned : bool) (buf : bytes) : res (list nodeLayout) :=
  if negb aligned then Err "input buffer is not aligned"
  else if negb (len buf mod 48 =? 0) then Err "input buffer length is not correct"
  else Ok (view view_node buf).
Definition NewLeaves (aligned : bool) (buf : bytes) : res (list leafLayout) :=
  if negb aligned then Err "input buffer is not aligned"
  else if negb (len buf mod 48 =? 0) then Err "input buffer length is not correct"
  else Ok (view view_leaf buf).

Definition NativeNode (ns : list nodeLayout) (i : Z) : option nodeLayout := ns !! Z.to_nat i.
Definition NativeLeaf (ls : list leafLayout) (i : Z) : option leafLayout := ls !! Z.to_nat i.

(** The accessors of [nodeLayout]; [data] has four elements. *)
Definition data_at (n : nodeLayout) (i : nat) : Z := nth i (data n) 0.
Definition NativeHeight (n : nodeLayout) : Z := u8 (data_at n 0).
Definition NativePreTrees (n : nodeLayout) : Z := u8 (Z.shiftr (data_at n 0) 8).
Definition NativeVersion (n : nodeLayout) : Z := data_at n 1.
Definition NativeSize (n : nodeLayout) : Z := data_at n 2.
Definition NativeKeyLeaf (n : nodeLayout) : Z := data_at n 3.
Definition NativeKeyOffset (n : nodeLayout) : Z := Z.lor (data_at n 2) (u64 (Z.shiftl (data_at n 3) 32)).

(** ** Records *)

Lemma view_lookup {A} (f : bytes -> A) buf i : len buf mod 48 = 0 -> 0 <= i ->
  view f buf !! Z.to_nat i = f <$> subslice buf (i * 48) (i * 48 + 48).
Proof.
  intros Hm Hi. unfold view. rewrite list_lookup_fmap. pose proof (len_nonneg buf). pose proof (Z.div_mod (len buf) 48 ltac:(lia)) as Hd. rewrite Hm in Hd.
  unfold subslice. case_decide as Hc.
  - rewrite (lookup_seq_lt 0 _ (Z.to_nat i)) by lia. cbn. do 3 f_equal; [lia|]. f_equal. lia.
  - by rewrite lookup_seq_ge by lia.
Qed.

(** Fields that are equal in both layouts. *)
Record same_branch (d : bytes) (n : nodeLayout) : Prop := {
  sb_height : NodeLayout.Height d = Some (NativeHeight n);
  sb_preTrees : NodeLayout.PreTrees d = Some (NativePreTrees n);
  sb_version : NodeLayout.Version d = Some (NativeVersion n);
  sb_size : NodeLayout.Size d = Some (NativeSize n);
  sb_keyLeaf : NodeLayout.KeyLeaf d = Some (NativeKeyLeaf n);
  sb_hash : NodeLayout.Hash d = Some (n_hash n);
}.
Record same_leaf (d : bytes) (l : leafLayout) : Prop := {
  sl_version : LeafLayout.Version d = Some (l_version l);
  sl_keyLength : LeafLayout.KeyLength d = Some (l_keyLen l);
  sl_keyOffset : LeafLayout.KeyOffset d = Some (l_keyOffset l);
  sl_hash : LeafLayout.Hash d = Some (l_hash l);
}.

(** A field of a record in both views. *)
Lemma field_uint32 (d : bytes) lo : len d = 48 -> 0 <= lo <= 44 -> (let? b := subslice d lo (lo + 4) in Uint32 b) = Some (mem_uint 4 d (Z.to_nat lo)).
Proof.
  intros Hd Hlo. unfold subslice. rewrite decide_True by lia. cbn [mbind option_bind]. unfold Uint32. rewrite decide_True.
  - f_equal. unfold mem_uint. f_equal. replace (Z.to_nat (lo + 4 - lo)) with 4%nat by lia. by rewrite take_take.
  - unfold len in *. rewrite length_take, length_drop. lia.
Qed.

Lemma field_uint64 (d : bytes) lo : len d = 48 -> 0 <= lo <= 40 -> (let? b := subslice d lo (lo + 8) in Uint64 b) = Some (mem_uint 8 d (Z.to_nat lo)).
Proof.
  intros Hd Hlo. unfold subslice. rewrite decide_True by lia. cbn [mbind option_bind]. unfold Uint64. rewrite decide_True.
  - f_equal. unfold mem_uint. f_equal. replace (Z.to_nat (lo + 8 - lo)) with 8%nat by lia. by rewrite take_take.
  - unfold len in *. rewrite length_take, length_drop. lia.
Qed.

Lemma field_hash (d : bytes) : len d = 48 -> subslice d 16 (16 + 32) = Some (take 32 (drop 16 d)).
Proof. intros Hd. unfold subslice. rewrite decide_True by lia. done. Qed.

(** The lowest bytes of a word. *)
Lemma low_byte (a : byte) w : u8 (b2z a + Z.shiftl w 8) = b2z a.
Proof.
  unfold u8. rewrite Z.shiftl_mul_pow2 by lia. change (2 ^ 8) with 256. rewrite Z.mod_add by lia. apply Z.mod_small. apply b2z_range.
Qed.
Lemma next_byte (a : byte) w : Z.shiftr (b2z a + Z.shiftl w 8) 8 = w.
Proof.
  rewrite Z.shiftl_mul_pow2, Z.shiftr_div_pow2 by lia. change (2 ^ 8) with 256. rewrite Z.div_add by lia. pose proof (b2z_range a). rewrite Z.div_small by lia. lia.
Qed.

Lemma view_node_same d : len d = 48 -> same_branch d (view_node d).
Proof.
  intros Hd. split; [| |exact (field_uint32 d 4 Hd ltac:(lia))|exact (field_uint32 d 8 Hd ltac:(lia))|exact (field_uint32 d 12 Hd ltac:(lia))|exact (field_hash d Hd)].
  all: destruct d as [|a [|b [|c [|e d]]]]; try (cbn in Hd; discriminate).
  - unfold NativeHeight, data_at, view_node, mem_uint. cbn [nth data drop take le_decode]. by rewrite low_byte.
  - unfold NativePreTrees, data_at, view_node, mem_uint. cbn [nth data drop take le_decode]. by rewrite next_byte, low_byte.
Qed.

Lemma view_leaf_same d : len d = 48 -> same_leaf d (view_leaf d).
Proof.
  intros Hd. split; [exact (field_uint32 d 0 Hd ltac:(lia))|exact (field_uint32 d 4 Hd ltac:(lia))|exact (field_uint64 d 8 Hd ltac:(lia))|exact (field_hash d Hd)].
Qed.

(** ** Properties *)

(** The two layouts agree: a buffer of whole records is accepted when it is
    aligned, and then an index is in range for both layouts or for none, and in
    range all fields of the record are equal. *)
Theorem native_layout_agrees (nodes leaves : bytes) (i : Z) (Hn : len nodes mod SizeNode = 0) (Hl : len leaves mod SizeLeaf = 0) (Hi : 0 <= i) :
  exists ns ls, NewNodes true nodes = Ok ns /\ NewLeaves true leaves = Ok ls /\
    match NodeLayout.Node nodes i, NativeNode ns i with Some d, Some n => same_branch d n | None, None => True | _, _ => False end /\
    match LeafLayout.Leaf leaves i, NativeLeaf ls i with Some d, Some l => same_leaf d l | None, None => True | _, _ => False end.
Proof.
  change SizeNode with 48 in Hn. change SizeLeaf with 48 in Hl. exists (view view_node nodes), (view view_leaf leaves). unfold NewNodes, NewLeaves.
  rewrite Hn, Hl. split_and!; [done|done| |].
  - unfold NativeNode. rewrite view_lookup by done. unfold NodeLayout.Node. change SizeNode with 48. destruct (subslice nodes _ _) as [d|] eqn:E; [|done].
    apply view_node_same. apply subslice_len in E. lia.
  - unfold NativeLeaf. rewrite view_lookup by done. unfold LeafLayout.Leaf. change SizeLeaf with 48. destruct (subslice leaves _ _) as [d|] eqn:E; [|done].
    apply view_leaf_same. apply subslice_len in E. lia.
Qed.
