(* ===== verification/Snapshot.v ===== *)
(** Snapshot files: the writer and [OpenSnapshot] of [memiavl/snapshot.go].

    The writer appends to three byte strings; a failed write of the operating
    system is not modelled, a cancelled context is.  The theorems say that the
    files written for a well-formed tree open as a snapshot whose
    [PersistedNode]s present that tree: every field, both children, the
    hashes, and the two specialised reads [Get] (a binary search over the leaf
    records) and [GetByIndex]. *)
From stdpp Require Import prelude strings.
From Stdlib Require Import ZArith Lia.
From S2P Require Import Prelude OrdMap Codec Node Hash Persisted.
Local Open Scope Z_scope.

Definition SnapshotFileMagic : Z := 1280721225.
Definition SnapshotFormat : Z := 0.
Definition SizeMetadata : Z := 12.
Definition CancelCheckInterval : Z := 1000.

(** The files of a snapshot directory. *)
Record Files : Type := mkFiles {
  f_nodes : bytes;
  f_leaves : bytes;
  f_kvs : bytes;
  f_metadata : bytes;
}.

(** ** Opening *)

(** The snapshot of the three data files, when their sizes agree. *)
Definition openData (nodes leaves kvs : bytes) (version : Z) : res Snapshot :=
  if negb (len nodes mod SizeNode =? 0) then
    Err "corrupted snapshot, nodes file size is not a multiple of the node size"
  else if negb (len leaves mod SizeLeaf =? 0) then
    Err "corrupted snapshot, leaves file size is not a multiple of the leaf size"
  else
    let nodesLen := len nodes / SizeNode in
    let leavesLen := len leaves / SizeLeaf in
    if ((0 <? leavesLen) && negb (nodesLen + 1 =? leavesLen)) ||
       ((leavesLen =? 0) && negb (nodesLen =? 0)) then
      Err "corrupted snapshot, branch nodes size don't match leaves size"
    else
      let root := if 0 <? nodesLen then Some (mkPersisted false (u32 (nodesLen - 1)))
                  else if 0 <? leavesLen then Some (mkPersisted true 0) else None in
      Ok (mkSnapshot nodes leaves kvs version root).

Definition OpenSnapshot (f : Files) : res Snapshot :=
  let bz := f_metadata f in
  if negb (len bz =? SizeMetadata) then Err "wrong metadata file size"
  else
    let* magic := of_option "index out of range" (Uint32 bz) in
    if negb (magic =? SnapshotFileMagic) then Err "invalid metadata file magic"
    else
      let* format := of_option "index out of range" (let? b := slice_from bz 4 in Uint32 b) in
      if negb (format =? SnapshotFormat) then Err "unknown snapshot format"
      else
        let* version := of_option "index out of range" (let? b := slice_from bz 8 in Uint32 b) in
        openData (f_nodes f) (f_leaves f) (f_kvs f) version.

(** ** Writing *)

Record snapshotWriter : Type := mkWriter {
  nodesWriter : bytes;
  leavesWriter : bytes;
  kvWriter : bytes;
  branchCounter : Z;
  leafCounter : Z;
  kvsOffset : Z;
}.

Definition newSnapshotWriter : snapshotWriter := mkWriter [] [] [] 0 0 0.

Section Writer.
(** [cancelled i]: the context is done when leaf [i] is about to be written. *)
Context (sha256 : bytes -> bytes) (cancelled : Z -> bool).

Definition writeKeyValue (w : snapshotWriter) (key value : bytes) : snapshotWriter :=
  mkWriter (nodesWriter w) (leavesWriter w)
    (kvWriter w ++ PutUint32 (u32 (len key)) ++ key ++ PutUint32 (u32 (len value)) ++ value)
    (branchCounter w) (leafCounter w)
    (u64 (kvsOffset w + (4 + 4 + len key + len value))).

Definition writeLeaf (w : snapshotWriter) (version : Z) (key value hash : bytes)
  : res snapshotWriter :=
  if (leafCounter w mod CancelCheckInterval =? 0) && cancelled (leafCounter w)
  then Err "context canceled"
  else
    let buf := PutUint32 version ++ PutUint32 (u32 (len key)) ++ PutUint64 (kvsOffset w) in
    let w := writeKeyValue w key value in
    Ok (mkWriter (nodesWriter w) (leavesWriter w ++ buf ++ hash) (kvWriter w)
          (branchCounter w) (u32 (leafCounter w + 1)) (kvsOffset w)).

Definition writeBranch (w : snapshotWriter) (version size height preTrees keyLeaf : Z)
    (hash : bytes) : snapshotWriter :=
  let buf := [z2b height; z2b preTrees; z2b 0; z2b 0] ++
             PutUint32 version ++ PutUint32 size ++ PutUint32 keyLeaf in
  mkWriter (nodesWriter w ++ buf ++ hash) (leavesWriter w) (kvWriter w)
    (u32 (branchCounter w + 1)) (leafCounter w) (kvsOffset w).

Fixpoint writeRecursive (w : snapshotWriter) (node : Node) : res snapshotWriter :=
  match node with
  | Leaf v k x => writeLeaf w v k (default [] x) (HashNode sha256 node)
  | Branch h s v k l r =>
      let preTrees := u8 (u32 (leafCounter w - branchCounter w)) in
      let* w := writeRecursive w l in
      let keyLeaf := leafCounter w in
      let* w := writeRecursive w r in
      Ok (writeBranch w v (u32 s) h preTrees keyLeaf (HashNode sha256 node))
  end.

Definition metadata (version : Z) : bytes :=
  PutUint32 SnapshotFileMagic ++ PutUint32 SnapshotFormat ++ PutUint32 version.

(** [writeSnapshot]: buffered data reaches the files only when leaves were
    written; the metadata file comes last. *)
Definition writeSnapshot (version : Z) (doWrite : snapshotWriter -> res (snapshotWriter * Z))
  : res Files :=
  let* (w, leaves) := doWrite newSnapshotWriter in
  if 0 <? leaves then
    Ok (mkFiles (nodesWriter w) (leavesWriter w) (kvWriter w) (metadata version))
  else Ok (mkFiles [] [] [] (metadata version)).

Definition WriteSnapshotWithContext (version : Z) (root : option Node) : res Files :=
  writeSnapshot version (fun w =>
    match root with
    | None => Ok (w, 0)
    | Some n => let* w := writeRecursive w n in Ok (w, leafCounter w)
    end).
End Writer.

(** The tree below a persisted node, read through its accessors; the fuel
    bounds the height, which is an [uint8]. *)
Fixpoint load (fuel : nat) (s : Snapshot) (p : PersistedNode) : option Node :=
  match fuel with
  | O => None
  | S fuel =>
      let? h := Persisted.Height s p in
      let? size := Persisted.Size s p in
      let? v := Persisted.Version s p in
      let? k := Persisted.Key s p in
      let? x := Persisted.Value s p in
      if isLeaf p then Some (Leaf v k x)
      else
        let? pl := Persisted.Left s p in
        let? pr := Persisted.Right s p in
        let? l := load fuel s pl in
        let? r := load fuel s pr in
        Some (Branch h size v k l r)
  end.

(** ** The records and what is written for a tree *)

Definition leaf_record (version : Z) (key : bytes) (off : Z) (hash : bytes) : bytes :=
  PutUint32 version ++ PutUint32 (u32 (len key)) ++ PutUint64 off ++ hash.
Definition branch_record (height preTrees version size keyLeaf : Z) (hash : bytes) : bytes :=
  [z2b height; z2b preTrees; z2b 0; z2b 0] ++
  PutUint32 version ++ PutUint32 size ++ PutUint32 keyLeaf ++ hash.
Definition kv_record (key value : bytes) : bytes :=
  PutUint32 (u32 (len key)) ++ key ++ PutUint32 (u32 (len value)) ++ value.

Lemma len_Put32 z : len (PutUint32 z) = 4.
Proof. apply (len_le_encode 4). Qed.
Lemma len_Put64 z : len (PutUint64 z) = 8.
Proof. apply (len_le_encode 8). Qed.
Lemma len_kv_record k v : len (kv_record k v) = 8 + len k + len v.
Proof. unfold kv_record. rewrite !len_app, !len_Put32. lia. Qed.

Lemma Uint32_Put' z : 0 <= z < 2 ^ 32 -> Uint32 (PutUint32 z) = Some z.
Proof. intros. rewrite <- (app_nil_r (PutUint32 z)). by apply Uint32_Put. Qed.
Lemma Uint64_Put' z : 0 <= z < 2 ^ 64 -> Uint64 (PutUint64 z) = Some z.
Proof. intros. rewrite <- (app_nil_r (PutUint64 z)). by apply Uint64_Put. Qed.

Lemma SizeLeaf_eq : SizeLeaf = 48.
Proof. done. Qed.
Lemma SizeNode_eq : SizeNode = 48.
Proof. done. Qed.

Section Records.
Context (v size keyLeaf off height preTrees : Z) (key hash : bytes).
Hypotheses (Hv : 0 <= v < 2 ^ 32) (Hhash : len hash = 32).

Lemma leaf_record_fields :
  len key < 2 ^ 32 -> 0 <= off < 2 ^ 64 ->
  let d := leaf_record v key off hash in
  len d = SizeLeaf /\ LeafLayout.Version d = Some v /\ LeafLayout.KeyLength d = Some (len key) /\
  LeafLayout.KeyOffset d = Some off /\ LeafLayout.Hash d = Some hash.
Proof.
  intros Hk Ho d. pose proof (len_nonneg key). subst d. unfold leaf_record. split_and!.
  - rewrite !len_app, !len_Put32, len_Put64, Hhash. done.
  - unfold LeafLayout.Version. rewrite subslice_app_l by by rewrite len_Put32. simpl. by apply Uint32_Put'.
  - unfold LeafLayout.KeyLength.
    rewrite (subslice_mid (PutUint32 v) (PutUint32 (u32 (len key)))) by by rewrite ?len_Put32.
    simpl. rewrite u32_small by lia. apply Uint32_Put'. lia.
  - unfold LeafLayout.KeyOffset. rewrite (assoc_L (++) (PutUint32 v)).
    rewrite (subslice_mid (PutUint32 v ++ PutUint32 (u32 (len key))) (PutUint64 off))
      by by rewrite ?len_app, ?len_Put32, ?len_Put64. simpl. by apply Uint64_Put'.
  - unfold LeafLayout.Hash. rewrite !(assoc_L (++)). rewrite <- (app_nil_r (_ ++ hash)), <- (assoc_L (++)).
    apply subslice_mid; by rewrite ?len_app, ?len_Put32, ?len_Put64, ?Hhash.
Qed.

Lemma branch_record_fields :
  0 <= size < 2 ^ 32 -> 0 <= keyLeaf < 2 ^ 32 -> 0 <= height < 2 ^ 8 -> 0 <= preTrees < 2 ^ 8 ->
  let d := branch_record height preTrees v size keyLeaf hash in
  len d = SizeNode /\ NodeLayout.Height d = Some height /\ NodeLayout.PreTrees d = Some preTrees /\
  NodeLayout.Version d = Some v /\ NodeLayout.Size d = Some size /\
  NodeLayout.KeyLeaf d = Some keyLeaf /\ NodeLayout.Hash d = Some hash.
Proof.
  intros Hs Hk Hh Hp d. subst d. unfold branch_record. set (pre := [_; _; _; _]).
  assert (len pre = 4) as Hpre by done. split_and!.
  - rewrite !len_app, !len_Put32, Hhash, Hpre. done.
  - unfold NodeLayout.Height. simpl. rewrite b2z_z2b. f_equal. by apply Z.mod_small.
  - unfold NodeLayout.PreTrees. simpl. rewrite b2z_z2b. f_equal. by apply Z.mod_small.
  - unfold NodeLayout.Version.
    rewrite (subslice_mid pre (PutUint32 v)) by by rewrite ?len_Put32. simpl. by apply Uint32_Put'.
  - unfold NodeLayout.Size. rewrite (assoc_L (++) pre).
    rewrite (subslice_mid (pre ++ PutUint32 v) (PutUint32 size))
      by by rewrite ?len_app, ?len_Put32. simpl. by apply Uint32_Put'.
  - unfold NodeLayout.KeyLeaf. rewrite (assoc_L (++) pre), (assoc_L (++) (pre ++ _)).
    rewrite (subslice_mid ((pre ++ PutUint32 v) ++ PutUint32 size) (PutUint32 keyLeaf))
      by by rewrite ?len_app, ?len_Put32. simpl. by apply Uint32_Put'.
  - unfold NodeLayout.Hash. rewrite !(assoc_L (++)). rewrite <- (app_nil_r (_ ++ hash)), <- (assoc_L (++)).
    apply subslice_mid; by rewrite ?len_app, ?len_Put32, ?Hhash.
Qed.
End Records.

(** The number of leaves and the bytes they take in the kvs file. *)
Definition leaf_count (n : Node) : Z := len (to_list n).

Fixpoint out_kvs (n : Node) : bytes :=
  match n with
  | Leaf _ k x => kv_record k (default [] x)
  | Branch _ _ _ _ l r => out_kvs l ++ out_kvs r
  end.

#[local] Arguments HashNode : simpl never.
#[local] Arguments leaf_record : simpl never.
#[local] Arguments branch_record : simpl never.
#[local] Arguments kv_record : simpl never.

Section Layout.
Context (sha256 : bytes -> bytes).

Fixpoint out_leaves (off : Z) (n : Node) : bytes :=
  match n with
  | Leaf v k _ => leaf_record v k off (HashNode sha256 n)
  | Branch _ _ _ _ l r => out_leaves off l ++ out_leaves (off + len (out_kvs l)) r
  end.

(** [L] leaves and [B] branches come before the tree in the files. *)
Fixpoint out_nodes (L B : Z) (n : Node) : bytes :=
  match n with
  | Leaf _ _ _ => []
  | Branch h s v _ l r =>
      out_nodes L B l ++ out_nodes (L + leaf_count l) (B + leaf_count l - 1) r ++
      branch_record h (L - B) v s (L + leaf_count l) (HashNode sha256 n)
  end.

(** The position of a tree's root record, given where its records start. *)
Definition root_at (L B : Z) (n : Node) : PersistedNode :=
  if IsLeaf n then mkPersisted true L else mkPersisted false (B + leaf_count n - 2).

(** The records of a tree are in the files of a snapshot. *)
Fixpoint stored (s : Snapshot) (L B off : Z) (n : Node) : Prop :=
  match n with
  | Leaf v k x =>
      LeafLayout.Leaf (leaves s) L = Some (leaf_record v k off (HashNode sha256 n)) /\
      exists a c, kvs s = a ++ kv_record k (default [] x) ++ c /\ len a = off
  | Branch h sz v k l r =>
      stored s L B off l /\
      stored s (L + leaf_count l) (B + leaf_count l - 1) (off + len (out_kvs l)) r /\
      NodeLayout.Node (nodes s) (B + leaf_count n - 2) =
        Some (branch_record h (L - B) v sz (L + leaf_count l) (HashNode sha256 n))
  end.

(** A tree fits where it is written: counters, offsets and the number of
    pending subtrees stay in the range of their fields. *)
Record fits (L B off : Z) (n : Node) : Prop := {
  fits_B : 0 <= B <= L;
  fits_L : L + leaf_count n < 2 ^ 32;
  fits_off : 0 <= off /\ off + len (out_kvs n) < 2 ^ 64;
  fits_pre : L - B + Height n < 2 ^ 8;
  fits_avl : avl n;
  fits_sized : sized n;
  fits_fields : fields_ok n;
  fits_short : Forall (fun p => len (default [] p.2) < 2 ^ 32) (to_list n);
}.

Lemma leaf_count_pos n : 1 <= leaf_count n.
Proof. apply to_list_nonempty. Qed.

Lemma leaf_count_branch h s v k l r :
  leaf_count (Branch h s v k l r) = leaf_count l + leaf_count r.
Proof. unfold leaf_count. simpl. apply len_app. Qed.

Lemma leaf_count_leaf n : IsLeaf n = (leaf_count n =? 1).
Proof.
  destruct n as [|h s v k l r]; [done|]. rewrite leaf_count_branch.
  pose proof (leaf_count_pos l). pose proof (leaf_count_pos r). simpl. lia.
Qed.

Lemma fits_branch L B off h s v k l r :
  fits L B off (Branch h s v k l r) ->
  fits L B off l /\ fits (L + leaf_count l) (B + leaf_count l - 1) (off + len (out_kvs l)) r.
Proof.
  intros [HB HL HO HP (Al & Ar & Eh & _) (Sl & Sr & _) (_ & _ & _ & Fl & Fr) HS].
  simpl in *. apply Forall_app in HS as [HSl HSr]. unfold leaf_count in *. simpl in HL.
  pose proof (to_list_nonempty l). pose proof (to_list_nonempty r).
  pose proof (avl_height_nonneg l Al). pose proof (avl_height_nonneg r Ar).
  split; constructor; try done; unfold leaf_count; llia.
Qed.

Context (sha256_len : forall b, len (sha256 b) = 32).

Lemma out_lens L B off n : 
  len (out_leaves off n) = leaf_count n * SizeLeaf /\
  len (out_nodes L B n) = (leaf_count n - 1) * SizeNode.
Proof.
  revert L B off. induction n as [v k x|h s v k l IHl r IHr]; intros L B off.
  - split; [|done]. cbn [out_leaves]. unfold leaf_record.
    rewrite !len_app, !len_Put32, len_Put64, HashNode_len by done. done.
  - cbn [out_leaves out_nodes]. destruct (IHl L B off) as [E3 E4].
    destruct (IHr (L + leaf_count l) (B + leaf_count l - 1) (off + len (out_kvs l))) as [E1 E2].
    rewrite !len_app, E1, E2, E3, E4. unfold leaf_count, branch_record. cbn [to_list].
    rewrite !len_app, !len_Put32, HashNode_len by done.
    rewrite SizeLeaf_eq, SizeNode_eq, len_cons, len_cons, len_cons, len_cons, len_nil. lia.
Qed.

(** The written bytes, wherever they start, hold the records. *)
Lemma out_stored n : forall s L B off a1 c1 a2 c2 a3 c3,
  fits L B off n ->
  nodes s = a1 ++ out_nodes L B n ++ c1 -> len a1 = B * SizeNode ->
  leaves s = a2 ++ out_leaves off n ++ c2 -> len a2 = L * SizeLeaf ->
  kvs s = a3 ++ out_kvs n ++ c3 -> len a3 = off ->
  stored s L B off n.
Proof.
  induction n as [v k x|h sz v k l IHl r IHr]; intros s L B off a1 c1 a2 c2 a3 c3 F E1 H1 E2 H2 E3 H3.
  - split; [|by eauto]. unfold LeafLayout.Leaf. rewrite E2. apply subslice_mid; [done|].
    pose proof (proj1 (out_lens 0 0 off (Leaf v k x))) as Hl. cbn [out_leaves] in Hl. rewrite Hl, H2.
    unfold leaf_count. simpl. rewrite len_cons, len_nil. lia.
  - destruct (fits_branch _ _ _ _ _ _ _ _ _ F) as [Fl Fr]. cbn [out_nodes out_leaves out_kvs] in *.
    rewrite <- !(assoc_L (++)) in *.
    destruct (out_lens L B off l) as [Ll1 Ln1].
    destruct (out_lens (L + leaf_count l) (B + leaf_count l - 1) (off + len (out_kvs l)) r) as [Lr1 Lr2].
    rewrite SizeLeaf_eq, SizeNode_eq in *. split_and!.
    + eapply IHl; eauto.
    + eapply (IHr s (L + leaf_count l) (B + leaf_count l - 1) (off + len (out_kvs l))
        (a1 ++ out_nodes L B l) _ (a2 ++ out_leaves off l) _ (a3 ++ out_kvs l)); try done;
        rewrite <- ?(assoc_L (++)); try done; rewrite ?len_app; lia.
    + unfold NodeLayout.Node. rewrite E1.
      assert (len (branch_record h (L - B) v sz (L + leaf_count l)
        (HashNode sha256 (Branch h sz v k l r))) = 48) as Lb.
      { unfold branch_record. rewrite !len_app, !len_Put32, HashNode_len by done. done. }
      rewrite (assoc_L (++) a1), (assoc_L (++) (a1 ++ _)).
      rewrite leaf_count_branch. apply subslice_mid; rewrite ?len_app, ?SizeNode_eq; lia.
Qed.

Section Write.
Context (cancelled : Z -> bool) (never : forall i, cancelled i = false).

(** The writer appends exactly these bytes and keeps its counters. *)
Lemma writeRecursive_out n w :
  fits (leafCounter w) (branchCounter w) (kvsOffset w) n ->
  writeRecursive sha256 cancelled w n = Ok (mkWriter
    (nodesWriter w ++ out_nodes (leafCounter w) (branchCounter w) n)
    (leavesWriter w ++ out_leaves (kvsOffset w) n)
    (kvWriter w ++ out_kvs n)
    (branchCounter w + leaf_count n - 1) (leafCounter w + leaf_count n)
    (kvsOffset w + len (out_kvs n))).
Proof.
  revert w. induction n as [v k x|h s v k l IHl r IHr]; intros w F.
  - cbn [writeRecursive out_leaves out_nodes out_kvs]. unfold writeLeaf. rewrite never, andb_false_r.
    f_equal. destruct F as [HB HL HO _ _ _ _ _]. unfold leaf_count in *. simpl in *.
    rewrite len_cons, len_nil, len_kv_record in *. unfold writeKeyValue, leaf_record, kv_record. simpl.
    len_facts. f_equal.
    + by rewrite app_nil_r.
    + lia.
    + rewrite u32_small; lia.
    + rewrite u64_small; lia.
  - destruct (fits_branch _ _ _ _ _ _ _ _ _ F) as [Fl Fr].
    cbn [writeRecursive]. rewrite IHl by done. cbn [res_bind]. rewrite IHr by done. cbn [res_bind].
    f_equal. unfold writeBranch. simpl.
    destruct F as [HB HL HO HP HA HS HF _]. pose proof (leaf_count_pos l). pose proof (leaf_count_pos r).
    pose proof (avl_height_nonneg _ HA). destruct HS as (Sl & Sr & ->).
    rewrite (sized_len l Sl), (sized_len r Sr). unfold leaf_count in *. simpl in *.
    rewrite len_app in *. f_equal.
    + unfold branch_record. rewrite (u32_small (_ - _)), u8_small, (u32_small (_ + _)) by lia.
      rewrite <- !(assoc_L (++)). done.
    + by rewrite <- !(assoc_L (++)).
    + by rewrite <- !(assoc_L (++)).
    + rewrite u32_small; lia.
    + lia.
    + rewrite len_app. lia.
Qed.
End Write.

(** ** Reading back *)

(** A persisted node presents a tree: every accessor of the [Node]
    interface agrees with the tree. *)
Fixpoint presents (s : Snapshot) (p : PersistedNode) (n : Node) : Prop :=
  isLeaf p = IsLeaf n /\
  Persisted.Height s p = Some (Height n) /\ Persisted.Size s p = Some (Size n) /\
  Persisted.Version s p = Some (Version n) /\ Persisted.Key s p = Some (Key n) /\
  Persisted.Value s p = Some (Value n) /\ Persisted.Hash s p = Some (HashNode sha256 n) /\
  match n with
  | Leaf _ _ _ => True
  | Branch _ _ _ _ l r =>
      exists pl pr, Persisted.Left s p = Some pl /\ Persisted.Right s p = Some pr /\
        presents s pl l /\ presents s pr r
  end.

Lemma presents_load s n : forall p fuel,
  presents s p n -> avl n -> Height n < Z.of_nat fuel -> load fuel s p = Some n.
Proof.
  induction n as [v k x|h sz v k l IHl r IHr]; intros p fuel P A Hf;
    (destruct fuel as [|fuel]; [pose proof (avl_height_nonneg _ A); lia|]); simpl in P.
  - destruct P as (E & E1 & E2 & E3 & E4 & E5 & _). cbn [load]. by rewrite E1, E2, E3, E4, E5, E.
  - destruct P as (E & E1 & E2 & E3 & E4 & _ & _ & pl & pr & EL & ER & Pl & Pr).
    destruct A as (Al & Ar & Eh & _). simpl in Hf. cbn [load].
    rewrite E1, E2, E3, E4, E, EL, ER. simpl. unfold Persisted.Value. rewrite E. simpl.
    rewrite (IHl pl fuel Pl Al), (IHr pr fuel Pr Ar) by lia. done.
Qed.

Lemma slice_from_app {A} (a b : list A) lo : lo = len a -> slice_from (a ++ b) lo = Some b.
Proof.
  intros ->. unfold slice_from. rewrite <- (app_nil_r b) at 1.
  apply subslice_mid; [done|]. by rewrite len_app.
Qed.

Lemma kv_read s a c k v off :
  kvs s = a ++ kv_record k v ++ c -> len a = off -> len (kvs s) < 2 ^ 64 ->
  len k < 2 ^ 32 -> len v < 2 ^ 32 ->
  subslice (kvs s) (u64 (off + 4)) (u64 (u64 (off + 4) + len k)) = Some k /\
  (let? b := slice_from (kvs s) (u64 (u64 (off + 4) + len k)) in Uint32 b) = Some (len v) /\
  subslice (kvs s) (u64 (u64 (u64 (off + 4) + len k) + 4))
    (u64 (u64 (u64 (u64 (off + 4) + len k) + 4) + len v)) = Some v /\
  (let? b := slice_from (kvs s) off in Uint32 b) = Some (len k).
Proof.
  intros E Ha Hl Hk Hv. unfold kv_record in E. rewrite <- !(assoc_L (++)) in E.
  pose proof (len_nonneg a). pose proof (len_nonneg k). pose proof (len_nonneg v).
  assert (Hsum : off + 8 + len k + len v < 2 ^ 64).
  { rewrite E, !len_app, !len_Put32 in Hl. pose proof (len_nonneg c). lia. }
  rewrite !(u64_small (off + 4)), !(u64_small (off + 4 + len k)),
    !(u64_small (off + 4 + len k + 4)), (u64_small (off + 4 + len k + 4 + len v)) by lia.
  rewrite E, !u32_small by lia. split_and!.
  - rewrite (assoc_L (++) a). apply subslice_mid; rewrite len_app, len_Put32; lia.
  - rewrite (assoc_L (++) a), (assoc_L (++) (a ++ _)).
    rewrite slice_from_app by (rewrite !len_app, len_Put32; lia). simpl. apply Uint32_Put. lia.
  - rewrite (assoc_L (++) a), (assoc_L (++) (a ++ _)), (assoc_L (++) ((a ++ _) ++ _)).
    apply subslice_mid; rewrite !len_app, !len_Put32; lia.
  - rewrite slice_from_app by done. simpl. apply Uint32_Put. lia.
Qed.

(** Every leaf of a stored tree can be read by its index. *)
Lemma stored_leaf s n : forall L B off i k x,
  stored s L B off n -> fits L B off n -> len (kvs s) < 2 ^ 64 ->
  to_list n !! i = Some (k, x) ->
  LeafKey s (L + Z.of_nat i) = Some k /\
  LeafKeyValue s (L + Z.of_nat i) = Some (k, default [] x).
Proof.
  induction n as [v k' x'|h sz v k' l IHl r IHr]; intros L B off i k x St F Hk Hi.
  - destruct i as [|i]; [|done]. simplify_eq/=. rewrite Z.add_0_r.
    destruct St as (E & a & c & Ek & Ha). destruct F as [HB HL HO HP HA HS HF HSh]. simpl in *.
    destruct HF as (_ & _ & Hv & Hlk & _). inversion HSh as [|? ? Hx _]; subst. simpl in Hx.
    unfold LeafKey, LeafKeyValue. rewrite E. cbn [mbind option_bind].
    destruct (leaf_record_fields v (len a) k (HashNode sha256 (Leaf v k x)))
      as (_ & _ & -> & -> & _); [lia|by apply HashNode_len|done|llia|].
    simpl. destruct (kv_read s a c k (default [] x) (len a) Ek eq_refl Hk Hlk Hx) as (-> & E2 & E3 & _).
    simpl. split; [done|]. destruct (slice_from _ _); simpl in *; [|done]. rewrite E2. simpl. by rewrite E3.
  - destruct St as (Sl & Sr & _). destruct (fits_branch _ _ _ _ _ _ _ _ _ F) as [Fl Fr].
    simpl in Hi. apply lookup_app_Some in Hi as [Hi|[Hge Hi]]; [by eapply IHl|].
    destruct (IHr _ _ _ _ _ _ Sr Fr Hk Hi) as [E1 E2].
    replace (L + Z.of_nat i) with (L + leaf_count l + Z.of_nat (i - length (to_list l))); [done|].
    unfold leaf_count, len. lia.
Qed.

(** The index arithmetic on the record of a branch. *)
Lemma index_arith L B cl cr :
  0 <= B <= L -> 1 <= cl -> 1 <= cr -> L + cl + cr < 2 ^ 32 ->
  getStartLeaf (B + (cl + cr) - 2) (cl + cr) (L - B) = L /\
  getEndLeaf (B + (cl + cr) - 2) (L - B) = L + cl + cr - 1 /\
  (1 < cl -> getLeftBranch (L + cl) (L - B) = B + cl - 2).
Proof.
  intros. unfold getStartLeaf, getEndLeaf, getLeftBranch.
  rewrite !u32_sub_l, !u32_add_l. split_and!.
  - rewrite u32_small; lia.
  - rewrite u32_small; lia.
  - intros. rewrite u32_small; lia.
Qed.

Section Stored.
Context (s : Snapshot) (L B off h sz v : Z) (k : bytes) (l r : Node).
Let n := Branch h sz v k l r.
Hypotheses (St : stored s L B off n) (F : fits L B off n) (Hkv : len (kvs s) < 2 ^ 64)
  (So : search_tree n).

Lemma stored_branch :
  exists d, branchNode s (root_at L B n) = Some d /\
    NodeLayout.Height d = Some h /\ NodeLayout.PreTrees d = Some (L - B) /\
    NodeLayout.Version d = Some v /\ NodeLayout.Size d = Some sz /\
    NodeLayout.KeyLeaf d = Some (L + leaf_count l) /\
    NodeLayout.Hash d = Some (HashNode sha256 n).
Proof.
  destruct St as (_ & _ & E). unfold branchNode. simpl. exists (branch_record h (L - B) v sz
    (L + leaf_count l) (HashNode sha256 n)). split; [exact E|].
  destruct F as [HB HL HO HP HA HS HF _]. pose proof (leaf_count_pos l). pose proof (leaf_count_pos r).
  pose proof (avl_height_nonneg _ HA). subst n. rewrite leaf_count_branch in HL.
  pose proof (fields_ok_bounds _ HF) as (Hh & _ & Hv). pose proof (sized_len _ HS) as Hs.
  change (len _) with (leaf_count (Branch h sz v k l r)) in Hs.
  rewrite leaf_count_branch in Hs. simpl in Hs, Hh, Hv, HP.
  apply branch_record_fields; try done; try lia. by apply HashNode_len.
Qed.

Lemma stored_key : LeafKey s (L + leaf_count l) = Some k.
Proof.
  destruct St as (_ & Sr & _). destruct (fits_branch _ _ _ _ _ _ _ _ _ F) as [_ Fr].
  destruct So as (_ & _ & _ & _ & ->). destruct (min_key_to_list r) as (x & t & E).
  replace (L + leaf_count l) with (L + leaf_count l + Z.of_nat 0) by lia.
  apply (stored_leaf s r _ _ _ 0 (min_key r) x Sr Fr Hkv). by rewrite E.
Qed.

Lemma stored_children :
  Persisted.Left s (root_at L B n) = Some (root_at L B l) /\
  Persisted.Right s (root_at L B n) = Some (root_at (L + leaf_count l) (B + leaf_count l - 1) r).
Proof.
  destruct stored_branch as (d & E & _ & Ep & _ & Es & Ek & _).
  unfold Persisted.Left, Persisted.Right. rewrite E. simpl. rewrite Ep, Es, Ek. simpl.
  destruct F as [HB HL _ _ HA HS _ _]. pose proof (leaf_count_pos l). pose proof (leaf_count_pos r).
  pose proof (sized_len _ HS) as Hs. simpl in Hs. subst n.
  change (len _) with (leaf_count (Branch h sz v k l r)) in Hs.
  rewrite leaf_count_branch in *. subst sz.
  destruct (index_arith L B (leaf_count l) (leaf_count r)) as (-> & -> & EL); try lia.
  unfold root_at. destruct HS as (Sl & Sr & _). destruct HA as (Al & Ar & _).
  rewrite !leaf_count_leaf. split.
  - rewrite u32_small by lia. replace (L + 1 =? L + leaf_count l) with (leaf_count l =? 1) by lia.
    destruct (Z.eqb_spec (leaf_count l) 1); [done|]. by rewrite EL by lia.
  - replace (L + leaf_count l =? L + leaf_count l + leaf_count r - 1)
      with (leaf_count r =? 1) by lia.
    destruct (Z.eqb_spec (leaf_count r) 1); [done|].
    rewrite u32_small by lia. do 2 f_equal. lia.
Qed.
End Stored.

Lemma stored_presents s n : forall L B off,
  stored s L B off n -> fits L B off n -> search_tree n -> len (kvs s) < 2 ^ 64 ->
  presents s (root_at L B n) n.
Proof.
  induction n as [v k x|h sz v k l IHl r IHr]; intros L B off St F So Hkv.
  - destruct (stored_leaf s (Leaf v k x) L B off 0 k x St F Hkv eq_refl) as [E1 E2].
    rewrite Z.add_0_r in E1, E2. destruct St as (E & _). destruct F as [HB HL HO _ _ _ HF _].
    destruct HF as (_ & _ & Hv & Hk & [y ->]). simpl in *.
    destruct (leaf_record_fields v off k (HashNode sha256 (Leaf v k (Some y))))
      as (_ & E3 & _ & _ & E4); [done|by apply HashNode_len|done|llia|].
    unfold Persisted.Version, Persisted.Key, Persisted.Value, Persisted.Hash, leafNode. simpl.
    rewrite E, E1, E2. simpl. split_and!; done.
  - destruct (stored_branch _ _ _ _ _ _ _ _ _ _ St F) as (d & E & E1 & _ & E2 & E3 & E4 & E5).
    destruct (stored_children _ _ _ _ _ _ _ _ _ _ St F) as [EL ER]; [done..|].
    pose proof (stored_key _ _ _ _ _ _ _ _ _ _ St F Hkv So) as EK.
    destruct (fits_branch _ _ _ _ _ _ _ _ _ F) as [Fl Fr]. destruct St as (Sl & Sr & _).
    destruct So as (Tl & Tr & _). cbn [presents].
    unfold Persisted.Height, Persisted.Size, Persisted.Version, Persisted.Key, Persisted.Value,
      Persisted.Hash. simpl in E |- *. rewrite E. simpl. rewrite E4. split_and!; try done.
    eexists _, _. split_and!; eauto.
Qed.

(** The leaves of a stored tree: where they start and how many there are. *)
Lemma stored_range s n L B off :
  stored s L B off n -> fits L B off n -> search_tree n -> len (kvs s) < 2 ^ 64 ->
  (if isLeaf (root_at L B n) then Some (index (root_at L B n), 1)
   else
     let? data := branchNode s (root_at L B n) in
     let? preTrees := NodeLayout.PreTrees data in
     let? count := NodeLayout.Size data in
     Some (getStartLeaf (index (root_at L B n)) count preTrees, count)) = Some (L, leaf_count n).
Proof.
  intros St F So Hkv. destruct n as [v k x|h sz v k l r]; [done|].
  destruct (stored_branch _ _ _ _ _ _ _ _ _ _ St F) as (d & E & _ & E1 & _ & E3 & _).
  unfold root_at in *. simpl in *. rewrite E. simpl. rewrite E1. simpl. rewrite E3. simpl.
  destruct F as [HB HL _ _ HA HS _ _]. pose proof (leaf_count_pos l). pose proof (leaf_count_pos r).
  pose proof (sized_len _ HS) as Hs. simpl in Hs.
  change (len _) with (leaf_count (Branch h sz v k l r)) in Hs. rewrite leaf_count_branch in *. subst sz.
  by rewrite (proj1 (index_arith L B (leaf_count l) (leaf_count r) ltac:(lia) ltac:(lia) ltac:(lia) ltac:(lia))).
Qed.

(** [Get] on a persisted node is the binary search over its leaves. *)
Lemma stored_Get s n L B off key :
  stored s L B off n -> fits L B off n -> wf n -> len (kvs s) < 2 ^ 64 ->
  Persisted.Get s (root_at L B n) key = Some (Node.Get n key).
Proof.
  intros St F W Hkv. pose proof W as (_ & _ & So). pose proof (fits_L _ _ _ _ F) as HL.
  pose proof (fits_B _ _ _ _ F) as HB. pose proof (fits_fields _ _ _ _ F) as HF.
  rewrite Get_ok by (try done; unfold leaf_count in HL; lia).
  unfold Persisted.Get. rewrite (stored_range s n L B off) by done. simpl.
  pose proof (search_tree_sorted n So) as Srt. pose proof (assoc_rank_bounds key (to_list n)) as Hr.
  assert (Hlk : forall i, 0 <= i < leaf_count n -> exists k x,
    to_list n !! Z.to_nat i = Some (k, Some x) /\
    LeafKey s (L + i) = Some k /\ LeafKeyValue s (L + i) = Some (k, x)).
  { intros i Hi. destruct (to_list n !! Z.to_nat i) as [[k x]|] eqn:E.
    - destruct (stored_leaf s n L B off _ _ _ St F Hkv E) as [E1 E2].
      rewrite Z2Nat.id in E1, E2 by lia.
      destruct (fields_ok_values n HF _ (list_elem_of_lookup_2 _ _ _ E)) as [y Hy].
      simpl in Hy. subst x. by exists k, y.
    - apply lookup_ge_None in E. unfold leaf_count, len in Hi. lia. }
  rewrite (sort_Search_ok _ _ (assoc_rank key (to_list n))); [|done|..]; simpl.
  - fold (leaf_count n) in Hr.
    rewrite (u32_small (assoc_rank _ _)), !u32_small, assoc_get_rank by (try done; lia).
    destruct (Z.leb_spec (L + leaf_count n) (assoc_rank key (to_list n) + L)).
    + rewrite lookup_ge_None_2; [done|]. unfold leaf_count, len in *. lia.
    + destruct (Hlk (assoc_rank key (to_list n)) ltac:(lia)) as (k & x & -> & _ & E).
      rewrite (Z.add_comm _ L), E. simpl. by case_decide.
  - intros i Hi. destruct (Hlk i) as (k & x & E & E1 & _); [unfold leaf_count in *; lia|].
    unfold leaf_count in *. rewrite (u32_small i), u32_small, E1 by lia. simpl.
    rewrite (proj2 (bytes_ltb_lt k key)); [done|].
    apply (assoc_rank_spec key _ _ _ Srt E). lia.
  - intros i Hi. destruct (Hlk i) as (k & x & E & E1 & _); [unfold leaf_count in *; lia|].
    unfold leaf_count in *. rewrite (u32_small i), u32_small, E1 by lia. simpl.
    rewrite (proj2 (bytes_ltb_nlt k key)); [done|].
    intros Hlt. apply (assoc_rank_spec key _ _ _ Srt E) in Hlt. lia.
Qed.

(** [GetByIndex], for an index that does not wrap past the start leaf. *)
Lemma stored_GetByIndex s n L B off i :
  stored s L B off n -> fits L B off n -> search_tree n -> len (kvs s) < 2 ^ 64 ->
  0 <= i -> L + i < 2 ^ 32 ->
  Persisted.GetByIndex s (root_at L B n) i =
  Some ((fun p => (p.1, default [] p.2)) <$> to_list n !! Z.to_nat i).
Proof.
  intros St F So Hkv Hi HLi. pose proof (fits_L _ _ _ _ F) as HL. pose proof (fits_B _ _ _ _ F) as HB.
  assert (Hlk : forall k x, to_list n !! Z.to_nat i = Some (k, x) ->
    LeafKeyValue s (L + i) = Some (k, default [] x)).
  { intros k x E. rewrite <- (Z2Nat.id i) by lia.
    by apply (stored_leaf s n L B off _ _ _ St F Hkv E). }
  destruct n as [v k x|h sz v k l r].
  - unfold Persisted.GetByIndex. simpl. destruct (Z.eqb_spec i 0) as [->|].
    + rewrite Z.add_0_r in Hlk. by rewrite (Hlk k x).
    + destruct (Z.to_nat i) eqn:E; [lia|done].
  - destruct (stored_branch _ _ _ _ _ _ _ _ _ _ St F) as (d & E & _ & E1 & _ & E3 & _).
    unfold Persisted.GetByIndex, root_at in *. simpl in *. rewrite E. simpl. rewrite E1. simpl. rewrite E3. simpl.
    pose proof (leaf_count_pos l). pose proof (leaf_count_pos r).
    pose proof (sized_len _ (fits_sized _ _ _ _ F)) as Hs. simpl in Hs.
    change (len _) with (leaf_count (Branch h sz v k l r)) in Hs. rewrite leaf_count_branch in *. subst sz.
    destruct (index_arith L B (leaf_count l) (leaf_count r)) as (-> & -> & _); try lia.
    rewrite u32_small by lia.
    destruct ((to_list l ++ to_list r) !! Z.to_nat i) as [[k' x]|] eqn:Ei.
    + rewrite (Hlk _ _ eq_refl). apply lookup_lt_Some in Ei. rewrite length_app in Ei.
      destruct (Z.ltb_spec (L + leaf_count l + leaf_count r - 1) (L + i)); [|done].
      unfold leaf_count, len in *. lia.
    + apply lookup_ge_None in Ei. rewrite length_app in Ei.
      destruct (Z.ltb_spec (L + leaf_count l + leaf_count r - 1) (L + i)); [done|].
      unfold leaf_count, len in *. lia.
Qed.

(** The metadata file reads back. *)
Lemma OpenSnapshot_metadata f v :
  f_metadata f = metadata v -> 0 <= v < 2 ^ 32 ->
  OpenSnapshot f = openData (f_nodes f) (f_leaves f) (f_kvs f) v.
Proof.
  intros E Hv. unfold OpenSnapshot. rewrite E. unfold metadata.
  rewrite Uint32_Put by done. rewrite (slice_from_app (PutUint32 SnapshotFileMagic)) by by rewrite len_Put32.
  rewrite (assoc_L (++)), slice_from_app by by rewrite len_app, !len_Put32.
  rewrite !len_app, !len_Put32. cbn [mbind option_bind of_option].
  by rewrite Uint32_Put, Uint32_Put'.
Qed.

(** A whole tree starts at leaf 0, branch 0 and offset 0. *)
Definition storable (n : Node) : Prop := wf n /\ fits 0 0 0 n.

Section Whole.
Context (cancelled : Z -> bool) (never : forall i, cancelled i = false).

Lemma WriteSnapshot_out v n :
  storable n ->
  WriteSnapshotWithContext sha256 cancelled v (Some n) =
  Ok (mkFiles (out_nodes 0 0 n) (out_leaves 0 n) (out_kvs n) (metadata v)).
Proof.
  intros [W F]. unfold WriteSnapshotWithContext, writeSnapshot, newSnapshotWriter.
  rewrite (writeRecursive_out cancelled never n (mkWriter [] [] [] 0 0 0) F).
  cbn [res_bind leafCounter]. rewrite Z.add_0_l.
  pose proof (leaf_count_pos n).
  destruct (Z.ltb_spec 0 (leaf_count n)); [done|lia].
Qed.

Lemma write_open v n :
  0 <= v < 2 ^ 32 -> storable n ->
  exists f s, WriteSnapshotWithContext sha256 cancelled v (Some n) = Ok f /\
    OpenSnapshot f = Ok s /\ version s = v /\ root s = Some (root_at 0 0 n) /\
    stored s 0 0 0 n /\ len (kvs s) < 2 ^ 64.
Proof.
  intros Hv St. rewrite WriteSnapshot_out by done. destruct St as [W F].
  eexists _, _. split; [done|].
  rewrite (OpenSnapshot_metadata _ v) by done. unfold openData. simpl.
  destruct (out_lens 0 0 0 n) as [-> ->]. rewrite SizeLeaf_eq, SizeNode_eq.
  rewrite !Z.mod_mul, !Z.div_mul by lia. simpl. pose proof (leaf_count_pos n) as Hp.
  replace (leaf_count n - 1 + 1 =? leaf_count n) with true by lia.
  replace (leaf_count n =? 0) with false by lia. rewrite andb_false_r. simpl.
  split; [done|]. simpl. split_and!; [done| | |].
  - unfold root_at. rewrite leaf_count_leaf.
    destruct (Z.eqb_spec (leaf_count n) 1) as [->|]; [done|].
    destruct (Z.ltb_spec 0 (leaf_count n - 1)); [|lia].
    pose proof (fits_L _ _ _ _ F). rewrite u32_small by lia. do 2 f_equal. lia.
  - eapply (out_stored n _ 0 0 0 [] [] [] [] [] []); simpl; rewrite ?app_nil_r; done.
  - apply F.
Qed.
End Whole.
End Layout.

(** ** Properties *)

(** C3: Writing a well-formed tree whose counters fit their fields and opening
    the files again succeeds, and the root node of the snapshot presents the
    tree that was written: height, size, version, key, value, hash and, by
    index arithmetic on the records, both children, at every node. *)
Theorem snapshot_roundtrip (sha256 : bytes -> bytes) (sha256_len : forall b, len (sha256 b) = 32)
  (v : Z) (n : Node) (Hv : 0 <= v < 2 ^ 32) (St : storable n) :
  exists f s p, WriteSnapshotWithContext sha256 (fun _ => false) v (Some n) = Ok f /\
    OpenSnapshot f = Ok s /\ version s = v /\ root s = Some p /\ presents sha256 s p n /\
    load (Z.to_nat (Height n + 1)) s p = Some n.
Proof.
  destruct (write_open sha256 sha256_len (fun _ => false) (fun _ => eq_refl) v n Hv St)
    as (f & s & Ew & Eo & Ev & Er & Sd & Hk). destruct St as [(A & _ & So) F].
  exists f, s, (root_at 0 0 n). pose proof (avl_height_nonneg n A).
  pose proof (stored_presents sha256 sha256_len s n 0 0 0 Sd F So Hk) as P.
  split_and!; try done. apply (presents_load sha256); [done..|lia].
Qed.

(** A tree of two leaves. *)
Definition two_leaves : Node :=
  Branch 1 2 2 [z2b 2] (Leaf 1 [z2b 1] (Some [z2b 10])) (Leaf 2 [z2b 2] (Some [z2b 20; z2b 21])).

Lemma two_leaves_storable : storable two_leaves.
Proof.
  split.
  - apply wf_branch. split_and!; try done. split; try done; repeat constructor; by intros ?.
  - constructor; [lia|by vm_compute|split; [lia|by vm_compute]|by vm_compute|simpl; lia|simpl; lia| |].
    + unfold two_leaves. cbn [fields_ok Height Size Version].
      split_and!; try lia; try (by vm_compute); by eexists.
    + repeat constructor; by vm_compute.
Qed.

Lemma snapshot_roundtrip_witness :
  exists f s p, WriteSnapshotWithContext digest32 (fun _ => false) 7 (Some two_leaves) = Ok f /\
    OpenSnapshot f = Ok s /\ version s = 7 /\ root s = Some p /\ presents digest32 s p two_leaves /\
    load 2 s p = Some two_leaves.
Proof. exact (snapshot_roundtrip digest32 digest32_len 7 two_leaves ltac:(lia) two_leaves_storable). Defined.

(** On the snapshot of a tree, [Get] of the root node, a binary search over
    the leaf records with [sort.Search], returns what the tree walk of
    [MemNode.Get] returns, value and rank. *)
Theorem persisted_get_agrees (sha256 : bytes -> bytes) (sha256_len : forall b, len (sha256 b) = 32)
  (v : Z) (n : Node) (key : bytes) (Hv : 0 <= v < 2 ^ 32) (St : storable n) :
  exists f s p, WriteSnapshotWithContext sha256 (fun _ => false) v (Some n) = Ok f /\
    OpenSnapshot f = Ok s /\ root s = Some p /\
    Persisted.Get s p key = Some (Node.Get n key) /\
    (forall i, 0 <= i < 2 ^ 32 ->
       Persisted.GetByIndex s p i = Some ((fun q => (q.1, default [] q.2)) <$> to_list n !! Z.to_nat i)).
Proof.
  destruct (write_open sha256 sha256_len (fun _ => false) (fun _ => eq_refl) v n Hv St)
    as (f & s & Ew & Eo & _ & Er & Sd & Hk). pose proof St as [W F].
  exists f, s, (root_at 0 0 n). split_and!; try done.
  - by apply (stored_Get sha256 sha256_len s n 0 0 0).
  - intros i Hi. apply (stored_GetByIndex sha256 sha256_len s n 0 0 0); try done; [apply W|lia..].
Qed.

Lemma persisted_get_agrees_witness :
  exists f s p, WriteSnapshotWithContext digest32 (fun _ => false) 7 (Some two_leaves) = Ok f /\
    OpenSnapshot f = Ok s /\ root s = Some p /\
    Persisted.Get s p [z2b 2] = Some (Some [z2b 20; z2b 21], 1) /\
    (forall i, 0 <= i < 2 ^ 32 -> Persisted.GetByIndex s p i =
       Some ((fun q => (q.1, default [] q.2)) <$> to_list two_leaves !! Z.to_nat i)).
Proof. exact (persisted_get_agrees digest32 digest32_len 7 two_leaves [z2b 2] ltac:(lia) two_leaves_storable). Defined.

(** [OpenSnapshot] refuses data files whose sizes do not fit together: a
    file that is not a whole number of records, or a number of branches that
    is not one less than a positive number of leaves. *)
Theorem open_rejects_bad_sizes (f : Files) (s : Snapshot) (Ho : OpenSnapshot f = Ok s) :
  len (f_metadata f) = SizeMetadata /\
  exists nl ll, 0 <= nl /\ 0 <= ll /\ len (f_nodes f) = nl * SizeNode /\ len (f_leaves f) = ll * SizeLeaf /\
    (nl + 1 = ll \/ nl = 0 /\ ll = 0) /\ (root s = None <-> ll = 0).
Proof.
  unfold OpenSnapshot in Ho. destruct (Z.eqb_spec (len (f_metadata f)) SizeMetadata) as [Em|]; [|done].
  split; [done|]. cbn [negb] in Ho. apply res_bind_ok in Ho as (magic & _ & Ho).
  destruct (magic =? SnapshotFileMagic); [|done]. cbn [negb] in Ho.
  apply res_bind_ok in Ho as (format & _ & Ho). destruct (format =? SnapshotFormat); [|done].
  cbn [negb] in Ho. apply res_bind_ok in Ho as (v & _ & Ho). unfold openData in Ho.
  destruct (Z.eqb_spec (len (f_nodes f) mod SizeNode) 0) as [E1|]; [|done].
  destruct (Z.eqb_spec (len (f_leaves f) mod SizeLeaf) 0) as [E2|]; [|done]. cbn [negb] in Ho.
  rewrite SizeNode_eq, SizeLeaf_eq in *. pose proof (len_nonneg (f_nodes f)). pose proof (len_nonneg (f_leaves f)).
  pose proof (Z.div_pos (len (f_nodes f)) 48 ltac:(lia) ltac:(lia)).
  pose proof (Z.div_pos (len (f_leaves f)) 48 ltac:(lia) ltac:(lia)).
  exists (len (f_nodes f) / 48), (len (f_leaves f) / 48).
  pose proof (Z.div_mod (len (f_nodes f)) 48 ltac:(lia)). pose proof (Z.div_mod (len (f_leaves f)) 48 ltac:(lia)).
  destruct (Z.ltb_spec 0 (len (f_leaves f) / 48)); destruct (Z.eqb_spec (len (f_nodes f) / 48 + 1) (len (f_leaves f) / 48));
    destruct (Z.eqb_spec (len (f_leaves f) / 48) 0); destruct (Z.eqb_spec (len (f_nodes f) / 48) 0);
    simpl in Ho; try done; try lia; apply Ok_inj in Ho as <-; simpl;
    split_and!; try lia; destruct (Z.ltb_spec 0 (len (f_nodes f) / 48)); try lia; split; intros; try done; lia.
Qed.

Lemma open_rejects_bad_sizes_witness :
  exists f s, WriteSnapshotWithContext digest32 (fun _ => false) 7 (Some two_leaves) = Ok f /\
    OpenSnapshot f = Ok s /\ len (f_metadata f) = 12.
Proof.
  eexists _, _. split; [vm_compute; reflexivity|].
  match goal with |- OpenSnapshot ?f = Ok ?s /\ _ => assert (E : OpenSnapshot f = Ok s) end.
  { vm_compute. reflexivity. }
  split; [exact E|]. exact (proj1 (open_rejects_bad_sizes _ _ E)).
Defined.

(** A record index that wraps: on a persisted subtree that does not start
    at leaf 0, [GetByIndex] with an index near 2^32 is taken modulo 2^32 and
    returns a pair from outside the subtree instead of nothing. *)
Theorem persisted_getbyindex_wraps :
  exists f s p q, WriteSnapshotWithContext digest32 (fun _ => false) 7 (Some
      (Branch 2 3 2 [z2b 2] (Leaf 1 [z2b 1] (Some [z2b 10]))
        (Branch 1 2 2 [z2b 3] (Leaf 1 [z2b 2] (Some [])) (Leaf 2 [z2b 3] (Some []))))) = Ok f /\
    OpenSnapshot f = Ok s /\ root s = Some p /\ Persisted.Right s p = Some q /\
    Persisted.Size s q = Some 2 /\
    Persisted.GetByIndex s q 2 = Some None /\
    Persisted.GetByIndex s q (2 ^ 32 - 1) = Some (Some ([z2b 1], [z2b 10])).
Proof.
  eexists _, _, _, _. split; [vm_compute; reflexivity|]. split; [vm_compute; reflexivity|].
  split; [vm_compute; reflexivity|]. split; [vm_compute; reflexivity|].
  split; [vm_compute; reflexivity|]. split; vm_compute; reflexivity.
Qed.
