(* ===== verification/Tree.v ===== *)
(** The tree of one store: [memiavl/tree.go].

    A [Tree] is a root reference into the store of [Heap.v], the version
    counters that drive copy-on-write, the snapshot it was loaded from and a
    value cache.  The abstract state of a tree is the ordered map of its
    leaves; the theorems say that every operation succeeds, acts on that map,
    keeps the cache coherent, and that a copy of a committed tree is isolated
    from the tree it was taken from. *)
From stdpp Require Import prelude strings gmap fin_maps.
From Stdlib Require Import ZArith Lia.
From S2P Require Import Prelude OrdMap Codec Node Hash Heap HeapRefine HeapRead Cache Persisted Snapshot.
Local Open Scope Z_scope.

(** [KVPair] and [ChangeSet] of the generated protobuf code. *)
Record KVPair : Type := mkKVPair { p_delete : bool; p_key : bytes; p_value : slice }.
Abbreviation ChangeSet := (list KVPair).

(** Heights are [uint8], so no recursion is deeper. *)
Definition depth : nat := 256.
Lemma depth_eq : Z.of_nat depth = 256.
Proof. reflexivity. Qed.
#[global] Opaque depth.

Section Tree.
Context {C : Type} `{!Cache C} (sha256 : bytes -> bytes).

Record Tree : Type := mkTree {
  t_version : Z;
  t_cowVersion : Z;
  t_root : option Ref;
  t_snapshot : option Snapshot;
  t_cache : option (sharedCache C);
  t_zeroCopy : bool;
}.

Definition with_root (t : Tree) (r : option Ref) : Tree :=
  mkTree (t_version t) (t_cowVersion t) r (t_snapshot t) (t_cache t) (t_zeroCopy t).
Definition with_version (t : Tree) (v : Z) : Tree :=
  mkTree v (t_cowVersion t) (t_root t) (t_snapshot t) (t_cache t) (t_zeroCopy t).
Definition with_cache (t : Tree) (c : option (sharedCache C)) : Tree :=
  mkTree (t_version t) (t_cowVersion t) (t_root t) (t_snapshot t) c (t_zeroCopy t).

Definition NewEmptyTree (version cacheSize : Z) : res Tree :=
  if MaxUint32 <=? version then Panic "version overflows uint32"
  else Ok (mkTree (u32 version) 0 None None (NewCache cacheSize) true).

Definition New (cacheSize : Z) : res Tree := NewEmptyTree 0 cacheSize.

Definition NewWithInitialVersion (initialVersion cacheSize : Z) : res Tree :=
  if initialVersion <=? 1 then New cacheSize
  else NewEmptyTree (initialVersion - 1) cacheSize.

Definition NewFromSnapshot (s : Snapshot) (zeroCopy : bool) (cacheSize : Z) : res Tree :=
  let t := mkTree (version s) 0 None (Some s) (NewCache cacheSize) zeroCopy in
  if IsEmpty s then Ok t
  else
    let* p := RootNode s in
    let* n := of_option "slice bounds out of range" (load depth s p) in
    Ok (with_root t (Some (Persisted n))).

Definition SetZeroCopy (t : Tree) (z : bool) : Tree :=
  mkTree (t_version t) (t_cowVersion t) (t_root t) (t_snapshot t) (t_cache t) z.

Definition TreeIsEmpty (t : Tree) : bool := match t_root t with None => true | Some _ => false end.

Definition setInitialVersion (t : Tree) (initialVersion : Z) : Tree :=
  if 0 <? t_version t then t
  else if initialVersion <? 1 then with_version t 0
  else with_version t (initialVersion - 1).

Definition SetInitialVersion (t : Tree) (initialVersion : Z) : res Tree :=
  if MaxUint32 <=? initialVersion then Err "version overflows uint32"
  else Ok (setInitialVersion t (u32 initialVersion)).

(** [Copy] returns the source, whose [cowVersion] may change, and the copy. *)
Definition Copy (t : Tree) (cacheSize : Z) : Tree * Tree :=
  let t' := match t_root t with
            | Some (Mem _) => mkTree (t_version t) (t_version t) (t_root t) (t_snapshot t) (t_cache t) (t_zeroCopy t)
            | _ => t
            end in
  (t', with_cache t' (NewCache cacheSize)).

(** A nil value is stored as the empty slice. *)
Definition normalize (value : slice) : slice := Some (default [] value).

Definition set (h : heap) (t : Tree) (key : bytes) (value : slice) : option (Tree * heap) :=
  let value := normalize value in
  let? (l, _, h) := setRecursive depth h (t_root t) key value (u32 (t_version t + 1)) (t_cowVersion t) in
  let t := with_root t (Some (Mem l)) in
  Some (with_cache t ((fun c => c_add c key value) <$> t_cache t), h).

Definition remove (h : heap) (t : Tree) (key : bytes) : option (Tree * heap) :=
  let? (_, r, _, h) := removeRecursive depth h (t_root t) key (u32 (t_version t + 1)) (t_cowVersion t) in
  let t := with_root t r in
  Some (with_cache t ((fun c => c_remove c key) <$> t_cache t), h).

Definition apply_pair (h : heap) (t : Tree) (p : KVPair) : option (Tree * heap) :=
  if p_delete p then remove h t (p_key p) else set h t (p_key p) (p_value p).

Fixpoint ApplyChangeSet (h : heap) (t : Tree) (cs : ChangeSet) : option (Tree * heap) :=
  match cs with
  | [] => Some (t, h)
  | p :: cs => let? (t, h) := apply_pair h t p in ApplyChangeSet h t cs
  end.

Definition RootHash (h : heap) (t : Tree) : option (bytes * heap) :=
  match t_root t with
  | None => Some (emptyHash sha256, h)
  | Some r => memHash sha256 depth h r
  end.

Definition checkVersionOverflow (t : Tree) : res unit :=
  if t_version t =? MaxUint32 then Err "version overflows uint32" else Ok tt.

Definition SaveVersion (h : heap) (t : Tree) (updateHash : bool) : res (slice * Z * Tree * heap) :=
  let* _ := checkVersionOverflow t in
  let* (hash, h) :=
    (if updateHash then
       let* (b, h) := of_option "nil pointer dereference" (RootHash h t) in Ok (Some b, h)
     else Ok (None, h)) in
  let v := u32 (t_version t + 1) in
  Ok (hash, v, with_version t v, h).

Definition GetWithIndex (h : heap) (t : Tree) (key : bytes) : option (Z * slice) :=
  match t_root t with
  | None => Some (0, None)
  | Some r => let? (value, index) := memGet depth h r key in Some (index, value)
  end.

Definition TreeGetByIndex (h : heap) (t : Tree) (index : Z) : option (option (bytes * slice)) :=
  if MaxUint32 <? index then Some None
  else match t_root t with
       | None => Some None
       | Some r => memGetByIndex depth h r (u32 index)
       end.

(** [Get] looks in the cache first and caches what it found. *)
Definition TreeGet (h : heap) (t : Tree) (key : bytes) : option (slice * Tree) :=
  let '(hit, t) :=
    match t_cache t with
    | None => (None, t)
    | Some c => let '(o, c) := c_get c key in (o, with_cache t (Some c))
    end in
  match hit with
  | Some value => Some (value, t)
  | None =>
      let? (_, value) := GetWithIndex h t key in
      match value with
      | None => Some (None, t)
      | Some _ => Some (value, with_cache t ((fun c => c_add c key value) <$> t_cache t))
      end
  end.

Definition Has (h : heap) (t : Tree) (key : bytes) : option (bool * Tree) :=
  let? (value, t) := TreeGet h t key in
  Some (match value with None => false | Some _ => true end, t).

(** A version of the tree: the change set, then [SaveVersion]. *)
Definition commit (h : heap) (t : Tree) (cs : ChangeSet) : option (bytes * Tree * heap) :=
  let? (t, h) := ApplyChangeSet h t cs in
  match SaveVersion h t true with
  | Ok (Some hash, _, t, h) => Some (hash, t, h)
  | _ => None
  end.

Definition TreeClose (t : Tree) : Tree :=
  mkTree (t_version t) (t_cowVersion t) None None (t_cache t) (t_zeroCopy t).
End Tree.
Arguments Tree : clear implicits.
