(* ===== verification/TreeSpec.v ===== *)
(** What the operations of [Tree.v] promise.

    [tree_ok h t o F]: in store [h] the tree [t] holds the tree value [o] (nil
    when empty) and owns the locations [F].  Every operation keeps it, and the
    value changes as [pure_apply] says, which on the leaves is the ordered map
    of [OrdMap.v]. *)
From stdpp Require Import prelude strings gmap fin_maps.
From Stdlib Require Import ZArith Lia.
From S2P Require Import Prelude OrdMap Codec Node Hash Heap HeapRefine HeapRead Cache Persisted Snapshot Tree.
Local Open Scope Z_scope.

(** ** The abstract state *)

Definition pure_pair (o : option Node) (ver : Z) (p : KVPair) : option Node :=
  if p_delete p then (Node.removeRecursive o (p_key p) ver).1.2
  else Some (Node.setRecursive o (p_key p) (normalize (p_value p)) ver).1.
Definition pure_apply (o : option Node) (ver : Z) (cs : ChangeSet) : option Node :=
  fold_left (fun o p => pure_pair o ver p) cs o.

(** The effect of a change set on the ordered map. *)
Definition map_pair (m : pairs) (p : KVPair) : pairs :=
  if p_delete p then assoc_del (p_key p) m else assoc_set (p_key p) (normalize (p_value p)) m.
Definition map_apply (m : pairs) (cs : ChangeSet) : pairs := fold_left map_pair cs m.

Lemma len_map_apply cs : forall m, len (map_apply m cs) <= len m + len cs.
Proof.
  induction cs as [|p cs IH]; intros m; simpl; [llia|]. specialize (IH (map_pair m p)).
  rewrite len_cons. unfold map_apply in *. simpl. unfold map_pair in *.
  pose proof (len_assoc_del (p_key p) m). pose proof (len_assoc_set (p_key p) (normalize (p_value p)) m).
  destruct (p_delete p); lia.
Qed.

(** The invariant of the tree value. *)
Record value_ok (o : option Node) (v : Z) : Prop := {
  vo_wf : root_wf o;
  vo_values : values_ok (root_list o);
  vo_versions : from_option (versions_le v) True o;
}.

Lemma value_ok_pair o v p :
  value_ok o v -> len (root_list o) + 1 < max_leaves ->
  value_ok (pure_pair o v p) v /\ root_list (pure_pair o v p) = map_pair (root_list o) p /\
  len (root_list (pure_pair o v p)) <= len (root_list o) + 1.
Proof.
  intros [W V Vs] Hs. unfold pure_pair, map_pair. destruct (p_delete p).
  - pose proof (removeRecursive_ok o (p_key p) v W ltac:(lia) V) as H.
    assert (from_option (versions_le v) True (Node.removeRecursive o (p_key p) v).1.2) as Vn.
    { destruct o; simpl in *; [by apply removeNode_versions|done]. }
    destruct (Node.removeRecursive o (p_key p) v) as [[w o'] nk]. destruct H as (W' & E & _). simpl in *.
    split_and!; [|done|rewrite E; pose proof (len_assoc_del (p_key p) (root_list o)); lia].
    constructor; [done| |done]. rewrite E. by apply Forall_assoc_del.
  - pose proof (setRecursive_ok o (p_key p) (normalize (p_value p)) v W Hs) as H.
    assert (versions_le v (Node.setRecursive o (p_key p) (normalize (p_value p)) v).1) as Vn.
    { destruct o; simpl in *; [by apply setNode_versions|lia]. }
    destruct (Node.setRecursive o (p_key p) (normalize (p_value p)) v) as [n' u].
    destruct H as (W' & E & _). simpl in *.
    split_and!; [|done|rewrite E; pose proof (len_assoc_set (p_key p) (normalize (p_value p)) (root_list o)); lia].
    constructor; [done| |done]. simpl. rewrite E. apply Forall_assoc_set; [by eexists|done].
Qed.

Lemma value_ok_apply cs : forall o v,
  value_ok o v -> len (root_list o) + len cs < max_leaves ->
  value_ok (pure_apply o v cs) v /\ root_list (pure_apply o v cs) = map_apply (root_list o) cs.
Proof.
  induction cs as [|p cs IH]; intros o v Ho Hs; [done|]. rewrite len_cons in Hs.
  destruct (value_ok_pair o v p Ho) as (Hp & E & Hl); [llia|].
  destruct (IH (pure_pair o v p) v Hp) as [H1 H2]; [lia|].
  split; [done|]. simpl. rewrite <- E. done.
Qed.

Lemma search_root_sorted o : root_wf o -> keys_sorted (root_list o).
Proof. destruct o as [n|]; simpl; [intros (_ & _ & S); by apply search_tree_sorted|constructor]. Qed.

Lemma remove_nil h key ver cow : Heap.removeRecursive depth h None key ver cow = Some (None, None, None, h).
Proof. destruct depth eqn:E; [by pose proof depth_eq; rewrite E in *|done]. Qed.

Lemma set_nil sha256 h key value ver cow : cow < ver ->
  exists l h' F' u, Heap.setRecursive depth h None key value ver cow = Some (l, u, h') /\
    extends h h' ∅ F' /\ repr sha256 cow h' (Mem l) (Leaf ver key value) F'.
Proof.
  intros Hv. destruct depth eqn:E; [by pose proof depth_eq; rewrite E in *|]. simpl.
  set (l := fresh (dom h)).
  destruct (leaf_at sha256 cow ver Hv h l ∅ key value None None) as [R X].
  { right. apply not_elem_of_dom, is_fresh. }
  by eexists _, _, _, _.
Qed.

Section Spec.
Context {C : Type} `{!Cache C, !CacheLaws C} (sha256 : bytes -> bytes).
Local Abbreviation Tree := (Tree C).

(** A cached value is the value of the map. *)
Definition coherent (c : option (sharedCache C)) (m : pairs) : Prop :=
  forall c' k v, c = Some c' -> contents c' k = Some v -> assoc_get k m = v /\ is_Some v.

Record tree_ok (h : heap) (t : Tree) (o : option Node) (F : gset loc) : Prop := {
  ok_repr : repr_opt sha256 (t_cowVersion t) h (t_root t) o F;
  ok_value : value_ok o (t_version t + 1);
  ok_cow : 0 <= t_cowVersion t <= t_version t;
  ok_version : t_version t < 2 ^ 32;
  ok_cache : coherent (t_cache t) (root_list o);
}.

Lemma coherent_new n m : coherent (NewCache n) m.
Proof.
  intros c k v. unfold NewCache. destruct (n =? 0); [done|]. intros [= <-] H.
  pose proof (law_new (C := sharedCache C) n k) as E. simpl in *. congruence.
Qed.

Lemma coherent_remove c m k :
  coherent c m -> coherent ((fun c => c_remove c k) <$> c) (assoc_del k m).
Proof.
  intros Hc c' x v Ec Hx. destruct c as [c|]; [|done]. injection Ec as <-.
  destruct (law_remove (C := sharedCache C) c k x v Hx) as [Hn Hx'].
  rewrite assoc_get_del, decide_False by done. by apply Hc with c.
Qed.

Lemma coherent_add c m k v :
  coherent c m -> keys_sorted m -> is_Some v ->
  coherent ((fun c => c_add c k v) <$> c) (assoc_set k v m).
Proof.
  intros Hc Hs Hv c' x w Ec Hx. destruct c as [c|]; [|done]. injection Ec as <-.
  rewrite assoc_get_set by done.
  destruct (law_add (C := sharedCache C) c k v x w Hx) as [[-> ->]|[Hn Hx']]; [by rewrite decide_True|].
  rewrite decide_False by done. by apply Hc with c.
Qed.

(** Caching a value that was read. *)
Lemma coherent_read c m k v :
  coherent c m -> assoc_get k m = v -> is_Some v ->
  coherent ((fun c => c_add c k v) <$> c) m.
Proof.
  intros Hc Hs Hv c' x w Ec Hx. destruct c as [c|]; [|done]. injection Ec as <-.
  destruct (law_add (C := sharedCache C) c k v x w Hx) as [[-> ->]|[Hn Hx']]; [done|]. by apply Hc with c.
Qed.

Lemma value_ok_height o v : value_ok o v -> len (root_list o) < max_leaves ->
  from_option (fun n => avl n /\ Height n < Z.of_nat depth) True o.
Proof.
  intros [W _ _] Hs. destruct o as [n|]; [|done]. simpl in *. destruct W as (A & _).
  split; [done|]. pose proof (avl_height_bound n A Hs). rewrite depth_eq. lia.
Qed.

(** One change of a change set. *)
Lemma apply_pair_ok h t o F p :
  tree_ok h t o F -> t_version t < MaxUint32 -> len (root_list o) + 1 < max_leaves ->
  exists t' h' F', apply_pair h t p = Some (t', h') /\
    tree_ok h' t' (pure_pair o (t_version t + 1) p) F' /\ extends h h' F F' /\
    t_version t' = t_version t /\ t_cowVersion t' = t_cowVersion t.
Proof.
  intros [R V Hc Hv Hk] Hmax Hs. unfold MaxUint32 in Hmax.
  destruct (value_ok_pair o (t_version t + 1) p V Hs) as (Vp & Ep & _).
  pose proof (value_ok_height _ _ V ltac:(lia)) as HA.
  pose proof (search_root_sorted o (vo_wf _ _ V)) as Hsort.
  unfold apply_pair, pure_pair in *. destruct (p_delete p) eqn:Ed.
  - unfold map_pair in Ep. rewrite Ed in Ep. unfold remove. rewrite u32_small by lia.
    assert (exists r' h' F' w nk, Heap.removeRecursive depth h (t_root t) (p_key p) (t_version t + 1) (t_cowVersion t)
      = Some (w, r', nk, h') /\ extends h h' F F' /\
      repr_opt sha256 (t_cowVersion t) h' r' (Node.removeRecursive o (p_key p) (t_version t + 1)).1.2 F')
      as (r' & h' & F' & w & nk & -> & E & R').
    { unfold repr_opt in R. destruct (t_root t) as [r|], o as [n|]; try done.
      - destruct V as [W Va Vs].
        destruct (remove_refines sha256 (t_cowVersion t) (t_version t + 1) ltac:(lia) n h r F depth (p_key p) R W)
          as (o' & h' & F' & -> & Ro & E & _); try done; [unfold small, root_list in *; simpl in Hs; lia|apply HA|].
        by eexists _, _, _, _, _.
      - subst F. eexists _, _, ∅, _, _. split; [apply remove_nil|]. split; [apply extends_refl|done]. }
    cbn [mbind option_bind]. eexists _, _, F'. split; [done|]. split; [|done].
    constructor; try done. rewrite Ep. by apply coherent_remove.
  - unfold map_pair in Ep. rewrite Ed in Ep. unfold set. rewrite u32_small by lia.
    assert (exists l h' F' u, Heap.setRecursive depth h (t_root t) (p_key p) (normalize (p_value p))
        (t_version t + 1) (t_cowVersion t) = Some (l, u, h') /\ extends h h' F F' /\
      repr sha256 (t_cowVersion t) h' (Mem l)
        (Node.setRecursive o (p_key p) (normalize (p_value p)) (t_version t + 1)).1 F')
      as (l & h' & F' & u & -> & E & R').
    { unfold repr_opt in R. destruct (t_root t) as [r|], o as [n|]; try done.
      - destruct V as [W Va Vs].
        destruct (set_refines sha256 (t_cowVersion t) (t_version t + 1) ltac:(lia) n h r F depth (p_key p)
          (normalize (p_value p)) R W) as (l & h' & F' & -> & Rl & E); [done|apply HA|].
        by eexists _, _, _, _.
      - subst F. apply set_nil. lia. }
    cbn [mbind option_bind]. eexists _, _, F'. split; [done|]. split; [|done].
    constructor; try done. rewrite Ep. by apply coherent_add; [| |by eexists].
Qed.

(** A whole change set. *)
Lemma ApplyChangeSet_ok cs : forall h t o F,
  tree_ok h t o F -> t_version t < MaxUint32 -> len (root_list o) + len cs < max_leaves ->
  exists t' h' F', ApplyChangeSet h t cs = Some (t', h') /\
    tree_ok h' t' (pure_apply o (t_version t + 1) cs) F' /\ extends h h' F F' /\
    t_version t' = t_version t /\ t_cowVersion t' = t_cowVersion t.
Proof.
  induction cs as [|p cs IH]; intros h t o F Ho Hv Hs.
  - exists t, h, F. split_and!; try done. apply extends_refl.
  - rewrite len_cons in Hs.
    destruct (apply_pair_ok h t o F p Ho Hv) as (t1 & h1 & F1 & E1 & O1 & X1 & V1 & C1); [llia|].
    destruct (value_ok_pair o (t_version t + 1) p (ok_value _ _ _ _ Ho)) as (_ & _ & Hl); [llia|].
    destruct (IH h1 t1 _ F1 O1) as (t2 & h2 & F2 & E2 & O2 & X2 & V2 & C2); [congruence|lia|].
    cbn [ApplyChangeSet]. rewrite E1. cbn [mbind option_bind]. rewrite V1 in *.
    eexists _, _, _. split; [exact E2|]. split; [exact O2|].
    split_and!; [by eapply extends_trans|congruence..].
Qed.

Lemma repr_opt_hashed cow cow' h h' r o F :
  hashed sha256 cow h h' -> repr_opt sha256 cow' h r o F -> repr_opt sha256 cow' h' r o F.
Proof. intros Hh. destruct r, o; simpl; try done. by apply (hashed_repr sha256 cow). Qed.

Lemma tree_ok_hashed cow h h' t o F :
  hashed sha256 cow h h' -> tree_ok h t o F -> tree_ok h' t o F.
Proof. intros Hh [R V Hc Hv Hk]. constructor; try done. by apply (repr_opt_hashed cow _ h h'). Qed.

(** Reads of the tree, without the cache. *)
Lemma GetWithIndex_ok h t o F key :
  tree_ok h t o F -> len (root_list o) < 2 ^ 32 ->
  GetWithIndex h t key = Some (assoc_rank key (root_list o), assoc_get key (root_list o)).
Proof.
  intros [R V Hc Hv Hk] Hs. pose proof (value_ok_height _ _ V) as HA. unfold GetWithIndex.
  unfold repr_opt in R. destruct (t_root t) as [r|], o as [n|]; try done. simpl in *.
  destruct HA as [A Hd]; [unfold max_leaves; lia|].
  rewrite (memGet_ok _ _ _ _ _ _ _ _ R A Hd). cbn [mbind option_bind].
  rewrite Get_ok by (try done; apply V). done.
Qed.

Lemma TreeGetByIndex_ok h t o F i :
  tree_ok h t o F -> len (root_list o) < 2 ^ 32 -> 0 <= i ->
  TreeGetByIndex h t i = Some (root_list o !! Z.to_nat i).
Proof.
  intros [R V Hc Hv Hk] Hs Hi. pose proof (value_ok_height _ _ V) as HA. unfold TreeGetByIndex.
  destruct (Z.ltb_spec MaxUint32 i) as [Hi'|Hi']; unfold MaxUint32 in *.
  { rewrite lookup_ge_None_2; [done|]. unfold len in Hs. lia. }
  unfold repr_opt in R. destruct (t_root t) as [r|], o as [n|]; try done. simpl in *.
  destruct HA as [A Hd]; [unfold max_leaves; lia|].
  rewrite (memGetByIndex_ok _ _ _ _ _ _ _ _ R A Hd), u32_small by lia.
  destruct V as [(_ & Sz & _) _ _]. rewrite GetByIndex_ok by (try done; lia). done.
Qed.

(** [Get], through the cache, returns the value of the map and keeps the tree. *)
Lemma TreeGet_ok h t o F key :
  tree_ok h t o F -> len (root_list o) < 2 ^ 32 ->
  exists t', TreeGet h t key = Some (assoc_get key (root_list o), t') /\ tree_ok h t' o F /\
    t_version t' = t_version t /\ t_cowVersion t' = t_cowVersion t.
Proof.
  intros Ho Hs. unfold TreeGet.
  assert (exists hit t1, match t_cache t with
      | None => (None, t)
      | Some c => let '(o, c) := c_get c key in (o, with_cache t (Some c))
      end = (hit, t1) /\ tree_ok h t1 o F /\ t_version t1 = t_version t /\
      t_cowVersion t1 = t_cowVersion t /\ (forall v, hit = Some v -> assoc_get key (root_list o) = v))
    as (hit & t1 & -> & O1 & V1 & C1 & Hhit).
  { destruct Ho as [R V Hc Hv Hk]. destruct (t_cache t) as [c|] eqn:Ec.
    - pose proof (law_get (C := sharedCache C) c key) as Hg.
      pose proof (law_get_keep (C := sharedCache C) c key) as Hp.
      destruct (c_get c key) as [hit c1]. eexists _, _. split; [done|].
      split_and!; try done.
      + constructor; try done. intros c' k v [= <-] Hx. apply (Hk c k v eq_refl). by apply Hp.
      + intros v ->. by apply (Hk c key v).
    - eexists _, t. split; [done|]. split_and!; try done. constructor; try done. by rewrite Ec. }
  destruct hit as [v|]; [rewrite (Hhit v eq_refl); by exists t1|].
  rewrite (GetWithIndex_ok h t1 o F) by done. cbn [mbind option_bind].
  destruct (assoc_get key (root_list o)) as [v|] eqn:Ev; [|by exists t1].
  eexists. split; [done|]. split; [|done]. destruct O1 as [R V Hc Hv Hk]. constructor; try done.
  by apply coherent_read.
Qed.

Lemma RootHash_ok h t o F :
  tree_ok h t o F -> len (root_list o) < max_leaves ->
  exists h', RootHash sha256 h t = Some (rootHash sha256 o, h') /\
    hashed sha256 (t_cowVersion t) h h'.
Proof.
  intros [R V Hc Hv Hk] Hs. pose proof (value_ok_height _ _ V Hs) as HA. unfold RootHash.
  unfold repr_opt in R. destruct (t_root t) as [r|], o as [n|]; try done; simpl in *.
  - destruct HA as [A Hd]. by apply (memHash_ok _ _ _ _ _ _ _ R).
  - exists h. split; [done|]. apply hashed_refl.
Qed.

Lemma value_ok_mono o v v' : value_ok o v -> v <= v' -> value_ok o v'.
Proof.
  intros [W V Vs] Hv. constructor; try done. destruct o; simpl in *; [|done].
  by eapply versions_le_mono.
Qed.

Lemma SaveVersion_ok h t o F :
  tree_ok h t o F -> len (root_list o) < max_leaves -> t_version t < MaxUint32 ->
  exists h', SaveVersion sha256 h t true =
      Ok (Some (rootHash sha256 o), t_version t + 1, with_version t (t_version t + 1), h') /\
    hashed sha256 (t_cowVersion t) h h' /\
    tree_ok h' (with_version t (t_version t + 1)) o F /\ value_ok o (t_version t + 1).
Proof.
  intros Ho Hs Hv. destruct (RootHash_ok h t o F Ho Hs) as (h' & E & Hh).
  unfold SaveVersion, checkVersionOverflow. unfold MaxUint32 in *.
  destruct (Z.eqb_spec (t_version t) (2 ^ 32 - 1)); [lia|]. cbn [res_bind]. rewrite E.
  cbn [of_option res_bind]. pose proof (ok_cow _ _ _ _ Ho). rewrite u32_small by lia.
  exists h'. split; [done|]. split; [done|].
  apply (tree_ok_hashed _ _ _ _ _ _ Hh) in Ho. destruct Ho as [R V Hc Hv' Hk].
  split; [|done]. constructor; simpl; try done; try lia. eapply value_ok_mono; [done|]. simpl. lia.
Qed.

(** ** Versions and copies *)

Lemma commit_ok h t o F cs :
  tree_ok h t o F -> t_version t < MaxUint32 -> len (root_list o) + len cs < max_leaves ->
  exists t' h1 h' F', let o' := pure_apply o (t_version t + 1) cs in
    commit sha256 h t cs = Some (rootHash sha256 o', t', h') /\ tree_ok h' t' o' F' /\
    extends h h1 F F' /\ hashed sha256 (t_cowVersion t) h1 h' /\
    t_version t' = t_version t + 1 /\ t_cowVersion t' = t_cowVersion t /\
    value_ok o' (t_version t').
Proof.
  intros Ho Hv Hs. destruct (ApplyChangeSet_ok cs h t o F Ho Hv Hs) as (t1 & h1 & F1 & E1 & O1 & X1 & V1 & C1).
  destruct (value_ok_apply cs o (t_version t + 1) (ok_value _ _ _ _ Ho) Hs) as [V2 L2].
  assert (Hl : len (root_list (pure_apply o (t_version t + 1) cs)) < max_leaves).
  { rewrite L2. pose proof (len_map_apply cs (root_list o)). lia. }
  destruct (SaveVersion_ok h1 t1 _ F1 O1 Hl ltac:(congruence)) as (h2 & E2 & H2 & O2 & _).
  unfold commit. rewrite E1. cbn [mbind option_bind]. rewrite E2, V1 in *. rewrite C1 in H2.
  eexists _, h1, h2, F1. split; [done|]. split; [exact O2|]. done.
Qed.

Lemma repr_freeze cow v h r n F :
  repr sha256 cow h r n F -> versions_le v n -> repr sha256 v h r n ∅.
Proof.
  induction 1 as [n|l m Hl Hh Hz Hk|l m rl rr nl nr Fl Fr Hl Hh El Er Rl IHl Rr IHr D N1 N2 Hf Hk];
    simpl; intros V.
  - constructor.
  - replace ∅ with (own v l m ∅) by (unfold own; by rewrite decide_True). by constructor.
  - destruct V as (V0 & Vl & Vr).
    replace ∅ with (own v l m (∅ ∪ ∅)) by (unfold own; by rewrite decide_True).
    econstructor; eauto; set_solver.
Qed.

(** Copying a tree without uncommitted changes freezes every node. *)
Lemma Copy_ok h t o F n :
  tree_ok h t o F -> value_ok o (t_version t) ->
  tree_ok h (Copy t n).1 o ∅ /\ tree_ok h (Copy t n).2 o ∅ /\
  t_cowVersion (Copy t n).1 = t_cowVersion (Copy t n).2 /\
  t_version (Copy t n).1 = t_version t /\ t_version (Copy t n).2 = t_version t.
Proof.
  intros [R V Hc Hv Hk] V'. unfold Copy. unfold repr_opt in R.
  destruct (t_root t) as [[l|p]|] eqn:Er, o as [x|]; try done; simpl.
  - pose proof (repr_freeze _ (t_version t) _ _ _ _ R (vo_versions _ _ V')).
    split_and!; try done; constructor; simpl; try done; try lia. by apply coherent_new.
  - inversion R; subst.
    split_and!; try done; constructor; simpl; try rewrite Er; try done. by apply coherent_new.
  - subst F. split_and!; try done; constructor; simpl; try rewrite Er; try done. by apply coherent_new.
Qed.

Lemma repr_opt_writable cow h r o F x : repr_opt sha256 cow h r o F -> x ∈ F -> writable cow h x.
Proof. destruct r, o; simpl; try done; [apply repr_writable|intros ->; set_solver]. Qed.

(** An operation on one tree leaves a tree that shares only frozen nodes alone. *)
Lemma tree_frame h h1 h' ta oa FA FA' tb ob FB :
  tree_ok h ta oa FA -> tree_ok h tb ob FB -> t_cowVersion ta = t_cowVersion tb -> FA ## FB ->
  extends h h1 FA FA' -> hashed sha256 (t_cowVersion ta) h1 h' ->
  tree_ok h' tb ob FB /\ FA' ## FB.
Proof.
  intros Oa Ob Ec D E Hh. split.
  - apply (tree_ok_hashed _ _ _ _ _ _ Hh). destruct Ob as [R V Hc Hv Hk]. constructor; try done.
    unfold repr_opt in *. destruct (t_root tb), ob; try done.
    apply (repr_frame _ _ h h1 _ _ _ FA FA'); [done| |done|done].
    intros x Hx. rewrite <- Ec. by apply (repr_opt_writable _ _ _ _ _ _ (ok_repr _ _ _ _ Oa)).
  - intros x Hx Hy. destruct (ext_own _ _ _ _ E x Hx) as [?|Hn]; [set_solver|].
    pose proof (ok_repr _ _ _ _ Ob) as R. unfold repr_opt in R. destruct (t_root tb), ob; try done.
    + destruct (repr_owned _ _ _ _ _ _ _ R Hy) as (m & ? & _). congruence.
    + set_solver.
Qed.

(** A schedule of commits on the source ([true]) and on its copy ([false]). *)
Fixpoint run2 (h : heap) (ta tb : Tree) (script : list (bool * ChangeSet))
  : option (Tree * Tree * heap) :=
  match script with
  | [] => Some (ta, tb, h)
  | (true, cs) :: script => let? (_, ta, h) := commit sha256 h ta cs in run2 h ta tb script
  | (false, cs) :: script => let? (_, tb, h) := commit sha256 h tb cs in run2 h ta tb script
  end.

(** What one tree does on its own. *)
Fixpoint run1 (o : option Node) (v : Z) (side : bool) (script : list (bool * ChangeSet)) : option Node :=
  match script with
  | [] => o
  | (b, cs) :: script =>
      if Bool.eqb b side then run1 (pure_apply o (v + 1) cs) (v + 1) side script
      else run1 o v side script
  end.

Definition script_size (script : list (bool * ChangeSet)) : Z :=
  foldr (fun s n => len s.2 + n) 0 script.

Lemma script_size_nonneg script : 0 <= script_size script.
Proof. induction script as [|[b cs] script IH]; simpl; llia. Qed.

Lemma pure_apply_len cs o v :
  value_ok o v -> len (root_list o) + len cs < max_leaves ->
  len (root_list (pure_apply o v cs)) <= len (root_list o) + len cs.
Proof.
  intros V Hs. rewrite (proj2 (value_ok_apply cs o v V Hs)). apply len_map_apply.
Qed.

Lemma run2_ok script : forall h ta tb oa ob FA FB,
  tree_ok h ta oa FA -> tree_ok h tb ob FB -> t_cowVersion ta = t_cowVersion tb -> FA ## FB ->
  t_version ta + len script <= MaxUint32 -> t_version tb + len script <= MaxUint32 ->
  len (root_list oa) + script_size script < max_leaves ->
  len (root_list ob) + script_size script < max_leaves ->
  exists ta' tb' h' FA' FB', run2 h ta tb script = Some (ta', tb', h') /\
    tree_ok h' ta' (run1 oa (t_version ta) true script) FA' /\
    tree_ok h' tb' (run1 ob (t_version tb) false script) FB'.
Proof.
  induction script as [|[b cs] script IH]; intros h ta tb oa ob FA FB Oa Ob Ec D Va Vb Sa Sb.
  { eexists _, _, _, _, _. done. }
  rewrite len_cons in Va, Vb. simpl in Sa, Sb. pose proof (script_size_nonneg script).
  pose proof (len_nonneg cs). pose proof (len_nonneg script). destruct b; cbn [run2 run1 Bool.eqb].
  - destruct (commit_ok h ta oa FA cs Oa ltac:(lia) ltac:(lia))
      as (ta1 & h1 & h2 & F1 & -> & O1 & X1 & HH & V1 & C1 & _). cbn [mbind option_bind].
    destruct (tree_frame _ _ _ _ _ _ _ _ _ _ Oa Ob Ec D X1 HH) as [Ob1 D1].
    pose proof (pure_apply_len cs oa _ (ok_value _ _ _ _ Oa) ltac:(lia)).
    rewrite <- V1 in *. apply (IH h2 ta1 tb _ ob F1 FB); try done; try lia; congruence.
  - destruct (commit_ok h tb ob FB cs Ob ltac:(lia) ltac:(lia))
      as (tb1 & h1 & h2 & F1 & -> & O1 & X1 & HH & V1 & C1 & _). cbn [mbind option_bind].
    destruct (tree_frame _ _ _ _ _ _ _ _ _ _ Ob Oa (eq_sym Ec) ltac:(set_solver) X1 HH) as [Oa1 D1].
    pose proof (pure_apply_len cs ob _ (ok_value _ _ _ _ Ob) ltac:(lia)).
    rewrite <- V1 in *. apply (IH h2 ta tb1 oa _ FA F1); try done; try lia; try congruence; set_solver.
Qed.

(** ** Trees that start empty or from a snapshot *)

Lemma NewEmptyTree_ok h v n :
  0 <= v < MaxUint32 ->
  exists t, NewEmptyTree v n = Ok t /\ t_version t = v /\ tree_ok h t None ∅.
Proof.
  intros Hv. unfold NewEmptyTree, MaxUint32 in *. destruct (Z.leb_spec (2 ^ 32 - 1) v); [lia|].
  eexists. split; [done|]. simpl. rewrite u32_small by lia. split; [done|].
  constructor; cbn [t_version t_cowVersion t_root t_cache]; [done|split; [done|constructor|done]|lia|lia|apply coherent_new].
Qed.

Lemma NewFromSnapshot_ok h s n o z c :
  version s < MaxUint32 -> 0 <= version s -> value_ok (Some n) (version s) ->
  len (to_list n) < max_leaves -> o = Some n ->
  (exists p, root s = Some p /\ presents sha256 s p n) ->
  exists t, NewFromSnapshot s z c = Ok t /\ t_version t = version s /\ tree_ok h t o ∅.
Proof.
  intros Hv Hv0 V Hs -> (p & Ep & P). unfold NewFromSnapshot, IsEmpty, RootNode. rewrite Ep. cbn [res_bind].
  destruct (value_ok_height _ _ V Hs) as [A Hd].
  rewrite (presents_load sha256 s n p depth P A Hd). cbn [of_option res_bind].
  eexists. split; [done|]. simpl. split; [done|]. unfold MaxUint32 in Hv.
  constructor; cbn [t_version t_cowVersion t_root t_cache with_root];
    [constructor|eapply value_ok_mono; [done|lia]|lia|lia|apply coherent_new].
Qed.
End Spec.

(** ** Properties *)

Section Claims.
Context {C : Type} `{!Cache C, !CacheLaws C} (sha256 : bytes -> bytes).

(** C1: Applying a change set to a tree and saving the version succeeds,
    acts on the ordered map of the tree as the pairs in their order say,
    returns the Merkle hash of the new tree and the next version, and keeps
    the invariant, cache coherence included. *)
Theorem tree_commit_ordered_map (h : heap) (t : Tree C) (o : option Node) (F : gset loc) (cs : ChangeSet)
  (Ho : tree_ok sha256 h t o F) (Hv : t_version t < MaxUint32)
  (Hs : len (root_list o) + len cs < max_leaves) :
  exists t' h' o' F', commit sha256 h t cs = Some (rootHash sha256 o', t', h') /\
    root_list o' = map_apply (root_list o) cs /\ tree_ok sha256 h' t' o' F' /\
    t_version t' = t_version t + 1.
Proof.
  destruct (commit_ok sha256 h t o F cs Ho Hv Hs) as (t' & h1 & h' & F' & E & O & _ & _ & V & _).
  eexists t', h', _, F'. split; [exact E|]. split; [|done].
  apply (value_ok_apply cs o _ (ok_value _ _ _ _ _ Ho) Hs).
Qed.

(** [Get] answers with the value the ordered map has for the key, from
    the cache or from the tree, nil for an absent key, and leaves a tree
    with the same contents. *)
Theorem tree_get_from_map (h : heap) (t : Tree C) (o : option Node) (F : gset loc) (key : bytes)
  (Ho : tree_ok sha256 h t o F) (Hs : len (root_list o) < 2 ^ 32) :
  exists t', TreeGet h t key = Some (assoc_get key (root_list o), t') /\ tree_ok sha256 h t' o F.
Proof. destruct (TreeGet_ok sha256 h t o F key Ho Hs) as (t' & E & O & _). by exists t'. Qed.

(** C2: [Copy] of a tree without uncommitted changes isolates the copy from
    its source: under every interleaving of commits on the two, which share
    their nodes in the store, each of the two behaves as it would alone. *)
Theorem tree_copy_isolated (h : heap) (t : Tree C) (o : option Node) (F : gset loc) (cacheSize : Z)
  (script : list (bool * ChangeSet))
  (Ho : tree_ok sha256 h t o F) (Hclean : value_ok o (t_version t))
  (Hv : t_version t + len script <= MaxUint32)
  (Hs : len (root_list o) + script_size script < max_leaves) :
  exists ta tb h' FA FB,
    run2 sha256 h (Copy t cacheSize).1 (Copy t cacheSize).2 script = Some (ta, tb, h') /\
    tree_ok sha256 h' ta (run1 o (t_version t) true script) FA /\
    tree_ok sha256 h' tb (run1 o (t_version t) false script) FB.
Proof.
  destruct (Copy_ok sha256 h t o F cacheSize Ho Hclean) as (O1 & O2 & Ec & V1 & V2).
  destruct (run2_ok sha256 script h _ _ o o ∅ ∅ O1 O2 Ec) as (ta & tb & h' & FA & FB & E & Oa & Ob);
    try done; try congruence.
  rewrite V1 in Oa. rewrite V2 in Ob. by exists ta, tb, h', FA, FB.
Qed.
End Claims.

(** The tree of one committed leaf over the store [one_leaf]. *)
Definition one_leaf_tree : Tree ListCache := mkTree 1 0 (Some (Mem 1)) None None true.

Lemma one_leaf_tree_ok :
  tree_ok digest32 one_leaf one_leaf_tree (Some (Leaf 1 [z2b 1] (Some []))) {[1%positive]} /\
  value_ok (Some (Leaf 1 [z2b 1] (Some []))) 1.
Proof.
  assert (V : value_ok (Some (Leaf 1 [z2b 1] (Some []))) 1).
  { split; [done|by repeat constructor; eexists|done]. }
  split; [|done]. constructor; [|apply (value_ok_mono _ 1); [done|by vm_compute]|by vm_compute|by vm_compute|done].
  replace {[1%positive]} with (own 0 1 (mkMem 0 1 1 [z2b 1] (Some []) None None None) (∅ : gset loc)).
  2:{ unfold own. rewrite decide_False by by vm_compute. set_solver. }
  exact (repr_leaf digest32 0 one_leaf 1 (mkMem 0 1 1 [z2b 1] (Some []) None None None)
    eq_refl eq_refl eq_refl (or_introl eq_refl)).
Qed.

Lemma tree_commit_ordered_map_witness :
  exists t' h' o' F', commit digest32 one_leaf one_leaf_tree [mkKVPair false [z2b 2] None] =
      Some (rootHash digest32 o', t', h') /\
    root_list o' = [([z2b 1], Some []); ([z2b 2], Some [])] /\ tree_ok digest32 h' t' o' F' /\ t_version t' = 2.
Proof.
  exact (tree_commit_ordered_map digest32 one_leaf one_leaf_tree _ _ [mkKVPair false [z2b 2] None]
    (proj1 one_leaf_tree_ok) ltac:(vm_compute; done) ltac:(vm_compute; done)).
Defined.

Lemma tree_get_from_map_witness :
  exists t', TreeGet one_leaf one_leaf_tree [z2b 1] = Some (Some [], t') /\
    tree_ok digest32 one_leaf t' (Some (Leaf 1 [z2b 1] (Some []))) {[1%positive]}.
Proof.
  exact (tree_get_from_map digest32 one_leaf one_leaf_tree _ _ [z2b 1]
    (proj1 one_leaf_tree_ok) ltac:(vm_compute; done)).
Defined.

Lemma tree_copy_isolated_witness :
  exists ta tb h' FA FB,
    run2 digest32 one_leaf (Copy one_leaf_tree 0).1 (Copy one_leaf_tree 0).2
      [(true, [mkKVPair false [z2b 1] (Some [z2b 9])]); (false, [mkKVPair true [z2b 1] None])] = Some (ta, tb, h') /\
    tree_ok digest32 h' ta (Some (Leaf 2 [z2b 1] (Some [z2b 9]))) FA /\ tree_ok digest32 h' tb None FB.
Proof.
  exact (tree_copy_isolated digest32 one_leaf one_leaf_tree _ _ 0
    [(true, [mkKVPair false [z2b 1] (Some [z2b 9])]); (false, [mkKVPair true [z2b 1] None])]
    (proj1 one_leaf_tree_ok) (proj2 one_leaf_tree_ok) ltac:(vm_compute; done) ltac:(vm_compute; done)).
Defined.

(** [Copy] taken before the pending changes are saved is not isolated: the
    node written since the last version is newer than the copy-on-write
    version, so a later [set] on the source overwrites it in place and the
    copy answers with the new value. *)
Theorem dirty_copy_is_modified :
  exists t1 h1 t2 h2,
    set ∅ (mkTree 0 0 None None None true : Tree ListCache) [z2b 1] (Some [z2b 1]) = Some (t1, h1) /\
    let '(src, copy) := Copy t1 0 in
    fst <$> TreeGet h1 copy [z2b 1] = Some (Some [z2b 1]) /\
    set h1 src [z2b 1] (Some [z2b 2]) = Some (t2, h2) /\
    fst <$> TreeGet h2 copy [z2b 1] = Some (Some [z2b 2]).
Proof.
  eexists _, _, _, _. split; [vm_compute; reflexivity|]. cbn [Copy t_root].
  split; [vm_compute; reflexivity|]. split; [vm_compute; reflexivity|]. vm_compute. reflexivity.
Qed.
