(* ===== verification/Iterator.v ===== *)
(** Range iteration: [memiavl/iterator.go].

    The iterator keeps a stack of subtrees still to visit and prunes the ones
    outside the domain.  The theorem: the pairs an iterator hands out, from
    [NewIterator] until it is no longer valid, are exactly the pairs of the
    tree in [[start, end)], in ascending or descending order. *)
From stdpp Require Import prelude strings sorting.
From Stdlib Require Import ZArith Lia.
From S2P Require Import Prelude OrdMap Node.
Local Open Scope Z_scope.

Record Iterator : Type := mkIterator {
  start : slice;
  stop : slice;
  ascending : bool;
  zeroCopy : bool;
  key : slice;
  value : slice;
  keyCopy : slice;
  valueCopy : slice;
  valid : bool;
  stack : list Node;
}.

(** Go compares a nil slice as an empty one. *)
Definition Compare (a b : slice) : comparison := bytes_compare (default [] a) (default [] b).

Definition before (c : comparison) : bool := match c with Lt => true | _ => false end.
Definition same (c : comparison) : bool := match c with Eq => true | _ => false end.
Definition is_nil (s : slice) : bool := match s with None => true | Some _ => false end.

(** Nodes below and including [n]: what the loop of [Next] can still pop. *)
Fixpoint node_count (n : Node) : nat :=
  match n with
  | Leaf _ _ _ => 1
  | Branch _ _ _ _ l r => S (node_count l + node_count r)
  end.
Definition weight (s : list Node) : nat := sum_list_with node_count s.

(** The loop of [Next] on the stack (the top comes first): the pair found, if
    any, and the stack left.  Every round pops a node and pushes its children,
    so [weight] rounds are enough. *)
Fixpoint next_loop (fuel : nat) (start stop : slice) (ascending : bool) (stack : list Node)
  : option (bytes * slice) * list Node :=
  match fuel with
  | O => (None, stack)
  | S fuel =>
    match stack with
    | [] => (None, [])
    | node :: stack =>
        let k := Key node in
        let startCmp := Compare start (Some k) in
        let afterStart := is_nil start || before startCmp in
        let beforeEnd := is_nil stop || before (Compare (Some k) stop) in
        match node with
        | Leaf _ _ v =>
            let startOrAfter := afterStart || same startCmp in
            if startOrAfter && beforeEnd then (Some (k, v), stack)
            else next_loop fuel start stop ascending stack
        | Branch _ _ _ _ l r =>
            let stack :=
              if ascending then
                let stack := if beforeEnd then r :: stack else stack in
                if afterStart then l :: stack else stack
              else
                let stack := if afterStart then l :: stack else stack in
                if beforeEnd then r :: stack else stack in
            next_loop fuel start stop ascending stack
        end
    end
  end.

Definition Next (it : Iterator) : Iterator :=
  match next_loop (S (weight (stack it))) (start it) (stop it) (ascending it) (stack it) with
  | (Some (k, v), st) =>
      mkIterator (start it) (stop it) (ascending it) (zeroCopy it) (Some k) v None None (valid it) st
  | (None, st) =>
      mkIterator (start it) (stop it) (ascending it) (zeroCopy it) (key it) (value it) None None false st
  end.

Definition NewIterator (start stop : slice) (ascending : bool) (root : option Node) (zeroCopy : bool)
  : Iterator :=
  Next (mkIterator start stop ascending zeroCopy None None None None true
          (match root with Some n => [n] | None => [] end)).

Definition Valid (it : Iterator) : bool := valid it.
Definition Domain (it : Iterator) : slice * slice := (start it, stop it).

(** [Key] and [Value] hand out a private clone unless [zeroCopy] is set. *)
Definition IterKey (it : Iterator) : slice * Iterator :=
  if zeroCopy it then (key it, it)
  else
    let kc := if is_nil (keyCopy it) then key it else keyCopy it in
    (kc, mkIterator (start it) (stop it) (ascending it) (zeroCopy it) (key it) (value it)
           kc (valueCopy it) (valid it) (stack it)).
Definition IterValue (it : Iterator) : slice * Iterator :=
  if zeroCopy it then (value it, it)
  else
    let vc := if is_nil (valueCopy it) then value it else valueCopy it in
    (vc, mkIterator (start it) (stop it) (ascending it) (zeroCopy it) (key it) (value it)
           (keyCopy it) vc (valid it) (stack it)).

Definition Close (it : Iterator) : Iterator :=
  mkIterator (start it) (stop it) (ascending it) (zeroCopy it) (key it) (value it)
    (keyCopy it) (valueCopy it) false [].

(** A client's loop: [for ; it.Valid(); it.Next()], at most [fuel] rounds. *)
Fixpoint collect (fuel : nat) (it : Iterator) : list (slice * slice) :=
  match fuel with
  | O => []
  | S fuel =>
      if Valid it then
        let '(k, it) := IterKey it in
        let '(v, it) := IterValue it in
        (k, v) :: collect fuel (Next it)
      else []
  end.

(** ** What is left to visit *)

Definition visit (start stop : slice) (ascending : bool) (n : Node) : pairs :=
  let l := assoc_range start stop (to_list n) in if ascending then l else rev l.
Definition remaining (start stop : slice) (ascending : bool) (st : list Node) : pairs :=
  concat (visit start stop ascending <$> st).

(** The pruning tests agree with the domain. *)
Lemma range_leaf start stop k :
  let startCmp := Compare start (Some k) in
  (is_nil start || before startCmp || same startCmp) &&
  (is_nil stop || before (Compare (Some k) stop)) = in_range start stop k.
Proof.
  unfold in_range, Compare. f_equal.
  - destruct start as [s|]; simpl; [|done]. unfold bytes_ltb. rewrite (bytes_compare_antisym s k).
    by destruct (bytes_compare s k).
  - destruct stop as [e|]; simpl; [|done]. unfold bytes_ltb. by destruct (bytes_compare k e).
Qed.

Lemma range_below start stop k l :
  keys_below k l -> is_nil start || before (Compare start (Some k)) = false ->
  assoc_range start stop l = [].
Proof.
  intros Hb Hs. unfold assoc_range. induction Hb as [|p l Hp Hb IH]; [done|].
  rewrite filter_cons, IH, decide_False; [done|].
  destruct start as [s|]; [|done]. unfold Compare, in_range in *. simpl in *.
  assert (~ s ≺ k) as Hn by (unfold bytes_lt; by destruct (bytes_compare s k)).
  assert (p.1 ≺ s) as Hlt.
  { destruct (bytes_nlt_le _ _ Hn) as [->|]; [done|by transitivity k]. }
  by rewrite (proj2 (bytes_ltb_lt _ _) Hlt).
Qed.

Lemma range_above start stop k l :
  keys_above k l -> is_nil stop || before (Compare (Some k) stop) = false ->
  assoc_range start stop l = [].
Proof.
  intros Hb Hs. unfold assoc_range. induction Hb as [|p l Hp Hb IH]; [done|].
  rewrite filter_cons, IH, decide_False; [done|].
  destruct stop as [e|]; [|done]. unfold Compare, in_range in *. simpl in *.
  assert (~ k ≺ e) as Hn by (unfold bytes_lt; by destruct (bytes_compare k e)).
  assert (~ p.1 ≺ e) as Hlt by (by apply (bytes_nlt_trans e k p.1)).
  by rewrite (proj2 (bytes_ltb_nlt _ _) Hlt), andb_false_r.
Qed.

Lemma visit_branch start stop asc h s v k l r :
  search_tree (Branch h s v k l r) ->
  let vl := if is_nil start || before (Compare start (Some k)) then visit start stop asc l else [] in
  let vr := if is_nil stop || before (Compare (Some k) stop) then visit start stop asc r else [] in
  visit start stop asc (Branch h s v k l r) = if asc then vl ++ vr else vr ++ vl.
Proof.
  intros (_ & _ & B & A & _). unfold visit. simpl. unfold assoc_range in *. rewrite filter_app.
  pose proof (range_below start stop k _ B) as Hb. pose proof (range_above start stop k _ A) as Ha.
  unfold assoc_range in *.
  destruct (is_nil start || _); [clear Hb|rewrite Hb by done];
    (destruct (is_nil stop || _); [clear Ha|rewrite Ha by done]);
    destruct asc; simpl; rewrite ?app_nil_r, ?rev_app_distr; done.
Qed.

Lemma next_loop_ok fuel start stop asc st :
  Forall search_tree st -> (weight st < fuel)%nat ->
  exists st', Forall search_tree st' /\
    match remaining start stop asc st with
    | [] => next_loop fuel start stop asc st = (None, []) /\ st' = []
    | p :: rest => next_loop fuel start stop asc st = (Some p, st') /\
                   remaining start stop asc st' = rest
    end.
Proof.
  revert st. induction fuel as [|fuel IH]; intros st Hs Hw; [lia|].
  destruct st as [|n st]; [by exists []|]. inversion Hs as [|? ? Sn Sst]; subst.
  cbn [next_loop]. unfold remaining. rewrite fmap_cons. cbn [concat].
  fold (remaining start stop asc st).
  destruct n as [v k x|h s v k l r]; cbn [Key].
  - rewrite range_leaf. unfold visit. simpl. unfold assoc_range. rewrite filter_cons. simpl.
    destruct (in_range start stop k) eqn:E.
    + rewrite decide_True by done. rewrite filter_nil. destruct asc; simpl; eauto.
    + rewrite decide_False by done. rewrite filter_nil. simpl in Hw.
      replace (if asc then [] else rev []) with (@nil (bytes * slice)) by (by destruct asc).
      apply IH; [done|unfold weight in *; lia].
  - rewrite visit_branch by done. destruct Sn as (Sl & Sr & _).
    unfold weight in Hw. simpl in Hw. fold (weight st) in Hw.
    match goal with |- context [next_loop fuel _ _ _ ?s] => set (st1 := s) end.
    assert (E : remaining start stop asc st1 =
      (let vl := if is_nil start || before (Compare start (Some k)) then visit start stop asc l else [] in
       let vr := if is_nil stop || before (Compare (Some k) stop) then visit start stop asc r else [] in
       if asc then vl ++ vr else vr ++ vl) ++ remaining start stop asc st).
    { unfold st1, remaining.
      destruct asc, (is_nil start || _), (is_nil stop || _); simpl; rewrite ?app_nil_r, ?(assoc_L (++)); done. }
    cbv zeta in E |- *. rewrite <- E. apply IH.
    + unfold st1. destruct asc, (is_nil start || _), (is_nil stop || _); repeat constructor; done.
    + unfold st1, weight in *. destruct asc, (is_nil start || _), (is_nil stop || _); simpl; lia.
Qed.

(** A fresh iterator state whose clones are unset. *)
Record pending (it : Iterator) (p : bytes * slice) (rest : pairs) : Prop := {
  pd_valid : valid it = true;
  pd_key : key it = Some p.1;
  pd_value : value it = p.2;
  pd_copies : keyCopy it = None /\ valueCopy it = None;
  pd_stack : Forall search_tree (stack it);
  pd_rest : remaining (start it) (stop it) (ascending it) (stack it) = rest;
}.

Lemma Next_ok it :
  valid it = true -> Forall search_tree (stack it) ->
  match remaining (start it) (stop it) (ascending it) (stack it) with
  | [] => valid (Next it) = false
  | p :: rest => pending (Next it) p rest
  end /\ start (Next it) = start it /\ stop (Next it) = stop it /\ ascending (Next it) = ascending it.
Proof.
  intros Hv Hs. unfold Next.
  destruct (next_loop_ok (S (weight (stack it))) (start it) (stop it) (ascending it) (stack it) Hs)
    as (st & Hst & H); [lia|].
  destruct (remaining (start it) (stop it) (ascending it) (stack it)) as [|[k x] rest].
  - destruct H as [-> ->]. done.
  - destruct H as [-> E]. split; [|done]. by constructor.
Qed.

Lemma collect_ok fuel it p rest :
  pending it p rest -> (length rest < fuel)%nat ->
  collect fuel it = (fun q => (Some q.1, q.2)) <$> (p :: rest).
Proof.
  revert it p rest. induction fuel as [|fuel IH]; intros it p rest P Hf; [lia|].
  destruct P as [Hv Hk Hx [Hc1 Hc2] Hst Hr]. cbn [collect]. unfold Valid. rewrite Hv.
  unfold IterKey, IterValue. rewrite Hc1, Hk. simpl.
  assert (forall it2, valid it2 = true -> stack it2 = stack it -> start it2 = start it ->
    stop it2 = stop it -> ascending it2 = ascending it ->
    collect fuel (Next it2) = (fun q => (Some q.1, q.2)) <$> rest) as K.
  { intros it2 E1 E2 E3 E4 E5. destruct (Next_ok it2) as [HN _]; [done|by rewrite E2|].
    rewrite E2, E3, E4, E5, Hr in HN. destruct rest as [|q rest].
    - destruct fuel; [done|]. cbn [collect]. unfold Valid. by rewrite HN.
    - apply IH; [done|simpl in Hf; lia]. }
  destruct (zeroCopy it) eqn:Ez; simpl; rewrite ?Ez; simpl; rewrite ?Hc2; simpl; rewrite ?Hx.
  - by rewrite K.
  - by rewrite K.
Qed.

Lemma iterator_pairs start stop asc root z :
  from_option search_tree True root ->
  collect (S (length (root_list root))) (NewIterator start stop asc root z) =
  (fun q => (Some q.1, q.2)) <$>
    (let l := assoc_range start stop (root_list root) in if asc then l else rev l).
Proof.
  intros Hs. unfold NewIterator.
  match goal with |- context [Next ?i] => set (it := i) end.
  destruct (Next_ok it) as [HN _]; [done|by destruct root; repeat constructor|].
  assert (E : remaining start stop asc (Iterator.stack it) =
    let l := assoc_range start stop (root_list root) in if asc then l else rev l).
  { unfold remaining. destruct root; simpl; [by rewrite app_nil_r|by destruct asc]. }
  simpl in HN. simpl in E. rewrite E in HN.
  assert (Hl : (length (if asc then assoc_range start stop (root_list root)
                else rev (assoc_range start stop (root_list root))) <= length (root_list root))%nat).
  { pose proof (length_filter (fun p : bytes * slice => in_range start stop p.1 = true) (root_list root)).
    destruct asc; rewrite ?length_rev; done. }
  cbv zeta. destruct (if asc then _ else _) as [|p rest].
  - cbn [collect]. unfold Valid. by rewrite HN.
  - apply collect_ok; [done|]. simpl in Hl. lia.
Qed.

(** ** Properties *)

(** C40: Iterating a search tree from [NewIterator] until the iterator is no
    longer valid terminates and hands out exactly the pairs whose key is in
    [[start, end)], nil being an open bound, in ascending or descending key
    order, cloned or not. *)
Theorem iterator_visits_range (start stop : slice) (asc : bool) (root : option Node) (z : bool)
  (Hs : from_option search_tree True root) :
  collect (S (length (root_list root))) (NewIterator start stop asc root z) =
  (fun q => (Some q.1, q.2)) <$>
    (let l := assoc_range start stop (root_list root) in if asc then l else rev l).
Proof. by apply iterator_pairs. Qed.

Lemma iterator_visits_range_witness :
  collect 3 (NewIterator (Some [z2b 2]) None false
    (Some (Branch 1 2 1 [z2b 2] (Leaf 1 [z2b 1] (Some [])) (Leaf 1 [z2b 2] (Some [])))) false) =
  [(Some [z2b 2], Some [])].
Proof.
  apply (iterator_visits_range (Some [z2b 2]) None false
    (Some (Branch 1 2 1 [z2b 2] (Leaf 1 [z2b 1] (Some [])) (Leaf 1 [z2b 2] (Some [])))) false).
  simpl. split_and!; try done; repeat constructor; by intros ?.
Defined.
