(* ===== verification/Export.v ===== *)
(** Export: [ScanPostOrder] and [Export] of [memiavl/tree.go], the sequential
    export of [memiavl/snapshot.go], [Exporter] and [MultiTreeExporter] of
    [memiavl/export.go].

    Theorems: the explicit-stack scan visits the nodes in post-order, with
    early stop; the sequential scan over the snapshot files, which never looks
    at the tree structure, produces the same stream; the multi-tree exporter
    hands out every tree's name followed by its stream. *)
From stdpp Require Import prelude strings.
From Stdlib Require Import ZArith Lia.
From S2P Require Import Prelude OrdMap Codec Node Hash Persisted Snapshot.
Local Open Scope Z_scope.

Record ExportNode : Type := mkExport {
  e_key : bytes;
  e_value : slice;
  e_version : Z;
  e_height : Z;
}.

Definition exportNode (n : Node) : ExportNode :=
  mkExport (Key n) (Value n) (Version n) (i8 (Height n)).

(** ** Post-order scan with an explicit stack *)

Section Scan.
Context {S : Type} (callback : S -> Node -> S * bool).

(** The loop of [ScanPostOrder]; an entry is a node and its [expanded] flag.
    Every node is on top of the stack at most twice. *)
Fixpoint scan_loop (fuel : nat) (s : S) (stack : list (Node * bool)) : S :=
  match fuel with
  | O => s
  | Datatypes.S fuel =>
    match stack with
    | [] => s
    | (node, expanded) :: rest =>
        if IsLeaf node || expanded then
          let '(s, stop) := callback s node in
          if stop : bool then s else scan_loop fuel s rest
        else
          match node with
          | Branch _ _ _ _ l r => scan_loop fuel s ((l, false) :: (r, false) :: (node, true) :: rest)
          | Leaf _ _ _ => s
          end
    end
  end.

Fixpoint scan_cost (n : Node) : nat :=
  match n with
  | Leaf _ _ _ => 1
  | Branch _ _ _ _ l r => 2 + (scan_cost l + scan_cost r)
  end.

Definition ScanPostOrder (root : option Node) (s : S) : S :=
  match root with
  | None => s
  | Some n => scan_loop (Datatypes.S (scan_cost n)) s [(n, false)]
  end.

(** The reference: a list of nodes consumed until the callback says stop. *)
Fixpoint feed (s : S) (l : list Node) : S * bool :=
  match l with
  | [] => (s, false)
  | n :: l => let '(s, stop) := callback s n in if stop : bool then (s, true) else feed s l
  end.
End Scan.

Fixpoint post_order (n : Node) : list Node :=
  match n with
  | Leaf _ _ _ => [n]
  | Branch _ _ _ _ l r => post_order l ++ post_order r ++ [n]
  end.

Definition export_stream (root : option Node) : list ExportNode :=
  exportNode <$> from_option post_order [] root.

Section ScanOk.
Context {S : Type} (callback : S -> Node -> S * bool).

Lemma feed_app s l1 l2 :
  feed callback s (l1 ++ l2) =
  let '(s', stop) := feed callback s l1 in if stop then (s', true) else feed callback s' l2.
Proof.
  revert s. induction l1 as [|n l1 IH]; intros s; simpl; [done|].
  destruct (callback s n) as [s' []]; [done|]. apply IH.
Qed.

(** Visiting one subtree on top of the stack. *)
Lemma scan_node n : forall fuel s rest,
  (scan_cost n <= fuel)%nat ->
  scan_loop callback fuel s ((n, false) :: rest) =
  let '(s', stop) := feed callback s (post_order n) in
  if stop then s' else scan_loop callback (fuel - scan_cost n) s' rest.
Proof.
  induction n as [v k x|h sz v k l IHl r IHr]; intros fuel s rest Hf;
    (destruct fuel as [|fuel]; [simpl in Hf; lia|]).
  - simpl. rewrite Nat.sub_0_r. by destruct (callback s (Leaf v k x)) as [s' []].
  - cbn [scan_loop IsLeaf orb scan_cost post_order] in *. rewrite IHl by lia.
    rewrite feed_app. destruct (feed callback s (post_order l)) as [s1 []]; [done|].
    rewrite IHr by lia. rewrite feed_app. destruct (feed callback s1 (post_order r)) as [s2 []]; [done|].
    replace (fuel - scan_cost l - scan_cost r)%nat
      with (Datatypes.S (fuel - scan_cost l - scan_cost r - 1)) by lia.
    cbn [scan_loop IsLeaf orb feed]. destruct (callback s2 (Branch h sz v k l r)) as [s3 []]; [done|].
    f_equal. lia.
Qed.

Lemma ScanPostOrder_feed root s :
  ScanPostOrder callback root s = (feed callback s (from_option post_order [] root)).1.
Proof.
  destruct root as [n|]; [|done]. unfold ScanPostOrder. rewrite scan_node by lia. simpl.
  destruct (feed callback s (post_order n)) as [s' []]; [done|].
  by destruct (Datatypes.S (scan_cost n) - scan_cost n)%nat.
Qed.
End ScanOk.

(** The stream of [Tree.Export] when no snapshot can serve it: the callback
    appends to the channel and never stops. *)
Definition collect_export (acc : list ExportNode) (n : Node) : list ExportNode * bool :=
  (acc ++ [exportNode n], false).

Lemma collect_feed l acc : feed collect_export acc l = (acc ++ (exportNode <$> l), false).
Proof.
  revert acc. induction l as [|n l IH]; intros acc; simpl; [by rewrite app_nil_r|].
  rewrite IH. by rewrite <- (assoc_L (++)).
Qed.

(** ** Sequential export of a snapshot *)

Definition leafExport (s : Snapshot) (j : Z) : option ExportNode :=
  let? leaf := LeafLayout.Leaf (leaves s) j in
  let? off := LeafLayout.KeyOffset leaf in
  let? (key, value) := KeyValue s off in
  let? v := LeafLayout.Version leaf in
  Some (mkExport key (Some value) v 0).

(** The inner loop: leaves until [target] subtrees are pending. *)
Fixpoint add_leaves (fuel : nat) (s : Snapshot) (j : Z) : option (list ExportNode) :=
  match fuel with
  | O => Some []
  | S fuel =>
      let? e := leafExport s j in
      let? rest := add_leaves fuel s (u32 (j + 1)) in
      Some (e :: rest)
  end.

(** One round of the outer loop: [j] is the next leaf, [pending] the number of
    subtrees not yet joined. *)
Definition export_branch (s : Snapshot) (i j pending : Z) : option (list ExportNode * Z * Z) :=
  let? node := NodeLayout.Node (nodes s) i in
  let? preTrees := NodeLayout.PreTrees node in
  let missing := Z.max 0 (preTrees + 2 - pending) in
  let? out := add_leaves (Z.to_nat missing) s j in
  let? h := NodeLayout.Height node in
  let? v := NodeLayout.Version node in
  let? keyLeaf := NodeLayout.KeyLeaf node in
  let? key := LeafKey s keyLeaf in
  Some (out ++ [mkExport key None v (i8 h)], u32 (j + missing), pending + missing - 1).

Fixpoint export_loop (k : nat) (s : Snapshot) (i j pending : Z) : option (list ExportNode * Z * Z) :=
  match k with
  | O => Some ([], j, pending)
  | S k =>
      let? (out, j, pending) := export_branch s i j pending in
      let? (rest, j, pending) := export_loop k s (i + 1) j pending in
      Some (out ++ rest, j, pending)
  end.

Definition snapshotExport (s : Snapshot) : option (list ExportNode) :=
  if leavesLen s =? 0 then Some []
  else if leavesLen s =? 1 then
    let p := SnapshotLeaf 0 in
    let? v := Persisted.Version s p in
    let? key := Persisted.Key s p in
    let? value := Persisted.Value s p in
    Some [mkExport key value v 0]
  else
    let? (out, _, _) := export_loop (Z.to_nat (nodesLen s)) s 0 0 0 in
    Some out.

(** The stream of [Tree.Export]: the snapshot serves a tree at its version. *)
Definition treeExport (version : Z) (root : option Node) (snapshot : option Snapshot)
  : option (list ExportNode) :=
  match snapshot with
  | Some s => if version =? Persisted.version s then snapshotExport s
              else Some (ScanPostOrder collect_export root [])
  | None => Some (ScanPostOrder collect_export root [])
  end.

(** Triples that differ in how their numbers are written. *)
Lemma pair_eq3 {A B C} (a : A) (x x' : B) (y y' : C) : x = x' -> y = y' -> Some (a, x, y) = Some (a, x', y').
Proof. by intros -> ->. Qed.

(** Leaves that were passed over but not yet handed out: the [d] before [X]. *)
Definition delayed (s : Snapshot) (X d : Z) : list ExportNode :=
  (fun j => default (mkExport [] None 0 0) (leafExport s j)) <$> seqZ (X - d) d.

Definition readable (s : Snapshot) (lo hi : Z) : Prop :=
  forall j, lo <= j < hi -> is_Some (leafExport s j).

Lemma add_leaves_nat (d : nat) s X :
  Z.of_nat d <= X -> X < 2 ^ 32 -> readable s (X - Z.of_nat d) X ->
  add_leaves d s (X - Z.of_nat d) = Some (delayed s X (Z.of_nat d)).
Proof.
  unfold delayed. induction d as [|d IH]; intros Hd HX R; [done|].
  cbn [add_leaves]. rewrite (seqZ_cons (X - Z.of_nat (S d))) by lia.
  destruct (R (X - Z.of_nat (S d)) ltac:(lia)) as [e E]. rewrite fmap_cons, E.
  cbn [mbind option_bind default from_option id].
  rewrite u32_small by lia. replace (X - Z.of_nat (S d) + 1) with (X - Z.of_nat d) by lia.
  rewrite IH; [|lia|done|intros j Hj; apply R; lia]. cbn [mbind option_bind].
  replace (Z.pred (Z.of_nat (S d))) with (Z.of_nat d) by lia.
  by replace (Z.succ (X - Z.of_nat (S d))) with (X - Z.of_nat d) by lia.
Qed.

Lemma add_leaves_ok d s X :
  0 <= d <= X -> X < 2 ^ 32 -> readable s (X - d) X ->
  add_leaves (Z.to_nat d) s (X - d) = Some (delayed s X d).
Proof.
  intros Hd HX R. pose proof (add_leaves_nat (Z.to_nat d) s X) as H.
  rewrite Z2Nat.id in H by lia. apply H; [lia|done..].
Qed.

Lemma export_loop_app a b s i j p :
  export_loop (a + b) s i j p =
  let? (o1, j1, p1) := export_loop a s i j p in
  let? (o2, j2, p2) := export_loop b s (i + Z.of_nat a) j1 p1 in
  Some (o1 ++ o2, j2, p2).
Proof.
  revert i j p. induction a as [|a IH]; intros i j p.
  - simpl. rewrite Z.add_0_r. by destruct (export_loop b s i j p) as [[[? ?] ?]|].
  - cbn [export_loop Nat.add]. destruct (export_branch s i j p) as [[[o j'] p']|]; simpl; [|done].
    rewrite IH. destruct (export_loop a s (i + 1) j' p') as [[[o1 j1] p1]|]; simpl; [|done].
    replace (i + 1 + Z.of_nat a) with (i + Z.pos (Pos.of_succ_nat a)) by lia.
    destruct (export_loop b s _ j1 p1) as [[[o2 j2] p2]|]; simpl; [|done]. by rewrite <- (assoc_L (++)).
Qed.

Section SnapshotExport.
Context (sha256 : bytes -> bytes) (sha256_len : forall b, len (sha256 b) = 32).

Lemma stored_leafExport s L B off v k x :
  stored sha256 s L B off (Leaf v k x) -> fits L B off (Leaf v k x) -> len (kvs s) < 2 ^ 64 ->
  leafExport s L = Some (exportNode (Leaf v k x)).
Proof.
  intros (E & a & c & Ek & Ha) [HB HL HO HP HA HS HF HSh] Hk.
  destruct HF as (_ & _ & Hv & Hlk & [y ->]). inversion HSh as [|? ? Hx _]; subst. simpl in Hx, HO, Hv.
  unfold leafExport. rewrite E. cbn [mbind option_bind].
  destruct (leaf_record_fields v (len a) k (HashNode sha256 (Leaf v k (Some y))))
    as (_ & -> & _ & -> & _); [done|by apply HashNode_len|done|llia|].
  cbn [mbind option_bind]. unfold KeyValue.
  destruct (kv_read s a c k y (len a) Ek eq_refl Hk Hlk Hx) as (E1 & E2 & E3 & E4).
  destruct (slice_from (kvs s) (len a)) as [b|]; [|done]. cbn [mbind option_bind] in E4 |- *.
  rewrite E4. cbn [mbind option_bind]. rewrite E1. cbn [mbind option_bind].
  destruct (slice_from (kvs s) _) as [b'|]; [|done]. cbn [mbind option_bind] in E2 |- *.
  rewrite E2. cbn [mbind option_bind]. rewrite E3. done.
Qed.

(** The branches of a subtree, read in file order, hand out the delayed
    leaves and the subtree's own post-order; a leaf has no branch of its own
    and is delayed itself. *)
Lemma export_run s n : forall L B off d,
  stored sha256 s L B off n -> fits L B off n -> search_tree n -> len (kvs s) < 2 ^ 64 ->
  0 <= d <= L -> readable s (L - d) L ->
  exists out d',
    export_loop (Z.to_nat (leaf_count n - 1)) s B (L - d) (L - B - d) =
      Some (out, L + leaf_count n - d', L - B + 1 - d') /\
    0 <= d' <= L + leaf_count n /\ (IsLeaf n = false -> d' = 0) /\
    readable s (L + leaf_count n - d') (L + leaf_count n) /\
    out ++ delayed s (L + leaf_count n) d' = delayed s L d ++ (exportNode <$> post_order n).
Proof.
  induction n as [v k x|h sz v k l IHl r IHr]; intros L B off d St F So Hk Hd R.
  - pose proof (stored_leafExport _ _ _ _ _ _ _ St F Hk) as E.
    exists [], (d + 1). change (leaf_count (Leaf v k x)) with 1.
    change (Z.to_nat (1 - 1)) with 0%nat. cbn [export_loop].
    replace (L + 1 - (d + 1)) with (L - d) by lia. replace (L - B + 1 - (d + 1)) with (L - B - d) by lia.
    split_and!; [done|lia|lia|done| |].
    + intros j Hj. destruct (decide (j = L)) as [->|]; [by rewrite E|]. apply R. lia.
    + unfold delayed. replace (L + 1 - (d + 1)) with (L - d) by lia.
      rewrite seqZ_app, fmap_app by lia. replace (L - d + d) with L by lia.
      change (seqZ L 1) with [0 + L]. rewrite Z.add_0_l. cbn [fmap list_fmap]. by rewrite E.
  - pose proof (fits_L _ _ _ _ F) as HL. pose proof (fits_B _ _ _ _ F) as HB.
    destruct (stored_branch _ sha256_len _ _ _ _ _ _ _ _ _ _ St F) as (rec & E & E1 & E2 & E3 & _ & E4 & _).
    pose proof (stored_key _ sha256_len _ _ _ _ _ _ _ _ _ _ St F Hk So) as EK.
    destruct (fits_branch _ _ _ _ _ _ _ _ _ F) as [Fl Fr]. pose proof St as (Sl & Sr & _).
    pose proof So as (Tl & Tr & _). pose proof (leaf_count_pos l). pose proof (leaf_count_pos r).
    rewrite leaf_count_branch in *.
    destruct (IHl _ _ _ d Sl Fl Tl Hk Hd R) as (o1 & d1 & X1 & D1 & _ & R1 & Q1).
    destruct (IHr _ _ _ d1 Sr Fr Tr Hk D1 R1) as (o2 & d2 & X2 & D2 & _ & R2 & Q2).
    exists (o1 ++ o2 ++ delayed s (L + leaf_count l + leaf_count r) d2 ++ [exportNode (Branch h sz v k l r)]), 0.
    replace (Z.to_nat (leaf_count l + leaf_count r - 1))
      with (Z.to_nat (leaf_count l - 1) + (Z.to_nat (leaf_count r - 1) + 1))%nat by lia.
    rewrite export_loop_app, X1. cbn [mbind option_bind]. rewrite export_loop_app.
    replace (B + Z.of_nat (Z.to_nat (leaf_count l - 1))) with (B + leaf_count l - 1) by lia.
    replace (L - B + 1 - d1) with (L + leaf_count l - (B + leaf_count l - 1) - d1) by lia.
    rewrite X2. cbn [mbind option_bind].
    replace (B + leaf_count l - 1 + Z.of_nat (Z.to_nat (leaf_count r - 1)))
      with (B + (leaf_count l + leaf_count r) - 2) by lia.
    cbn [export_loop]. unfold export_branch. unfold branchNode, root_at in E. simpl in E.
    rewrite leaf_count_branch in E. rewrite E. cbn [mbind option_bind]. rewrite E2. cbn [mbind option_bind].
    replace (Z.max 0 (L - B + 2 - (L + leaf_count l - (B + leaf_count l - 1) + 1 - d2))) with d2 by lia.
    rewrite add_leaves_ok by (try done; lia). cbn [mbind option_bind].
    rewrite E1, E3, E4. cbn [mbind option_bind]. rewrite EK. cbn [mbind option_bind].
    rewrite u32_small by lia. split_and!; [|lia|lia|done| |].
    + rewrite app_nil_r. apply pair_eq3; lia.
    + intros j Hj. lia.
    + rewrite Z.add_assoc. unfold delayed at 2. change (seqZ (L + leaf_count l + leaf_count r - 0) 0) with (@nil Z).
      rewrite app_nil_r. cbn [post_order]. rewrite !fmap_app, !(assoc_L (++)). f_equal.
      rewrite <- Q1, <- !(assoc_L (++)). by rewrite Q2.
Qed.

Lemma snapshotExport_ok s n :
  stored sha256 s 0 0 0 n -> fits 0 0 0 n -> search_tree n -> len (kvs s) < 2 ^ 64 ->
  len (nodes s) = (leaf_count n - 1) * SizeNode -> len (leaves s) = leaf_count n * SizeLeaf ->
  snapshotExport s = Some (export_stream (Some n)).
Proof.
  intros St F So Hk Hn Hl. unfold snapshotExport, leavesLen, nodesLen. rewrite Hn, Hl.
  rewrite SizeLeaf_eq, SizeNode_eq, !Z.div_mul by lia. pose proof (leaf_count_pos n).
  destruct (Z.eqb_spec (leaf_count n) 0); [lia|].
  destruct (Z.eqb_spec (leaf_count n) 1) as [E1|E1].
  - pose proof (stored_presents _ sha256_len _ _ _ _ _ St F So Hk) as P.
    assert (IsLeaf n = true) as Hleaf by (rewrite leaf_count_leaf; lia).
    destruct n as [v k x|]; [|done]. simpl in P.
    change (SnapshotLeaf 0) with (root_at 0 0 (Leaf v k x)). destruct P as (_ & _ & _ & -> & -> & -> & _). done.
  - destruct (export_run s n 0 0 0 0 St F So Hk) as (out & d' & X & _ & Hd & _ & Q);
      [lia|intros j Hj; lia|].
    rewrite Z.sub_0_r, Z.sub_0_r in X. rewrite X. cbn [mbind option_bind].
    rewrite Hd in Q by (rewrite leaf_count_leaf; lia).
    unfold delayed in Q. simpl in Q. rewrite app_nil_r in Q. by rewrite Q.
Qed.
End SnapshotExport.

(** ** Exporters *)

(** An [Exporter] is the stream still to come through its channel; [Next] on a
    drained stream is [ErrorExportDone] ([None]). *)
Definition ExporterNext (e : list ExportNode) : option ExportNode * list ExportNode :=
  match e with
  | [] => (None, [])
  | n :: e => (Some n, e)
  end.

(** Items of the multi-tree stream: a tree name or a node. *)
Inductive Item : Type :=
| ITree (name : bytes)
| INode (n : ExportNode).

Record MultiTreeExporter : Type := mkMTE {
  mte_trees : list (bytes * list ExportNode);
  iTree : nat;
  mte_exporter : option (list ExportNode);
}.

(** The second part of [MultiTreeExporter.Next]: start the next tree. *)
Definition nextTree (m : MultiTreeExporter) : option Item * MultiTreeExporter :=
  match mte_trees m !! iTree m with
  | None => (None, mkMTE (mte_trees m) (iTree m) None)
  | Some (name, stream) => (Some (ITree name), mkMTE (mte_trees m) (S (iTree m)) (Some stream))
  end.

(** [MultiTreeExporter.Next]: [None] is [ErrorExportDone].  The recursive call
    of the code happens with no current exporter, so it is [nextTree]. *)
Definition MTENext (m : MultiTreeExporter) : option Item * MultiTreeExporter :=
  match mte_exporter m with
  | Some e =>
      match ExporterNext e with
      | (Some n, e) => (Some (INode n), mkMTE (mte_trees m) (iTree m) (Some e))
      | (None, _) => nextTree (mkMTE (mte_trees m) (iTree m) None)
      end
  | None => nextTree m
  end.

Fixpoint drain (fuel : nat) (m : MultiTreeExporter) : list Item :=
  match fuel with
  | O => []
  | S fuel =>
      match MTENext m with
      | (Some i, m) => i :: drain fuel m
      | (None, _) => []
      end
  end.

Definition tree_items (t : bytes * list ExportNode) : list Item := ITree t.1 :: (INode <$> t.2).
Definition all_items (ts : list (bytes * list ExportNode)) : list Item := concat (tree_items <$> ts).

Lemma drain_ok fuel : forall ts i e,
  (length (default [] e) + length (all_items (drop i ts)) < fuel)%nat ->
  drain fuel (mkMTE ts i e) = (INode <$> default [] e) ++ all_items (drop i ts).
Proof.
  induction fuel as [|fuel IH]; intros ts i e Hf; [lia|]. cbn [drain].
  assert (Ht : forall e', (length (all_items (drop i ts)) < S fuel)%nat ->
    match nextTree (mkMTE ts i e') with (Some x, m) => x :: drain fuel m | (None, _) => [] end =
    all_items (drop i ts)).
  { intros e' Hl. unfold nextTree. simpl. destruct (ts !! i) as [[name st]|] eqn:Ei.
    - rewrite (drop_S _ _ _ Ei) in *. change (all_items ((name, st) :: drop (S i) ts))
        with (ITree name :: (INode <$> st) ++ all_items (drop (S i) ts)) in *.
      rewrite length_cons, length_app, length_fmap in Hl. f_equal. apply IH. cbn [default from_option id]. lia.
    - rewrite drop_ge; [done|]. by apply lookup_ge_None. }
  unfold MTENext. simpl. destruct e as [[|n e]|]; simpl in *.
  - apply Ht. lia.
  - f_equal. apply (IH ts i (Some e)). simpl. lia.
  - apply Ht. lia.
Qed.

(** ** Properties *)

(** [ScanPostOrder], with its explicit stack, calls the callback on the
    nodes of the tree in post-order (children before their parent) and stops
    at the first node for which it returns true. *)
Theorem scan_is_post_order {S : Type} (callback : S -> Node -> S * bool) (root : option Node) (s : S) :
  ScanPostOrder callback root s = (feed callback s (from_option post_order [] root)).1.
Proof. apply ScanPostOrder_feed. Qed.

(** The sequential export of a snapshot, which reads the branch records in
    file order and only their [preTrees] byte to know when to emit leaves,
    produces the same stream as the post-order traversal of the tree the
    snapshot was written from; so [Tree.Export] does not depend on which of
    the two it uses. *)
Theorem snapshot_export_is_post_order (sha256 : bytes -> bytes) (sha256_len : forall b, len (sha256 b) = 32)
  (v : Z) (n : Node) (Hv : 0 <= v < 2 ^ 32) (St : storable n) :
  exists f s, WriteSnapshotWithContext sha256 (fun _ => false) v (Some n) = Ok f /\
    OpenSnapshot f = Ok s /\ snapshotExport s = Some (export_stream (Some n)) /\
    treeExport v (Some n) (Some s) = treeExport v (Some n) None.
Proof.
  pose proof (WriteSnapshot_out sha256 (fun _ => false) (fun _ => eq_refl) v n St) as Ef.
  destruct (write_open sha256 sha256_len (fun _ => false) (fun _ => eq_refl) v n Hv St)
    as (f & s & Ew & Eo & Ev & _ & Sd & Hk). pose proof St as [(_ & _ & So) F].
  rewrite Ef in Ew. apply Ok_inj in Ew as <-. eexists _, s. split; [exact Ef|]. split; [done|].
  assert (nodes s = out_nodes sha256 0 0 n /\ leaves s = out_leaves sha256 0 n) as [En El].
  { rewrite (OpenSnapshot_metadata _ v) in Eo by done. unfold openData in Eo.
    repeat match type of Eo with (if ?b then _ else _) = _ => destruct b; [done|] end.
    by apply Ok_inj in Eo as <-. }
  destruct (out_lens sha256 sha256_len 0 0 0 n) as [L1 L2].
  assert (E : snapshotExport s = Some (export_stream (Some n))).
  { apply (snapshotExport_ok sha256 sha256_len); try done; [by rewrite En|by rewrite El]. }
  split; [done|]. unfold treeExport. rewrite Ev, Z.eqb_refl, E, ScanPostOrder_feed, collect_feed. done.
Qed.

Lemma snapshot_export_is_post_order_witness :
  exists f s, WriteSnapshotWithContext digest32 (fun _ => false) 7 (Some two_leaves) = Ok f /\
    OpenSnapshot f = Ok s /\ snapshotExport s = Some (export_stream (Some two_leaves)) /\
    treeExport 7 (Some two_leaves) (Some s) = treeExport 7 (Some two_leaves) None.
Proof.
  exact (snapshot_export_is_post_order digest32 digest32_len 7 two_leaves ltac:(lia) two_leaves_storable).
Defined.

(** Calling [MultiTreeExporter.Next] until [ErrorExportDone] yields, for
    every tree in order, its name followed by its whole node stream, empty
    trees included, and then nothing more. *)
Theorem multitree_export_stream (trees : list (bytes * list ExportNode)) (fuel : nat)
  (Hf : (length (all_items trees) < fuel)%nat) :
  drain fuel (mkMTE trees 0 None) = all_items trees.
Proof. exact (drain_ok fuel trees 0 None Hf). Qed.

Lemma multitree_export_stream_witness :
  drain 3 (mkMTE [([z2b 1], []); ([z2b 2], [])] 0 None) = [ITree [z2b 1]; ITree [z2b 2]].
Proof. apply (multitree_export_stream [([z2b 1], []); ([z2b 2], [])] 3). vm_compute. lia. Defined.
