(* ===== verification/Exporter.v ===== *)
(** The exporter as goroutines: [newExporter], [Exporter.Next] and
    [Exporter.Close] of [memiavl/export.go].

    The worker scans the nodes and sends them into a channel of
    [exportBufferSize]; the reader receives with [Next] and may call [Close],
    which cancels the worker and drains the channel.  [select] picks any of the
    branches that are ready.  [Export] uses the exporter as the list of nodes
    still to come; here the channel, the cancellation and the end of the worker
    are explicit.

    Theorem: what the reader has received is a beginning of the nodes, all of them
    when [Next] reports the end; no run goes on forever or gets stuck, and after
    [Close] has returned the worker has ended. *)
From stdpp Require Import prelude relations.
From Stdlib Require Import ZArith Lia.
From S2P Require Import Prelude.

Definition exportBufferSize : nat := 32.

(** The reader: between calls of [Next], after [ErrorExportDone], in [Close], and
    after it. *)
Inductive Phase : Type := Reading | AtEnd | Closing | Closed.

Section Exporter.
Context {X : Type}.

(** [worker]: the nodes still to be sent, [None] once the channel is closed. *)
Record Exporter : Type := mkExporter { worker : option (list X); ch : list X; cancelled : bool; got : list X; phase : Phase }.

Definition newExporter (nodes : list X) : Exporter := mkExporter (Some nodes) [] false [] Reading.

Inductive worker_step : Exporter -> Exporter -> Prop :=
| send_node x rest c b g p : length c < exportBufferSize ->
    worker_step (mkExporter (Some (x :: rest)) c b g p) (mkExporter (Some rest) (c ++ [x]) b g p)
| send_cancelled x rest c g p :
    worker_step (mkExporter (Some (x :: rest)) c true g p) (mkExporter None c true g p)
| scan_done c b g p :
    worker_step (mkExporter (Some []) c b g p) (mkExporter None c b g p).

(** [Next] blocks while the channel is empty and open; so does draining. *)
Inductive reader_step : Exporter -> Exporter -> Prop :=
| next_node w x c b g : reader_step (mkExporter w (x :: c) b g Reading) (mkExporter w c b (g ++ [x]) Reading)
| next_done b g : reader_step (mkExporter None [] b g Reading) (mkExporter None [] b g AtEnd)
| close_cancel w c b g p : p = Reading \/ p = AtEnd -> reader_step (mkExporter w c b g p) (mkExporter w c true g Closing)
| drain_node w x c b g : reader_step (mkExporter w (x :: c) b g Closing) (mkExporter w c b g Closing)
| close_done b g : reader_step (mkExporter None [] b g Closing) (mkExporter None [] b g Closed).

Definition export_step (e e' : Exporter) : Prop := worker_step e e' \/ reader_step e e'.

(** ** The invariant *)

Record export_inv (nodes : list X) (e : Exporter) : Prop := {
  ei_prefix : got e `prefix_of` nodes;
  ei_open : cancelled e = false -> got e ++ ch e ++ default [] (worker e) = nodes /\ (phase e = Reading \/ phase e = AtEnd);
  ei_cancelled : cancelled e = true -> phase e = Closing \/ phase e = Closed;
  ei_end : phase e = AtEnd -> ch e = [] /\ worker e = None;
  ei_closed : phase e = Closed -> ch e = [] /\ worker e = None;
}.

Lemma export_init nodes : export_inv nodes (newExporter nodes).
Proof. split; cbn; try done; [apply prefix_nil|intros _; split; [done|by left]]. Qed.

Lemma export_step_inv nodes e e' : export_step e e' -> export_inv nodes e -> export_inv nodes e'.
Proof.
  intros St [I1 I2 I3 I4 I5]. destruct St as [St|St].
  - destruct St as [x rest c b g p Hc|x rest c g p|c b g p]; cbn in *.
    + split; cbn; try done.
      * intros Hb. destruct (I2 Hb) as [E Hp]. split; [|done]. rewrite <- E. by rewrite <- !app_assoc.
      * intros ->. by destruct (I4 eq_refl).
      * intros ->. by destruct (I5 eq_refl).
    + split; cbn; try done; intros ->; [by destruct (I4 eq_refl)|by destruct (I5 eq_refl)].
    + split; cbn; try done; intros ->; [by destruct (I4 eq_refl)|by destruct (I5 eq_refl)].
  - destruct St as [w x c b g|b g|w c b g p Hp|w x c b g|b g]; cbn in *.
    + assert (b = false) as -> by (destruct b; [|done]; by destruct (I3 eq_refl)). destruct (I2 eq_refl) as [E _]. split; cbn; try done.
      * exists (c ++ default [] w). by rewrite <- E, <- app_assoc.
      * intros _. split; [by rewrite <- E, <- app_assoc|by left].
    + split; cbn; try done; [intros Hb; destruct (I2 Hb) as [E _]; split; [done|by right]|]. intros Hb. by destruct (I3 Hb).
    + split; cbn; try done. intros _. by left.
    + split; cbn; try done. intros ->. by destruct (I2 eq_refl) as [_ [|]].
    + split; cbn; try done; [intros ->; by destruct (I2 eq_refl) as [_ [|]]|]. intros _. by right.
Qed.

Lemma export_run_inv nodes e e' : rtc export_step e e' -> export_inv nodes e -> export_inv nodes e'.
Proof. induction 1; [done|]. intros I. eauto using export_step_inv. Qed.

(** ** Every run ends *)

Definition phase_work (p : Phase) : nat := match p with Reading => 3 | AtEnd => 2 | Closing => 1 | Closed => 0 end.
Definition export_work (e : Exporter) : nat :=
  match worker e with Some rest => 1 + 2 * length rest | None => 0 end + length (ch e) + phase_work (phase e).

Lemma export_step_work e e' : export_step e e' -> export_work e' < export_work e.
Proof.
  intros [St|St].
  - destruct St; unfold export_work; cbn; rewrite ?length_app; cbn; lia.
  - destruct St as [| |w c b g p [->| ->]| |]; unfold export_work; cbn; lia.
Qed.

Lemma export_run_length k e e' : nsteps export_step k e e' -> k + export_work e' <= export_work e.
Proof. induction 1 as [|k e1 e2 e3 St _ IH]; [lia|]. apply export_step_work in St. lia. Qed.

(** A call of the reader is never stuck: it or the worker can go on. *)
Lemma export_progress nodes e : export_inv nodes e -> phase e = Reading \/ phase e = Closing -> (exists e', worker_step e e') \/ exists e', reader_step e e' /\ cancelled e' = cancelled e.
Proof.
  destruct e as [w c b g p]. intros [I1 I2 I3 I4 I5] Hp. cbn in *. destruct c as [|x c].
  - destruct w as [[|x rest]|].
    + left. eexists. apply scan_done.
    + left. eexists. apply send_node. cbn. unfold exportBufferSize. lia.
    + right. destruct Hp as [->| ->]; eexists; (split; [constructor|done]).
  - right. destruct Hp as [->| ->]; eexists; (split; [constructor|done]).
Qed.
End Exporter.
Arguments Exporter : clear implicits.

(** ** Properties *)

(** The exporter delivers the nodes and stops.  In every run of the worker and the
    reader on the nodes of a tree: the number of steps is bounded; what [Next] has
    returned is a beginning of the nodes, in order, and all of them when it has
    reported the end before a [Close]; a call of [Next] or [Close] that has not
    returned can always go on; and once [Close] has returned, the worker has ended
    and the channel is empty. *)
Theorem exporter_delivers {X : Type} (nodes : list X) (k : nat) (e : Exporter X) (Hrun : nsteps export_step k (newExporter nodes) e) :
  k <= 2 * length nodes + 4 /\
  got e `prefix_of` nodes /\
  (phase e = AtEnd -> got e = nodes) /\
  (phase e = Reading \/ phase e = Closing -> exists e', export_step e e') /\
  (phase e = Closed -> worker e = None /\ ch e = []).
Proof.
  pose proof (export_run_length _ _ _ Hrun) as Hk. unfold export_work at 2 in Hk. cbn in Hk.
  assert (export_inv nodes e) as I by (eapply export_run_inv; [by eapply rtc_nsteps_2|apply export_init]). split_and!.
  - lia.
  - apply I.
  - intros Hp. destruct (ei_end _ _ I Hp) as [Ec Ew]. destruct (cancelled e) eqn:Eb; [destruct (ei_cancelled _ _ I Eb); congruence|].
    destruct (ei_open _ _ I Eb) as [E _]. rewrite Ec, Ew in E. cbn in E. by rewrite app_nil_r in E.
  - intros Hp. destruct (export_progress nodes e I Hp) as [[e' H]|(e' & H & _)]; exists e'; [by left|by right].
  - intros Hp. destruct (ei_closed _ _ I Hp). done.
Qed.

(** Two nodes: the reader takes one and closes while the other is on its way. *)
Definition sample_exporter : Exporter nat := mkExporter None [] true [1] Closed.

Lemma sample_export_run : nsteps export_step 7 (newExporter [1; 2]) sample_exporter.
Proof.
  eapply nsteps_l; [left; apply (send_node 1 [2] [] false [] Reading); unfold exportBufferSize; cbn; lia|].
  eapply nsteps_l; [right; exact (next_node (Some [2]) 1 [] false [])|].
  eapply nsteps_l; [left; apply (send_node 2 [] [] false [1] Reading); unfold exportBufferSize; cbn; lia|].
  eapply nsteps_l; [right; apply (close_cancel (Some []) [2] false [1] Reading); by left|].
  eapply nsteps_l; [right; exact (drain_node (Some []) 2 [] true [1])|].
  eapply nsteps_l; [left; exact (scan_done [] true [1] Closing)|].
  eapply nsteps_l; [right; exact (close_done true [1])|]. constructor.
Qed.

Lemma exporter_delivers_witness : 7 <= 2 * length [1; 2] + 4 /\ got sample_exporter `prefix_of` [1; 2] /\
  (phase sample_exporter = AtEnd -> got sample_exporter = [1; 2]) /\
  (phase sample_exporter = Reading \/ phase sample_exporter = Closing -> exists e', export_step sample_exporter e') /\
  (phase sample_exporter = Closed -> worker sample_exporter = None /\ ch sample_exporter = []).
Proof. apply (exporter_delivers [1; 2] 7 sample_exporter). exact sample_export_run. Defined.
