(* ===== verification/Import.v ===== *)
(** Import of a state-sync stream: [memiavl/import.go].

    The importer rebuilds the snapshot files from the post-order stream of
    export nodes with a stack of pending subtrees, recomputing every hash.
    Theorems: importing the export of a tree writes byte for byte the files
    that [WriteSnapshot] writes; an arbitrary stream is either refused or
    yields files that [OpenSnapshot] accepts. *)
From stdpp Require Import prelude strings.
From Stdlib Require Import ZArith Lia.
From S2P Require Import Prelude OrdMap Codec Node Hash Persisted Snapshot Export.
Local Open Scope Z_scope.

(** The [MemNode] of a pending subtree, without its children. *)
Record PendingNode : Type := mkPending {
  pn_height : Z;
  pn_size : Z;
  pn_version : Z;
  pn_key : bytes;
  pn_value : slice;
  pn_hash : bytes;
}.

(** Stacks have their top first. *)
Record importer : Type := mkImporter {
  writer : snapshotWriter;
  leavesStack : list Z;
  nodeStack : list PendingNode;
}.

Section Importer.
Context (sha256 : bytes -> bytes) (cancelled : Z -> bool).

(** [Hash] of the node before its children are dropped. *)
Definition pendingLeafHash (version : Z) (key : bytes) (value : slice) : bytes :=
  sha256 (PutVarint 0 ++ PutVarint 1 ++ PutVarint version ++
          EncodeBytes key ++ EncodeBytes (sha256 (default [] value))).
Definition pendingBranchHash (height size version : Z) (l r : bytes) : bytes :=
  sha256 (PutVarint height ++ PutVarint size ++ PutVarint version ++ EncodeBytes l ++ EncodeBytes r).

Definition Add (i : importer) (n : ExportNode) : res importer :=
  if MaxUint32 <? e_version n then Err "version overflows uint32"
  else if e_height n =? 0 then
    let v := u32 (e_version n) in
    let hash := pendingLeafHash v (e_key n) (e_value n) in
    let* w := writeLeaf cancelled (writer i) v (e_key n) (default [] (e_value n)) hash in
    Ok (mkImporter w (leafCounter w :: leavesStack i)
          (mkPending 0 1 v (e_key n) (e_value n) hash :: nodeStack i))
  else
    match leavesStack i, nodeStack i with
    | _ :: keyLeaf :: ls, rightNode :: leftNode :: ns =>
        let height := u8 (e_height n) in
        let size := i64 (pn_size leftNode + pn_size rightNode) in
        let v := u32 (e_version n) in
        let hash := pendingBranchHash height size v (pn_hash leftNode) (pn_hash rightNode) in
        let preTrees := u8 (len (nodeStack i) - 2) in
        let w := writeBranch (writer i) v (u32 size) height preTrees keyLeaf hash in
        Ok (mkImporter w (leafCounter w :: ls) (mkPending height size v (e_key n) None hash :: ns))
    | _, _ => Err "invalid node structure: branch node before its subtrees"
    end.

Fixpoint AddAll (i : importer) (nodes : list ExportNode) : res importer :=
  match nodes with
  | [] => Ok i
  | n :: nodes => let* i := Add i n in AddAll i nodes
  end.

(** [doImport]; the nodes come through the channel of the [TreeImporter]. *)
Definition doImport (version : Z) (nodes : list ExportNode) : res Files :=
  if MaxUint32 <? version then Err "version overflows uint32"
  else
    writeSnapshot (u32 version) (fun w =>
      let* i := AddAll (mkImporter w [] []) nodes in
      match leavesStack i with
      | [] => Ok (writer i, 0)
      | [_] => Ok (writer i, leafCounter (writer i))
      | _ => Err "invalid node structure, found stack size after imported"
      end).

Lemma AddAll_app i l1 l2 : AddAll i (l1 ++ l2) = let* i := AddAll i l1 in AddAll i l2.
Proof.
  revert i. induction l1 as [|n l1 IH]; intros i; simpl; [done|].
  destruct (Add i n); simpl; auto.
Qed.

(** ** Importing an export *)

Definition pend (n : Node) : PendingNode :=
  mkPending (Height n) (Size n) (Version n) (Key n) (Value n) (HashNode sha256 n).

Context (never : forall i, cancelled i = false).

Lemma fields_leaf_height n : fields_ok n -> avl n -> small n ->
  i8 (Height n) = Height n /\ u8 (i8 (Height n)) = Height n /\ u32 (Version n) = Version n /\
  (MaxUint32 <? Version n) = false.
Proof.
  intros F A S. destruct (fields_ok_bounds n F) as (_ & _ & Hv).
  pose proof (avl_height_bound n A S). rewrite i8_small, u8_small, u32_small by lia.
  split_and!; try done. unfold MaxUint32. lia.
Qed.

Lemma import_run n : forall i,
  fits (leafCounter (writer i)) (branchCounter (writer i)) (kvsOffset (writer i)) n -> small n ->
  len (nodeStack i) = leafCounter (writer i) - branchCounter (writer i) ->
  exists w, writeRecursive sha256 cancelled (writer i) n = Ok w /\
    AddAll i (exportNode <$> post_order n) =
    Ok (mkImporter w (leafCounter w :: leavesStack i) (pend n :: nodeStack i)).
Proof.
  induction n as [v k x|h s v k l IHl r IHr]; intros i F Sm Hn.
  - pose proof F as [_ _ _ _ HA _ HF _]. destruct (fields_leaf_height _ HF HA Sm) as (_ & _ & Ev & Em).
    cbn [writeRecursive post_order]. unfold writeLeaf. rewrite never, andb_false_r.
    eexists. split; [done|]. cbn [fmap list_fmap AddAll]. unfold Add, exportNode.
    cbn [e_version e_height e_key e_value Height Version Key Value] in *. rewrite Em, Ev.
    cbn [Z.eqb]. change (i8 0 =? 0) with true. cbn match. unfold writeLeaf. rewrite never, andb_false_r.
    done.
  - pose proof F as [HB HL _ _ HA HS HF _]. destruct (fields_leaf_height _ HF HA Sm) as (Eh & Eu & Ev & Em).
    destruct (fits_branch _ _ _ _ _ _ _ _ _ F) as [Fl Fr].
    pose proof (to_list_nonempty l). pose proof (to_list_nonempty r).
    assert (small l /\ small r) as [Sl Sr] by (unfold small in *; simpl in Sm; rewrite len_app in Sm; lia).
    pose proof (leaf_count_pos l). pose proof (leaf_count_pos r).
    destruct (IHl i Fl Sl Hn) as (w1 & W1 & A1).
    pose proof (writeRecursive_out sha256 cancelled never l (writer i) Fl) as O1.
    rewrite W1 in O1. injection O1 as O1.
    set (i1 := mkImporter w1 (leafCounter w1 :: leavesStack i) (pend l :: nodeStack i)) in *.
    assert (len (nodeStack i1) = leafCounter (writer i1) - branchCounter (writer i1)) as Hn1.
    { subst i1. simpl. rewrite len_cons, Hn, O1. simpl. lia. }
    destruct (IHr i1) as (w2 & W2 & A2); [subst i1; simpl; by rewrite O1|done|done|].
    pose proof (writeRecursive_out sha256 cancelled never r w1 ltac:(by rewrite O1)) as O2.
    subst i1. simpl in W2. rewrite W2 in O2. injection O2 as O2.
    cbn [writeRecursive]. rewrite W1. cbn [res_bind]. rewrite W2. cbn [res_bind].
    eexists. split; [done|]. cbn [post_order]. rewrite !fmap_app, !AddAll_app, A1. cbn [res_bind].
    rewrite AddAll_app, A2. cbn [res_bind fmap list_fmap AddAll]. unfold Add, exportNode.
    cbn [e_version e_height e_key e_value Height Version Key Value] in *. rewrite Em, Ev, Eu, Eh.
    pose proof (avl_height_nonneg _ HA) as Hh. simpl in Hh. destruct HA as (Al & Ar & Eh' & _).
    apply avl_height_nonneg in Al, Ar.
    destruct (Z.eqb_spec h 0); [lia|]. cbn [leavesStack nodeStack writer res_bind pend pn_size pn_hash].
    destruct HS as (Zl & Zr & ->). rewrite (sized_len l Zl), (sized_len r Zr).
    unfold small, max_leaves in *. simpl in Sm. rewrite len_app in Sm. rewrite i64_small by lia.
    rewrite !len_cons, Hn. pose proof (fits_pre _ _ _ _ F) as HP. simpl in HP.
    replace (1 + (1 + (leafCounter (writer i) - branchCounter (writer i))) - 2)
      with (leafCounter (writer i) - branchCounter (writer i)) by lia.
    unfold leaf_count in HL. simpl in HL. rewrite len_app in HL.
    rewrite (u32_small (leafCounter (writer i) - branchCounter (writer i))) by lia.
    unfold pend. cbn [Height Size Version Key Value].
    done.
Qed.

Lemma doImport_export v n :
  0 <= v < 2 ^ 32 -> storable n ->
  doImport v (export_stream (Some n)) = WriteSnapshotWithContext sha256 cancelled v (Some n).
Proof.
  intros Hv [W F]. unfold doImport, WriteSnapshotWithContext, writeSnapshot, export_stream, MaxUint32.
  destruct (Z.ltb_spec (2 ^ 32 - 1) v); [lia|]. rewrite u32_small by lia.
  assert (small n) as Sm.
  { pose proof (fits_L _ _ _ _ F). unfold leaf_count in *. unfold small, max_leaves. lia. }
  destruct (import_run n (mkImporter newSnapshotWriter [] []) F Sm) as (w & E & A); [done|].
  cbn [writer from_option] in *. rewrite E, A. done.
Qed.

(** ** Arbitrary streams *)

Context (sha256_len : forall b, len (sha256 b) = 32).

(** Files and counters agree while fewer than [2^32] nodes were added. *)
Record consistent (i : importer) (k : Z) : Prop := {
  cs_stacks : len (leavesStack i) = len (nodeStack i);
  cs_pending : len (nodeStack i) = leafCounter (writer i) - branchCounter (writer i);
  cs_count : leafCounter (writer i) + branchCounter (writer i) = k;
  cs_pos : 0 <= branchCounter (writer i) <= leafCounter (writer i);
  cs_nodes : len (nodesWriter (writer i)) = branchCounter (writer i) * SizeNode;
  cs_leaves : len (leavesWriter (writer i)) = leafCounter (writer i) * SizeLeaf;
}.

Lemma Add_consistent i k n i' :
  consistent i k -> k + 1 < 2 ^ 32 -> Add i n = Ok i' -> consistent i' (k + 1).
Proof.
  intros [S1 S2 S3 S4 S5 S6] Hk. unfold Add. rewrite SizeNode_eq, SizeLeaf_eq in *.
  destruct (MaxUint32 <? e_version n); [done|]. destruct (e_height n =? 0).
  - unfold writeLeaf. rewrite never, andb_false_r. cbn [res_bind]. intros <-%Ok_inj.
    constructor; cbn [writer leavesStack nodeStack writeKeyValue leafCounter branchCounter nodesWriter leavesWriter kvsOffset];
      rewrite ?SizeNode_eq, ?SizeLeaf_eq, ?len_cons, ?(u32_small (leafCounter _ + 1)) by lia; try lia.
    rewrite !len_app, !len_Put32, len_Put64. unfold pendingLeafHash. rewrite sha256_len. lia.
  - destruct (leavesStack i) as [|a [|kl ls]], (nodeStack i) as [|b [|c ns]]; try done.
    intros <-%Ok_inj. rewrite !len_cons in *. pose proof (len_nonneg ns).
    constructor; cbn [writer leavesStack nodeStack writeBranch leafCounter branchCounter nodesWriter leavesWriter];
      rewrite ?SizeNode_eq, ?SizeLeaf_eq, ?len_cons, ?(u32_small (branchCounter _ + 1)) by lia; try lia.
    rewrite !len_app, !len_Put32. unfold pendingBranchHash. rewrite sha256_len.
    rewrite !len_cons, len_nil. lia.
Qed.

Lemma AddAll_consistent nodes : forall i k i',
  consistent i k -> k + len nodes < 2 ^ 32 -> AddAll i nodes = Ok i' -> consistent i' (k + len nodes).
Proof.
  induction nodes as [|n nodes IH]; intros i k i' Hc Hk.
  - intros [= <-]. by rewrite len_nil, Z.add_0_r.
  - rewrite len_cons in Hk. pose proof (len_nonneg nodes). cbn [AddAll]. rewrite res_bind_ok.
    intros (i1 & E1 & E2). apply Add_consistent with (k := k) in E1; [|done|lia].
    rewrite len_cons, Z.add_assoc. eapply IH; eauto. lia.
Qed.

Lemma doImport_opens v nodes f :
  0 <= v -> len nodes < 2 ^ 32 -> doImport v nodes = Ok f ->
  exists s, OpenSnapshot f = Ok s /\ version s = v.
Proof.
  intros Hv0 Hn. unfold doImport, writeSnapshot, MaxUint32. destruct (Z.ltb_spec (2 ^ 32 - 1) v); [done|].
  rewrite u32_small by lia. rewrite res_bind_ok. intros ([w lv] & E & Ef). rewrite res_bind_ok in E.
  destruct E as (i & E & Es).
  assert (consistent i (len nodes)) as [S1 S2 S3 S4 S5 S6].
  { apply (AddAll_consistent nodes (mkImporter newSnapshotWriter [] []) 0); [|lia|done]. by constructor. }
  assert (Hempty : f = mkFiles [] [] [] (metadata v) -> exists s, OpenSnapshot f = Ok s /\ version s = v).
  { intros ->. rewrite (OpenSnapshot_metadata _ v) by (try done; lia). by eexists. }
  destruct (leavesStack i) as [|a [|b ls]]; [| |done].
  { apply Ok_inj in Es. apply (f_equal snd) in Es as E2. simpl in E2. subst lv. apply Hempty.
    by apply Ok_inj in Ef as <-. }
  apply Ok_inj in Es. injection Es as <- <-. set (w := writer i) in *.
  destruct (0 <? leafCounter w) eqn:E0; [|by apply Hempty; apply Ok_inj in Ef as <-].
  apply Ok_inj in Ef as <-. rewrite (OpenSnapshot_metadata _ v) by (try done; lia).
  unfold openData. cbn [f_nodes f_leaves f_kvs f_metadata]. rewrite S5, S6, SizeNode_eq, SizeLeaf_eq.
  rewrite !Z.mod_mul, !Z.div_mul by lia. cbn [Z.eqb negb]. rewrite <- S1 in S2. rewrite len_cons, len_nil in S2.
  replace (branchCounter w + 1 =? leafCounter w) with true by lia.
  replace (leafCounter w =? 0) with false by lia. rewrite andb_false_r. by eexists.
Qed.
End Importer.

Lemma Add_no_panic sha256 c i n m : Add sha256 c i n <> Panic m.
Proof.
  unfold Add, writeLeaf. destruct (_ <? _); [done|]. destruct (_ =? 0).
  - by destruct (_ && _).
  - by destruct (leavesStack i) as [|? [|? ?]], (nodeStack i) as [|? [|? ?]].
Qed.

Lemma AddAll_no_panic sha256 c nodes : forall i m, AddAll sha256 c i nodes <> Panic m.
Proof.
  induction nodes as [|n nodes IH]; intros i m; simpl; [done|].
  pose proof (Add_no_panic sha256 c i n). destruct (Add sha256 c i n); simpl; [apply IH|done|naive_solver].
Qed.

Lemma doImport_no_panic sha256 c v nodes m : doImport sha256 c v nodes <> Panic m.
Proof.
  unfold doImport, writeSnapshot. destruct (_ <? _); [done|].
  pose proof (AddAll_no_panic sha256 c nodes (mkImporter newSnapshotWriter [] [])).
  destruct (AddAll _ _ _ _) as [i|e|p]; simpl; [|done|naive_solver].
  destruct (leavesStack i) as [|? [|? ?]]; simpl; [done|by destruct (0 <? _)|done].
Qed.

(** ** Properties *)

(** C5: Importing the exported stream of a tree writes, byte for byte, the
    snapshot files that writing the tree itself produces, hashes recomputed by
    the importer included; so export followed by import is the identity on
    snapshots. *)
Theorem import_inverts_export (sha256 : bytes -> bytes) (sha256_len : forall b, len (sha256 b) = 32)
  (v : Z) (n : Node) (Hv : 0 <= v < 2 ^ 32) (St : storable n) :
  exists f s, WriteSnapshotWithContext sha256 (fun _ => false) v (Some n) = Ok f /\
    OpenSnapshot f = Ok s /\ root s = Some (root_at 0 0 n) /\
    Persisted.Hash s (root_at 0 0 n) = Some (HashNode sha256 n) /\
    doImport sha256 (fun _ => false) v (export_stream (Some n)) = Ok f.
Proof.
  destruct (write_open sha256 sha256_len (fun _ => false) (fun _ => eq_refl) v n Hv St)
    as (f & s & Ew & Eo & Ev & Er & Sd & Hk). pose proof St as [(_ & _ & So) F].
  pose proof (stored_presents sha256 sha256_len s n 0 0 0 Sd F So Hk) as P.
  exists f, s. split_and!; try done.
  - destruct n; apply P.
  - by rewrite (doImport_export sha256 (fun _ => false) (fun _ => eq_refl) v n Hv St).
Qed.

Lemma import_inverts_export_witness :
  exists f s, WriteSnapshotWithContext digest32 (fun _ => false) 7 (Some two_leaves) = Ok f /\
    OpenSnapshot f = Ok s /\ root s = Some (root_at 0 0 two_leaves) /\
    Persisted.Hash s (root_at 0 0 two_leaves) = Some (HashNode digest32 two_leaves) /\
    doImport digest32 (fun _ => false) 7 (export_stream (Some two_leaves)) = Ok f.
Proof. exact (import_inverts_export digest32 digest32_len 7 two_leaves ltac:(lia) two_leaves_storable). Defined.

(** An arbitrary stream of fewer than 2^32 export nodes, as a peer may
    send it, is either refused with an error or leaves snapshot files that
    [OpenSnapshot] accepts at the requested version. *)
Theorem import_result_opens (sha256 : bytes -> bytes) (sha256_len : forall b, len (sha256 b) = 32)
  (v : Z) (nodes : list ExportNode) (Hv : 0 <= v) (Hn : len nodes < 2 ^ 32) :
  (exists e, doImport sha256 (fun _ => false) v nodes = Err e) \/
  exists f s, doImport sha256 (fun _ => false) v nodes = Ok f /\ OpenSnapshot f = Ok s /\ version s = v.
Proof.
  destruct (doImport sha256 (fun _ => false) v nodes) as [f|e|m] eqn:E; [right|left; eauto|exfalso].
  - destruct (doImport_opens sha256 (fun _ => false) (fun _ => eq_refl) sha256_len v nodes f Hv Hn E) as (s & ? & ?).
    eauto.
  - by apply doImport_no_panic in E.
Qed.

Lemma import_result_opens_witness :
  (exists e, doImport digest32 (fun _ => false) 3 [mkExport [] None 1 1] = Err e) \/
  exists f s, doImport digest32 (fun _ => false) 3 [mkExport [] None 1 1] = Ok f /\ OpenSnapshot f = Ok s /\ version s = 3.
Proof.
  exact (import_result_opens digest32 digest32_len 3 [mkExport [] None 1 1] ltac:(lia) ltac:(vm_compute; done)).
Defined.
