(* ===== verification/MultiTree.v ===== *)
(** The multi-tree: [memiavl/multitree.go].

    A [MultiTree] keeps the trees of all stores, ordered by name, with an
    index by name and the commit info of the last version.  A tree is given by
    its version and its value; [TreeSpec.v] proves that the trees over the
    store of nodes implement these values, one store of nodes per tree.

    Theorems: version and log-index conversions are inverse; upgrades keep the
    names sorted, unique and indexed, or fail; [SaveVersion] changes nothing
    when a version counter would overflow; replaying the log gives the state,
    commit info included, of the run that wrote it; a snapshot of all trees
    loads to the same multi-tree. *)
From stdpp Require Import prelude strings gmap fin_maps sorting.
From Stdlib Require Import ZArith Lia.
From S2P Require Import Prelude OrdMap Codec Node Hash Cache Persisted Snapshot Tree TreeSpec.
Local Open Scope Z_scope.

Abbreviation name := bytes.

(** A tree as a value. *)
Record VTree : Type := mkVTree { vt_version : Z; vt_root : option Node }.

Record NamedTree : Type := mkNamed { nt_name : name; nt_tree : VTree }.

Record CommitID : Type := mkCommitID { cid_version : Z; cid_hash : bytes }.
Record StoreInfo : Type := mkStoreInfo { si_name : name; si_commit : CommitID }.
Record CommitInfo : Type := mkCommitInfo { ci_version : Z; ci_stores : list StoreInfo }.

Record TreeNameUpgrade : Type := mkUpgrade {
  up_name : name;
  up_renameFrom : name;
  up_delete : bool;
}.
Record NamedChangeSet : Type := mkNamedCS { ncs_name : name; ncs_changeset : ChangeSet }.
Record WALEntry : Type := mkEntry {
  we_changesets : list NamedChangeSet;
  we_upgrades : list TreeNameUpgrade;
}.

(** [zeroCopy], [cacheSize] and [chainId] do not influence the values. *)
Record MultiTree : Type := mkMulti {
  initialVersion : Z;
  trees : list NamedTree;
  treesByName : gmap name nat;
  lastCommitInfo : CommitInfo;
  metadataInfo : CommitInfo;
}.

Definition with_trees (t : MultiTree) (ts : list NamedTree) : MultiTree :=
  mkMulti (initialVersion t) ts (treesByName t) (lastCommitInfo t) (metadataInfo t).
Definition with_index (t : MultiTree) (m : gmap name nat) : MultiTree :=
  mkMulti (initialVersion t) (trees t) m (lastCommitInfo t) (metadataInfo t).
Definition with_commit (t : MultiTree) (c : CommitInfo) : MultiTree :=
  mkMulti (initialVersion t) (trees t) (treesByName t) c (metadataInfo t).

Definition NewEmptyMultiTree (initialVersion : Z) : MultiTree :=
  mkMulti initialVersion [] ∅ (mkCommitInfo 0 []) (mkCommitInfo 0 []).

(** ** Versions and log indices *)

Definition nextVersion (v initialVersion : Z) : Z :=
  if (v =? 0) && (1 <? initialVersion) then initialVersion else i64 (v + 1).

Definition walIndex (v initialVersion : Z) : Z :=
  if 1 <? initialVersion then u64 (u64 (u64 v - u64 initialVersion) + 1) else u64 v.

Definition walVersion (index initialVersion : Z) : Z :=
  if 1 <? initialVersion then i64 (i64 (i64 index + initialVersion) - 1) else i64 index.

(** ** Single trees *)

Definition vtSetInitialVersion (t : VTree) (initialVersion : Z) : VTree :=
  if 0 <? vt_version t then t
  else if initialVersion <? 1 then mkVTree 0 (vt_root t)
  else mkVTree (initialVersion - 1) (vt_root t).

Definition vtNew (initialVersion : Z) : res VTree :=
  if initialVersion <=? 1 then Ok (mkVTree 0 None)
  else if MaxUint32 <=? initialVersion - 1 then Panic "version overflows uint32"
  else Ok (mkVTree (initialVersion - 1) None).

Definition vtApply (t : VTree) (cs : ChangeSet) : VTree :=
  mkVTree (vt_version t) (pure_apply (vt_root t) (u32 (vt_version t + 1)) cs).

Definition vtOverflow (t : VTree) : bool := vt_version t =? MaxUint32.
Definition vtSave (t : VTree) : VTree := mkVTree (u32 (vt_version t + 1)) (vt_root t).

(** ** Lookup and setup *)

Definition TreeByName (t : MultiTree) (n : name) : option VTree :=
  let? i := treesByName t !! n in nt_tree <$> trees t !! i.

Definition MTVersion (t : MultiTree) : Z := ci_version (lastCommitInfo t).
Definition SnapshotVersion (t : MultiTree) : Z := ci_version (metadataInfo t).

Definition MTsetInitialVersion (t : MultiTree) (v : Z) : MultiTree :=
  mkMulti v
    (if 1 <? v then (fun e => mkNamed (nt_name e) (vtSetInitialVersion (nt_tree e) v)) <$> trees t else trees t)
    (treesByName t) (lastCommitInfo t) (metadataInfo t).

Definition MTSetInitialVersion (t : MultiTree) (v : Z) : res MultiTree :=
  if MaxUint32 <=? v then Err "version overflows uint32"
  else if negb (MTVersion t =? 0) then Err "multi tree is not empty"
  else if existsb (fun e => match vt_root (nt_tree e) with None => false | Some _ => true end) (trees t)
  then Err "tree is not empty"
  else Ok (MTsetInitialVersion t (u32 v)).

Definition index_trees (ts : list NamedTree) : gmap name nat :=
  fst (fold_left (fun '(m, i) e => (<[nt_name e := i]> m, S i)) ts (∅ : gmap name nat, 0%nat)).

(** [Copy]: the trees are copied one by one and the index rebuilt. *)
Definition MTCopy (t : MultiTree) : MultiTree :=
  mkMulti (initialVersion t) (trees t)
    (index_trees (trees t)) (lastCommitInfo t) (metadataInfo t).

Definition MTClose (t : MultiTree) : MultiTree :=
  mkMulti (initialVersion t) [] ∅ (mkCommitInfo 0 []) (metadataInfo t).

(** ** Upgrades *)

(** [slices.IndexFunc] on the names. *)
Fixpoint index_of (n : name) (ts : list NamedTree) : option nat :=
  match ts with
  | [] => None
  | e :: ts => if decide (nt_name e = n) then Some 0%nat else S <$> index_of n ts
  end.

(** Swap with the last element, then shorten. *)
Definition swap_delete {A} (i : nat) (ts : list A) : list A :=
  match last ts with
  | None => []
  | Some e => take (length ts - 1) (<[i := e]> ts)
  end.

Definition apply_upgrade (v iv : Z) (ts : list NamedTree) (u : TreeNameUpgrade) : res (list NamedTree) :=
  if up_delete u then
    match index_of (up_name u) ts with
    | None => Err "unknown tree name"
    | Some i => Ok (swap_delete i ts)
    end
  else if negb (bool_decide (up_renameFrom u = [])) then
    match index_of (up_renameFrom u) ts with
    | None => Err "unknown tree name"
    | Some i => Ok (alter (fun e => mkNamed (up_name u) (nt_tree e)) i ts)
    end
  else
    let* tree := vtNew (u32 (nextVersion v iv)) in
    Ok (ts ++ [mkNamed (up_name u) tree]).

Fixpoint apply_upgrades (v iv : Z) (ts : list NamedTree) (us : list TreeNameUpgrade) : res (list NamedTree) :=
  match us with
  | [] => Ok ts
  | u :: us => let* ts := apply_upgrade v iv ts u in apply_upgrades v iv ts us
  end.

(** [sort.SliceStable] by name. *)
Fixpoint insert_by_name (e : NamedTree) (ts : list NamedTree) : list NamedTree :=
  match ts with
  | [] => [e]
  | x :: ts' => if bytes_ltb (nt_name x) (nt_name e) then x :: insert_by_name e ts' else e :: ts
  end.
Definition sort_by_name (ts : list NamedTree) : list NamedTree := foldr insert_by_name [] ts.

(** The index, rebuilt in order; a name that occurs twice is an error. *)
Fixpoint build_index (m : gmap name nat) (i : nat) (ts : list NamedTree) : res (gmap name nat) :=
  match ts with
  | [] => Ok m
  | e :: ts =>
      match m !! nt_name e with
      | Some _ => Err "memiavl tree name conflicts"
      | None => build_index (<[nt_name e := i]> m) (S i) ts
      end
  end.

(** A failed call leaves the multi-tree unusable (the index is gone), so the
    result on error carries no state. *)
Definition ApplyUpgrades (t : MultiTree) (us : list TreeNameUpgrade) : res MultiTree :=
  match us with
  | [] => Ok t
  | _ =>
      let* ts := apply_upgrades (MTVersion t) (initialVersion t) (trees t) us in
      let ts := sort_by_name ts in
      let* m := build_index ∅ 0 ts in
      Ok (with_index (with_trees t ts) m)
  end.

(** ** Change sets *)

Definition MTApplyChangeSet (t : MultiTree) (n : name) (cs : ChangeSet) : res MultiTree :=
  match treesByName t !! n with
  | None => Err "unknown tree name"
  | Some i =>
      match trees t !! i with
      | None => Panic "index out of range"
      | Some _ => Ok (with_trees t (alter (fun e => mkNamed (nt_name e) (vtApply (nt_tree e) cs)) i (trees t)))
      end
  end.

Fixpoint ApplyChangeSets (t : MultiTree) (css : list NamedChangeSet) : res MultiTree :=
  match css with
  | [] => Ok t
  | cs :: css => let* t := MTApplyChangeSet t (ncs_name cs) (ncs_changeset cs) in ApplyChangeSets t css
  end.

Definition applyWALEntry (t : MultiTree) (e : WALEntry) : res MultiTree :=
  let* t := ApplyUpgrades t (we_upgrades e) in ApplyChangeSets t (we_changesets e).

Section Commit.
Context (sha256 : bytes -> bytes).

Definition buildCommitInfo (t : MultiTree) (version : Z) : CommitInfo :=
  mkCommitInfo version
    ((fun e => mkStoreInfo (nt_name e)
        (mkCommitID (vt_version (nt_tree e)) (rootHash sha256 (vt_root (nt_tree e))))) <$> trees t).

Definition WorkingCommitInfo (t : MultiTree) : CommitInfo :=
  buildCommitInfo t (nextVersion (ci_version (lastCommitInfo t)) (initialVersion t)).

Definition UpdateCommitInfo (t : MultiTree) : MultiTree :=
  with_commit t (buildCommitInfo t (ci_version (lastCommitInfo t))).

(** [SaveVersion]: every tree is checked before anything changes. *)
Definition MTSaveVersion (t : MultiTree) (updateCommitInfo : bool) : res (Z * MultiTree) :=
  if existsb (fun e => vtOverflow (nt_tree e)) (trees t) then Err "version overflows uint32"
  else
    let v := nextVersion (ci_version (lastCommitInfo t)) (initialVersion t) in
    let t := with_trees (with_commit t (mkCommitInfo v (ci_stores (lastCommitInfo t))))
               ((fun e => mkNamed (nt_name e) (vtSave (nt_tree e))) <$> trees t) in
    let t := if updateCommitInfo then UpdateCommitInfo t
             else with_commit t (mkCommitInfo v []) in
    Ok (ci_version (lastCommitInfo t), t).

(** [commitInfoEqual]: [None] when the two agree. *)
Fixpoint storeInfosEqual (want got : list StoreInfo) : option string :=
  match want, got with
  | w :: want, g :: got =>
      if negb (bool_decide (si_name w = si_name g)) then Some "store name mismatch"
      else if negb (cid_version (si_commit w) =? cid_version (si_commit g)) then Some "store version mismatch"
      else if negb (bool_decide (cid_hash (si_commit w) = cid_hash (si_commit g))) then Some "store hash mismatch"
      else storeInfosEqual want got
  | _, _ => None
  end.

Definition commitInfoEqual (trusted actual : CommitInfo) : option string :=
  if negb (ci_version trusted =? ci_version actual) then Some "version mismatch"
  else if negb (len (ci_stores trusted) =? len (ci_stores actual)) then Some "store count mismatch"
  else storeInfosEqual (ci_stores trusted) (ci_stores actual).

(** ** Replay *)

(** What replay reads of the log. *)
Record walReader : Type := mkReader {
  LastIndex : Z;
  ReadEntry : Z -> res WALEntry;
}.

Definition replay_entry (t : MultiTree) (e : WALEntry) : res MultiTree :=
  let* t := applyWALEntry t e in
  let* (_, t) := MTSaveVersion t false in Ok t.

(** [for i := first; i <= end; i++], as many rounds as entries. *)
Fixpoint replay_from (k : nat) (r : walReader) (i : Z) (t : MultiTree) : res MultiTree :=
  match k with
  | O => Ok t
  | S k =>
      let* e := ReadEntry r i in
      let* t := replay_entry t e in
      replay_from k r (i + 1) t
  end.

Definition catchupWAL (t : MultiTree) (r : walReader) (endVersion : Z) : res MultiTree :=
  if endVersion <? 0 then Err "invalid end version"
  else
    let lastIndex := LastIndex r in
    let firstIndex := walIndex (nextVersion (MTVersion t) (initialVersion t)) (initialVersion t) in
    if lastIndex <? firstIndex then Ok t
    else
      let endIndex := if endVersion =? 0 then lastIndex else walIndex endVersion (initialVersion t) in
      if endIndex <? firstIndex then Err "target index is pruned"
      else
        let endIndex := Z.min endIndex lastIndex in
        let* t := replay_from (Z.to_nat (endIndex - firstIndex + 1)) r firstIndex t in
        Ok (UpdateCommitInfo t).

(** ** Snapshots of all trees *)

(** The snapshot directory: one directory per tree and the metadata file. *)
Record Dir : Type := mkDir {
  d_trees : list (name * Files);
  d_commit : CommitInfo;
  d_initial : Z;
}.

(** A write of a tree may be cancelled; the first error is reported and the
    metadata file is not written. *)
Fixpoint write_trees (cancelled : Z -> bool) (ts : list NamedTree) : res (list (name * Files)) :=
  match ts with
  | [] => Ok []
  | e :: ts =>
      let* f := Snapshot.WriteSnapshotWithContext sha256 cancelled (vt_version (nt_tree e)) (vt_root (nt_tree e)) in
      let* rest := write_trees cancelled ts in
      Ok ((nt_name e, f) :: rest)
  end.

(** [cancelledAtEnd]: the context was cancelled after the last write started. *)
Definition MTWriteSnapshot (cancelled : Z -> bool) (cancelledAtEnd : bool) (t : MultiTree) : res Dir :=
  let* fs := write_trees cancelled (trees t) in
  if cancelledAtEnd then Err "context canceled"
  else Ok (mkDir fs (lastCommitInfo t) (initialVersion t)).

(** [OpenSnapshot] and [NewFromSnapshot] of one tree directory. *)
Definition open_tree (f : Files) : res VTree :=
  let* s := OpenSnapshot f in
  if IsEmpty s then Ok (mkVTree (version s) None)
  else
    let* p := RootNode s in
    let* n := of_option "slice bounds out of range" (load depth s p) in
    Ok (mkVTree (version s) (Some n)).

Fixpoint open_trees (ds : list (name * Files)) : res (list NamedTree) :=
  match ds with
  | [] => Ok []
  | (n, f) :: ds =>
      let* t := open_tree f in
      let* rest := open_trees ds in
      Ok (mkNamed n t :: rest)
  end.

Definition readMetadata (d : Dir) : res (CommitInfo * Z) :=
  if MaxUint32 <? ci_version (d_commit d) then Err "commit info version overflows uint32"
  else if MaxUint32 <? d_initial d then Err "initial version overflows uint32"
  else Ok (d_commit d, d_initial d).

Definition LoadMultiTree (d : Dir) : res MultiTree :=
  let* (commit, iv) := readMetadata d in
  let* ts := open_trees (d_trees d) in
  let ts := sort_by_name ts in
  let t := MTsetInitialVersion (mkMulti 0 ts (index_trees ts) commit commit) (u32 iv) in
  let actualVersion := match trees t with
                       | [] => ci_version commit
                       | e :: _ => vt_version (nt_tree e)
                       end in
  match commitInfoEqual commit (buildCommitInfo t actualVersion) with
  | Some e => Err ("snapshot metadata commit info does not match loaded trees: " ++ e)
  | None => Ok t
  end.

End Commit.

(** ** Names and the index *)

Definition names (ts : list NamedTree) : list name := nt_name <$> ts.
Definition names_sorted (ts : list NamedTree) : Prop := StronglySorted bytes_lt (names ts).

(** The index maps exactly the names of the trees to their positions. *)
Definition index_ok (m : gmap name nat) (ts : list NamedTree) : Prop :=
  forall n i, m !! n = Some i <-> exists e, ts !! i = Some e /\ nt_name e = n.

Record mt_wf (t : MultiTree) : Prop := {
  wf_sorted : names_sorted (trees t);
  wf_index : index_ok (treesByName t) (trees t);
}.

Lemma insert_by_name_perm e ts : insert_by_name e ts ≡ₚ e :: ts.
Proof.
  induction ts as [|x ts IH]; simpl; [done|]. destruct (bytes_ltb (nt_name x) (nt_name e)); [|done].
  rewrite IH. constructor.
Qed.

Lemma sort_by_name_perm ts : sort_by_name ts ≡ₚ ts.
Proof. induction ts as [|e ts IH]; simpl; [done|]. by rewrite insert_by_name_perm, IH. Qed.

Definition not_above (a b : name) : Prop := ~ b ≺ a.

Lemma insert_by_name_sorted e ts :
  StronglySorted not_above (names ts) -> StronglySorted not_above (names (insert_by_name e ts)).
Proof.
  induction ts as [|x ts IH]; simpl; intros S; [repeat constructor|].
  inversion S as [|? ? S' F]; subst. destruct (bytes_ltb (nt_name x) (nt_name e)) eqn:E.
  - simpl. constructor; [by apply IH|]. apply bytes_ltb_lt in E.
    unfold names. rewrite insert_by_name_perm. simpl. constructor; [|done].
    intros H. apply (bytes_lt_irrefl (nt_name x)). by transitivity (nt_name e).
  - apply bytes_ltb_nlt in E. simpl. constructor; [done|]. constructor; [done|].
    rewrite Forall_forall in F |- *. intros y Hy. by apply (bytes_nlt_trans _ (nt_name x)); [|apply F].
Qed.

Lemma sort_by_name_sorted ts : StronglySorted not_above (names (sort_by_name ts)).
Proof. induction ts as [|e ts IH]; simpl; [constructor|]. by apply insert_by_name_sorted. Qed.

Lemma sorted_strict l : StronglySorted not_above l -> NoDup l -> StronglySorted bytes_lt l.
Proof.
  induction 1 as [|x l S IH F]; intros N; [constructor|]. apply NoDup_cons in N as [Hx N].
  constructor; [by apply IH|]. rewrite Forall_forall in F |- *. intros y Hy.
  destruct (bytes_lt_total x y) as [?|[->|?]]; [done|done|]. by apply F in Hy.
Qed.

Lemma strict_nodup l : StronglySorted bytes_lt l -> NoDup l.
Proof.
  induction 1 as [|x l S IH F]; constructor; [|done]. intros Hx. rewrite Forall_forall in F.
  apply F in Hx. by apply bytes_lt_irrefl in Hx.
Qed.

(** Sorting a list that is sorted by distinct names changes nothing. *)
Lemma sort_by_name_id ts : names_sorted ts -> sort_by_name ts = ts.
Proof.
  unfold names_sorted. induction ts as [|e ts IH]; simpl; intros S; [done|].
  inversion S as [|? ? S' F]; subst. rewrite IH by done. destruct ts as [|x ts]; [done|]. simpl.
  inversion F as [|? ? Hx _]; subst. destruct (bytes_ltb (nt_name x) (nt_name e)) eqn:E; [|done].
  apply bytes_ltb_lt in E. exfalso. apply (bytes_lt_irrefl (nt_name e)). by transitivity (nt_name x).
Qed.

Lemma build_index_ok ts : forall m i m',
  build_index m i ts = Ok m' ->
  NoDup (names ts) /\ (forall n, n ∈ names ts -> m !! n = None) /\
  (forall n j, m' !! n = Some j <->
    m !! n = Some j \/ exists k e, ts !! k = Some e /\ nt_name e = n /\ j = (i + k)%nat).
Proof.
  induction ts as [|e ts IH]; intros m i m' E; simpl in E.
  - apply Ok_inj in E as <-. split_and!; [constructor|by intros n ?%elem_of_nil|].
    intros n j. split; [by left|]. by intros [?|(k & e & Hk & _)].
  - destruct (m !! nt_name e) eqn:Em; [done|]. destruct (IH _ _ _ E) as (N & D & H). split_and!.
    + simpl. constructor; [|done]. intros Hin%D. by rewrite lookup_insert_eq in Hin.
    + intros n [->|Hin]%elem_of_cons; [done|]. apply D in Hin as Hn.
      destruct (decide (n = nt_name e)) as [->|]; [done|]. by rewrite lookup_insert_ne in Hn by done.
    + intros n j. rewrite H. split.
      * intros [Hi|(k & e' & Hk & En & ->)].
        -- destruct (decide (n = nt_name e)) as [->|].
           ++ rewrite lookup_insert_eq in Hi. right. exists 0%nat, e. split_and!; try done.
              injection Hi as <-. lia.
           ++ rewrite lookup_insert_ne in Hi by done. by left.
        -- right. exists (S k), e'. split_and!; try done. lia.
      * intros [Hi|([|k] & e' & Hk & En & ->)].
        -- left. rewrite lookup_insert_ne; [done|]. intros Hx. rewrite Hx in Em. congruence.
        -- simpl in Hk. injection Hk as <-. left. subst n. rewrite lookup_insert_eq. f_equal. lia.
        -- right. exists k, e'. split_and!; try done. lia.
Qed.

Lemma build_index_index ts m : build_index ∅ 0 ts = Ok m -> NoDup (names ts) /\ index_ok m ts.
Proof.
  intros E. destruct (build_index_ok _ _ _ _ E) as (N & _ & H). split; [done|].
  intros n j. rewrite H, lookup_empty. naive_solver.
Qed.

(** The loop of [Copy] and [LoadMultiTree] builds the same index. *)
Lemma index_trees_build ts : forall m i,
  NoDup (names ts) -> (forall n, n ∈ names ts -> m !! n = None) ->
  build_index m i ts = Ok (fold_left (fun '(m, i) e => (<[nt_name e := i]> m, S i)) ts (m, i)).1.
Proof.
  induction ts as [|e ts IH]; intros m i N D; [done|]. simpl. apply NoDup_cons in N as [Hn N].
  rewrite D by by left. apply IH; [done|]. intros n Hin. rewrite lookup_insert_ne.
  - apply D. by right.
  - intros <-. done.
Qed.

Lemma index_trees_ok ts : NoDup (names ts) -> index_ok (index_trees ts) ts.
Proof.
  intros N. apply build_index_index. apply index_trees_build; [done|]. intros. apply lookup_empty.
Qed.

(** Two indices of the same trees are equal. *)
Lemma index_unique m m' ts : index_ok m ts -> index_ok m' ts -> m = m'.
Proof.
  intros H H'. apply map_eq. intros n. apply option_eq. intros i. by rewrite (H n i), (H' n i).
Qed.

Lemma ApplyUpgrades_wf t us t' : mt_wf t -> ApplyUpgrades t us = Ok t' -> mt_wf t'.
Proof.
  intros W. unfold ApplyUpgrades. destruct us as [|u us]; [by intros <-%Ok_inj|].
  rewrite res_bind_ok. intros (ts & _ & E). rewrite res_bind_ok in E. destruct E as (m & Em & E).
  apply Ok_inj in E as <-. destruct (build_index_index _ _ Em) as [N I]. split; [|done].
  apply sorted_strict; [apply sort_by_name_sorted|done].
Qed.

Lemma names_alter ts i f : (forall e, nt_name (f e) = nt_name e) -> names (alter f i ts) = names ts.
Proof.
  intros Hf. unfold names. revert i. induction ts as [|e ts IH]; intros [|i]; simpl; try done.
  - by rewrite Hf.
  - f_equal. apply IH.
Qed.

Lemma index_names m ts ts' : names ts = names ts' -> index_ok m ts -> index_ok m ts'.
Proof.
  intros E H n i. rewrite (H n i). unfold names in E.
  assert (forall l : list NamedTree, (exists e, l !! i = Some e /\ nt_name e = n) <-> (nt_name <$> l) !! i = Some n) as K.
  { intros l. rewrite list_lookup_fmap_Some. naive_solver. }
  by rewrite !K, E.
Qed.

Lemma wf_names t ts : mt_wf t -> names ts = names (trees t) -> mt_wf (with_trees t ts).
Proof.
  intros [S I] E. split; simpl.
  - unfold names_sorted. by rewrite E.
  - by eapply index_names.
Qed.

Lemma MTApplyChangeSet_wf t n cs t' : mt_wf t -> MTApplyChangeSet t n cs = Ok t' -> mt_wf t'.
Proof.
  intros W. unfold MTApplyChangeSet. destruct (treesByName t !! n) as [i|]; [|done].
  destruct (trees t !! i); [|done]. intros <-%Ok_inj. apply wf_names; [done|]. by apply names_alter.
Qed.

Lemma ApplyChangeSets_wf css : forall t t', mt_wf t -> ApplyChangeSets t css = Ok t' -> mt_wf t'.
Proof.
  induction css as [|cs css IH]; intros t t' W; simpl; [by intros <-%Ok_inj|].
  rewrite res_bind_ok. intros (t1 & E1 & E2). apply (IH t1); [|done]. by eapply MTApplyChangeSet_wf.
Qed.

Lemma applyWALEntry_wf t e t' : mt_wf t -> applyWALEntry t e = Ok t' -> mt_wf t'.
Proof.
  intros W. unfold applyWALEntry. rewrite res_bind_ok. intros (t1 & E1 & E2).
  eapply ApplyChangeSets_wf; [|done]. by eapply ApplyUpgrades_wf.
Qed.

(** ** Replay *)

Section Replay.
Context (sha256 : bytes -> bytes).

(** One committed version of a running node. *)
Definition live_entry (t : MultiTree) (e : WALEntry) : res MultiTree :=
  let* t := applyWALEntry t e in
  let* (_, t) := MTSaveVersion sha256 t true in Ok t.

Fixpoint run_entries (step : MultiTree -> WALEntry -> res MultiTree) (t : MultiTree) (es : list WALEntry)
  : res MultiTree :=
  match es with
  | [] => Ok t
  | e :: es => let* t := step t e in run_entries step t es
  end.

Lemma run_entries_app step t es1 es2 :
  run_entries step t (es1 ++ es2) = let* t := run_entries step t es1 in run_entries step t es2.
Proof.
  revert t. induction es1 as [|e es1 IH]; intros t; simpl; [done|]. destruct (step t e); simpl; auto.
Qed.

(** Equal up to the store infos of the commit info. *)
Definition agree (t t' : MultiTree) : Prop :=
  exists ss, t' = with_commit t (mkCommitInfo (ci_version (lastCommitInfo t)) ss).

Lemma agree_refl t : agree t t.
Proof. exists (ci_stores (lastCommitInfo t)). by destruct t as [? ? ? [? ?] ?]. Qed.

Definition res_rel {A} (R : A -> A -> Prop) (x y : res A) : Prop :=
  match x, y with
  | Ok a, Ok b => R a b
  | Err e, Err e' => e = e'
  | Panic m, Panic m' => m = m'
  | _, _ => False
  end.

Lemma res_rel_bind {A B} (R : A -> A -> Prop) (S : B -> B -> Prop) x y f g :
  res_rel R x y -> (forall a b, R a b -> res_rel S (f a) (g b)) -> res_rel S (res_bind x f) (res_bind y g).
Proof. destruct x, y; simpl; auto; done. Qed.

Lemma applyWALEntry_agree t t' e : agree t t' -> res_rel agree (applyWALEntry t e) (applyWALEntry t' e).
Proof.
  intros Ha. unfold applyWALEntry. eapply (res_rel_bind agree).
  - destruct Ha as [ss ->]. unfold ApplyUpgrades. destruct (we_upgrades e) as [|u us]; [by exists ss|].
    unfold MTVersion. cbn [with_commit lastCommitInfo ci_version initialVersion trees].
    destruct (apply_upgrades _ _ _ _) as [ts| |]; simpl; try done.
    destruct (build_index _ _ _) as [m| |]; simpl; try done. by exists ss.
  - clear Ha t t'. induction (we_changesets e) as [|cs css IH]; intros t t' Ha; simpl; [done|].
    eapply (res_rel_bind agree); [|done]. destruct Ha as [ss ->]. unfold MTApplyChangeSet. simpl.
    destruct (treesByName t !! ncs_name cs) as [i|]; [|done]. destruct (trees t !! i); [|done]. by exists ss.
Qed.

Lemma save_agree t t' : agree t t' ->
  res_rel agree (let* (_, t) := MTSaveVersion sha256 t true in Ok t)
                (let* (_, t) := MTSaveVersion sha256 t' false in Ok t).
Proof.
  intros [ss ->]. unfold MTSaveVersion. simpl. destruct (existsb _ (trees t)); [done|]. simpl.
  by exists [].
Qed.

Lemma replay_agree t t' e : agree t t' -> res_rel agree (live_entry t e) (replay_entry sha256 t' e).
Proof.
  intros Ha. unfold live_entry, replay_entry. eapply (res_rel_bind agree).
  - by apply applyWALEntry_agree.
  - intros a b. apply save_agree.
Qed.

Lemma run_agree es : forall t t', agree t t' ->
  res_rel agree (run_entries live_entry t es) (run_entries (replay_entry sha256) t' es).
Proof.
  induction es as [|e es IH]; intros t t' Ha; simpl; [done|].
  eapply (res_rel_bind agree); [by apply replay_agree|auto].
Qed.

(** A live step leaves the commit info of its trees. *)
Lemma live_commit_info t e t' : live_entry t e = Ok t' ->
  t' = UpdateCommitInfo sha256 t' /\
  (exists t1, applyWALEntry t e = Ok t1 /\ ci_version (lastCommitInfo t') = nextVersion (ci_version (lastCommitInfo t1)) (initialVersion t1)).
Proof.
  unfold live_entry. rewrite res_bind_ok. intros (t1 & E1 & E2). unfold MTSaveVersion in E2.
  destruct (existsb _ (trees t1)); [done|]. cbn [res_bind] in E2. apply Ok_inj in E2 as <-.
  split; [done|]. by exists t1.
Qed.

Lemma ApplyUpgrades_keeps t us t' : ApplyUpgrades t us = Ok t' ->
  initialVersion t' = initialVersion t /\ lastCommitInfo t' = lastCommitInfo t.
Proof.
  unfold ApplyUpgrades. destruct us as [|u us]; [by intros <-%Ok_inj|].
  rewrite res_bind_ok. intros (ts & _ & E). rewrite res_bind_ok in E. destruct E as (m & _ & E).
  by apply Ok_inj in E as <-.
Qed.

Lemma ApplyChangeSets_keeps css : forall t t', ApplyChangeSets t css = Ok t' ->
  initialVersion t' = initialVersion t /\ lastCommitInfo t' = lastCommitInfo t.
Proof.
  induction css as [|cs css IH]; intros t t'; simpl; [by intros <-%Ok_inj|].
  rewrite res_bind_ok. intros (t1 & E1 & E2). destruct (IH _ _ E2) as [-> ->].
  unfold MTApplyChangeSet in E1. destruct (treesByName t !! ncs_name cs) as [i|]; [|done].
  destruct (trees t !! i); [|done]. by apply Ok_inj in E1 as <-.
Qed.

Lemma live_version t e t' : live_entry t e = Ok t' ->
  initialVersion t' = initialVersion t /\
  MTVersion t' = nextVersion (MTVersion t) (initialVersion t).
Proof.
  intros E. destruct (live_commit_info _ _ _ E) as (_ & t1 & E1 & Ev).
  unfold live_entry in E. rewrite E1 in E. cbn [res_bind] in E. unfold MTSaveVersion in E.
  destruct (existsb _ (trees t1)); [done|]. cbn [res_bind] in E. apply Ok_inj in E as <-.
  unfold applyWALEntry in E1. rewrite res_bind_ok in E1. destruct E1 as (t2 & E2 & E3).
  destruct (ApplyUpgrades_keeps _ _ _ E2) as [I2 C2]. destruct (ApplyChangeSets_keeps _ _ _ E3) as [I3 C3].
  unfold MTVersion in *. rewrite Ev, I3, I2, C3, C2. simpl. by rewrite I3, I2.
Qed.

(** The version from which log entry 1 continues. *)
Definition base_version (v iv : Z) : Prop :=
  (iv <= 1 /\ v = 0) \/ (1 < iv /\ (v = 0 \/ v = iv - 1)).

(** The version after [k] entries. *)
Definition version_after (v iv : Z) (k : Z) : Z :=
  if k =? 0 then v else if 1 <? iv then iv + k - 1 else k.

Lemma live_versions es : forall t tk k,
  base_version (MTVersion t) (initialVersion t) -> initialVersion t < 2 ^ 32 -> k = len es -> k < 2 ^ 62 ->
  run_entries live_entry t es = Ok tk ->
  initialVersion tk = initialVersion t /\ MTVersion tk = version_after (MTVersion t) (initialVersion t) k.
Proof.
  induction es as [|e es IH] using rev_ind; intros t tk k Hb Hi Hk Hm E.
  - apply Ok_inj in E as <-. rewrite len_nil in Hk. subst k. done.
  - rewrite run_entries_app in E. rewrite res_bind_ok in E. destruct E as (t1 & E1 & E2). simpl in E2.
    rewrite res_bind_ok in E2. destruct E2 as (t2 & E2 & <-%Ok_inj).
    rewrite len_app, len_cons, len_nil in Hk. pose proof (len_nonneg es).
    destruct (IH _ _ (len es) Hb Hi eq_refl ltac:(lia) E1) as [I1 V1].
    destruct (live_version _ _ _ E2) as [I2 V2]. rewrite I2, I1, V2, I1, V1. split; [done|].
    subst k. unfold version_after, nextVersion. destruct (Z.eqb_spec (len es + (1 + 0)) 0); [lia|].
    destruct (Z.eqb_spec (len es) 0) as [E0|E0].
    + destruct Hb as [[Hb ->]|[Hb [->| ->]]]; destruct (Z.ltb_spec 1 (initialVersion t)); try lia; simpl.
      * rewrite E0. rewrite i64_small; lia.
      * lia.
      * destruct (Z.eqb_spec (initialVersion t - 1) 0); [lia|]. simpl. rewrite i64_small; lia.
    + destruct (Z.ltb_spec 1 (initialVersion t)).
      * destruct (Z.eqb_spec (initialVersion t + len es - 1) 0); [lia|]. simpl. rewrite i64_small; lia.
      * destruct (Z.eqb_spec (len es) 0); [lia|]. simpl. rewrite i64_small; lia.
Qed.

(** The first entry to replay after [k] entries is entry [k + 1]. *)
Lemma first_index v iv k :
  base_version v iv -> iv < 2 ^ 32 -> 0 <= k < 2 ^ 62 ->
  walIndex (nextVersion (version_after v iv k) iv) iv = k + 1.
Proof.
  intros Hb Hi Hk. unfold walIndex, nextVersion, version_after.
  destruct (Z.eqb_spec k 0) as [->|Hk0].
  - destruct Hb as [[Hb ->]|[Hb [->| ->]]]; destruct (Z.ltb_spec 1 iv); try lia; simpl.
    + done.
    + rewrite (u64_small iv), !u64_small; rewrite ?u64_small; lia.
    + destruct (Z.eqb_spec (iv - 1) 0); [lia|]. simpl. rewrite i64_small by lia.
      rewrite (u64_small iv), (u64_small (iv - 1 + 1)), !u64_small; rewrite ?u64_small; lia.
  - destruct (Z.ltb_spec 1 iv).
    + destruct (Z.eqb_spec (iv + k - 1) 0); [lia|]. simpl. rewrite i64_small by lia.
      rewrite (u64_small iv), (u64_small (iv + k - 1 + 1)) by lia.
      rewrite (u64_small (iv + k - 1 + 1 - iv)), u64_small by lia. lia.
    + destruct (Z.eqb_spec k 0); [lia|]. simpl. rewrite i64_small, u64_small by lia. done.
Qed.

(** A log that holds the entries [1 .. length es]. *)
Definition log_reader (es : list WALEntry) : walReader :=
  mkReader (len es) (fun i => match es !! Z.to_nat (i - 1) with
                              | Some e => Ok e
                              | None => Err "not found"
                              end).

Lemma replay_from_run es k : forall j t,
  (j + k <= length es)%nat ->
  replay_from sha256 k (log_reader es) (Z.of_nat j + 1) t = run_entries (replay_entry sha256) t (take k (drop j es)).
Proof.
  induction k as [|k IH]; intros j t Hk; [done|]. cbn [replay_from log_reader ReadEntry].
  replace (Z.to_nat (Z.of_nat j + 1 - 1)) with j by lia.
  destruct (es !! j) as [e|] eqn:Ej; [|apply lookup_ge_None in Ej; lia].
  rewrite (drop_S _ _ _ Ej). simpl. destruct (replay_entry sha256 t e) as [t1| |]; simpl; [|done..].
  replace (Z.of_nat j + 1 + 1) with (Z.of_nat (S j) + 1) by lia. apply IH. lia.
Qed.
End Replay.

(** ** Reachable multi-trees *)

Section Reachable.
Context (sha256 : bytes -> bytes).

(** The histories of a multi-tree.  The initial version is set once, and fewer
    than [2^62] versions are saved. *)
Inductive mt_reachable : MultiTree -> Prop :=
| mr_new iv : 0 <= iv < MaxUint32 -> mt_reachable (NewEmptyMultiTree iv)
| mr_init t v t' : mt_reachable t -> initialVersion t <= 1 -> 0 <= v ->
    MTSetInitialVersion t v = Ok t' -> mt_reachable t'
| mr_upgrades t us t' : mt_reachable t -> ApplyUpgrades t us = Ok t' -> mt_reachable t'
| mr_changes t css t' : mt_reachable t -> ApplyChangeSets t css = Ok t' -> mt_reachable t'
| mr_save t b v t' : mt_reachable t -> MTVersion t < 2 ^ 62 ->
    MTSaveVersion sha256 t b = Ok (v, t') -> mt_reachable t'
| mr_update t : mt_reachable t -> mt_reachable (UpdateCommitInfo sha256 t)
| mr_copy t : mt_reachable t -> mt_reachable (MTCopy t).

(** The trees stand one version before the next one. *)
Definition at_version (v : Z) (e : NamedTree) : Prop := vt_version (nt_tree e) = v.

Record mt_inv (t : MultiTree) : Prop := {
  inv_wf : mt_wf t;
  inv_initial : 0 <= initialVersion t < MaxUint32;
  inv_version : 0 <= MTVersion t < 2 ^ 63;
  inv_uniform : MTVersion t < MaxUint32 ->
    Forall (at_version (nextVersion (MTVersion t) (initialVersion t) - 1)) (trees t);
}.

Lemma index_of_Some n ts i : index_of n ts = Some i -> exists e, ts !! i = Some e /\ nt_name e = n.
Proof.
  revert i. induction ts as [|e ts IH]; intros i; simpl; [done|]. case_decide as En.
  - intros [= <-]. by exists e.
  - destruct (index_of n ts) as [j|]; [|done]. intros [= <-]. by apply IH.
Qed.

Lemma Forall_swap_delete {A} (P : A -> Prop) i ts : Forall P ts -> Forall P (swap_delete i ts).
Proof.
  intros F. unfold swap_delete. destruct (last ts) as [e|] eqn:El; [|constructor].
  apply Forall_take, Forall_insert; [done|]. apply last_Some in El as (l & ->).
  apply Forall_app in F as [_ F]. by inversion F.
Qed.

Lemma vtNew_version v iv t :
  0 <= iv < MaxUint32 -> 0 <= v < MaxUint32 -> vtNew (u32 (nextVersion v iv)) = Ok t ->
  vt_version t = nextVersion v iv - 1.
Proof.
  unfold MaxUint32, nextVersion. intros Hi Hv.
  destruct ((v =? 0) && (1 <? iv)) eqn:E.
  - apply andb_true_iff in E as [?%Z.eqb_eq ?%Z.ltb_lt]. rewrite u32_small by lia. unfold vtNew, MaxUint32.
    destruct (Z.leb_spec iv 1); [lia|]. destruct (Z.leb_spec (2 ^ 32 - 1) (iv - 1)); [lia|]. by intros <-%Ok_inj.
  - rewrite i64_small, u32_small by lia. unfold vtNew, MaxUint32. destruct (Z.leb_spec (v + 1) 1).
    + intros <-%Ok_inj. simpl. lia.
    + destruct (Z.leb_spec (2 ^ 32 - 1) (v + 1 - 1)); [lia|]. by intros <-%Ok_inj.
Qed.

Lemma apply_upgrades_uniform v iv us : 0 <= iv < MaxUint32 -> 0 <= v < MaxUint32 -> forall ts ts',
  Forall (at_version (nextVersion v iv - 1)) ts -> apply_upgrades v iv ts us = Ok ts' ->
  Forall (at_version (nextVersion v iv - 1)) ts'.
Proof.
  intros Hi Hv. induction us as [|u us IH]; intros ts ts' F; simpl; [by intros <-%Ok_inj|].
  rewrite res_bind_ok. intros (ts1 & E1 & E2). apply (IH ts1); [|done]. unfold apply_upgrade in E1.
  destruct (up_delete u); [|destruct (negb _)].
  - destruct (index_of _ _); [|done]. apply Ok_inj in E1 as <-. by apply Forall_swap_delete.
  - destruct (index_of _ _) as [i|]; [|done]. apply Ok_inj in E1 as <-.
    rewrite Forall_lookup in F |- *. intros j e Hj.
    destruct (decide (i = j)) as [->|]; [|rewrite list_lookup_alter_ne in Hj by done; by eapply F].
    rewrite list_lookup_alter_eq in Hj. destruct (ts !! j) as [e0|] eqn:Ej; [|done].
    injection Hj as <-. by apply (F j e0).
  - rewrite res_bind_ok in E1. destruct E1 as (t & Et & E1). apply Ok_inj in E1 as <-.
    apply Forall_app_2; [done|]. apply Forall_singleton. by apply vtNew_version.
Qed.

Lemma MTApplyChangeSet_uniform t n cs t' k :
  Forall (at_version k) (trees t) -> MTApplyChangeSet t n cs = Ok t' -> Forall (at_version k) (trees t').
Proof.
  intros F. unfold MTApplyChangeSet. destruct (treesByName t !! n) as [i|]; [|done].
  destruct (trees t !! i) as [e|] eqn:Ei; [|done]. intros <-%Ok_inj. simpl.
  rewrite Forall_lookup in F |- *. intros j e' Hj.
  destruct (decide (i = j)) as [->|]; [|rewrite list_lookup_alter_ne in Hj by done; by eapply F].
  rewrite list_lookup_alter_eq, Ei in Hj. injection Hj as <-. by apply (F j e).
Qed.

Lemma ApplyChangeSets_uniform css k : forall t t',
  Forall (at_version k) (trees t) -> ApplyChangeSets t css = Ok t' -> Forall (at_version k) (trees t').
Proof.
  induction css as [|cs css IH]; intros t t' F; simpl; [by intros <-%Ok_inj|].
  rewrite res_bind_ok. intros (t1 & E1 & E2). eapply IH; [|done]. by eapply MTApplyChangeSet_uniform.
Qed.

Lemma nextVersion_spec v iv : 0 <= iv < MaxUint32 -> 0 <= v < 2 ^ 62 ->
  0 < nextVersion v iv < 2 ^ 63 /\ v < nextVersion v iv /\ nextVersion (nextVersion v iv) iv = nextVersion v iv + 1.
Proof.
  unfold MaxUint32, nextVersion. intros Hi Hv. destruct ((v =? 0) && (1 <? iv)) eqn:E.
  - apply andb_true_iff in E as [?%Z.eqb_eq ?%Z.ltb_lt]. destruct (Z.eqb_spec iv 0); [lia|].
    simpl. rewrite i64_small by lia. lia.
  - rewrite i64_small by lia. destruct (Z.eqb_spec (v + 1) 0); [lia|]. simpl. rewrite i64_small by lia. lia.
Qed.

Lemma wf_copy t : mt_wf t -> treesByName t = index_trees (trees t).
Proof.
  intros [S I]. eapply index_unique; [done|]. apply index_trees_ok. by apply strict_nodup.
Qed.

Lemma MTCopy_id t : mt_wf t -> MTCopy t = t.
Proof. intros W. unfold MTCopy. rewrite <- wf_copy by done. by destruct t. Qed.

Lemma MTsetInitialVersion_inv t v :
  mt_inv t -> initialVersion t <= 1 -> 0 <= v < MaxUint32 -> MTVersion t = 0 -> mt_inv (MTsetInitialVersion t v).
Proof.
  intros [W Hi Hv U] H1 Hv' E0. unfold MaxUint32 in *. rewrite E0 in *. specialize (U ltac:(lia)).
  unfold MTsetInitialVersion, nextVersion in *. cbn [Z.eqb andb] in U.
  destruct (Z.ltb_spec 1 (initialVersion t)); [lia|]. rewrite i64_small in U by lia.
  destruct W as [S I]. destruct (Z.ltb_spec 1 v).
  - assert (names ((fun e => mkNamed (nt_name e) (vtSetInitialVersion (nt_tree e) v)) <$> trees t) = names (trees t)) as En.
    { unfold names. by rewrite <- list_fmap_compose. }
    constructor; cbn [initialVersion trees treesByName lastCommitInfo]; unfold MTVersion in *; simpl; [|unfold MaxUint32; lia|lia|].
    + split; simpl; [unfold names_sorted; by rewrite En|by eapply index_names].
    + intros _. rewrite E0. unfold nextVersion. destruct (Z.ltb_spec 1 v); [|lia]. simpl.
      rewrite Forall_fmap. eapply Forall_impl; [exact U|]. intros e He. unfold at_version in *. simpl.
      unfold vtSetInitialVersion. rewrite He. simpl. destruct (Z.ltb_spec v 1); [lia|done].
  - constructor; unfold MTVersion in *; simpl; [done|unfold MaxUint32; lia|lia|].
    intros _. rewrite E0. unfold nextVersion. destruct (Z.ltb_spec 1 v); [lia|]. simpl. by rewrite i64_small by lia.
Qed.

Lemma SaveVersion_inv t b v t' :
  mt_inv t -> MTVersion t < 2 ^ 62 -> MTSaveVersion sha256 t b = Ok (v, t') -> mt_inv t'.
Proof.
  intros [W Hi Hv U] Hm. unfold MTSaveVersion. destruct (existsb _ (trees t)); [done|].
  destruct (nextVersion_spec (MTVersion t) (initialVersion t) Hi ltac:(lia)) as (N1 & N2 & N3).
  set (t2 := with_trees _ _). assert (mt_inv t2) as I2.
  { constructor; [by apply (wf_names (with_commit t _)); [destruct W; split|unfold names; rewrite <- list_fmap_compose]|done| |].
    - unfold t2, MTVersion in *. simpl. lia.
    - intros Hlt. unfold t2, MTVersion in *. simpl in *. rewrite N3, Forall_fmap.
      eapply Forall_impl; [apply U; lia|]. intros e He. unfold at_version in *. simpl. unfold MaxUint32 in *.
      rewrite u32_small; lia. }
  intros [= <- <-]. destruct I2 as [[S2 I2] Hi2 Hv2 U2]. destruct b; (constructor; [by split|done..]).
Qed.

Lemma reachable_inv t : mt_reachable t -> mt_inv t.
Proof.
  induction 1 as [iv Hi|t v t' _ I H1 Hv E|t us t' _ I E|t css t' _ I E|t b v t' _ I Hm E|t _ I|t _ I].
  - constructor; [|done|unfold MTVersion; simpl; lia|constructor]. split; [constructor|].
    intros n i. simpl. rewrite lookup_empty. naive_solver.
  - unfold MTSetInitialVersion in E. destruct (Z.leb_spec MaxUint32 v); [done|].
    destruct (Z.eqb_spec (MTVersion t) 0); [|done]. destruct (existsb _ _); [done|].
    apply Ok_inj in E as <-. unfold MaxUint32 in *. rewrite u32_small by lia.
    by apply MTsetInitialVersion_inv.
  - pose proof (ApplyUpgrades_wf _ _ _ (inv_wf _ I) E) as W'. destruct (ApplyUpgrades_keeps _ _ _ E) as [E1 E2].
    destruct I as [W Hi Hv U]. constructor; [done|by rewrite E1|unfold MTVersion; by rewrite E2|].
    unfold MTVersion in *. rewrite E2, E1. intros Hlt. specialize (U Hlt). unfold ApplyUpgrades in E.
    destruct us as [|u us]; [by apply Ok_inj in E as <-|]. rewrite res_bind_ok in E. destruct E as (ts & Et & E).
    rewrite res_bind_ok in E. destruct E as (m & _ & <-%Ok_inj). cbn [with_index with_trees trees].
    rewrite sort_by_name_perm. eapply apply_upgrades_uniform; [done|lia|exact U|exact Et].
  - pose proof (ApplyChangeSets_wf _ _ _ (inv_wf _ I) E) as W'. destruct (ApplyChangeSets_keeps _ _ _ E) as [E1 E2].
    destruct I as [W Hi Hv U]. constructor; [done|by rewrite E1|unfold MTVersion; by rewrite E2|].
    unfold MTVersion in *. rewrite E2, E1. intros Hlt. eapply ApplyChangeSets_uniform; [|done]. auto.
  - by eapply SaveVersion_inv.
  - destruct I as [[S I] Hi Hv U]. by constructor.
  - by rewrite MTCopy_id by apply I.
Qed.
End Reachable.

(** ** Upgrades as a map *)

(** The trees as a map from names. *)
Definition forest (ts : list NamedTree) : gmap name VTree :=
  list_to_map ((fun e => (nt_name e, nt_tree e)) <$> ts).

(** What one upgrade means for the map; [None] when the name is unknown or
    taken. *)
Definition map_upgrade (new : VTree) (m : gmap name VTree) (u : TreeNameUpgrade) : option (gmap name VTree) :=
  if up_delete u then
    let? _ := m !! up_name u in Some (delete (up_name u) m)
  else if negb (bool_decide (up_renameFrom u = [])) then
    let? t := m !! up_renameFrom u in
    let m := delete (up_renameFrom u) m in
    match m !! up_name u with
    | None => Some (<[up_name u := t]> m)
    | Some _ => None
    end
  else
    match m !! up_name u with
    | None => Some (<[up_name u := new]> m)
    | Some _ => None
    end.

Fixpoint map_upgrades (new : VTree) (m : gmap name VTree) (us : list TreeNameUpgrade) : option (gmap name VTree) :=
  match us with
  | [] => Some m
  | u :: us => let? m := map_upgrade new m u in map_upgrades new m us
  end.

Lemma forest_lookup ts n t : NoDup (names ts) ->
  forest ts !! n = Some t <-> mkNamed n t ∈ ts.
Proof.
  intros N. unfold forest. rewrite <- elem_of_list_to_map.
  - rewrite list_elem_of_fmap. split; [intros ([? ?] & [= -> ->] & ?); done|intros ?; by exists (mkNamed n t)].
  - rewrite <- list_fmap_compose. exact N.
Qed.

Lemma forest_perm ts ts' : NoDup (names ts) -> ts ≡ₚ ts' -> forest ts = forest ts'.
Proof.
  intros N P. apply map_eq. intros n. apply option_eq. intros t.
  rewrite !forest_lookup; [by rewrite P| |done]. unfold names in *. by rewrite <- P.
Qed.

Lemma index_of_names ts n : index_of n ts = None <-> n ∉ names ts.
Proof.
  induction ts as [|e ts IH]; simpl; [split; [intros _ ?%elem_of_nil|]; done|].
  rewrite not_elem_of_cons. case_decide as En; [split; [done|by intros [[]]]|].
  rewrite fmap_None, IH. naive_solver.
Qed.

(** The entry of a name splits the list. *)
Lemma index_of_split n ts i : index_of n ts = Some i ->
  exists l1 e l2, ts = l1 ++ e :: l2 /\ length l1 = i /\ nt_name e = n.
Proof.
  intros (e & Hi & En)%index_of_Some. exists (take i ts), e, (drop (S i) ts).
  split_and!; [by rewrite take_drop_middle|apply lookup_lt_Some in Hi; rewrite length_take; lia|done].
Qed.

Lemma swap_delete_perm {A} l1 (e : A) l2 : swap_delete (length l1) (l1 ++ e :: l2) ≡ₚ l1 ++ l2.
Proof.
  unfold swap_delete. destruct l2 as [|x l _] using rev_ind.
  - rewrite last_snoc, insert_app_r_alt, Nat.sub_diag by lia. simpl.
    rewrite length_app, Nat.add_sub, take_app_length, app_nil_r. done.
  - replace (l1 ++ e :: l ++ [x]) with ((l1 ++ e :: l) ++ [x]) at 1 by by rewrite <- app_assoc.
    rewrite last_snoc, insert_app_r_alt, Nat.sub_diag by lia. simpl.
    replace (l1 ++ x :: l ++ [x]) with ((l1 ++ x :: l) ++ [x]) by by rewrite <- app_assoc.
    replace (length (l1 ++ e :: l ++ [x]) - 1)%nat with (length (l1 ++ x :: l)).
    2:{ rewrite !length_app. simpl. rewrite length_app. simpl. lia. }
    rewrite take_app_length. f_equiv. apply Permutation_cons_append.
Qed.

Lemma forest_None ts n : forest ts !! n = None <-> n ∉ names ts.
Proof. unfold forest, names. rewrite <- not_elem_of_list_to_map, <- list_fmap_compose. done. Qed.

Lemma forest_add e ts ts' : ts' ≡ₚ e :: ts -> nt_name e ∉ names ts -> NoDup (names ts) ->
  NoDup (names ts') /\ forest ts' = <[nt_name e := nt_tree e]> (forest ts).
Proof.
  intros P Hn N. assert (NoDup (names ts')) as N'.
  { unfold names. rewrite P. by constructor. }
  split; [done|]. by rewrite (forest_perm _ _ N' P).
Qed.

Lemma forest_del e ts ts' : ts' ≡ₚ e :: ts -> NoDup (names ts') ->
  NoDup (names ts) /\ forest ts = delete (nt_name e) (forest ts') /\ forest ts' !! nt_name e = Some (nt_tree e).
Proof.
  intros P N'. rewrite (forest_perm _ _ N' P). unfold names in N'. rewrite P in N'.
  apply NoDup_cons in N' as [Hn N]. split_and!; [done| |].
  - change (forest (e :: ts)) with (<[nt_name e := nt_tree e]> (forest ts)).
    rewrite delete_insert_id; [done|]. by apply forest_None.
  - apply lookup_insert_eq.
Qed.

(** A known name has a position, which splits the list. *)
Lemma forest_split ts n t : NoDup (names ts) -> forest ts !! n = Some t ->
  exists l1 l2, ts = l1 ++ mkNamed n t :: l2 /\ index_of n ts = Some (length l1).
Proof.
  intros N Hf. destruct (index_of n ts) as [i|] eqn:Ei.
  - destruct (index_of_split _ _ _ Ei) as (l1 & [n' t'] & l2 & -> & <- & En). simpl in En. subst n'.
    exists l1, l2. split; [|done].
    destruct (forest_del (mkNamed n t') (l1 ++ l2) (l1 ++ mkNamed n t' :: l2)) as (_ & _ & H);
      [by rewrite Permutation_middle|done|]. simpl in H. congruence.
  - apply index_of_names, forest_None in Ei. congruence.
Qed.

Lemma apply_upgrade_map v iv new ts u m :
  NoDup (names ts) -> vtNew (u32 (nextVersion v iv)) = Ok new ->
  map_upgrade new (forest ts) u = Some m ->
  exists ts', apply_upgrade v iv ts u = Ok ts' /\ NoDup (names ts') /\ forest ts' = m.
Proof.
  intros N Hn. unfold map_upgrade, apply_upgrade. destruct (up_delete u); [|destruct (negb _)].
  - destruct (forest ts !! up_name u) as [t|] eqn:Ef; [|done]. intros [= <-].
    destruct (forest_split _ _ _ N Ef) as (l1 & l2 & -> & ->). eexists. split; [done|].
    destruct (forest_del (mkNamed (up_name u) t) (l1 ++ l2) _ ltac:(by rewrite Permutation_middle) N) as (N1 & E1 & _).
    simpl in E1. rewrite <- E1. split; [unfold names; by rewrite swap_delete_perm|]. symmetry. apply forest_perm; [done|].
    by rewrite swap_delete_perm.
  - destruct (forest ts !! up_renameFrom u) as [t|] eqn:Ef; [|done]. cbn [mbind option_bind].
    destruct (delete _ _ !! up_name u) eqn:Ed; [done|]. intros [= <-].
    destruct (forest_split _ _ _ N Ef) as (l1 & l2 & -> & ->). eexists. split; [done|].
    destruct (forest_del (mkNamed (up_renameFrom u) t) (l1 ++ l2) _ ltac:(by rewrite Permutation_middle) N)
      as (N1 & E1 & _). simpl in E1. rewrite <- E1 in *. apply forest_None in Ed.
    rewrite alter_app_r_alt, Nat.sub_diag by lia. cbn [alter list_alter nt_tree].
    apply (forest_add (mkNamed (up_name u) t)); [by rewrite Permutation_middle|done..].
  - destruct (forest ts !! up_name u) eqn:Ef; [done|]. intros [= <-]. rewrite Hn. cbn [res_bind].
    eexists. split; [done|]. apply forest_None in Ef.
    apply (forest_add (mkNamed (up_name u) new)); [by rewrite Permutation_app_comm|done..].
Qed.

Lemma apply_upgrades_map v iv new us : vtNew (u32 (nextVersion v iv)) = Ok new -> forall ts m,
  NoDup (names ts) -> map_upgrades new (forest ts) us = Some m ->
  exists ts', apply_upgrades v iv ts us = Ok ts' /\ NoDup (names ts') /\ forest ts' = m.
Proof.
  intros Hn. induction us as [|u us IH]; intros ts m N E; simpl in *.
  - injection E as <-. by eexists.
  - destruct (map_upgrade new (forest ts) u) as [m1|] eqn:E1; [|done]. cbn [mbind option_bind] in E.
    destruct (apply_upgrade_map _ _ _ _ _ _ N Hn E1) as (ts1 & -> & N1 & <-). cbn [res_bind]. by apply IH.
Qed.

Lemma ApplyUpgrades_map t us new m :
  mt_wf t -> vtNew (u32 (nextVersion (MTVersion t) (initialVersion t))) = Ok new ->
  map_upgrades new (forest (trees t)) us = Some m ->
  exists t', ApplyUpgrades t us = Ok t' /\ forest (trees t') = m.
Proof.
  intros W Hn E. unfold ApplyUpgrades. destruct us as [|u us].
  { injection E as <-. by exists t. }
  destruct (apply_upgrades_map _ _ _ _ Hn _ _ (strict_nodup _ (wf_sorted _ W)) E) as (ts & -> & N & <-).
  cbn [res_bind]. assert (NoDup (names (sort_by_name ts))) as N'.
  { unfold names. by rewrite sort_by_name_perm. }
  rewrite index_trees_build; [|done|intros; apply lookup_empty]. cbn [res_bind].
  eexists. split; [done|]. apply forest_perm; [done|apply sort_by_name_perm].
Qed.

Lemma TreeByName_forest t n : mt_wf t -> TreeByName t n = forest (trees t) !! n.
Proof.
  intros [S I]. apply strict_nodup in S as N. apply option_eq. intros x. rewrite forest_lookup by done.
  unfold TreeByName. split.
  - destruct (treesByName t !! n) as [i|] eqn:Ei; [|done]. cbn [mbind option_bind].
    apply I in Ei as ([n' x'] & Hi & <-). rewrite Hi. intros [= <-]. by eapply list_elem_of_lookup_2.
  - intros (i & Hi)%list_elem_of_lookup_1. assert (treesByName t !! n = Some i) as ->.
    { apply I. by exists (mkNamed n x). }
    cbn [mbind option_bind]. by rewrite Hi.
Qed.

(** ** Loading a snapshot of all trees *)

Section Load.
Context (sha256 : bytes -> bytes) (sha256_len : forall b, len (sha256 b) = 32).

Lemma commitInfoEqual_iff a b : commitInfoEqual a b = None <-> a = b.
Proof.
  unfold commitInfoEqual. destruct a as [va sa], b as [vb sb]. simpl.
  destruct (Z.eqb_spec va vb) as [->|]; [simpl|split; [done|congruence]].
  destruct (Z.eqb_spec (len sa) (len sb)) as [El|El]; [simpl|split; [done|intros [= ->]; congruence]].
  trans (sa = sb); [|naive_solver]. revert sb El.
  induction sa as [|[n [v h]] sa IH]; intros [|[n' [v' h']] sb] El; rewrite ?len_cons, ?len_nil in El;
    try (pose proof (len_nonneg sa)); try (pose proof (len_nonneg sb)); try lia; [done|].
  simpl. case_bool_decide as En; [subst n'; simpl|naive_solver].
  destruct (Z.eqb_spec v v') as [->|]; [simpl|naive_solver].
  case_bool_decide as Eh; [subst h'; simpl|naive_solver].
  rewrite IH by lia. naive_solver.
Qed.

(** A tree that can be written: empty, or storable. *)
Definition tree_storable (e : NamedTree) : Prop :=
  0 <= vt_version (nt_tree e) < 2 ^ 32 /\ from_option storable True (vt_root (nt_tree e)).

Lemma write_open_tree cancelled e : (forall i, cancelled i = false) -> tree_storable e ->
  exists f, WriteSnapshotWithContext sha256 cancelled (vt_version (nt_tree e)) (vt_root (nt_tree e)) = Ok f /\
    open_tree f = Ok (nt_tree e).
Proof.
  destruct e as [n [v r]]. intros Hc [Hv St]. cbn [nt_tree vt_version vt_root] in *. destruct r as [r|].
  - destruct (write_open sha256 sha256_len cancelled Hc v r Hv St) as (f & s & -> & Eo & Ev & Er & Sd & Hk).
    exists f. split; [done|]. destruct St as [(A & _ & So) F].
    pose proof (stored_presents sha256 sha256_len s r 0 0 0 Sd F So Hk) as P.
    unfold open_tree. rewrite Eo. cbn [res_bind]. unfold IsEmpty, RootNode. rewrite Er. cbn [res_bind].
    assert (Height r < Z.of_nat depth) as Hd.
    { pose proof (fits_L _ _ _ _ F). unfold leaf_count in *. pose proof (avl_height_bound r A) as Hb.
      rewrite depth_eq. unfold small, max_leaves in *. specialize (Hb ltac:(lia)). lia. }
    rewrite (presents_load sha256 s r _ depth P A Hd). cbn [of_option res_bind]. by rewrite Ev.
  - eexists. split; [done|]. unfold open_tree. rewrite (OpenSnapshot_metadata _ v) by done. done.
Qed.

Lemma write_open_trees cancelled ts : (forall i, cancelled i = false) -> Forall tree_storable ts ->
  exists fs, write_trees sha256 cancelled ts = Ok fs /\
    Forall2 (fun e '(n, f) => n = nt_name e /\ open_tree f = Ok (nt_tree e)) ts fs.
Proof.
  intros Hc. induction 1 as [|e ts He _ (fs & IH & F)]; [by exists []|].
  destruct (write_open_tree cancelled e Hc He) as (f & Ew & Eo). exists ((nt_name e, f) :: fs). simpl.
  rewrite Ew. cbn [res_bind]. rewrite IH. cbn [res_bind]. split; [done|]. by constructor.
Qed.

Lemma open_trees_ok ts fs :
  Forall2 (fun e '(n, f) => n = nt_name e /\ open_tree f = Ok (nt_tree e)) ts fs -> open_trees fs = Ok ts.
Proof.
  induction 1 as [|e [n f] ts fs [-> Eo] _ IH]; [done|]. simpl. rewrite Eo. cbn [res_bind]. rewrite IH.
  cbn [res_bind]. by destruct e.
Qed.

(** Sorting undoes any permutation of sorted trees. *)
Lemma sort_perm_id ts ts' : names_sorted ts -> ts' ≡ₚ ts -> sort_by_name ts' = ts.
Proof.
  intros S P. pose (R := fun a b : NamedTree => bytes_lt (nt_name a) (nt_name b)).
  assert (forall l, StronglySorted bytes_lt (names l) -> StronglySorted R l) as K.
  { induction l as [|e l IH]; intros H; inversion H as [|? ? H1 H2]; subst; constructor; [auto|].
    unfold names in H2. rewrite Forall_fmap in H2. exact H2. }
  apply (StronglySorted_unique_strong R).
  - intros x y _ _ H1 H2. exfalso. apply (bytes_lt_irrefl (nt_name x)). by transitivity (nt_name y).
  - apply K, sorted_strict; [apply sort_by_name_sorted|]. unfold names. rewrite sort_by_name_perm, P.
    by apply strict_nodup.
  - by apply K.
  - by rewrite sort_by_name_perm.
Qed.

Lemma set_initial_noop ts v : Forall (fun e => 0 < vt_version (nt_tree e)) ts ->
  (fun e => mkNamed (nt_name e) (vtSetInitialVersion (nt_tree e) v)) <$> ts = ts.
Proof.
  induction 1 as [|e ts He _ IH]; [done|]. cbn [fmap list_fmap]. rewrite IH. f_equal. destruct e as [n t].
  simpl in *. unfold vtSetInitialVersion. by destruct (Z.ltb_spec 0 (vt_version t)); [|lia].
Qed.

Lemma load_written t d ds cancelled : (forall i, cancelled i = false) ->
  mt_wf t -> 0 < MTVersion t < 2 ^ 32 -> 0 <= initialVersion t < 2 ^ 32 ->
  Forall (at_version (MTVersion t)) (trees t) -> Forall tree_storable (trees t) ->
  lastCommitInfo t = buildCommitInfo sha256 t (MTVersion t) ->
  MTWriteSnapshot sha256 cancelled false t = Ok d -> ds ≡ₚ d_trees d ->
  LoadMultiTree sha256 (mkDir ds (d_commit d) (d_initial d)) =
    Ok (mkMulti (initialVersion t) (trees t) (treesByName t) (lastCommitInfo t) (lastCommitInfo t)).
Proof.
  intros Hc W Hv Hi U St Ec. unfold MTWriteSnapshot.
  destruct (write_open_trees cancelled _ Hc St) as (fs & -> & F). intros <-%Ok_inj P. cbn [d_trees d_commit d_initial] in *.
  symmetry in P. apply Forall2_flip in F.
  destruct (Permutation.Permutation_Forall2 P F) as (ts' & P' & F'). apply Forall2_flip in F'.
  unfold LoadMultiTree, readMetadata, MaxUint32. cbn [d_trees d_commit d_initial]. unfold MTVersion in *.
  destruct (Z.ltb_spec (2 ^ 32 - 1) (ci_version (lastCommitInfo t))); [lia|].
  destruct (Z.ltb_spec (2 ^ 32 - 1) (initialVersion t)); [lia|]. cbn [res_bind].
  rewrite (open_trees_ok _ _ F'). cbn [res_bind]. rewrite (sort_perm_id (trees t)); [|apply W|by symmetry].
  rewrite <- wf_copy by done. rewrite u32_small by done.
  set (t' := MTsetInitialVersion _ _).
  assert (t' = mkMulti (initialVersion t) (trees t) (treesByName t) (lastCommitInfo t) (lastCommitInfo t)) as ->.
  { unfold t', MTsetInitialVersion. simpl. destruct (1 <? _); [|done]. rewrite set_initial_noop; [done|].
    eapply Forall_impl; [exact U|]. unfold at_version. intros; lia. }
  cbn [trees]. replace (match trees t with [] => _ | e :: _ => _ end) with (ci_version (lastCommitInfo t)).
  2:{ destruct U as [|e ts He _]; [done|]. by rewrite He. }
  unfold buildCommitInfo at 1. cbn [trees]. rewrite Ec at 1. simpl. unfold buildCommitInfo.
  rewrite (proj2 (commitInfoEqual_iff _ _) eq_refl). done.
Qed.
End Load.

(** ** Catching up *)

Section Catchup.
Context (sha256 : bytes -> bytes).

Lemma UpdateCommitInfo_agree t t' : agree t t' -> UpdateCommitInfo sha256 t' = UpdateCommitInfo sha256 t.
Proof. intros [ss ->]. done. Qed.

Lemma live_run_updated es : forall t t', es <> [] ->
  run_entries (live_entry sha256) t es = Ok t' -> UpdateCommitInfo sha256 t' = t'.
Proof.
  induction es as [|e es IH] using rev_ind; intros t t' Hne E; [done|].
  rewrite run_entries_app, res_bind_ok in E. destruct E as (t1 & _ & E). simpl in E.
  rewrite res_bind_ok in E. destruct E as (t2 & E2 & <-%Ok_inj). symmetry. by apply (live_commit_info sha256) in E2 as [? _].
Qed.

(** Replaying the entries [k+1 .. m] of a log that a run has written, from the
    state after [k] entries, gives the state after [m] entries. *)
Lemma replay_segment es t tk tm k m :
  run_entries (live_entry sha256) t (take k es) = Ok tk ->
  run_entries (live_entry sha256) t (take m es) = Ok tm ->
  (k < m <= length es)%nat ->
  (let* t := replay_from sha256 (m - k) (log_reader es) (Z.of_nat k + 1) tk in Ok (UpdateCommitInfo sha256 t)) = Ok tm.
Proof.
  intros Ek Em Hk. rewrite replay_from_run by lia.
  assert (take m es = take k es ++ take (m - k) (drop k es)) as Es.
  { rewrite (take_take_drop es k (m - k)). f_equal. lia. }
  rewrite Es, run_entries_app, Ek in Em. cbn [res_bind] in Em.
  pose proof (run_agree sha256 (take (m - k) (drop k es)) tk tk (agree_refl tk)) as Ha. rewrite Em in Ha.
  destruct (run_entries (replay_entry sha256) tk _) as [t2| |]; try done. cbn [res_bind res_rel] in *.
  f_equal. rewrite (UpdateCommitInfo_agree tm t2 Ha). eapply live_run_updated; [|exact Em].
  intros E0. apply (f_equal length) in E0. rewrite length_take, length_drop in E0. simpl in E0. lia.
Qed.

Section Run.
Context (es : list WALEntry) (t tk : MultiTree) (k : nat).
Hypotheses (Hb : base_version (MTVersion t) (initialVersion t)) (Hi : initialVersion t < 2 ^ 32)
  (Hn : len es < 2 ^ 62) (Hk : (k <= length es)%nat)
  (Ek : run_entries (live_entry sha256) t (take k es) = Ok tk).

Lemma catchup_first :
  walIndex (nextVersion (MTVersion tk) (initialVersion tk)) (initialVersion tk) = Z.of_nat k + 1.
Proof.
  destruct (live_versions sha256 (take k es) t tk (Z.of_nat k) Hb Hi) as [-> ->]; [|unfold len in *; lia|done|].
  - unfold len. rewrite length_take. lia.
  - apply first_index; [done..|]. unfold len in *. lia.
Qed.

Lemma catchup_all tn : run_entries (live_entry sha256) t es = Ok tn ->
  catchupWAL sha256 tk (log_reader es) 0 = Ok tn.
Proof.
  intros En. unfold catchupWAL. cbn [Z.ltb Z.eqb Z.compare]. rewrite catchup_first. cbn [LastIndex log_reader].
  destruct (Z.ltb_spec (len es) (Z.of_nat k + 1)) as [Hlt|Hge].
  - rewrite take_ge in Ek by (unfold len in *; lia). congruence.
  - rewrite Z.min_id. replace (Z.to_nat (len es - (Z.of_nat k + 1) + 1)) with (length es - k)%nat by (unfold len in *; lia).
    eapply replay_segment; [exact Ek| |unfold len in *; lia]. by rewrite take_ge.
Qed.

Lemma walIndex_version_after v iv m : 1 <= m < 2 ^ 62 -> iv < 2 ^ 32 ->
  walIndex (version_after v iv m) iv = m.
Proof.
  intros Hm Hiv. unfold walIndex, version_after. destruct (Z.eqb_spec m 0); [lia|].
  destruct (Z.ltb_spec 1 iv); [|by rewrite u64_small by lia].
  rewrite (u64_small iv), (u64_small (iv + m - 1)), (u64_small (_ - _)), u64_small by lia. lia.
Qed.

Lemma catchup_target m tm : (k < m <= length es)%nat ->
  run_entries (live_entry sha256) t (take m es) = Ok tm ->
  catchupWAL sha256 tk (log_reader es) (MTVersion tm) = Ok tm.
Proof.
  intros Hm Em. unfold len in Hn.
  destruct (live_versions sha256 (take m es) t tm (Z.of_nat m) Hb Hi) as [Im Vm]; [unfold len; rewrite length_take; lia|lia|done|].
  destruct (live_versions sha256 (take k es) t tk (Z.of_nat k) Hb Hi) as [Ik Vk]; [unfold len; rewrite length_take; lia|lia|done|].
  unfold catchupWAL. rewrite catchup_first. cbn [LastIndex log_reader].
  assert (0 < MTVersion tm) as Hp.
  { rewrite Vm. unfold version_after. destruct (Z.eqb_spec (Z.of_nat m) 0); [lia|].
    destruct (Z.ltb_spec 1 (initialVersion t)); lia. }
  destruct (Z.ltb_spec (MTVersion tm) 0); [lia|].
  destruct (Z.ltb_spec (len es) (Z.of_nat k + 1)); [unfold len in *; lia|].
  destruct (Z.eqb_spec (MTVersion tm) 0); [lia|].
  rewrite Ik, Vm, walIndex_version_after by lia.
  destruct (Z.ltb_spec (Z.of_nat m) (Z.of_nat k + 1)); [lia|].
  rewrite Z.min_l by (unfold len; lia).
  replace (Z.to_nat (Z.of_nat m - (Z.of_nat k + 1) + 1)) with (m - k)%nat by lia.
  eapply replay_segment; eauto.
Qed.
End Run.
End Catchup.

(** ** Properties *)

(** C6: Replaying the write-ahead log recovers the live state: let a node start
    from an empty or freshly imported multi-tree and commit the log's entries
    one by one (apply, save with commit info).  Catching up from the state
    after any [k] entries gives the state after all of them, commit info and
    root hashes included, and catching up to the version of any later entry
    gives the state right after that entry. *)
Theorem catchup_replays_history (sha256 : bytes -> bytes) (es : list WALEntry) (t tk tn : MultiTree) (k : nat)
  (Hb : base_version (MTVersion t) (initialVersion t)) (Hi : initialVersion t < 2 ^ 32)
  (Hn : len es < 2 ^ 62) (Hk : (k <= length es)%nat)
  (Ek : run_entries (live_entry sha256) t (take k es) = Ok tk)
  (En : run_entries (live_entry sha256) t es = Ok tn) :
  catchupWAL sha256 tk (log_reader es) 0 = Ok tn /\
  (forall m tm, (k < m <= length es)%nat -> run_entries (live_entry sha256) t (take m es) = Ok tm ->
     catchupWAL sha256 tk (log_reader es) (MTVersion tm) = Ok tm).
Proof.
  split; [by eapply catchup_all|]. intros m tm Hm Em. by eapply catchup_target.
Qed.

Definition name_a : name := [z2b 97].
Definition name_b : name := [z2b 98].
Definition sample_log : list WALEntry :=
  [mkEntry [mkNamedCS name_a [mkKVPair false [z2b 1] (Some [z2b 10])]] [mkUpgrade name_a [] false; mkUpgrade name_b [] false];
   mkEntry [mkNamedCS name_b [mkKVPair false [z2b 2] (Some [z2b 20])]; mkNamedCS name_a [mkKVPair false [z2b 2] (Some [])]] [];
   mkEntry [mkNamedCS name_a [mkKVPair true [z2b 1] None]] [mkUpgrade name_b [] true]].

Definition res_get {A} (d : A) (r : res A) : A := match r with Ok a => a | _ => d end.
Definition sample_at (k : nat) : MultiTree :=
  res_get (NewEmptyMultiTree 5) (run_entries (live_entry digest32) (NewEmptyMultiTree 5) (take k sample_log)).

Lemma catchup_replays_history_witness :
  MTVersion (sample_at 3) = 7 /\
  catchupWAL digest32 (sample_at 1) (log_reader sample_log) 0 = Ok (sample_at 3).
Proof.
  split; [by vm_compute|].
  apply (catchup_replays_history digest32 sample_log (NewEmptyMultiTree 5) (sample_at 1) (sample_at 3) 1).
  - right. split; [by vm_compute|]. by left.
  - by vm_compute.
  - by vm_compute.
  - simpl. lia.
  - by vm_compute.
  - by vm_compute.
Defined.

(** Upgrades refine the map of trees: whenever the sequence of upgrades makes
    sense on the map (each deleted or renamed store exists, each new name is
    free at that point), [ApplyUpgrades] succeeds, names stay sorted, unique
    and indexed, and looking a tree up by name gives exactly the upgraded map,
    new stores starting at the version of the next commit minus one. *)
Theorem upgrades_refine_map (t : MultiTree) (us : list TreeNameUpgrade) (new : VTree) (m : gmap name VTree)
  (W : mt_wf t) (Hnew : vtNew (u32 (nextVersion (MTVersion t) (initialVersion t))) = Ok new)
  (Hm : map_upgrades new (forest (trees t)) us = Some m) :
  exists t', ApplyUpgrades t us = Ok t' /\ mt_wf t' /\ (forall n, TreeByName t' n = m !! n).
Proof.
  destruct (ApplyUpgrades_map t us new m W Hnew Hm) as (t' & E & Ef).
  assert (mt_wf t') as W' by by eapply ApplyUpgrades_wf.
  exists t'. split_and!; [done..|]. intros n. by rewrite TreeByName_forest, Ef.
Qed.

Lemma upgrades_refine_map_witness :
  exists t', ApplyUpgrades (NewEmptyMultiTree 5) [mkUpgrade name_b [] false; mkUpgrade name_a [] false] = Ok t' /\
    mt_wf t' /\ (forall n, TreeByName t' n =
      (<[name_a := mkVTree 4 None]> (<[name_b := mkVTree 4 None]> (∅ : gmap name VTree))) !! n).
Proof.
  apply (upgrades_refine_map _ _ (mkVTree 4 None)).
  - split; [constructor|]. intros n i. simpl. rewrite lookup_empty. naive_solver.
  - reflexivity.
  - reflexivity.
Defined.



(** [SaveVersion] checks all trees before it changes any of them: if one is
    at the last 32-bit version it fails, and otherwise it returns the next
    version, keeps every name and value, moves every tree one version on and,
    when asked to, leaves the commit info of exactly these trees. *)
Theorem save_version_all_or_nothing (sha256 : bytes -> bytes) (t : MultiTree) (b : bool) :
  if existsb (fun e => vt_version (nt_tree e) =? MaxUint32) (trees t)
  then MTSaveVersion sha256 t b = Err "version overflows uint32"
  else exists t', MTSaveVersion sha256 t b = Ok (nextVersion (MTVersion t) (initialVersion t), t') /\
    MTVersion t' = nextVersion (MTVersion t) (initialVersion t) /\
    treesByName t' = treesByName t /\
    Forall2 (fun e e' => nt_name e' = nt_name e /\ vt_root (nt_tree e') = vt_root (nt_tree e) /\
      vt_version (nt_tree e') = u32 (vt_version (nt_tree e) + 1)) (trees t) (trees t') /\
    ci_stores (lastCommitInfo t') = (if b then ci_stores (buildCommitInfo sha256 t' 0) else []).
Proof.
  unfold MTSaveVersion, vtOverflow. destruct (existsb _ (trees t)); [done|].
  destruct b; (eexists; split; [done|]; split_and!; try done);
    simpl; (apply Forall2_fmap_r, Forall_Forall2_diag, Forall_true; done).
Qed.

(** Log indices and versions convert into each other without loss, and the
    version after the next commit has the next index, for every initial
    version and all versions the 64-bit arithmetic admits. *)
Theorem wal_index_version_inverse (v iv : Z) (Hiv : 0 <= iv < 2 ^ 32) (Hv : Z.max 1 iv <= v < 2 ^ 62) :
  walVersion (walIndex v iv) iv = v /\ 1 <= walIndex v iv /\
  walIndex (nextVersion v iv) iv = walIndex v iv + 1 /\
  walIndex (nextVersion 0 iv) iv = 1.
Proof.
  unfold walVersion, walIndex, nextVersion. destruct (Z.eqb_spec v 0); [lia|]. cbn [andb Z.eqb].
  rewrite !(i64_small (v + 1)) by lia. destruct (Z.ltb_spec 1 iv).
  - rewrite !(u64_small iv), !(u64_small v), !(u64_small (v + 1)), !(u64_small (v - iv)),
      !(u64_small (v + 1 - iv)), !(u64_small (iv - iv)), !(u64_small (v - iv + 1)), !u64_small by lia.
    rewrite !(i64_small (v - iv + 1)), (i64_small (_ + iv)), i64_small by lia. lia.
  - change (u64 (i64 (0 + 1))) with 1. rewrite !(u64_small v), (u64_small (v + 1)), i64_small by lia. lia.
Qed.

Lemma wal_index_version_inverse_witness :
  walVersion (walIndex 1000 100) 100 = 1000 /\ 1 <= walIndex 1000 100 /\
  walIndex (nextVersion 1000 100) 100 = walIndex 1000 100 + 1 /\ walIndex (nextVersion 0 100) 100 = 1.
Proof. apply (wal_index_version_inverse 1000 100); lia. Defined.

(** A snapshot of all trees, written after a commit, loads to the same
    multi-tree (trees, index, commit info, initial version), whatever the order
    in which the tree directories are listed: the commit info recomputed from
    the loaded trees passes the check against the metadata file. *)
Theorem multitree_snapshot_loads (sha256 : bytes -> bytes) (sha256_len : forall b, len (sha256 b) = 32)
  (t : MultiTree) (W : mt_wf t) (Hv : 0 < MTVersion t < 2 ^ 32) (Hi : 0 <= initialVersion t < 2 ^ 32)
  (U : Forall (at_version (MTVersion t)) (trees t)) (St : Forall tree_storable (trees t))
  (Hc : lastCommitInfo t = buildCommitInfo sha256 t (MTVersion t)) :
  exists d, MTWriteSnapshot sha256 (fun _ => false) false t = Ok d /\
    forall ds, ds ≡ₚ d_trees d ->
      LoadMultiTree sha256 (mkDir ds (d_commit d) (d_initial d)) =
        Ok (mkMulti (initialVersion t) (trees t) (treesByName t) (lastCommitInfo t) (lastCommitInfo t)).
Proof.
  destruct (write_open_trees sha256 sha256_len (fun _ => false) (trees t) (fun _ => eq_refl) St) as (fs & E & _).
  eexists. unfold MTWriteSnapshot. rewrite E. cbn [res_bind]. split; [done|]. intros ds P.
  eapply (load_written sha256 sha256_len _ _ ds (fun _ => false)); eauto.
  unfold MTWriteSnapshot. by rewrite E.
Qed.

Definition two_trees : MultiTree :=
  UpdateCommitInfo digest32 (MTCopy (mkMulti 3
    [mkNamed name_a (mkVTree 7 (Some two_leaves)); mkNamed name_b (mkVTree 7 None)] ∅
    (mkCommitInfo 7 []) (mkCommitInfo 0 []))).

Lemma two_trees_wf : mt_wf two_trees.
Proof.
  split.
  - repeat constructor; by vm_compute.
  - apply (index_trees_ok (trees two_trees)), (bool_decide_unpack _). by vm_compute.
Qed.

Lemma multitree_snapshot_loads_witness :
  exists d, MTWriteSnapshot digest32 (fun _ => false) false two_trees = Ok d /\
    forall ds, ds ≡ₚ d_trees d ->
      LoadMultiTree digest32 (mkDir ds (d_commit d) (d_initial d)) =
        Ok (mkMulti 3 (trees two_trees) (treesByName two_trees) (lastCommitInfo two_trees) (lastCommitInfo two_trees)).
Proof.
  apply (multitree_snapshot_loads digest32 digest32_len two_trees).
  - apply two_trees_wf.
  - by vm_compute.
  - by vm_compute.
  - repeat constructor; by vm_compute.
  - constructor; [split; [by vm_compute|exact two_leaves_storable]|constructor; [split; [by vm_compute|done]|constructor]].
  - by vm_compute.
Defined.
