(* ===== verification/WorkerGroup.v ===== *)
(** The worker group that writes the trees of a snapshot: [RunWorkerGroup] and
    [runWorkerTask] of [memiavl/multitree.go], with [WriteSnapshotWithContext] of
    the multi-tree.

    A task is queued, runs on a worker, and ends with an error or a result.  The
    steps of the workers interleave in any way; the caller may cancel the context.
    Between the end of a task that failed and its call of [cancel] other tasks can
    still start, so these are two steps.  What a task does is a relation
    [outcome]: the index, whether the context was cancelled before the task ended,
    and the result, where a panic is [Panic].

    Theorems: every run ends after a bounded number of steps, and the group returns
    nil exactly when every task has run to a result; for the trees of a multi-tree
    every run writes the files that [MultiTree.MTWriteSnapshot] writes. *)
From stdpp Require Import prelude strings relations.
From Stdlib Require Import ZArith Lia.
From S2P Require Import Prelude OrdMap Codec Node Hash Persisted Snapshot Tree MultiTree.
Local Open Scope Z_scope.

Inductive Task (A : Type) : Type :=
| Queued
| Running
| Failing (e : string)
| Ended (r : string + A).
Arguments Queued {A}.
Arguments Running {A}.
Arguments Failing {A} e.
Arguments Ended {A} r.

(** The tasks, and whether the context of the group is cancelled. *)
Record Group (A : Type) : Type := mkGroup { g_tasks : list (Task A); g_cancelled : bool }.
Arguments mkGroup {A} _ _.
Arguments g_tasks {A} _.
Arguments g_cancelled {A} _.

Section Group.
Context {A : Type} (outcome : nat -> bool -> res A -> Prop) (callerCancels : bool).

(** [runWorkerTask] turns a panic into an error. *)
Definition runWorkerTask (r : res A) : string + A :=
  match r with
  | Ok a => inr a
  | Err e => inl e
  | Panic e => inl ("panic in worker task: " ++ e)%string
  end.

(** The state of a task when its function has returned. *)
Definition after_run (r : res A) : Task A :=
  match runWorkerTask r with inr a => Ended (inr a) | inl e => Failing e end.

Inductive group_step : Group A -> Group A -> Prop :=
| step_cancel ts : callerCancels = true -> group_step (mkGroup ts false) (mkGroup ts true)
| step_skip i ts : ts !! i = Some Queued ->
    group_step (mkGroup ts true) (mkGroup (<[i := Ended (inl "context canceled"%string)]> ts) true)
| step_start i ts : ts !! i = Some Queued -> group_step (mkGroup ts false) (mkGroup (<[i := Running]> ts) false)
| step_return i ts c r : ts !! i = Some Running -> outcome i c r ->
    group_step (mkGroup ts c) (mkGroup (<[i := after_run r]> ts) c)
| step_fail i ts c e : ts !! i = Some (Failing e) ->
    group_step (mkGroup ts c) (mkGroup (<[i := Ended (inl e)]> ts) true).

(** [group.Wait] returns when all tasks have ended. *)
Definition task_ended (t : Task A) : bool := match t with Ended _ => true | _ => false end.
Definition finished (g : Group A) : bool := forallb task_ended (g_tasks g).

(** [errors.Join]: nil when there is no error. *)
Definition group_errors (g : Group A) : list string :=
  omap (fun t : Task A => match t with Ended (inl e) => Some e | _ => None end) (g_tasks g).

Definition RunWorkerGroup (n : nat) : Group A := mkGroup (replicate n Queued) false.

(** ** Every run ends *)

Definition task_work (t : Task A) : nat := match t with Queued => 3 | Running => 2 | Failing _ => 1 | Ended _ => 0 end.
Definition group_work (g : Group A) : nat := sum_list_with task_work (g_tasks g) + (if g_cancelled g then 0 else 1).

Lemma work_update i ts t t' : ts !! i = Some t -> (task_work t' < task_work t)%nat ->
  (sum_list_with task_work (<[i := t']> ts) < sum_list_with task_work ts)%nat.
Proof.
  revert i. induction ts as [|x ts IH]; intros [|i] Hi Hw; cbn in *; try done; [injection Hi as ->; lia|]. apply Nat.add_lt_mono_l. by apply IH.
Qed.

Lemma group_step_work g g' : group_step g g' -> (group_work g' < group_work g)%nat.
Proof.
  intros [ts _|i ts Hi|i ts Hi|i ts c r Hi _|i ts c e Hi]; unfold group_work; cbn [g_tasks g_cancelled].
  - lia.
  - pose proof (work_update i ts _ (Ended (inl "context canceled"%string)) Hi ltac:(cbn; lia)). lia.
  - pose proof (work_update i ts _ Running Hi ltac:(cbn; lia)). lia.
  - pose proof (work_update i ts _ (after_run r) Hi) as H. unfold after_run in *. destruct (runWorkerTask r); cbn in *; specialize (H ltac:(lia)); destruct c; lia.
  - pose proof (work_update i ts _ (Ended (inl e)) Hi ltac:(cbn; lia)). destruct c; lia.
Qed.

Lemma run_length k g g' : nsteps group_step k g g' -> (k + group_work g' <= group_work g)%nat.
Proof. induction 1 as [|k g1 g2 g3 St _ IH]; [lia|]. apply group_step_work in St. lia. Qed.

Lemma init_work n : group_work (RunWorkerGroup n) = (3 * n + 1)%nat.
Proof. unfold group_work. cbn [g_tasks g_cancelled RunWorkerGroup]. f_equal. induction n as [|n IH]; [done|]. cbn in *. lia. Qed.

Hypothesis outcome_total : forall i c, exists r, outcome i c r.

Lemma group_progress g : finished g = false -> exists g', group_step g g'.
Proof.
  destruct g as [ts c]. unfold finished. cbn [g_tasks]. intros Hf.
  assert (exists i t, ts !! i = Some t /\ task_ended t = false) as (i & t & Hi & Ht).
  { induction ts as [|x ts IH]; [done|]. cbn in Hf. destruct (task_ended x) eqn:Ex; [|by exists 0%nat, x]. destruct (IH Hf) as (i & t & Hi & Ht). by exists (S i), t. }
  destruct t as [| |e|r]; [| | |done].
  - destruct c; eexists; [by eapply step_skip|by eapply step_start].
  - destruct (outcome_total i c) as [r Hr]. eexists. by eapply step_return.
  - eexists. by eapply step_fail.
Qed.

Lemma group_completes g : exists g', rtc group_step g g' /\ finished g' = true.
Proof.
  remember (group_work g) as w eqn:Ew. revert g Ew. induction (lt_wf w) as [w _ IH]. intros g ->. destruct (finished g) eqn:Ef; [by exists g|].
  destruct (group_progress g Ef) as [g1 St]. destruct (IH _ (group_step_work _ _ St) g1 eq_refl) as (g' & R & F). exists g'. split; [by eapply rtc_l|done].
Qed.

(** ** What has ended *)

(** A result in a task comes from its function, and nobody is lost. *)
Definition group_inv (n : nat) (g : Group A) : Prop :=
  length (g_tasks g) = n /\ forall i a, g_tasks g !! i = Some (Ended (inr a)) -> exists c, outcome i c (Ok a).

Lemma after_run_ok r a : after_run r = Ended (inr a) -> r = Ok a.
Proof. unfold after_run, runWorkerTask. destruct r; [|done..]. by intros [= ->]. Qed.

Lemma group_step_inv n g g' : group_step g g' -> group_inv n g -> group_inv n g'.
Proof.
  assert (forall ts c c' i t, group_inv n (mkGroup ts c) -> (forall a, t = Ended (inr a) -> exists c, outcome i c (Ok a)) -> group_inv n (mkGroup (<[i := t]> ts) c')) as Hup.
  { intros ts c c' i t [Hl Hr] Ht. split; cbn [g_tasks] in *; [by rewrite length_insert|]. intros j a Hj. destruct (decide (i = j)) as [<-|Hne].
    - assert (i < length ts)%nat by (apply lookup_lt_Some in Hj; by rewrite length_insert in Hj). rewrite list_lookup_insert_eq in Hj by done. injection Hj as ->. by apply Ht.
    - rewrite list_lookup_insert_ne in Hj by done. by apply Hr. }
  intros St I. destruct St as [ts _|i ts Hi|i ts Hi|i ts c r Hi Hr|i ts c e Hi]; [exact I|eapply Hup; [exact I|done]..| |eapply Hup; [exact I|done]].
  eapply Hup; [exact I|]. intros a ->%after_run_ok. by exists c.
Qed.

Lemma group_inv_run n g g' : rtc group_step g g' -> group_inv n g -> group_inv n g'.
Proof. induction 1; [done|]. intros I. eauto using group_step_inv. Qed.

Lemma init_inv_group n : group_inv n (RunWorkerGroup n).
Proof.
  split; cbn [g_tasks RunWorkerGroup]; [apply length_replicate|]. intros i a Hi. apply lookup_replicate in Hi as [Hi _]. done.
Qed.

(** No error means that every task has a result. *)
Lemma no_errors g : finished g = true -> group_errors g = [] -> forall i, (i < length (g_tasks g))%nat -> exists a, g_tasks g !! i = Some (Ended (inr a)).
Proof.
  destruct g as [ts c]. unfold finished, group_errors. cbn [g_tasks]. induction ts as [|t ts IH]; intros Hf He i Hi; [cbn in Hi; lia|].
  cbn in Hf. apply andb_true_iff in Hf as [Ht Hf]. destruct t as [| |e|[e|a]]; try done. csimpl in He. destruct i as [|i]; [by exists a|]. apply IH; [done|done|cbn in Hi; lia].
Qed.
End Group.

(** ** The trees of a snapshot *)

(** The task of a tree: its files are written, as long as it does not see that the
    context is cancelled. *)
Definition write_outcome (sha256 : bytes -> bytes) (ts : list NamedTree) (i : nat) (c : bool) (r : res Files) : Prop :=
  match ts !! i with
  | Some e => exists cancelled, (c = false -> forall j, cancelled j = false) /\
                r = WriteSnapshotWithContext sha256 cancelled (vt_version (nt_tree e)) (vt_root (nt_tree e))
  | None => r = Panic "index out of range"
  end.

(** The files that the finished tasks have written, by the names of the trees. *)
Definition group_files (ts : list NamedTree) (g : Group Files) : list (name * Files) :=
  omap (fun x : NamedTree * Task Files => match x.2 with Ended (inr f) => Some (nt_name x.1, f) | _ => None end) (zip ts (g_tasks g)).

(** [WriteSnapshotWithContext] of the multi-tree, when the group has finished. *)
Definition group_snapshot (t : MultiTree) (g : Group Files) (cancelledAtEnd : bool) : res Dir :=
  match group_errors g with
  | e :: _ => Err e
  | [] => if cancelledAtEnd then Err "context canceled" else Ok (mkDir (group_files (trees t) g) (lastCommitInfo t) (initialVersion t))
  end.

Lemma write_outcome_total sha256 ts i c : exists r, write_outcome sha256 ts i c r.
Proof. unfold write_outcome. destruct (ts !! i) as [e|]; [|by exists (Panic "index out of range")]. eexists. exists (fun _ => false). split; [by intros|reflexivity]. Qed.

Section Write.
Context (sha256 : bytes -> bytes) (ts : list NamedTree) (fs : list (name * Files)).
Hypothesis Hw : write_trees sha256 (fun _ => false) ts = Ok fs.

Lemma write_at i e : ts !! i = Some e ->
  exists f, fs !! i = Some (nt_name e, f) /\ WriteSnapshotWithContext sha256 (fun _ => false) (vt_version (nt_tree e)) (vt_root (nt_tree e)) = Ok f.
Proof.
  clear -Hw. revert fs Hw i. induction ts as [|x l IH]; intros gs Hg i Hi; [done|]. cbn [write_trees] in Hg.
  destruct (WriteSnapshotWithContext sha256 (fun _ => false) (vt_version (nt_tree x)) _) as [f| |] eqn:Ef; [|done..]. cbn [res_bind] in Hg. destruct (write_trees _ _ l) as [rest| |]; [|done..].
  cbn [res_bind] in Hg. injection Hg as <-. destruct i as [|i]; [injection Hi as ->; by exists f|]. exact (IH rest eq_refl i Hi).
Qed.

(** While nobody cancels, the tasks that have ended have their files. *)
Definition unfailed (g : Group Files) : Prop :=
  g_cancelled g = false /\ length (g_tasks g) = length ts /\
  forall i t, g_tasks g !! i = Some t -> match t with Queued | Running => True | Failing _ => False | Ended r => exists e f, ts !! i = Some e /\ r = inr f /\ fs !! i = Some (nt_name e, f) end.

Lemma writeSnapshot_ext cancelled v o : (forall j, cancelled j = false) ->
  WriteSnapshotWithContext sha256 cancelled v o = WriteSnapshotWithContext sha256 (fun _ => false) v o.
Proof.
  intros Hc. assert (forall n w, writeRecursive sha256 cancelled w n = writeRecursive sha256 (fun _ => false) w n) as Hr.
  { induction n as [u k x|h s u k l IHl r IHr]; intros w; cbn [writeRecursive].
    - unfold writeLeaf. by rewrite Hc.
    - rewrite IHl. destruct (writeRecursive _ _ w l) as [w1| |]; [|done..]. cbn [res_bind]. by rewrite IHr. }
  unfold WriteSnapshotWithContext, writeSnapshot. destruct o as [n|]; [|done]. by rewrite Hr.
Qed.

Lemma unfailed_step g g' : group_step (write_outcome sha256 ts) false g g' -> unfailed g -> unfailed g'.
Proof.
  assert (forall us c i t, unfailed (mkGroup us c) ->
    match t with Queued | Running => True | Failing _ => False | Ended r => exists e f, ts !! i = Some e /\ r = inr f /\ fs !! i = Some (nt_name e, f) end ->
    unfailed (mkGroup (<[i := t]> us) c)) as Hup.
  { intros us c i t (Hc & Hl & Ht) Hi. split_and!; [done|cbn [g_tasks] in *; by rewrite length_insert|]. cbn [g_tasks] in *. intros j u Hj. destruct (decide (i = j)) as [<-|Hne].
    - assert (i < length us)%nat by (apply lookup_lt_Some in Hj; by rewrite length_insert in Hj). rewrite list_lookup_insert_eq in Hj by done. by injection Hj as <-.
    - rewrite list_lookup_insert_ne in Hj by done. by apply Ht. }
  intros St U. pose proof U as (Hc & Hl & Ht). destruct St as [us Hcall|i us Hi|i us Hi|i us c r Hi Ho|i us c e Hi]; [done|done|by apply Hup| |by apply Ht in Hi].
  apply Hup; [done|]. cbn [g_tasks g_cancelled] in *. subst c. assert (i < length ts)%nat as Hlt by (rewrite <- Hl; by eapply lookup_lt_Some).
  destruct (lookup_lt_is_Some_2 ts i Hlt) as [e He]. unfold write_outcome in Ho. rewrite He in Ho. destruct Ho as (cancelled & Hno & ->).
  destruct (write_at i e He) as (f & Hf & Ef). rewrite writeSnapshot_ext, Ef by auto. cbn. by exists e, f.
Qed.

Lemma unfailed_run g g' : rtc (group_step (write_outcome sha256 ts) false) g g' -> unfailed g -> unfailed g'.
Proof. induction 1; [done|]. intros U. eauto using unfailed_step. Qed.

Lemma unfailed_init : unfailed (RunWorkerGroup (length ts)).
Proof.
  split_and!; [done|cbn [g_tasks RunWorkerGroup]; apply length_replicate|]. cbn [g_tasks RunWorkerGroup]. intros i t Hi. by apply lookup_replicate in Hi as [-> _].
Qed.

Lemma write_length : length fs = length ts.
Proof.
  clear -Hw. revert fs Hw. induction ts as [|x l IH]; intros gs Hg; [by injection Hg as <-|]. cbn [write_trees] in Hg.
  destruct (WriteSnapshotWithContext _ _ _ _) as [f| |]; [|done..]. cbn [res_bind] in Hg. destruct (write_trees _ _ l) as [rest| |]; [|done..].
  cbn [res_bind] in Hg. injection Hg as <-. cbn. f_equal. by apply IH.
Qed.
End Write.

(** All tasks with their files give the files of the trees. *)
Lemma files_of_tasks (ts : list NamedTree) (us : list (Task Files)) (fs : list (name * Files)) : length us = length ts -> length fs = length ts ->
  (forall i t, us !! i = Some t -> exists e f, ts !! i = Some e /\ t = Ended (inr f) /\ fs !! i = Some (nt_name e, f)) ->
  omap (fun x : NamedTree * Task Files => match x.2 with Ended (inr f) => Some (nt_name x.1, f) | _ => None end) (zip ts us) = fs /\
  omap (fun t : Task Files => match t with Ended (inl e) => Some e | _ => None end) us = [].
Proof.
  revert us fs. induction ts as [|e ts IH]; intros [|u us] [|x fs] Hu Hf Ht; cbn in Hu, Hf; try lia; [done|].
  destruct (Ht 0%nat u eq_refl) as (e' & f & [= <-] & -> & [= ->]). destruct (IH us fs) as [E1 E2]; [lia|lia| |].
  { intros i t Hi. apply (Ht (S i) t Hi). }
  csimpl. by rewrite E1, E2.
Qed.

(** ** Properties *)

(** C39: The worker group ends, and its result is honest.  Whatever the tasks do and
    however the workers and the caller's cancellation interleave: a group of [n]
    tasks takes at most [3 n + 1] steps; from every state that is reached the
    group can be completed; and when all tasks have ended, no error is returned
    exactly when every task has run its function to a result (none was skipped,
    failed or panicked). *)
Theorem worker_group_ends {A : Type} (outcome : nat -> bool -> res A -> Prop) (callerCancels : bool) (n k : nat) (g : Group A)
  (Htotal : forall i c, exists r, outcome i c r) (Hrun : nsteps (group_step outcome callerCancels) k (RunWorkerGroup n) g) :
  (k <= 3 * n + 1)%nat /\
  (exists g', rtc (group_step outcome callerCancels) g g' /\ finished g' = true) /\
  (finished g = true ->
     (group_errors g = [] <-> forall i, (i < n)%nat -> exists a c, g_tasks g !! i = Some (Ended (inr a)) /\ outcome i c (Ok a))).
Proof.
  pose proof (run_length _ _ _ _ _ Hrun) as Hk. rewrite init_work in Hk.
  assert (group_inv outcome n g) as [Hl Hi] by (eapply group_inv_run; [by eapply rtc_nsteps_2|apply init_inv_group]).
  split_and!; [lia|by apply group_completes|]. intros Hf. split.
  - intros He i Hlt. destruct (no_errors g Hf He i) as [a Ha]; [by rewrite Hl|]. destruct (Hi i a Ha) as [c Hc]. by exists a, c.
  - intros Hall. unfold group_errors. destruct (omap _ _) as [|e es] eqn:E; [done|]. exfalso.
    assert (e ∈ omap (fun t : Task A => match t with Ended (inl e) => Some e | _ => None end) (g_tasks g)) as Hin by (rewrite E; by left).
    apply list_elem_of_omap in Hin as (t & Ht & Et). apply list_elem_of_lookup in Ht as [i Ht]. destruct (Hall i) as (a & c & Ha & _); [rewrite <- Hl; by eapply lookup_lt_Some|].
    rewrite Ht in Ha. injection Ha as ->. done.
Qed.

(** Writing a snapshot with a pool of workers: for trees that can be written, every
    run of the group in which the caller does not cancel ends in the directory of
    [MTWriteSnapshot]. *)
Theorem group_writes_snapshot (sha256 : bytes -> bytes) (t : MultiTree) (d : Dir) (g : Group Files)
  (Hd : MTWriteSnapshot sha256 (fun _ => false) false t = Ok d) (Hf : finished g = true)
  (Hrun : rtc (group_step (write_outcome sha256 (trees t)) false) (RunWorkerGroup (length (trees t))) g) :
  group_snapshot t g false = Ok d.
Proof.
  unfold MTWriteSnapshot in Hd. destruct (write_trees _ _ _) as [fs| |] eqn:Ew; [|done..]. cbn [res_bind] in Hd. injection Hd as <-.
  destruct (unfailed_run sha256 (trees t) fs Ew _ g Hrun (unfailed_init _ _)) as (_ & Hl & Ht).
  destruct (files_of_tasks (trees t) (g_tasks g) fs Hl (write_length _ _ _ Ew)) as [E1 E2].
  { intros i u Hi. specialize (Ht i u Hi). pose proof (proj1 (List.forallb_forall _ _) Hf u) as Hu.
    specialize (Hu ltac:(apply list_elem_of_In; by eapply list_elem_of_lookup_2)).
    destruct u as [| | |r]; [done..|]. destruct Ht as (e & f & He & -> & Hfs). by exists e, f. }
  unfold group_snapshot, group_errors, group_files. by rewrite E2, E1.
Qed.

(** ** Samples *)

(** Two tasks: one ends well, the other panics. *)
Definition sample_outcome (i : nat) (c : bool) (r : res Z) : Prop := r = match i with O => Ok 7 | _ => Panic "nil map" end.
Definition sample_group : Group Z := mkGroup [Ended (inr 7); Ended (inl "panic in worker task: nil map"%string)] true.

Lemma sample_group_run : nsteps (group_step sample_outcome false) 5 (RunWorkerGroup 2) sample_group.
Proof.
  eapply nsteps_l; [exact (step_start _ _ 1%nat [Queued; Queued] eq_refl)|]. eapply nsteps_l; [exact (step_return _ _ 1%nat [Queued; Running] false (Panic "nil map") eq_refl eq_refl)|].
  eapply nsteps_l; [exact (step_start _ _ 0%nat [Queued; Failing "panic in worker task: nil map"] eq_refl)|].
  eapply nsteps_l; [exact (step_fail _ _ 1%nat [Running; Failing "panic in worker task: nil map"] false _ eq_refl)|].
  eapply nsteps_l; [exact (step_return _ _ 0%nat [Running; Ended (inl "panic in worker task: nil map"%string)] true (Ok 7) eq_refl eq_refl)|]. constructor.
Qed.

Lemma worker_group_ends_witness : (5 <= 3 * 2 + 1)%nat /\
  (exists g', rtc (group_step sample_outcome false) sample_group g' /\ finished g' = true) /\
  (finished sample_group = true ->
     (group_errors sample_group = [] <-> forall i, (i < 2)%nat -> exists a c, g_tasks sample_group !! i = Some (Ended (inr a)) /\ sample_outcome i c (Ok a))).
Proof.
  apply (worker_group_ends sample_outcome false 2 5 sample_group); [|exact sample_group_run]. intros i c. unfold sample_outcome. by eexists.
Defined.
