(* ===== verification/Proofs.v ===== *)
(** ICS23 proofs: [memiavl/proof.go].

    The operations build existence and non-existence proofs from a tree.  The
    [ics23] package that verifies them is a parameter: how it hashes a leaf and
    an inner operation of the kind built here is stated as two hypotheses.

    Theorems: the proof of a stored key recomputes the root hash, absent keys
    are refused; a non-existence proof consists of the proofs of the two
    neighbours of the key. *)
From stdpp Require Import prelude strings.
From Stdlib Require Import ZArith Lia.
From S2P Require Import Prelude OrdMap Codec Node Hash.
Local Open Scope Z_scope.

(** [iavl.ProofInnerNode]: one step of the path, from the root down. *)
Record ProofInnerNode : Type := mkInner {
  pi_Height : Z;
  pi_Size : Z;
  pi_Version : Z;
  pi_Left : slice;
  pi_Right : slice;
}.

(** The [ics23] messages; the hash and length enumerations have the values the
    code uses. *)
Inductive HashOp : Type := SHA256.
Inductive LengthOp : Type := VAR_PROTO.
Record LeafOp : Type := mkLeafOp {
  lo_Hash : HashOp;
  lo_PrehashValue : HashOp;
  lo_Length : LengthOp;
  lo_Prefix : bytes;
}.
Record InnerOp : Type := mkInnerOp { io_Hash : HashOp; io_Prefix : bytes; io_Suffix : bytes }.
Record ExistenceProof : Type := mkExist {
  ep_Key : bytes;
  ep_Value : slice;
  ep_Leaf : LeafOp;
  ep_Path : list InnerOp;
}.
Record NonExistenceProof : Type := mkNonExist {
  np_Key : bytes;
  np_Left : option ExistenceProof;
  np_Right : option ExistenceProof;
}.
Inductive CommitmentProof : Type :=
| Exist (p : ExistenceProof)
| Nonexist (p : NonExistenceProof).

Definition convertVarIntToBytes (orig : Z) : bytes := PutVarint orig.

Definition convertLeafOp (version : Z) : LeafOp :=
  let prefix := convertVarIntToBytes 0 in
  let prefix := prefix ++ convertVarIntToBytes 1 in
  let prefix := prefix ++ convertVarIntToBytes version in
  mkLeafOp SHA256 SHA256 VAR_PROTO prefix.

Definition lengthByte : byte := z2b 32.

Definition convertInnerOp (p : ProofInnerNode) : InnerOp :=
  let prefix := convertVarIntToBytes (pi_Height p) in
  let prefix := prefix ++ convertVarIntToBytes (pi_Size p) in
  let prefix := prefix ++ convertVarIntToBytes (pi_Version p) in
  let left := default [] (pi_Left p) in
  if 0 <? len left then mkInnerOp SHA256 (((prefix ++ [lengthByte]) ++ left) ++ [lengthByte]) []
  else mkInnerOp SHA256 (prefix ++ [lengthByte]) ([lengthByte] ++ default [] (pi_Right p)).

(** The loop runs from the leaf end of the path. *)
Definition convertInnerOps (path : list ProofInnerNode) : list InnerOp := convertInnerOp <$> reverse path.

Section Proofs.
Context (sha256 : bytes -> bytes).

(** The loop of [pathToLeaf]; [path] is what was appended so far. *)
Fixpoint pathToLeaf (path : list ProofInnerNode) (n : Node) (key : bytes) : res (list ProofInnerNode * Node) :=
  match n with
  | Leaf _ k _ => if decide (k = key) then Ok (path, n) else Err "key does not exist"
  | Branch h s v k l r =>
      if bytes_ltb key k
      then pathToLeaf (path ++ [mkInner (i8 h) s v None (Some (HashNode sha256 r))]) l key
      else pathToLeaf (path ++ [mkInner (i8 h) s v (Some (HashNode sha256 l)) None]) r key
  end.

(** Cloning the key and the value does not change them. *)
Definition createExistenceProof (o : option Node) (key : bytes) : res ExistenceProof :=
  match o with
  | None => Err "key does not exist"
  | Some n =>
      let* (path, leaf) := pathToLeaf [] n key in
      Ok (mkExist (Key leaf) (Value leaf) (convertLeafOp (Version leaf)) (convertInnerOps path))
  end.

Definition GetMembershipProof (o : option Node) (key : bytes) : res CommitmentProof :=
  let* p := createExistenceProof o key in Ok (Exist p).

(** [Tree.GetByIndex] with its [int64] index. *)
Definition valueByIndex (n : Node) (index : Z) : option (bytes * slice) :=
  if MaxUint32 <? index then None else GetByIndex n (u32 index).

Definition GetNonMembershipProof (o : option Node) (key : bytes) : res CommitmentProof :=
  match o with
  | None => Err "cannot create non-existence proof for an empty tree"
  | Some n =>
      let (val, idx) := Get n key in
      match val with
      | Some _ => Err "cannot create NonExistanceProof when Key in State"
      | None =>
          let* pl :=
            if 1 <=? idx then
              let leftkey := from_option fst [] (valueByIndex n (idx - 1)) in
              let* p := createExistenceProof o leftkey in Ok (Some p)
            else Ok None in
          let* pr :=
            match valueByIndex n idx with
            | Some (rightkey, _) => let* p := createExistenceProof o rightkey in Ok (Some p)
            | None => Ok None
            end in
          Ok (Nonexist (mkNonExist key pl pr))
      end
  end.

(** ** Verification by the [ics23] package *)

Context (applyLeaf : LeafOp -> bytes -> bytes -> bytes) (applyInner : InnerOp -> bytes -> bytes).

(** ICS23: the root a verifier calculates folds the inner operations over the
    hash of the leaf. *)
Definition calculate (p : ExistenceProof) : bytes :=
  fold_left (fun child op => applyInner op child) (ep_Path p)
    (applyLeaf (ep_Leaf p) (ep_Key p) (default [] (ep_Value p))).

Hypothesis leaf_spec : forall prefix k v,
  applyLeaf (mkLeafOp SHA256 SHA256 VAR_PROTO prefix) k v =
  sha256 (prefix ++ EncodeBytes k ++ EncodeBytes (sha256 v)).
Hypothesis inner_spec : forall prefix suffix child,
  applyInner (mkInnerOp SHA256 prefix suffix) child = sha256 (prefix ++ child ++ suffix).
Hypothesis sha256_len : forall b, len (sha256 b) = 32.

Lemma Encode_hash h : len h = 32 -> EncodeBytes h = lengthByte :: h.
Proof. intros E. unfold EncodeBytes. by rewrite E. Qed.

(** One step recomputes the hash of the branch. *)
Lemma step_left h s v k l r : 0 <= h < 2 ^ 7 ->
  applyInner (convertInnerOp (mkInner (i8 h) s v None (Some (HashNode sha256 r)))) (HashNode sha256 l) =
  HashNode sha256 (Branch h s v k l r).
Proof.
  intros Hh. rewrite (HashNode_unfold _ (Branch _ _ _ _ _ _)). unfold convertInnerOp, writeHashBytes, hashPayload.
  cbn [pi_Left pi_Right pi_Height pi_Size pi_Version from_option id].
  change (0 <? len []) with false. cbv iota.
  rewrite inner_spec. cbn [fst snd]. rewrite !Encode_hash by by apply HashNode_len. rewrite i8_small by lia.
  f_equal. unfold convertVarIntToBytes. cbn [Height Size Version]. by rewrite <- !app_assoc.
Qed.

Lemma step_right h s v k l r : 0 <= h < 2 ^ 7 ->
  applyInner (convertInnerOp (mkInner (i8 h) s v (Some (HashNode sha256 l)) None)) (HashNode sha256 r) =
  HashNode sha256 (Branch h s v k l r).
Proof.
  intros Hh. rewrite (HashNode_unfold _ (Branch _ _ _ _ _ _)). unfold convertInnerOp, writeHashBytes, hashPayload.
  cbn [pi_Left pi_Height pi_Size pi_Version from_option id]. rewrite HashNode_len by done.
  change (0 <? 32) with true. cbv iota.
  rewrite inner_spec. cbn [fst snd]. rewrite !Encode_hash by by apply HashNode_len. rewrite i8_small by lia.
  f_equal. unfold convertVarIntToBytes. cbn [Height Size Version fst snd]. rewrite <- !app_assoc. simpl.
  by rewrite app_nil_r.
Qed.

Definition heights_ok (n : Node) : Prop := avl n /\ Height n < 2 ^ 7.

Lemma heights_branch h s v k l r : heights_ok (Branch h s v k l r) -> 0 <= h < 2 ^ 7 /\ heights_ok l /\ heights_ok r.
Proof.
  intros [A Hh]. pose proof (avl_height_nonneg _ A). destruct A as (Al & Ar & E & _).
  apply avl_height_nonneg in Al as ?, Ar as ?. simpl in *. unfold heights_ok. split_and!; try done; lia.
Qed.

(** The path ends in the leaf of the key, and folding the operations of the
    steps added below a node gives the hash of that node. *)
Lemma pathToLeaf_ok n key v : forall path,
  search_tree n -> heights_ok n -> (key, v) ∈ to_list n ->
  exists steps ver, pathToLeaf path n key = Ok (path ++ steps, Leaf ver key v) /\
    fold_left (fun child op => applyInner op child) (convertInnerOps steps)
      (HashNode sha256 (Leaf ver key v)) = HashNode sha256 n.
Proof.
  induction n as [ver k x|h s ver k l IHl r IHr]; intros path St Hh Hin.
  - apply list_elem_of_singleton in Hin as [= -> ->]. exists [], ver. simpl.
    rewrite decide_True, app_nil_r by done. done.
  - apply heights_branch in Hh as (Hh & Hl & Hr). destruct St as (Sl & Sr & B & A & Ek).
    simpl in Hin. cbn [pathToLeaf]. destruct (bytes_ltb key k) eqn:Elt.
    + apply bytes_ltb_lt in Elt. apply elem_of_app in Hin as [Hin|Hin].
      2:{ exfalso. unfold keys_above in A. rewrite Forall_forall in A. by apply (A _ Hin). }
      destruct (IHl (path ++ [mkInner (i8 h) s ver None (Some (HashNode sha256 r))]) Sl Hl Hin) as (st & v' & -> & E).
      eexists (_ :: st), v'. split; [by rewrite <- app_assoc|]. unfold convertInnerOps in *.
      rewrite reverse_cons, fmap_app, fold_left_app, E. by apply (step_left h s ver k l r).
    + apply bytes_ltb_nlt in Elt. apply elem_of_app in Hin as [Hin|Hin].
      { exfalso. unfold keys_below in B. rewrite Forall_forall in B. by apply B in Hin. }
      destruct (IHr (path ++ [mkInner (i8 h) s ver (Some (HashNode sha256 l)) None]) Sr Hr Hin) as (st & v' & -> & E).
      eexists (_ :: st), v'. split; [by rewrite <- app_assoc|]. unfold convertInnerOps in *.
      rewrite reverse_cons, fmap_app, fold_left_app, E. by apply (step_right h s ver k l r).
Qed.

Lemma pathToLeaf_absent n key : forall path,
  key ∉ (to_list n).*1 -> pathToLeaf path n key = Err "key does not exist".
Proof.
  induction n as [ver k x|h s ver k l IHl r IHr]; intros path Hn; simpl in *.
  - rewrite decide_False; [done|]. intros ->. apply Hn. by left.
  - rewrite fmap_app, not_elem_of_app in Hn. destruct Hn. destruct (bytes_ltb key k); auto.
Qed.

(** What a verifier accepts: the pair, and the root. *)
Definition proves (root : bytes) (p : ExistenceProof) (k : bytes) (v : slice) : Prop :=
  ep_Key p = k /\ ep_Value p = v /\ calculate p = root.

Lemma existence_ok n key v :
  wf n -> small n -> (key, v) ∈ to_list n ->
  exists p, createExistenceProof (Some n) key = Ok p /\ proves (HashNode sha256 n) p key v.
Proof.
  intros (A & _ & St) Hs Hin. pose proof (avl_height_bound n A Hs) as Hb.
  assert (heights_ok n) as Hh by (split; [done|lia]).
  destruct (pathToLeaf_ok n key v [] St Hh Hin) as (steps & ver & E & F).
  eexists. unfold createExistenceProof. rewrite E. cbn [res_bind]. split; [done|].
  split_and!; [done..|]. unfold calculate. cbn [ep_Path ep_Leaf ep_Key ep_Value Key Value Version app].
  rewrite <- F. f_equal. unfold convertLeafOp. rewrite leaf_spec, HashNode_unfold.
  unfold writeHashBytes, hashPayload. cbn [Height Size Version]. by rewrite <- !app_assoc.
Qed.

(** The neighbours of an absent key. *)
Definition left_of (key : bytes) (l : pairs) : option (bytes * slice) := last (filter (fun p => p.1 ≺ key) l).
Definition right_of (key : bytes) (l : pairs) : option (bytes * slice) := head (filter (fun p => ~ p.1 ≺ key) l).

Lemma rank_split l key : keys_sorted l ->
  filter (fun p => p.1 ≺ key) l = take (Z.to_nat (assoc_rank key l)) l /\
  filter (fun p => ~ p.1 ≺ key) l = drop (Z.to_nat (assoc_rank key l)) l.
Proof.
  induction l as [|[k v] l IH]; intros Srt; [done|]. apply keys_sorted_cons in Srt as [Srt Ha].
  destruct (IH Srt) as [E1 E2]. pose proof (assoc_rank_bounds key l). cbn [assoc_rank].
  destruct (bytes_ltb k key) eqn:Elt.
  - apply bytes_ltb_lt in Elt. rewrite filter_cons_True, filter_cons_False by (simpl; auto).
    replace (Z.to_nat (1 + assoc_rank key l)) with (S (Z.to_nat (assoc_rank key l))) by lia. simpl. by rewrite E1, E2.
  - apply bytes_ltb_nlt in Elt. rewrite filter_cons_False, filter_cons_True by (simpl; auto).
    assert (assoc_rank key l = 0) as E0.
    { apply assoc_rank_none. intros q Hq. specialize (Ha q Hq). simpl in Ha.
      destruct (bytes_lt_total q.1 key) as [Hlt|[Heq|?]]; [| |done]; exfalso; apply Elt;
        [by transitivity q.1|by rewrite <- Heq]. }
    rewrite E0 in *. simpl. rewrite E1, E2. simpl. by rewrite drop_0.
Qed.

Lemma neighbours_at l key : keys_sorted l ->
  left_of key l = (if 1 <=? assoc_rank key l then l !! Z.to_nat (assoc_rank key l - 1) else None) /\
  right_of key l = l !! Z.to_nat (assoc_rank key l).
Proof.
  intros S. unfold left_of, right_of. destruct (rank_split l key S) as [-> ->].
  pose proof (assoc_rank_bounds key l). split.
  - rewrite last_lookup, length_take. destruct (Z.leb_spec 1 (assoc_rank key l)).
    + rewrite lookup_take_lt by (unfold len in *; lia). f_equal. unfold len in *. lia.
    + replace (Z.to_nat (assoc_rank key l)) with 0%nat by lia. done.
  - by rewrite head_lookup, lookup_drop, Nat.add_0_r.
Qed.

Lemma valueByIndex_ok n i : wf n -> len (to_list n) < 2 ^ 32 -> 0 <= i ->
  valueByIndex n i = to_list n !! Z.to_nat i.
Proof.
  intros (_ & Sz & _) Hs Hi. unfold valueByIndex, MaxUint32. destruct (Z.ltb_spec (2 ^ 32 - 1) i).
  - symmetry. apply lookup_ge_None. unfold len in *. lia.
  - rewrite u32_small by lia. apply GetByIndex_ok; [done|done|lia].
Qed.

Definition proves_opt (root : bytes) (p : option ExistenceProof) (q : option (bytes * slice)) : Prop :=
  match p, q with
  | Some p, Some (k, v) => proves root p k v
  | None, None => True
  | _, _ => False
  end.

Lemma nonexistence_ok n key :
  wf n -> len (to_list n) < 2 ^ 32 -> assoc_get key (to_list n) = None ->
  exists pl pr, GetNonMembershipProof (Some n) key = Ok (Nonexist (mkNonExist key pl pr)) /\
    proves_opt (HashNode sha256 n) pl (left_of key (to_list n)) /\
    proves_opt (HashNode sha256 n) pr (right_of key (to_list n)).
Proof.
  intros W Hs Ha. pose proof W as (_ & _ & St). pose proof (search_tree_sorted n St) as Srt.
  assert (small n) as Sm by (unfold small, max_leaves; lia).
  destruct (neighbours_at (to_list n) key Srt) as [El Er]. pose proof (assoc_rank_bounds key (to_list n)) as Hb.
  unfold GetNonMembershipProof. rewrite Get_ok, Ha by done.
  assert (exists pl, (if 1 <=? assoc_rank key (to_list n)
      then let* p := createExistenceProof (Some n) (from_option fst [] (valueByIndex n (assoc_rank key (to_list n) - 1))) in Ok (Some p)
      else Ok None) = Ok pl /\ proves_opt (HashNode sha256 n) pl (left_of key (to_list n))) as (pl & -> & Pl).
  { rewrite El. destruct (Z.leb_spec 1 (assoc_rank key (to_list n))); [|by exists None].
    rewrite valueByIndex_ok by (done || lia).
    destruct (to_list n !! _) as [[k v]|] eqn:Ek; [|apply lookup_ge_None in Ek; unfold len in *; lia].
    destruct (existence_ok n k v W Sm) as (p & E & P); [by eapply list_elem_of_lookup_2|].
    cbn [from_option fst]. rewrite E. by exists (Some p). }
  cbn [res_bind]. rewrite valueByIndex_ok, Er by (done || lia).
  destruct (to_list n !! Z.to_nat (assoc_rank key (to_list n))) as [[k v]|] eqn:Ek; [|by exists pl, None].
  destruct (existence_ok n k v W Sm) as (p & E & P); [by eapply list_elem_of_lookup_2|].
  rewrite E. exists pl, (Some p). by split_and!.
Qed.
End Proofs.

(** The documented leaf and inner hashing of [ics23], for evaluation. *)
Definition sample_leaf (op : LeafOp) (k v : bytes) : bytes :=
  digest32 (lo_Prefix op ++ EncodeBytes k ++ EncodeBytes (digest32 v)).
Definition sample_inner (op : InnerOp) (child : bytes) : bytes :=
  digest32 (io_Prefix op ++ child ++ io_Suffix op).

(** ** Properties *)

(** C31: [GetMembershipProof] succeeds exactly for the stored keys; the proof
    carries the key and its value, and folding its inner operations over the
    leaf hash, as an ICS23 verifier does, gives the root hash of the tree. *)
Theorem membership_proof_verifies (sha256 : bytes -> bytes)
  (applyLeaf : LeafOp -> bytes -> bytes -> bytes) (applyInner : InnerOp -> bytes -> bytes)
  (leaf_spec : forall prefix k v, applyLeaf (mkLeafOp SHA256 SHA256 VAR_PROTO prefix) k v =
     sha256 (prefix ++ EncodeBytes k ++ EncodeBytes (sha256 v)))
  (inner_spec : forall prefix suffix child,
     applyInner (mkInnerOp SHA256 prefix suffix) child = sha256 (prefix ++ child ++ suffix))
  (sha256_len : forall b, len (sha256 b) = 32)
  (n : Node) (key : bytes) (W : wf n) (Sm : small n) :
  (forall v, (key, v) ∈ to_list n ->
     exists p, GetMembershipProof sha256 (Some n) key = Ok (Exist p) /\
       proves applyLeaf applyInner (HashNode sha256 n) p key v) /\
  (key ∉ (to_list n).*1 -> GetMembershipProof sha256 (Some n) key = Err "key does not exist") /\
  GetMembershipProof sha256 None key = Err "key does not exist".
Proof.
  split_and!; [| |done].
  - intros v Hin. destruct (existence_ok sha256 applyLeaf applyInner leaf_spec inner_spec sha256_len n key v W Sm Hin)
      as (p & E & P). exists p. unfold GetMembershipProof. by rewrite E.
  - intros Hn. unfold GetMembershipProof, createExistenceProof. by rewrite pathToLeaf_absent.
Qed.

Definition two_pairs : Node :=
  Branch 1 2 2 [z2b 4] (Leaf 1 [z2b 2] (Some [z2b 10])) (Leaf 2 [z2b 4] (Some [z2b 20])).

Lemma two_pairs_wf : wf two_pairs.
Proof. apply wf_branch. split_and!; try done. split; try done; repeat constructor; by intros ?. Qed.

Lemma membership_proof_verifies_witness :
  exists p, GetMembershipProof digest32 (Some two_pairs) [z2b 4] = Ok (Exist p) /\
    proves sample_leaf sample_inner (HashNode digest32 two_pairs) p [z2b 4] (Some [z2b 20]).
Proof.
  apply (proj1 (membership_proof_verifies digest32 sample_leaf sample_inner (fun _ _ _ => eq_refl)
    (fun _ _ _ => eq_refl) digest32_len two_pairs [z2b 4] two_pairs_wf ltac:(by vm_compute))).
  right. left.
Defined.

(** [GetNonMembershipProof] of an absent key returns the membership proofs of
    its two neighbours, the greatest stored key below and the least one above
    (absent at the ends), both of which recompute the root hash; a stored key
    and the empty tree are refused. *)
Theorem nonmembership_proof_neighbours (sha256 : bytes -> bytes)
  (applyLeaf : LeafOp -> bytes -> bytes -> bytes) (applyInner : InnerOp -> bytes -> bytes)
  (leaf_spec : forall prefix k v, applyLeaf (mkLeafOp SHA256 SHA256 VAR_PROTO prefix) k v =
     sha256 (prefix ++ EncodeBytes k ++ EncodeBytes (sha256 v)))
  (inner_spec : forall prefix suffix child,
     applyInner (mkInnerOp SHA256 prefix suffix) child = sha256 (prefix ++ child ++ suffix))
  (sha256_len : forall b, len (sha256 b) = 32)
  (n : Node) (key : bytes) (W : wf n) (Hs : len (to_list n) < 2 ^ 32) :
  (assoc_get key (to_list n) = None ->
     exists pl pr, GetNonMembershipProof sha256 (Some n) key = Ok (Nonexist (mkNonExist key pl pr)) /\
       proves_opt applyLeaf applyInner (HashNode sha256 n) pl (left_of key (to_list n)) /\
       proves_opt applyLeaf applyInner (HashNode sha256 n) pr (right_of key (to_list n))) /\
  (is_Some (assoc_get key (to_list n)) -> exists e, GetNonMembershipProof sha256 (Some n) key = Err e) /\
  (exists e, GetNonMembershipProof sha256 None key = Err e).
Proof.
  split_and!; [by apply nonexistence_ok| |by eexists].
  intros [v E]. unfold GetNonMembershipProof. rewrite Get_ok, E by done. by eexists.
Qed.

Lemma nonmembership_proof_neighbours_witness :
  exists pl pr, GetNonMembershipProof digest32 (Some two_pairs) [z2b 3] = Ok (Nonexist (mkNonExist [z2b 3] pl pr)) /\
    proves_opt sample_leaf sample_inner (HashNode digest32 two_pairs) pl (Some ([z2b 2], Some [z2b 10])) /\
    proves_opt sample_leaf sample_inner (HashNode digest32 two_pairs) pr (Some ([z2b 4], Some [z2b 20])).
Proof.
  apply (nonmembership_proof_neighbours digest32 sample_leaf sample_inner (fun _ _ _ => eq_refl)
    (fun _ _ _ => eq_refl) digest32_len two_pairs [z2b 3] two_pairs_wf ltac:(by vm_compute)).
  reflexivity.
Defined.
