(* ===== verification/Wal.v ===== *)
(** The write-ahead log files: [memiavl/wal.go].

    The log itself ([tidwall/wal]) is not part of the repository.  What is
    modelled is the code that reads its files directly: splitting a segment
    into entries, cutting a torn tail, choosing the segments of a directory
    and the read-only log over them, whose cached segment is part of its
    state.  Files are given by a function from names to contents.

    Theorems: a segment splits into exactly the entries written, with a torn
    tail reported or cut off; the read-only log answers every index with the
    entry at that position, whatever was read before. *)
From stdpp Require Import prelude strings.
From Stdlib Require Import ZArith Lia.
From S2P Require Import Prelude Codec Persisted.
Local Open Scope Z_scope.

Definition ErrCorrupt : string := "log corrupt".
Definition ErrClosed : string := "log closed".
Definition ErrNotFound : string := "not found".
Definition ErrNotExist : string := "file does not exist".

(** ** Entries of a segment *)

(** The entry's total length and the length of its size prefix. *)
Definition loadNextBinaryEntry (data : bytes) : res (Z * Z) :=
  let (size, header) := Uvarint data in
  if header <=? 0 then Err ErrCorrupt
  else if u64 (len data - header) <? size then Err ErrCorrupt
  else Ok (header + i64 size, header).

(** [bytes.IndexByte]. *)
Fixpoint IndexByte (data : bytes) (c : byte) : option nat :=
  match data with
  | [] => None
  | b :: data => if decide (b = c) then Some 0%nat else S <$> IndexByte data c
  end.

Section Format.
(** [gjson.Get(line, "data").Type == gjson.String]. *)
Context (dataIsString : bytes -> bool).

Definition loadNextJSONEntry (data : bytes) : res Z :=
  match IndexByte data (z2b 10) with
  | None => Err ErrCorrupt
  | Some idx =>
      if dataIsString (take idx data) then Ok (Z.of_nat idx + 1) else Err ErrCorrupt
  end.

Inductive LogFormat : Type := Binary | JSON.

(** The bytes that form complete entries; every entry has at least one byte. *)
Fixpoint complete_prefix (fuel : nat) (format : LogFormat) (data : bytes) (pos : Z) : Z :=
  match fuel with
  | O => pos
  | S fuel =>
      if len data =? 0 then pos
      else
        let r := match format with
                 | JSON => loadNextJSONEntry data
                 | Binary => let* (n, _) := loadNextBinaryEntry data in Ok n
                 end in
        match r with
        | Ok n => complete_prefix fuel format (drop (Z.to_nat n) data) (pos + n)
        | _ => pos
        end
  end.

(** The contents of the file afterwards. *)
Definition truncateCorruptedTail (format : LogFormat) (data : bytes) : bytes :=
  let pos := complete_prefix (length data) format data 0 in
  if pos <? len data then take (Z.to_nat pos) data else data.
End Format.

Fixpoint split_entries (fuel : nat) (data : bytes) (entries : list bytes) : list bytes * bool :=
  match fuel with
  | O => (entries, false)
  | S fuel =>
      if len data =? 0 then (entries, false)
      else
        match loadNextBinaryEntry data with
        | Ok (n, header) =>
            split_entries fuel (drop (Z.to_nat n) data)
              (entries ++ [take (Z.to_nat (n - header)) (drop (Z.to_nat header) data)])
        | _ => (entries, true)
        end
  end.

(** The loop of [readWALEntries] over the contents of the file. *)
Definition readEntries (data : bytes) : list bytes * bool := split_entries (length data) data [].

(** ** Segments of a directory *)

Definition str (s : string) : bytes := String.list_byte_of_string s.
Definition walStartSuffix : bytes := str ".START".
Definition walEndSuffix : bytes := str ".END".

Definition is_digit (b : byte) : bool := (48 <=? b2z b) && (b2z b <=? 57).

(** [strconv.ParseUint(s, 10, 64)]. *)
Definition ParseUint (s : bytes) : option Z :=
  if (0 <? len s) && forallb is_digit s then
    let v := fold_left (fun a b => a * 10 + (b2z b - 48)) s 0 in
    if v <? 2 ^ 64 then Some v else None
  else None.

Record walSegment : Type := mkSegment {
  seg_index : Z;
  seg_path : bytes;
  seg_entries : list bytes;
}.

Record DirEntry : Type := mkDirEntry { de_name : bytes; de_isDir : bool }.

Record listing : Type := mkListing { ls_segments : list walSegment; ls_start : bool; ls_end : bool }.

(** One directory entry, in the order of the names. *)
Definition list_step (s : listing) (e : DirEntry) : listing :=
  let name := de_name e in
  if de_isDir e || (len name <? 20) then s
  else
    match ParseUint (take 20 name) with
    | None => s
    | Some index =>
        if index =? 0 then s
        else
          let seg := mkSegment index name [] in
          let suffix := drop 20 name in
          if decide (suffix = []) then
            if ls_end s then s else mkListing (ls_segments s ++ [seg]) (ls_start s) (ls_end s)
          else if decide (suffix = walStartSuffix) then mkListing [seg] true (ls_end s)
          else if decide (suffix = walEndSuffix) then
            if ls_end s then s
            else
              let segs := match last (ls_segments s) with
                          | Some l => if seg_index l =? index
                                      then take (length (ls_segments s) - 1) (ls_segments s)
                                      else ls_segments s
                          | None => ls_segments s
                          end in
              mkListing (segs ++ [seg]) (ls_start s) true
          else s
    end.

(** [None] stands for a directory that does not exist. *)
Definition listWALSegments (dir : option (list DirEntry)) : res (list walSegment) :=
  match dir with
  | None => Ok []
  | Some es =>
      let s := fold_left list_step es (mkListing [] false false) in
      if ls_start s && ls_end s then Err ErrCorrupt else Ok (ls_segments s)
  end.

(** ** The read-only log *)

Definition Disk : Type := bytes -> option bytes.

Definition has_suffix (suffix s : bytes) : bool :=
  bool_decide (drop (length s - length suffix) s = suffix) && (Nat.leb (length suffix) (length s)).

Definition readWALEntries (fs : Disk) (path : bytes) : res (list bytes * bool) :=
  let data := match fs path with
              | Some d => Some d
              | None => if has_suffix walStartSuffix path
                        then fs (take (length path - length walStartSuffix) path) else None
              end in
  match data with
  | None => Err ErrNotExist
  | Some d => Ok (readEntries d)
  end.

(** [cached] is a position in [segments]. *)
Record readOnlyWAL : Type := mkWAL {
  segments : list walSegment;
  firstIndex : Z;
  lastIndex : Z;
  closed : bool;
  cached : option nat;
}.

Definition set_entries (i : nat) (es : list bytes) (l : list walSegment) : list walSegment :=
  alter (fun s => mkSegment (seg_index s) (seg_path s) es) i l.

Definition tryOpenReadOnlyWAL (fs : Disk) (dir : option (list DirEntry)) : res readOnlyWAL :=
  let* segs := listWALSegments dir in
  match segs, last segs with
  | s0 :: _, Some tail =>
      let* (entries, _) := readWALEntries fs (seg_path tail) in
      Ok (mkWAL (set_entries (length segs - 1) entries segs) (seg_index s0)
            (u64 (u64 (seg_index tail + len entries) - 1)) false None)
  | _, _ => Ok (mkWAL [] 0 0 false None)
  end.

(** The directory and the files may differ between the attempts. *)
Fixpoint open_attempts (n : nat) (views : nat -> Disk * option (list DirEntry)) (i : nat) : res readOnlyWAL :=
  match n with
  | O => Err ErrNotExist
  | S n =>
      let (fs, dir) := views i in
      match tryOpenReadOnlyWAL fs dir with
      | Err e => if decide (e = ErrNotExist) then open_attempts n views (S i) else Err e
      | r => r
      end
  end.
Definition openReadOnlyWAL (views : nat -> Disk * option (list DirEntry)) : res readOnlyWAL :=
  open_attempts 3 views 0.

Definition FirstIndex (l : readOnlyWAL) : res Z :=
  if closed l then Err ErrClosed else if lastIndex l =? 0 then Ok 0 else Ok (firstIndex l).
Definition LastIndex (l : readOnlyWAL) : res Z :=
  if closed l then Err ErrClosed else Ok (lastIndex l).
Definition Close (l : readOnlyWAL) : res readOnlyWAL :=
  if closed l then Err ErrClosed
  else Ok (mkWAL (segments l) (firstIndex l) (lastIndex l) true (cached l)).

(** The position of the segment that holds an index. *)
Definition find_segment (l : readOnlyWAL) (index : Z) : option Z :=
  let? i := sort_Search (len (segments l)) (fun i =>
    let? s := segments l !! Z.to_nat i in Some (index <? seg_index s)) in
  Some (i - 1).

(** The entry, from the entries of a segment that were loaded. *)
Definition entry_at (s : walSegment) (index : Z) : res bytes :=
  let offset := u64 (index - seg_index s) in
  if len (seg_entries s) <=? offset then Err ErrCorrupt
  else of_option "index out of range" (seg_entries s !! Z.to_nat offset).

(** [Read] returns the log as well, since it may load and evict segments. *)
Definition Read (fs : Disk) (l : readOnlyWAL) (index : Z) : res bytes * readOnlyWAL :=
  if closed l then (Err ErrClosed, l)
  else if (index =? 0) || (index <? firstIndex l) || (lastIndex l <? index) then (Err ErrNotFound, l)
  else
    match find_segment l index with
    | None => (Panic "index out of range", l)
    | Some p =>
        let i := Z.to_nat p in
        match (if p <? 0 then None else segments l !! i) with
        | None => (Panic "index out of range", l)
        | Some seg =>
            match seg_entries seg with
            | _ :: _ => (entry_at seg index, l)
            | [] =>
                match readWALEntries fs (seg_path seg) with
                | Ok (entries, torn) =>
                    if torn then (Err ErrCorrupt, l)
                    else
                      let segs := match cached l with
                                  | Some c => set_entries c [] (segments l)
                                  | None => segments l
                                  end in
                      let l := mkWAL (set_entries i entries segs) (firstIndex l) (lastIndex l) (closed l) (Some i) in
                      (entry_at (mkSegment (seg_index seg) (seg_path seg) entries) index, l)
                | Err e => (Err e, l)
                | Panic m => (Panic m, l)
                end
            end
        end
    end.

(** ** Entries: lemmas *)

(** A decoded integer is determined by its own bytes. *)
Lemma uvarint_loop_local buf : forall i s x y rest, 0 <= x ->
  uvarint_loop i s x buf = UvDone y rest ->
  0 <= y /\ exists a, buf = a ++ rest /\ a <> [] /\ forall r, uvarint_loop i s x (a ++ r) = UvDone y r.
Proof.
  assert (forall x z, 0 <= x -> 0 <= Z.lor x (u64 z)) as Hlor.
  { intros x z Hx. apply Z.lor_nonneg. split; [done|]. unfold u64. apply Z.mod_pos_bound. lia. }
  induction buf as [|b buf IH]; intros i s x y rest Hx; [done|]. cbn [uvarint_loop].
  destruct (decide (i = _)) eqn:Ei; [done|]. destruct (_ <? 128) eqn:Eb.
  - destruct (decide (_ /\ _)) eqn:Eo; [done|]. intros [= <- <-]. split; [by apply Hlor|].
    exists [b]. split_and!; try done. intros r. cbn [app uvarint_loop]. by rewrite Ei, Eb, Eo.
  - intros E. destruct (IH _ _ _ _ _ (Hlor _ _ Hx) E) as (Hy & a & -> & _ & H). split; [done|].
    exists (b :: a). split_and!; try done. intros r. cbn [app uvarint_loop]. by rewrite Ei, Eb, H.
Qed.

Lemma uvarint_loop_overflow buf r : forall i s x k,
  uvarint_loop i s x buf = UvOverflow k -> uvarint_loop i s x (buf ++ r) = UvOverflow k.
Proof.
  induction buf as [|b buf IH]; intros i s x k; [done|]. cbn [app uvarint_loop].
  destruct (decide (i = _)); [done|]. destruct (_ <? 128).
  - by destruct (decide (_ /\ _)).
  - apply IH.
Qed.

(** An entry: its size prefix [a] decodes to [len e], whatever follows. *)
Definition entry_bytes (a e : bytes) : Prop :=
  a <> [] /\ forall r, uvarint (a ++ r) = UvDone (len e) r.

Lemma entry_load a e r : entry_bytes a e -> len (a ++ e ++ r) < 2 ^ 63 ->
  loadNextBinaryEntry (a ++ e ++ r) = Ok (len a + len e, len a).
Proof.
  intros [Ha H] Hl. unfold loadNextBinaryEntry, Uvarint. rewrite H, !len_app in *.
  assert (1 <= len a) by (destruct a; [done|rewrite len_cons; llia]).
  pose proof (len_nonneg e). pose proof (len_nonneg r).
  replace (len a + (len e + len r) - (len e + len r)) with (len a) by lia.
  destruct (Z.leb_spec (len a) 0); [lia|]. rewrite u64_small, i64_small by lia.
  destruct (Z.ltb_spec (len a + (len e + len r) - len a) (len e)); [lia|done].
Qed.

Lemma load_entry data n h : len data < 2 ^ 63 -> loadNextBinaryEntry data = Ok (n, h) ->
  exists a e r, data = a ++ e ++ r /\ entry_bytes a e /\ n = len a + len e /\ h = len a.
Proof.
  intros Hl. unfold loadNextBinaryEntry, Uvarint. destruct (uvarint data) as [y rest|k|k] eqn:E; [|done|].
  2:{ destruct (Z.leb_spec (- (Z.of_nat k + 1)) 0); [done|lia]. }
  apply uvarint_loop_local in E as (Hy & a & -> & Ha & H); [|done].
  rewrite len_app in *. pose proof (len_nonneg rest). pose proof (len_nonneg a).
  replace (len a + len rest - len rest) with (len a) by lia.
  destruct (Z.leb_spec (len a) 0); [done|]. rewrite u64_small by lia.
  destruct (Z.ltb_spec (len a + len rest - len a) y) as [|Hy']; [done|].
  intros En. apply Ok_inj in En. injection En as <- <-. rewrite i64_small by lia.
  exists a, (take (Z.to_nat y) rest), (drop (Z.to_nat y) rest). rewrite take_drop.
  assert (len (take (Z.to_nat y) rest) = y) as El by (unfold len in *; rewrite length_take; lia).
  split_and!; [done| |by rewrite El|done]. split; [done|]. intros r. rewrite El. apply H.
Qed.

Lemma Encode_entry e : len e < 2 ^ 64 -> entry_bytes (PutUvarint (len e)) e.
Proof.
  intros He. split; [apply PutUvarint_nonempty|]. intros r. apply uvarint_Put. split; [apply len_nonneg|done].
Qed.

(** A proper beginning of an entry. *)
Definition torn (p : bytes) : Prop :=
  exists e c, EncodeBytes e = p ++ c /\ c <> [] /\ len (EncodeBytes e) < 2 ^ 63.

Lemma torn_load p : torn p -> loadNextBinaryEntry p = Err ErrCorrupt.
Proof.
  intros (e & c & E & Hc & Hl). assert (1 <= len c) as Hc1 by (destruct c; [done|rewrite len_cons; llia]).
  destruct (loadNextBinaryEntry p) as [[n h]|s|s] eqn:El.
  - apply load_entry in El as (a & e' & r & -> & [Ha H] & _); [|rewrite E in Hl; rewrite len_app in Hl; llia].
    exfalso. unfold EncodeBytes in *. apply (f_equal uvarint) in E as Eu.
    rewrite uvarint_Put in Eu by (rewrite len_app in Hl; llia). rewrite <- !app_assoc, H in Eu.
    injection Eu as E1 E2. rewrite E2 in E1. rewrite !len_app in E1. len_facts. lia.
  - unfold loadNextBinaryEntry in El. destruct (Uvarint p) as [? hd]. destruct (hd <=? 0); [congruence|].
    by destruct (_ <? _); simplify_eq.
  - unfold loadNextBinaryEntry in El. destruct (Uvarint p) as [? hd]. destruct (hd <=? 0); [done|].
    by destruct (_ <? _).
Qed.

(** Entries with their size prefixes, and what follows them. *)
Fixpoint layout (l : list (bytes * bytes)) (rest : bytes) : bytes :=
  match l with
  | [] => rest
  | (a, e) :: l => a ++ e ++ layout l rest
  end.

Definition stops (rest : bytes) : Prop :=
  rest = [] \/ exists e, loadNextBinaryEntry rest = Err e.

Lemma loadNext_no_panic data m : loadNextBinaryEntry data <> Panic m.
Proof.
  unfold loadNextBinaryEntry. destruct (Uvarint data) as [x h]. destruct (h <=? 0); [done|]. by destruct (_ <? x).
Qed.

(** Every file is a sequence of entries and a rest that has none. *)
Lemma layout_exists fuel : forall data, (length data <= fuel)%nat -> len data < 2 ^ 63 ->
  exists l rest, data = layout l rest /\ Forall (fun p => entry_bytes p.1 p.2) l /\ stops rest.
Proof.
  induction fuel as [|fuel IH]; intros data Hf Hl.
  - destruct data; [|simpl in Hf; lia]. exists [], []. split_and!; [done|constructor|by left].
  - destruct (loadNextBinaryEntry data) as [[n h]|e|m] eqn:E.
    + apply load_entry in E as (a & e & r & -> & [Ha H] & _); [|done].
      rewrite !len_app in Hl. rewrite !length_app in Hf. len_facts.
      destruct (IH r) as (l & rest & -> & Hl' & Hs); [destruct a; [done|simpl in *; lia]|lia|].
      exists ((a, e) :: l), rest. split_and!; [done|by constructor|done].
    + exists [], data. split_and!; [done|constructor|]. right. by exists e.
    + by apply loadNext_no_panic in E.
Qed.

Lemma split_layout l rest : Forall (fun p => entry_bytes p.1 p.2) l -> stops rest ->
  len (layout l rest) < 2 ^ 63 -> forall fuel acc, (length (layout l rest) <= fuel)%nat ->
  split_entries fuel (layout l rest) acc = (acc ++ l.*2, bool_decide (rest <> [])).
Proof.
  induction 1 as [|[a e] l He _ IH]; intros Hs Hl fuel acc Hf.
  - simpl in *. rewrite app_nil_r. destruct Hs as [->|[e E]].
    + by destruct fuel.
    + destruct fuel as [|fuel]; [destruct rest; [done|simpl in Hf; lia]|]. cbn [split_entries].
      destruct rest as [|b rest]; [done|]. rewrite len_cons. pose proof (len_nonneg rest).
      destruct (Z.eqb_spec (1 + len rest) 0); [lia|]. by rewrite E.
  - cbn [layout] in *. pose proof He as [Ha _]. cbn [fst] in Ha.
    rewrite !length_app in Hf. assert (1 <= length a)%nat by (destruct a; [done|simpl; lia]).
    destruct fuel as [|fuel]; [lia|]. cbn [split_entries].
    destruct (Z.eqb_spec (len (a ++ e ++ layout l rest)) 0) as [E0|_].
    { rewrite len_app in E0. unfold len in *. lia. }
    rewrite (entry_load a e _ He Hl). cbn [fst snd].
    replace (Z.to_nat (len a + len e)) with (length (a ++ e)) by (rewrite length_app; unfold len; lia).
    replace (Z.to_nat (len a + len e - len a)) with (length e) by (unfold len; lia).
    replace (Z.to_nat (len a)) with (length a) by (unfold len; lia).
    rewrite app_assoc, drop_app_length, <- app_assoc, drop_app_length, take_app_length.
    rewrite !len_app in Hl. len_facts. rewrite (IH Hs) by (lia || (rewrite ?length_app in *; lia)).
    by rewrite <- app_assoc.
Qed.

Lemma readEntries_layout l rest : Forall (fun p => entry_bytes p.1 p.2) l -> stops rest ->
  len (layout l rest) < 2 ^ 63 -> readEntries (layout l rest) = (l.*2, bool_decide (rest <> [])).
Proof. intros Hl Hs Hb. unfold readEntries. by rewrite split_layout. Qed.

Lemma layout_app l rest : layout l rest = layout l [] ++ rest.
Proof.
  induction l as [|[a e] l IH]; simpl; [done|]. by rewrite IH, <- !app_assoc.
Qed.

Lemma prefix_layout js l rest : Forall (fun p => entry_bytes p.1 p.2) l -> stops rest ->
  len (layout l rest) < 2 ^ 63 -> forall fuel pos, (length (layout l rest) <= fuel)%nat ->
  complete_prefix js fuel Binary (layout l rest) pos = pos + len (layout l []).
Proof.
  induction 1 as [|[a e] l He _ IH]; intros Hs Hl fuel pos Hf.
  - simpl in *. rewrite len_nil, Z.add_0_r. destruct Hs as [->|[e E]].
    + by destruct fuel.
    + destruct fuel as [|fuel]; [done|]. cbn [complete_prefix]. destruct (_ =? 0); [done|]. by rewrite E.
  - cbn [layout] in *. pose proof He as [Ha _]. cbn [fst] in Ha.
    rewrite !length_app in Hf. assert (1 <= length a)%nat by (destruct a; [done|simpl; lia]).
    destruct fuel as [|fuel]; [lia|]. cbn [complete_prefix].
    destruct (Z.eqb_spec (len (a ++ e ++ layout l rest)) 0) as [E0|_].
    { rewrite len_app in E0. unfold len in *. lia. }
    rewrite (entry_load a e _ He Hl). cbn [fst snd res_bind].
    replace (Z.to_nat (len a + len e)) with (length (a ++ e)) by (rewrite length_app; unfold len; lia).
    rewrite app_assoc, drop_app_length.
    rewrite !len_app in *. len_facts. rewrite (IH Hs) by lia. lia.
Qed.

Lemma truncate_layout js l rest : Forall (fun p => entry_bytes p.1 p.2) l -> stops rest ->
  len (layout l rest) < 2 ^ 63 -> truncateCorruptedTail js Binary (layout l rest) = layout l [].
Proof.
  intros Hl Hs Hb. unfold truncateCorruptedTail. rewrite prefix_layout by done. rewrite Z.add_0_l, (layout_app l rest).
  replace (Z.to_nat (len (layout l []))) with (length (layout l [])) by (unfold len; lia).
  rewrite take_app_length, len_app. destruct (Z.ltb_spec (len (layout l [])) (len (layout l []) + len rest)); [done|].
  destruct rest; [by rewrite app_nil_r|rewrite len_cons in *; len_facts; lia].
Qed.

(** ** The read-only log: lemmas *)

(** The index of the first entry of segment [i]. *)
Definition start_of (first : Z) (ess : list (list bytes)) (i : nat) : Z := first + len (concat (take i ess)).

Lemma start_of_S first ess i es : ess !! i = Some es -> start_of first ess (S i) = start_of first ess i + len es.
Proof.
  intros Hi. unfold start_of. rewrite (take_S_r _ _ _ Hi), concat_app, len_app. simpl. rewrite app_nil_r. lia.
Qed.

Lemma start_of_mono first ess i j : (i <= j)%nat -> start_of first ess i <= start_of first ess j.
Proof.
  intros H. unfold start_of. replace j with (i + (j - i))%nat by lia.
  rewrite <- take_take_drop, concat_app, len_app. len_facts. lia.
Qed.

(** The segment of a position, and the entry there. *)
Lemma locate (ess : list (list bytes)) : forall o, (o < length (concat ess))%nat ->
  exists i es, ess !! i = Some es /\ (length (concat (take i ess)) <= o < length (concat (take i ess)) + length es)%nat /\
    concat ess !! o = es !! (o - length (concat (take i ess)))%nat.
Proof.
  induction ess as [|es ess IH]; intros o Ho; [simpl in Ho; lia|]. simpl in Ho. rewrite length_app in Ho.
  destruct (decide (o < length es)%nat) as [Hlt|Hge].
  - exists 0%nat, es. simpl. split_and!; [done|lia|lia|]. rewrite Nat.sub_0_r. by apply lookup_app_l.
  - destruct (IH (o - length es)%nat ltac:(lia)) as (i & es' & Hi & Hr & He). exists (S i), es'. simpl.
    rewrite length_app. split_and!; [done|lia|lia|]. rewrite lookup_app_r by lia. rewrite He. f_equal. lia.
Qed.

(** The log over the segments [ess]: a segment other than the last one is
    loaded or not, and its file holds its entries; the last one is loaded. *)
Record log_ok (fs : Disk) (l : readOnlyWAL) (ess : list (list bytes)) : Prop := {
  lo_count : length (segments l) = length ess;
  lo_segment : forall i s es, segments l !! i = Some s -> ess !! i = Some es ->
    seg_index s = start_of (firstIndex l) ess i /\
    (seg_entries s = es \/
     seg_entries s = [] /\ (i < length ess - 1)%nat /\ readWALEntries fs (seg_path s) = Ok (es, false)) /\
    ((i < length ess - 1)%nat -> readWALEntries fs (seg_path s) = Ok (es, false));
  lo_first : 1 <= firstIndex l;
  lo_last : lastIndex l = firstIndex l + len (concat ess) - 1;
  lo_bound : firstIndex l + len (concat ess) < 2 ^ 63;
  lo_open : closed l = false;
  lo_cached : forall c, cached l = Some c -> (c < length ess - 1)%nat;
}.

Lemma find_segment_ok fs l ess i es index :
  log_ok fs l ess -> ess !! i = Some es ->
  start_of (firstIndex l) ess i <= index < start_of (firstIndex l) ess i + len es ->
  find_segment l index = Some (Z.of_nat i).
Proof.
  intros O Hi Hr. unfold find_segment. apply lookup_lt_Some in Hi as Hlt. destruct O as [Hc Hs _ _ _ _ _].
  assert (forall j, (j < length ess)%nat -> exists s, segments l !! j = Some s /\
    seg_index s = start_of (firstIndex l) ess j) as Hget.
  { intros j Hj. destruct (lookup_lt_is_Some_2 (segments l) j) as [s Es]; [lia|].
    destruct (lookup_lt_is_Some_2 ess j Hj) as [e Ee]. exists s. split; [done|]. by eapply Hs. }
  rewrite (sort_Search_ok _ _ (Z.of_nat (S i))).
  - cbn [mbind option_bind]. f_equal. lia.
  - unfold len. lia.
  - intros x Hx. destruct (Hget (Z.to_nat x)) as (s & E1 & E2); [lia|]. rewrite E1. cbn [mbind option_bind]. f_equal. rewrite E2.
    pose proof (start_of_mono (firstIndex l) ess (Z.to_nat x) i ltac:(lia)).
    destruct (Z.ltb_spec index (start_of (firstIndex l) ess (Z.to_nat x))); [lia|done].
  - unfold len. intros x Hx. destruct (Hget (Z.to_nat x)) as (s & E1 & E2); [lia|]. rewrite E1. cbn [mbind option_bind]. f_equal. rewrite E2.
    pose proof (start_of_mono (firstIndex l) ess (S i) (Z.to_nat x) ltac:(lia)).
    rewrite (start_of_S _ _ _ _ Hi) in *.
    destruct (Z.ltb_spec index (start_of (firstIndex l) ess (Z.to_nat x))); [done|lia].
Qed.

Lemma set_entries_lookup i es l j s :
  set_entries i es l !! j = Some s ->
  exists s0, l !! j = Some s0 /\ seg_index s = seg_index s0 /\ seg_path s = seg_path s0 /\
    (seg_entries s = if decide (i = j) then es else seg_entries s0).
Proof.
  unfold set_entries. case_decide as Hij.
  - subst j. rewrite list_lookup_alter_eq. intros (s0 & -> & ->)%fmap_Some. by exists s0.
  - rewrite list_lookup_alter_ne by done. intros E. by exists s.
Qed.

(** Evicting one segment and loading another keeps the log. *)
Lemma log_ok_load fs l ess i es :
  log_ok fs l ess -> ess !! i = Some es -> (i < length ess - 1)%nat ->
  log_ok fs (mkWAL (set_entries i es (match cached l with Some c => set_entries c [] (segments l) | None => segments l end))
    (firstIndex l) (lastIndex l) (closed l) (Some i)) ess.
Proof.
  intros [Hc Hs Hf Hla Hb Ho Hca] Hi Hlt.
  assert (forall j s, match cached l with Some c => set_entries c [] (segments l) | None => segments l end !! j = Some s ->
    exists s0, segments l !! j = Some s0 /\ seg_index s = seg_index s0 /\ seg_path s = seg_path s0 /\
      (seg_entries s = seg_entries s0 \/ seg_entries s = [] /\ (j < length ess - 1)%nat)) as Hev.
  { intros j s. destruct (cached l) as [c|].
    - intros (s0 & E0 & E1 & E2 & E3)%set_entries_lookup. exists s0. split_and!; try done.
      case_decide as Ecj; [|by left]. subst j. right. split; [done|]. by apply Hca.
    - intros E. exists s. split_and!; try done. by left. }
  constructor; cbn [segments firstIndex lastIndex closed cached]; try done.
  - unfold set_entries. destruct (cached l); by rewrite ?length_alter.
  - intros j s es' Es Ej. apply set_entries_lookup in Es as (s1 & E1 & I1 & P1 & En1).
    destruct (Hev _ _ E1) as (s0 & E0 & I0 & P0 & En0). destruct (Hs _ _ _ E0 Ej) as (A & B & C).
    rewrite I1, I0, P1, P0. split_and!; [done| |done]. rewrite En1. case_decide as Hij.
    + subst j. left. congruence.
    + destruct En0 as [->|[-> Hj]]; [done|]. right. split_and!; [done..|by apply C].
  - intros c [= <-]. done.
Qed.

Lemma entry_at_ok s es index :
  seg_entries s = es -> seg_index s <= index < seg_index s + len es -> len es < 2 ^ 63 ->
  exists e, es !! Z.to_nat (index - seg_index s) = Some e /\ entry_at s index = Ok e.
Proof.
  intros Es Hr Hl. unfold entry_at. rewrite u64_small, Es by lia.
  destruct (Z.leb_spec (len es) (index - seg_index s)); [lia|].
  destruct (lookup_lt_is_Some_2 es (Z.to_nat (index - seg_index s))) as [e Ee]; [unfold len in *; lia|].
  exists e. by rewrite Ee.
Qed.

Lemma Read_ok fs l ess index : log_ok fs l ess ->
  exists l', log_ok fs l' ess /\ firstIndex l' = firstIndex l /\
    Read fs l index =
      (if (firstIndex l <=? index) && (index <=? lastIndex l)
       then of_option ErrCorrupt (concat ess !! Z.to_nat (index - firstIndex l)) else Err ErrNotFound, l').
Proof.
  intros O. pose proof O as [Hc Hs Hf Hla Hb Ho Hca]. unfold Read. rewrite Ho.
  destruct (Z.leb_spec (firstIndex l) index) as [H1|H1], (Z.leb_spec index (lastIndex l)) as [H2|H2]; cbn [andb].
  2-4: exists l; split_and!; try done; destruct (Z.eqb_spec index 0), (Z.ltb_spec index (firstIndex l)),
         (Z.ltb_spec (lastIndex l) index); done || lia.
  destruct (Z.eqb_spec index 0); [lia|]. destruct (Z.ltb_spec index (firstIndex l)); [lia|].
  destruct (Z.ltb_spec (lastIndex l) index); [lia|]. cbn [orb].
  destruct (locate ess (Z.to_nat (index - firstIndex l))) as (i & es & Hi & Hr & He); [unfold len in *; lia|].
  assert (start_of (firstIndex l) ess i <= index < start_of (firstIndex l) ess i + len es) as Hr'
    by (unfold start_of, len in *; lia).
  rewrite (find_segment_ok _ _ _ _ _ _ O Hi Hr'). apply lookup_lt_Some in Hi as Hlt.
  destruct (Z.ltb_spec (Z.of_nat i) 0); [lia|]. rewrite Nat2Z.id.
  destruct (lookup_lt_is_Some_2 (segments l) i) as [s Es]; [lia|]. rewrite Es.
  destruct (Hs _ _ _ Es Hi) as (Ei & Een & _).
  assert (len es < 2 ^ 63) as Hle.
  { pose proof (start_of_mono (firstIndex l) ess (S i) (length ess) ltac:(lia)) as Hm. rewrite (start_of_S _ _ _ _ Hi) in Hm.
    unfold start_of in Hm. rewrite (take_ge ess (length ess)) in Hm by lia. pose proof (len_nonneg (concat (take i ess))). lia. }
  replace (Z.to_nat (index - firstIndex l) - length (concat (take i ess)))%nat
    with (Z.to_nat (index - seg_index s)) in He by (rewrite Ei; unfold start_of, len; lia).
  destruct Een as [Een|(Een & Hi' & Hrd)].
  - exists l. destruct (seg_entries s) as [|e0 es0] eqn:E; [subst es; unfold len in Hr'; simpl in Hr'; lia|].
    destruct (entry_at_ok s es index) as (e & Ee & ->); [congruence|by rewrite Ei|done|]. by rewrite He, Ee.
  - rewrite Een, Hrd. eexists. split; [by apply (log_ok_load fs l ess i es)|]. split; [done|]. cbv zeta.
    destruct (entry_at_ok (mkSegment (seg_index s) (seg_path s) es) es index eq_refl) as (e & Ee & ->);
      [simpl; by rewrite Ei|done|]. simpl in Ee. by rewrite He, Ee, Ho.
Qed.

(** ** Directory listings: lemmas *)

(** The name of a segment: twenty digits of a positive index. *)
Definition segment_name (n : bytes) (index : Z) : Prop :=
  length n = 20%nat /\ ParseUint n = Some index /\ index <> 0.

Definition files (l : list (bytes * Z)) : list DirEntry := (fun p => mkDirEntry p.1 false) <$> l.
Definition plain (l : list (bytes * Z)) : list walSegment := (fun p => mkSegment p.2 p.1 []) <$> l.

Lemma list_step_name s n index suffix : segment_name n index ->
  list_step s (mkDirEntry (n ++ suffix) false) =
    let seg := mkSegment index (n ++ suffix) [] in
    if decide (suffix = []) then
      if ls_end s then s else mkListing (ls_segments s ++ [seg]) (ls_start s) (ls_end s)
    else if decide (suffix = walStartSuffix) then mkListing [seg] true (ls_end s)
    else if decide (suffix = walEndSuffix) then
      if ls_end s then s
      else mkListing (match last (ls_segments s) with
                      | Some l => if seg_index l =? index
                                  then take (length (ls_segments s) - 1) (ls_segments s)
                                  else ls_segments s
                      | None => ls_segments s
                      end ++ [seg]) (ls_start s) true
    else s.
Proof.
  intros (Hn & Hp & Hi). unfold list_step. cbn [de_name de_isDir orb].
  destruct (Z.ltb_spec (len (n ++ suffix)) 20) as [Hlt|_].
  { rewrite len_app in Hlt. unfold len in Hlt. rewrite Hn in Hlt. pose proof (len_nonneg suffix). unfold len in *. lia. }
  rewrite <- Hn, take_app_length, drop_app_length, Hp. by destruct (Z.eqb_spec index 0).
Qed.

Lemma list_plain l : Forall (fun p => segment_name p.1 p.2) l -> forall s,
  fold_left list_step (files l) s =
    if ls_end s then s else mkListing (ls_segments s ++ plain l) (ls_start s) false.
Proof.
  induction 1 as [|[n i] l Hn _ IH]; intros s.
  - simpl. destruct s as [? ? []]; simpl; [done|]. by rewrite app_nil_r.
  - cbn [files fmap list_fmap fold_left fst]. rewrite <- (app_nil_r n), (list_step_name s n i [] Hn), app_nil_r.
    cbv zeta. rewrite decide_True by done. unfold files in IH. rewrite IH. destruct s as [? ? []]; simpl; [done|].
    by rewrite <- app_assoc.
Qed.

Lemma list_start l s n i : segment_name n i ->
  fold_left list_step (mkDirEntry (n ++ walStartSuffix) false :: l) s =
  fold_left list_step l (mkListing [mkSegment i (n ++ walStartSuffix) []] true (ls_end s)).
Proof. intros Hn. cbn [fold_left]. rewrite (list_step_name s n i _ Hn). cbv zeta. by rewrite decide_False, decide_True. Qed.

Lemma list_end l s n i : segment_name n i ->
  fold_left list_step (mkDirEntry n false :: mkDirEntry (n ++ walEndSuffix) false :: l)
    (mkListing s false false) =
  fold_left list_step l (mkListing (s ++ [mkSegment i (n ++ walEndSuffix) []]) false true).
Proof.
  intros Hn. cbn [fold_left]. rewrite <- (app_nil_r n) at 1. rewrite (list_step_name _ n i [] Hn), app_nil_r. cbv zeta.
  rewrite decide_True by done. rewrite (list_step_name _ n i _ Hn). cbv zeta.
  rewrite !decide_False, decide_True by done. cbn [ls_end ls_segments ls_start].
  rewrite last_snoc. cbn [seg_index]. rewrite Z.eqb_refl, length_app, Nat.add_sub, take_app_length. done.
Qed.

(** ** Properties *)

(** A segment file that holds entries as the log writes them (length prefix,
    data), followed by a proper beginning of one more entry or nothing, splits
    into exactly these entries, and the flag tells whether there was a torn
    one; cutting the tail leaves exactly the complete entries. *)
Theorem segment_splits_into_entries (dataIsString : bytes -> bool) (es : list bytes) (p : bytes)
  (Hp : p = [] \/ torn p) (Hl : len (concat (EncodeBytes <$> es) ++ p) < 2 ^ 63) :
  readEntries (concat (EncodeBytes <$> es) ++ p) = (es, bool_decide (p <> [])) /\
  truncateCorruptedTail dataIsString Binary (concat (EncodeBytes <$> es) ++ p) = concat (EncodeBytes <$> es).
Proof.
  pose (l := (fun e => (PutUvarint (len e), e)) <$> es).
  assert (forall r, concat (EncodeBytes <$> es) ++ r = layout l r) as E.
  { intros r. unfold l, EncodeBytes. clear. induction es as [|e es IH]; simpl; [done|]. rewrite <- !app_assoc. do 2 f_equal. exact IH. }
  assert (concat (EncodeBytes <$> es) = layout l []) as E0 by (by rewrite <- E, app_nil_r).
  assert (Forall (fun p => entry_bytes p.1 p.2) l) as F.
  { unfold l. rewrite Forall_fmap, Forall_forall. intros e He. apply Encode_entry. cbn [fst snd].
    apply list_elem_of_lookup_1 in He as (i & Hi). rewrite len_app in Hl. len_facts.
    assert (len e <= len (concat (EncodeBytes <$> es))); [|pose proof (len_nonneg p); lia].
    rewrite <- (take_drop_middle es i e Hi), fmap_app, concat_app, len_app. simpl. rewrite len_app.
    unfold EncodeBytes at 2. rewrite len_app. len_facts. lia. }
  assert (stops p) as S by (destruct Hp as [->|Hp]; [by left|right; eexists; by apply torn_load]).
  assert (l.*2 = es) as El by (unfold l; rewrite <- list_fmap_compose; by apply list_fmap_id).
  rewrite E in *. rewrite readEntries_layout, truncate_layout, E0, El by done. done.
Qed.

Lemma segment_splits_into_entries_witness :
  readEntries [z2b 1; z2b 7; z2b 0; z2b 3; z2b 9] = ([[z2b 7]; []], true) /\
  truncateCorruptedTail (fun _ => false) Binary [z2b 1; z2b 7; z2b 0; z2b 3; z2b 9] = [z2b 1; z2b 7; z2b 0].
Proof.
  apply (segment_splits_into_entries (fun _ => false) [[z2b 7]; []] [z2b 3; z2b 9]).
  - right. exists [z2b 9; z2b 8; z2b 7], [z2b 8; z2b 7]. split_and!; [by vm_compute|done|by vm_compute].
  - by vm_compute.
Defined.

(** Repairing a segment, whatever bytes it holds, keeps a beginning of the
    file and all complete entries in front of the first broken one, and leaves
    a file that splits without a torn tail; repairing again changes nothing. *)
Theorem truncate_keeps_complete_entries (dataIsString : bytes -> bool) (data : bytes) (Hl : len data < 2 ^ 63) :
  let data' := truncateCorruptedTail dataIsString Binary data in
  (exists rest, data = data' ++ rest) /\
  readEntries data' = (fst (readEntries data), false) /\
  truncateCorruptedTail dataIsString Binary data' = data'.
Proof.
  destruct (layout_exists (length data) data ltac:(lia) Hl) as (l & rest & -> & F & S). simpl.
  assert (len (layout l []) < 2 ^ 63) as Hl' by (rewrite layout_app, len_app in Hl; len_facts; lia).
  rewrite truncate_layout by done. split_and!.
  - exists rest. apply layout_app.
  - by rewrite !readEntries_layout by (done || by left).
  - apply truncate_layout; [done|by left|done].
Qed.

Lemma truncate_keeps_complete_entries_witness :
  exists rest, [z2b 1; z2b 7; z2b 200] =
    truncateCorruptedTail (fun _ => false) Binary [z2b 1; z2b 7; z2b 200] ++ rest.
Proof. apply (truncate_keeps_complete_entries (fun _ => false) [z2b 1; z2b 7; z2b 200]). by vm_compute. Defined.

(** The read-only log is the sequence of all entries of its segments: after
    any sequence of reads, whatever segments these loaded and evicted, reading
    an index between the first and the last one returns the entry at that
    position, and every other index is not found. *)
Theorem read_only_log_reads_entries (fs : Disk) (l : readOnlyWAL) (ess : list (list bytes)) (O : log_ok fs l ess)
  (before : list Z) (index : Z) :
  let l' := fold_left (fun l i => snd (Read fs l i)) before l in
  fst (Read fs l' index) =
    if (firstIndex l <=? index) && (index <? firstIndex l + len (concat ess))
    then of_option ErrCorrupt (concat ess !! Z.to_nat (index - firstIndex l)) else Err ErrNotFound.
Proof.
  revert l O. induction before as [|i before IH]; intros l O; simpl.
  - destruct (Read_ok fs l ess index O) as (l' & _ & _ & ->). simpl. rewrite (lo_last _ _ _ O).
    replace (index <=? firstIndex l + len (concat ess) - 1) with (index <? firstIndex l + len (concat ess));
      [done|]. destruct (Z.ltb_spec index (firstIndex l + len (concat ess))), (Z.leb_spec index (firstIndex l + len (concat ess) - 1)); lia || done.
  - destruct (Read_ok fs l ess i O) as (l' & O' & Ef & ->). simpl. rewrite <- Ef. by apply IH.
Qed.

Definition seg_name (d : Z) : bytes := replicate 19 (z2b 48) ++ [z2b (48 + d)].
Definition sample_disk : Disk := fun n =>
  if decide (n = seg_name 1) then Some [z2b 1; z2b 7; z2b 1; z2b 8]
  else if decide (n = seg_name 3) then Some [z2b 1; z2b 9; z2b 5] else None.
Definition sample_dir : list DirEntry := [mkDirEntry (seg_name 1) false; mkDirEntry (seg_name 3) false; mkDirEntry (str "LOCK") false].
Definition sample_wal : readOnlyWAL :=
  match tryOpenReadOnlyWAL sample_disk (Some sample_dir) with Ok l => l | _ => mkWAL [] 0 0 false None end.

Lemma sample_wal_ok : log_ok sample_disk sample_wal [[[z2b 7]; [z2b 8]]; [[z2b 9]]].
Proof.
  assert (sample_wal = mkWAL [mkSegment 1 (seg_name 1) []; mkSegment 3 (seg_name 3) [[z2b 9]]] 1 3 false None) as ->
    by (vm_compute; reflexivity).
  constructor; cbn [segments firstIndex lastIndex closed cached]; [done| |lia|by vm_compute|by vm_compute|done|done].
  assert (readWALEntries sample_disk (seg_name 1) = Ok ([[z2b 7]; [z2b 8]], false)) as E by (vm_compute; reflexivity).
  intros [|[|i]] s es Hs He; [| |done]; injection Hs as <-; injection He as <-; cbn [seg_index seg_entries seg_path].
  - split_and!; [by vm_compute| |done]. right. split_and!; [done|simpl; lia|done].
  - split_and!; [by vm_compute|by left|simpl; lia].
Qed.

Lemma read_only_log_reads_entries_witness :
  fst (Read sample_disk (snd (Read sample_disk sample_wal 3)) 2) = Ok [z2b 8].
Proof. exact (read_only_log_reads_entries sample_disk sample_wal _ sample_wal_ok [3] 2). Defined.

(** The segments of a log directory are those that recovery would keep,
    without touching it: all segments in a quiet directory; from the [.START]
    segment on while a truncation from the front is under way; up to the
    [.END] segment, which replaces the segment it was cut from, while a
    truncation from the back is; both at once mean corruption. *)
Theorem segments_as_recovered (pre post : list (bytes * Z)) (n : bytes) (i : Z)
  (Hpre : Forall (fun p => segment_name p.1 p.2) pre) (Hpost : Forall (fun p => segment_name p.1 p.2) post)
  (Hn : segment_name n i) :
  listWALSegments (Some (files pre)) = Ok (plain pre) /\
  listWALSegments (Some (files pre ++ mkDirEntry (n ++ walStartSuffix) false :: files post)) =
    Ok (mkSegment i (n ++ walStartSuffix) [] :: plain post) /\
  listWALSegments (Some (files pre ++ mkDirEntry n false :: mkDirEntry (n ++ walEndSuffix) false :: files post)) =
    Ok (plain pre ++ [mkSegment i (n ++ walEndSuffix) []]) /\
  listWALSegments (Some (files pre ++ mkDirEntry n false :: mkDirEntry (n ++ walEndSuffix) false ::
    mkDirEntry (n ++ walStartSuffix) false :: files post)) = Err ErrCorrupt.
Proof.
  unfold listWALSegments. rewrite !fold_left_app, (list_plain pre Hpre). cbn [ls_end ls_segments ls_start app].
  rewrite !(list_end _ _ n i Hn), !(list_start _ _ n i Hn), !(list_plain post Hpost). by split_and!.
Qed.

Lemma segments_as_recovered_witness :
  listWALSegments (Some [mkDirEntry (seg_name 1) false; mkDirEntry (seg_name 3 ++ walStartSuffix) false; mkDirEntry (seg_name 7) false])
  = Ok [mkSegment 3 (seg_name 3 ++ walStartSuffix) []; mkSegment 7 (seg_name 7) []].
Proof.
  apply (segments_as_recovered [(seg_name 1, 1)] [(seg_name 7, 7)] (seg_name 3) 3);
    repeat constructor; done.
Defined.
