(* ===== verification/Pending.v ===== *)
(** The pending log of the database: [memiavl/db.go], [ApplyUpgrades],
    [ApplyChangeSets], [ApplyChangeSet] and their helpers.

    Changes are applied to the multi-tree at once and recorded in the pending
    log, which the next commit writes to the write-ahead log.  The change sets
    of the pending log are shared between the list and the map by name, so
    they live in a store of their own and list and map hold references.

    Theorem: replaying the pending log on the multi-tree of the last commit
    gives the current multi-tree. *)
From stdpp Require Import prelude strings gmap fin_maps.
From Stdlib Require Import ZArith Lia.
From S2P Require Import Prelude OrdMap Codec Node Persisted Tree TreeSpec MultiTree.
Local Open Scope Z_scope.

(** [p_store] holds the [NamedChangeSet]s, [p_sets] is
    [pendingLog.Changesets], [p_upgrades] is [pendingLog.Upgrades] and
    [p_cache] is [cachedPendingChangesets], [None] when nil. *)
Record Pending : Type := mkPending {
  p_store : list NamedChangeSet;
  p_sets : list nat;
  p_upgrades : list TreeNameUpgrade;
  p_cache : option (gmap name nat);
}.

Definition NewPending : Pending := mkPending [] [] [] None.

(** The log entry that the pending log stands for. *)
Definition pendingLog (p : Pending) : WALEntry :=
  mkEntry (omap (fun i => p_store p !! i) (p_sets p)) (p_upgrades p).

Definition with_cache (p : Pending) (c : option (gmap name nat)) : Pending :=
  mkPending (p_store p) (p_sets p) (p_upgrades p) c.

Definition clearPendingChangesetMap (p : Pending) : Pending :=
  match p_cache p with
  | Some _ => with_cache p (Some ∅)
  | None => p
  end.

Definition set_name (p : Pending) (i : nat) : option name := ncs_name <$> p_store p !! i.

Definition rebuildPendingChangesetMap (p : Pending) (sets : list nat) : Pending :=
  with_cache p (Some (fold_left (fun m i =>
    match set_name p i with Some n => <[n := i]> m | None => m end) sets ∅)).

(** The caller's change sets become the pending ones. *)
Definition setPendingChangeSets (p : Pending) (changeSets : list NamedChangeSet) : Pending :=
  let sets := seq (length (p_store p)) (length changeSets) in
  let p := mkPending (p_store p ++ changeSets) sets (p_upgrades p) (p_cache p) in
  match changeSets with
  | [] => clearPendingChangesetMap p
  | _ => rebuildPendingChangesetMap p sets
  end.

Definition ensurePendingChangesetMap (p : Pending) : Pending :=
  match p_sets p with
  | [] => clearPendingChangesetMap p
  | _ =>
      match p_cache p with
      | Some _ => p
      | None => rebuildPendingChangesetMap p (p_sets p)
      end
  end.

Definition insertPendingChangeSet (p : Pending) (cs : NamedChangeSet) : res Pending :=
  let id := length (p_store p) in
  let m := default ∅ (p_cache p) in
  let p := mkPending (p_store p ++ [cs]) (p_sets p) (p_upgrades p) (Some (<[ncs_name cs := id]> m)) in
  let with_sets sets := mkPending (p_store p) sets (p_upgrades p) (p_cache p) in
  let append :=
    match last (p_sets p) with
    | None => true
    | Some i => match set_name p i with Some n => bytes_ltb n (ncs_name cs) | None => false end
    end in
  if append : bool then Ok (with_sets (p_sets p ++ [id]))
  else
    let* idx := of_option "index out of range" (sort_Search (len (p_sets p)) (fun i =>
      let? j := p_sets p !! Z.to_nat i in
      let? n := set_name p j in Some (negb (bytes_ltb n (ncs_name cs))))) in
    Ok (with_sets (take (Z.to_nat idx) (p_sets p) ++ [id] ++ drop (Z.to_nat idx) (p_sets p))).

(** [existing.Changeset.Pairs = append(existing.Changeset.Pairs, pairs...)]. *)
Definition extend_set (p : Pending) (i : nat) (cs : ChangeSet) : Pending :=
  mkPending (alter (fun e => mkNamedCS (ncs_name e) (ncs_changeset e ++ cs)) i (p_store p))
    (p_sets p) (p_upgrades p) (p_cache p).

Definition recordChangeSet (p : Pending) (n : name) (cs : ChangeSet) : res Pending :=
  let p := ensurePendingChangesetMap p in
  match default ∅ (p_cache p) !! n with
  | Some i => Ok (extend_set p i cs)
  | None => insertPendingChangeSet p (mkNamedCS n cs)
  end.

(** ** The operations of the database on tree and pending log *)

Record Working : Type := mkWorking {
  w_readOnly : bool;
  w_tree : MultiTree;
  w_pending : Pending;
}.

Definition errReadOnly : string := "db is read-only".

Definition with_pending (w : Working) (p : Pending) : Working := mkWorking (w_readOnly w) (w_tree w) p.
Definition with_tree (w : Working) (t : MultiTree) : Working := mkWorking (w_readOnly w) t (w_pending w).

(** The operations return the error and the database as it is then; a failed
    upgrade leaves the multi-tree unusable, which is not modelled further. *)
Definition outcome : Type := (option string * Working)%type.

Definition dbApplyUpgrades (w : Working) (us : list TreeNameUpgrade) : outcome :=
  if w_readOnly w then (Some errReadOnly, w)
  else
    match ApplyUpgrades (w_tree w) us with
    | Ok t =>
        let p := w_pending w in
        (None, with_pending (with_tree w t)
                 (mkPending (p_store p) (p_sets p) (p_upgrades p ++ us) (p_cache p)))
    | Err e | Panic e => (Some e, w)
    end.

(** The tree part of [applyChangeSet]; a failure leaves the tree as it was,
    but the pending log keeps the change set. *)
Definition apply_to_tree (w : Working) (n : name) (cs : ChangeSet) : outcome :=
  match MTApplyChangeSet (w_tree w) n cs with
  | Ok t => (None, with_tree w t)
  | Err e | Panic e => (Some e, w)
  end.

Definition applyChangeSet (w : Working) (n : name) (cs : ChangeSet) : outcome :=
  match cs with
  | [] => (None, w)
  | _ =>
      if w_readOnly w then (Some errReadOnly, w)
      else
        match recordChangeSet (w_pending w) n cs with
        | Ok p => apply_to_tree (with_pending w p) n cs
        | Err e | Panic e => (Some e, w)
        end
  end.

Definition dbApplyChangeSet (w : Working) (n : name) (cs : ChangeSet) : outcome := applyChangeSet w n cs.

(** One change set after the other, stopping at the first error. *)
Fixpoint apply_trees (t : MultiTree) (css : list NamedChangeSet) : option string * MultiTree :=
  match css with
  | [] => (None, t)
  | cs :: css =>
      match MTApplyChangeSet t (ncs_name cs) (ncs_changeset cs) with
      | Ok t => apply_trees t css
      | Err e | Panic e => (Some e, t)
      end
  end.

Fixpoint apply_merged (w : Working) (css : list NamedChangeSet) : outcome :=
  match css with
  | [] => (None, w)
  | cs :: css =>
      match applyChangeSet w (ncs_name cs) (ncs_changeset cs) with
      | (None, w) => apply_merged w css
      | r => r
      end
  end.

Definition dbApplyChangeSets (w : Working) (css : list NamedChangeSet) : outcome :=
  match css with
  | [] => (None, w)
  | _ =>
      if w_readOnly w then (Some errReadOnly, w)
      else
        match p_sets (w_pending w) with
        | [] =>
            let w := with_pending w (setPendingChangeSets (w_pending w) css) in
            let (e, t) := apply_trees (w_tree w) css in (e, with_tree w t)
        | _ => apply_merged w css
        end
  end.

(** [db.pendingLog = WALEntry{}; clear(db.cachedPendingChangesets)]. *)
Definition clearPending (p : Pending) : Pending :=
  mkPending (p_store p) [] [] (match p_cache p with Some _ => Some ∅ | None => None end).

(** ** Change sets by store *)

(** The changes a list of change sets makes to one store, in order. *)
Definition flat (css : list NamedChangeSet) (n : name) : ChangeSet :=
  concat (ncs_changeset <$> filter (fun c => ncs_name c = n) css).

(** Every tree with the changes of its name applied. *)
Definition apply_flat (t : MultiTree) (f : name -> ChangeSet) : MultiTree :=
  with_trees t ((fun e => mkNamed (nt_name e) (vtApply (nt_tree e) (f (nt_name e)))) <$> trees t).

Lemma flat_app a b n : flat (a ++ b) n = flat a n ++ flat b n.
Proof. unfold flat. by rewrite filter_app, fmap_app, concat_app. Qed.

Lemma flat_cons c css n : flat (c :: css) n = (if decide (ncs_name c = n) then ncs_changeset c else []) ++ flat css n.
Proof. unfold flat. rewrite filter_cons. by case_decide. Qed.

Lemma flat_absent css n : n ∉ ncs_name <$> css -> flat css n = [].
Proof.
  induction css as [|c css IH]; intros Hn; [done|]. rewrite fmap_cons, not_elem_of_cons in Hn.
  rewrite flat_cons, decide_False by naive_solver. apply IH. naive_solver.
Qed.

Lemma apply_flat_ext t f g : (forall n, n ∈ names (trees t) -> f n = g n) -> apply_flat t f = apply_flat t g.
Proof.
  intros H. unfold apply_flat. f_equal. apply list_fmap_ext. intros i e He. rewrite H; [done|].
  apply list_elem_of_fmap. exists e. split; [done|]. by eapply list_elem_of_lookup_2.
Qed.

Lemma vtApply_app t a b : vtApply (vtApply t a) b = vtApply t (a ++ b).
Proof. unfold vtApply, pure_apply. simpl. by rewrite fold_left_app. Qed.

Lemma apply_flat_compose t f g : apply_flat (apply_flat t f) g = apply_flat t (fun n => f n ++ g n).
Proof.
  unfold apply_flat, with_trees. simpl. f_equal. rewrite <- list_fmap_compose. apply list_fmap_ext.
  intros i e _. simpl. by rewrite vtApply_app.
Qed.

Lemma apply_flat_nil t f : (forall n, f n = []) -> apply_flat t f = t.
Proof.
  intros H. unfold apply_flat, with_trees. destruct t as [a ts b c d]. simpl. f_equal.
  induction ts as [|[n [v r]] ts IH]; [done|]. rewrite fmap_cons, IH, H. done.
Qed.

Lemma apply_flat_names t f : names (trees (apply_flat t f)) = names (trees t).
Proof. unfold names, apply_flat. simpl. by rewrite <- list_fmap_compose. Qed.

Lemma apply_flat_wf t f : mt_wf t -> mt_wf (apply_flat t f).
Proof. intros W. apply wf_names; [done|]. apply apply_flat_names. Qed.

Definition only (n : name) (cs : ChangeSet) (m : name) : ChangeSet := if decide (n = m) then cs else [].

Lemma MTApplyChangeSet_flat t n cs : mt_wf t -> n ∈ names (trees t) ->
  MTApplyChangeSet t n cs = Ok (apply_flat t (only n cs)).
Proof.
  intros W (e & -> & He)%list_elem_of_fmap. apply list_elem_of_lookup_1 in He as (i & Hi).
  pose proof (strict_nodup _ (wf_sorted _ W)) as N. unfold MTApplyChangeSet.
  assert (treesByName t !! nt_name e = Some i) as ->.
  { apply (wf_index _ W). by exists e. }
  rewrite Hi. f_equal. unfold apply_flat. f_equal. apply list_eq. intros j.
  rewrite list_lookup_fmap. destruct (decide (i = j)) as [->|Hij].
  - rewrite list_lookup_alter_eq, Hi. simpl. unfold only. by rewrite decide_True.
  - rewrite list_lookup_alter_ne by done. destruct (trees t !! j) as [e'|] eqn:Ej; [|done]. simpl. f_equal.
    unfold only. rewrite decide_False; [by destruct e' as [? []]|]. intros En. apply Hij.
    apply (NoDup_lookup (names (trees t)) i j (nt_name e)); [done|..]; unfold names; rewrite list_lookup_fmap, ?Hi, ?Ej; simpl; congruence.
Qed.

Lemma MTApplyChangeSet_known t n cs t' : mt_wf t -> MTApplyChangeSet t n cs = Ok t' -> n ∈ names (trees t).
Proof.
  intros W. unfold MTApplyChangeSet. destruct (treesByName t !! n) as [i|] eqn:E; [|done]. intros _.
  apply (wf_index _ W) in E as (e & Hi & <-). apply list_elem_of_fmap. exists e. split; [done|].
  by eapply list_elem_of_lookup_2.
Qed.

Lemma ApplyChangeSets_flat css : forall t, mt_wf t -> Forall (fun c => ncs_name c ∈ names (trees t)) css ->
  ApplyChangeSets t css = Ok (apply_flat t (flat css)).
Proof.
  induction css as [|c css IH]; intros t W F.
  - simpl. by rewrite apply_flat_nil.
  - inversion F as [|? ? Hc F']; subst. simpl. rewrite MTApplyChangeSet_flat by done. cbn [res_bind].
    rewrite IH; [|by apply apply_flat_wf|by rewrite apply_flat_names].
    rewrite apply_flat_compose. f_equal. apply apply_flat_ext. intros n _. by rewrite flat_cons.
Qed.

Lemma apply_trees_ok css : forall t t', apply_trees t css = (None, t') ->
  ApplyChangeSets t css = Ok t'.
Proof.
  induction css as [|c css IH]; intros t t'; simpl; [by intros [= <-]|].
  destruct (MTApplyChangeSet t (ncs_name c) (ncs_changeset c)); simpl; [apply IH|done..].
Qed.

Lemma ApplyChangeSets_known css : forall t t', mt_wf t -> ApplyChangeSets t css = Ok t' ->
  Forall (fun c => ncs_name c ∈ names (trees t)) css.
Proof.
  induction css as [|c css IH]; intros t t' W; simpl; [constructor|].
  rewrite res_bind_ok. intros (t1 & E1 & E2). pose proof (MTApplyChangeSet_known _ _ _ _ W E1) as Hc.
  constructor; [done|]. rewrite MTApplyChangeSet_flat in E1 by done. apply Ok_inj in E1 as <-.
  pose proof (IH _ _ (apply_flat_wf _ _ W) E2) as F. by rewrite apply_flat_names in F.
Qed.

(** ** The pending log *)

Definition view (p : Pending) : list NamedChangeSet := we_changesets (pendingLog p).

(** The last change set of a name. *)
Definition last_of (p : Pending) (n : name) : option nat :=
  last (filter (fun i => set_name p i = Some n) (p_sets p)).

(** The references are valid and distinct, and the map points to the last
    change set of each name. *)
Record pend_ok (p : Pending) : Prop := {
  po_ids : Forall (fun i => (i < length (p_store p))%nat) (p_sets p);
  po_nodup : NoDup (p_sets p);
  po_cache : p_sets p <> [] -> exists m, p_cache p = Some m /\ forall n, m !! n = last_of p n;
}.

Lemma last_filter_split {A} (P : A -> Prop) `{!forall x, Decision (P x)} (l : list A) (i : A) :
  last (filter P l) = Some i -> exists l1 l2, l = l1 ++ i :: l2 /\ P i /\ Forall (fun j => ~ P j) l2.
Proof.
  induction l as [|x l IH] using rev_ind; [done|]. rewrite filter_app, filter_cons, filter_nil.
  destruct (decide (P x)) as [Hx|Hx].
  - rewrite last_snoc. intros [= ->]. exists l, []. split_and!; [done|done|constructor].
  - rewrite app_nil_r. intros (l1 & l2 & -> & Hi & F)%IH. exists l1, (l2 ++ [x]).
    rewrite <- app_assoc. split_and!; [done|done|]. apply Forall_app_2; [done|]. by constructor.
Qed.

Lemma filter_same {A} (P Q : A -> Prop) `{!forall x, Decision (P x), !forall x, Decision (Q x)} (l : list A) :
  (forall x, x ∈ l -> P x <-> Q x) -> filter P l = filter Q l.
Proof.
  induction l as [|x l IH]; intros Hpq; [done|]. rewrite !filter_cons, IH by (intros; apply Hpq; by right).
  specialize (Hpq x ltac:(by left)). by destruct (decide (P x)), (decide (Q x)); try tauto.
Qed.

(** Reading references through two stores that agree on them. *)
Lemma omap_store {A} (s s' : list A) (l : list nat) :
  (forall j, j ∈ l -> s' !! j = s !! j) -> omap (fun j => s' !! j) l = omap (fun j => s !! j) l.
Proof. intros H. apply list_omap_ext, Forall_Forall2_diag, Forall_forall. exact H. Qed.

Lemma last_None {A} (l : list A) : last l = None -> l = [].
Proof. destruct l as [|x l _] using rev_ind; [done|]. by rewrite last_snoc. Qed.

Lemma view_names p n : n ∈ ncs_name <$> view p <-> exists j, j ∈ p_sets p /\ set_name p j = Some n.
Proof.
  unfold view, pendingLog, set_name. simpl. rewrite list_elem_of_fmap. setoid_rewrite list_elem_of_omap.
  setoid_rewrite fmap_Some. naive_solver.
Qed.

Lemma last_of_None p n : last_of p n = None -> n ∉ ncs_name <$> view p.
Proof.
  intros H%last_None (j & Hj & Hn)%view_names.
  assert (j ∈ filter (fun i => set_name p i = Some n) (p_sets p)) as Hin by by apply list_elem_of_filter.
  rewrite H in Hin. by apply elem_of_nil in Hin.
Qed.

Lemma set_name_extend p i cs j : set_name (extend_set p i cs) j = set_name p j.
Proof.
  unfold set_name, extend_set. simpl. destruct (decide (i = j)) as [->|].
  - rewrite list_lookup_alter_eq. by destruct (p_store p !! j).
  - by rewrite list_lookup_alter_ne.
Qed.

(** Recording into the last change set of the name. *)
Lemma extend_ok p i n cs : pend_ok p -> last_of p n = Some i ->
  pend_ok (extend_set p i cs) /\ forall m, flat (view (extend_set p i cs)) m = flat (view p) m ++ only n cs m.
Proof.
  intros [Hi N Hc] HL. split.
  - constructor; simpl; [by rewrite length_alter|done|]. intros Hne.
    destruct (Hc Hne) as (m & Em & Hm). exists m. split; [done|]. intros n'. rewrite Hm.
    unfold last_of. f_equal. apply list_filter_iff. intros j. by rewrite set_name_extend.
  - apply last_filter_split in HL as (l1 & l2 & Es & En & F).
    intros m. unfold view, pendingLog. simpl. rewrite Es in *. apply NoDup_app in N as (N1 & N2 & N3).
    apply NoDup_cons in N3 as [N3 N4].
    set (st := alter _ i (p_store p)).
    assert (forall l : list nat, i ∉ l -> omap (fun j => st !! j) l = omap (fun j => p_store p !! j) l) as Ho.
    { intros l Hl. apply omap_store. intros j Hj. unfold st. apply list_lookup_alter_ne. congruence. }
    rewrite !omap_app. csimpl. assert (i ∉ l1) as Hl1 by (intros Hin; apply (N2 i Hin); by left). rewrite !Ho by done.
    unfold st. rewrite list_lookup_alter_eq. unfold set_name in En. destruct (p_store p !! i) as [e|] eqn:Ee; [|done].
    injection En as En. csimpl. rewrite !flat_app, !flat_cons. csimpl. rewrite En. unfold only.
    assert (n ∉ ncs_name <$> omap (fun j => p_store p !! j) l2) as Hl2.
    { intros (c & -> & Hin)%list_elem_of_fmap. apply list_elem_of_omap in Hin as (j & Hj & Ej).
      rewrite Forall_forall in F. apply (F j Hj). unfold set_name. by rewrite Ej. }
    case_decide as Hd; [subst m|by rewrite app_nil_r].
    rewrite (flat_absent _ _ Hl2), !app_nil_r. by rewrite <- app_assoc.
Qed.

Section InsertAt.
Context (p : Pending) (l1 l2 : list nat) (n : name) (cs : ChangeSet) (c : gmap name nat).
Hypotheses (Hids : Forall (fun i => (i < length (p_store p))%nat) (p_sets p)) (N : NoDup (p_sets p))
  (Hc : forall n, c !! n = last_of p n) (Es : p_sets p = l1 ++ l2) (Hn : c !! n = None).

Let id := length (p_store p).
Let p' := mkPending (p_store p ++ [mkNamedCS n cs]) (l1 ++ id :: l2) (p_upgrades p) (Some (<[n := id]> c)).

Lemma insert_old j : j ∈ l1 ++ l2 -> p_store p' !! j = p_store p !! j.
Proof. intros Hj. rewrite <- Es in Hj. rewrite Forall_forall in Hids. by apply lookup_app_l, Hids. Qed.

Lemma insert_new : p_store p' !! id = Some (mkNamedCS n cs).
Proof. unfold p', id. simpl. by rewrite lookup_app_r, Nat.sub_diag by lia. Qed.

(** Recording a change set of a name without one, at any position. *)
Lemma insert_at_ok : pend_ok p' /\ forall m, flat (view p') m = flat (view p) m ++ only n cs m.
Proof.
  pose proof insert_old as Hold. pose proof insert_new as Hnew.
  assert (n ∉ ncs_name <$> view p) as Hv by (apply last_of_None; by rewrite <- Hc).
  assert (id ∉ l1 ++ l2) as Hid.
  { rewrite <- Es. intros Hin. rewrite Forall_forall in Hids. apply Hids in Hin. unfold id in Hin. lia. }
  split.
  - constructor.
    + simpl. rewrite Es in Hids. rewrite length_app. simpl. apply Forall_app in Hids as [H1 H2].
      apply Forall_app_2; [|constructor; [unfold id; lia|]];
        (eapply Forall_impl; [eassumption|]; simpl; lia).
    + simpl. rewrite <- Permutation_middle. constructor; [done|]. by rewrite <- Es.
    + intros _. eexists. split; [done|]. intros m. unfold last_of. cbn [p_sets p'].
      rewrite filter_app, filter_cons.
      assert (set_name p' id = Some n) as Hsn by (unfold set_name; by rewrite Hnew).
      assert (forall l : list nat, (forall j, j ∈ l -> j ∈ l1 ++ l2) ->
        filter (fun i => set_name p' i = Some m) l = filter (fun i => set_name p i = Some m) l) as Hf.
      { intros l Hl. apply filter_same. intros j Hj. unfold set_name. by rewrite Hold by auto. }
      rewrite !Hf by (intros; apply elem_of_app; auto). 
      destruct (decide (set_name p' id = Some m)) as [Hd|Hd]; rewrite Hsn in Hd; [injection Hd as <-|].
      * rewrite lookup_insert_eq. rewrite Hc in Hn. unfold last_of in Hn. apply last_None in Hn.
        rewrite Es, filter_app in Hn. apply app_eq_nil in Hn as [-> ->]. done.
      * rewrite lookup_insert_ne by congruence. rewrite Hc. unfold last_of. by rewrite Es, filter_app.
  - intros m. unfold view, pendingLog. cbn [p_sets p' we_changesets p_store]. rewrite Es.
    assert (forall l : list nat, (forall j, j ∈ l -> j ∈ l1 ++ l2) ->
      omap (fun j => (p_store p ++ [mkNamedCS n cs]) !! j) l = omap (fun j => p_store p !! j) l) as Ho.
    { intros l Hl. apply omap_store. intros j Hj. apply Hold. auto. }
    rewrite !omap_app. csimpl. simpl in Hnew. rewrite Hnew, !Ho by (intros; apply elem_of_app; auto).
    rewrite !flat_app, flat_cons. csimpl. unfold only. case_decide as Hd; [subst m|by rewrite app_nil_r].
    unfold view, pendingLog in Hv. simpl in Hv. rewrite Es, omap_app, fmap_app, not_elem_of_app in Hv.
    rewrite !flat_absent by apply Hv. by rewrite app_nil_r.
Qed.
End InsertAt.

Lemma rebuild_map p sets : forall n,
  fold_left (fun m i => match set_name p i with Some n => <[n := i]> m | None => m end) sets (∅ : gmap name nat) !! n
  = last (filter (fun i => set_name p i = Some n) sets).
Proof.
  induction sets as [|i sets IH] using rev_ind; intros n; [apply lookup_empty|].
  rewrite fold_left_app, filter_app, filter_cons, filter_nil. simpl.
  destruct (decide (set_name p i = Some n)) as [Hi|Hi].
  - rewrite last_snoc, Hi. by rewrite lookup_insert_eq.
  - rewrite app_nil_r, <- IH. destruct (set_name p i) as [n'|]; [|done]. rewrite lookup_insert_ne; [done|congruence].
Qed.

Lemma rebuild_ok p : Forall (fun i => (i < length (p_store p))%nat) (p_sets p) -> NoDup (p_sets p) ->
  pend_ok (rebuildPendingChangesetMap p (p_sets p)).
Proof. intros Hi N. constructor; [done..|]. intros _. eexists. split; [done|]. apply rebuild_map. Qed.

Lemma setPending_ok p css : css <> [] ->
  pend_ok (setPendingChangeSets p css) /\ view (setPendingChangeSets p css) = css /\
  p_upgrades (setPendingChangeSets p css) = p_upgrades p.
Proof.
  intros Hne. unfold setPendingChangeSets. destruct css as [|c css]; [done|]. split_and!; [| |done].
  - apply (rebuild_ok (mkPending _ _ _ _)); cbn [p_sets p_store]; [|apply NoDup_seq].
    apply Forall_forall. intros i Hi. apply elem_of_seq in Hi. rewrite length_app. lia.
  - unfold view, pendingLog. cbn [rebuildPendingChangesetMap with_cache p_store p_sets we_changesets].
    generalize (c :: css) as l. clear. intros l. generalize (p_store p) as st. induction l as [|c l IH]; intros st; [done|].
    cbn [length seq]. csimpl. rewrite lookup_app_r, Nat.sub_diag by lia. simpl. f_equal.
    specialize (IH (st ++ [c])). rewrite length_app, <- app_assoc in IH. simpl in IH. by rewrite Nat.add_1_r in IH.
Qed.

Lemma ensure_ok p : pend_ok p ->
  let p' := ensurePendingChangesetMap p in
  p_store p' = p_store p /\ p_sets p' = p_sets p /\ p_upgrades p' = p_upgrades p /\
  forall n, default ∅ (p_cache p') !! n = last_of p' n.
Proof.
  intros [Hi N Hc]. unfold ensurePendingChangesetMap. destruct (p_sets p) as [|x l] eqn:Es.
  - unfold clearPendingChangesetMap. destruct (p_cache p) as [c|] eqn:Ec; simpl; rewrite ?Es, ?Ec;
      (split_and!; [done..|]); intros n; unfold last_of; simpl; rewrite ?Es, lookup_empty; done.
  - destruct (Hc ltac:(done)) as (m & Em & Hm). rewrite Em. split_and!; [done|by rewrite Es|done|].
    intros n. rewrite Em. apply Hm.
Qed.

Lemma search_total fuel f : forall i j, i <= j -> j - i <= Z.of_nat fuel -> (forall x, i <= x < j -> is_Some (f x)) ->
  exists k, search_loop fuel f i j = Some k /\ i <= k <= j.
Proof.
  induction fuel as [|fuel IH]; intros i j Hij Hf Hs; simpl; [exists i; split; [done|lia]|].
  destruct (Z.ltb_spec i j); [|exists i; split; [done|lia]].
  destruct (Hs ((i + j) / 2)) as [b ->]; [dlia|]. cbn [mbind option_bind]. destruct b.
  - destruct (IH i ((i + j) / 2)) as (k & -> & Hk); [dlia|dlia|intros; apply Hs; dlia|]. exists k. split; [done|dlia].
  - destruct (IH ((i + j) / 2 + 1) j) as (k & -> & Hk); [dlia|dlia|intros; apply Hs; dlia|]. exists k. split; [done|dlia].
Qed.

(** Recording a change set succeeds and adds exactly its changes. *)
Record recorded (p p' : Pending) (n : name) (cs : ChangeSet) : Prop := {
  rec_ok : pend_ok p';
  rec_flat : forall m, flat (view p') m = flat (view p) m ++ only n cs m;
  rec_names : forall m, m ∈ ncs_name <$> view p' -> m = n \/ m ∈ ncs_name <$> view p;
  rec_upgrades : p_upgrades p' = p_upgrades p;
}.

Lemma insert_recorded p q l1 l2 n cs c :
  Forall (fun i => (i < length (p_store p))%nat) (p_sets p) -> NoDup (p_sets p) ->
  (forall n, c !! n = last_of p n) -> c !! n = None -> p_sets p = l1 ++ l2 ->
  q = mkPending (p_store p ++ [mkNamedCS n cs]) (l1 ++ length (p_store p) :: l2) (p_upgrades p)
        (Some (<[n := length (p_store p)]> c)) ->
  recorded p q n cs.
Proof.
  intros Hi N Hc Hn Es ->. destruct (insert_at_ok p l1 l2 n cs c Hi N Hc Es Hn) as [Hok Hf].
  constructor; [done|done| |done]. intros m (j & Hj & Ej)%view_names. simpl in Hj.
  apply elem_of_app in Hj as [Hj|[->|Hj]%elem_of_cons].
  2:{ left. unfold set_name in Ej. rewrite (insert_new p l1 l2 n cs c) in Ej. by injection Ej. }
  all: right; apply view_names; exists j; unfold set_name in *;
    rewrite (insert_old p l1 l2 n cs c Hi Es) in Ej by (apply elem_of_app; auto);
    (split; [rewrite Es; apply elem_of_app; auto|done]).
Qed.

Lemma record_ok p n cs : pend_ok p -> exists p', recordChangeSet p n cs = Ok p' /\ recorded p p' n cs.
Proof.
  intros Ok0. destruct (ensure_ok p Ok0) as (E1 & E2 & E3 & Hc). pose proof Ok0 as [Hi N _].
  unfold recordChangeSet. set (q := ensurePendingChangesetMap p) in *.
  assert (view q = view p) as Ev by (unfold view, pendingLog; by rewrite E1, E2).
  assert (pend_ok q) as Okq.
  { constructor; [by rewrite E1, E2|by rewrite E2|]. intros Hne. exists (default ∅ (p_cache q)). split; [|done].
    unfold q, ensurePendingChangesetMap. destruct (p_sets p); [by rewrite E2 in Hne|]. destruct (p_cache p) eqn:E; by rewrite ?E. }
  destruct (default ∅ (p_cache q) !! n) as [i|] eqn:En.
  - eexists. split; [done|]. rewrite Hc in En. destruct (extend_ok q i n cs Okq En) as [H1 H2].
    constructor; [done|intros m; by rewrite H2, Ev| |done].
    intros m (j & Hj & Ej)%view_names. right. rewrite <- Ev. apply view_names. exists j. by rewrite set_name_extend in Ej.
  - assert (forall p', recorded q p' n cs -> recorded p p' n cs) as Hrec.
    { intros p' [R1 R2 R3 R4]. constructor; [done|by rewrite <- Ev|by rewrite <- Ev|congruence]. }
    unfold insertPendingChangeSet. cbn [p_sets p_store p_upgrades p_cache ncs_name].
    set (append := match last (p_sets q) with Some _ => _ | None => _ end). destruct append.
    + eexists. split; [done|]. apply Hrec.
      eapply (insert_recorded q _ (p_sets q) [] n cs); [by rewrite E1, E2|by rewrite E2|exact Hc|done|by rewrite app_nil_r|done].
    + unfold sort_Search. destruct (search_total (Z.to_nat (len (p_sets q))) (fun i =>
        let? j := p_sets q !! Z.to_nat i in
        let? m := set_name (mkPending (p_store q ++ [mkNamedCS n cs]) (p_sets q) (p_upgrades q)
          (Some (<[n := length (p_store q)]> (default ∅ (p_cache q))))) j in
        Some (negb (bytes_ltb m n))) 0 (len (p_sets q))) as (k & Ek & Hk); [llia|llia| |].
      { intros x Hx. destruct (lookup_lt_is_Some_2 (p_sets q) (Z.to_nat x)) as [j Hj]; [unfold len in *; lia|].
        rewrite Hj. cbn [mbind option_bind]. unfold set_name. cbn [p_store].
        assert ((j < length (p_store q))%nat) as Hlt.
        { pose proof (po_ids _ Okq) as F. rewrite Forall_forall in F. apply F. by eapply list_elem_of_lookup_2. }
        rewrite lookup_app_l by done. destruct (lookup_lt_is_Some_2 _ _ Hlt) as [e ->]. by eexists. }
      rewrite Ek. cbn [of_option res_bind]. eexists. split; [done|]. apply Hrec.
      eapply (insert_recorded q _ (take (Z.to_nat k) (p_sets q)) (drop (Z.to_nat k) (p_sets q)) n cs);
        [by rewrite E1, E2|by rewrite E2|exact Hc|done|by rewrite take_drop|done].
Qed.

(** ** The database between commits *)

(** The working tree is the tree [t], left by the upgrades, with the changes
    of the pending log applied. *)
Record work_ok (t : MultiTree) (us : list TreeNameUpgrade) (w : Working) : Prop := {
  wo_pending : pend_ok (w_pending w);
  wo_tree : w_tree w = apply_flat t (flat (view (w_pending w)));
  wo_known : forall n, n ∈ ncs_name <$> view (w_pending w) -> n ∈ names (trees t);
  wo_upgrades : p_upgrades (w_pending w) = us;
}.

Lemma work_change t us w n cs w' : mt_wf t -> work_ok t us w -> applyChangeSet w n cs = (None, w') -> work_ok t us w'.
Proof.
  intros W [Hp Ht Hk Hu]. unfold applyChangeSet. destruct cs as [|c cs]; [by intros [= <-]|].
  destruct (w_readOnly w); [done|]. destruct (record_ok (w_pending w) n (c :: cs) Hp) as (p & -> & [R1 R2 R3 R4]).
  unfold apply_to_tree. cbn [w_tree with_pending]. rewrite Ht.
  destruct (MTApplyChangeSet (apply_flat t (flat (view (w_pending w)))) n (c :: cs)) as [t'| |] eqn:E; [|done..].
  intros [= <-]. pose proof (MTApplyChangeSet_known _ _ _ _ (apply_flat_wf _ _ W) E) as Hn.
  rewrite MTApplyChangeSet_flat in E by (done || by apply apply_flat_wf). apply Ok_inj in E as <-.
  rewrite apply_flat_names in Hn. constructor; simpl; [done| | |congruence].
  - rewrite apply_flat_compose. apply apply_flat_ext. intros m _. by rewrite R2.
  - intros m [->|Hm]%R3; auto.
Qed.

Lemma work_merged t us css : mt_wf t -> forall w w',
  work_ok t us w -> apply_merged w css = (None, w') -> work_ok t us w'.
Proof.
  intros W. induction css as [|c css IH]; intros w w' Hw; simpl; [by intros [= <-]|].
  destruct (applyChangeSet w (ncs_name c) (ncs_changeset c)) as [[e|] w1] eqn:E; [done|].
  apply IH. by eapply work_change.
Qed.

Lemma view_nil p : p_sets p = [] -> view p = [].
Proof. intros E. unfold view, pendingLog. by rewrite E. Qed.

Lemma work_changes t us w css w' : mt_wf t -> work_ok t us w -> dbApplyChangeSets w css = (None, w') -> work_ok t us w'.
Proof.
  intros W Hw. unfold dbApplyChangeSets. destruct css as [|c css]; [by intros [= <-]|].
  destruct (w_readOnly w); [done|]. destruct (p_sets (w_pending w)) as [|x l] eqn:Es; [|by apply work_merged].
  destruct Hw as [Hp Ht Hk Hu]. destruct (setPending_ok (w_pending w) (c :: css) ltac:(done)) as (P1 & P2 & P3).
  generalize dependent (setPendingChangeSets (w_pending w) (c :: css)). intros q P1 P2 P3.
  rewrite (view_nil _ Es) in Ht. rewrite apply_flat_nil in Ht by done.
  cbn [with_pending w_tree]. destruct (apply_trees (w_tree w) (c :: css)) as [[e|] t'] eqn:E; [done|].
  intros [= <-]. apply apply_trees_ok in E. rewrite Ht in E. pose proof (ApplyChangeSets_known _ _ _ W E) as F.
  rewrite ApplyChangeSets_flat in E by done. apply Ok_inj in E as <-.
  constructor; cbn [with_tree with_pending w_tree w_pending]; [done|by rewrite P2| |congruence].
  intros n (c' & -> & Hc)%list_elem_of_fmap. rewrite P2 in Hc. rewrite Forall_forall in F. by apply F.
Qed.

(** A block: calls of [ApplyUpgrades], then calls that change stores. *)
Inductive change_op : Type :=
| OpSets (css : list NamedChangeSet)
| OpSet (n : name) (cs : ChangeSet).

Definition run_op (w : Working) (o : change_op) : outcome :=
  match o with
  | OpSets css => dbApplyChangeSets w css
  | OpSet n cs => dbApplyChangeSet w n cs
  end.

Fixpoint run_all {A} (f : Working -> A -> outcome) (w : Working) (l : list A) : outcome :=
  match l with
  | [] => (None, w)
  | x :: l => match f w x with (None, w) => run_all f w l | r => r end
  end.

Lemma work_ops t us ops : mt_wf t -> forall w w',
  work_ok t us w -> run_all run_op w ops = (None, w') -> work_ok t us w'.
Proof.
  intros W. induction ops as [|o ops IH]; intros w w' Hw; simpl; [by intros [= <-]|].
  destruct (run_op w o) as [[e|] w1] eqn:E; [done|]. apply IH. destruct o; simpl in E.
  - by eapply work_changes.
  - by eapply work_change.
Qed.

(** A multi-tree is determined by its map of trees and the other fields. *)
Lemma forest_inj ts ts' : names_sorted ts -> names_sorted ts' -> forest ts = forest ts' -> ts = ts'.
Proof.
  intros S S' E. rewrite <- (sort_by_name_id ts S). apply sort_perm_id; [done|].
  apply NoDup_Permutation.
  - apply (NoDup_fmap_1 nt_name). by apply strict_nodup.
  - apply (NoDup_fmap_1 nt_name). by apply strict_nodup.
  - intros [n t]. rewrite <- !forest_lookup by by apply strict_nodup. by rewrite E.
Qed.

Lemma map_upgrades_app new m us us' :
  map_upgrades new m (us ++ us') = let? m := map_upgrades new m us in map_upgrades new m us'.
Proof.
  revert m. induction us as [|u us IH]; intros m; simpl; [done|].
  destruct (map_upgrade new m u) as [m1|]; cbn [mbind option_bind]; [apply IH|done].
Qed.

Lemma ApplyUpgrades_fields t us t' : ApplyUpgrades t us = Ok t' ->
  initialVersion t' = initialVersion t /\ lastCommitInfo t' = lastCommitInfo t /\ metadataInfo t' = metadataInfo t.
Proof.
  unfold ApplyUpgrades. destruct us as [|u us]; [by intros <-%Ok_inj|].
  rewrite res_bind_ok. intros (ts & _ & E). rewrite res_bind_ok in E. destruct E as (m & _ & E).
  by apply Ok_inj in E as <-.
Qed.

(** Upgrades in two calls are the upgrades in one. *)
Lemma ApplyUpgrades_app t us us' new m t1 t2 : mt_wf t ->
  vtNew (u32 (nextVersion (MTVersion t) (initialVersion t))) = Ok new ->
  map_upgrades new (forest (trees t)) (us ++ us') = Some m ->
  ApplyUpgrades t us = Ok t1 -> ApplyUpgrades t1 us' = Ok t2 -> ApplyUpgrades t (us ++ us') = Ok t2.
Proof.
  intros W Hn Hm E1 E2. destruct (ApplyUpgrades_map t _ new m W Hn Hm) as (t3 & E3 & F3). rewrite E3. f_equal.
  rewrite map_upgrades_app in Hm. destruct (map_upgrades new (forest (trees t)) us) as [m1|] eqn:Hm1; [|done].
  cbn [mbind option_bind] in Hm. destruct (ApplyUpgrades_map t us new m1 W Hn Hm1) as (t1' & E1' & F1).
  assert (t1' = t1) as -> by congruence. clear E1'.
  destruct (ApplyUpgrades_fields _ _ _ E1) as (A1 & B1 & C1).
  pose proof (ApplyUpgrades_wf _ _ _ W E1) as W1. pose proof (ApplyUpgrades_wf _ _ _ W1 E2) as W2.
  pose proof (ApplyUpgrades_wf _ _ _ W E3) as W3.
  destruct (ApplyUpgrades_map t1 us' new m W1) as (t2' & E2' & F2).
  { unfold MTVersion in *. by rewrite A1, B1. }
  { by rewrite F1. }
  assert (t2' = t2) as -> by congruence. clear E2'.
  destruct (ApplyUpgrades_fields _ _ _ E2) as (A2 & B2 & C2). destruct (ApplyUpgrades_fields _ _ _ E3) as (A3 & B3 & C3).
  assert (trees t3 = trees t2) as Et.
  { apply forest_inj; [apply W3|apply W2|congruence]. }
  assert (treesByName t3 = treesByName t2) as Ei.
  { eapply index_unique; [apply W3|]. rewrite Et. apply W2. }
  destruct t3, t2; simpl in *; subst. f_equal; congruence.
Qed.

Lemma run_upgrades_ok t uss : forall pre w w' new m,
  mt_wf t -> w_readOnly w = false -> vtNew (u32 (nextVersion (MTVersion t) (initialVersion t))) = Ok new ->
  map_upgrades new (forest (trees t)) (pre ++ concat uss) = Some m ->
  ApplyUpgrades t pre = Ok (w_tree w) -> p_sets (w_pending w) = [] -> p_upgrades (w_pending w) = pre ->
  run_all dbApplyUpgrades w uss = (None, w') ->
  ApplyUpgrades t (pre ++ concat uss) = Ok (w_tree w') /\ p_sets (w_pending w') = [] /\
  p_upgrades (w_pending w') = pre ++ concat uss.
Proof.
  induction uss as [|us uss IH]; intros pre w w' new m W Hr Hn Hm E Es Eu; simpl.
  - intros [= <-]. rewrite app_nil_r. done.
  - unfold dbApplyUpgrades at 1. rewrite Hr. destruct (ApplyUpgrades (w_tree w) us) as [t1| |] eqn:E1; [|done..].
    simpl in Hm. rewrite app_assoc in Hm |- *. intros Hrun. eapply IH; [done| |done|done| | | |exact Hrun]; [done| |done|simpl; by rewrite Eu].
    cbn [w_tree with_pending with_tree]. rewrite map_upgrades_app in Hm.
    destruct (map_upgrades new (forest (trees t)) (pre ++ us)) as [m1|] eqn:Hm1; [|done].
    by apply (ApplyUpgrades_app t pre us new m1 (w_tree w) t1).
Qed.

Lemma pending_replays (t : MultiTree) (w w1 w2 : Working) (uss : list (list TreeNameUpgrade))
  (ops : list change_op) (new : VTree) (m : gmap name VTree)
  (W : mt_wf t) (Ht : w_tree w = t) (Hr : w_readOnly w = false)
  (Hs : p_sets (w_pending w) = []) (Hu : p_upgrades (w_pending w) = [])
  (Hn : vtNew (u32 (nextVersion (MTVersion t) (initialVersion t))) = Ok new)
  (Hm : map_upgrades new (forest (trees t)) (concat uss) = Some m)
  (E1 : run_all dbApplyUpgrades w uss = (None, w1)) (E2 : run_all run_op w1 ops = (None, w2)) :
  applyWALEntry t (pendingLog (w_pending w2)) = Ok (w_tree w2).
Proof.
  destruct (run_upgrades_ok t uss [] w w1 new m W Hr Hn Hm) as (Ea & Es & Eu); [by subst t|done..|].
  simpl in Ea, Eu. pose proof (ApplyUpgrades_wf _ _ _ W Ea) as W1.
  assert (work_ok (w_tree w1) (concat uss) w1) as H1.
  { constructor; [constructor; rewrite Es; [constructor|constructor|done]| | |done].
    - rewrite (view_nil _ Es). symmetry. by apply apply_flat_nil.
    - rewrite (view_nil _ Es). by intros n ?%elem_of_nil. }
  destruct (work_ops _ _ _ W1 _ _ H1 E2) as [Hp Htr Hk Hup].
  unfold applyWALEntry. change (we_upgrades (pendingLog (w_pending w2))) with (p_upgrades (w_pending w2)).
  rewrite Hup, Ea. cbn [res_bind]. rewrite Htr. apply ApplyChangeSets_flat; [done|].
  apply Forall_forall. intros c Hc. apply Hk. apply list_elem_of_fmap. by exists c.
Qed.


Lemma run_all_readOnly {A} (f : Working -> A -> outcome) :
  (forall w x, w_readOnly (f w x).2 = w_readOnly w) -> forall l w, w_readOnly (run_all f w l).2 = w_readOnly w.
Proof.
  intros H. induction l as [|x l IH]; intros w; [done|]. simpl. specialize (H w x).
  destruct (f w x) as [[e|] w1]; [done|]. by rewrite IH.
Qed.

Lemma upgrades_readOnly w us : w_readOnly (dbApplyUpgrades w us).2 = w_readOnly w.
Proof. unfold dbApplyUpgrades. destruct (w_readOnly w) eqn:E; [done|]. by destruct (ApplyUpgrades _ _). Qed.

Lemma change_readOnly w n cs : w_readOnly (applyChangeSet w n cs).2 = w_readOnly w.
Proof.
  unfold applyChangeSet. destruct cs; [done|]. destruct (w_readOnly w) eqn:E; [done|].
  destruct (recordChangeSet _ _ _); [|done..]. unfold apply_to_tree. by destruct (MTApplyChangeSet _ _ _).
Qed.

Lemma op_readOnly w o : w_readOnly (run_op w o).2 = w_readOnly w.
Proof.
  destruct o as [css|n cs]; simpl; [|apply change_readOnly]. unfold dbApplyChangeSets. destruct css as [|c css]; [done|].
  destruct (w_readOnly w) eqn:E; [done|]. destruct (p_sets (w_pending w)).
  - by destruct (apply_trees _ _).
  - rewrite <- E. generalize (c :: css). clear. intros l. revert w. induction l as [|c l IH]; intros w; [done|]. simpl.
    pose proof (change_readOnly w (ncs_name c) (ncs_changeset c)) as H.
    destruct (applyChangeSet _ _ _) as [[e|] w1]; [done|]. by rewrite IH.
Qed.

(** ** Properties *)

(** C9: Between two commits the pending log always replays to the working state:
    after calls of [ApplyUpgrades] that make sense and then any calls of
    [ApplyChangeSets] and [ApplyChangeSet], in whatever order and with however
    many change sets per store, applying the pending log to the multi-tree of
    the last commit, as recovery does, gives exactly the current multi-tree. *)
Theorem pending_log_replays (t : MultiTree) (w w1 w2 : Working) (uss : list (list TreeNameUpgrade))
  (ops : list change_op) (new : VTree) (m : gmap name VTree)
  (W : mt_wf t) (Ht : w_tree w = t) (Hr : w_readOnly w = false)
  (Hs : p_sets (w_pending w) = []) (Hu : p_upgrades (w_pending w) = [])
  (Hn : vtNew (u32 (nextVersion (MTVersion t) (initialVersion t))) = Ok new)
  (Hm : map_upgrades new (forest (trees t)) (concat uss) = Some m)
  (E1 : run_all dbApplyUpgrades w uss = (None, w1)) (E2 : run_all run_op w1 ops = (None, w2)) :
  applyWALEntry t (pendingLog (w_pending w2)) = Ok (w_tree w2).
Proof. by apply (pending_replays t w w1 w2 uss ops new m). Qed.

Definition fresh_db : Working := mkWorking false (NewEmptyMultiTree 5) NewPending.
Definition sample_upgrades : list (list TreeNameUpgrade) := [[mkUpgrade name_b [] false]; [mkUpgrade name_a [] false]].
Definition sample_ops : list change_op :=
  [OpSets [mkNamedCS name_b [mkKVPair false [z2b 1] (Some [z2b 10])]];
   OpSet name_a [mkKVPair false [z2b 2] (Some [z2b 20])];
   OpSets [mkNamedCS name_b [mkKVPair true [z2b 1] None; mkKVPair false [z2b 3] (Some [])]]].

Lemma pending_log_replays_witness :
  applyWALEntry (NewEmptyMultiTree 5)
    (pendingLog (w_pending (run_all run_op (run_all dbApplyUpgrades fresh_db sample_upgrades).2 sample_ops).2)) =
  Ok (w_tree (run_all run_op (run_all dbApplyUpgrades fresh_db sample_upgrades).2 sample_ops).2).
Proof.
  eapply (pending_log_replays (NewEmptyMultiTree 5) fresh_db (run_all dbApplyUpgrades fresh_db sample_upgrades).2 _
    sample_upgrades sample_ops (mkVTree 4 None)); try reflexivity.
  split; [constructor|]. intros n i. simpl. rewrite lookup_empty. naive_solver.
Defined.

(** A change set for an unknown store is refused, but stays in the pending
    log: the next commit would write an entry that replay refuses. *)
Lemma refused_change_stays_pending :
  let (e, w) := dbApplyChangeSet fresh_db name_a [mkKVPair false [z2b 1] (Some [])] in
  e = Some "unknown tree name" /\ w_tree w = NewEmptyMultiTree 5 /\
  applyWALEntry (NewEmptyMultiTree 5) (pendingLog (w_pending w)) = Err "unknown tree name".
Proof. by vm_compute. Qed.
