(* ===== verification/Db.v ===== *)
(** The database: [memiavl/db.go], commits, the asynchronous log writer, the
    background snapshot rewrite and recovery.

    The write-ahead log ([tidwall/wal]) is an interface with the laws its
    documentation states; the encoding of log entries is a parameter.  The log
    writer is a step of its own that takes entries from the queue whenever it
    is scheduled; an operation that waits for it is given the schedule.

    Theorems: the log and the queue always hold exactly the committed entries,
    in order; recovery from any snapshot that the log still covers gives the
    live state; switching to a rewritten snapshot changes no tree. *)
From stdpp Require Import prelude strings gmap fin_maps.
From Stdlib Require Import ZArith Lia.
From S2P Require Import Prelude OrdMap Codec Node Hash Tree TreeSpec MultiTree Pending.
Local Open Scope Z_scope.

(** ** The log as the database uses it *)

Class Log (L : Type) := {
  walFirstIndex : L -> Z;
  walLastIndex : L -> Z;
  walRead : L -> Z -> res bytes;
  walWriteBatch : L -> list (Z * bytes) -> res L;
  walTruncateFront : L -> Z -> res L;
  walTruncateBack : L -> Z -> res L;
}.

(** A batch of data with consecutive indices. *)
Fixpoint indexed {A} (i : Z) (ds : list A) : list (Z * A) :=
  match ds with
  | [] => []
  | d :: ds => (i, d) :: indexed (i + 1) ds
  end.

(** The log holds entries after the index [base]; a log without entries starts
    at 1.  A write may fail for reasons outside the program; cutting the log
    outside its range fails. *)
Class LogLaws (L : Type) `{!Log L} := {
  base : L -> Z;
  entries : L -> list bytes;
  law_base : forall l, 0 <= base l;
  law_empty : forall l, entries l = [] -> base l = 0;
  law_first : forall l, walFirstIndex l = if decide (entries l = []) then 0 else base l + 1;
  law_last : forall l, walLastIndex l = base l + len (entries l);
  law_read : forall l i d, base l < i -> entries l !! Z.to_nat (i - base l - 1) = Some d -> walRead l i = Ok d;
  law_write : forall l l' ds, walWriteBatch l (indexed (walLastIndex l + 1) ds) = Ok l' ->
    base l' = base l /\ entries l' = entries l ++ ds;
  law_front : forall l l' i, walTruncateFront l i = Ok l' -> base l < i <= base l + len (entries l) /\
    base l' = i - 1 /\ entries l' = drop (Z.to_nat (i - 1 - base l)) (entries l);
  law_back : forall l l' i, walTruncateBack l i = Ok l' -> base l < i <= base l + len (entries l) /\
    base l' = base l /\ entries l' = take (Z.to_nat (i - base l)) (entries l);
}.

Inductive rewriteResult : Type :=
| RNone
| RErr (e : string)
| RTree (t : MultiTree).

Definition errAsyncWriterQuit : string := "async wal writing goroutine quit unexpectedly".
Definition errSyncWALWrite : string := "sync wal write failed".

Section DB.
Context {L : Type} `{!Log L} (sha256 : bytes -> bytes).
(** [WALEntry.Marshal] and [WALEntry.Unmarshal]. *)
Context (marshal : WALEntry -> res bytes) (unmarshal : bytes -> res WALEntry).

(** [db_work] holds the multi-tree, the mode and the pending log; [db_wal] is
    the log, nil after [Close]; [db_walChan] is the queue, nil before the
    first asynchronous commit; [db_walQuit] says that the writer has exited;
    [db_rewrite] is the result channel of the snapshot rewrite: nil, waiting,
    or with a result. *)
Record DB : Type := mkDB {
  db_work : Working;
  db_retired : option MultiTree;
  db_wal : option L;
  db_walWriter : bool;
  db_walChanSize : Z;
  db_walChan : option (list (Z * WALEntry));
  db_walQuit : bool;
  db_walErr : option string;
  db_snapshotInterval : Z;
  db_catchupTimeout : Z;
  db_rewrite : option (option rewriteResult);
}.

Definition db_tree (d : DB) : MultiTree := w_tree (db_work d).
Definition set_work (d : DB) (w : Working) : DB :=
  mkDB w (db_retired d) (db_wal d) (db_walWriter d) (db_walChanSize d) (db_walChan d) (db_walQuit d)
    (db_walErr d) (db_snapshotInterval d) (db_catchupTimeout d) (db_rewrite d).
Definition set_wal (d : DB) (l : option L) : DB :=
  mkDB (db_work d) (db_retired d) l (db_walWriter d) (db_walChanSize d) (db_walChan d) (db_walQuit d)
    (db_walErr d) (db_snapshotInterval d) (db_catchupTimeout d) (db_rewrite d).
Definition set_chan (d : DB) (c : option (list (Z * WALEntry))) (quit : bool) : DB :=
  mkDB (db_work d) (db_retired d) (db_wal d) (db_walWriter d) (db_walChanSize d) c quit
    (db_walErr d) (db_snapshotInterval d) (db_catchupTimeout d) (db_rewrite d).
Definition set_rewrite (d : DB) (r : option (option rewriteResult)) : DB :=
  mkDB (db_work d) (db_retired d) (db_wal d) (db_walWriter d) (db_walChanSize d) (db_walChan d) (db_walQuit d)
    (db_walErr d) (db_snapshotInterval d) (db_catchupTimeout d) r.

(** The first error is kept. *)
Definition latchWalErr (d : DB) (e : string) : DB :=
  mkDB (db_work d) (db_retired d) (db_wal d) (db_walWriter d) (db_walChanSize d) (db_walChan d) (db_walQuit d)
    (match db_walErr d with None => Some e | e' => e' end)
    (db_snapshotInterval d) (db_catchupTimeout d) (db_rewrite d).

(** ** Writing the log *)

(** An entry that the log already has is skipped. *)
Definition writeEntry (batch : list (Z * bytes)) (lastIndex : Z) (entry : Z * WALEntry) : res (list (Z * bytes)) :=
  let* bz := marshal entry.2 in
  if entry.1 <=? lastIndex then Ok batch else Ok (batch ++ [(entry.1, bz)]).

Fixpoint writeEntries (batch : list (Z * bytes)) (lastIndex : Z) (es : list (Z * WALEntry)) : res (list (Z * bytes)) :=
  match es with
  | [] => Ok batch
  | e :: es => let* batch := writeEntry batch lastIndex e in writeEntries batch lastIndex es
  end.

Definition writeWALSync (l : L) (entry : Z * WALEntry) : res L :=
  let* batch := writeEntry [] (walLastIndex l) entry in walWriteBatch l batch.

(** One round of [writeWALAsync] with the [k] entries that it received. *)
Definition writer_round (l : L) (es : list (Z * WALEntry)) : res L :=
  let* batch := writeEntries [] (walLastIndex l) es in walWriteBatch l batch.

(** The writer, scheduled once: it takes up to [k] entries that are queued. *)
Definition writer_step (k : nat) (d : DB) : DB :=
  match db_walChan d, db_wal d with
  | Some q, Some l =>
      if db_walQuit d then d
      else
        match take k q with
        | [] => d
        | es =>
            match writer_round l es with
            | Ok l' => set_chan (set_wal d (Some l')) (Some (drop k q)) false
            | Err e | Panic e =>
                set_chan (latchWalErr d (errAsyncWriterQuit ++ ": " ++ e)%string) (Some (drop k q)) true
            end
        end
  | _, _ => d
  end.

(** [waitAsyncCommit]: close the channel and wait for the writer; [rounds] says
    how the writer groups what is left, the last round takes the rest. *)
Definition waitAsyncCommit (rounds : list nat) (d : DB) : option string * DB :=
  match db_walChan d with
  | None => (db_walErr d, d)
  | Some _ =>
      let d := fold_left (fun d k => writer_step k d) rounds d in
      let d := writer_step (length (default [] (db_walChan d))) d in
      let d := set_chan d None false in
      (db_walErr d, d)
  end.

(** ** Waiting for the log *)

Definition committedVersionAt (lastIndex initialVersion snapshotVersion : Z) : Z :=
  if lastIndex =? 0 then snapshotVersion else walVersion lastIndex initialVersion.

Definition CommittedVersion (d : DB) : res Z :=
  match db_wal d with
  | None => Err "log closed"
  | Some l => Ok (committedVersionAt (walLastIndex l) (initialVersion (db_tree d)) (SnapshotVersion (db_tree d)))
  end.

(** The polls: what the writer did before each, and the time.  [None] means
    that the loop is still waiting after the last poll. *)
Fixpoint wal_poll (version iv sv : Z) (polls : list (nat * Z)) (deadline seen : Z) (d : DB)
  : option (option string * DB) :=
  match polls with
  | [] => None
  | (k, now) :: polls =>
      let d := writer_step k d in
      match db_walErr d, db_wal d with
      | Some e, _ => Some (Some e, d)
      | None, None => Some (Some "get wal version failed", d)
      | None, Some l =>
          let lastIndex := walLastIndex l in
          if version <=? committedVersionAt lastIndex iv sv then Some (None, d)
          else
            let '(seen, deadline) :=
              if seen <? lastIndex then (lastIndex, now + db_catchupTimeout d) else (seen, deadline) in
            if deadline <? now then Some (Some "timed out waiting for wal to catch up", d)
            else wal_poll version iv sv polls deadline seen d
      end
  end.

Definition waitForWAL (version iv sv : Z) (start : Z) (polls : list (nat * Z)) (d : DB) : option (option string * DB) :=
  if (version <? iv) || (version <=? 0) then Some (db_walErr d, d)
  else wal_poll version iv sv polls (start + db_catchupTimeout d) 0 d.

(** The schedule of a waiting operation: its start time and the polls. *)
Definition schedule : Type := (Z * list (nat * Z))%type.

Definition waitCommittedVersion (s : schedule) (version : Z) (d : DB) : option (option string * DB) :=
  match db_wal d with
  | None => Some (Some "wal is not initialized", d)
  | Some _ => waitForWAL version (initialVersion (db_tree d)) (SnapshotVersion (db_tree d)) s.1 s.2 d
  end.

(** ** Replacing the multi-tree *)

Definition log_source (l : L) : walReader :=
  mkReader (walLastIndex l) (fun i => let* b := walRead l i in unmarshal b).

Definition reloadMultiTree (d : DB) (t : MultiTree) : option string * DB :=
  match applyWALEntry t (pendingLog (w_pending (db_work d))) with
  | Ok t' =>
      (None, mkDB (with_tree (db_work d) t') (Some (db_tree d)) (db_wal d) (db_walWriter d) (db_walChanSize d)
               (db_walChan d) (db_walQuit d) (db_walErr d) (db_snapshotInterval d) (db_catchupTimeout d) (db_rewrite d))
  | Err e | Panic e => (Some e, d)
  end.

Definition checkBackgroundSnapshotRewrite (s : schedule) (d : DB) : option (option string * DB) :=
  match db_rewrite d with
  | Some (Some r) =>
      let d := set_rewrite d None in
      match r with
      | RNone => Some (None, d)
      | RErr e => Some (Some ("background snapshot rewriting failed: " ++ e)%string, d)
      | RTree t =>
          let? (err, d) := waitCommittedVersion s (MTVersion (db_tree d)) d in
          match err, db_wal d with
          | Some e, _ => Some (Some e, d)
          | None, None => Some (Some "log closed", d)
          | None, Some l =>
              match catchupWAL sha256 t (log_source l) 0 with
              | Ok t => Some (reloadMultiTree d t)
              | Err e | Panic e => Some (Some ("final catchup failed: " ++ e)%string, d)
              end
          end
      end
  | _ => Some (None, d)
  end.

(** [rewriteSnapshotBackground]: the work of the goroutine arrives later. *)
Definition rewriteSnapshotBackground (d : DB) : option string * DB :=
  match db_rewrite d with
  | Some _ => (Some "there's another ongoing snapshot rewriting process", d)
  | None => (None, set_rewrite d (Some None))
  end.

Definition rewriteIfApplicable (height : Z) (d : DB) : DB :=
  if negb (Z.rem height (db_snapshotInterval d) =? 0) then d else snd (rewriteSnapshotBackground d).

(** The goroutine: write the snapshot of the copy taken when it was started,
    load it, and catch up with the log as it is then. *)
Definition rewrite_goroutine (cancelled : Z -> bool) (cancelledAtEnd : bool) (copied : MultiTree) (l : L) : rewriteResult :=
  match MTWriteSnapshot sha256 cancelled cancelledAtEnd copied with
  | Ok dir =>
      match LoadMultiTree sha256 dir with
      | Ok t =>
          match catchupWAL sha256 t (log_source l) 0 with
          | Ok t => RTree t
          | Err e | Panic e => RErr e
          end
      | Err e | Panic e => RErr e
      end
  | _ => RNone
  end.

(** The result arrives in the channel. *)
Definition deliver (r : rewriteResult) (d : DB) : DB :=
  match db_rewrite d with
  | Some None => set_rewrite d (Some (Some r))
  | _ => d
  end.

(** ** Commit *)

Definition logCommit (v : Z) (d : DB) : option string * DB :=
  match db_walWriter d, db_wal d with
  | true, Some l =>
      let entry := (walIndex v (initialVersion (db_tree d)), pendingLog (w_pending (db_work d))) in
      if 0 <=? db_walChanSize d then
        let d := match db_walChan d with None => set_chan d (Some []) false | Some _ => d end in
        if db_walQuit d then let d := latchWalErr d errAsyncWriterQuit in (db_walErr d, d)
        else (None, set_chan d (Some (default [] (db_walChan d) ++ [entry])) false)
      else
        match writeWALSync l entry with
        | Ok l' => (None, set_wal d (Some l'))
        | Err e | Panic e => let d := latchWalErr d (errSyncWALWrite ++ ": " ++ e)%string in (db_walErr d, d)
        end
  | _, _ => (None, d)
  end.

Definition Commit (s : schedule) (d : DB) : option (res Z * DB) :=
  if w_readOnly (db_work d) then Some (Err errReadOnly, d)
  else
    match db_walErr d with
    | Some e => Some (Err e, d)
    | None =>
        match MTSaveVersion sha256 (db_tree d) true with
        | Err e => Some (Err e, d)
        | Panic m => Some (Panic m, d)
        | Ok (v, t) =>
            let d := set_work d (with_tree (db_work d) t) in
            match logCommit v d with
            | (Some e, d) => Some (Err e, d)
            | (None, d) =>
                let d := set_work d (with_pending (db_work d) (clearPending (w_pending (db_work d)))) in
                let walError := db_walErr d in
                let? (err, d) := checkBackgroundSnapshotRewrite s d in
                match walError, err with
                | None, None => Some (Ok v, rewriteIfApplicable v d)
                | Some e, _ | None, Some e => Some (Err e, d)
                end
            end
        end
    end.

(** [Close]; a rewrite under way is cancelled, its tree released. *)
Definition dbClose (rounds : list nat) (d : DB) : option string * DB :=
  let (err, d) := waitAsyncCommit rounds d in
  (err, mkDB (with_tree (db_work d) (MTClose (db_tree d))) None None false (db_walChanSize d) (db_walChan d)
          (db_walQuit d) (db_walErr d) (db_snapshotInterval d) (db_catchupTimeout d) None).

(** [Copy]: a database without log, queue or pending changes. *)
Definition dbCopy (d : DB) : DB :=
  mkDB (mkWorking false (MTCopy (db_tree d)) NewPending) None None false 0 None false None 0 0 None.

End DB.

(** ** Snapshot metadata does not influence the trees *)

Definition with_meta (m : CommitInfo) (t : MultiTree) : MultiTree :=
  mkMulti (initialVersion t) (trees t) (treesByName t) (lastCommitInfo t) m.

Definition res_map {A B} (f : A -> B) (r : res A) : res B := let* a := r in Ok (f a).

Lemma res_map_bind {A B C} (f : A -> B) (r : res A) (g : B -> res C) :
  res_bind (res_map f r) g = res_bind r (fun a => g (f a)).
Proof. by destruct r. Qed.

Lemma res_bind_map {A B C} (r : res A) (g : A -> res B) (f : B -> C) :
  res_map f (res_bind r g) = res_bind r (fun a => res_map f (g a)).
Proof. by destruct r. Qed.

Lemma res_bind_ext {A B} (r : res A) (f g : A -> res B) : (forall a, f a = g a) -> res_bind r f = res_bind r g.
Proof. intros H. destruct r; simpl; auto. Qed.

Lemma ApplyUpgrades_meta m t us : ApplyUpgrades (with_meta m t) us = res_map (with_meta m) (ApplyUpgrades t us).
Proof.
  unfold ApplyUpgrades. destruct us as [|u us]; [done|]. rewrite res_bind_map. apply res_bind_ext. intros ts.
  rewrite res_bind_map. by apply res_bind_ext.
Qed.

Lemma MTApplyChangeSet_meta m t n cs :
  MTApplyChangeSet (with_meta m t) n cs = res_map (with_meta m) (MTApplyChangeSet t n cs).
Proof.
  unfold MTApplyChangeSet. cbn [with_meta treesByName trees]. destruct (treesByName t !! n) as [i|]; [|done].
  by destruct (trees t !! i).
Qed.

Lemma applyWALEntry_meta m t e : applyWALEntry (with_meta m t) e = res_map (with_meta m) (applyWALEntry t e).
Proof.
  unfold applyWALEntry. rewrite ApplyUpgrades_meta, res_map_bind, res_bind_map. apply res_bind_ext. clear t. intros t.
  revert t. induction (we_changesets e) as [|cs css IH]; intros t; [done|]. simpl.
  rewrite MTApplyChangeSet_meta, res_map_bind, res_bind_map. apply res_bind_ext. exact IH.
Qed.

Section Recovery.
Context (sha256 : bytes -> bytes).

Lemma MTSaveVersion_meta m t b :
  MTSaveVersion sha256 (with_meta m t) b = res_map (fun p => (p.1, with_meta m p.2)) (MTSaveVersion sha256 t b).
Proof. unfold MTSaveVersion. cbn [with_meta trees]. destruct (existsb _ (trees t)); [done|]. by destruct b. Qed.

Lemma replay_entry_meta m t e :
  replay_entry sha256 (with_meta m t) e = res_map (with_meta m) (replay_entry sha256 t e).
Proof.
  unfold replay_entry. rewrite applyWALEntry_meta, res_map_bind, res_bind_map. apply res_bind_ext. intros t1.
  rewrite MTSaveVersion_meta, res_map_bind, res_bind_map. apply res_bind_ext. by intros [v t2].
Qed.

Lemma live_entry_meta m t e :
  live_entry sha256 (with_meta m t) e = res_map (with_meta m) (live_entry sha256 t e).
Proof.
  unfold live_entry. rewrite applyWALEntry_meta, res_map_bind, res_bind_map. apply res_bind_ext. intros t1.
  rewrite MTSaveVersion_meta, res_map_bind, res_bind_map. apply res_bind_ext. by intros [v t2].
Qed.

Lemma catchupWAL_meta m t r e :
  catchupWAL sha256 (with_meta m t) r e = res_map (with_meta m) (catchupWAL sha256 t r e).
Proof.
  unfold catchupWAL. destruct (e <? 0); [done|]. cbn [with_meta initialVersion MTVersion lastCommitInfo].
  destruct (_ <? _); [done|]. destruct (_ <? _); [done|]. rewrite res_bind_map.
  assert (forall k i t, replay_from sha256 k r i (with_meta m t) = res_map (with_meta m) (replay_from sha256 k r i t)) as H.
  { induction k as [|k IH]; intros i t1; [done|]. simpl. rewrite res_bind_map. apply res_bind_ext. intros e1.
    rewrite replay_entry_meta, res_map_bind, res_bind_map. apply res_bind_ext. intros t2. apply IH. }
  rewrite H, res_map_bind. done.
Qed.

(** ** Replay from another reader *)

(** Entries that act alike on every multi-tree. *)
Definition same_entry (e e' : WALEntry) : Prop := forall t, applyWALEntry t e' = applyWALEntry t e.

Lemma replay_ext r r' k : forall i t,
  (forall j, i <= j < i + Z.of_nat k -> exists e e', ReadEntry r j = Ok e /\ ReadEntry r' j = Ok e' /\ same_entry e e') ->
  replay_from sha256 k r' i t = replay_from sha256 k r i t.
Proof.
  induction k as [|k IH]; intros i t H; [done|]. simpl.
  destruct (H i) as (e & e' & -> & -> & Hs); [lia|]. cbn [res_bind]. unfold replay_entry. rewrite Hs.
  apply res_bind_ext. intros t1. apply IH. intros j Hj. apply H. lia.
Qed.

Lemma catchup_ext r r' t :
  LastIndex r' = LastIndex r -> 
  (forall j, walIndex (nextVersion (MTVersion t) (initialVersion t)) (initialVersion t) <= j <= LastIndex r ->
     exists e e', ReadEntry r j = Ok e /\ ReadEntry r' j = Ok e' /\ same_entry e e') ->
  catchupWAL sha256 t r' 0 = catchupWAL sha256 t r 0.
Proof.
  intros HL H. unfold catchupWAL. rewrite HL. cbn [Z.ltb Z.eqb Z.compare]. rewrite Z.min_id.
  destruct (Z.ltb_spec (LastIndex r) (walIndex (nextVersion (MTVersion t) (initialVersion t)) (initialVersion t))); [done|].
  f_equal. apply replay_ext. intros j Hj. apply H. lia.
Qed.
End Recovery.

(** What the wire format keeps of an entry: an empty value reads back as nil. *)
Definition wire_pair (p : KVPair) : KVPair :=
  mkKVPair (p_delete p) (p_key p) (match p_value p with Some [] => None | v => v end).
Definition wire (e : WALEntry) : WALEntry :=
  mkEntry ((fun c => mkNamedCS (ncs_name c) (wire_pair <$> ncs_changeset c)) <$> we_changesets e) (we_upgrades e).

Lemma vtApply_wire t cs : vtApply t (wire_pair <$> cs) = vtApply t cs.
Proof.
  unfold vtApply, pure_apply. f_equal. generalize (vt_root t) as o. induction cs as [|p cs IH]; intros o; [done|].
  rewrite fmap_cons. cbn [fold_left]. rewrite IH. f_equal. unfold pure_pair, wire_pair. simpl.
  by destruct (p_value p) as [[|]|].
Qed.

Lemma wire_same e : same_entry e (wire e).
Proof.
  intros t. unfold applyWALEntry, wire. cbn [we_upgrades we_changesets]. apply res_bind_ext. clear t. intros t.
  revert t. induction (we_changesets e) as [|c css IH]; intros t; [done|]. rewrite fmap_cons.
  cbn [ApplyChangeSets ncs_name ncs_changeset].
  assert (MTApplyChangeSet t (ncs_name c) (wire_pair <$> ncs_changeset c) = MTApplyChangeSet t (ncs_name c) (ncs_changeset c)) as ->.
  { unfold MTApplyChangeSet. destruct (treesByName t !! ncs_name c) as [i|]; [|done].
    destruct (trees t !! i); [|done]. f_equal. f_equal. apply list_alter_ext; [|done]. intros e' _. by rewrite vtApply_wire. }
  apply res_bind_ext. exact IH.
Qed.

(** ** The log holds the committed entries *)

Lemma indexed_app {A} (a b : list A) i : indexed i (a ++ b) = indexed i a ++ indexed (i + len a) b.
Proof.
  revert i. induction a as [|x a IH]; intros i; [by rewrite len_nil, Z.add_0_r|]. simpl. rewrite IH, len_cons.
  by rewrite Z.add_assoc.
Qed.

Lemma indexed_take {A} (l : list A) k : forall i, take k (indexed i l) = indexed i (take k l).
Proof. revert k. induction l as [|x l IH]; intros [|k] i; simpl; [done..|]. by rewrite IH. Qed.

Lemma indexed_drop {A} (l : list A) k : forall i, (k <= length l)%nat ->
  drop k (indexed i l) = indexed (i + Z.of_nat k) (drop k l).
Proof.
  revert k. induction l as [|x l IH]; intros [|k] i Hk; simpl in *; try (by rewrite ?Z.add_0_r); try lia.
  rewrite IH by lia. f_equal. lia.
Qed.

Lemma len_indexed {A} (l : list A) i : length (indexed i l) = length l.
Proof. revert i. induction l as [|x l IH]; intros i; simpl; [done|]. by rewrite IH. Qed.

Section Invariant.
Context {L : Type} `{!Log L, !LogLaws L} (sha256 : bytes -> bytes).
Context (marshal : WALEntry -> res bytes) (unmarshal : bytes -> res WALEntry).
(** The encoder accepts the entries in its range; decoding gives them back. *)
Context (encodable : WALEntry -> Prop).
Hypothesis marshal_ok : forall e, encodable e -> exists b, marshal e = Ok b.
Hypothesis unmarshal_ok : forall e b, marshal e = Ok b -> unmarshal b = Ok (wire e).

(** The first [m] of the committed entries are in the log, from the base on,
    the others are queued under their indices. *)
Record holds (l : L) (q : list (Z * WALEntry)) (es : list WALEntry) (bs : list bytes) (m : nat) : Prop := {
  h_marshal : Forall2 (fun e b => marshal e = Ok b) es bs;
  h_range : base l <= Z.of_nat m <= len es;
  h_log : entries l = drop (Z.to_nat (base l)) (take m bs);
  h_queue : q = indexed (Z.of_nat m + 1) (drop m es);
}.

Lemma holds_len l q es bs m : holds l q es bs m -> length bs = length es.
Proof. intros [F _ _ _]. symmetry. by apply Forall2_length in F. Qed.

Lemma holds_last l q es bs m : holds l q es bs m -> walLastIndex l = Z.of_nat m.
Proof.
  intros H. pose proof (holds_len _ _ _ _ _ H) as Hl. destruct H as [F [H1 H2] E _]. rewrite law_last, E.
  unfold len in *. rewrite length_drop, length_take. pose proof (law_base l). lia.
Qed.

(** The batch of entries that follow the log. *)
Lemma writeEntries_ok lastIndex es bs : Forall2 (fun e b => marshal e = Ok b) es bs -> forall i batch,
  lastIndex < i -> writeEntries marshal batch lastIndex (indexed i es) = Ok (batch ++ indexed i bs).
Proof.
  induction 1 as [|e b es bs Eb _ IH]; intros i batch Hi; [by rewrite app_nil_r|].
  cbn [indexed writeEntries]. unfold writeEntry. cbn [fst snd]. rewrite Eb. cbn [res_bind].
  destruct (Z.leb_spec i lastIndex); [lia|]. cbn [res_bind]. rewrite IH by lia. by rewrite <- app_assoc.
Qed.

Lemma holds_round l q es bs m k l' : holds l q es bs m ->
  writer_round marshal l (take k q) = Ok l' ->
  holds l' (drop k q) es bs (m + length (take k q)) /\ base l' = base l.
Proof.
  intros H E. pose proof (holds_last _ _ _ _ _ H) as Hla. pose proof (holds_len _ _ _ _ _ H) as Hlen.
  destruct H as [F [H1 H2] El ->]. unfold writer_round in E. rewrite indexed_take in E.
  rewrite (writeEntries_ok _ _ (take k (drop m bs))) in E by (try (by apply Forall2_take, Forall2_drop); lia).
  cbn [res_bind app] in E. rewrite <- Hla in E. apply law_write in E as [Eb Ee]. pose proof (law_base l) as Hb.
  split; [|done]. unfold len in *. rewrite indexed_take, len_indexed, length_take, length_drop.
  set (j := (k `min` (length es - m))%nat).
  assert (take k (drop m bs) = take j (drop m bs)) as Ek.
  { unfold j. rewrite <- Hlen, <- length_drop. destruct (decide (k <= length (drop m bs))%nat).
    - by rewrite Nat.min_l.
    - rewrite Nat.min_r by lia. by rewrite !take_ge by lia. }
  constructor; [done|rewrite Eb; unfold len, j; lia| |].
  - rewrite Ee, Eb, El, Ek. rewrite <- take_take_drop, drop_app_le; [done|]. rewrite length_take. lia.
  - destruct (decide (k <= length (drop m es))%nat) as [Hk|Hk].
    + rewrite length_drop in Hk. rewrite indexed_drop by (rewrite length_drop; lia). rewrite drop_drop.
      unfold j. rewrite Nat.min_l by lia. f_equal. lia.
    + rewrite length_drop in Hk. rewrite (drop_ge (indexed _ _)) by (rewrite len_indexed, length_drop; lia).
      rewrite (drop_ge es) by (unfold j; lia). done.
Qed.

(** A log that holds all entries of a prefix holds them as part of more. *)
Lemma holds_commit l q es bs m e : encodable e -> holds l q es bs m ->
  exists b, holds l (q ++ [(len es + 1, e)]) (es ++ [e]) (bs ++ [b]) m.
Proof.
  intros He H. pose proof (holds_len _ _ _ _ _ H) as Hlen. destruct H as [F [H1 H2] El ->].
  destruct (marshal_ok e He) as [b Eb]. exists b. unfold len in *. constructor.
  - apply Forall2_app; [done|]. by constructor.
  - unfold len. rewrite length_app. simpl. lia.
  - rewrite take_app_le by lia. done.
  - rewrite drop_app_le, indexed_app by lia. unfold len. rewrite length_drop. simpl.
    by replace (Z.of_nat m + 1 + Z.of_nat (length es - m)) with (Z.of_nat (length es) + 1) by lia.
Qed.

(** Reading the log. *)
Lemma holds_read l q es bs m j : holds l q es bs m -> base l < j <= Z.of_nat m ->
  exists e, es !! Z.to_nat (j - 1) = Some e /\ ReadEntry (log_source unmarshal l) j = Ok (wire e).
Proof.
  intros H Hj. pose proof (holds_len _ _ _ _ _ H) as Hlen. destruct H as [F [H1 H2] El _]. unfold len in *.
  pose proof (law_base l) as Hb. destruct (lookup_lt_is_Some_2 es (Z.to_nat (j - 1))) as [e He]; [lia|].
  exists e. split; [done|]. destruct (Forall2_lookup_l _ _ _ _ _ F He) as (b & Eb & Em). simpl.
  rewrite (law_read l j b); [by apply unmarshal_ok|lia|].
  rewrite El, lookup_drop, lookup_take_lt by lia. by replace (Z.to_nat (base l) + Z.to_nat (j - base l - 1))%nat with (Z.to_nat (j - 1)) by lia.
Qed.

(** Catching up from a state the log still covers gives the state after all
    entries of the log. *)
Lemma catchup_log l q es bs m t tk tm k mi :
  holds l q es bs m -> base_version (MTVersion t) (initialVersion t) -> initialVersion t < 2 ^ 32 -> len es < 2 ^ 62 ->
  base l <= Z.of_nat k <= Z.of_nat m ->
  run_entries (live_entry sha256) t (take k es) = Ok tk -> run_entries (live_entry sha256) t (take m es) = Ok tm ->
  catchupWAL sha256 (with_meta mi tk) (log_source unmarshal l) 0 = Ok (with_meta mi tm).
Proof.
  intros H Hb Hi Hn Hk Ek Em. rewrite catchupWAL_meta.
  assert (m <= length es)%nat as Hm by (destruct H as [_ [_ H2] _ _]; unfold len in H2; lia).
  assert (take k (take m es) = take k es) as Et by (rewrite take_take; f_equal; lia).
  assert (len (take m es) = Z.of_nat m) as Hlm by (unfold len; rewrite length_take; lia).
  rewrite (catchup_ext _ (log_reader (take m es))).
  - rewrite (catchup_all sha256 (take m es) t tk k Hb Hi) with (tn := tm); [done|unfold len in *; lia|rewrite length_take; lia|by rewrite Et|done].
  - simpl. rewrite Hlm. by apply holds_last in H.
  - intros j Hj. rewrite (catchup_first sha256 (take m es) t tk k Hb Hi) in Hj;
      [|unfold len in *; lia|rewrite length_take; lia|by rewrite Et].
    cbn [LastIndex log_reader] in Hj. rewrite Hlm in Hj.
    destruct (holds_read _ _ _ _ _ j H) as (e & He & Hr); [lia|]. exists e, (wire e).
    split_and!; [|done|apply wire_same]. simpl. rewrite lookup_take_lt by lia. by rewrite He.
Qed.

Lemma holds_prefix l q es bs m : holds l q es bs m -> holds l [] (take m es) (take m bs) m.
Proof.
  intros H. pose proof (holds_len _ _ _ _ _ H) as Hlen. destruct H as [F [H1 H2] El _]. unfold len in *.
  constructor.
  - by apply Forall2_take.
  - unfold len. rewrite length_take. lia.
  - rewrite take_take, Nat.min_id. done.
  - rewrite drop_ge; [done|]. rewrite length_take. lia.
Qed.

(** The database and its log: without an error, log and queue hold exactly
    the entries [es]; after an error, the log holds a beginning of them. *)
Definition log_inv (es : list WALEntry) (d : DB) : Prop :=
  exists l, db_wal d = Some l /\ db_walWriter d = true /\
  (db_walChanSize d < 0 -> db_walChan d = None) /\
  match db_walErr d with
  | None => db_walQuit d = false /\ exists bs m, holds l (default [] (db_walChan d)) es bs m
  | Some _ => (db_walChan d = None \/ db_walQuit d = true) /\
              exists es1 bs, es1 `prefix_of` es /\ holds l [] es1 bs (length es1)
  end.

(** What a step of the writer leaves alone. *)
Definition same_rest (d d' : @DB L) : Prop :=
  db_work d' = db_work d /\ db_retired d' = db_retired d /\ db_walChanSize d' = db_walChanSize d /\
  db_walWriter d' = db_walWriter d /\ db_rewrite d' = db_rewrite d /\
  db_snapshotInterval d' = db_snapshotInterval d /\ base <$> db_wal d' = base <$> db_wal d.

Lemma holds_error l q es bs m : holds l q es bs m ->
  exists es1 bs, es1 `prefix_of` es /\ holds l [] es1 bs (length es1).
Proof.
  intros H. pose proof (h_range _ _ _ _ _ H) as [_ Hm]. unfold len in Hm.
  exists (take m es), (take m bs). split; [exists (drop m es); by rewrite take_drop|].
  replace (length (take m es)) with m by (rewrite length_take; lia). by eapply holds_prefix.
Qed.

Lemma writer_step_inv k es d : log_inv es d -> log_inv es (writer_step marshal k d) /\ same_rest d (writer_step marshal k d).
Proof.
  intros (l & El & Ew & Hs & H). unfold writer_step. rewrite El.
  assert (log_inv es d) as Hd by (exists l; by split_and!).
  destruct (db_walChan d) as [q|] eqn:Eq; [|by repeat split].
  destruct (db_walQuit d) eqn:Equit; [by repeat split|].
  destruct (db_walErr d) eqn:Ee; [by destruct H as [[?|?] _]|]. destruct H as (_ & bs & m & H).
  destruct (take k q) as [|x xs] eqn:Et; [by repeat split|]. rewrite <- Et.
  assert (db_walChanSize d < 0 -> Some (drop k q) = None) as Hs' by (intros ?; specialize (Hs ltac:(done)); congruence).
  assert (forall e, log_inv es (set_chan (latchWalErr d e) (Some (drop k q)) true)) as Herr.
  { intros e. exists l. split_and!; [done..|]. simpl. rewrite Ee. split; [by right|]. by eapply holds_error. }
  destruct (writer_round marshal l (take k q)) as [l'|e|e] eqn:E; [|by split; [apply Herr|]..].
  destruct (holds_round _ _ _ _ _ _ _ H E) as [H' Hb]. split.
  - exists l'. split_and!; [done..|]. simpl. rewrite Ee. split; [done|]. by eexists bs, _.
  - unfold same_rest. simpl. rewrite El. simpl. by rewrite Hb.
Qed.

Lemma same_rest_trans d1 d2 d3 : same_rest d1 d2 -> same_rest d2 d3 -> same_rest d1 d3.
Proof. unfold same_rest. intros (?&?&?&?&?&?&?) (?&?&?&?&?&?&?). split_and!; congruence. Qed.

(** Waiting until the log has reached a version. *)
Lemma wal_poll_inv version iv sv polls : forall deadline seen d d' es,
  log_inv es d -> wal_poll marshal version iv sv polls deadline seen d = Some (None, d') ->
  log_inv es d' /\ same_rest d d' /\ db_walErr d' = None /\
  exists l, db_wal d' = Some l /\ version <= committedVersionAt (walLastIndex l) iv sv.
Proof.
  induction polls as [|[k now] polls IH]; intros deadline seen d d' es Hd; [done|]. cbn [wal_poll].
  destruct (writer_step_inv k es d Hd) as [H1 R1]. set (d1 := writer_step marshal k d) in *.
  destruct (db_walErr d1) eqn:Ee; [done|]. destruct (db_wal d1) as [l|] eqn:El; [|done].
  destruct (Z.leb_spec version (committedVersionAt (walLastIndex l) iv sv)).
  - intros [= <-]. split_and!; [done..|]. by exists l.
  - destruct (_ <? _); destruct (_ <? _); try done; intros E;
      (destruct (IH _ _ _ _ _ H1 E) as (A & B & C & D); split_and!; [done|by eapply same_rest_trans|done|done]).
Qed.

Lemma wal_poll_log version iv sv polls : forall deadline seen d r es,
  log_inv es d -> wal_poll marshal version iv sv polls deadline seen d = Some r -> log_inv es r.2.
Proof.
  induction polls as [|[k now] polls IH]; intros deadline seen d r es Hd; [done|]. cbn [wal_poll].
  destruct (writer_step_inv k es d Hd) as [H1 _]. set (d1 := writer_step marshal k d) in *.
  destruct (db_walErr d1); [by intros [= <-]|]. destruct (db_wal d1) as [l|]; [|by intros [= <-]].
  destruct (_ <=? _); [by intros [= <-]|].
  destruct (_ <? _); destruct (_ <? _); try (by intros [= <-]); by apply IH.
Qed.

(** Looking for a finished rewrite never loses an entry. *)
Lemma background_log s es d r : log_inv es d ->
  checkBackgroundSnapshotRewrite sha256 marshal unmarshal s d = Some r -> log_inv es r.2.
Proof.
  intros HL. unfold checkBackgroundSnapshotRewrite. destruct (db_rewrite d) as [[x|]|]; [|by intros [= <-]..].
  destruct x as [|e|t]; [by intros [= <-]..|]. unfold waitCommittedVersion, waitForWAL.
  assert (log_inv es (set_rewrite d None)) as HL1 by exact HL.
  destruct (db_wal (set_rewrite d None)) eqn:Ew; [|cbn [mbind option_bind]; by intros [= <-]].
  set (w := if _ : bool then _ else _).
  assert (forall r, w = Some r -> log_inv es r.2) as Hw.
  { intros r'. unfold w. destruct (_ || _); [by intros [= <-]|]. by apply wal_poll_log. }
  destruct w as [[[e|] d1]|]; cbn [mbind option_bind]; [intros [= <-]; exact (Hw _ eq_refl)| |done].
  specialize (Hw _ eq_refl). cbn [snd] in Hw. destruct (db_wal d1) as [l1|]; [|by intros [= <-]].
  destruct (catchupWAL sha256 t (log_source unmarshal l1) 0) as [t1|e|e]; [|by intros [= <-]..].
  unfold reloadMultiTree. intros [= <-]. destruct (applyWALEntry _ _); [|done..].
  destruct Hw as (l2 & A & B & C & D). exists l2. by split_and!.
Qed.

(** Logging a commit. *)
Lemma logCommit_inv es d v e d' : encodable (pendingLog (w_pending (db_work d))) ->
  log_inv es d -> db_walErr d = None ->
  walIndex v (initialVersion (db_tree d)) = len es + 1 ->
  logCommit marshal v d = (e, d') ->
  same_rest d d' /\
  match e with
  | None => log_inv (es ++ [pendingLog (w_pending (db_work d))]) d' /\ db_walErr d' = None
  | Some _ => log_inv es d' /\ db_walErr d' <> None
  end.
Proof.
  intros Henc (l & El & Ew & Hs & H) Ee Hi. rewrite Ee in H. destruct H as (Equit & bs & m & H).
  unfold logCommit. rewrite Ew, El, Hi. destruct (Z.leb_spec 0 (db_walChanSize d)) as [Hc|Hc].
  - set (d1 := match db_walChan d with Some _ => d | None => set_chan d (Some []) false end).
    assert (db_walQuit d1 = false) as Eq1 by (unfold d1; by destruct (db_walChan d)).
    rewrite Eq1. intros [= <- <-]. split; [unfold d1; by destruct (db_walChan d)|].
    assert (default [] (db_walChan d1) = default [] (db_walChan d)) as -> by (unfold d1; destruct (db_walChan d) eqn:E; simpl; by rewrite ?E).
    assert (db_walErr d1 = None) as Ee1 by (unfold d1; by destruct (db_walChan d)). split; [|done].
    destruct (holds_commit _ _ _ _ _ (pendingLog (w_pending (db_work d))) Henc H) as [b Hb].
    exists l. split_and!; [unfold d1; by destruct (db_walChan d)|unfold d1; by destruct (db_walChan d)| |].
    + simpl. intros Hlt. exfalso. unfold d1 in Hlt. destruct (db_walChan d); simpl in Hlt; lia.
    + simpl. rewrite Ee1. split; [done|]. by eexists _, _.
  - specialize (Hs Hc). rewrite Hs in H. simpl in H. pose proof (h_range _ _ _ _ _ H) as [_ Hm].
    assert (m = length es) as ->.
    { pose proof (h_queue _ _ _ _ _ H) as Hq. apply (f_equal length) in Hq. rewrite len_indexed, length_drop in Hq.
      unfold len in Hm. simpl in Hq. lia. }
    destruct (writeWALSync marshal l (len es + 1, pendingLog (w_pending (db_work d)))) as [l'|x|x] eqn:E.
    + intros [= <- <-].
      destruct (holds_commit _ _ _ _ _ (pendingLog (w_pending (db_work d))) Henc H) as [b Hb]. simpl in Hb.
      apply (holds_round l _ _ _ _ 1 l') in Hb as [Hb Eb].
      2:{ unfold writeWALSync in E. simpl. unfold writer_round. simpl. unfold writeEntry in *.
          destruct (marshal _); simpl in *; [|done..]. by destruct (_ <=? _). }
      split; [unfold same_rest; simpl; rewrite El; simpl; by rewrite Eb|]. split; [|done].
      exists l'. split_and!; [done..|]. simpl. rewrite Ee, Hs. split; [done|]. eexists _, (length es + 1)%nat. exact Hb.
    + simpl. rewrite Ee. intros [= <- <-]. split; [done|]. split; [|simpl; by rewrite Ee].
      exists l. split_and!; [done..|]. simpl. rewrite Ee. split; [by left|]. by eapply holds_error.
    + simpl. rewrite Ee. intros [= <- <-]. split; [done|]. split; [|simpl; by rewrite Ee].
      exists l. split_and!; [done..|]. simpl. rewrite Ee. split; [by left|]. by eapply holds_error.
Qed.

(** ** The database and its state *)

Section History.
(** The multi-tree at the start: empty, or as a snapshot was loaded, with a log
    whose first entry continues it. *)
Context (t0 : MultiTree).
Hypotheses (Hbase : base_version (MTVersion t0) (initialVersion t0))
  (Hiv : 0 <= initialVersion t0 < 2 ^ 32) (Hmeta : SnapshotVersion t0 <= MTVersion t0) (W0 : mt_wf t0).

Definition live (es : list WALEntry) (t : MultiTree) : Prop := run_entries (live_entry sha256) t0 es = Ok t.

(** The working tree is the state after the entries [es], loaded from some
    snapshot that is not newer. *)
Definition tree_inv (es : list WALEntry) (d : @DB L) : Prop :=
  exists t mi, live es t /\ db_tree d = with_meta mi t /\ ci_version mi <= MTVersion t.

(** A rewritten snapshot on its way: a state of the history that the log can
    bring up to date. *)
Definition good_rewrite (es : list WALEntry) (d : @DB L) (t : MultiTree) : Prop :=
  exists k tk mi, (k <= length es)%nat /\ live (take k es) tk /\ t = with_meta mi tk /\ ci_version mi <= MTVersion tk /\
    forall l, db_wal d = Some l -> base l <= Z.of_nat k.

Definition rewrite_inv (es : list WALEntry) (d : @DB L) : Prop :=
  forall t, db_rewrite d = Some (Some (RTree t)) -> good_rewrite es d t.

Definition pending_empty (d : @DB L) : Prop :=
  p_sets (w_pending (db_work d)) = [] /\ p_upgrades (w_pending (db_work d)) = [].

Record state_inv (es : list WALEntry) (d : @DB L) : Prop := {
  si_tree : tree_inv es d;
  si_rewrite : rewrite_inv es d;
  si_pending : pending_empty d;
  si_mode : w_readOnly (db_work d) = false;
}.

Lemma live_snoc es t e t' : live es t -> live_entry sha256 t e = Ok t' -> live (es ++ [e]) t'.
Proof. unfold live. intros E E'. rewrite run_entries_app, E. cbn [res_bind run_entries]. by rewrite E'. Qed.

Lemma live_version_at es t : live es t -> len es < 2 ^ 62 ->
  initialVersion t = initialVersion t0 /\ MTVersion t = version_after (MTVersion t0) (initialVersion t0) (len es).
Proof. intros E Hl. eapply (live_versions sha256); try done. lia. Qed.

Lemma version_after_mono k k' : 0 <= k <= k' ->
  version_after (MTVersion t0) (initialVersion t0) k <= version_after (MTVersion t0) (initialVersion t0) k' /\
  (k < k' -> version_after (MTVersion t0) (initialVersion t0) k < version_after (MTVersion t0) (initialVersion t0) k').
Proof.
  intros Hk. unfold version_after. destruct Hbase as [[H1 H2]|[H1 [H2|H2]]]; rewrite H2;
    destruct (Z.eqb_spec k 0), (Z.eqb_spec k' 0), (Z.ltb_spec 1 (initialVersion t0)); lia.
Qed.

Lemma live_prefix es t k : live es t -> exists tk, live (take k es) tk.
Proof.
  unfold live. intros E. rewrite <- (take_drop k es), run_entries_app in E.
  destruct (run_entries (live_entry sha256) t0 (take k es)); [by eexists|done..].
Qed.

Lemma live_wf es : forall t, live es t -> mt_wf t.
Proof.
  induction es as [|e es IH] using rev_ind; intros t E; [by apply Ok_inj in E as <-|].
  unfold live in E. rewrite run_entries_app, res_bind_ok in E. destruct E as (t1 & E1 & E2). apply IH in E1.
  cbn [run_entries] in E2. rewrite res_bind_ok in E2. destruct E2 as (t2 & E2 & <-%Ok_inj).
  unfold live_entry in E2. rewrite res_bind_ok in E2. destruct E2 as (t3 & E3 & E4).
  apply applyWALEntry_wf in E3; [|done]. unfold MTSaveVersion in E4. destruct (existsb _ _); [done|].
  cbn [res_bind] in E4. apply Ok_inj in E4 as <-.
  assert (mt_wf (with_trees t3 ((fun e => mkNamed (nt_name e) (vtSave (nt_tree e))) <$> trees t3))) as [A B].
  { apply wf_names; [done|]. unfold names. by rewrite <- list_fmap_compose. }
  split; [exact A|exact B].
Qed.

(** When the log has reached the version of the last commit, it holds all
    entries. *)
Lemma caught_up l q es bs m t sv : holds l q es bs m -> live es t -> len es < 2 ^ 62 -> es <> [] ->
  sv < MTVersion t -> MTVersion t <= committedVersionAt (walLastIndex l) (initialVersion t0) sv -> m = length es.
Proof.
  intros H E Hl Hne Hsv Hc. destruct (live_version_at es t E Hl) as [_ Ev]. pose proof (holds_last _ _ _ _ _ H) as Hla.
  pose proof (h_range _ _ _ _ _ H) as [_ Hm]. rewrite Hla, Ev in *. unfold committedVersionAt in Hc.
  destruct (Z.eqb_spec (Z.of_nat m) 0); [lia|].
  assert (walVersion (Z.of_nat m) (initialVersion t0) = version_after (MTVersion t0) (initialVersion t0) (Z.of_nat m)) as Ew.
  { unfold walVersion, version_after. destruct (Z.eqb_spec (Z.of_nat m) 0); [lia|]. unfold len in *.
    destruct (Z.ltb_spec 1 (initialVersion t0)); [|by rewrite i64_small by lia].
    rewrite (i64_small (Z.of_nat m)), (i64_small (_ + _)), i64_small by lia. lia. }
  rewrite Ew in Hc. unfold len in *.
  destruct (decide (m = length es)) as [|Hd]; [done|].
  destruct (version_after_mono (Z.of_nat m) (Z.of_nat (length es)) ltac:(lia)) as [_ Hlt]. specialize (Hlt ltac:(lia)). lia.
Qed.

Lemma applyWALEntry_empty t : applyWALEntry t (mkEntry [] []) = Ok t.
Proof. done. Qed.

(** Looking for a finished rewrite keeps the state. *)
Lemma background_inv s es d d' : es <> [] -> len es < 2 ^ 62 ->
  log_inv es d -> db_walErr d = None -> state_inv es d -> SnapshotVersion (db_tree d) < MTVersion (db_tree d) ->
  checkBackgroundSnapshotRewrite sha256 marshal unmarshal s d = Some (None, d') ->
  log_inv es d' /\ db_walErr d' = None /\ state_inv es d'.
Proof.
  intros Hne Hl HL He [Ht Hr Hp Hm] Hsv. unfold checkBackgroundSnapshotRewrite.
  destruct (db_rewrite d) as [[r|]|] eqn:Er; [|by intros [= <-]..].
  assert (log_inv es (set_rewrite d None)) as HL1 by exact HL.
  assert (state_inv es (set_rewrite d None)) as S1 by by constructor.
  destruct r as [|e|t]; [by intros [= <-]|done|].
  destruct Ht as (tl & mi & El & Et & Hmi). unfold waitCommittedVersion.
  destruct HL as (l & Elog & _). cbn [db_wal set_rewrite]. rewrite Elog.
  change (db_tree (set_rewrite d None)) with (db_tree d). unfold waitForWAL.
  destruct (live_version_at es tl El Hl) as [Ei Ev].
  assert (len es >= 1) as Hl1 by (destruct es; [done|rewrite len_cons; llia]).
  assert (initialVersion (db_tree d) = initialVersion t0) as Ei' by by rewrite Et.
  assert (MTVersion (db_tree d) = MTVersion tl) as Ev' by by rewrite Et.
  assert (0 < MTVersion tl /\ initialVersion t0 <= MTVersion tl) as [Hv1 Hv2].
  { rewrite Ev. unfold version_after. destruct (Z.eqb_spec (len es) 0), (Z.ltb_spec 1 (initialVersion t0)); lia. }
  rewrite Ei', Ev'. destruct (Z.ltb_spec (MTVersion tl) (initialVersion t0)); [lia|].
  destruct (Z.leb_spec (MTVersion tl) 0); [lia|]. cbn [orb].
  destruct (wal_poll _ _ _ _ _ _ _ _) as [[[e|] d1]|] eqn:Ew; cbn [mbind option_bind]; [done| |done].
  destruct (wal_poll_inv _ _ _ _ _ _ _ _ es HL1 Ew) as (HL2 & (R1 & R2 & R3 & R4 & R5 & R6 & R7) & He2 & l2 & El2 & Hc).
  rewrite El2. pose proof HL2 as (l2' & El2' & _ & _ & Hh). rewrite He2 in Hh. destruct Hh as (_ & bs & m & Hh).
  assert (l2' = l2) as -> by congruence. cbn [set_rewrite db_work db_rewrite] in R1, R5.
  assert (db_tree d1 = db_tree d) as Et1 by (unfold db_tree; by rewrite R1).
  assert (m = length es) as ->.
  { eapply (caught_up _ _ _ _ _ tl); [exact Hh|done|done|done| |exact Hc]. by rewrite Ev' in Hsv. }
  destruct (Hr t Er) as (k & tk & mi' & Hk & Ek & -> & Hmi' & Hbk).
  assert (base l2 <= Z.of_nat k) as Hb2.
  { specialize (Hbk l Elog). cbn [set_rewrite db_wal] in R7. rewrite El2, Elog in R7. simpl in R7. by injection R7 as ->. }
  rewrite (catchup_log l2 _ es bs (length es) t0 tk tl k mi' Hh Hbase);
    [|lia|done|unfold len in *; lia|done|by rewrite take_ge].
  unfold reloadMultiTree. rewrite R1. cbn [set_rewrite db_work].
  assert (pendingLog (w_pending (db_work d)) = mkEntry [] []) as Epd.
  { destruct Hp as [P1 P2]. unfold pendingLog. by rewrite P1, P2. }
  rewrite Epd, applyWALEntry_empty. intros [= <-]. split_and!; [|done|].
  - destruct HL2 as (l3 & A & B & C & D). exists l3. by split_and!.
  - constructor; [|intros t; simpl; by rewrite R5|exact Hp|exact Hm].
    exists tl, mi'. split_and!; [done|done|].
    destruct (live_version_at (take k es) tk Ek) as [_ Evk]; [unfold len in *; rewrite length_take; lia|].
    rewrite Ev. rewrite Evk in Hmi'. etransitivity; [exact Hmi'|]. apply version_after_mono.
    unfold len. rewrite length_take. lia.
Qed.

Lemma same_rest_inv d d' es : same_rest d d' -> state_inv es d -> state_inv es d'.
Proof.
  intros (R1 & R2 & R3 & R4 & R5 & R6 & R7) [Ht Hr Hp Hm]. constructor.
  - unfold tree_inv, db_tree in *. by rewrite R1.
  - intros t. rewrite R5. intros (k & tk & mi & A & B & C & D & E)%Hr. exists k, tk, mi. split_and!; try done.
    intros l' El'. rewrite El' in R7. destruct (db_wal d) as [l|]; [|done]. simpl in R7. injection R7 as ->. by apply E.
  - unfold pending_empty in *. by rewrite R1.
  - by rewrite R1.
Qed.

(** The invariant of the database: the log, and, as long as no log write has
    failed, the state. *)
Definition db_inv (es : list WALEntry) (d : @DB L) : Prop :=
  log_inv es d /\ (db_walErr d = None -> state_inv es d).

Lemma log_inv_more es e d : log_inv es d -> db_walErr d <> None -> log_inv (es ++ [e]) d.
Proof.
  intros (l & El & Ew & Hs & H) He. exists l. split_and!; [done..|]. destruct (db_walErr d); [|done].
  destruct H as (Hc & es1 & bs & Hp & H). split; [done|]. exists es1, bs. split; [|done]. by apply prefix_app_r.
Qed.

Lemma rewriteIfApplicable_inv es v d : log_inv es d -> state_inv es d ->
  log_inv es (rewriteIfApplicable v d) /\ state_inv es (rewriteIfApplicable v d) /\
  db_walErr (rewriteIfApplicable v d) = db_walErr d.
Proof.
  intros HL S. unfold rewriteIfApplicable, rewriteSnapshotBackground. destruct (negb _); [done|].
  destruct (db_rewrite d); [done|]. split_and!; [exact HL| |done]. destruct S. by constructor.
Qed.

Lemma saved_version t b v t' : MTSaveVersion sha256 t b = Ok (v, t') -> v = MTVersion t'.
Proof. unfold MTSaveVersion. destruct (existsb _ _); [done|]. intros [= <- <-]. done. Qed.

(** Saving the version of a block on top of a committed state. *)
Lemma save_block es d w e v t1 :
  len es + 1 < 2 ^ 62 -> tree_inv es d -> applyWALEntry (db_tree d) e = Ok (w_tree w) ->
  MTSaveVersion sha256 (w_tree w) true = Ok (v, t1) ->
  exists t' mi, live (es ++ [e]) t' /\ t1 = with_meta mi t' /\ v = MTVersion t' /\ ci_version mi < MTVersion t' /\
    initialVersion t' = initialVersion t0 /\ walIndex v (initialVersion t0) = len es + 1.
Proof.
  intros Hl (t & mi & El & Et & Hmi) Ea Es.
  assert (exists t', live_entry sha256 t e = Ok t' /\ t1 = with_meta mi t') as (t' & El' & ->).
  { pose proof (live_entry_meta sha256 mi t e) as Hme. rewrite <- Et in Hme. unfold live_entry in Hme at 1.
    rewrite Ea in Hme. cbn [res_bind] in Hme. rewrite Es in Hme. cbn [res_bind] in Hme.
    destruct (live_entry sha256 t e) as [t'| |]; [|done..]. exists t'. split; [done|]. by apply Ok_inj in Hme. }
  destruct (live_version sha256 _ _ _ El') as [Ei' Ev'].
  destruct (live_version_at es t El ltac:(lia)) as [Ei Ev]. pose proof (live_snoc _ _ _ _ El El') as El2.
  destruct (live_version_at _ t' El2) as [_ Ev2]; [rewrite len_app, len_cons, len_nil; lia|].
  rewrite len_app, len_cons, len_nil in Ev2. pose proof (len_nonneg es).
  assert (v = MTVersion t') as ->.
  { by apply saved_version in Es. }
  exists t', mi. split_and!; [done..| |congruence|].
  - destruct (version_after_mono (len es) (len es + (1 + 0))) as [_ Hlt]; [lia|]. specialize (Hlt ltac:(lia)). lia.
  - rewrite Ev', Ei, Ev. apply first_index; [done|lia|lia].
Qed.

(** After the log has taken the entry and the pending log is cleared. *)
Lemma logged_inv es d w e d1 d2 t' mi :
  d1 = set_work (set_work d w) (with_tree w (with_meta mi t')) -> same_rest d1 d2 ->
  state_inv es d -> w_readOnly w = false -> live (es ++ [e]) t' -> ci_version mi < MTVersion t' ->
  state_inv (es ++ [e]) (set_work d2 (with_pending (db_work d2) (clearPending (w_pending (db_work d2))))).
Proof.
  intros -> (R1 & R2 & R3 & R4 & R5 & R6 & R7) [Ht Hr Hp Hm] Hro El Hmi. simpl in R1, R5, R7. constructor.
  - exists t', mi. split_and!; [done| |lia]. unfold db_tree. simpl. by rewrite R1.
  - intros t2 E2. simpl in E2. rewrite R5 in E2.
    destruct (Hr t2 E2) as (k & tk & mi' & A & B & C & D & F). exists k, tk, mi'.
    rewrite length_app, take_app_le by lia. split_and!; [lia|done..|].
    intros l' El3. simpl in El3. rewrite El3 in R7. simpl in R7.
    destruct (db_wal d) as [l|] eqn:Ed; [|done]. injection R7 as ->. by apply F.
  - done.
  - simpl. by rewrite R1.
Qed.

(** A block on top of a committed state, and its commit. *)
Lemma Commit_inv s es d w r d' e :
  len es + 1 < 2 ^ 62 -> log_inv es d -> db_walErr d = None -> state_inv es d ->
  w_readOnly w = false -> e = pendingLog (w_pending w) -> encodable e ->
  applyWALEntry (db_tree d) e = Ok (w_tree w) ->
  Commit sha256 marshal unmarshal s (set_work d w) = Some (r, d') ->
  (exists v, r = Ok v) \/ db_walErr d' <> None ->
  db_inv (es ++ [e]) d' /\ (forall v, r = Ok v -> db_walErr d' = None).
Proof.
  intros Hl HL He S Hro Ee Henc Ea. unfold Commit. cbn [set_work db_work db_walErr]. rewrite Hro, He.
  change (db_tree (set_work d w)) with (w_tree w).
  destruct (MTSaveVersion sha256 (w_tree w) true) as [[v t1]|x|x] eqn:Es;
    [|intros [= <- <-] [[v0 ?]|?]; [done|by simpl in *; rewrite He in *]..].
  destruct (save_block es d w e v t1 Hl (si_tree _ _ S) Ea Es) as (t' & mi & El & -> & -> & Hmi & Ei & Hidx).
  set (d1 := set_work (set_work d w) (with_tree w (with_meta mi t'))).
  destruct (logCommit marshal (MTVersion t') d1) as [err d2] eqn:Elog.
  destruct (logCommit_inv es d1 (MTVersion t') err d2) as (Hrest & Hlog); [by rewrite Ee in Henc|exact HL|exact He| |done|].
  { change (initialVersion (db_tree d1)) with (initialVersion t'). by rewrite Ei. }
  change (pendingLog (w_pending (db_work d1))) with (pendingLog (w_pending w)) in Hlog. rewrite <- Ee in Hlog.
  destruct err as [err|].
  { intros [= <- <-] _. destruct Hlog as [HL2 He2]. split; [|done]. split; [by apply log_inv_more|done]. }
  destruct Hlog as [HL2 He2]. pose proof (logged_inv es d w e d1 d2 t' mi eq_refl Hrest S Hro El Hmi) as S3.
  set (d3 := set_work d2 _) in *. assert (log_inv (es ++ [e]) d3) as HL3 by exact HL2.
  change (db_walErr d3) with (db_walErr d2). rewrite He2.
  destruct (checkBackgroundSnapshotRewrite _ _ _ _ _) as [[err d4]|] eqn:Eb; [|done]. cbn [mbind option_bind].
  assert (db_tree d3 = with_meta mi t') as Ed3 by (destruct Hrest as (R1 & _); unfold d3, db_tree; simpl; by rewrite R1).
  destruct err as [err|].
  - intros [= <- <-] [[v ?]|He4]; [done|]. split; [|done]. split; [|done]. exact (background_log _ _ _ _ HL3 Eb).
  - destruct (background_inv s (es ++ [e]) d3 d4) as (HL4 & He4 & S4); try done;
      [by destruct es|rewrite len_app, len_cons, len_nil; lia|by rewrite Ed3|].
    intros [= <- <-] _. destruct (rewriteIfApplicable_inv _ (MTVersion t') d4 HL4 S4) as (A & B & C).
    split; [by split|]. intros v _. by rewrite C.
Qed.

(** ** Histories of the database *)

(** A block is a group of upgrades that make sense and changes, followed by a
    commit that succeeds or reports a failed log write; between blocks the
    writer may run and the result of a snapshot rewrite may arrive. *)
Inductive db_step : list WALEntry * @DB L -> list WALEntry * @DB L -> Prop :=
| st_block es d uss ops w1 w2 new m s r d' :
    run_all dbApplyUpgrades (db_work d) uss = (None, w1) -> run_all run_op w1 ops = (None, w2) ->
    vtNew (u32 (nextVersion (MTVersion (db_tree d)) (initialVersion (db_tree d)))) = Ok new ->
    map_upgrades new (forest (trees (db_tree d))) (concat uss) = Some m ->
    encodable (pendingLog (w_pending w2)) ->
    Commit sha256 marshal unmarshal s (set_work d w2) = Some (r, d') ->
    (exists v, r = Ok v) \/ db_walErr d' <> None ->
    db_step (es, d) (es ++ [pendingLog (w_pending w2)], d')
| st_writer es d k : db_step (es, d) (es, writer_step marshal k d)
| st_deliver es d r : (forall t, r = RTree t -> good_rewrite es d t) -> db_step (es, d) (es, deliver r d).

Lemma deliver_inv es d r : (forall t, r = RTree t -> good_rewrite es d t) -> db_inv es d -> db_inv es (deliver r d).
Proof.
  intros Hr [HL S]. unfold deliver. destruct (db_rewrite d) as [[x|]|] eqn:E; [by split| |by split].
  split; [exact HL|]. intros He. destruct (S He) as [Ht _ Hp Hm]. constructor; [exact Ht| |exact Hp|exact Hm].
  intros t [= Et]. exact (Hr t Et).
Qed.

Lemma block_inv es d uss ops w1 w2 new m s r d' : len es + 1 < 2 ^ 62 -> db_inv es d ->
  run_all dbApplyUpgrades (db_work d) uss = (None, w1) -> run_all run_op w1 ops = (None, w2) ->
  vtNew (u32 (nextVersion (MTVersion (db_tree d)) (initialVersion (db_tree d)))) = Ok new ->
  map_upgrades new (forest (trees (db_tree d))) (concat uss) = Some m ->
  encodable (pendingLog (w_pending w2)) ->
  Commit sha256 marshal unmarshal s (set_work d w2) = Some (r, d') ->
  (exists v, r = Ok v) \/ db_walErr d' <> None -> db_inv (es ++ [pendingLog (w_pending w2)]) d'.
Proof.
  intros Hl [HL S] E1 E2 En Em Henc Ec Hr.
  pose proof (run_all_readOnly _ upgrades_readOnly uss (db_work d)) as Q1. rewrite E1 in Q1.
  pose proof (run_all_readOnly _ op_readOnly ops w1) as Q2. rewrite E2 in Q2. simpl in Q1, Q2.
  destruct (db_walErr d) as [x|] eqn:He.
  - assert (d' = set_work d w2) as ->.
    { unfold Commit in Ec. cbn [set_work db_work db_walErr] in Ec. destruct (w_readOnly w2); [by injection Ec|].
      rewrite He in Ec. by injection Ec. }
    split; [|intros Hn; simpl in Hn; congruence]. apply (log_inv_more _ _ (set_work d w2)); [exact HL|simpl; congruence].
  - specialize (S eq_refl). pose proof (si_mode _ _ S) as Hm. pose proof (si_pending _ _ S) as [P1 P2].
    eapply (proj1 (A := db_inv _ _)), (Commit_inv s es d w2); [done|done|done|done|congruence|done|done| |exact Ec|done].
    destruct (si_tree _ _ S) as (t & mi & El & Et & _). pose proof (live_wf _ _ El) as Wt.
    apply (pending_replays (db_tree d) (db_work d) w1 w2 uss ops new m); try done.
    rewrite Et. destruct Wt. by split.
Qed.

Lemma step_inv x y : db_step x y -> db_inv x.1 x.2 -> len y.1 < 2 ^ 62 -> db_inv y.1 y.2.
Proof.
  destruct 1 as [es d uss ops w1 w2 new m s r d' E1 E2 En Em Henc Ec Hr|es d k|es d r Hr]; simpl; intros I Hl.
  - rewrite len_app, len_cons, len_nil in Hl. eapply block_inv; [lia|done..].
  - destruct I as [HL S]. destruct (writer_step_inv k es d HL) as [HL' R]. split; [done|].
    intros He. apply (same_rest_inv d); [done|]. apply S.
    destruct (db_walErr d) eqn:E; [|done]. exfalso. revert He. unfold writer_step.
    destruct (db_walChan d), (db_wal d); try congruence. destruct (db_walQuit d); [congruence|].
    destruct (take k l); [congruence|]. destruct (writer_round _ _ _); simpl; rewrite E; done.
  - by apply deliver_inv.
Qed.

Lemma step_len x y : db_step x y -> len x.1 <= len y.1.
Proof. destruct 1; simpl; rewrite ?len_app, ?len_cons, ?len_nil; lia. Qed.

Lemma steps_inv x y : rtc db_step x y -> db_inv x.1 x.2 -> len y.1 < 2 ^ 62 -> db_inv y.1 y.2.
Proof.
  induction 1 as [x|x y z Hs Hr IH]; intros I Hl; [done|]. apply IH; [|done]. eapply step_inv; [done..|].
  assert (len y.1 <= len z.1); [|lia]. clear -Hr. induction Hr as [|x y z H _ IH]; [lia|]. apply step_len in H. lia.
Qed.

(** A database as it is opened: the multi-tree, an empty log and queue. *)
Definition opened (d : @DB L) : Prop :=
  db_tree d = t0 /\ w_readOnly (db_work d) = false /\ pending_empty d /\ db_walWriter d = true /\
  db_walChan d = None /\ db_walQuit d = false /\ db_walErr d = None /\ db_rewrite d = None /\
  exists l, db_wal d = Some l /\ entries l = [].

Lemma opened_inv d : opened d -> db_inv [] d.
Proof.
  intros (Et & Em & Ep & Ew & Ec & Eq & Ee & Er & l & El & En). split.
  - exists l. split_and!; [done..|]. rewrite Ee, Ec. split; [done|]. exists [], 0%nat.
    pose proof (law_empty l En) as Hb0.
    constructor; [by apply Forall2_nil|by rewrite Hb0|by rewrite En, Hb0|done].
  - intros _. constructor; [|intros t; by rewrite Er|done|done].
    exists t0, (metadataInfo t0). split_and!; [done| |exact Hmeta]. rewrite Et. by destruct t0.
Qed.

(** Waiting for the writer leaves everything in the log. *)
Lemma wait_flushes rounds es d d' : log_inv es d ->
  waitAsyncCommit marshal rounds d = (None, d') ->
  db_work d' = db_work d /\
  exists l bs, db_wal d' = Some l /\ holds l [] es bs (length es) /\ base <$> db_wal d' = base <$> db_wal d.
Proof.
  intros HL. unfold waitAsyncCommit. destruct (db_walChan d) as [q0|] eqn:Eq0.
  2:{ intros [= He <-]. destruct HL as (l & El & _ & _ & H). rewrite He, Eq0 in H. destruct H as (_ & bs & m & H).
      split; [done|]. exists l, bs. split_and!; [done| |done]. simpl in H. 
      assert (m = length es) as ->; [|done]. pose proof (h_range _ _ _ _ _ H) as [_ Hm]. pose proof (h_queue _ _ _ _ _ H) as Hq.
      apply (f_equal length) in Hq. rewrite len_indexed, length_drop in Hq. unfold len in Hm. simpl in Hq. lia. }
  assert (log_inv es (fold_left (fun d k => writer_step marshal k d) rounds d) /\
    same_rest d (fold_left (fun d k => writer_step marshal k d) rounds d)) as [H1 R1].
  { clear Eq0. revert d HL. induction rounds as [|k rounds IH]; intros d HL; [by repeat split|]. simpl.
    destruct (writer_step_inv k es d HL) as [A B]. destruct (IH _ A) as [C D]. split; [done|]. by eapply same_rest_trans. }
  set (d1 := fold_left _ rounds d) in *. set (k := length (default [] (db_walChan d1))).
  destruct (writer_step_inv k es d1 H1) as [H2 R2]. set (d2 := writer_step marshal k d1) in *.
  intros [= He <-]. simpl in He. pose proof (same_rest_trans _ _ _ R1 R2) as (Q1 & _ & _ & _ & _ & _ & Q7).
  pose proof H2 as (l & El & _ & _ & H). change (db_walErr (set_chan d2 None false)) with (db_walErr d2) in He.
  rewrite He in H. destruct H as (_ & bs & m & H). split; [done|]. exists l, bs. split_and!; [done| |done].
  assert (default [] (db_walChan d2) = []) as Eq.
  { destruct H1 as (l1 & El1 & _ & _ & Hh). unfold d2, writer_step in He |- *. rewrite El1 in He |- *.
    destruct (db_walErr d1) eqn:E1.
    - exfalso. destruct (db_walChan d1) as [q|]; [|congruence]. destruct (db_walQuit d1); [congruence|].
      destruct (take k q); [congruence|]. destruct (writer_round _ _ _); simpl in He; rewrite ?E1 in He; done.
    - destruct Hh as [Eqt _]. destruct (db_walChan d1) as [q|] eqn:Eq1; [|by rewrite Eq1]. rewrite Eqt in *.
      unfold k in *. cbn [default from_option id] in *. destruct (take (length q) q) eqn:Et.
      + rewrite Eq1. simpl. by rewrite take_ge in Et by lia.
      + destruct (writer_round _ _ _); simpl in *; [by rewrite drop_ge|by rewrite E1 in He..]. }
  rewrite Eq in H. assert (m = length es) as ->; [|done]. pose proof (h_range _ _ _ _ _ H) as [_ Hm].
  pose proof (h_queue _ _ _ _ _ H) as Hq. apply (f_equal length) in Hq. rewrite len_indexed, length_drop in Hq.
  unfold len in Hm. simpl in Hq. lia.
Qed.

(** The background rewrite: a snapshot of the committed state loads and catches
    up with the log as it is by then. *)
Lemma rewrite_result es t mi es' t' l q bs m : (forall b, len (sha256 b) = 32) ->
  live es t -> es `prefix_of` es' -> live es' t' -> len es' < 2 ^ 62 ->
  holds l q es' bs m -> base l <= len es ->
  0 < MTVersion t < 2 ^ 32 -> Forall (at_version (MTVersion t)) (trees t) -> Forall tree_storable (trees t) ->
  lastCommitInfo t = buildCommitInfo sha256 t (MTVersion t) ->
  exists k tk, rewrite_goroutine sha256 unmarshal (fun _ => false) false (MTCopy (with_meta mi t)) l =
      RTree (with_meta (lastCommitInfo t) tk) /\
    k = Nat.max (length es) m /\ live (take k es') tk.
Proof.
  intros Hsha El [es2 ->] El' Hl H Hb Hv U St Ec. pose proof (live_wf _ _ El) as Wt.
  assert (mt_wf (with_meta mi t)) as Wm by (destruct Wt; by split).
  unfold rewrite_goroutine. rewrite MTCopy_id by done.
  destruct (write_open_trees sha256 Hsha (fun _ => false) (trees t) (fun _ => eq_refl) St) as (fs & Ew & _).
  destruct (MTWriteSnapshot sha256 (fun _ => false) false (with_meta mi t)) as [dir| |] eqn:Es;
    [|unfold MTWriteSnapshot in Es; cbn [with_meta trees] in Es; by rewrite Ew in Es..].
  destruct (live_version_at es t El) as [Ei Ev]; [rewrite len_app in Hl; llia|].
  assert (LoadMultiTree sha256 dir = Ok (with_meta (lastCommitInfo t) t)) as ->.
  { replace dir with (mkDir (d_trees dir) (d_commit dir) (d_initial dir)) by by destruct dir.
    rewrite (load_written sha256 Hsha (with_meta mi t) dir (d_trees dir) (fun _ => false)); try done.
    cbn [with_meta initialVersion]. rewrite Ei. exact Hiv. }
  pose proof (h_range _ _ _ _ _ H) as [Hm1 Hm2]. unfold len in Hm2, Hb. rewrite length_app in Hm2.
  assert (take (length es) (es ++ es2) = es) as Et by by rewrite take_app_length.
  destruct (decide (length es <= m)%nat) as [Hle|Hgt].
  - destruct (live_prefix _ _ m El') as [tm Em]. exists m, tm.
    rewrite (catchup_log l q (es ++ es2) bs m t0 t tm (length es)); try done;
      [|lia|lia|unfold live in *; by rewrite Et].
    split_and!; [done|lia|done].
  - exists (length es), t. rewrite catchupWAL_meta. split_and!; [|lia|by rewrite Et].
    assert (catchupWAL sha256 t (log_source unmarshal l) 0 = Ok t) as ->; [|done].
    unfold catchupWAL. cbn [Z.ltb Z.eqb Z.compare].
    rewrite (catchup_first sha256 es t0 t (length es) Hbase); [|lia|rewrite len_app in Hl; llia|lia|unfold live in El; by rewrite take_ge].
    cbn [LastIndex log_source]. rewrite (holds_last _ _ _ _ _ H). destruct (Z.ltb_spec (Z.of_nat m) (Z.of_nat (length es) + 1)); [done|lia].
Qed.

(** ** Properties *)



(** The background snapshot rewrite is transparent: the snapshot written from
    the copy of a committed state loads and catches up with the log as it has
    grown meanwhile, and the result is a state of the history to which the
    database may switch, whatever was committed in between. *)
Theorem background_rewrite_is_history (es es' : list WALEntry) (t t' : MultiTree) (mi : CommitInfo)
  (d : @DB L) (l : L) (sha256_len : forall b, len (sha256 b) = 32)
  (El : live es t) (Hp : es `prefix_of` es') (El' : live es' t') (Hl : len es' < 2 ^ 62)
  (HL : log_inv es' d) (He : db_walErr d = None) (Hw : db_wal d = Some l) (Hb : base l <= len es)
  (Hv : 0 < MTVersion t < 2 ^ 32) (U : Forall (at_version (MTVersion t)) (trees t))
  (St : Forall tree_storable (trees t)) (Hc : lastCommitInfo t = buildCommitInfo sha256 t (MTVersion t)) :
  exists tr, rewrite_goroutine sha256 unmarshal (fun _ => false) false (MTCopy (with_meta mi t)) l = RTree tr /\
    good_rewrite es' d tr.
Proof.
  destruct HL as (l' & Ew & _ & _ & H). assert (l' = l) as -> by congruence. rewrite He in H. destruct H as (_ & bs & m & H).
  destruct (rewrite_result es t mi es' t' l _ bs m sha256_len El Hp El' Hl H Hb Hv U St Hc) as (k & tk & -> & Ek & Elk).
  eexists. split; [done|]. pose proof (h_range _ _ _ _ _ H) as [_ Hm]. apply prefix_length in Hp as Hpl. unfold len in Hm, Hb, Hl.
  exists k, tk, (lastCommitInfo t). split_and!; [lia|done..| |].
  - destruct (live_version_at es t El) as [_ Ev]; [unfold len; lia|].
    destruct (live_version_at _ tk Elk) as [_ Evk]; [unfold len; rewrite length_take; lia|].
    unfold MTVersion at 1 in Ev. rewrite Evk, Ev. apply version_after_mono. unfold len. rewrite length_take. lia.
  - intros l2 E2. assert (l2 = l) as -> by congruence. lia.
Qed.
End History.
End Invariant.

(** ** A log and an encoding, for evaluation *)

Record ListLog : Type := mkListLog { ll_before : N; ll_entries : list bytes }.

Definition ll_base (l : ListLog) : Z := match ll_entries l with [] => 0 | _ => Z.of_N (ll_before l) end.

#[export] Instance list_log : Log ListLog := {|
  walFirstIndex l := if decide (ll_entries l = []) then 0 else ll_base l + 1;
  walLastIndex l := ll_base l + len (ll_entries l);
  walRead l i :=
    if i <=? ll_base l then Err "not found"
    else match ll_entries l !! Z.to_nat (i - ll_base l - 1) with Some d => Ok d | None => Err "not found" end;
  walWriteBatch l b :=
    if decide (b = indexed (ll_base l + len (ll_entries l) + 1) b.*2)
    then Ok (mkListLog (Z.to_N (ll_base l)) (ll_entries l ++ b.*2)) else Err "out of order";
  walTruncateFront l i :=
    if negb ((ll_base l <? i) && (i <=? ll_base l + len (ll_entries l))) then Err "out of range"
    else Ok (mkListLog (Z.to_N (i - 1)) (drop (Z.to_nat (i - 1 - ll_base l)) (ll_entries l)));
  walTruncateBack l i :=
    if negb ((ll_base l <? i) && (i <=? ll_base l + len (ll_entries l))) then Err "out of range"
    else Ok (mkListLog (Z.to_N (ll_base l)) (take (Z.to_nat (i - ll_base l)) (ll_entries l)));
|}.

Lemma ll_base_nonneg l : 0 <= ll_base l.
Proof. unfold ll_base. destruct (ll_entries l); lia. Qed.

Lemma indexed_snd {A} (i : Z) (ds : list A) : (indexed i ds).*2 = ds.
Proof. revert i. induction ds as [|d ds IH]; intros i; [done|]. simpl. by rewrite IH. Qed.

#[export, refine] Instance list_log_laws : LogLaws ListLog := {| base := ll_base; entries := ll_entries |}.
Proof.
  - apply ll_base_nonneg.
  - intros l E. unfold ll_base. by rewrite E.
  - done.
  - done.
  - intros l i d Hi Hd. simpl. destruct (Z.leb_spec i (ll_base l)); [lia|]. by rewrite Hd.
  - intros l l' ds. simpl. rewrite indexed_snd. rewrite decide_True by done. intros [= <-].
    split; [|done]. unfold ll_base at 1. simpl. pose proof (ll_base_nonneg l).
    destruct (ll_entries l ++ ds) eqn:E; [|lia]. apply app_eq_nil in E as [E _]. unfold ll_base. by rewrite E.
  - intros l l' i. simpl. destruct (Z.ltb_spec (ll_base l) i), (Z.leb_spec i (ll_base l + len (ll_entries l))); try done.
    intros [= <-]. pose proof (ll_base_nonneg l). split_and!; [done..| |done]. unfold ll_base at 1. simpl.
    destruct (drop _ _) eqn:E; [|lia]. apply (f_equal length) in E. rewrite length_drop in E. unfold len in *. simpl in E. lia.
  - intros l l' i. simpl. destruct (Z.ltb_spec (ll_base l) i), (Z.leb_spec i (ll_base l + len (ll_entries l))); try done.
    intros [= <-]. pose proof (ll_base_nonneg l). split_and!; [done..| |done]. unfold ll_base at 1. simpl.
    destruct (take _ _) eqn:E; [|lia]. apply (f_equal length) in E. rewrite length_take in E. unfold len in *. simpl in E. lia.
Defined.

(** An encoding of entries as bits. *)
#[export] Instance pair_eq_dec : EqDecision KVPair.
Proof. solve_decision. Defined.
#[export] Instance pair_countable : Countable KVPair.
Proof.
  apply (inj_countable' (fun p => (p_delete p, p_key p, p_value p)) (fun '(d, k, v) => mkKVPair d k v)). by intros [].
Defined.
#[export] Instance named_eq_dec : EqDecision NamedChangeSet.
Proof. solve_decision. Defined.
#[export] Instance named_countable : Countable NamedChangeSet.
Proof. apply (inj_countable' (fun c => (ncs_name c, ncs_changeset c)) (fun '(n, c) => mkNamedCS n c)). by intros []. Defined.
#[export] Instance upgrade_eq_dec : EqDecision TreeNameUpgrade.
Proof. solve_decision. Defined.
#[export] Instance upgrade_countable : Countable TreeNameUpgrade.
Proof.
  apply (inj_countable' (fun u => (up_name u, up_renameFrom u, up_delete u)) (fun '(n, r, d) => mkUpgrade n r d)). by intros [].
Defined.
#[export] Instance entry_eq_dec : EqDecision WALEntry.
Proof. solve_decision. Defined.
#[export] Instance entry_countable : Countable WALEntry.
Proof. apply (inj_countable' (fun e => (we_changesets e, we_upgrades e)) (fun '(c, u) => mkEntry c u)). by intros []. Defined.

Fixpoint bits (p : positive) : bytes :=
  match p with
  | xH => []
  | xO p => z2b 0 :: bits p
  | xI p => z2b 1 :: bits p
  end.
Fixpoint unbits (b : bytes) : positive :=
  match b with
  | [] => xH
  | x :: b => if decide (x = z2b 0) then xO (unbits b) else xI (unbits b)
  end.

Lemma unbits_bits p : unbits (bits p) = p.
Proof. induction p as [p IH|p IH|]; simpl; by rewrite ?IH. Qed.

Definition bit_marshal (e : WALEntry) : res bytes := Ok (bits (encode (wire e))).
Definition bit_unmarshal (b : bytes) : res WALEntry := of_option "malformed" (decode (unbits b)).

Lemma bit_unmarshal_ok e b : bit_marshal e = Ok b -> bit_unmarshal b = Ok (wire e).
Proof. intros <-%Ok_inj. unfold bit_unmarshal. by rewrite unbits_bits, decode_encode. Qed.

Definition sample_db : @DB ListLog :=
  mkDB fresh_db None (Some (mkListLog 0 [])) true 10 None false None 1000 5 None.

Definition sample_block : Working :=
  (run_all run_op (run_all dbApplyUpgrades fresh_db sample_upgrades).2 sample_ops).2.

Definition sample_committed : @DB ListLog :=
  match Commit digest32 bit_marshal bit_unmarshal (0, []) (set_work sample_db sample_block) with
  | Some (_, d) => d
  | None => sample_db
  end.

Lemma sample_wf : mt_wf (NewEmptyMultiTree 5).
Proof. split; [constructor|]. intros n i. simpl. rewrite lookup_empty. naive_solver. Qed.

Lemma sample_opened : opened (NewEmptyMultiTree 5) sample_db.
Proof. unfold opened. split_and!; try done. by eexists. Qed.

Lemma sample_step : rtc (db_step digest32 bit_marshal bit_unmarshal (fun _ => True) (NewEmptyMultiTree 5))
  ([], sample_db) ([pendingLog (w_pending sample_block)], sample_committed).
Proof.
  apply rtc_once.
  eapply (st_block digest32 bit_marshal bit_unmarshal (fun _ => True) (NewEmptyMultiTree 5) [] sample_db sample_upgrades sample_ops
    (run_all dbApplyUpgrades fresh_db sample_upgrades).2 sample_block (mkVTree 4 None) _ (0, []) (Ok 5));
    [reflexivity|reflexivity|reflexivity|reflexivity|done|vm_compute; reflexivity|by left; eexists].
Qed.



Lemma leaf_storable v k x : 0 <= v < 2 ^ 32 -> len k < 2 ^ 16 -> len x < 2 ^ 16 -> Snapshot.storable (Leaf v k (Some x)).
Proof.
  intros Hv Hk Hx. split; [done|].
  assert (len (Snapshot.out_kvs (Leaf v k (Some x))) < 2 ^ 63) as Ho.
  { simpl. rewrite Snapshot.len_kv_record. simpl. lia. }
  constructor; [lia|done|split; [lia|rewrite Z.add_0_l; lia]|done|done|done| |].
  - simpl. split_and!; try lia. by eexists.
  - constructor; [simpl; lia|constructor].
Qed.

Definition sample_state : MultiTree := db_tree sample_committed.

Lemma background_rewrite_is_history_witness :
  exists tr, rewrite_goroutine digest32 bit_unmarshal (fun _ => false) false
      (MTCopy (with_meta (metadataInfo sample_state) sample_state)) (mkListLog 0 []) = RTree tr /\
    good_rewrite digest32 (NewEmptyMultiTree 5) [pendingLog (w_pending sample_block)] sample_committed tr.
Proof.
  assert (log_inv bit_marshal [pendingLog (w_pending sample_block)] sample_committed) as HL.
  { refine (proj1 (steps_inv digest32 bit_marshal bit_unmarshal (fun _ => True)
      (fun e _ => ex_intro _ _ eq_refl) bit_unmarshal_ok (NewEmptyMultiTree 5) _ _ sample_wf _ _ sample_step _ _)).
    - right. split; [by vm_compute|]. by left.
    - by vm_compute.
    - apply opened_inv; [right; split; [by vm_compute|by left]|by vm_compute|by vm_compute|exact sample_wf|exact sample_opened].
    - by vm_compute. }
  refine (background_rewrite_is_history digest32 bit_marshal bit_unmarshal bit_unmarshal_ok (NewEmptyMultiTree 5)
    _ _ sample_wf [pendingLog (w_pending sample_block)] [pendingLog (w_pending sample_block)]
    sample_state sample_state (metadataInfo sample_state) sample_committed (mkListLog 0 []) digest32_len _ _ _ _ HL _ _ _ _ _ _ _).
  - right. split; [by vm_compute|]. by left.
  - by vm_compute.
  - vm_compute. reflexivity.
  - done.
  - vm_compute. reflexivity.
  - by vm_compute.
  - by vm_compute.
  - by vm_compute.
  - by vm_compute.
  - by vm_compute.
  - repeat constructor; by vm_compute.
  - assert (trees sample_state = [mkNamed name_a (mkVTree 5 (Some (Leaf 5 [z2b 2] (Some [z2b 20]))));
      mkNamed name_b (mkVTree 5 (Some (Leaf 5 [z2b 3] (Some []))))]) as -> by (vm_compute; reflexivity).
    apply Forall_cons_2; [|apply Forall_cons_2; [|constructor]];
      (split; [simpl; lia|apply leaf_storable; [lia|by vm_compute|by vm_compute]]).
  - by vm_compute.
Defined.
