(* ===== verification/DbDir.v ===== *)
(** The database directory: [memiavl/db.go], snapshot names, the snapshot list,
    pruning, rollback and [Load].

    The directory is the list of its entries in the order of [os.ReadDir], with
    the contents of the snapshot directories, and the target of the [current]
    link.  [Load] takes the directory and the log and returns the database and
    the directory as it leaves them; an interrupted operation is not modelled.

    Theorems: names and versions correspond and are ordered alike; the snapshot
    for a target version is the greatest one not above it; pruning keeps what
    it should and never cuts the log behind a remaining snapshot; loading a
    target version gives the state of that version, and after a rollback the
    database opens at the target. *)
From stdpp Require Import prelude strings gmap fin_maps sorting.
From Stdlib Require Import ZArith Lia.
From S2P Require Import Prelude OrdMap Codec Hash Wal Tree MultiTree Pending Db.
Local Open Scope Z_scope.

(** A missing value is an error. *)
Definition or_error {A} (e : string) (o : option A) : res A := match o with Some a => Ok a | None => Err e end.

(** ** Snapshot names *)

Definition SnapshotPrefix : bytes := str "snapshot-".
Definition SnapshotDirLen : nat := length SnapshotPrefix + 20.
Definition TmpSuffix : bytes := str "-tmp".

(** [w] decimal digits, the least significant last. *)
Fixpoint digits (w : nat) (v : Z) : bytes :=
  match w with
  | O => []
  | S w => digits w (v / 10) ++ [z2b (48 + v mod 10)]
  end.

(** [fmt.Sprintf("%s%020d", SnapshotPrefix, version)] *)
Definition snapshotName (version : Z) : bytes :=
  SnapshotPrefix ++ (if version <? 0 then z2b 45 :: digits 19 (- version) else digits 20 version).

Definition isSnapshotName (name : bytes) : bool :=
  bool_decide (take (length SnapshotPrefix) name = SnapshotPrefix) && (length name =? SnapshotDirLen)%nat.

(** [strconv.ParseInt(s, 10, 32)]. *)
Definition ParseInt32 (s : bytes) : option Z :=
  let '(neg, s) := match s with
                   | c :: s' => if decide (c = z2b 45) then (true, s')
                                else if decide (c = z2b 43) then (false, s') else (false, s)
                   | [] => (false, [])
                   end in
  let? un := ParseUint s in
  if 2 ^ 32 <=? un then None
  else if negb neg && (2 ^ 31 <=? un) then None
  else if neg && (2 ^ 31 <? un) then None
  else Some (if neg : bool then - un else un).

Definition parseVersion (name : bytes) : res Z :=
  if negb (isSnapshotName name) then Err "invalid snapshot name"
  else
    match ParseInt32 (drop (length SnapshotPrefix) name) with
    | Some v => Ok v
    | None => Err "snapshot version overflows"
    end.

(** ** The snapshot list *)

(** An entry of the directory; [en_content] matters for snapshot directories. *)
Record Entry : Type := mkEntryOf { en_name : bytes; en_isDir : bool; en_content : Dir }.

Section Traverse.
Context {S : Type} (callback : S -> Z -> S * bool * option string).

(** The callback says when to stop and may fail. *)
Definition process (s : S) (e : Entry) : S * bool * option string :=
  if negb (en_isDir e) || negb (isSnapshotName (en_name e)) then (s, false, None)
  else
    match parseVersion (en_name e) with
    | Ok version => callback s version
    | Err m | Panic m => (s, true, Some ("invalid snapshot name: " ++ m)%string)
    end.

Fixpoint traverse_list (s : S) (es : list Entry) : S * option string :=
  match es with
  | [] => (s, None)
  | e :: es =>
      let '(s, stop, err) := process s e in
      match stop, err with
      | false, None => traverse_list s es
      | _, _ => (s, err)
      end
  end.

Definition traverseSnapshots (es : list Entry) (ascending : bool) (s : S) : S * option string :=
  if ascending then traverse_list s es else traverse_list s (reverse es).
End Traverse.

(** The biggest snapshot version that is not above the target. *)
Definition seekSnapshot (es : list Entry) (targetVersion : Z) : res Z :=
  let '(found, err) := traverseSnapshots (fun (found : option Z) version =>
      if version <=? targetVersion then (Some version, true, None) else (found, false, None))
    es false None in
  match err, found with
  | Some e, _ => Err e
  | None, None => Err "target version is pruned"
  | None, Some v => Ok v
  end.

Definition firstSnapshotVersion (es : list Entry) : res Z :=
  let '(found, err) := traverseSnapshots (fun (_ : option Z) version => (Some version, true, None)) es true None in
  match err, found with
  | Some e, _ => Err e
  | None, None => Err "empty memiavl db"
  | None, Some v => Ok v
  end.

(** ** The directory *)

Record Root : Type := mkRoot { r_entries : list Entry; r_current : option bytes }.

(** [os.Readlink] of the current link. *)
Definition currentVersion (r : Root) : res Z :=
  match r_current r with
  | None => Err "file does not exist"
  | Some n => parseVersion n
  end.

Definition find_entry (n : bytes) (es : list Entry) : option Entry := list_find (fun e => en_name e = n) es ≫= fun p => Some p.2.

(** [atomicRemoveDir] of a snapshot; removing what is not there fails. *)
Definition atomicRemoveDir (n : bytes) (es : list Entry) : res (list Entry) :=
  match find_entry n es with
  | None => Err "file does not exist"
  | Some _ => Ok (filter (fun e => en_name e <> n) es)
  end.

(** Writing a directory under a name keeps the entries sorted by name. *)
Fixpoint put_entry (e : Entry) (es : list Entry) : list Entry :=
  match es with
  | [] => [e]
  | x :: es' =>
      match bytes_compare (en_name e) (en_name x) with
      | Lt => e :: es
      | Eq => e :: es'
      | Gt => x :: put_entry e es'
      end
  end.

Definition updateCurrentSymlink (r : Root) (n : bytes) : Root := mkRoot (r_entries r) (Some n).

(** Leftovers of an interrupted rewrite. *)
Definition removeTmpDirs (es : list Entry) : list Entry :=
  filter (fun e => negb (en_isDir e && has_suffix TmpSuffix (en_name e)) = true) es.

Section DbDir.
Context {L : Type} `{!Log L} (sha256 : bytes -> bytes).
Context (marshal : WALEntry -> res bytes) (unmarshal : bytes -> res WALEntry).

(** [initEmptyDB]: a snapshot of the empty multi-tree at version 0. *)
Definition initEmptyDB (r : Root) (initialVersion : Z) : res Root :=
  let* d := MTWriteSnapshot sha256 (fun _ => false) false (NewEmptyMultiTree initialVersion) in
  let n := snapshotName 0 in
  Ok (updateCurrentSymlink (mkRoot (put_entry (mkEntryOf n true d) (r_entries r)) (r_current r)) n).

(** The metadata file is found through the current link. *)
Definition createDBIfNotExist (r : Root) (initialVersion : Z) : res Root :=
  match r_current r with
  | Some n => match find_entry n (r_entries r) with Some _ => Ok r | None => initEmptyDB r initialVersion end
  | None => initEmptyDB r initialVersion
  end.

(** [RewriteSnapshotWithContext]: write under a temporary name, rename, link. *)
Definition RewriteSnapshot (cancelled : Z -> bool) (cancelledAtEnd readOnly : bool) (t : MultiTree) (r : Root) : res Root :=
  if readOnly then Err errReadOnly
  else
    let* d := MTWriteSnapshot sha256 cancelled cancelledAtEnd t in
    let n := snapshotName (MTVersion t) in
    match find_entry n (r_entries r) with
    | Some _ => Err "file exists"
    | None => Ok (updateCurrentSymlink (mkRoot (put_entry (mkEntryOf n true d) (r_entries r)) (r_current r)) n)
    end.

(** ** Pruning *)

(** The entries, the number of snapshots still to keep. *)
Definition prune_callback (currentVersion : Z) (s : list Entry * Z) (version : Z) : (list Entry * Z) * bool * option string :=
  let '(es, counter) := s in
  if currentVersion <=? version then (s, false, None)
  else if 0 <? counter then ((es, counter - 1), false, None)
  else
    match atomicRemoveDir (snapshotName version) es with
    | Ok es' => ((es', counter), false, None)
    | _ => (s, false, None)
    end.

(** The goroutine of [pruneSnapshots]: it returns the entries and the log, and
    the earliest version when it got that far. *)
Definition pruneSnapshots (r : Root) (l : L) (keepRecent initialVersion : Z) : Root * L * option Z :=
  match currentVersion r with
  | Ok cur =>
      let '((es, _), err) := traverseSnapshots (prune_callback cur) (r_entries r) false (r_entries r, keepRecent) in
      let r := mkRoot es (r_current r) in
      match err, firstSnapshotVersion es with
      | None, Ok earliest =>
          if i64 (earliest + 1) <? initialVersion then (r, l, Some earliest)
          else
            match walTruncateFront l (walIndex (i64 (earliest + 1)) initialVersion) with
            | Ok l' => (r, l', Some earliest)
            | _ => (r, l, Some earliest)
            end
      | _, _ => (r, l, None)
      end
  | _ => (r, l, None)
  end.

(** [EarliestVersion]; [cache] is 0 when nothing is cached. *)
Definition EarliestVersion (cache : Z) (es : list Entry) (initialVersion : Z) : res (Z * Z) :=
  if 0 <? cache then Ok (cache, cache)
  else
    let* v := firstSnapshotVersion es in
    let v := if v =? 0 then (if initialVersion =? 0 then 1 else initialVersion) else v in
    Ok (v, v).

(** [FirstVersion] of the log. *)
Definition FirstVersion (l : option L) (initialVersion : Z) : res Z :=
  match l with
  | None => Err "wal is not initialized"
  | Some l => let i := walFirstIndex l in if i =? 0 then Ok 0 else Ok (walVersion i initialVersion)
  end.

(** [GetLatestVersion], without loading the trees. *)
Definition GetLatestVersion (r : Root) (lastIndex : res Z) : res Z :=
  match (let? n := r_current r in find_entry n (r_entries r)) with
  | None => Ok 0
  | Some e =>
      let* (commit, iv) := readMetadata (en_content e) in
      let* lastIndex := lastIndex in
      if lastIndex =? 0 then Ok (ci_version commit) else Ok (walVersion lastIndex (u32 iv))
  end.

(** ** Load *)

Record Options : Type := mkOptions {
  o_CreateIfMissing : bool;
  o_InitialVersion : Z;
  o_ReadOnly : bool;
  o_InitialStores : list bytes;
  o_SnapshotKeepRecent : Z;
  o_SnapshotInterval : Z;
  o_TargetVersion : Z;
  o_AsyncCommitBuffer : Z;
  o_LoadForOverwriting : bool;
  o_SnapshotWriterLimit : Z;
}.

Definition Validate (o : Options) : option string :=
  if o_ReadOnly o && o_CreateIfMissing o then Some "can't create db in read-only mode"
  else if o_ReadOnly o && o_LoadForOverwriting o then Some "can't rollback db in read-only mode"
  else None.

Definition FillDefaults (o : Options) : Options :=
  mkOptions (o_CreateIfMissing o) (o_InitialVersion o) (o_ReadOnly o) (o_InitialStores o) (o_SnapshotKeepRecent o)
    (if o_SnapshotInterval o =? 0 then 1000 else o_SnapshotInterval o) (o_TargetVersion o) (o_AsyncCommitBuffer o)
    (o_LoadForOverwriting o) (if o_SnapshotWriterLimit o <=? 0 then 4 else o_SnapshotWriterLimit o).

(** Delete the snapshots above the target, the newest first. *)
Definition rollback_callback (target : Z) (es : list Entry) (version : Z) : list Entry * bool * option string :=
  if version <=? target then (es, true, None)
  else
    match atomicRemoveDir (snapshotName version) es with
    | Ok es' => (es', false, None)
    | Err e | Panic e => (es, true, Some e)
    end.

(** The rollback part of [Load], once the tree has been loaded. *)
Definition rollback (r : Root) (l : L) (snapshot : bytes) (target targetIndex : Z) : res (Root * L) :=
  match r_current r with
  | None => Err "fail to read current version"
  | Some cur =>
      let r := if decide (snapshot = cur) then r else updateCurrentSymlink r snapshot in
      let '(es, err) := traverseSnapshots (rollback_callback target) (r_entries r) false (r_entries r) in
      match err with
      | Some e => Err ("fail to prune snapshots: " ++ e)%string
      | None =>
          let* l := walTruncateBack l targetIndex in
          Ok (mkRoot es (r_current r), l)
      end
  end.

(** The directory and the log to load from; [None] for the snapshot means the
    current one. *)
Definition load_snapshot (r : Root) (n : bytes) : res MultiTree :=
  match find_entry n (r_entries r) with
  | None => Err "file does not exist"
  | Some e => LoadMultiTree sha256 (en_content e)
  end.

Definition Load (o : Options) (r : Root) (l : L) : res (@DB L * Root) :=
  match Validate o with
  | Some e => Err ("invalid options: " ++ e)%string
  | None =>
      let o := FillDefaults o in
      let* r := if o_CreateIfMissing o then createDBIfNotExist r (o_InitialVersion o) else Ok r in
      let r := if o_ReadOnly o then r else mkRoot (removeTmpDirs (r_entries r)) (r_current r) in
      let* snapshot :=
        if 0 <? o_TargetVersion o
        then let* v := seekSnapshot (r_entries r) (o_TargetVersion o) in Ok (snapshotName v)
        else or_error "file does not exist" (r_current r) in
      let* t := load_snapshot r snapshot in
      let back := o_LoadForOverwriting o && (0 <? o_TargetVersion o) in
      let targetIndex := walIndex (o_TargetVersion o) (initialVersion t) in
      if back && ((targetIndex =? 0) || (targetIndex <? walFirstIndex l) || (walLastIndex l <? targetIndex))
      then Err "rollback target version is outside the wal"
      else
        let* t :=
          if (o_TargetVersion o =? 0) || (MTVersion t <? o_TargetVersion o)
          then catchupWAL sha256 t (log_source unmarshal l) (o_TargetVersion o) else Ok t in
        let* (r, l) := if back : bool then rollback r l snapshot (o_TargetVersion o) targetIndex else Ok (r, l) in
        let d := mkDB (mkWorking (o_ReadOnly o) t NewPending) None (Some l) (negb (o_ReadOnly o)) (o_AsyncCommitBuffer o)
                   None false None (o_SnapshotInterval o) 5000000000 None in
        match o_InitialStores o with
        | [] => Ok (d, r)
        | names =>
            if negb (o_ReadOnly o) && (MTVersion t =? 0) then
              match dbApplyUpgrades (db_work d) ((fun n => mkUpgrade n [] false) <$> names) with
              | (Some e, _) => Err e
              | (None, w) => Ok (set_work d w, r)
              end
            else Ok (d, r)
        end
  end.

(** [SetInitialVersion] of the database rewrites the empty snapshot. *)
Definition dbSetInitialVersion (d : @DB L) (r : Root) (v : Z) : res (@DB L * Root) :=
  if w_readOnly (db_work d) then Err errReadOnly
  else if 0 <? MTVersion (db_tree d) then Err "initial version can only be set before any commit"
  else
    let* t := MTSetInitialVersion (db_tree d) v in
    let* r := initEmptyDB r (initialVersion t) in
    Ok (set_work d (with_tree (db_work d) t), r).

(** ** Reading changes from the log *)

(** The change set of a store in an entry: the first one of that name. *)
Definition entry_changes (store : bytes) (e : WALEntry) : ChangeSet :=
  match list_find (fun c => ncs_name c = store) (we_changesets e) with
  | Some (_, c) => ncs_changeset c
  | None => []
  end.

(** [for idx := startIndex; idx <= endIndex; idx++]; the callback may fail. *)
Fixpoint traverse_entries {S} (k : nat) (l : L) (iv idx : Z) (store : bytes)
  (fn : S -> Z -> ChangeSet -> S * option string) (s : S) : S * option string :=
  match k with
  | O => (s, None)
  | Datatypes.S k =>
      match (let* b := walRead l idx in unmarshal b) with
      | Ok e =>
          match fn s (walVersion idx iv) (entry_changes store e) with
          | (s, None) => traverse_entries k l iv (idx + 1) store fn s
          | r => r
          end
      | Err e | Panic e => (s, Some e)
      end
  end.

(** [waitWALForRead]; the log is read as it is when the wait ends. *)
Definition waitWALForRead (s : schedule) (upTo : Z) (wait : bool) (d : @DB L) : option (res L * @DB L) :=
  match db_wal d with
  | None => Some (Err "wal is not initialized", d)
  | Some _ =>
      let t := db_tree d in
      let version :=
        if negb wait || w_readOnly (db_work d) then 0
        else if (0 <? upTo) && (upTo <? MTVersion t) then upTo else MTVersion t in
      let? (err, d) := waitForWAL marshal version (initialVersion t) (SnapshotVersion t) s.1 s.2 d in
      match err, db_wal d with
      | None, Some l => Some (Ok l, d)
      | Some e, _ => Some (Err e, d)
      | None, None => Some (Err "log closed", d)
      end
  end.

(** The part of [traverseStateChanges] after the wait. *)
Definition traverse_log {S} (l : L) (iv : Z) (store : bytes) (startVersion endVersion : Z)
  (fn : S -> Z -> ChangeSet -> S * option string) (s : S) : S * option string :=
  let firstIndex := walFirstIndex l in
  let lastIndex := walLastIndex l in
  if (firstIndex =? 0) || (lastIndex =? 0) then (s, None)
  else
    let firstAvailable := walVersion firstIndex iv in
    let lastAvailable := walVersion lastIndex iv in
    let endVersion := if (endVersion =? 0) || (lastAvailable <? endVersion) then lastAvailable else endVersion in
    let startVersion := if startVersion <? firstAvailable then firstAvailable else startVersion in
    if endVersion <? startVersion then (s, None)
    else
      let startIndex := walIndex startVersion iv in
      let endIndex := walIndex endVersion iv in
      traverse_entries (Z.to_nat (endIndex - startIndex + 1)) l iv startIndex store fn s.

(** The result is the state of the callback with the error, and the database
    after the wait. *)
Definition traverseStateChanges {S} (sch : schedule) (d : @DB L) (store : bytes) (startVersion endVersion : Z)
  (fn : S -> Z -> ChangeSet -> S * option string) (s : S) : option (S * option string * @DB L) :=
  if endVersion <? 0 then Some (s, Some "invalid end version", d)
  else
    let reversed := (0 <? endVersion) && (endVersion <? startVersion) in
    let iv := initialVersion (db_tree d) in
    let? (r, d) := waitWALForRead sch endVersion (negb reversed) d in
    match r with
    | Ok l => Some (traverse_log l iv store startVersion endVersion fn s, d)
    | Err e | Panic e => Some (s, Some e, d)
    end.

Definition record_stores (targets : list bytes) (version : Z) (result : gmap bytes Z) (e : WALEntry) : gmap bytes Z :=
  fold_left (fun result c =>
    if decide (ncs_name c ∈ targets) then
      match result !! ncs_name c with Some _ => result | None => <[ncs_name c := version]> result end
    else result) (we_changesets e) result.

Fixpoint first_store_loop (k : nat) (l : L) (iv idx : Z) (targets : list bytes) (result : gmap bytes Z) : res (gmap bytes Z) :=
  match k with
  | O => Ok result
  | S k =>
      if decide (size result = length targets) then Ok result
      else
        let* b := walRead l idx in
        let* e := unmarshal b in
        first_store_loop k l iv (idx + 1) targets (record_stores targets (walVersion idx iv) result e)
  end.

Definition FirstStoreVersions (sch : schedule) (d : @DB L) (stores : list bytes) : option (res (gmap bytes Z) * @DB L) :=
  match stores with
  | [] => Some (match db_walErr d with Some e => Err e | None => Ok ∅ end, d)
  | _ =>
      let iv := initialVersion (db_tree d) in
      let? (r, d) := waitWALForRead sch 0 true d in
      Some (let* l := r in
            let firstIndex := walFirstIndex l in
            let lastIndex := walLastIndex l in
            if (firstIndex =? 0) || (lastIndex =? 0) then Ok ∅
            else first_store_loop (Z.to_nat (lastIndex - firstIndex + 1)) l iv firstIndex (remove_dups stores) ∅, d)
  end.
End DbDir.

(** ** Names and versions *)

Lemma digits_len w v : length (digits w v) = w.
Proof. revert v. induction w as [|w IH]; intros v; [done|]. cbn. rewrite length_app, IH. cbn. lia. Qed.

Lemma digit_byte v : b2z (z2b (48 + v mod 10)) = 48 + v mod 10.
Proof. rewrite b2z_z2b. apply Z.mod_small. pose proof (Z.mod_pos_bound v 10). lia. Qed.

Lemma digits_all w v : forallb is_digit (digits w v) = true.
Proof.
  revert v. induction w as [|w IH]; intros v; [done|]. cbn. rewrite forallb_app, IH. cbn.
  unfold is_digit. rewrite digit_byte. pose proof (Z.mod_pos_bound v 10). apply andb_true_iff. split; [|done].
  apply andb_true_iff. split; apply Z.leb_le; lia.
Qed.

Lemma digits_value w v : 0 <= v < 10 ^ Z.of_nat w ->
  fold_left (fun a b => a * 10 + (b2z b - 48)) (digits w v) 0 = v.
Proof.
  revert v. induction w as [|w IH]; intros v Hv; [cbn in *; lia|].
  rewrite Nat2Z.inj_succ, Z.pow_succ_r in Hv by lia. cbn [digits]. rewrite fold_left_app. cbn [fold_left].
  rewrite digit_byte, IH by (split; [apply Z.div_pos|apply Z.div_lt_upper_bound]; lia).
  pose proof (Z.div_mod v 10). lia.
Qed.

Lemma digits_parse v : 0 <= v < 2 ^ 63 -> ParseUint (digits 20 v) = Some v.
Proof.
  intros Hv. unfold ParseUint, len. rewrite digits_len, digits_all, digits_value by (cbn; lia).
  change (0 <? Z.of_nat 20) with true. cbn [andb]. by rewrite (proj2 (Z.ltb_lt v (2 ^ 64))) by lia.
Qed.

Lemma digits_head w v : exists c s, digits (S w) v = c :: s /\ c <> z2b 45 /\ c <> z2b 43.
Proof.
  pose proof (digits_all (S w) v) as Ha. pose proof (digits_len (S w) v) as Hl.
  destruct (digits (S w) v) as [|c s]; [done|]. exists c, s. cbn in Ha. apply andb_true_iff in Ha as [Hc _].
  split_and!; [done| |]; intros ->; by vm_compute in Hc.
Qed.

Lemma compare_app_same a b c : bytes_compare (a ++ b) (a ++ c) = bytes_compare b c.
Proof. induction a as [|x a IH]; [done|]. cbn. by rewrite Z.compare_refl. Qed.

Lemma compare_app a a' b b' : length a = length a' ->
  bytes_compare (a ++ b) (a' ++ b') = match bytes_compare a a' with Eq => bytes_compare b b' | c => c end.
Proof.
  revert a'. induction a as [|x a IH]; intros [|x' a'] Hl; try done. cbn. destruct (b2z x ?= b2z x')%Z; [|done..].
  apply IH. cbn in Hl. lia.
Qed.

Lemma digits_compare w v v' : 0 <= v < 10 ^ Z.of_nat w -> 0 <= v' < 10 ^ Z.of_nat w ->
  bytes_compare (digits w v) (digits w v') = (v ?= v').
Proof.
  revert v v'. induction w as [|w IH]; intros v v' Hv Hv'.
  { cbn in *. symmetry. apply Z.compare_eq_iff. lia. }
  rewrite Nat2Z.inj_succ, Z.pow_succ_r in Hv, Hv' by lia. cbn [digits].
  rewrite compare_app by (by rewrite !digits_len).
  rewrite IH by (split; [apply Z.div_pos|apply Z.div_lt_upper_bound]; lia).
  cbn. rewrite !digit_byte. pose proof (Z.div_mod v 10). pose proof (Z.div_mod v' 10).
  pose proof (Z.mod_pos_bound v 10). pose proof (Z.mod_pos_bound v' 10).
  destruct (Z.compare_spec (v / 10) (v' / 10)); symmetry; [|apply Z.compare_lt_iff; lia|apply Z.compare_gt_iff; lia].
  destruct (Z.compare_spec (48 + v mod 10) (48 + v' mod 10));
    [apply Z.compare_eq_iff|apply Z.compare_lt_iff|apply Z.compare_gt_iff]; lia.
Qed.

Lemma name_is_name v : 0 <= v -> isSnapshotName (snapshotName v) = true.
Proof.
  intros Hv. unfold isSnapshotName, snapshotName, SnapshotDirLen. rewrite (proj2 (Z.ltb_ge v 0)) by lia.
  rewrite take_app_length, length_app, digits_len, Nat.eqb_refl. by rewrite bool_decide_eq_true_2.
Qed.

Lemma drop_name v : 0 <= v -> drop (length SnapshotPrefix) (snapshotName v) = digits 20 v.
Proof. intros Hv. unfold snapshotName. rewrite (proj2 (Z.ltb_ge v 0)) by lia. by rewrite drop_app_length. Qed.

Lemma parse_name v : 0 <= v < 2 ^ 63 ->
  parseVersion (snapshotName v) = if v <? 2 ^ 31 then Ok v else Err "snapshot version overflows".
Proof.
  intros Hv. unfold parseVersion. rewrite name_is_name, drop_name by lia. cbn [negb]. unfold ParseInt32.
  pose proof (digits_parse v Hv) as Hp. destruct (digits_head 19 v) as (c & s & E & H1 & H2). rewrite E in *.
  rewrite !decide_False by done. cbv iota zeta. rewrite Hp. cbn [negb andb mbind option_bind]. cbv beta iota.
  destruct (Z.leb_spec (2 ^ 32) v), (Z.leb_spec (2 ^ 31) v), (Z.ltb_spec v (2 ^ 31)); done || lia.
Qed.

Lemma parse_small v : 0 <= v < 2 ^ 31 -> parseVersion (snapshotName v) = Ok v.
Proof. intros Hv. rewrite parse_name by lia. by rewrite (proj2 (Z.ltb_lt v (2 ^ 31))) by lia. Qed.

Lemma name_compare v v' : 0 <= v < 2 ^ 31 -> 0 <= v' < 2 ^ 31 ->
  bytes_compare (snapshotName v) (snapshotName v') = (v ?= v').
Proof.
  intros Hv Hv'. unfold snapshotName. rewrite !(proj2 (Z.ltb_ge _ 0)) by lia.
  rewrite compare_app_same. apply digits_compare; cbn; lia.
Qed.

Lemma name_inj v v' : 0 <= v < 2 ^ 31 -> 0 <= v' < 2 ^ 31 -> snapshotName v = snapshotName v' -> v = v'.
Proof. intros Hv Hv' E. apply bytes_compare_eq in E. rewrite name_compare in E by done. by apply Z.compare_eq_iff. Qed.

(** ** A directory as its versions *)

(** The version of a directory entry that is a snapshot. *)
Definition entry_version (e : Entry) : option Z :=
  if en_isDir e && isSnapshotName (en_name e)
  then match parseVersion (en_name e) with Ok v => Some v | _ => None end
  else None.
Definition versions (es : list Entry) : list Z := omap entry_version es.

(** A directory that the database has written: the entries in the order of
    [os.ReadDir], every snapshot directory named after a version. *)
Definition named (e : Entry) : Prop :=
  en_isDir e && isSnapshotName (en_name e) = true -> exists v, 0 <= v < 2 ^ 31 /\ en_name e = snapshotName v.
Record dir_ok (es : list Entry) : Prop := {
  dir_sorted : StronglySorted bytes_lt (en_name <$> es);
  dir_named : Forall named es;
}.

Lemma entry_version_name e v : named e -> entry_version e = Some v ->
  en_isDir e = true /\ 0 <= v < 2 ^ 31 /\ en_name e = snapshotName v.
Proof.
  intros Hn. unfold entry_version. destruct (en_isDir e && isSnapshotName (en_name e)) eqn:E; [|done].
  destruct (Hn E) as (v' & Hv & En). rewrite En, parse_small by done. intros [= <-].
  apply andb_true_iff in E as [-> _]. done.
Qed.

Lemma entry_version_snapshot v d : 0 <= v < 2 ^ 31 -> entry_version (mkEntryOf (snapshotName v) true d) = Some v.
Proof. intros Hv. unfold entry_version. cbn [en_name en_isDir andb]. by rewrite name_is_name, parse_small by lia. Qed.

(** Walking over versions. *)
Fixpoint walk {S} (cb : S -> Z -> S * bool * option string) (s : S) (vs : list Z) : S * option string :=
  match vs with
  | [] => (s, None)
  | v :: vs =>
      let '(s, stop, err) := cb s v in
      match stop, err with
      | false, None => walk cb s vs
      | _, _ => (s, err)
      end
  end.

Lemma process_version {S} (cb : S -> Z -> S * bool * option string) s e : named e ->
  process cb s e = match entry_version e with Some v => cb s v | None => (s, false, None) end.
Proof.
  intros Hn. unfold process, entry_version. rewrite <- negb_andb. specialize (Hn : _ = true -> _).
  destruct (en_isDir e && isSnapshotName (en_name e)); [|done]. destruct Hn as (v & Hv & ->); [done|].
  cbn [negb]. by rewrite parse_small.
Qed.

Lemma traverse_walk {S} (cb : S -> Z -> S * bool * option string) es : Forall named es -> forall s,
  traverse_list cb s es = walk cb s (versions es).
Proof.
  induction 1 as [|e es Hn _ IH]; intros s; [done|]. cbn [traverse_list]. rewrite process_version by done.
  unfold versions in *. csimpl. destruct (entry_version e) as [v|]; [|apply IH]. cbn [walk].
  destruct (cb s v) as [[s' []] []]; done || apply IH.
Qed.

Lemma omap_reverse {A B} (f : A -> option B) l : omap f (reverse l) = reverse (omap f l).
Proof.
  induction l as [|a l IH]; [done|]. rewrite reverse_cons, omap_app, IH. csimpl.
  destruct (f a); [by rewrite reverse_cons|by rewrite app_nil_r].
Qed.

Lemma traverse_versions {S} (cb : S -> Z -> S * bool * option string) es (asc : bool) s : Forall named es ->
  traverseSnapshots cb es asc s = walk cb s (if asc then versions es else reverse (versions es)).
Proof.
  intros Hn. unfold traverseSnapshots. destruct asc; [by apply traverse_walk|].
  rewrite traverse_walk by (by apply Forall_reverse). unfold versions. by rewrite omap_reverse.
Qed.

Lemma elem_versions es v : v ∈ versions es <-> exists e, e ∈ es /\ entry_version e = Some v.
Proof. unfold versions. by rewrite list_elem_of_omap. Qed.

Lemma versions_sorted es : dir_ok es -> StronglySorted Z.lt (versions es).
Proof.
  intros [Hs Hn]. induction es as [|e es IH]; [constructor|]. rewrite fmap_cons in Hs. unfold versions in *. csimpl.
  apply StronglySorted_inv in Hs as [Hs Hf]. apply Forall_cons in Hn as [He Hn].
  destruct (entry_version e) as [v|] eqn:E; [|auto]. constructor; [auto|]. apply Forall_forall. intros v' Hv'.
  apply (elem_versions es) in Hv' as (e' & Hin & E').
  apply entry_version_name in E as (_ & Hv & En); [|done].
  apply entry_version_name in E' as (_ & Hv' & En'); [|by rewrite Forall_forall in Hn; apply Hn].
  rewrite Forall_forall in Hf. specialize (Hf _ (list_elem_of_fmap_2 en_name _ _ Hin)). rewrite En, En' in Hf.
  unfold bytes_lt in Hf. rewrite name_compare in Hf by done. by apply Z.compare_lt_iff.
Qed.

(** ** Seeking *)

Lemma walk_find (P : Z -> Prop) `{!forall v, Decision (P v)} vs : forall s,
  walk (fun (found : option Z) v => if decide (P v) then (Some v, true, None) else (found, false, None)) s vs =
    (match head (filter P vs) with Some v => Some v | None => s end, None).
Proof.
  induction vs as [|v vs IH]; intros s; [done|]. cbn [walk]. rewrite filter_cons. destruct (decide (P v)); [done|apply IH].
Qed.

Lemma walk_ext {S} (cb cb' : S -> Z -> S * bool * option string) vs : (forall s v, cb s v = cb' s v) -> forall s,
  walk cb s vs = walk cb' s vs.
Proof.
  intros H. induction vs as [|v vs IH]; intros s; [done|]. cbn. rewrite H.
  destruct (cb' s v) as [[s' []] []]; done || apply IH.
Qed.

Section Filters.
Context {A : Type} (P : A -> Prop) `{!forall v, Decision (P v)}.

Lemma filter_all (l : list A) : (forall x, x ∈ l -> P x) -> filter P l = l.
Proof. induction l as [|a l IH]; intros HP; [done|]. rewrite filter_cons, decide_True by set_solver. f_equal. set_solver. Qed.

Lemma list_filter_iff' (Q : A -> Prop) `{!forall v, Decision (Q v)} (l : list A) :
  (forall x, x ∈ l -> P x <-> Q x) -> filter P l = filter Q l.
Proof.
  induction l as [|a l IH]; intros HP; [done|]. rewrite !filter_cons.
  destruct (decide (P a)), (decide (Q a)); [f_equal; set_solver|set_solver..].
Qed.

Lemma filter_none (l : list A) : (forall x, x ∈ l -> ~ P x) -> filter P l = [].
Proof. induction l as [|a l IH]; intros HP; [done|]. rewrite filter_cons, decide_False by set_solver. set_solver. Qed.
End Filters.

Lemma filter_reverse {A} (P : A -> Prop) `{!forall v, Decision (P v)} (l : list A) : filter P (reverse l) = reverse (filter P l).
Proof.
  induction l as [|a l IH]; [done|]. rewrite reverse_cons, filter_app, IH, !filter_cons, filter_nil.
  destruct (decide (P a)); [by rewrite reverse_cons|by rewrite app_nil_r].
Qed.

Lemma seek_last es target : Forall named es ->
  seekSnapshot es target = match last (filter (fun v => v <= target) (versions es)) with
                           | Some v => Ok v | None => Err "target version is pruned" end.
Proof.
  intros Hn. unfold seekSnapshot. rewrite traverse_versions by done. cbv iota.
  rewrite (walk_ext _ (fun (found : option Z) v => if decide (v <= target) then (Some v, true, None) else (found, false, None))).
  - rewrite walk_find, filter_reverse, head_reverse. by destruct (last _).
  - intros s v. destruct (Z.leb_spec v target), (decide (v <= target)); done || lia.
Qed.

Lemma first_head es : Forall named es ->
  firstSnapshotVersion es = or_error "empty memiavl db" (head (versions es)).
Proof. intros Hn. unfold firstSnapshotVersion. rewrite traverse_versions by done. cbv iota. destruct (versions es) as [|v vs]; reflexivity. Qed.

Lemma sorted_head_least vs v : StronglySorted Z.lt vs -> head vs = Some v -> v ∈ vs /\ forall w, w ∈ vs -> v <= w.
Proof.
  intros Hs. destruct vs as [|x vs]; [done|]. intros [= ->]. apply StronglySorted_inv in Hs as [_ Hf].
  split; [left|]. intros w Hw. apply elem_of_cons in Hw as [->|Hw]; [lia|]. rewrite Forall_forall in Hf.
  specialize (Hf w Hw). lia.
Qed.

Lemma sorted_last_greatest vs v : StronglySorted Z.lt vs -> last vs = Some v -> v ∈ vs /\ forall w, w ∈ vs -> w <= v.
Proof.
  intros Hs E. apply last_Some in E as [vs' ->]. split; [set_solver|]. intros w Hw.
  apply elem_of_app in Hw as [Hw|Hw]; [|set_solver by lia].
  induction vs' as [|x vs' IH]; [set_solver|]. apply StronglySorted_inv in Hs as [Hs Hf].
  apply elem_of_cons in Hw as [->|Hw]; [|by apply IH]. rewrite Forall_forall in Hf. specialize (Hf v). set_solver by lia.
Qed.

Lemma sorted_filter (P : Z -> Prop) `{!forall v, Decision (P v)} vs :
  StronglySorted Z.lt vs -> StronglySorted Z.lt (filter P vs).
Proof.
  induction 1 as [|v vs Hs IH Hf]; [constructor|]. rewrite filter_cons. destruct (decide (P v)); [|done].
  constructor; [done|]. rewrite Forall_forall in *. intros w Hw. apply Hf. by apply list_elem_of_filter in Hw as [_ ?].
Qed.

Lemma seek_greatest es target v : dir_ok es ->
  seekSnapshot es target = Ok v <-> v ∈ versions es /\ v <= target /\ forall w, w ∈ versions es -> w <= target -> w <= v.
Proof.
  intros Hd. rewrite seek_last by apply Hd. pose proof (versions_sorted es Hd) as Hs.
  apply (sorted_filter (fun v => v <= target)) in Hs.
  assert (forall w, w ∈ filter (fun v => v <= target) (versions es) <-> w <= target /\ w ∈ versions es) as Hf
    by (intros w; by rewrite list_elem_of_filter).
  destruct (last _) as [u|] eqn:E.
  - apply sorted_last_greatest in E as [Hu Hg]; [|done]. apply Hf in Hu as [H1 H2]. split.
    + intros [= <-]. split_and!; [done..|]. intros w Hw Hle. apply Hg, Hf. done.
    + intros (Hv & Hle & Hall). f_equal. specialize (Hall u H2 H1). assert (v <= u) by (apply Hg, Hf; done). lia.
  - split; [done|]. intros (Hv & Hle & _). apply last_None in E. specialize (Hf v). rewrite E in Hf. set_solver.
Qed.

(** ** Removing snapshots *)

Definition without (ns : list bytes) (es : list Entry) : list Entry := filter (fun e => en_name e ∉ ns) es.

Lemma find_entry_None n es : find_entry n es = None <-> Forall (fun e => en_name e <> n) es.
Proof.
  unfold find_entry. destruct (list_find _ es) as [[i e]|] eqn:E; cbn.
  - apply list_find_Some in E as (Hi & Hp & _). split; [done|]. rewrite Forall_forall. intros H.
    exfalso. apply (H e); [by eapply list_elem_of_lookup_2|done].
  - apply list_find_None in E. done.
Qed.

Lemma remove_without n es :
  match atomicRemoveDir n es with Ok es' => es' | _ => es end = without [n] es /\
  (atomicRemoveDir n es = Ok (without [n] es) \/ find_entry n es = None).
Proof.
  unfold atomicRemoveDir, without.
  assert (forall es, filter (fun e => en_name e <> n) es = filter (fun e => en_name e ∉ [n]) es) as Hf
    by (intros es'; apply list_filter_iff; set_solver).
  destruct (find_entry n es) eqn:E; [by rewrite Hf; eauto|]. split; [|by right]. rewrite <- Hf.
  apply find_entry_None in E. rewrite Forall_forall in E. by rewrite filter_all.
Qed.

Lemma without_app ns ns' es : without ns' (without ns es) = without (ns ++ ns') es.
Proof.
  unfold without. rewrite list_filter_filter. apply list_filter_iff. set_solver.
Qed.

Lemma without_nil es : without [] es = es.
Proof. apply filter_all. set_solver. Qed.

Lemma sorted_names_filter (P : Entry -> Prop) `{!forall e, Decision (P e)} es : dir_ok es -> dir_ok (filter P es).
Proof.
  intros [Hs Hn]. split.
  - clear Hn. induction es as [|e es IH]; [constructor|]. rewrite fmap_cons in Hs.
    apply StronglySorted_inv in Hs as [Hs Hf]. rewrite filter_cons. destruct (decide _); [|auto].
    rewrite fmap_cons. constructor; [auto|]. rewrite Forall_forall in *. intros x Hin. apply Hf.
    apply list_elem_of_fmap in Hin as (e' & -> & Hin). apply list_elem_of_filter in Hin as [_ Hin]. by apply list_elem_of_fmap_2.
  - rewrite Forall_forall in *. intros e He. apply list_elem_of_filter in He as [_ He]. auto.
Qed.

Lemma without_ok ns es : dir_ok es -> dir_ok (without ns es).
Proof. apply sorted_names_filter. Qed.

Lemma versions_without vs es : dir_ok es -> Forall (fun v => 0 <= v < 2 ^ 31) vs ->
  versions (without (snapshotName <$> vs) es) = filter (fun v => v ∉ vs) (versions es).
Proof.
  intros [_ Hn] Hvs. unfold versions, without. induction Hn as [|e es He _ IH]; [done|].
  rewrite filter_cons. csimpl. destruct (entry_version e) as [v|] eqn:E.
  - pose proof (entry_version_name e v He E) as (_ & Hv & En). rewrite filter_cons.
    assert (en_name e ∉ snapshotName <$> vs <-> v ∉ vs) as Hiff.
    { rewrite En, list_elem_of_fmap. split; intros H; intros Hx; apply H.
      - by exists v.
      - destruct Hx as (v' & Ev & Hin). rewrite Forall_forall in Hvs. assert (v = v') as -> by (apply name_inj; auto). done. }
    destruct (decide (en_name e ∉ snapshotName <$> vs)), (decide (v ∉ vs)); try tauto; csimpl; rewrite ?E; by rewrite IH.
  - destruct (decide _); csimpl; rewrite ?E; apply IH.
Qed.

Lemma prune_walk cur vs : forall es c, 0 <= c ->
  exists c', walk (prune_callback cur) (es, c) vs =
    ((without (snapshotName <$> drop (Z.to_nat c) (filter (fun v => v < cur) vs)) es, c'), None).
Proof.
  induction vs as [|v vs IH]; intros es c Hc.
  { exists c. cbn. by rewrite drop_nil, without_nil. }
  cbn [walk prune_callback]. rewrite filter_cons.
  destruct (Z.leb_spec cur v), (decide (v < cur)); try lia; [apply IH; lia|].
  destruct (Z.ltb_spec 0 c).
  - destruct (IH es (c - 1)) as [c' ->]; [lia|]. exists c'.
    by replace (Z.to_nat c) with (S (Z.to_nat (c - 1))) by lia.
  - replace c with 0 in * by lia. destruct (IH (without [snapshotName v] es) 0) as [c' E]; [lia|]. exists c'.
    rewrite drop_0, without_app in E. rewrite drop_0, fmap_cons. cbn [app] in E. rewrite <- E.
    destruct (remove_without (snapshotName v) es) as [Hr [->|Hf]]; [done|]. unfold atomicRemoveDir in *. rewrite Hf in *.
    by rewrite <- Hr.
Qed.

Lemma find_without n ns es : n ∉ ns -> find_entry n es <> None -> find_entry n (without ns es) <> None.
Proof.
  intros Hn Hf Hw. apply Hf. apply find_entry_None in Hw. apply find_entry_None. rewrite Forall_forall in *.
  intros e He En. apply (Hw e); [|done]. apply list_elem_of_filter. by rewrite En.
Qed.

Lemma rollback_walk target vs : StronglySorted (fun v w => w < v) vs -> forall es,
  Forall (fun v => 0 <= v < 2 ^ 31 /\ find_entry (snapshotName v) es <> None) vs ->
  walk (rollback_callback target) es vs = (without (snapshotName <$> filter (fun v => target < v) vs) es, None).
Proof.
  induction 1 as [|v vs Hs IH Hf]; intros es He; [cbn; by rewrite without_nil|].
  apply Forall_cons in He as [[Hv Hfe] He]. cbn [walk]. unfold rollback_callback at 1. rewrite filter_cons.
  destruct (Z.leb_spec v target), (decide (target < v)); try lia.
  - assert (filter (fun v => target < v) vs = []) as ->; [|cbn; by rewrite without_nil].
    rewrite Forall_forall in Hf. apply filter_none. intros w Hw. specialize (Hf w Hw). lia.
  - destruct (remove_without (snapshotName v) es) as [_ [->|]]; [|done]. rewrite IH.
    + by rewrite without_app, fmap_cons.
    + rewrite Forall_forall in *. intros w Hw. destruct (He w Hw) as [Hw2 Hfw]. split; [done|]. apply find_without; [|done].
      intros ->%list_elem_of_singleton%name_inj; [|done..]. specialize (Hf v Hw). lia.
Qed.

Lemma sorted_reverse vs : StronglySorted Z.lt vs -> StronglySorted (fun v w => w < v) (reverse vs).
Proof.
  induction 1 as [|v vs Hs IH Hf]; [constructor|]. rewrite reverse_cons.
  assert (Forall (fun w => v < w) (reverse vs)) as Hr by by apply Forall_reverse.
  clear Hs Hf. induction (reverse vs) as [|w ws IHw]; [repeat constructor|]. apply Forall_cons in Hr as [Hw Hr].
  apply StronglySorted_inv in IH as [IH Hf]. cbn. constructor; [auto|]. apply Forall_app. repeat constructor; done.
Qed.

Lemma version_entry es v : dir_ok es -> v ∈ versions es -> 0 <= v < 2 ^ 31 /\ find_entry (snapshotName v) es <> None.
Proof.
  intros [_ Hn] (e & He & Ev)%elem_versions. rewrite Forall_forall in Hn.
  destruct (entry_version_name e v (Hn e He) Ev) as (_ & Hv & En). split; [done|].
  intros Hf. apply find_entry_None in Hf. rewrite Forall_forall in Hf. by apply (Hf e).
Qed.

Lemma versions_range es : dir_ok es -> Forall (fun v => 0 <= v < 2 ^ 31) (versions es).
Proof. intros Hd. apply Forall_forall. intros v Hv. by apply (version_entry es v Hd). Qed.

(** What is left of a sorted list when all but the last [k] elements below
    [cur] are dropped. *)
Lemma filter_drop_below cur k vs : StronglySorted Z.lt vs ->
  filter (fun v => v ∉ drop k (filter (fun v => v < cur) (reverse vs))) vs =
  (let older := filter (fun v => v < cur) vs in drop (length older - k) older) ++ filter (fun v => cur <= v) vs.
Proof.
  intros Hs. cbv zeta. rewrite filter_reverse, drop_reverse.
  assert (vs = filter (fun v => v < cur) vs ++ filter (fun v => cur <= v) vs) as Hsplit.
  { clear k. induction Hs as [|v vs _ IH Hf]; [done|]. rewrite !filter_cons.
    destruct (decide (v < cur)), (decide (cur <= v)); try lia; [by rewrite IH at 1|].
    assert (filter (fun v => v < cur) vs = []) as E.
    { rewrite Forall_forall in Hf. apply filter_none. intros w Hw. specialize (Hf w Hw). lia. }
    rewrite E in *. cbn in *. by f_equal. }
  pose proof (sorted_filter (fun v => v < cur) vs Hs) as Ho. set (older := filter (fun v => v < cur) vs) in *.
  rewrite Hsplit at 1. rewrite filter_app. set (j := (length older - k)%nat).
  assert (NoDup older) as Hnd.
  { clear -Ho. induction Ho as [|v l _ IH Hf]; constructor; [|done]. rewrite Forall_forall in Hf. intros Hin. specialize (Hf v Hin). lia. }
  f_equal.
  - rewrite <- (take_drop j older) in Hnd |- * at 1. apply NoDup_app in Hnd as (_ & Hd & _). rewrite filter_app.
    assert (filter (fun v => v ∉ reverse (take j older)) (take j older) = []) as ->.
    { apply filter_none. intros x Hx. rewrite elem_of_reverse. tauto. }
    cbn. apply filter_all. intros x Hx. rewrite elem_of_reverse. intros Hx'. by apply (Hd x).
  - apply filter_all. intros x Hx. rewrite elem_of_reverse. intros Hx'.
    apply list_elem_of_filter in Hx as [Hx _]. assert (x ∈ older) as Hxo by (by apply (elem_of_take x j) in Hx' as (i & ? & _); eapply list_elem_of_lookup_2).
    apply list_elem_of_filter in Hxo as [? _]. lia.
Qed.


Lemma name_not_tmp v : 0 <= v -> has_suffix TmpSuffix (snapshotName v) = false.
Proof.
  intros Hv. unfold has_suffix. rewrite bool_decide_eq_false_2; [done|].
  unfold snapshotName. rewrite (proj2 (Z.ltb_ge v 0)) by lia. rewrite length_app, digits_len.
  replace (length SnapshotPrefix + 20 - length TmpSuffix)%nat with (length SnapshotPrefix + 16)%nat by done.
  rewrite drop_app_add. intros E. pose proof (digits_all 20 v) as Ha.
  rewrite <- (take_drop 16 (digits 20 v)), forallb_app, E in Ha. apply andb_true_iff in Ha as [_ Ha]. by vm_compute in Ha.
Qed.

(** Cleaning up leaves the snapshots alone. *)
Lemma tmp_entries es e : e ∈ removeTmpDirs es -> e ∈ es.
Proof. intros He. by apply list_elem_of_filter in He as [_ He]. Qed.

Lemma tmp_versions es : Forall named es -> versions (removeTmpDirs es) = versions es.
Proof.
  unfold versions, removeTmpDirs. induction 1 as [|e es He _ IH]; [done|]. rewrite filter_cons. csimpl.
  destruct (entry_version e) as [v|] eqn:E.
  - destruct (entry_version_name e v He E) as (_ & Hv & En). rewrite decide_True.
    + csimpl. by rewrite E, IH.
    + rewrite En, name_not_tmp by lia. by rewrite andb_false_r.
  - destruct (decide _); csimpl; rewrite ?E; apply IH.
Qed.

Lemma sorted_name_unique es e e' : StronglySorted bytes_lt (en_name <$> es) -> e ∈ es -> e' ∈ es ->
  en_name e = en_name e' -> e = e'.
Proof.
  induction es as [|x es IH]; intros Hs He He' En; [set_solver|]. rewrite fmap_cons in Hs.
  apply StronglySorted_inv in Hs as [Hs Hf]. rewrite Forall_forall in Hf.
  assert (forall y, y ∈ es -> en_name y <> en_name x) as Hx.
  { intros y Hy E. specialize (Hf _ (list_elem_of_fmap_2 en_name _ _ Hy)). rewrite E in Hf. by apply bytes_lt_irrefl in Hf. }
  apply elem_of_cons in He as [->|He], He' as [->|He']; try done.
  - symmetry in En. by apply Hx in En.
  - by apply Hx in En.
  - by apply IH.
Qed.

Lemma find_version es v : dir_ok es -> v ∈ versions es ->
  exists e, find_entry (snapshotName v) es = Some e /\ e ∈ es /\ entry_version e = Some v.
Proof.
  intros Hd Hv. pose proof (version_entry es v Hd Hv) as [Hr Hf]. apply elem_versions in Hv as (e & He & Ev).
  destruct Hd as [Hs Hn]. rewrite Forall_forall in Hn. destruct (entry_version_name e v (Hn e He) Ev) as (_ & _ & En).
  destruct (find_entry (snapshotName v) es) as [e'|] eqn:E; [|done].
  assert (e' = e) as ->; [|by exists e]. unfold find_entry in E. destruct (list_find _ es) as [[i e2]|] eqn:El; [|done].
  apply list_find_Some in El as (Hi & Hp & _). injection E as <-. apply (sorted_name_unique es); [done| |done|by rewrite Hp, En].
  by eapply list_elem_of_lookup_2.
Qed.

Lemma removed_range es cur k : dir_ok es ->
  Forall (fun v => 0 <= v < 2 ^ 31) (drop k (filter (fun v => v < cur) (reverse (versions es)))).
Proof.
  intros Hd. apply Forall_drop, Forall_forall. intros v Hv. apply list_elem_of_filter in Hv as [_ Hv].
  rewrite elem_of_reverse in Hv. by apply (version_entry _ v Hd).
Qed.

Lemma named_in es e : dir_ok es -> e ∈ es -> named e.
Proof. intros [_ Hn] He. rewrite Forall_forall in Hn. auto. Qed.

Lemma named_version e v : named e -> entry_version e = Some v -> en_name e = snapshotName v.
Proof. intros Hn Ev. by apply (entry_version_name e v Hn Ev). Qed.

(** An entry under the name of a version is the snapshot of that version. *)
Lemma entry_of_version es v e : dir_ok es -> v ∈ versions es -> e ∈ es -> en_name e = snapshotName v -> entry_version e = Some v.
Proof.
  intros Hd Hv He En. destruct (find_version es v Hd Hv) as (e' & _ & He' & Ev).
  assert (e = e') as ->; [|done]. apply (sorted_name_unique es); [apply Hd|done..|].
  by rewrite En, (named_version e' v (named_in _ _ Hd He') Ev).
Qed.

(** ** Cutting the log *)

Section Cut.
Context {L : Type} `{!Log L, !LogLaws L}.

(** The entry with index [i], when the log has it. *)
Definition entry_data (l : L) (i : Z) : option bytes :=
  if base l <? i then entries l !! Z.to_nat (i - base l - 1) else None.

Lemma read_entry_data l i d : entry_data l i = Some d -> walRead l i = Ok d.
Proof. unfold entry_data. destruct (Z.ltb_spec (base l) i); [|done]. by apply law_read. Qed.

Lemma front_keeps l l' j i : walTruncateFront l j = Ok l' -> j <= i -> entry_data l' i = entry_data l i.
Proof.
  intros (Hj & Hb & He)%law_front Hi. unfold entry_data. rewrite Hb, He.
  destruct (Z.ltb_spec (j - 1) i), (Z.ltb_spec (base l) i); try lia. rewrite lookup_drop. f_equal. lia.
Qed.

Lemma front_last l l' j : walTruncateFront l j = Ok l' -> walLastIndex l' = walLastIndex l.
Proof. intros (Hj & Hb & He)%law_front. rewrite !law_last, Hb, He. unfold len in *. rewrite length_drop. lia. Qed.

(** The index after which a snapshot of version [v] needs the log. *)
Lemma walIndex_le v iv i : 0 <= v < 2 ^ 31 -> 0 <= iv < 2 ^ 32 -> 1 <= i < 2 ^ 62 -> iv <= v + 1 ->
  v < walVersion i iv -> walIndex (i64 (v + 1)) iv <= i.
Proof.
  intros Hv Hiv Hi Hle. unfold walVersion, walIndex. rewrite (i64_small (v + 1)) by lia.
  destruct (Z.ltb_spec 1 iv).
  - rewrite (i64_small i), (i64_small (i + iv)), i64_small by lia.
    rewrite (u64_small (v + 1)), (u64_small iv), (u64_small (v + 1 - iv)), u64_small by lia. lia.
  - rewrite i64_small, u64_small by lia. lia.
Qed.

Lemma prune_spec r l cur keepRecent iv : dir_ok (r_entries r) -> r_current r = Some (snapshotName cur) ->
  cur ∈ versions (r_entries r) -> 0 <= keepRecent -> 0 <= iv < 2 ^ 32 ->
  let vs := versions (r_entries r) in
  let removed := drop (Z.to_nat keepRecent) (filter (fun v => v < cur) (reverse vs)) in
  let es := without (snapshotName <$> removed) (r_entries r) in
  exists l' earliest, pruneSnapshots r l keepRecent iv = (mkRoot es (r_current r), l', Some earliest) /\
    head (versions es) = Some earliest /\ walLastIndex l' = walLastIndex l /\
    forall i, 1 <= i < 2 ^ 62 -> earliest < walVersion i iv -> entry_data l' i = entry_data l i.
Proof.
  intros Hd Hc Hcur Hk Hiv vs removed es. unfold pruneSnapshots, currentVersion. rewrite Hc.
  destruct (version_entry _ _ Hd Hcur) as [Hr _]. rewrite parse_small by done.
  rewrite traverse_versions by apply Hd. cbv iota. fold vs. destruct (prune_walk cur (reverse vs) (r_entries r) keepRecent Hk) as [c' ->].
  fold removed. fold es. assert (dir_ok es) as Hes by by apply without_ok. rewrite first_head by apply Hes.
  assert (Forall (fun v => 0 <= v < 2 ^ 31) removed) as Hrm by by apply removed_range.
  assert (cur ∈ versions es) as Hce.
  { unfold es. rewrite versions_without by done. apply list_elem_of_filter. split; [|done]. intros Hx.
    apply (subseteq_drop (Z.to_nat keepRecent)), list_elem_of_filter in Hx as [? _]. lia. }
  destruct (versions es) as [|earliest vs'] eqn:Ev; [by apply not_elem_of_nil in Hce|]. cbn [head or_error].
  assert (earliest ∈ versions es) as He by (rewrite Ev; left). pose proof (version_entry _ _ Hes He) as [Hre _].
  rewrite (i64_small (earliest + 1)) by lia.
  destruct (Z.ltb_spec (earliest + 1) iv); [by exists l, earliest|].
  destruct (walTruncateFront l (walIndex (earliest + 1) iv)) as [l'| |] eqn:Et; [|by exists l, earliest..].
  exists l', earliest. split_and!; [done|done|by eapply front_last|]. intros i Hi Hlt. eapply front_keeps; [done|].
  rewrite <- (i64_small (earliest + 1)) by lia. by apply walIndex_le.
Qed.
End Cut.

(** ** Loading *)

Section Loading.
Context {L : Type} `{!Log L, !LogLaws L} (sha256 : bytes -> bytes).
Context (marshal : WALEntry -> res bytes) (unmarshal : bytes -> res WALEntry).
Hypothesis unmarshal_ok : forall e b, marshal e = Ok b -> unmarshal b = Ok (wire e).
Context (t0 : MultiTree).
Hypotheses (Hbase : base_version (MTVersion t0) (initialVersion t0)) (Hiv : 0 <= initialVersion t0 < 2 ^ 32).

(** A snapshot directory holds a state of the history that the log can bring
    up to date. *)
Definition saved (es : list WALEntry) (l : L) (e : Entry) : Prop :=
  forall v, entry_version e = Some v -> exists k tk mk, (k <= length es)%nat /\ live sha256 t0 (take k es) tk /\
    MTVersion tk = v /\ LoadMultiTree sha256 (en_content e) = Ok (with_meta mk tk) /\ base l <= Z.of_nat k.

(** Catching up to a version is catching up with the log that ends there. *)
Lemma catchup_end r r' t e : 0 < e -> walIndex e (initialVersion t) = LastIndex r' ->
  let first := walIndex (nextVersion (MTVersion t) (initialVersion t)) (initialVersion t) in
  first <= LastIndex r' <= LastIndex r ->
  (forall j, first <= j <= LastIndex r' -> exists e e', ReadEntry r' j = Ok e /\ ReadEntry r j = Ok e' /\ same_entry e e') ->
  catchupWAL sha256 t r e = catchupWAL sha256 t r' 0.
Proof.
  intros He Hw first Hf H. unfold catchupWAL. fold first. rewrite Hw.
  destruct (Z.ltb_spec e 0), (Z.ltb_spec (LastIndex r) first), (Z.ltb_spec (LastIndex r') first), (Z.eqb_spec e 0); try lia.
  cbn [Z.ltb Z.eqb Z.compare]. rewrite (Z.min_l _ (LastIndex r)), Z.min_id by lia. rewrite (proj2 (Z.ltb_ge (LastIndex r') first)) by lia. f_equal. apply replay_ext. intros j Hj. apply H. lia.
Qed.

Lemma live_index es k t : (k <= length es)%nat -> len es < 2 ^ 62 -> live sha256 t0 (take k es) t ->
  initialVersion t = initialVersion t0 /\ MTVersion t = version_after (MTVersion t0) (initialVersion t0) (Z.of_nat k) /\
  ((1 <= k)%nat -> 0 < MTVersion t /\ walIndex (MTVersion t) (initialVersion t0) = Z.of_nat k).
Proof.
  intros Hk Hn E. unfold len in Hn.
  destruct (live_versions sha256 (take k es) t0 t (Z.of_nat k) Hbase (proj2 Hiv)) as [Ei Ev];
    [unfold len; rewrite length_take; lia|lia|done|]. split_and!; [done..|]. intros H1. rewrite Ev. split.
  - unfold version_after. destruct (Z.eqb_spec (Z.of_nat k) 0), (Z.ltb_spec 1 (initialVersion t0)); lia.
  - by apply (walIndex_version_after es k Hk); lia.
Qed.

Lemma catchup_to l q es bs m tk tj k j mi :
  holds marshal l q es bs m -> len es < 2 ^ 62 -> base l <= Z.of_nat k -> (k < j <= m)%nat ->
  live sha256 t0 (take k es) tk -> live sha256 t0 (take j es) tj ->
  catchupWAL sha256 (with_meta mi tk) (log_source unmarshal l) (MTVersion tj) = Ok (with_meta mi tj).
Proof.
  intros H Hn Hk Hj Ek Ej. rewrite catchupWAL_meta. pose proof (h_range _ _ _ _ _ _ H) as [_ Hm]. unfold len in Hm.
  destruct (live_index es k tk) as (Ik & _ & _); [lia|done..|]. destruct (live_index es j tj) as (_ & _ & Ij); [lia|done..|].
  destruct Ij as [Hp Hw]; [lia|].
  assert (len (take j es) = Z.of_nat j) as Hlj by (unfold len; rewrite length_take; lia).
  assert (take k (take j es) = take k es) as Et by (rewrite take_take; f_equal; lia).
  assert (walIndex (nextVersion (MTVersion tk) (initialVersion tk)) (initialVersion tk) = Z.of_nat k + 1) as Hf
    by (apply (catchup_first sha256 es t0 tk k Hbase (proj2 Hiv) Hn); [lia|done]).
  rewrite (catchup_end _ (log_reader (take j es))).
  - rewrite (catchup_all sha256 (take j es) t0 tk k Hbase (proj2 Hiv)) with (tn := tj);
      [done|unfold len in *; lia|rewrite length_take; lia|by rewrite Et|done].
  - done.
  - rewrite Ik, Hw. simpl. by rewrite Hlj.
  - cbn [LastIndex log_reader log_source]. rewrite Hf, Hlj, (holds_last _ _ _ _ _ _ H). lia.
  - cbn [LastIndex log_reader]. rewrite Hf, Hlj. intros i Hi.
    destruct (holds_read marshal unmarshal unmarshal_ok _ _ _ _ _ i H) as (e & He & Hr); [lia|]. exists e, (wire e).
    split_and!; [|done|apply wire_same]. simpl. rewrite lookup_take_lt by lia. by rewrite He.
Qed.

(** The directory, the log and the history belong together. *)
Record stored (es : list WALEntry) (bs : list bytes) (r : Root) (l : L) : Prop := {
  st_dir : dir_ok (r_entries r);
  st_saved : Forall (saved es l) (r_entries r);
  st_log : holds marshal l [] es bs (length es);
  st_len : len es < 2 ^ 62;
}.

Lemma load_saved es bs r l v : stored es bs r l -> v ∈ versions (r_entries r) ->
  exists k tk mk, load_snapshot sha256 r (snapshotName v) = Ok (with_meta mk tk) /\ (k <= length es)%nat /\
    live sha256 t0 (take k es) tk /\ MTVersion tk = v /\ base l <= Z.of_nat k.
Proof.
  intros [Hd Hs _ _] Hv. destruct (find_version _ _ Hd Hv) as (e & Hf & He & Ev). rewrite Forall_forall in Hs.
  destruct (Hs e He v Ev) as (k & tk & mk & Hk & El & Et & Ed & Hb). exists k, tk, mk. unfold load_snapshot. rewrite Hf.
  done.
Qed.

Lemma live_order es k m tk tm : len es < 2 ^ 62 -> (k <= length es)%nat -> (m <= length es)%nat ->
  live sha256 t0 (take k es) tk -> live sha256 t0 (take m es) tm -> MTVersion tk <= MTVersion tm -> (k <= m)%nat.
Proof.
  intros Hn Hk Hm Ek Em Hle. destruct (live_index es k tk) as (_ & Vk & _); [done..|].
  destruct (live_index es m tm) as (_ & Vm & _); [done..|]. destruct (decide (k <= m)%nat) as [|Hgt]; [done|].
  pose proof (version_after_mono t0 Hbase (Z.of_nat m) (Z.of_nat k)) as [_ Hlt]; [lia|]. rewrite Vk, Vm in Hle. lia.
Qed.

(** Loading a snapshot and replaying the log up to a version of the history. *)
Lemma load_target es bs r l v m tm : stored es bs r l -> v ∈ versions (r_entries r) -> v <= MTVersion tm ->
  (m <= length es)%nat -> live sha256 t0 (take m es) tm ->
  exists mk tk, load_snapshot sha256 r (snapshotName v) = Ok (with_meta mk tk) /\ initialVersion tk = initialVersion t0 /\
    MTVersion tk = v /\
    (if MTVersion tk <? MTVersion tm then catchupWAL sha256 (with_meta mk tk) (log_source unmarshal l) (MTVersion tm)
     else Ok (with_meta mk tk)) = Ok (with_meta mk tm).
Proof.
  intros Hst Hv Hle Hm Em. destruct (load_saved es bs r l v Hst Hv) as (k & tk & mk & Hl & Hk & Ek & Ev & Hb).
  exists mk, tk. pose proof (live_index es k tk Hk (st_len _ _ _ _ Hst) Ek) as (Ik & Vk & _). split_and!; [done..|].
  assert (k <= m)%nat as Hkm by (eapply (live_order es); [apply Hst|done..|lia]).
  destruct (decide (k = m)) as [->|Hne].
  - assert (tk = tm) as -> by (unfold live in *; congruence). by rewrite Z.ltb_irrefl.
  - assert (MTVersion tk < MTVersion tm) as Hlt.
    { pose proof (live_index es m tm Hm (st_len _ _ _ _ Hst) Em) as (_ & Vm & _). rewrite Vk, Vm.
      apply (version_after_mono t0 Hbase); lia. }
    rewrite (proj2 (Z.ltb_lt _ _)) by done. eapply catchup_to; [apply Hst|apply Hst|done| |done..]. lia.
Qed.

(** Loading the newest state. *)
Lemma load_latest es bs r l v tn : stored es bs r l -> v ∈ versions (r_entries r) -> live sha256 t0 es tn ->
  exists mk tk, load_snapshot sha256 r (snapshotName v) = Ok (with_meta mk tk) /\
    catchupWAL sha256 (with_meta mk tk) (log_source unmarshal l) 0 = Ok (with_meta mk tn).
Proof.
  intros Hst Hv En. destruct (load_saved es bs r l v Hst Hv) as (k & tk & mk & Hl & Hk & Ek & Ev & Hb).
  exists mk, tk. split; [done|]. eapply (catchup_log sha256 marshal unmarshal unmarshal_ok l [] es bs (length es) t0 tk tn k);
    try done; [apply Hst|lia|apply Hst|lia|]. by rewrite take_ge.
Qed.

(** Cleaning up keeps the directory in order. *)
Lemma stored_clean es bs r l : stored es bs r l -> stored es bs (mkRoot (removeTmpDirs (r_entries r)) (r_current r)) l.
Proof.
  intros [Hd Hs Hl Hn]. split; [by apply sorted_names_filter| |done..]. rewrite Forall_forall in *. intros e He.
  apply Hs. by apply tmp_entries.
Qed.

(** The current link names a snapshot. *)
Definition linked (r : Root) : Prop := exists c, r_current r = Some (snapshotName c) /\ c ∈ versions (r_entries r).

Lemma create_linked r iv : dir_ok (r_entries r) -> linked r -> createDBIfNotExist sha256 r iv = Ok r.
Proof.
  intros Hd (c & Hc & Hv). unfold createDBIfNotExist. rewrite Hc.
  destruct (find_version _ _ Hd Hv) as (e & -> & _). done.
Qed.

(** The first part of [Load]: the directory is there and is cleaned up. *)
Definition cleaned (readOnly : bool) (r : Root) : Root :=
  if readOnly then r else mkRoot (removeTmpDirs (r_entries r)) (r_current r).

Lemma stored_cleaned b es bs r l : stored es bs r l -> linked r ->
  stored es bs (cleaned b r) l /\ linked (cleaned b r) /\ versions (r_entries (cleaned b r)) = versions (r_entries r) /\
  r_current (cleaned b r) = r_current r.
Proof.
  intros Hst (c & Hc & Hv). unfold cleaned. destruct b; [split_and!; [done|by exists c|done..]|].
  assert (versions (removeTmpDirs (r_entries r)) = versions (r_entries r)) as E by apply tmp_versions, Hst.
  split_and!; [by apply stored_clean| |done..]. exists c. cbn [r_entries r_current]. by rewrite E.
Qed.

Lemma rollback_spec r l l' cur v target idx : dir_ok (r_entries r) -> r_current r = Some cur -> walTruncateBack l idx = Ok l' ->
  rollback r l (snapshotName v) target idx =
    Ok (mkRoot (without (snapshotName <$> filter (fun w => target < w) (reverse (versions (r_entries r)))) (r_entries r))
          (Some (snapshotName v)), l').
Proof.
  intros Hd Hc Hl. unfold rollback. rewrite Hc.
  set (r1 := if decide (snapshotName v = cur) then r else updateCurrentSymlink r (snapshotName v)).
  assert (r_entries r1 = r_entries r /\ r_current r1 = Some (snapshotName v)) as [-> ->].
  { unfold r1. destruct (decide _) as [->|]; done. }
  rewrite traverse_versions by apply Hd. cbv iota. rewrite rollback_walk.
  - by rewrite Hl.
  - by apply sorted_reverse, versions_sorted.
  - apply Forall_forall. intros w Hw. rewrite elem_of_reverse in Hw. by apply version_entry.
Qed.

Lemma versions_rolled_back target es : dir_ok es ->
  versions (without (snapshotName <$> filter (fun w => target < w) (reverse (versions es))) es) =
    filter (fun w => w <= target) (versions es).
Proof.
  intros Hd. rewrite versions_without; [|done|].
  - apply list_filter_iff'. intros w Hw. rewrite list_elem_of_filter, elem_of_reverse. split; [|lia]. intros H.
    destruct (Z.le_gt_cases w target); [done|]. exfalso. apply H. split; [lia|done].
  - apply Forall_forall. intros w Hw. apply list_elem_of_filter in Hw as [_ Hw]. rewrite elem_of_reverse in Hw.
    by apply (version_entry es w).
Qed.

Lemma back_holds l l' es bs m : holds marshal l [] es bs (length es) -> (m <= length es)%nat ->
  walTruncateBack l (Z.of_nat m) = Ok l' -> holds marshal l' [] (take m es) (take m bs) m /\ base l' = base l.
Proof.
  intros H Hm (Hr & Hb & He)%law_back. pose proof (holds_len _ _ _ _ _ _ H) as Hlen. destruct H as [F [H1 H2] El _].
  unfold len in *. split; [|done]. constructor.
  - by apply Forall2_take.
  - unfold len. rewrite length_take. lia.
  - rewrite He, Hb, El, take_take, Nat.min_id, (take_ge bs) by lia.
    rewrite <- (Z2Nat.id (base l)) at 1 by apply law_base. pose proof (law_base l).
    rewrite take_drop_commute. f_equal. f_equal. lia.
  - rewrite drop_ge; [done|]. rewrite length_take. lia.
Qed.

(** What [Load] returns once the tree is there. *)
Definition opened_db (o : Options) (t : MultiTree) (l : L) : @DB L :=
  mkDB (mkWorking (o_ReadOnly o) t NewPending) None (Some l) (negb (o_ReadOnly o)) (o_AsyncCommitBuffer o)
    None false None (o_SnapshotInterval (FillDefaults o)) 5000000000 None.

(** [Load] in the cases of the theorems: the directory exists, and no initial
    stores are to be created. *)
Lemma Load_eq o r l : dir_ok (r_entries r) -> linked r -> Validate o = None ->
  let r1 := cleaned (o_ReadOnly o) r in
  let back := o_LoadForOverwriting o && (0 <? o_TargetVersion o) in
  forall snapshot t t' r2 l2,
  (if 0 <? o_TargetVersion o then (let* v := seekSnapshot (r_entries r1) (o_TargetVersion o) in Ok (snapshotName v))
   else or_error "file does not exist" (r_current r1)) = Ok snapshot ->
  load_snapshot sha256 r1 snapshot = Ok t ->
  (if (o_TargetVersion o =? 0) || (MTVersion t <? o_TargetVersion o)
   then catchupWAL sha256 t (log_source unmarshal l) (o_TargetVersion o) else Ok t) = Ok t' ->
  (if back then
     let idx := walIndex (o_TargetVersion o) (initialVersion t) in
     walFirstIndex l <= idx <= walLastIndex l /\ idx <> 0 /\ rollback r1 l snapshot (o_TargetVersion o) idx = Ok (r2, l2)
   else r2 = r1 /\ l2 = l) ->
  (o_InitialStores o = [] \/ 0 < MTVersion t') ->
  Load sha256 unmarshal o r l = Ok (opened_db o t' l2, r2).
Proof.
  intros Hd Hl Hv r1 back snapshot t t' r2 l2 Hs Ht Hc Hb Hi. unfold Load. rewrite Hv.
  cbn [FillDefaults o_CreateIfMissing o_InitialVersion o_ReadOnly o_TargetVersion o_LoadForOverwriting o_InitialStores
       o_AsyncCommitBuffer o_SnapshotInterval].
  rewrite create_linked by done. replace (if o_CreateIfMissing o then Ok r else Ok r) with (Ok r) by by destruct (o_CreateIfMissing o).
  cbn [res_bind]. fold (cleaned (o_ReadOnly o) r). fold r1. rewrite Hs. cbn [res_bind]. rewrite Ht. cbn [res_bind]. fold back.
  assert (exists x, (if back : bool then rollback r1 l snapshot (o_TargetVersion o) (walIndex (o_TargetVersion o) (initialVersion t))
     else Ok (r1, l)) = Ok x /\ x = (r2, l2) /\
     back && ((walIndex (o_TargetVersion o) (initialVersion t) =? 0) || (walIndex (o_TargetVersion o) (initialVersion t) <? walFirstIndex l)
       || (walLastIndex l <? walIndex (o_TargetVersion o) (initialVersion t))) = false) as (x & Hx & -> & Hr).
  { destruct back; [|destruct Hb as [-> ->]; by eexists]. cbv zeta in Hb. destruct Hb as (Hr & H0 & ->). eexists. split_and!; [done..|].
    rewrite (proj2 (Z.eqb_neq _ _)), !(proj2 (Z.ltb_ge _ _)) by lia. done. }
  rewrite Hr, Hc. cbn [res_bind]. rewrite Hx. cbn [res_bind]. destruct Hi as [->|Hi]; [done|].
  destruct (o_InitialStores o); [done|]. rewrite (proj2 (Z.eqb_neq _ _)) by lia. by rewrite andb_false_r.
Qed.

Lemma seek_stored es bs r l target v : stored es bs r l -> v ∈ versions (r_entries r) -> v <= target ->
  exists u, seekSnapshot (r_entries r) target = Ok u /\ u ∈ versions (r_entries r) /\ u <= target.
Proof.
  intros Hst Hv Hle. pose proof (seek_last (r_entries r) target (dir_named _ (st_dir _ _ _ _ Hst))) as Hs.
  destruct (last _) as [u|] eqn:E.
  - exists u. split; [done|]. apply last_Some in E as [vs E].
    assert (u ∈ filter (fun w => w <= target) (versions (r_entries r))) as Hu by (rewrite E; set_solver).
    by apply list_elem_of_filter in Hu as [? ?].
  - exfalso. apply last_None in E. assert (v ∈ filter (fun w => w <= target) (versions (r_entries r))) as Hu.
    { by apply list_elem_of_filter. } rewrite E in Hu. by apply not_elem_of_nil in Hu.
Qed.

(** Rolling back leaves a directory and a log of the shorter history. *)
Lemma stored_rollback es bs r l l' m tm : stored es bs r l -> (m <= length es)%nat -> live sha256 t0 (take m es) tm ->
  walTruncateBack l (Z.of_nat m) = Ok l' ->
  let es' := without (snapshotName <$> filter (fun w => MTVersion tm < w) (reverse (versions (r_entries r)))) (r_entries r) in
  forall c, stored (take m es) (take m bs) (mkRoot es' c) l'.
Proof.
  intros Hst Hm Em Ht es' c. destruct (back_holds l l' es bs m (st_log _ _ _ _ Hst) Hm Ht) as [Hh Hb].
  assert (length (take m es) = m) as Hlm by (rewrite length_take; lia). pose proof (st_dir _ _ _ _ Hst) as Hd.
  split; cbn [r_entries].
  - by apply without_ok.
  - pose proof (st_saved _ _ _ _ Hst) as Hs. rewrite Forall_forall in *. intros e He v Ev.
    assert (v ∈ versions es') as Hv by (apply elem_versions; eauto). unfold es' in Hv. rewrite versions_rolled_back in Hv by done.
    apply list_elem_of_filter in Hv as [Hle _]. apply list_elem_of_filter in He as [_ He].
    destruct (Hs e He v Ev) as (k & tk & mk & Hk & Ek & Vk & Hld & Hbk).
    assert (k <= m)%nat as Hkm by (eapply (live_order es); [apply Hst|done..|lia]).
    exists k, tk, mk. rewrite take_take, Nat.min_l by lia. split_and!; [lia|done..|lia].
  - by rewrite Hlm.
  - pose proof (st_len _ _ _ _ Hst). unfold len in *. lia.
Qed.

(** ** Properties *)

(** Loading a version of the history. *)
Lemma load_version_db (o : Options) (es : list WALEntry) (bs : list bytes) (r : Root) (l : L) (m : nat) (tm : MultiTree) (v : Z) :
  stored es bs r l -> linked r -> Validate o = None -> (1 <= m <= length es)%nat ->
  live sha256 t0 (take m es) tm -> o_TargetVersion o = MTVersion tm -> o_LoadForOverwriting o = false ->
  v ∈ versions (r_entries r) -> v <= MTVersion tm ->
  exists mk, Load sha256 unmarshal o r l = Ok (opened_db o (with_meta mk tm) l, cleaned (o_ReadOnly o) r).
Proof.
  intros Hst Hl Hv Hm Em Ht Ho Hin Hle.
  destruct (stored_cleaned (o_ReadOnly o) es bs r l Hst Hl) as (Hst1 & _ & Ev1 & Ec1).
  destruct (live_index es m tm) as (_ & _ & Hpos); [lia|apply Hst|done|]. destruct Hpos as [Hpos _]; [lia|].
  rewrite <- Ev1 in Hin. destruct (seek_stored _ _ _ _ (MTVersion tm) v Hst1 Hin Hle) as (u & Hu & Huv & Hule).
  destruct (load_target _ _ _ _ u m tm Hst1 Huv Hule) as (mk & tk & Hld & Ik & Vk & Hcu); [lia|done|].
  exists mk. eapply Load_eq; [apply Hst|done|done| |exact Hld| | |right; exact Hpos].
  - rewrite Ht, (proj2 (Z.ltb_lt 0 _)), Hu by done. done.
  - rewrite Ht, (proj2 (Z.eqb_neq (MTVersion tm) 0)) by lia. exact Hcu.
  - rewrite Ho. done.
Qed.

Lemma load_version_state (o : Options) (es : list WALEntry) (bs : list bytes) (r : Root) (l : L) (m : nat)
  (tm : MultiTree) (v : Z)
  (Hst : stored es bs r l) (Hl : linked r) (Hv : Validate o = None) (Hm : (1 <= m <= length es)%nat)
  (Em : live sha256 t0 (take m es) tm) (Ht : o_TargetVersion o = MTVersion tm) (Ho : o_LoadForOverwriting o = false)
  (Hin : v ∈ versions (r_entries r)) (Hle : v <= MTVersion tm) :
  exists d r' mk, Load sha256 unmarshal o r l = Ok (d, r') /\ db_tree d = with_meta mk tm /\ db_wal d = Some l /\
    w_readOnly (db_work d) = o_ReadOnly o /\
    versions (r_entries r') = versions (r_entries r) /\ r_current r' = r_current r.
Proof.
  destruct (load_version_db o es bs r l m tm v) as (mk & E); [done..|].
  destruct (stored_cleaned (o_ReadOnly o) es bs r l Hst Hl) as (_ & _ & Ev1 & Ec1). by eexists _, _, mk.
Qed.


(** C11: Rolling back: loading for overwriting at a version of the history gives
    the state of that version, removes exactly the newer snapshots, lets the
    current link name one of the others and cuts the log after that version; and
    opening the database afterwards gives the same state. *)
Theorem rollback_reopens (o : Options) (es : list WALEntry) (bs : list bytes) (r : Root) (l l' : L) (m : nat)
  (tm : MultiTree) (v : Z)
  (Hst : stored es bs r l) (Hl : linked r) (Hv : Validate o = None) (Hm : (1 <= m <= length es)%nat)
  (Em : live sha256 t0 (take m es) tm) (Ht : o_TargetVersion o = MTVersion tm) (Ho : o_LoadForOverwriting o = true)
  (Hin : v ∈ versions (r_entries r)) (Hle : v <= MTVersion tm)
  (Hcut : walTruncateBack l (Z.of_nat m) = Ok l') :
  exists d r' mk, Load sha256 unmarshal o r l = Ok (d, r') /\ db_tree d = with_meta mk tm /\ db_wal d = Some l' /\
    versions (r_entries r') = filter (fun w => w <= MTVersion tm) (versions (r_entries r)) /\
    stored (take m es) (take m bs) r' l' /\ linked r' /\
    forall o', Validate o' = None -> o_TargetVersion o' = 0 ->
      exists d' r'' mk', Load sha256 unmarshal o' r' l' = Ok (d', r'') /\ db_tree d' = with_meta mk' tm /\ db_wal d' = Some l'.
Proof.
  destruct (stored_cleaned (o_ReadOnly o) es bs r l Hst Hl) as (Hst1 & (c & Ec & _) & Ev1 & Ec1).
  destruct (live_index es m tm) as (Im & _ & Hpos); [lia|apply Hst|done|]. destruct Hpos as [Hpos Hw]; [lia|].
  rewrite <- Ev1 in Hin. destruct (seek_stored _ _ _ _ (MTVersion tm) v Hst1 Hin Hle) as (u & Hu & Huv & Hule).
  destruct (load_target _ _ _ _ u m tm Hst1 Huv Hule) as (mk & tk & Hld & Ik & Vk & Hcu); [lia|done|].
  set (r1 := cleaned (o_ReadOnly o) r) in *.
  set (r2 := mkRoot (without (snapshotName <$> filter (fun w => MTVersion tm < w) (reverse (versions (r_entries r1)))) (r_entries r1))
               (Some (snapshotName u))).
  assert (versions (r_entries r2) = filter (fun w => w <= MTVersion tm) (versions (r_entries r1))) as Ev2
    by apply versions_rolled_back, Hst1.
  assert (stored (take m es) (take m bs) r2 l') as Hst2 by (apply (stored_rollback es bs r1 l); [done|lia|done..]).
  assert (linked r2) as Hl2 by (exists u; split; [done|]; rewrite Ev2; by apply list_elem_of_filter).
  exists (opened_db o (with_meta mk tm) l'), r2, mk. split_and!; [|done|done|by rewrite Ev2, Ev1|done|done|].
  - eapply Load_eq; [apply Hst|done|done| |exact Hld| | |right; exact Hpos].
    + fold r1. rewrite Ht, (proj2 (Z.ltb_lt 0 _)), Hu by done. done.
    + rewrite Ht, (proj2 (Z.eqb_neq (MTVersion tm) 0)) by lia. exact Hcu.
    + rewrite Ho, Ht, (proj2 (Z.ltb_lt 0 _)) by done. cbn [andb with_meta initialVersion]. rewrite Ik, Hw.
      pose proof (law_back _ _ _ Hcut) as (Hr & _). rewrite law_first, law_last. split_and!; [destruct (decide _); lia|lia|lia|].
      by apply (rollback_spec r1 l l' (snapshotName c)); [apply Hst1|done|].
  - intros o' Hv' Ht'. destruct (stored_cleaned (o_ReadOnly o') _ _ r2 l' Hst2 Hl2) as (Hst3 & (c3 & Ec3 & Hc3) & _ & _).
    destruct (load_latest _ _ _ _ c3 tm Hst3 Hc3) as (mk' & tk' & Hld' & Hcu'); [done|].
    exists (opened_db o' (with_meta mk' tm) l'), (cleaned (o_ReadOnly o') r2), mk'. split_and!; [|done..].
    eapply Load_eq; [apply Hst2|done|done| |exact Hld'| | |right; exact Hpos].
    + rewrite Ht'. cbn [Z.ltb Z.compare]. by rewrite Ec3.
    + rewrite Ht'. exact Hcu'.
    + rewrite Ht'. cbn [Z.ltb Z.compare]. by rewrite andb_false_r.
Qed.
End Loading.

(** Snapshot names: a version below 2^31 is parsed back from its directory
    name, the name order of the directory listing is the order of the versions,
    and the name of any larger version is refused with an error. *)
Theorem snapshot_names_ordered (v w : Z) (Hv : 0 <= v < 2 ^ 31) (Hw : 0 <= w < 2 ^ 31) :
  parseVersion (snapshotName v) = Ok v /\
  bytes_compare (snapshotName v) (snapshotName w) = (v ?= w) /\
  (forall u, 2 ^ 31 <= u < 2 ^ 63 -> isSnapshotName (snapshotName u) = true /\
     parseVersion (snapshotName u) = Err "snapshot version overflows").
Proof.
  split_and!; [by apply parse_small|by apply name_compare|]. intros u Hu. split; [apply name_is_name; lia|].
  rewrite parse_name by lia. by rewrite (proj2 (Z.ltb_ge u (2 ^ 31))) by lia.
Qed.

(** Seeking a snapshot: in a listed directory the seek finds [v] exactly when
    [v] is the greatest snapshot version not above the target, and reports a
    pruned target exactly when there is none. *)
Theorem seek_snapshot_greatest (es : list Entry) (target : Z) (Hd : dir_ok es) :
  (forall v, seekSnapshot es target = Ok v <->
     v ∈ versions es /\ v <= target /\ forall w, w ∈ versions es -> w <= target -> w <= v) /\
  (seekSnapshot es target = Err "target version is pruned" <-> forall v, v ∈ versions es -> target < v).
Proof.
  split; [intros v; by apply seek_greatest|]. rewrite seek_last by apply Hd. destruct (last _) as [u|] eqn:E.
  - split; [done|]. intros H. apply last_Some in E as [vs E].
    assert (u ∈ filter (fun w => w <= target) (versions es)) as Hu by (rewrite E; set_solver).
    apply list_elem_of_filter in Hu as [? Hu]. specialize (H u Hu). lia.
  - split; [|done]. intros _ v Hv. apply last_None in E. destruct (Z.lt_ge_cases target v); [done|].
    assert (v ∈ filter (fun w => w <= target) (versions es)) as Hu by by apply list_elem_of_filter.
    rewrite E in Hu. by apply not_elem_of_nil in Hu.
Qed.

(** C18: Pruning keeps the current snapshot, the [keepRecent] newest ones before it
    and every newer one, removes the rest and nothing else, and cuts the log
    only before the entries that the earliest remaining snapshot needs: every
    remaining snapshot can still be brought up to date. *)
Theorem prune_keeps_recoverable {L : Type} `{!Log L, !LogLaws L} (r : Root) (l : L) (cur keepRecent iv : Z)
  (Hd : dir_ok (r_entries r)) (Hc : r_current r = Some (snapshotName cur)) (Hcur : cur ∈ versions (r_entries r))
  (Hk : 0 <= keepRecent) (Hiv : 0 <= iv < 2 ^ 32) :
  exists r' l' earliest, pruneSnapshots r l keepRecent iv = (r', l', Some earliest) /\ r_current r' = r_current r /\
    (let older := filter (fun v => v < cur) (versions (r_entries r)) in
     versions (r_entries r') = drop (length older - Z.to_nat keepRecent) older ++
                               filter (fun v => cur <= v) (versions (r_entries r))) /\
    (forall e, e ∈ r_entries r' <-> e ∈ r_entries r /\ forall v, entry_version e = Some v -> v ∈ versions (r_entries r')) /\
    (forall v, v ∈ versions (r_entries r') -> earliest <= v) /\
    walLastIndex l' = walLastIndex l /\
    (forall i d, 1 <= i < 2 ^ 62 -> earliest < walVersion i iv -> entry_data l i = Some d -> walRead l' i = Ok d).
Proof.
  destruct (prune_spec r l cur keepRecent iv Hd Hc Hcur Hk Hiv) as (l' & earliest & E & Hh & Hla & Hlog).
  set (removed := drop _ _) in *. set (es := without _ _) in *.
  assert (Forall (fun v => 0 <= v < 2 ^ 31) removed) as Hrm by by apply removed_range.
  assert (versions es = filter (fun v => v ∉ removed) (versions (r_entries r))) as Hvs by by apply versions_without.
  exists (mkRoot es (r_current r)), l', earliest. split_and!; [done|done| | | |done|].
  - cbn [r_entries]. rewrite Hvs. by apply filter_drop_below, versions_sorted.
  - intros e. cbn [r_entries]. rewrite Hvs. unfold es, without. rewrite list_elem_of_filter.
    split; intros [H1 H2]; [split; [done|]|split; [|done]].
    + intros v Ev. apply list_elem_of_filter. split; [|by apply elem_versions; eauto].
      intros Hx. apply H1. rewrite (named_version e v) by (done || by eapply named_in). by apply list_elem_of_fmap_2.
    + intros (v & En & Hx)%list_elem_of_fmap. assert (v ∈ versions (r_entries r)) as Hv.
      { apply (subseteq_drop (Z.to_nat keepRecent)), list_elem_of_filter in Hx as [_ Hx]. by rewrite elem_of_reverse in Hx. }
      pose proof (entry_of_version _ v e Hd Hv H1 En) as Ev.
      specialize (H2 v Ev). by apply list_elem_of_filter in H2 as [? _].
  - by apply (sorted_head_least (versions es) earliest); [apply versions_sorted, without_ok|].
  - intros i d Hi Hlt He. apply read_entry_data. by rewrite Hlog.
Qed.

(** ** A directory, for evaluation *)

Definition sample_history : list WALEntry := [pendingLog (w_pending sample_block); mkEntry [] []].
Definition state_after (es : list WALEntry) : MultiTree :=
  match run_entries (live_entry digest32) (NewEmptyMultiTree 5) es with Ok t => t | _ => NewEmptyMultiTree 5 end.
Definition snapshot_entry (k : nat) : Entry :=
  let t := state_after (take k sample_history) in
  match MTWriteSnapshot digest32 (fun _ => false) false t with
  | Ok d => mkEntryOf (snapshotName (MTVersion t)) true d
  | _ => mkEntryOf [] false (mkDir [] (mkCommitInfo 0 []) 0)
  end.
Definition sample_root : Root :=
  mkRoot [mkEntryOf (str "LOCK") false (mkDir [] (mkCommitInfo 0 []) 0);
          snapshot_entry 0; snapshot_entry 1; snapshot_entry 2] (Some (snapshotName 6)).
Definition sample_bytes : list bytes := (fun e => bits (encode (wire e))) <$> sample_history.
Definition sample_log : ListLog := mkListLog 0 sample_bytes.
Definition sample_options (target : Z) (readOnly back : bool) : Options :=
  mkOptions false 5 readOnly [] 1 0 target 0 back 0.

Lemma sample_saved k : (k <= 2)%nat -> saved digest32 (NewEmptyMultiTree 5) sample_history sample_log (snapshot_entry k).
Proof.
  intros Hk v Ev. exists k, (state_after (take k sample_history)), (lastCommitInfo (state_after (take k sample_history))).
  assert (k = 0 \/ k = 1 \/ k = 2)%nat as [->|[->| ->]] by lia; vm_compute in Ev; injection Ev as <-;
    (split_and!; [cbn; lia|vm_compute; reflexivity|vm_compute; reflexivity|vm_compute; reflexivity|cbn; lia]).
Qed.

Lemma sample_dir_ok : dir_ok (r_entries sample_root).
Proof.
  split.
  - repeat constructor.
  - repeat constructor; intros E; try by vm_compute in E.
    + exists 0. split; [lia|vm_compute; reflexivity].
    + exists 5. split; [lia|vm_compute; reflexivity].
    + exists 6. split; [lia|vm_compute; reflexivity].
Qed.

Lemma sample_stored : stored digest32 bit_marshal (NewEmptyMultiTree 5) sample_history sample_bytes sample_root sample_log.
Proof.
  split.
  - exact sample_dir_ok.
  - apply Forall_cons_2; [intros v Ev; by vm_compute in Ev|]. repeat apply Forall_cons_2; try apply sample_saved; try lia. constructor.
  - split; [|split; by vm_compute|done|done]. unfold sample_bytes. apply Forall2_fmap_r, Forall_Forall2_diag, Forall_forall. done.
  - by vm_compute.
Qed.

Lemma sample_linked : linked sample_root.
Proof. exists 6. split; [done|]. vm_compute. set_solver. Qed.

Lemma sample_base : base_version (MTVersion (NewEmptyMultiTree 5)) (initialVersion (NewEmptyMultiTree 5)).
Proof. right. split; [done|]. by left. Qed.


Lemma rollback_reopens_witness :
  exists d r' mk, Load digest32 bit_unmarshal (sample_options 5 false true) sample_root sample_log = Ok (d, r') /\
    db_tree d = with_meta mk (state_after (take 1 sample_history)) /\
    db_wal d = Some (mkListLog 0 (take 1 sample_bytes)) /\
    versions (r_entries r') = [0; 5].
Proof.
  destruct (rollback_reopens digest32 bit_marshal bit_unmarshal bit_unmarshal_ok (NewEmptyMultiTree 5) sample_base
    ltac:(by vm_compute) (sample_options 5 false true) sample_history sample_bytes sample_root sample_log
    (mkListLog 0 (take 1 sample_bytes)) 1 (state_after (take 1 sample_history)) 0
    sample_stored sample_linked ltac:(done) ltac:(cbn; lia) ltac:(vm_compute; reflexivity) ltac:(vm_compute; reflexivity)
    ltac:(done) ltac:(vm_compute; set_solver) ltac:(by vm_compute) ltac:(vm_compute; reflexivity))
    as (d & r' & mk & H1 & H2 & H3 & H4 & _).
  exists d, r', mk. split_and!; [exact H1|exact H2|exact H3|]. rewrite H4. vm_compute. reflexivity.
Defined.

Lemma snapshot_names_ordered_witness :
  parseVersion (snapshotName 7) = Ok 7 /\ bytes_compare (snapshotName 7) (snapshotName 12) = Lt /\
  parseVersion (snapshotName (2 ^ 31)) = Err "snapshot version overflows".
Proof.
  destruct (snapshot_names_ordered 7 12 ltac:(lia) ltac:(lia)) as (H1 & H2 & H3).
  split_and!; [exact H1|exact H2|]. apply H3. lia.
Defined.

Lemma seek_snapshot_greatest_witness :
  seekSnapshot (r_entries sample_root) 5 = Ok 5 /\ forall w, w ∈ versions (r_entries sample_root) -> w <= 5 -> w <= 5.
Proof.
  assert (seekSnapshot (r_entries sample_root) 5 = Ok 5) as E by (vm_compute; reflexivity). split; [exact E|].
  destruct (proj1 (proj1 (seek_snapshot_greatest (r_entries sample_root) 5 sample_dir_ok) 5) E) as (_ & _ & H). exact H.
Defined.

Lemma prune_keeps_recoverable_witness :
  exists r' l' earliest, pruneSnapshots sample_root sample_log 1 5 = (r', l', Some earliest) /\
    versions (r_entries r') = [5; 6] /\ walLastIndex l' = 2.
Proof.
  destruct (prune_keeps_recoverable sample_root sample_log 6 1 5 sample_dir_ok ltac:(done) ltac:(vm_compute; set_solver)
    ltac:(lia) ltac:(lia)) as (r' & l' & earliest & H1 & _ & H2 & _ & _ & H3 & _).
  exists r', l', earliest. split_and!; [exact H1|rewrite H2; vm_compute; reflexivity|rewrite H3; vm_compute; reflexivity].
Defined.
