(* ===== verification/DbRewrite.v ===== *)
(** Writing snapshots into the database directory:
    [RewriteSnapshotWithContext] of [memiavl/db.go] against the directory and
    the log of [DbDir].

    Lemmas about adding a directory entry; theorem: rewriting the snapshot of a
    committed state keeps the database recoverable, from every snapshot, and
    makes the new snapshot the current one. *)
From stdpp Require Import prelude strings sorting.
From Stdlib Require Import ZArith Lia.
From S2P Require Import Prelude OrdMap Codec Node Hash Snapshot Wal MultiTree Pending Db DbDir.
Local Open Scope Z_scope.

(** ** Adding an entry *)

Lemma put_entry_perm e es : find_entry (en_name e) es = None -> put_entry e es ≡ₚ e :: es.
Proof.
  rewrite find_entry_None. induction 1 as [|x es Hx _ IH]; [done|]. cbn [put_entry].
  destruct (bytes_compare_spec (en_name e) (en_name x)) as [E|_|_]; [by destruct Hx|done|].
  rewrite IH. apply Permutation_swap.
Qed.

Lemma put_entry_sorted e es :
  find_entry (en_name e) es = None -> StronglySorted bytes_lt (en_name <$> es) -> StronglySorted bytes_lt (en_name <$> put_entry e es).
Proof.
  rewrite find_entry_None. intros Hn. induction es as [|x es IH]; intros Hs; [repeat constructor|].
  apply Forall_cons in Hn as [Hx Hn]. rewrite fmap_cons in Hs. apply StronglySorted_inv in Hs as [Hs Hf]. cbn [put_entry].
  destruct (bytes_compare_spec (en_name e) (en_name x)) as [E|Hlt|Hgt]; [by destruct Hx| |]; rewrite !fmap_cons.
  - repeat constructor; [done..|]. eapply Forall_impl; [exact Hf|]. intros y Hy. by eapply bytes_lt_trans.
  - constructor; [by apply IH|]. rewrite (put_entry_perm e es) by (by apply find_entry_None). by constructor.
Qed.

Lemma put_snapshot_ok v d es : 0 <= v < 2 ^ 31 -> find_entry (snapshotName v) es = None -> dir_ok es ->
  dir_ok (put_entry (mkEntryOf (snapshotName v) true d) es).
Proof.
  intros Hv Hn [Hs Hd]. split; [by apply put_entry_sorted|]. rewrite put_entry_perm by done. constructor; [|done].
  intros _. by exists v.
Qed.

Lemma put_snapshot_versions v d es : 0 <= v < 2 ^ 31 -> find_entry (snapshotName v) es = None ->
  versions (put_entry (mkEntryOf (snapshotName v) true d) es) ≡ₚ v :: versions es.
Proof. intros Hv Hn. unfold versions. rewrite put_entry_perm by done. csimpl. by rewrite entry_version_snapshot. Qed.

(** The entry that was put is the only one of its version. *)
Lemma put_snapshot_unique v d es e : find_entry (snapshotName v) es = None -> dir_ok es ->
  e ∈ put_entry (mkEntryOf (snapshotName v) true d) es -> entry_version e = Some v -> e = mkEntryOf (snapshotName v) true d.
Proof.
  intros Hn Hd Hin Ev. rewrite put_entry_perm in Hin by done. apply elem_of_cons in Hin as [->|Hin]; [done|].
  destruct (entry_version_name e v) as (_ & _ & En); [|done|].
  - pose proof (dir_named _ Hd) as Hnm. rewrite Forall_forall in Hnm. by apply Hnm.
  - apply find_entry_None in Hn. rewrite Forall_forall in Hn. by destruct (Hn e Hin).
Qed.

(** It is the one found, also after [Load] has cleaned up the directory. *)
Lemma find_put_snapshot b v d es cur : 0 <= v < 2 ^ 31 -> find_entry (snapshotName v) es = None -> dir_ok es ->
  find_entry (snapshotName v) (r_entries (cleaned b (mkRoot (put_entry (mkEntryOf (snapshotName v) true d) es) cur))) =
    Some (mkEntryOf (snapshotName v) true d).
Proof.
  intros Hv Hn Hd. set (e := mkEntryOf _ _ _).
  assert (dir_ok (put_entry e es)) as Hp by by apply put_snapshot_ok.
  assert (v ∈ versions (put_entry e es)) as Hin by (unfold e; rewrite put_snapshot_versions by done; by left).
  assert (exists e', find_entry (snapshotName v) (r_entries (cleaned b (mkRoot (put_entry e es) cur))) = Some e' /\
    e' ∈ put_entry e es /\ entry_version e' = Some v) as (e' & Hf & Hin' & Ev).
  { destruct b; cbn; [by apply find_version|]. destruct (find_version (removeTmpDirs (put_entry e es)) v) as (e' & Hf & Hin' & Ev).
    - by apply sorted_names_filter.
    - by rewrite (tmp_versions _ (dir_named _ Hp)).
    - exists e'. split_and!; [done| |done]. by apply tmp_entries. }
  rewrite Hf. f_equal. by eapply put_snapshot_unique.
Qed.

(** ** Rewriting *)

Section Rewrite.
Context {L : Type} `{!Log L, !LogLaws L} (sha256 : bytes -> bytes) (sha256_len : forall b, len (sha256 b) = 32).
Context (marshal : WALEntry -> res bytes).
Context (t0 : MultiTree).
Hypotheses (Hbase : base_version (MTVersion t0) (initialVersion t0)) (Hiv : 0 <= initialVersion t0 < 2 ^ 32) (W0 : mt_wf t0).

(** The commit info of a committed state is the one of its trees. *)
Lemma live_info es t : es <> [] -> Db.live sha256 t0 es t -> lastCommitInfo t = buildCommitInfo sha256 t (MTVersion t).
Proof.
  intros Hne E. destruct es as [|e es _] using rev_ind; [done|]. unfold Db.live in E.
  rewrite run_entries_app, res_bind_ok in E. destruct E as (t1 & _ & E2). cbn in E2. rewrite res_bind_ok in E2.
  destruct E2 as (t2 & E2 & <-%Ok_inj). destruct (live_commit_info sha256 t1 e t2 E2) as [Eu _].
  rewrite Eu at 1. done.
Qed.

(** What a state needs to be written: all trees at its version, and within the
    limits of the snapshot format. *)
Record writable (t : MultiTree) : Prop := {
  wr_version : 0 < MTVersion t < 2 ^ 31;
  wr_trees : Forall (at_version (MTVersion t)) (trees t);
  wr_storable : Forall tree_storable (trees t);
}.

(** The directory that a committed state is written to loads to that state. *)
Lemma write_load_live es tk mi cancelled : (forall i, cancelled i = false) ->
  len es < 2 ^ 62 -> es <> [] -> Db.live sha256 t0 es tk -> writable tk ->
  exists d, MTWriteSnapshot sha256 cancelled false (with_meta mi tk) = Ok d /\
    LoadMultiTree sha256 d = Ok (with_meta (lastCommitInfo tk) tk).
Proof.
  intros Hc Hlen Hne El [Hv U St]. pose proof (live_wf sha256 t0 W0 _ _ El) as Wt.
  destruct (write_open_trees sha256 sha256_len cancelled (trees tk) Hc St) as (fs & Ew & _).
  exists (mkDir fs (lastCommitInfo tk) (initialVersion tk)). unfold MTWriteSnapshot. cbn [with_meta trees]. rewrite Ew.
  cbn [res_bind]. split; [done|]. destruct (live_version_at sha256 t0 Hbase Hiv es tk El Hlen) as [Ei _].
  apply (load_written sha256 sha256_len tk (mkDir fs (lastCommitInfo tk) (initialVersion tk)) fs cancelled); try done.
  - lia.
  - by rewrite Ei.
  - by apply (live_info es).
  - unfold MTWriteSnapshot. by rewrite Ew.
Qed.

(** C12: rewriting the snapshot of a state of the history, which the log can still
    continue, keeps the database recoverable.  When there is no snapshot of its
    version yet, the new directory has it as the current one, the other
    snapshots stay, and directory, log and history belong together as before, so
    that every later version loads; when there is one, or the writing is
    cancelled, or the database is read-only, the error is reported. *)
Theorem rewrite_keeps_recoverable es bs r l k tk mi
  (Hst : stored sha256 marshal t0 es bs r l) (Hk : (1 <= k <= length es)%nat) (Hb : base l <= Z.of_nat k)
  (El : Db.live sha256 t0 (take k es) tk) (Hw : writable tk) :
  let v := MTVersion tk in
  let rewrite_ := RewriteSnapshot sha256 (fun _ => false) in
  (find_entry (snapshotName v) (r_entries r) = None ->
     exists r', rewrite_ false false (with_meta mi tk) r = Ok r' /\
       stored sha256 marshal t0 es bs r' l /\ linked r' /\ r_current r' = Some (snapshotName v) /\
       versions (r_entries r') ≡ₚ v :: versions (r_entries r) /\
       load_snapshot sha256 r' (snapshotName v) = Ok (with_meta (lastCommitInfo tk) tk)) /\
  (is_Some (find_entry (snapshotName v) (r_entries r)) -> rewrite_ false false (with_meta mi tk) r = Err "file exists") /\
  rewrite_ true false (with_meta mi tk) r = Err "context canceled" /\
  (forall c, rewrite_ c true (with_meta mi tk) r = Err errReadOnly).
Proof.
  intros v rewrite_. unfold rewrite_, RewriteSnapshot.
  assert (len (take k es) < 2 ^ 62) as Hlen by (pose proof (st_len _ _ _ _ _ _ _ Hst); unfold len in *; rewrite length_take; lia).
  assert (take k es <> []) as Hne by (intros E; apply (f_equal length) in E; rewrite length_take in E; simpl in E; lia).
  destruct (write_load_live (take k es) tk mi (fun _ => false) (fun _ => eq_refl) Hlen Hne El Hw) as (d & Ew & Ed).
  change (MTVersion (with_meta mi tk)) with v. pose proof (wr_version _ Hw) as Hv. fold v in Hv. split_and!.
  - intros Hf. rewrite Ew. cbn [res_bind]. rewrite Hf. eexists. split; [done|]. unfold updateCurrentSymlink. cbn [r_entries r_current].
    pose proof (put_snapshot_versions v d (r_entries r) ltac:(lia) Hf) as Hvs. destruct Hst as [Hd Hs Hl Hn]. split_and!; [| |done|done|].
    + split; [apply put_snapshot_ok; [lia|done..]| |done..]. cbn [r_entries]. rewrite put_entry_perm by done. constructor; [|done].
      intros w. rewrite entry_version_snapshot by lia. intros [= <-]. exists k, tk, (lastCommitInfo tk). split_and!; [lia|done..].
    + exists v. split; [done|]. cbn [r_entries]. rewrite Hvs. by left.
    + unfold load_snapshot. pose proof (find_put_snapshot true v d (r_entries r) None ltac:(lia) Hf Hd) as Hp. cbn in Hp. cbn. rewrite Hp. exact Ed.
  - intros [e He]. rewrite Ew. cbn [res_bind]. by rewrite He.
  - unfold MTWriteSnapshot in *. destruct (write_trees _ _ _); [done|done..].
  - done.
Qed.
End Rewrite.

(** ** A rewrite of the sample database *)

(** The directory before the snapshot of the last version. *)
Definition young_root : Root := mkRoot [snapshot_entry 0; snapshot_entry 1] (Some (snapshotName 5)).

Lemma young_stored : stored digest32 bit_marshal (NewEmptyMultiTree 5) sample_history sample_bytes young_root sample_log.
Proof.
  split.
  - split; [repeat constructor|]. repeat constructor; intros E.
    + exists 0. split; [lia|vm_compute; reflexivity].
    + exists 5. split; [lia|vm_compute; reflexivity].
  - repeat apply Forall_cons_2; try apply sample_saved; try lia. constructor.
  - apply sample_stored.
  - by vm_compute.
Qed.

Lemma sample_writable : writable (state_after sample_history).
Proof.
  split; [by vm_compute|vm_compute; repeat constructor|].
  assert (trees (state_after sample_history) = [mkNamed name_a (mkVTree 6 (Some (Leaf 5 [z2b 2] (Some [z2b 20]))));
    mkNamed name_b (mkVTree 6 (Some (Leaf 5 [z2b 3] (Some []))))]) as -> by (vm_compute; reflexivity).
  repeat apply Forall_cons_2; try apply Forall_nil_2;
    (split; [simpl; lia|apply leaf_storable; [lia|by vm_compute|by vm_compute]]).
Qed.

Lemma rewrite_keeps_recoverable_witness :
  exists r', RewriteSnapshot digest32 (fun _ => false) false false (state_after sample_history) young_root = Ok r' /\
    stored digest32 bit_marshal (NewEmptyMultiTree 5) sample_history sample_bytes r' sample_log /\
    r_current r' = Some (snapshotName 6) /\ versions (r_entries r') ≡ₚ [6; 0; 5].
Proof.
  destruct (rewrite_keeps_recoverable digest32 digest32_len bit_marshal (NewEmptyMultiTree 5) sample_base ltac:(by vm_compute) sample_wf
    sample_history sample_bytes young_root sample_log 2 (state_after sample_history) (metadataInfo (state_after sample_history))
    young_stored ltac:(cbn; lia) ltac:(by vm_compute) ltac:(vm_compute; reflexivity) sample_writable) as [H _].
  destruct H as (r' & H1 & H2 & _ & H3 & H4 & _); [vm_compute; reflexivity|].
  exists r'. split_and!; [exact H1|exact H2|exact H3|]. rewrite H4. vm_compute. reflexivity.
Defined.
