(* ===== verification/DbApi.v ===== *)
(** The remaining methods of a database: [memiavl/db.go], those that hold the mutex and
    ask the multi-tree, and those that rewrite and reload its snapshot.

    A method is a function on the database and, where it works on files, on the
    directory.  The mutex is in [DbLocks], the open files are in [Lifetime].

    Theorem: rewriting the snapshot of a committed database and reloading it
    changes nothing that a caller can see. *)
From stdpp Require Import prelude strings gmap sorting.
From Stdlib Require Import ZArith Lia.
From S2P Require Import Prelude OrdMap Codec Node Hash Persisted Snapshot Tree MultiTree Pending Db DbDir DbRewrite.
Local Open Scope Z_scope.

(** [channelBatchRecv]: the first entry, waited for, and the [remaining] ones that are
    queued then; [None] while nothing is queued and the channel is open. *)
Definition channelBatchRecv {T} (ch : list T) (closed : bool) (remaining : nat) : option (list T * list T) :=
  match ch with
  | [] => if closed then Some ([], []) else None
  | item :: ch => Some (item :: take remaining ch, drop remaining ch)
  end.

Section Api.
Context {L : Type} `{!Log L} (sha256 : bytes -> bytes).
Context (marshal : WALEntry -> res bytes) (unmarshal : bytes -> res WALEntry).

Definition ReadOnly (d : @DB L) : bool := w_readOnly (db_work d).
Definition walError (d : @DB L) : option string := db_walErr d.

(** [errors.Join]; the messages are put together with a line break. *)
Definition join2 (a b : option string) : option string :=
  match a, b with
  | Some a, Some b => Some (a +:+ String (Ascii.ascii_of_nat 10) b)
  | Some a, None => Some a
  | None, b => b
  end.
Definition checkAsyncTasks (s : schedule) (d : @DB L) : option (option string * @DB L) :=
  let err := walError d in
  let? (err', d) := checkBackgroundSnapshotRewrite sha256 marshal unmarshal s d in
  Some (join2 err err', d).

Definition WaitAsyncCommit (rounds : list nat) (d : @DB L) : option string * @DB L := waitAsyncCommit marshal rounds d.

Definition dbTreeByName (d : @DB L) (n : name) : option VTree := TreeByName (db_tree d) n.
Definition dbVersion (d : @DB L) : Z := MTVersion (db_tree d).
Definition dbLastCommitInfo (d : @DB L) : CommitInfo := lastCommitInfo (db_tree d).
Definition dbWorkingCommitInfo (d : @DB L) : CommitInfo := WorkingCommitInfo sha256 (db_tree d).

Definition dbSaveVersion (updateCommitInfo : bool) (d : @DB L) : res (Z * @DB L) :=
  if ReadOnly d then Err errReadOnly
  else
    let* (v, t) := MTSaveVersion sha256 (db_tree d) updateCommitInfo in
    Ok (v, set_work d (with_tree (db_work d) t)).

Definition dbUpdateCommitInfo (d : @DB L) : res (@DB L) :=
  if ReadOnly d then Panic "can't update commit info in read-only mode"
  else Ok (set_work d (with_tree (db_work d) (UpdateCommitInfo sha256 (db_tree d)))).

Definition dbWriteSnapshotWithContext (cancelled : Z -> bool) (cancelledAtEnd : bool) (d : @DB L) : res Dir :=
  MTWriteSnapshot sha256 cancelled cancelledAtEnd (db_tree d).
Definition dbWriteSnapshot (d : @DB L) : res Dir := dbWriteSnapshotWithContext (fun _ => false) false d.

(** [RewriteSnapshot]: the context is never cancelled. *)
Definition dbRewriteSnapshot (d : @DB L) (r : Root) : res Root :=
  DbDir.RewriteSnapshot sha256 (fun _ => false) false (ReadOnly d) (db_tree d) r.

Definition reload (d : @DB L) (r : Root) : option string * @DB L :=
  match (let* n := or_error "file does not exist" (r_current r) in load_snapshot sha256 r n) with
  | Ok t => reloadMultiTree d t
  | Err e | Panic e => (Some e, d)
  end.
Definition Reload (d : @DB L) (r : Root) : option string * @DB L := reload d r.

(** A writer that is scheduled takes what [channelBatchRecv] gives. *)
Lemma writer_takes_batch (d : @DB L) (l : L) (q es rest : list (Z * WALEntry)) (remaining : nat) :
  db_walChan d = Some q -> db_wal d = Some l -> db_walQuit d = false -> channelBatchRecv q false remaining = Some (es, rest) ->
  writer_step marshal (S remaining) d =
    match writer_round marshal l es with
    | Ok l' => set_chan (set_wal d (Some l')) (Some rest) false
    | Err e | Panic e => set_chan (latchWalErr d (errAsyncWriterQuit ++ ": " ++ e)%string) (Some rest) true
    end.
Proof.
  intros Hq Hl Hw Hr. unfold writer_step. rewrite Hq, Hl, Hw. destruct q as [|e q]; [done|]. by injection Hr as <- <-.
Qed.
End Api.

(** ** Rewriting and reloading *)

Section Rewriting.
Context {L : Type} `{!Log L, !LogLaws L} (sha256 : bytes -> bytes) (sha256_len : forall b, len (sha256 b) = 32).
Context (marshal : WALEntry -> res bytes).
Context (t0 : MultiTree).
Context (Hbase : base_version (MTVersion t0) (initialVersion t0)) (Hiv : 0 <= initialVersion t0 < 2 ^ 32) (W0 : mt_wf t0).

(** What callers see of a database. *)
Record same_view (d d' : @DB L) : Prop := {
  sv_trees : forall n, dbTreeByName d' n = dbTreeByName d n;
  sv_version : dbVersion d' = dbVersion d;
  sv_info : dbLastCommitInfo d' = dbLastCommitInfo d;
  sv_working : dbWorkingCommitInfo sha256 d' = dbWorkingCommitInfo sha256 d;
  sv_pending : pendingLog (w_pending (db_work d')) = pendingLog (w_pending (db_work d));
  sv_log : db_wal d' = db_wal d;
  sv_mode : ReadOnly d' = ReadOnly d;
}.

Lemma pending_nil (d : @DB L) : pending_empty d -> pendingLog (w_pending (db_work d)) = mkEntry [] [].
Proof. intros [Es Eu]. unfold pendingLog. by rewrite Es, Eu. Qed.

(** The snapshot that was written is the current one, and it loads. *)
Lemma rewritten_loads es tk mi r : dir_ok (r_entries r) -> len es < 2 ^ 62 -> es <> [] -> Db.live sha256 t0 es tk -> writable tk ->
  find_entry (snapshotName (MTVersion tk)) (r_entries r) = None ->
  exists r', DbDir.RewriteSnapshot sha256 (fun _ => false) false false (with_meta mi tk) r = Ok r' /\
    r_current r' = Some (snapshotName (MTVersion tk)) /\ load_snapshot sha256 r' (snapshotName (MTVersion tk)) = Ok (with_meta (lastCommitInfo tk) tk).
Proof.
  intros Hd Hlen Hne El Hw Hf.
  destruct (write_load_live sha256 sha256_len t0 Hbase Hiv W0 es tk mi (fun _ => false) (fun _ => eq_refl) Hlen Hne El Hw) as (dir & Ew & Ed).
  pose proof (wr_version _ Hw) as Hv. unfold DbDir.RewriteSnapshot. change (MTVersion (with_meta mi tk)) with (MTVersion tk). rewrite Ew. cbn [res_bind].
  rewrite Hf. eexists. split; [done|]. split; [done|]. unfold load_snapshot.
  pose proof (find_put_snapshot true (MTVersion tk) dir (r_entries r) None ltac:(lia) Hf Hd) as Hp. cbn in Hp. cbn. by rewrite Hp.
Qed.

Lemma rewrite_reload (d : @DB L) r es tk mi : dir_ok (r_entries r) -> len es < 2 ^ 62 -> es <> [] ->
  Db.live sha256 t0 es tk -> db_tree d = with_meta mi tk -> writable tk -> pending_empty d -> ReadOnly d = false ->
  find_entry (snapshotName (MTVersion tk)) (r_entries r) = None ->
  exists r' d', dbRewriteSnapshot sha256 d r = Ok r' /\ Reload sha256 d r' = (None, d') /\ same_view d d' /\
    SnapshotVersion (db_tree d') = dbVersion d' /\ db_retired d' = Some (db_tree d).
Proof.
  intros Hd Hlen Hne El Et Hw Hp Hro Hf. destruct (rewritten_loads es tk mi r Hd Hlen Hne El Hw Hf) as (r' & Er & Ec & El').
  unfold dbRewriteSnapshot. rewrite Hro, Et. exists r'. unfold Reload, reload. rewrite Ec. cbn [or_error res_bind]. rewrite El'.
  unfold reloadMultiTree. rewrite (pending_nil d Hp), applyWALEntry_empty. eexists. split; [done|]. split; [done|]. split_and!; [|done|by rewrite <- Et].
  split; unfold dbTreeByName, dbVersion, dbLastCommitInfo, dbWorkingCommitInfo; rewrite ?Et; done.
Qed.
End Rewriting.

(** ** Properties *)

(** C17: Rewriting and reloading are invisible.  On a database whose state is committed and
    writable, with no changes pending and no snapshot of its version yet,
    [RewriteSnapshot] succeeds and [Reload] after it replaces the multi-tree by
    the one in the new snapshot: every tree, the version, the commit info, the
    working commit info, the pending log, the log and the mode are as before, the
    snapshot version is the version, and the old multi-tree is kept aside. *)
Theorem rewrite_reload_invisible {L : Type} `{LG : !Log L, LL : !LogLaws L} (sha256 : bytes -> bytes) (t0 tk : MultiTree) (d : @DB L) (r : Root)
  (es : list WALEntry) (mi : CommitInfo) (Hsha : forall b, len (sha256 b) = 32) (Hbase : base_version (MTVersion t0) (initialVersion t0))
  (Hiv : 0 <= initialVersion t0 < 2 ^ 32) (W0 : mt_wf t0) (Hd : dir_ok (r_entries r)) (Hlen : len es < 2 ^ 62) (Hne : es <> [])
  (El : Db.live sha256 t0 es tk) (Et : db_tree d = with_meta mi tk) (Hw : writable tk) (Hp : pending_empty d) (Hro : ReadOnly d = false)
  (Hf : find_entry (snapshotName (MTVersion tk)) (r_entries r) = None) :
  exists r' d', dbRewriteSnapshot sha256 d r = Ok r' /\ Reload sha256 d r' = (None, d') /\ same_view sha256 d d' /\
    SnapshotVersion (db_tree d') = dbVersion d' /\ db_retired d' = Some (db_tree d).
Proof. by eapply rewrite_reload. Qed.

Definition api_db (w : Working) : @DB ListLog := mkDB w None (Some sample_log) true 10 None false None 1000 5 None.
Definition api_committed : Working := mkWorking false (state_after sample_history) NewPending.
Definition api_changed : Working := (dbApplyChangeSet api_committed name_a [mkKVPair false [z2b 9] (Some [z2b 1])]).2.

Lemma rewrite_reload_invisible_witness :
  exists r' d', dbRewriteSnapshot digest32 (api_db api_committed) young_root = Ok r' /\ Reload digest32 (api_db api_committed) r' = (None, d') /\
    SnapshotVersion (db_tree d') = 6.
Proof.
  destruct (rewrite_reload_invisible digest32 (NewEmptyMultiTree 5) (state_after sample_history) (api_db api_committed) young_root sample_history
    (metadataInfo (state_after sample_history)) digest32_len sample_base ltac:(by vm_compute) sample_wf)
    as (r' & d' & H1 & H2 & H3 & H4 & _);
    [apply young_stored|by vm_compute|done|vm_compute; reflexivity|vm_compute; reflexivity|exact sample_writable|done|done|vm_compute; reflexivity|].
  exists r', d'. split; [exact H1|]. split; [exact H2|]. rewrite H4. rewrite (sv_version _ _ _ H3). vm_compute. reflexivity.
Defined.

(** A database with an uncommitted change: [RewriteSnapshot] succeeds and links a
    snapshot whose trees do not match its commit info, which neither [Reload]
    nor the next [Load] accepts. *)
Theorem rewrite_uncommitted_breaks :
  match dbRewriteSnapshot digest32 (api_db api_changed) young_root with
  | Ok r' =>
      r_current r' = Some (snapshotName 6) /\
      (Reload digest32 (api_db api_changed) r').1 = Some "snapshot metadata commit info does not match loaded trees: store hash mismatch"%string /\
      Load digest32 bit_unmarshal (sample_options 0 false false) r' sample_log =
        Err "snapshot metadata commit info does not match loaded trees: store hash mismatch"
  | _ => False
  end.
Proof. vm_compute. by split_and!. Qed.
