(* ===== verification/Handles.v ===== *)
(** Files, mappings and locks that the database holds: [memiavl/mmap.go],
    [filelock.go], and the parts of [snapshot.go] and [multitree.go] that open
    and close them.

    The world is abstract: its operations are those of the [os] package, of the
    memory mapping and of the file lock, all of which may fail at any time.  Its
    laws say what an operation reads from the directory of the database and which
    resources are held afterwards; in a [healthy] world an operation on what is
    there succeeds.

    [runs] states for an action in this world what it computes and what it owns
    afterwards, on success and on failure.  Every opening is shown to compute what
    the functions of [Snapshot] and [MultiTree] compute on the contents of the
    files, to own exactly the files it returns, and to own nothing when it fails. *)
From stdpp Require Import prelude strings gmap gmultiset sorting.
From Stdlib Require Import ZArith Lia.
From S2P Require Import Prelude OrdMap Codec Node Hash Persisted Snapshot Tree MultiTree Wal Pending Db DbDir.
Local Open Scope Z_scope.

(** ** The directory as paths *)

(** A path below the directory of the database, by components. *)
Abbreviation path := (list bytes).

Definition FileNameNodes : bytes := str "nodes".
Definition FileNameLeaves : bytes := str "leaves".
Definition FileNameKVs : bytes := str "kvs".
Definition FileNameMetadata : bytes := str "metadata".
Definition current : bytes := str "current".

(** The directory of a snapshot; [current] is a link. *)
Definition snapshot_dir (r : Root) (n : bytes) : option Dir :=
  let? n := if decide (n = current) then r_current r else Some n in
  let? e := find_entry n (r_entries r) in Some (en_content e).

Definition find_tree (n : name) (ds : list (name * Files)) : option Files :=
  let? (_, p) := list_find (fun p => p.1 = n) ds in Some p.2.

Definition tree_files (r : Root) (snap tree : bytes) : option Files :=
  let? d := snapshot_dir r snap in find_tree tree (d_trees d).

Definition file_of (f : Files) (n : bytes) : option bytes :=
  if decide (n = FileNameNodes) then Some (f_nodes f)
  else if decide (n = FileNameLeaves) then Some (f_leaves f)
  else if decide (n = FileNameKVs) then Some (f_kvs f)
  else if decide (n = FileNameMetadata) then Some (f_metadata f) else None.

Definition file_at (r : Root) (p : path) : option bytes :=
  match p with
  | [snap; tree; n] => let? f := tree_files r snap tree in file_of f n
  | _ => None
  end.

(** ** Resources *)

(** An open file, a mapping of a file, an open lock file, a lock that is held, an
    open log. *)
Inductive Handle : Type :=
| Fd (p : path) (n : nat)
| Mapping (p : path) (n : nat)
| LockFd (n : nat)
| Locked (n : nat)
| LogFd (n : nat).

#[export] Instance handle_eq_dec : EqDecision Handle.
Proof. solve_decision. Defined.
#[export] Instance handle_countable : Countable Handle.
Proof.
  refine (inj_countable'
    (fun h => match h with Fd p n => (0%nat, p, n) | Mapping p n => (1%nat, p, n) | LockFd n => (2%nat, [], n)
              | Locked n => (3%nat, [], n) | LogFd n => (4%nat, [], n) end)
    (fun x => match x with (0%nat, p, n) => Fd p n | (1%nat, p, n) => Mapping p n | (2%nat, _, n) => LockFd n
              | (3%nat, _, n) => Locked n | (_, _, n) => LogFd n end) _).
  by intros [].
Defined.

Abbreviation handles := (gmultiset Handle).

(** An action of the world returns a result, a release only an error. *)
Definition Act (W A : Type) : Type := W -> res A * W.
Definition Rel (W : Type) : Type := W -> option string * W.

Class OS (W : Type) := {
  osReadFile : path -> Act W bytes;
  osReadMetadata : bytes -> Act W (CommitInfo * Z);
  osReadDir : bytes -> Act W (list (bytes * bool));
  osOpen : path -> Act W Handle;
  osStat : Handle -> Act W Z;
  osClose : Handle -> Rel W;
  mmapMmap : Handle -> Z -> Act W (bytes * Handle);
  mmapMunmap : Handle -> Rel W;
}.

(** [errors.Join]. *)
Definition Join (errs : list (option string)) : option string :=
  match omap id errs with
  | [] => None
  | e :: es => Some (foldl (fun a e => a +:+ String (Ascii.ascii_of_nat 10) e)%string e es)
  end.

(** ** Actions *)

Section Actions.
Context {W : Type}.

Definition ret {A} (a : A) : Act W A := fun w => (Ok a, w).
Definition lift {A} (r : res A) : Act W A := fun w => (r, w).
(** Go on with the value, or leave through [fail]. *)
Definition try {A B} (m : Act W A) (fail : string -> Act W B) (k : A -> Act W B) : Act W B := fun w =>
  match m w with
  | (Ok a, w) => k a w
  | (Err e, w) => fail e w
  | (Panic e, w) => (Panic e, w)
  end.
Definition throw {A} (e : string) : Act W A := fun w => (Err e, w).
Definition bind {A B} (m : Act W A) (k : A -> Act W B) : Act W B := try m throw k.

(** Releases one after the other, with all their errors. *)
Fixpoint release_all (rs : list (Rel W)) (w : W) : list (option string) * W :=
  match rs with
  | [] => ([], w)
  | r :: rs => let (e, w) := r w in let (es, w) := release_all rs w in (e :: es, w)
  end.
(** [errors.Join(err, release, ...)], the deferred function of an early return. *)
Definition fail_with {A} (rs : list (Rel W)) (e : string) : Act W A := fun w =>
  let (es, w) := release_all rs w in (Err (default e (Join (Some e :: es))), w).
Definition join_all (rs : list (Rel W)) : Rel W := fun w => let (es, w) := release_all rs w in (Join es, w).
End Actions.

Notation "'let!' x ':=' m 'in' k" := (bind m (fun x => k))
  (at level 10, x pattern, k at level 200) : mem_scope.

(** ** [mmap.go] *)

Section Files.
Context {W : Type} `{!OS W}.

Record MmapFile : Type := mkMmapFile { mf_file : Handle; mf_data : bytes; mf_handle : option Handle }.

(** An empty file has no mapping. *)
Definition Mmap (f : Handle) : Act W (bytes * option Handle) :=
  let! size := osStat f in
  if size =? 0 then ret ([], None) else let! (d, h) := mmapMmap f size in ret (d, Some h).

Definition NewMmap (p : path) : Act W MmapFile :=
  let! file := osOpen p in
  try (Mmap file) (fun e w => let (_, w) := osClose file w in (Err e, w)) (fun x => ret (mkMmapFile file x.1 x.2)).

Definition MmapClose (m : MmapFile) : Rel W :=
  join_all [match mf_handle m with Some h => mmapMunmap h | None => fun w => (None, w) end; osClose (mf_file m)].

(** ** [OpenSnapshot] and [Snapshot.Close] *)

Record OpenedSnapshot : Type := mkOpened {
  os_data : Snapshot;
  os_maps : option (MmapFile * MmapFile * MmapFile);
}.

(** The metadata file gives the version. *)
Definition parseMetadata (bz : bytes) : res Z :=
  if negb (len bz =? SizeMetadata) then Err "wrong metadata file size"
  else
    let* magic := of_option "index out of range" (Uint32 bz) in
    if negb (magic =? SnapshotFileMagic) then Err "invalid metadata file magic"
    else
      let* format := of_option "index out of range" (let? b := slice_from bz 4 in Uint32 b) in
      if negb (format =? SnapshotFormat) then Err "unknown snapshot format"
      else of_option "index out of range" (let? b := slice_from bz 8 in Uint32 b).

Definition OpenSnapshotDir (snap tree : bytes) : Act W OpenedSnapshot :=
  let! bz := osReadFile [snap; tree; FileNameMetadata] in
  let! version := lift (parseMetadata bz) in
  let! nodesMap := NewMmap [snap; tree; FileNameNodes] in
  try (NewMmap [snap; tree; FileNameLeaves]) (fail_with [MmapClose nodesMap]) (fun leavesMap =>
  try (NewMmap [snap; tree; FileNameKVs]) (fail_with [MmapClose nodesMap; MmapClose leavesMap]) (fun kvsMap =>
  try (lift (openData (mf_data nodesMap) (mf_data leavesMap) (mf_data kvsMap) version))
    (fail_with [MmapClose nodesMap; MmapClose leavesMap; MmapClose kvsMap]) (fun s =>
  ret (mkOpened s (Some (nodesMap, leavesMap, kvsMap)))))).

(** A closed snapshot is the empty one of its version. *)
Definition emptied (s : OpenedSnapshot) : OpenedSnapshot := mkOpened (mkSnapshot [] [] [] (version (os_data s)) None) None.
Definition SnapshotClose (s : OpenedSnapshot) : Rel W :=
  match os_maps s with
  | Some (n, l, k) => join_all [MmapClose n; MmapClose l; MmapClose k]
  | None => fun w => (None, w)
  end.

(** ** [LoadMultiTree] and [MultiTree.Close] *)

(** A tree with the snapshot it was opened from; a tree that was created later
    has none. *)
Record OpenedTree : Type := mkOpenedTree { ot_tree : NamedTree; ot_snapshot : option OpenedSnapshot }.
Definition TreeClose (t : OpenedTree) : Rel W :=
  match ot_snapshot t with Some s => SnapshotClose s | None => fun w => (None, w) end.

Record OpenedTrees : Type := mkOpenedTrees { om_tree : MultiTree; om_trees : list OpenedTree }.
Definition TreesClose (t : OpenedTrees) : Rel W := join_all (TreeClose <$> om_trees t).

Definition NewFromSnapshot (s : Snapshot) : res VTree :=
  if IsEmpty s then Ok (mkVTree (version s) None)
  else
    let* p := RootNode s in
    let* n := of_option "slice bounds out of range" (load depth s p) in
    Ok (mkVTree (version s) (Some n)).

(** The directories of the snapshot, in the order of [os.ReadDir]; a failure closes
    the trees opened before. *)
Fixpoint open_dirs (snap : bytes) (opened : list OpenedTree) (es : list (bytes * bool)) : Act W (list OpenedTree) :=
  match es with
  | [] => ret opened
  | (n, isDir) :: es =>
      if negb isDir then open_dirs snap opened es
      else
        try (OpenSnapshotDir snap n) (fail_with (TreeClose <$> opened)) (fun s =>
        let! t := lift (NewFromSnapshot (os_data s)) in
        open_dirs snap (opened ++ [mkOpenedTree (mkNamed n t) (Some s)]) es)
  end.

Fixpoint insert_opened (e : OpenedTree) (ts : list OpenedTree) : list OpenedTree :=
  match ts with
  | [] => [e]
  | x :: ts' => if bytes_ltb (nt_name (ot_tree x)) (nt_name (ot_tree e)) then x :: insert_opened e ts' else e :: ts
  end.
Definition sort_opened (ts : list OpenedTree) : list OpenedTree := foldr insert_opened [] ts.

(** The overflow checks of [readMetadata]. *)
Definition checkMetadata (commit : CommitInfo) (iv : Z) : res (CommitInfo * Z) :=
  if MaxUint32 <? ci_version commit then Err "commit info version overflows uint32"
  else if MaxUint32 <? iv then Err "initial version overflows uint32" else Ok (commit, iv).

Definition LoadTrees (sha256 : bytes -> bytes) (snap : bytes) : Act W OpenedTrees :=
  let! (commit, iv) := osReadMetadata snap in
  let! (commit, iv) := lift (checkMetadata commit iv) in
  let! es := osReadDir snap in
  let! opened := open_dirs snap [] es in
  let opened := sort_opened opened in
  let ts := ot_tree <$> opened in
  let t := MTsetInitialVersion (mkMulti 0 ts (index_trees ts) commit commit) (u32 iv) in
  let actualVersion := match trees t with [] => ci_version commit | e :: _ => vt_version (nt_tree e) end in
  match commitInfoEqual commit (buildCommitInfo sha256 t actualVersion) with
  | Some e => fail_with [join_all (TreeClose <$> opened)] ("snapshot metadata commit info does not match loaded trees: " ++ e)%string
  | None => ret (mkOpenedTrees t opened)
  end.
End Files.

(** ** What an action computes and owns *)

(** The directory and the log of the world, what is held, and whether the
    operating system serves every request that makes sense. *)
Class OSView (W L : Type) := {
  rootOf : W -> Root;
  logOf : W -> L;
  held : W -> handles;
  healthy : W -> Prop;
}.

Section Spec.
Context {W L : Type} `{V : !OSView W L}.

Definition frame (w w' : W) : Prop := rootOf w' = rootOf w /\ logOf w' = logOf w /\ (healthy w -> healthy w').

(** [runs R E m p data own]: the action starts with the handles [R].  A success
    gives what [p] computes from the directory and leaves the handles of the
    value; an error leaves [E], and in a healthy world [p] fails too. *)
Definition runs {A B} (R E : handles) (m : Act W A) (p : Root -> res B) (data : A -> B) (own : A -> handles) : Prop :=
  forall w H, held w = H ⊎ R ->
    match m w with
    | (Ok a, w') => p (rootOf w) = Ok (data a) /\ held w' = H ⊎ own a /\ frame w w'
    | (Err _, w') => (healthy w -> forall b, p (rootOf w) <> Ok b) /\ held w' = H ⊎ E /\ frame w w'
    | (Panic _, _) => forall b, p (rootOf w) <> Ok b
    end.

(** A release gives the handles up, whatever it reports. *)
Definition gives_up (r : Rel W) (R : handles) : Prop :=
  forall w H, held w = H ⊎ R -> held (r w).2 = H /\ frame w (r w).2.

(** An early return leaves [E'] of the handles [E] and reports an error. *)
Definition throws {A} (E E' : handles) (f : string -> Act W A) : Prop :=
  forall e w H, held w = H ⊎ E -> exists e' w', f e w = (Err e', w') /\ held w' = H ⊎ E' /\ frame w w'.

Lemma frame_refl w : frame w w.
Proof. by split_and!. Qed.
Lemma frame_trans w1 w2 w3 : frame w1 w2 -> frame w2 w3 -> frame w1 w3.
Proof. unfold frame. intuition congruence. Qed.

Lemma runs_ret {A B} R E (a : A) p (data : A -> B) own : R = own a -> (forall r, p r = Ok (data a)) -> runs R E (ret a) p data own.
Proof. intros -> Hp w H Hw. cbn. split_and!; [done|done|apply frame_refl]. Qed.

Lemma runs_lift {A} R (r : res A) : runs R R (lift r) (fun _ => r) id (fun _ => R).
Proof. intros w H Hw. unfold lift. destruct r; [by auto using frame_refl| |done]. split_and!; [done|done|apply frame_refl]. Qed.

(** A pure step that cannot fail. *)
Lemma runs_pure {A B C} R E (x : res A) (k : A -> Act W B) q (data : B -> C) own : (forall e, x <> Err e) ->
  (forall a, runs R E (k a) (q a) data own) -> runs R E (bind (lift x) k) (fun r => let* a := x in q a r) data own.
Proof. intros Hx Hk w H Hw. unfold bind, try, lift. destruct x as [a|e|e]; [by apply Hk|by destruct (Hx e)|done]. Qed.

Lemma runs_try {A B C D} R E E' (m : Act W A) p (data : A -> B) own fail (k : A -> Act W C) q (data' : C -> D) own' :
  runs R E m p data own -> throws E E' fail ->
  (forall a r, p r = Ok (data a) -> runs (own a) E' (k a) (q (data a)) data' own') ->
  runs R E' (try m fail k) (fun r => let* b := p r in q b r) data' own'.
Proof.
  intros Hm Hf Hk w H Hw. specialize (Hm w H Hw). unfold try. destruct (m w) as [[a|e|e] w1].
  - destruct Hm as (E1 & E2 & F1). specialize (Hk a _ E1 w1 H E2). destruct F1 as (F1 & F2 & F3). rewrite E1. cbn [res_bind].
    rewrite F1 in Hk. destruct (k a w1) as [[c|e|e] w2].
    + destruct Hk as (K1 & K2 & K3). split_and!; [done|done|by apply (frame_trans _ w1)].
    + destruct Hk as (K1 & K2 & K3). split_and!; [|done|by apply (frame_trans _ w1)]. auto.
    + done.
  - destruct Hm as (E1 & E2 & F1). destruct (Hf e w1 H E2) as (e' & w2 & -> & G1 & G2).
    split_and!; [|done|by apply (frame_trans _ w1)]. intros Hh b. destruct (p (rootOf w)) as [x| |]; [by destruct (E1 Hh x)|done|done].
  - intros b. destruct (p (rootOf w)) as [x| |]; [by destruct (Hm x)|done|done].
Qed.

Lemma throws_throw {A} E : throws E E (@throw W A).
Proof. intros e w H Hw. exists e, w. split_and!; [done|done|apply frame_refl]. Qed.

Lemma runs_bind {A B C D} R E (m : Act W A) p (data : A -> B) own (k : A -> Act W C) q (data' : C -> D) own' :
  runs R E m p data own -> (forall a r, p r = Ok (data a) -> runs (own a) E (k a) (q (data a)) data' own') ->
  runs R E (bind m k) (fun r => let* b := p r in q b r) data' own'.
Proof. intros Hm Hk. eapply runs_try; [exact Hm|apply throws_throw|exact Hk]. Qed.

(** Handles that the action does not touch. *)
Lemma runs_frame {A B} R E F (m : Act W A) p (data : A -> B) own :
  runs R E m p data own -> runs (F ⊎ R) (F ⊎ E) m p data (fun a => F ⊎ own a).
Proof.
  intros Hm w H Hw. specialize (Hm w (H ⊎ F)). rewrite (assoc_L (⊎)) in Hw. specialize (Hm Hw).
  destruct (m w) as [[a|e|e] w']; [|by rewrite (assoc_L (⊎))|done]. by rewrite (assoc_L (⊎)).
Qed.

Lemma runs_keep {A B} F (m : Act W A) p (data : A -> B) own :
  runs ∅ ∅ m p data own -> runs F F m p data (fun a => F ⊎ own a).
Proof. intros Hm%(runs_frame _ _ F). by rewrite !(right_id_L ∅ (⊎)) in Hm. Qed.

Lemma runs_conseq {A B C} R R' E E' (m : Act W A) p (data : A -> B) own p' (data' : A -> C) own' :
  runs R E m p data own -> R' = R -> E' = E -> (forall a, own' a = own a) ->
  (forall r a, p r = Ok (data a) -> p' r = Ok (data' a)) -> (forall r, (forall b, p r <> Ok b) -> forall b, p' r <> Ok b) ->
  runs R' E' m p' data' own'.
Proof.
  intros Hm -> -> Ho Hd He w H Hw. specialize (Hm w H Hw). destruct (m w) as [[a|e|e] w'].
  - destruct Hm as (E1 & E2 & F1). rewrite Ho. auto.
  - destruct Hm as (E1 & E2 & F1). split_and!; [|done|done]. intros Hh. apply He. auto.
  - by apply He.
Qed.

Lemma runs_ext {A B} R E (m : Act W A) p p' (data : A -> B) own : runs R E m p data own -> (forall r, p r = p' r) -> runs R E m p' data own.
Proof. intros Hm He. eapply runs_conseq; [exact Hm|done|done|done| |]; intros r; by rewrite He. Qed.

Lemma runs_at {A B} R E (m : Act W A) p p' (data : A -> B) own : runs R E m p data own ->
  (forall w, p (rootOf w) = p' (rootOf w)) -> runs R E m p' data own.
Proof. intros Hm He w H Hw. specialize (Hm w H Hw). by rewrite He in Hm. Qed.

Lemma gives_up_nothing : gives_up (fun w => (None, w)) ∅.
Proof. intros w H Hw. rewrite (right_id_L _ _) in Hw. split; [done|apply frame_refl]. Qed.

Lemma release_all_gives_up rs Rs : Forall2 gives_up rs Rs -> forall w H, held w = H ⊎ ⋃+ Rs ->
  held (release_all rs w).2 = H /\ frame w (release_all rs w).2.
Proof.
  induction 1 as [|r R rs Rs Hr _ IH]; intros w H Hw; cbn.
  - cbn in Hw. rewrite (right_id_L _ _) in Hw. split; [done|apply frame_refl].
  - cbn in Hw. assert (held w = (H ⊎ ⋃+ Rs) ⊎ R) as Hw' by multiset_solver. destruct (Hr w _ Hw') as [G1 G2].
    destruct (r w) as [e w1]. cbn in *. destruct (IH w1 H G1) as [I1 I2].
    destruct (release_all rs w1) as [es w2]. cbn in *. split; [done|by apply (frame_trans _ w1)].
Qed.

Lemma gives_up_join rs Rs R : Forall2 gives_up rs Rs -> R = ⋃+ Rs -> gives_up (join_all rs) R.
Proof.
  intros F -> w H Hw. destruct (release_all_gives_up rs Rs F w H Hw) as [G1 G2]. unfold join_all.
  by destruct (release_all rs w).
Qed.

Lemma throws_fail {A} rs Rs E E' : Forall2 gives_up rs Rs -> E = E' ⊎ ⋃+ Rs -> throws E E' (@fail_with W A rs).
Proof.
  intros F -> e w H Hw. rewrite (assoc_L (⊎)) in Hw. destruct (release_all_gives_up rs Rs F w _ Hw) as [G1 G2]. unfold fail_with.
  destruct (release_all rs w) as [es w1]. eauto.
Qed.

Lemma throws_one {A} r R : gives_up r R -> throws R ∅ (@fail_with W A [r]).
Proof. intros Hr. apply (throws_fail [r] [R]); [by constructor|]. by rewrite gmultiset_disj_union_list_singleton, (left_id_L ∅ (⊎)). Qed.
End Spec.

(** ** The laws of the operating system *)

Definition found {A} (o : option A) : res A := or_error ErrNotExist o.
Definition fd_path (h : Handle) : option path := match h with Fd p _ => Some p | _ => None end.

(** The directories of a listing. *)
Fixpoint dir_names (es : list (bytes * bool)) : list bytes :=
  match es with [] => [] | (n, isDir) :: es => if isDir then n :: dir_names es else dir_names es end.

Class OSLaws (W L : Type) `{!OS W, !OSView W L} := {
  law_readFile : forall p, runs ∅ ∅ (osReadFile p) (fun r => found (file_at r p)) id (fun _ => ∅);
  law_readMetadata : forall n, runs ∅ ∅ (osReadMetadata n)
    (fun r => let* d := found (snapshot_dir r n) in Ok (d_commit d, d_initial d)) id (fun _ => ∅);
  law_readDir : forall n, runs ∅ ∅ (osReadDir n)
    (fun r => let* d := found (snapshot_dir r n) in Ok (d_trees d).*1) dir_names (fun _ => ∅);
  law_open : forall p, runs ∅ ∅ (osOpen p) (fun r => let* _ := found (file_at r p) in Ok (Some p)) fd_path (fun h => {[+ h +]});
  law_stat : forall p n, let h := Fd p n in
    runs {[+ h +]} {[+ h +]} (osStat h) (fun r => let* b := found (file_at r p) in Ok (len b)) id (fun _ => {[+ h +]});
  law_close : forall h, gives_up (osClose h) {[+ h +]};
  law_mmap : forall p n size, let h := Fd p n in 0 < size ->
    runs {[+ h +]} {[+ h +]} (mmapMmap h size) (fun r => let* b := found (file_at r p) in Ok (take (Z.to_nat size) b)) fst
      (fun x => {[+ h; x.2 +]});
  law_munmap : forall h, gives_up (mmapMunmap h) {[+ h +]};
  law_names : forall w n d, snapshot_dir (rootOf w) n = Some d -> NoDup (d_trees d).*1;
}.

(** Releases of a list, one after the other. *)
Create HintDb release.
#[export] Hint Resolve law_close law_munmap gives_up_nothing : release.
Ltac releases := repeat (apply Forall2_cons_2; [by auto with release|]); apply Forall2_nil_2.

Section Open.
Context {W L : Type} `{!OS W, !OSView W L, !OSLaws W L}.

Definition mf_handles (m : MmapFile) : handles :=
  {[+ mf_file m +]} ⊎ match mf_handle m with Some h => {[+ h +]} | None => ∅ end.

Lemma found_Ok {A} (o : option A) a : found o = Ok a <-> o = Some a.
Proof. unfold found, or_error. destruct o; naive_solver. Qed.

Lemma Mmap_runs p n : let h := Fd p n in
  runs {[+ h +]} {[+ h +]} (Mmap h) (fun r => found (file_at r p)) fst
    (fun x => {[+ h +]} ⊎ match x.2 with Some m => {[+ m +]} | None => ∅ end).
Proof.
  intros h. eapply runs_ext.
  - unfold Mmap. eapply runs_bind; [apply law_stat|]. intros size r Hs. cbv beta.
    instantiate (1 := fun size r => if size =? 0 then Ok [] else let* b := found (file_at r p) in Ok (take (Z.to_nat size) b)).
    cbn [id]. destruct (Z.eqb_spec size 0) as [->|Hn]; [apply runs_ret; [multiset_solver|done]|].
    assert (0 < size) as Hpos.
    { apply res_bind_ok in Hs as (b & _ & Hs). apply Ok_inj in Hs. pose proof (len_nonneg b). unfold id in Hs. lia. }
    eapply runs_ext.
    + eapply runs_bind; [by apply law_mmap|]. intros [d m] r' _. apply runs_ret; [multiset_solver|]. intros r1.
      by instantiate (1 := fun d _ => Ok d).
    + intros r'. cbn. by destruct (found (file_at r' p)).
  - intros r. cbn. destruct (found (file_at r p)) as [b| |]; [|done|done]. cbn.
    destruct (Z.eqb_spec (len b) 0) as [Hz|Hz].
    + unfold len in Hz. by destruct b.
    + unfold len. by rewrite Nat2Z.id, take_ge.
Qed.

Lemma NewMmap_runs p : runs ∅ ∅ (NewMmap p) (fun r => found (file_at r p)) mf_data mf_handles.
Proof.
  eapply runs_ext.
  - eapply runs_bind with (q := fun _ r => let* d := found (file_at r p) in Ok d); [apply law_open|].
    intros h r Hh. apply res_bind_ok in Hh as (b & _ & Hh).
    assert (exists n, h = Fd p n) as [n ->] by (destruct h; naive_solver).
    eapply runs_try with (q := fun d _ => Ok d); [apply Mmap_runs| |].
    + intros e w H Hw. destruct (law_close (Fd p n) w H Hw) as [G1 G2]. destruct (osClose (Fd p n) w) as [e' w']. cbn in *.
      exists e, w'. split_and!; [done|by rewrite (right_id_L _ _)|done].
    + intros [d m] r' _. by apply runs_ret.
  - intros r. cbn. by destruct (found (file_at r p)).
Qed.

Lemma MmapClose_gives_up m : gives_up (MmapClose m) (mf_handles m).
Proof.
  unfold MmapClose, mf_handles. destruct (mf_handle m) as [h|]; (eapply gives_up_join; [releases|]); multiset_solver.
Qed.
#[local] Hint Resolve MmapClose_gives_up : release.

(** The metadata first, then the three files. *)
Lemma OpenSnapshot_parse f : OpenSnapshot f =
  let* v := parseMetadata (f_metadata f) in openData (f_nodes f) (f_leaves f) (f_kvs f) v.
Proof.
  unfold OpenSnapshot, parseMetadata. destruct (negb _); [done|]. destruct (of_option _ (Uint32 _)); [|done|done]. cbn [res_bind].
  destruct (negb _); [done|]. destruct (of_option _ _); [|done|done]. cbn [res_bind]. by destruct (negb _).
Qed.

Definition opened_handles (s : OpenedSnapshot) : handles :=
  match os_maps s with Some (n, l, k) => mf_handles n ⊎ mf_handles l ⊎ mf_handles k | None => ∅ end.

Lemma file_at_files r snap tree n : file_at r [snap; tree; n] = let? f := tree_files r snap tree in file_of f n.
Proof. done. Qed.

Lemma OpenSnapshotDir_runs snap tree :
  runs ∅ ∅ (OpenSnapshotDir snap tree) (fun r => let* f := found (tree_files r snap tree) in OpenSnapshot f) os_data opened_handles.
Proof.
  set (file n r := found (file_at r [snap; tree; n])).
  eapply runs_ext with (p := fun r => let* bz := file FileNameMetadata r in let* v := parseMetadata bz in
    let* n := file FileNameNodes r in let* l := file FileNameLeaves r in let* k := file FileNameKVs r in openData n l k v).
  - unfold OpenSnapshotDir.
    eapply runs_bind with (q := fun bz r => let* v := parseMetadata bz in let* n := file FileNameNodes r in
      let* l := file FileNameLeaves r in let* k := file FileNameKVs r in openData n l k v); [apply law_readFile|]. intros bz _ _.
    eapply runs_bind with (q := fun v r => let* n := file FileNameNodes r in
      let* l := file FileNameLeaves r in let* k := file FileNameKVs r in openData n l k v); [apply runs_lift|]. intros v _ _.
    eapply runs_bind with (q := fun n r => let* l := file FileNameLeaves r in let* k := file FileNameKVs r in openData n l k v);
      [apply NewMmap_runs|]. intros n _ _.
    eapply runs_try with (q := fun l r => let* k := file FileNameKVs r in openData (mf_data n) l k v);
      [eapply runs_keep, NewMmap_runs|eapply throws_fail; [releases|multiset_solver]|]. intros l _ _. cbv beta.
    eapply runs_try with (q := fun k r => openData (mf_data n) (mf_data l) k v);
      [eapply runs_keep, NewMmap_runs|eapply throws_fail; [releases|multiset_solver]|]. intros k _ _. cbv beta.
    eapply runs_ext; [eapply runs_try with (q := fun s _ => Ok s); [apply runs_lift|eapply throws_fail; [releases|multiset_solver]|]|].
    + intros s _ _. apply runs_ret; [unfold opened_handles; cbn; multiset_solver|done].
    + intros r. by destruct (openData _ _ _ _).
  - intros r. unfold file. rewrite !file_at_files. destruct (tree_files r snap tree) as [f|]; [|done]. cbn. by rewrite OpenSnapshot_parse.
Qed.

Lemma SnapshotClose_gives_up s : gives_up (SnapshotClose s) (opened_handles s).
Proof.
  unfold SnapshotClose, opened_handles. destruct (os_maps s) as [[[n l] k]|]; [|apply gives_up_nothing].
  eapply gives_up_join; [releases|multiset_solver].
Qed.
#[local] Hint Resolve SnapshotClose_gives_up : release.

(** ** All trees of a snapshot *)

Definition tree_handles (t : OpenedTree) : handles := match ot_snapshot t with Some s => opened_handles s | None => ∅ end.
Definition trees_handles (ts : list OpenedTree) : handles := ⋃+ (tree_handles <$> ts).

Lemma TreeClose_gives_up t : gives_up (TreeClose t) (tree_handles t).
Proof. unfold TreeClose, tree_handles. destruct (ot_snapshot t); auto with release. Qed.

Lemma trees_release ts : Forall2 gives_up (TreeClose <$> ts) (tree_handles <$> ts).
Proof. induction ts; [constructor|]. constructor; [apply TreeClose_gives_up|done]. Qed.

Lemma trees_close ts : gives_up (join_all (TreeClose <$> ts)) (trees_handles ts).
Proof. eapply gives_up_join; [apply trees_release|done]. Qed.

(** The trees of the directories [ns] of a snapshot, opened one after the other. *)
Fixpoint open_names (snap : bytes) (r : Root) (ns : list name) : res (list NamedTree) :=
  match ns with
  | [] => Ok []
  | n :: ns =>
      let* f := found (tree_files r snap n) in
      let* t := open_tree f in
      let* rest := open_names snap r ns in
      Ok (mkNamed n t :: rest)
  end.

Lemma NewFromSnapshot_no_error s e : NewFromSnapshot s <> Err e.
Proof.
  unfold NewFromSnapshot, RootNode. destruct (IsEmpty s); [done|]. destruct (root s); [|done]. cbn.
  by destruct (load _ _ _).
Qed.

Lemma open_dirs_runs snap es : forall opened,
  runs (trees_handles opened) ∅ (open_dirs snap opened es)
    (fun r => let* ts := open_names snap r (dir_names es) in Ok ((ot_tree <$> opened) ++ ts))
    (fun ts => ot_tree <$> ts) trees_handles.
Proof.
  induction es as [|[n [|]] es IH]; intros opened.
  - apply runs_ret; [done|]. intros r. cbn. by rewrite app_nil_r.
  - cbn [open_dirs negb]. cbn [dir_names open_names].
    eapply runs_ext with (p := fun r => let* s := (let* f := found (tree_files r snap n) in OpenSnapshot f) in
      let* t := NewFromSnapshot s in
      let* ts := open_names snap r (dir_names es) in Ok ((ot_tree <$> opened) ++ mkNamed n t :: ts)).
    + eapply runs_try with (q := fun s r => let* t := NewFromSnapshot s in
        let* ts := open_names snap r (dir_names es) in Ok ((ot_tree <$> opened) ++ mkNamed n t :: ts));
        [eapply runs_keep, OpenSnapshotDir_runs|eapply throws_fail; [apply trees_release|multiset_solver]|].
      intros s _ _. cbv beta. apply runs_pure; [apply NewFromSnapshot_no_error|]. intros t.
      eapply runs_conseq; [apply IH| |done|done|..].
      * unfold trees_handles. rewrite fmap_app, gmultiset_disj_union_list_app. cbn. multiset_solver.
      * intros r ts (us & E1 & E2)%res_bind_ok. apply res_bind_ok. exists us. split; [done|].
        by rewrite fmap_app, <- app_assoc in E2.
      * intros r Hn b (us & E1 & E2)%res_bind_ok. eapply Hn, res_bind_ok. eauto.
    + intros r. unfold open_tree, NewFromSnapshot. destruct (found _) as [f| |]; [|done|done]. cbn.
      destruct (OpenSnapshot f) as [s| |]; [|done|done]. cbn. destruct (if IsEmpty s then _ else _) as [t| |]; [|done|done]. cbn.
      by destruct (open_names _ _ _).
  - apply IH.
Qed.

Lemma insert_opened_tree e ts : ot_tree <$> insert_opened e ts = insert_by_name (ot_tree e) (ot_tree <$> ts).
Proof. induction ts as [|x ts IH]; [done|]. cbn. destruct (bytes_ltb _ _); [cbn; by rewrite IH|done]. Qed.

Lemma sort_opened_tree ts : ot_tree <$> sort_opened ts = sort_by_name (ot_tree <$> ts).
Proof. unfold sort_opened, sort_by_name. induction ts as [|x ts IH]; [done|]. cbn. by rewrite insert_opened_tree, IH. Qed.

Lemma insert_opened_perm e ts : insert_opened e ts ≡ₚ e :: ts.
Proof. induction ts as [|x ts IH]; [done|]. cbn. destruct (bytes_ltb _ _); [rewrite IH; apply Permutation_swap|done]. Qed.

Lemma trees_handles_perm ts ts' : ts ≡ₚ ts' -> trees_handles ts = trees_handles ts'.
Proof. unfold trees_handles. induction 1; cbn; [done|by rewrite IHPermutation|multiset_solver|by etrans]. Qed.

Lemma sort_opened_handles ts : trees_handles (sort_opened ts) = trees_handles ts.
Proof.
  apply trees_handles_perm. unfold sort_opened. induction ts as [|x ts IH]; [done|]. cbn. by rewrite insert_opened_perm, IH.
Qed.

Lemma find_tree_nodup ds n f : NoDup ds.*1 -> (n, f) ∈ ds -> find_tree n ds = Some f.
Proof.
  induction ds as [|[m g] ds IH]; [by intros _ ?%not_elem_of_nil|]. cbn. intros [Hn Hd]%NoDup_cons [E|Hin]%elem_of_cons.
  - injection E as -> ->. unfold find_tree. cbn. by rewrite decide_True.
  - assert (m <> n) as Hmn by (intros ->; apply Hn, list_elem_of_fmap; by exists (n, f)).
    specialize (IH Hd Hin). unfold find_tree in *. cbn. rewrite decide_False by done.
    by destruct (list_find _ ds) as [[i [? ?]]|].
Qed.

(** Opening by name is opening the listed files. *)
Lemma open_names_trees snap r d : snapshot_dir r snap = Some d -> NoDup (d_trees d).*1 ->
  open_names snap r (d_trees d).*1 = open_trees (d_trees d).
Proof.
  intros Hd Hn. assert (forall ds, (forall p, p ∈ ds -> p ∈ d_trees d) -> open_names snap r ds.*1 = open_trees ds) as HA; [|by apply HA].
  induction ds as [|[n f] ds IH]; intros Hs; [done|]. cbn. unfold tree_files. rewrite Hd. cbn.
  rewrite (find_tree_nodup _ n f Hn) by (apply Hs; left). cbn. by rewrite IH by (intros; apply Hs; by right).
Qed.

Definition owned (t : OpenedTrees) : handles := trees_handles (om_trees t).

Section Load.
Context (sha256 : bytes -> bytes).

(** The checks after all trees are open. *)
Definition checked (commit : CommitInfo) (iv : Z) (ts : list NamedTree) : res MultiTree :=
  let t := MTsetInitialVersion (mkMulti 0 ts (index_trees ts) commit commit) (u32 iv) in
  let actualVersion := match trees t with [] => ci_version commit | e :: _ => vt_version (nt_tree e) end in
  match commitInfoEqual commit (buildCommitInfo sha256 t actualVersion) with
  | Some e => Err ("snapshot metadata commit info does not match loaded trees: " ++ e)%string
  | None => Ok t
  end.

Lemma LoadTrees_runs snap :
  runs ∅ ∅ (LoadTrees sha256 snap) (fun r => let* d := found (snapshot_dir r snap) in LoadMultiTree sha256 d) om_tree owned.
Proof.
  eapply runs_at with (p := fun r => let* c := (let* d := found (snapshot_dir r snap) in Ok (d_commit d, d_initial d)) in
    let* c := checkMetadata c.1 c.2 in let* ns := (let* d := found (snapshot_dir r snap) in Ok (d_trees d).*1) in
    let* ts := open_names snap r ns in checked c.1 c.2 (sort_by_name ts)).
  - unfold LoadTrees.
    eapply runs_bind with (q := fun c r => let* c := checkMetadata c.1 c.2 in
      let* ns := (let* d := found (snapshot_dir r snap) in Ok (d_trees d).*1) in
      let* ts := open_names snap r ns in checked c.1 c.2 (sort_by_name ts)); [apply law_readMetadata|]. intros [commit iv] _ _.
    eapply runs_bind with (q := fun c r => let* ns := (let* d := found (snapshot_dir r snap) in Ok (d_trees d).*1) in
      let* ts := open_names snap r ns in checked c.1 c.2 (sort_by_name ts)); [apply runs_lift|]. intros [commit' iv'] _ _.
    eapply runs_bind with (q := fun ns r => let* ts := open_names snap r ns in checked commit' iv' (sort_by_name ts)); [apply law_readDir|].
    intros es _ _.
    eapply runs_ext; [eapply runs_bind with (q := fun ts _ => checked commit' iv' (sort_by_name ts)); [apply (open_dirs_runs snap es [])|]|].
    + intros opened _ _. rewrite <- sort_opened_tree, <- sort_opened_handles. unfold checked. cbv zeta.
      destruct (commitInfoEqual _ _) as [e|]; [|by apply runs_ret].
      intros w H Hw. by destruct (throws_one (A := OpenedTrees) _ _ (trees_close (sort_opened opened))
        ("snapshot metadata commit info does not match loaded trees: " ++ e)%string w H Hw) as (e' & w' & -> & G1 & G2).
    + intros r. cbn. by destruct (open_names snap r (dir_names es)).
  - intros w. destruct (snapshot_dir (rootOf w) snap) as [d|] eqn:Ed; [|done]. cbn. unfold LoadMultiTree, readMetadata, checkMetadata.
    rewrite (open_names_trees snap (rootOf w) d Ed) by (by eapply law_names). by repeat case_match.
Qed.
End Load.

(** ** Upgrades of opened trees *)

(** [ApplyUpgrades] on trees with their snapshots: a tree that is deleted is
    dropped from the list as it is. *)
Definition opened_upgrade (v iv : Z) (ts : list OpenedTree) (u : TreeNameUpgrade) : res (list OpenedTree) :=
  if up_delete u then
    match index_of (up_name u) (ot_tree <$> ts) with
    | None => Err "unknown tree name"
    | Some i => Ok (swap_delete i ts)
    end
  else if negb (bool_decide (up_renameFrom u = [])) then
    match index_of (up_renameFrom u) (ot_tree <$> ts) with
    | None => Err "unknown tree name"
    | Some i => Ok (alter (fun e => mkOpenedTree (mkNamed (up_name u) (nt_tree (ot_tree e))) (ot_snapshot e)) i ts)
    end
  else
    let* tree := vtNew (u32 (nextVersion v iv)) in
    Ok (ts ++ [mkOpenedTree (mkNamed (up_name u) tree) None]).

Lemma opened_upgrade_tree v iv ts u :
  (let* ts := opened_upgrade v iv ts u in Ok (ot_tree <$> ts)) = apply_upgrade v iv (ot_tree <$> ts) u.
Proof.
  unfold opened_upgrade, apply_upgrade. destruct (up_delete u).
  - destruct (index_of _ _) as [i|]; [|done]. cbn. f_equal. unfold swap_delete.
    rewrite fmap_last. destruct (last ts) as [e|]; [|done]. cbn. by rewrite fmap_take, list_fmap_insert, length_fmap.
  - destruct (negb _).
    + destruct (index_of _ _) as [i|]; [|done]. cbn. f_equal. by apply list_fmap_alter, Forall_true.
    + destruct (vtNew _); [|done|done]. cbn. by rewrite fmap_app.
Qed.


(** A deletion drops the tree and its handles from the list. *)
Lemma opened_delete v iv ts u ts' : up_delete u = true -> opened_upgrade v iv ts u = Ok ts' ->
  exists t, t ∈ ts /\ nt_name (ot_tree t) = up_name u /\ trees_handles ts = trees_handles ts' ⊎ tree_handles t.
Proof.
  unfold opened_upgrade. intros -> E. destruct (index_of _ _) as [i|] eqn:Ei; [|done]. apply Ok_inj in E as <-.
  apply index_of_Some in Ei as (e & Hi & En). rewrite list_lookup_fmap in Hi. apply fmap_Some in Hi as (t & Ht & ->).
  exists t. split_and!; [by eapply list_elem_of_lookup_2|done|].
  pose proof (lookup_lt_Some _ _ _ Ht) as Hl. rewrite <- (take_drop_middle ts i t Ht) at 1.
  assert (swap_delete i ts ≡ₚ take i ts ++ drop (S i) ts) as ->%trees_handles_perm.
  { rewrite <- (take_drop_middle ts i t Ht) at 1. rewrite <- (length_take_le ts i) at 1 by lia. apply swap_delete_perm. }
  unfold trees_handles. rewrite !fmap_app, !gmultiset_disj_union_list_app, fmap_cons. cbn. multiset_solver.
Qed.
End Open.

(** ** Locking: [filelock.go] *)

Class LockOS (W : Type) := {
  osAbs : Act W unit;
  lockNew : Act W Handle;
  lockTry : Handle -> Act W bool;
  lockUnlock : Handle -> Rel W;
  lockDestroy : Handle -> Rel W;
}.

(** A lock is given to one holder at a time: [TryLock] without an error holds it,
    and nobody held it before. *)
Class LockLaws (W L : Type) `{!LockOS W, !OSView W L} := {
  law_abs : runs ∅ ∅ osAbs (fun _ => Ok tt) id (fun _ => ∅);
  law_lockNew : forall w, match lockNew w with
    | (Ok h, w') => (exists n, h = LockFd n) /\ held w' = held w ⊎ {[+ h +]} /\ frame w w'
    | (Err _, w') => ~ healthy w /\ held w' = held w /\ frame w w'
    | (Panic _, _) => False
    end;
  law_lockTry : forall w n, LockFd n ∈ held w -> match lockTry (LockFd n) w with
    | (Ok _, w') => held w' = held w ⊎ {[+ Locked n +]} /\ (forall m, Locked m ∉ held w) /\ frame w w'
    | (Err _, w') => held w' = held w /\ frame w w' /\ (healthy w -> exists m, Locked m ∈ held w)
    | (Panic _, _) => False
    end;
  law_lockUnlock : forall n, gives_up (lockUnlock (LockFd n)) {[+ Locked n +]};
  law_lockDestroy : forall n, gives_up (lockDestroy (LockFd n)) {[+ LockFd n +]};
}.

Section Lock.
Context {W : Type} `{!LockOS W}.

Definition LockFile : Act W Handle :=
  let! _ := osAbs in
  let! fl := lockNew in
  try (lockTry fl) (fail_with [lockDestroy fl]) (fun _ => ret fl).

(** [Unlock] and [Destroy], when a database is closed. *)
Definition Unlock (h : Handle) : Rel W := join_all [lockUnlock h; lockDestroy h].
End Lock.

Section LockSpec.
Context {W L : Type} `{!LockOS W, !OSView W L, !LockLaws W L}.

Lemma LockFile_spec w :
  match LockFile w with
  | (Ok h, w') => exists n, h = LockFd n /\ held w' = held w ⊎ {[+ LockFd n; Locked n +]} /\ (forall m, Locked m ∉ held w) /\ frame w w'
  | (Err _, w') => held w' = held w /\ (healthy w -> exists m, Locked m ∈ held w)
  | (Panic _, _) => False
  end.
Proof.
  unfold LockFile, bind, try. pose proof (law_abs w (held w)) as H0. rewrite (right_id_L ∅ (⊎)) in H0. specialize (H0 eq_refl).
  destruct (osAbs w) as [[[]|e|e] w0].
  2:{ destruct H0 as (H1 & H2 & _). cbn. split; [done|]. intros Hh. by destruct (H1 Hh tt). }
  2:{ by destruct (H0 tt). }
  destruct H0 as (_ & E0 & Fr0). pose proof Fr0 as (_ & _ & F0). rewrite (right_id_L ∅ (⊎)) in E0.
  pose proof (law_lockNew w0) as H1. destruct (lockNew w0) as [[h|e|e] w1].
  2:{ destruct H1 as (H1 & H2 & _). cbn. split; [by rewrite H2, E0|]. intros Hh. destruct H1. auto. }
  2: done.
  destruct H1 as ([n ->] & E1 & Fr1). pose proof Fr1 as (_ & _ & F1). pose proof (law_lockTry w1 n ltac:(rewrite E1; multiset_solver)) as H2.
  destruct (lockTry (LockFd n) w1) as [[b|e|e] w2]; [| |done].
  - destruct H2 as (E2 & Hn & Fr2). exists n. split_and!; [done|rewrite E2, E1, E0; multiset_solver| |].
    + intros m Hm. apply (Hn m). rewrite E1, E0. multiset_solver.
    + by eapply frame_trans; [|eapply frame_trans].
  - destruct H2 as (E2 & (_ & _ & F2) & Hh). rewrite E0 in E1.
    destruct (throws_one (A := Handle) _ _ (law_lockDestroy n) e w2 (held w)) as (e' & w3 & -> & G1 & _); [by rewrite E2|].
    split; [by rewrite G1, (right_id_L ∅ (⊎))|]. intros Hw. destruct Hh as [m Hm]; [auto|]. exists m.
    rewrite E1 in Hm. by apply gmultiset_elem_of_disj_union in Hm as [?|?%gmultiset_elem_of_singleton].
Qed.

Lemma Unlock_gives_up n : gives_up (Unlock (LockFd n)) {[+ LockFd n; Locked n +]}.
Proof.
  eapply gives_up_join; [apply Forall2_cons_2; [apply law_lockUnlock|apply Forall2_cons_2; [apply law_lockDestroy|apply Forall2_nil_2]]|]. multiset_solver.
Qed.
End LockSpec.

(** ** A world in memory *)

(** [me_faults]: whether each next operation fails. *)
Record MemOS : Type := mkMemOS { me_root : Root; me_log : ListLog; me_held : handles; me_next : nat; me_faults : list bool }.

Definition names_ok (r : Root) : bool := bool_decide (Forall (fun e => NoDup (d_trees (en_content e)).*1) (r_entries r)).
Definition me_dir (w : MemOS) : Root := if names_ok (me_root w) then me_root w else mkRoot [] None.
Definition set_held (w : MemOS) (h : handles) : MemOS := mkMemOS (me_root w) (me_log w) h (S (me_next w)) (me_faults w).

(** One operation: it fails when the schedule says so. *)
Definition attempt {A} (f : MemOS -> res A * MemOS) : Act MemOS A := fun w =>
  let w' := mkMemOS (me_root w) (me_log w) (me_held w) (me_next w) (tail (me_faults w)) in
  match me_faults w with true :: _ => (Err "input/output error", w') | _ => f w' end.
Definition drop_handle (h : Handle) : Rel MemOS := fun w => (None, set_held w (me_held w ∖ {[+ h +]})).

#[export] Instance mem_os : OS MemOS := {|
  osReadFile := fun p => attempt (fun w => (found (file_at (me_dir w) p), w));
  osReadMetadata := fun n => attempt (fun w => (let* d := found (snapshot_dir (me_dir w) n) in Ok (d_commit d, d_initial d), w));
  osReadDir := fun n => attempt (fun w => (let* d := found (snapshot_dir (me_dir w) n) in
    Ok (((fun t => (t, true)) <$> (d_trees d).*1) ++ [(str "__metadata", false)]), w));
  osOpen := fun p => attempt (fun w =>
    match file_at (me_dir w) p with
    | Some _ => let h := Fd p (me_next w) in (Ok h, set_held w (me_held w ⊎ {[+ h +]}))
    | None => (Err ErrNotExist, w)
    end);
  osStat := fun h => attempt (fun w => (let* b := found (let? p := fd_path h in file_at (me_dir w) p) in Ok (len b), w));
  osClose := drop_handle;
  mmapMmap := fun h size => attempt (fun w =>
    match (let? p := fd_path h in let? b := file_at (me_dir w) p in Some (p, b)) with
    | Some (p, b) => let m := Mapping p (me_next w) in
                     (Ok (take (Z.to_nat size) b, m), set_held w (me_held w ⊎ {[+ m +]}))
    | None => (Err ErrNotExist, w)
    end);
  mmapMunmap := drop_handle;
|}.

#[export] Instance mem_view : OSView MemOS ListLog := {|
  rootOf := me_dir; logOf := me_log; held := me_held; healthy := fun w => Forall (fun b => b = false) (me_faults w);
|}.

Definition lock_held (h : handles) : bool := existsb (fun x => match x with Locked _ => true | _ => false end) (elements h).

#[export] Instance mem_lock : LockOS MemOS := {|
  osAbs := attempt (fun w => (Ok tt, w));
  lockNew := attempt (fun w => let h := LockFd (me_next w) in (Ok h, set_held w (me_held w ⊎ {[+ h +]})));
  lockTry := fun h => attempt (fun w =>
    match h with
    | LockFd n => if lock_held (me_held w) then (Err "file already locked", w) else (Ok true, set_held w (me_held w ⊎ {[+ Locked n +]}))
    | _ => (Err "bad file descriptor", w)
    end);
  lockUnlock := fun h => match h with LockFd n => drop_handle (Locked n) | _ => fun w => (Some "bad file descriptor", w) end;
  lockDestroy := drop_handle;
|}.

Lemma attempt_runs {A B} R E (f : Act MemOS A) p (data : A -> B) own : R = E -> runs R E f p data own -> runs R E (attempt f) p data own.
Proof.
  intros -> Hf w H Hw. unfold attempt. set (w' := mkMemOS (me_root w) (me_log w) (me_held w) (me_next w) (tail (me_faults w))).
  assert (frame w w') as Hfr.
  { unfold frame. split_and!; [done|done|]. cbn. intros Hh. by destruct Hh. }
  destruct (me_faults w) as [|[|] fs] eqn:Ef.
  2:{ split_and!; [|done|done]. cbn. rewrite Ef. intros Hh. by apply Forall_cons in Hh as [? _]. }
  all: specialize (Hf w' H Hw); destruct (f w') as [[a|e|e] w2]; [..|exact Hf];
    destruct Hf as (H1 & H2 & H3); (split; [|split; [done|by apply (frame_trans _ w')]]); [done|]; intros Hh; apply H1; by apply Hfr.
Qed.

Lemma runs_mem {A B} R (f : MemOS -> res A) (p : Root -> res B) data :
  (forall w, match f w with Ok a => p (me_dir w) = Ok (data a) | _ => forall b, p (me_dir w) <> Ok b end) ->
  runs R R (attempt (fun w => (f w, w))) p data (fun _ => R).
Proof.
  intros Hf. apply attempt_runs; [done|]. intros w H Hw. specialize (Hf w). destruct (f w); [| |done].
  - split_and!; [done|done|apply frame_refl].
  - split_and!; [done|done|apply frame_refl].
Qed.

Lemma drop_gives_up h : gives_up (drop_handle h) {[+ h +]}.
Proof. intros w H Hw. cbn in *. split; [rewrite Hw; multiset_solver|by split_and!]. Qed.

Lemma me_dir_names w n d : snapshot_dir (me_dir w) n = Some d -> NoDup (d_trees d).*1.
Proof.
  unfold me_dir. destruct (names_ok (me_root w)) eqn:En.
  - unfold names_ok in En. apply bool_decide_eq_true in En. unfold snapshot_dir. destruct (if decide _ then _ else _) as [m|]; [|done].
    cbn. destruct (find_entry m _) as [e|] eqn:Ee; [|done]. cbn. intros [= <-]. rewrite Forall_forall in En. apply En.
    unfold find_entry in Ee. destruct (list_find _ _) as [[i x]|] eqn:El; [|done]. injection Ee as ->.
    apply list_find_Some in El as (Hl & _). by eapply list_elem_of_lookup_2.
  - unfold snapshot_dir. by destruct (decide (n = current)).
Qed.

Lemma dir_names_listing ns x : dir_names (((fun t => (t, true)) <$> ns) ++ [(x, false)]) = ns.
Proof. induction ns as [|n ns IH]; [done|]. cbn. by rewrite IH. Qed.

#[local] Arguments disj_union : simpl never.
#[export] Instance mem_os_laws : OSLaws MemOS ListLog.
Proof.
  split.
  - intros p. apply runs_mem. intros w. by destruct (found (file_at _ p)).
  - intros n. apply runs_mem. intros w. by destruct (found (snapshot_dir _ n)).
  - intros n. apply runs_mem. intros w. destruct (found (snapshot_dir _ n)); [|done|done]. cbn. by rewrite dir_names_listing.
  - intros p. apply attempt_runs; [done|]. intros w H Hw. cbn in *. destruct (file_at (me_dir w) p); [|split_and!; [done|done|apply frame_refl]].
    split_and!; [done|rewrite Hw; multiset_solver|by split_and!].
  - intros p n h. apply (runs_mem {[+ h +]} (fun w => let* b := found (file_at (me_dir w) p) in Ok (len b))).
    intros w. by destruct (found (file_at _ p)).
  - apply drop_gives_up.
  - intros p n size h _. subst h. apply attempt_runs; [done|]. intros w H Hw. cbn in *.
    destruct (file_at (me_dir w) p); [|split_and!; [done|done|apply frame_refl]].
    split_and!; [done|rewrite Hw; multiset_solver|by split_and!].
  - apply drop_gives_up.
  - apply me_dir_names.
Qed.

Lemma lock_held_true h : lock_held h = true <-> exists m, Locked m ∈ h.
Proof.
  unfold lock_held. rewrite existsb_exists. setoid_rewrite <- list_elem_of_In. setoid_rewrite gmultiset_elem_of_elements. split.
  - intros (x & Hx & Hl). destruct x; try done. eauto.
  - intros [m Hm]. by exists (Locked m).
Qed.

Lemma tick_frame w fs h n : fs = tail (me_faults w) -> frame w (mkMemOS (me_root w) (me_log w) h n fs).
Proof.
  intros ->. unfold frame. split_and!; [done|done|]. cbn. by destruct 1.
Qed.

#[local] Ltac tick := unfold set_held; cbn [me_root me_log me_held me_next me_faults tail]; apply tick_frame; match goal with E : me_faults _ = _ |- _ => by rewrite E end.

#[export] Instance mem_lock_laws : LockLaws MemOS ListLog.
Proof.
  split.
  - by apply runs_mem.
  - intros w. unfold lockNew, mem_lock, attempt. destruct (me_faults w) as [|[|] fs] eqn:Ef.
    2:{ split_and!; [cbn; rewrite Ef; by intros [? _]%Forall_cons|done|by tick]. }
    all: split_and!; [eauto|done|by tick].
  - intros w n Hn. unfold lockTry, mem_lock, attempt. destruct (me_faults w) as [|[|] fs] eqn:Ef.
    2:{ split_and!; [done|by tick|cbn; rewrite Ef; by intros [? _]%Forall_cons]. }
    all: cbn [me_held]; destruct (lock_held (me_held w)) eqn:El.
    1,3: split_and!; [done|by tick|intros _; by apply lock_held_true].
    all: split_and!; [done| |by tick].
    all: intros m Hm; assert (lock_held (me_held w) = true) by (apply lock_held_true; eauto); congruence.
  - intros n. apply drop_gives_up.
  - intros n. apply drop_gives_up.
Qed.

(** ** Properties *)

(** Opening and owning.  Loading the multi-tree of a snapshot directory, while any
    system call may fail, either returns the tree that [LoadMultiTree] computes
    from the contents of the files and holds exactly the files and mappings of
    its trees, all of which [Close] gives back; or it fails and holds nothing
    more than before.  When the system serves every request, it fails only if
    [LoadMultiTree] does. *)
Theorem load_owns_its_files {W L : Type} `{O : !OS W, V : !OSView W L, OL : !OSLaws W L} (sha256 : bytes -> bytes) (snap : bytes) (w : W) :
  match LoadTrees sha256 snap w with
  | (Ok t, w') =>
      (exists d, snapshot_dir (rootOf w) snap = Some d /\ LoadMultiTree sha256 d = Ok (om_tree t)) /\
      held w' = held w ⊎ owned t /\ held (TreesClose t w').2 = held w
  | (Err _, w') => held w' = held w /\
      (healthy w -> forall d t, snapshot_dir (rootOf w) snap = Some d -> LoadMultiTree sha256 d <> Ok t)
  | (Panic _, _) => forall d t, snapshot_dir (rootOf w) snap = Some d -> LoadMultiTree sha256 d <> Ok t
  end.
Proof.
  pose proof (LoadTrees_runs sha256 snap w (held w)) as Hr. rewrite (right_id_L ∅ (⊎)) in Hr. specialize (Hr eq_refl).
  destruct (LoadTrees sha256 snap w) as [[t|e|e] w'].
  - destruct Hr as ((d & Hd%found_Ok & Ht)%res_bind_ok & Hh & _). split_and!; [by exists d|done|].
    by apply (trees_close (om_trees t) w').
  - destruct Hr as (Hp & Hh & _). split; [done|]. intros Hw d t Hd Ht. apply (Hp Hw t). by rewrite Hd.
  - intros d t Hd Ht. apply (Hr t). by rewrite Hd.
Qed.

Definition is_ok {A} (r : res A) : bool := match r with Ok _ => true | _ => false end.
Definition sample_world (faults : list bool) : MemOS := mkMemOS sample_root sample_log ∅ 0 faults.

(** The sample directory loads; a fault at the fifth call releases everything. *)
Lemma load_owns_its_files_witness :
  held (LoadTrees digest32 current (sample_world [false; false; false; false; true])).2 = ∅ /\
  exists t w', LoadTrees digest32 current (sample_world []) = (Ok t, w') /\ size (held w') = 10%nat /\ held (TreesClose t w').2 = ∅.
Proof.
  split.
  - pose proof (load_owns_its_files digest32 current (sample_world [false; false; false; false; true])) as H.
    assert ((LoadTrees digest32 current (sample_world [false; false; false; false; true])).1 = Err "input/output error") as Ho by (vm_compute; reflexivity).
    destruct (LoadTrees digest32 current (sample_world [false; false; false; false; true])) as [[t|e|e] w']; [done|by destruct H|done].
  - pose proof (load_owns_its_files digest32 current (sample_world [])) as H.
    assert (is_ok (LoadTrees digest32 current (sample_world [])).1 = true) as Ho by (vm_compute; reflexivity).
    assert (size (held (LoadTrees digest32 current (sample_world [])).2) = 10%nat) as Hs by (vm_compute; reflexivity).
    destruct (LoadTrees digest32 current (sample_world [])) as [[t|e|e] w']; [|done|done].
    exists t, w'. destruct H as (_ & _ & H). by split_and!.
Defined.

(** The lock of a directory.  [LockFile] returns only while nobody holds a lock; then
    it holds the lock and the lock file, a second [LockFile] cannot succeed,
    and [Unlock] with [Destroy] give both back.  When it fails, the lock file it
    opened is closed again. *)
Theorem lock_file_exclusive {W L : Type} `{O : !LockOS W, V : !OSView W L, OL : !LockLaws W L} (w : W) :
  match LockFile w with
  | (Ok h, w') => (forall m, Locked m ∉ held w) /\ held (Unlock h w').2 = held w /\
      match LockFile w' with (Ok _, _) => False | (Err _, w2) => held w2 = held w' | (Panic _, _) => False end
  | (Err _, w') => held w' = held w /\ (healthy w -> exists m, Locked m ∈ held w)
  | (Panic _, _) => False
  end.
Proof.
  pose proof (LockFile_spec w) as H. destruct (LockFile w) as [[h|e|e] w']; [|done|done].
  destruct H as (n & -> & Hh & Hn & _). split_and!; [done|by apply (Unlock_gives_up n w')|].
  pose proof (LockFile_spec w') as H'. destruct (LockFile w') as [[h|e|e] w2]; [|by destruct H'|done].
  destruct H' as (m & _ & _ & Hl & _). apply (Hl n). rewrite Hh. multiset_solver.
Qed.

Lemma lock_file_exclusive_witness :
  exists h w', LockFile (sample_world []) = (Ok h, w') /\ held (Unlock h w').2 = ∅ /\ (LockFile w').1 = Err "file already locked".
Proof.
  pose proof (lock_file_exclusive (sample_world [])) as H.
  assert (is_ok (LockFile (sample_world [])).1 = true) as Ho by (vm_compute; reflexivity).
  assert ((LockFile (LockFile (sample_world [])).2).1 = Err "file already locked") as Hl by (vm_compute; reflexivity).
  destruct (LockFile (sample_world [])) as [[h|e|e] w']; [|done|done].
  destruct H as (_ & H & _). exists h, w'. by split_and!.
Defined.

(** A store deletion keeps its files.  After an upgrade that deletes a tree, closing
    the multi-tree closes the files of the other trees only: the files and
    mappings of the deleted tree stay open. *)
Theorem deleted_tree_stays_open {W L : Type} `{O : !OS W, V : !OSView W L, OL : !OSLaws W L} (v iv : Z) (ts ts' : list OpenedTree)
  (u : TreeNameUpgrade) (t : MultiTree) (w : W) (H : handles) (Hd : up_delete u = true)
  (E : opened_upgrade v iv ts u = Ok ts') (Hw : held w = H ⊎ trees_handles ts) :
  exists dropped, dropped ∈ ts /\ nt_name (ot_tree dropped) = up_name u /\
    held (TreesClose (mkOpenedTrees t ts') w).2 = H ⊎ tree_handles dropped.
Proof.
  destruct (opened_delete v iv ts u ts' Hd E) as (e & He & Hn & Hh). exists e. split_and!; [done|done|].
  apply (trees_close ts' w). rewrite Hw, Hh. multiset_solver.
Qed.

Definition sample_opened : OpenedTrees :=
  match LoadTrees digest32 current (sample_world []) with (Ok t, _) => t | _ => mkOpenedTrees (NewEmptyMultiTree 0) [] end.
Definition sample_after : MemOS := (LoadTrees digest32 current (sample_world [])).2.
Definition sample_delete : TreeNameUpgrade :=
  mkUpgrade (match om_trees sample_opened with t :: _ => nt_name (ot_tree t) | [] => [] end) [] true.

Lemma sample_opened_held : held sample_after = ∅ ⊎ trees_handles (om_trees sample_opened).
Proof.
  assert (is_ok (LoadTrees digest32 current (sample_world [])).1 = true) as Ho by (vm_compute; reflexivity).
  pose proof (LoadTrees_runs digest32 current (sample_world []) ∅) as Hr. rewrite (right_id_L ∅ (⊎)) in Hr. specialize (Hr eq_refl).
  unfold sample_after, sample_opened. destruct (LoadTrees digest32 current (sample_world [])) as [[t|e|e] w']; [|done|done]. by destruct Hr as (_ & Hh & _).
Qed.

Lemma deleted_tree_stays_open_witness :
  exists ts' dropped, opened_upgrade 6 5 (om_trees sample_opened) sample_delete = Ok ts' /\
    held (TreesClose (mkOpenedTrees (om_tree sample_opened) ts') sample_after).2 = ∅ ⊎ tree_handles dropped /\ dropped ∈ om_trees sample_opened.
Proof.
  assert (is_ok (opened_upgrade 6 5 (om_trees sample_opened) sample_delete) = true) as Ho by (vm_compute; reflexivity).
  destruct (opened_upgrade 6 5 (om_trees sample_opened) sample_delete) as [ts'|e|e] eqn:E; [|done|done].
  destruct (deleted_tree_stays_open 6 5 (om_trees sample_opened) ts' sample_delete (om_tree sample_opened) sample_after ∅)
    as (d & Hin & Hn & Hh); [reflexivity|exact E|exact sample_opened_held|].
  exists ts', d. split; [reflexivity|]. split; [exact Hh|exact Hin].
Defined.
