(* ===== verification/Lifetime.v ===== *)
(** The life of a database with what it holds: [Load], [Reload], the switch to a
    rewritten snapshot and [Close] of [memiavl/db.go], with the lock, the log and
    the files and mappings of the multi-trees.

    [Load] here runs in the world of [Handles], in which every call may fail; what
    it computes is what [DbDir.Load] computes from the directory and the log.
    [db_handles] is what a database owns: its multi-tree, the one it replaced
    last, which readers may still use, the result of a rewrite that nobody has
    taken, the log and the lock.

    Theorems: [Load] gives the database of [DbDir.Load] and owns its handles, or
    fails and owns nothing; after any history of changes, reloads, failed
    reloads and switches, [Close] gives everything back. *)
From stdpp Require Import prelude strings gmap gmultiset sorting.
From Stdlib Require Import ZArith Lia.
From S2P Require Import Prelude OrdMap Codec Node Hash Persisted Snapshot Tree MultiTree Pending Db DbDir Handles.
Local Open Scope Z_scope.

(** ** Multi-trees with their snapshots *)

(** The trees as they are now, each with the snapshot it was opened from. *)
Definition views (t : OpenedTrees) : list OpenedTree :=
  zip_with (fun n o => mkOpenedTree n (ot_snapshot o)) (trees (om_tree t)) (om_trees t).
Definition with_multi (m : MultiTree) (t : OpenedTrees) : OpenedTrees := mkOpenedTrees m (om_trees t).

Fixpoint opened_upgrades (v iv : Z) (ts : list OpenedTree) (us : list TreeNameUpgrade) : res (list OpenedTree) :=
  match us with
  | [] => Ok ts
  | u :: us => let* ts := opened_upgrade v iv ts u in opened_upgrades v iv ts us
  end.

Definition OpenedUpgrades (t : OpenedTrees) (us : list TreeNameUpgrade) : res OpenedTrees :=
  match us with
  | [] => Ok t
  | _ =>
      let m := om_tree t in
      let* ts := opened_upgrades (MTVersion m) (initialVersion m) (views t) us in
      let ts := sort_opened ts in
      let* i := build_index ∅ 0 (ot_tree <$> ts) in
      Ok (mkOpenedTrees (with_index (with_trees m (ot_tree <$> ts)) i) ts)
  end.

Definition opened_entry (t : OpenedTrees) (e : WALEntry) : res OpenedTrees :=
  let* t := OpenedUpgrades t (we_upgrades e) in
  let* m := ApplyChangeSets (om_tree t) (we_changesets e) in
  Ok (with_multi m t).

Section Replay.
Context (sha256 : bytes -> bytes).

Definition opened_replay_entry (t : OpenedTrees) (e : WALEntry) : res OpenedTrees :=
  let* t := opened_entry t e in
  let* (_, m) := MTSaveVersion sha256 (om_tree t) false in
  Ok (with_multi m t).

Fixpoint opened_replay (k : nat) (r : walReader) (i : Z) (t : OpenedTrees) : res OpenedTrees :=
  match k with
  | O => Ok t
  | S k =>
      let* e := ReadEntry r i in
      let* t := opened_replay_entry t e in
      opened_replay k r (i + 1) t
  end.

Definition opened_catchup (t : OpenedTrees) (r : walReader) (endVersion : Z) : res OpenedTrees :=
  if endVersion <? 0 then Err "invalid end version"
  else
    let m := om_tree t in
    let lastIndex := LastIndex r in
    let firstIndex := walIndex (nextVersion (MTVersion m) (initialVersion m)) (initialVersion m) in
    if lastIndex <? firstIndex then Ok t
    else
      let endIndex := if endVersion =? 0 then lastIndex else walIndex endVersion (initialVersion m) in
      if endIndex <? firstIndex then Err "target index is pruned"
      else
        let endIndex := Z.min endIndex lastIndex in
        let* t := opened_replay (Z.to_nat (endIndex - firstIndex + 1)) r firstIndex t in
        Ok (with_multi (UpdateCommitInfo sha256 (om_tree t)) t).
End Replay.

(** ** They follow the multi-trees and keep their handles *)

Definition coherent (t : OpenedTrees) : Prop := length (om_trees t) = length (trees (om_tree t)).

(** No store is deleted (see [deleted_tree_stays_open]). *)
Definition no_delete (us : list TreeNameUpgrade) : Prop := Forall (fun u => up_delete u = false) us.
Definition plain_log (r : walReader) : Prop := forall i e, ReadEntry r i = Ok e -> no_delete (we_upgrades e).

(** [follows t x y]: [x] is [y] on trees that own what [t] owns. *)
Definition follows (t : OpenedTrees) (x : res OpenedTrees) (y : res MultiTree) : Prop :=
  match x with
  | Ok t' => y = Ok (om_tree t') /\ coherent t' /\ owned t' = owned t
  | Err e => y = Err e
  | Panic e => y = Panic e
  end.

Lemma follows_refl t : coherent t -> follows t (Ok t) (Ok (om_tree t)).
Proof. by intros H. Qed.

Lemma follows_bind t x y f g : follows t x y -> (forall t', coherent t' -> owned t' = owned t -> follows t' (f t') (g (om_tree t'))) ->
  follows t (let* t := x in f t) (let* m := y in g m).
Proof.
  intros Hx Hf. destruct x as [t'|e|e]; cbn in Hx |- *; [|by rewrite Hx..]. destruct Hx as (-> & Hc & Ho). cbn.
  specialize (Hf t' Hc Ho). unfold follows in *. destruct (f t') as [t2|e|e]; [|done..]. by rewrite <- Ho.
Qed.

(** A change of the trees in place. *)
Lemma follows_with t x : coherent t -> (forall m, x = Ok m -> length (trees m) = length (trees (om_tree t))) ->
  follows t (let* m := x in Ok (with_multi m t)) x.
Proof.
  intros Hc Hx. destruct x as [m|e|e]; [|done..]. cbn. split_and!; [done| |done]. unfold coherent in *. cbn. by rewrite Hx.
Qed.

Lemma views_tree t : coherent t -> ot_tree <$> views t = trees (om_tree t).
Proof.
  unfold coherent, views. generalize (om_trees t). induction (trees (om_tree t)) as [|n ns IH]; intros [|o os] H; cbn in *; [done..|].
  f_equal. apply IH. lia.
Qed.

Lemma views_handles t : coherent t -> trees_handles (views t) = owned t.
Proof.
  unfold coherent, views, owned, trees_handles. generalize (om_trees t).
  induction (trees (om_tree t)) as [|n ns IH]; intros [|o os] H; cbn in *; [done..|]. f_equal. apply IH. lia.
Qed.

Lemma opened_upgrades_tree us v iv : forall ts,
  (let* ts := opened_upgrades v iv ts us in Ok (ot_tree <$> ts)) = apply_upgrades v iv (ot_tree <$> ts) us.
Proof.
  induction us as [|u us IH]; intros ts; [done|]. cbn. rewrite <- opened_upgrade_tree.
  destruct (opened_upgrade v iv ts u); [|done..]. cbn. apply IH.
Qed.

Lemma trees_handles_app ts ts' : trees_handles (ts ++ ts') = trees_handles ts ⊎ trees_handles ts'.
Proof. unfold trees_handles. by rewrite fmap_app, gmultiset_disj_union_list_app. Qed.

Lemma opened_upgrade_keeps v iv ts u ts' : up_delete u = false -> opened_upgrade v iv ts u = Ok ts' -> trees_handles ts' = trees_handles ts.
Proof.
  unfold opened_upgrade. intros ->. destruct (negb _).
  - destruct (index_of _ _) as [i|]; [|done]. intros <-%Ok_inj. unfold trees_handles. f_equal.
    rewrite (list_fmap_alter _ _ id) by (by apply Forall_true). by apply list_alter_id.
  - intros (tree & _ & <-%Ok_inj)%res_bind_ok. rewrite trees_handles_app. unfold trees_handles at 2. cbn. multiset_solver.
Qed.

Lemma opened_upgrades_keep us v iv : no_delete us -> forall ts ts', opened_upgrades v iv ts us = Ok ts' -> trees_handles ts' = trees_handles ts.
Proof.
  induction 1 as [|u us Hu _ IH]; intros ts ts' E; [by apply Ok_inj in E as <-|].
  apply res_bind_ok in E as (ts1 & E1 & E). by rewrite (IH _ _ E), (opened_upgrade_keeps _ _ _ _ _ Hu E1).
Qed.

Lemma OpenedUpgrades_follows t us : coherent t -> no_delete us -> follows t (OpenedUpgrades t us) (ApplyUpgrades (om_tree t) us).
Proof.
  intros Hc Hn. unfold OpenedUpgrades, ApplyUpgrades. destruct us as [|u us]; [by apply follows_refl|]. cbv zeta.
  rewrite <- (views_tree t Hc), <- opened_upgrades_tree.
  destruct (opened_upgrades _ _ (views t) (u :: us)) as [ts|e|e] eqn:E; [|done..]. cbn [res_bind]. rewrite <- sort_opened_tree.
  destruct (build_index ∅ 0 (ot_tree <$> sort_opened ts)) as [i|e|e]; [|done..]. cbn [res_bind follows]. split_and!; [done| |].
  - unfold coherent. cbn. by rewrite length_fmap.
  - unfold owned. cbn [om_trees]. fold (owned t). by rewrite sort_opened_handles, (opened_upgrades_keep _ _ _ Hn _ _ E), views_handles.
Qed.

Lemma ApplyChangeSets_trees css : forall t t', ApplyChangeSets t css = Ok t' -> length (trees t') = length (trees t).
Proof.
  induction css as [|c css IH]; intros t t' E; [by apply Ok_inj in E as <-|]. apply res_bind_ok in E as (t1 & E1 & E).
  rewrite (IH _ _ E). unfold MTApplyChangeSet in E1. destruct (treesByName t !! _) as [i|]; [|done]. destruct (trees t !! i); [|done].
  apply Ok_inj in E1 as <-. cbn. apply length_alter.
Qed.

Lemma opened_entry_follows t e : coherent t -> no_delete (we_upgrades e) -> follows t (opened_entry t e) (applyWALEntry (om_tree t) e).
Proof.
  intros Hc Hn. apply follows_bind; [by apply OpenedUpgrades_follows|]. intros t' Hc' _.
  apply follows_with; [done|]. intros m. apply ApplyChangeSets_trees.
Qed.

Section ReplayFollows.
Context (sha256 : bytes -> bytes).

Lemma SaveVersion_trees t b v t' : MTSaveVersion sha256 t b = Ok (v, t') -> length (trees t') = length (trees t).
Proof.
  unfold MTSaveVersion. destruct (existsb _ _); [done|]. intros [= _ <-]. destruct b; cbn; by rewrite length_fmap.
Qed.

Lemma opened_replay_entry_follows t e : coherent t -> no_delete (we_upgrades e) ->
  follows t (opened_replay_entry sha256 t e) (replay_entry sha256 (om_tree t) e).
Proof.
  intros Hc Hn. unfold opened_replay_entry, replay_entry. apply (follows_bind _ _ _
    (fun t => let* (_, m) := MTSaveVersion sha256 (om_tree t) false in Ok (with_multi m t))
    (fun m => let* (_, m) := MTSaveVersion sha256 m false in Ok m)); [by apply opened_entry_follows|].
  intros t' Hc' _. destruct (MTSaveVersion sha256 (om_tree t') false) as [[v m]|e'|e'] eqn:E; [|done..]. cbn.
  split_and!; [done| |done]. unfold coherent in *. cbn. by rewrite (SaveVersion_trees _ _ _ _ E).
Qed.

Lemma opened_replay_follows r k : plain_log r -> forall i t, coherent t ->
  follows t (opened_replay sha256 k r i t) (replay_from sha256 k r i (om_tree t)).
Proof.
  intros Hr. induction k as [|k IH]; intros i t Hc; [by apply follows_refl|]. cbn [opened_replay replay_from].
  destruct (ReadEntry r i) as [e|e|e] eqn:E; [|done..]. cbn [res_bind].
  apply (follows_bind _ _ _ (opened_replay sha256 k r (i + 1)) (replay_from sha256 k r (i + 1))); [by eapply opened_replay_entry_follows; [|eapply Hr]|].
  intros t' Hc' _. by apply IH.
Qed.

Lemma opened_catchup_follows t r v : coherent t -> plain_log r ->
  follows t (opened_catchup sha256 t r v) (catchupWAL sha256 (om_tree t) r v).
Proof.
  intros Hc Hr. unfold opened_catchup, catchupWAL. cbv zeta. destruct (v <? 0); [done|]. destruct (LastIndex r <? _); [by apply follows_refl|].
  destruct ((if v =? 0 then _ else _) <? _); [done|].
  apply (follows_bind _ _ _ (fun t => Ok (with_multi (UpdateCommitInfo sha256 (om_tree t)) t)) (fun m => Ok (UpdateCommitInfo sha256 m)));
    [by apply opened_replay_follows|]. intros t' Hc' _.
  apply (follows_with t' (Ok (UpdateCommitInfo sha256 (om_tree t')))); [done|]. by intros m <-%Ok_inj.
Qed.
End ReplayFollows.

(** ** The directory and the log of the world *)

(** [onDir f]: a step that reads and changes the directory and the log, as [f] of
    [DbDir] says; [logOpen]: [OpenWAL] or [openReadOnlyWAL]. *)
Class DirOS (W L : Type) := {
  onDir : forall {A : Type}, (Root -> L -> res (A * (Root * L))) -> Act W A;
  logOpen : bool -> Act W Handle;
  logClose : Handle -> Rel W;
}.

(** The trees of a snapshot have different names. *)
Definition names_differ (r : Root) : Prop := Forall (fun e => NoDup (d_trees (en_content e)).*1) (r_entries r).

Section Does.
Context {W L : Type} `{V : !OSView W L}.

(** As [runs], for actions that change the directory or the log, from logs with [Q]
    to values with [P]. *)
Definition does {A B} (Q : L -> Prop) (R E : handles) (m : Act W A) (p : Root -> L -> res (B * (Root * L))) (data : A -> B)
  (own : A -> handles) (P : A -> Prop) : Prop :=
  forall w H, Q (logOf w) -> held w = H ⊎ R ->
    match m w with
    | (Ok a, w') => p (rootOf w) (logOf w) = Ok (data a, (rootOf w', logOf w')) /\ held w' = H ⊎ own a /\ (healthy w -> healthy w') /\ P a
    | (Err _, w') => (healthy w -> forall x, p (rootOf w) (logOf w) <> Ok x) /\ held w' = H ⊎ E
    | (Panic _, _) => forall x, p (rootOf w) (logOf w) <> Ok x
    end.

Definition pure {B} (p : Root -> res B) (r : Root) (l : L) : res (B * (Root * L)) := let* b := p r in Ok (b, (r, l)).

Lemma runs_does {A B} Q R E (m : Act W A) p (data : A -> B) own : runs R E m p data own -> does Q R E m (pure p) data own (fun _ => True).
Proof.
  intros Hm w H _ Hw. specialize (Hm w H Hw). unfold pure. destruct (m w) as [[a|e|e] w'].
  - destruct Hm as (-> & Hh & Hr & Hl & Hy). cbn. by rewrite Hr, Hl.
  - destruct Hm as (Hp & Hh & _). split; [|done]. intros Hy x E1. destruct (p (rootOf w)) as [b| |]; [by apply (Hp Hy b)|done..].
  - intros x E1. destruct (p (rootOf w)) as [b| |]; [by apply (Hm b)|done..].
Qed.

Lemma does_and {A B} Q R E (m : Act W A) p (data : A -> B) own P P' : does Q R E m p data own P ->
  (forall w a w', Q (logOf w) -> m w = (Ok a, w') -> P a -> P' a) -> does Q R E m p data own P'.
Proof. intros Hm HP w H Hq Hw. specialize (Hm w H Hq Hw). destruct (m w) as [[a|e|e] w'] eqn:Em; [|done..]. naive_solver. Qed.

Lemma does_ret {A B} Q R E (a : A) (data : A -> B) own (P : A -> Prop) : R = own a -> P a ->
  does Q R E (ret a) (pure (fun _ => Ok (data a))) data own P.
Proof. intros -> HP. eapply does_and; [apply runs_does; by apply runs_ret|]. by intros w b w' _ [= <- _]. Qed.

(** A step, what follows it, and a fact about its value. *)
Lemma does_try {A B C D} (Q Q' : L -> Prop) R E E' (P : A -> Prop) (m : Act W A) p (data : A -> B) own fail (k : A -> Act W C) q
    (data' : C -> D) own' P' :
  does Q R E m p data own P -> throws E E' fail ->
  (forall r l b r' l', Q l -> p r l = Ok (b, (r', l')) -> Q' l') ->
  (forall a, P a -> does Q' (own a) E' (k a) (q (data a)) data' own' P') ->
  does Q R E' (try m fail k) (fun r l => let* (b, (r, l)) := p r l in q b r l) data' own' P'.
Proof.
  intros Hm Hf HQ Hk w H Hq Hw. specialize (Hm w H Hq Hw). unfold try. destruct (m w) as [[a|e|e] w1].
  - destruct Hm as (Ep & Hh & Hy & HP). rewrite Ep. cbn. specialize (Hk a HP w1 H (HQ _ _ _ _ _ Hq Ep) Hh).
    destruct (k a w1) as [[c|e|e] w2]; [naive_solver|naive_solver|done].
  - destruct Hm as (Hp & Hh). destruct (Hf e w1 H Hh) as (e' & w2 & -> & Hh2 & _). split; [|done]. intros Hy x E1.
    destruct (p (rootOf w) (logOf w)) as [y| |]; [by apply (Hp Hy y)|done..].
  - intros x E1. destruct (p (rootOf w) (logOf w)) as [y| |]; [by apply (Hm y)|done..].
Qed.

Lemma does_keep {A B} Q F (m : Act W A) p (data : A -> B) own P : does Q ∅ ∅ m p data own P -> does Q F F m p data (fun a => F ⊎ own a) P.
Proof.
  intros Hm w H Hq Hw. specialize (Hm w (H ⊎ F) Hq). rewrite (right_id_L ∅ (⊎)) in Hm. specialize (Hm Hw).
  destruct (m w) as [[a|e|e] w']; [by rewrite (assoc_L (⊎))|done|done].
Qed.

End Does.

Class DirLaws (W L : Type) `{!OSView W L, !DirOS W L} := {
  law_onDir : forall A (f : Root -> L -> res (A * (Root * L))),
    (forall r l a r' l', names_differ r -> f r l = Ok (a, (r', l')) -> names_differ r') ->
    does (fun _ => True) ∅ ∅ (onDir f) f id (fun _ => ∅) (fun _ => True);
  law_logOpen : forall ro, runs ∅ ∅ (logOpen ro) (fun _ => Ok tt) (fun _ => tt) (fun h => {[+ h +]});
  law_logClose : forall h, gives_up (logClose h) {[+ h +]};
}.

(** ** Databases *)

Section Life.
Context {W L : Type} `{!Log L, !OS W, !LockOS W, !DirOS W L} (sha256 : bytes -> bytes) (unmarshal : bytes -> res WALEntry).

(** [od_result]: the multi-tree in the channel of the rewrite. *)
Record OpenedDB : Type := mkOpenedDB {
  od_db : @DB L;
  od_trees : list OpenedTree;
  od_retired : option OpenedTrees;
  od_result : option OpenedTrees;
  od_log : option Handle;
  od_lock : option Handle;
}.
Definition od_tree (d : OpenedDB) : OpenedTrees := mkOpenedTrees (db_tree (od_db d)) (od_trees d).

Definition nothing : Rel W := fun w => (None, w).
Definition close_opt (t : option OpenedTrees) : Rel W := match t with Some t => TreesClose t | None => nothing end.
Definition log_close (h : option Handle) : Rel W := match h with Some h => logClose h | None => nothing end.
Definition unlock (h : option Handle) : Rel W := match h with Some h => Unlock h | None => nothing end.

(** [Close]: the result of the rewrite, the tree, the log, the retired tree, the lock.
    [rounds]: how the log writer takes what is queued. *)
Definition CloseDB (marshal : WALEntry -> res bytes) (rounds : list nat) (d : OpenedDB) : W -> option string * OpenedDB * W := fun w =>
  let (err, db) := dbClose marshal rounds (od_db d) in
  let (es, w) := release_all [close_opt (od_result d); TreesClose (od_tree d); log_close (od_log d); close_opt (od_retired d); unlock (od_lock d)] w in
  (Join (err :: es), mkOpenedDB db [] None None None None, w).

(** [reloadMultiTree].  The tree that is closed after a failure is the one that was
    loaded. *)
Definition set_retired (d : OpenedDB) (t : option OpenedTrees) : OpenedDB :=
  mkOpenedDB (od_db d) (od_trees d) t (od_result d) (od_log d) (od_lock d).
Definition set_result (d : OpenedDB) (t : option OpenedTrees) : OpenedDB :=
  mkOpenedDB (od_db d) (od_trees d) (od_retired d) t (od_log d) (od_lock d).
Definition reloadOpened (d : OpenedDB) (t : OpenedTrees) : Act W (option string * OpenedDB) := fun w =>
  match opened_entry t (pendingLog (w_pending (db_work (od_db d)))) with
  | Err e => let (err, w) := TreesClose t w in (Ok (Join [Some e; err], d), w)
  | Panic e => (Panic e, w)
  | Ok t' =>
      let (err, w) := close_opt (od_retired d) w in
      match err with
      | Some e => let (err, w) := TreesClose t w in (Ok (Join [Some e; err], set_retired d None), w)
      | None => (Ok (None, mkOpenedDB (reloadMultiTree (od_db d) (om_tree t)).2 (om_trees t') (Some (od_tree d))
                             (od_result d) (od_log d) (od_lock d)), w)
      end
  end.

(** An error leaves the database as it is. *)
Definition or_keep (d : OpenedDB) (m : Act W (option string * OpenedDB)) : Act W (option string * OpenedDB) := fun w =>
  match m w with (Err e, w) => (Ok (Some e, d), w) | x => x end.

Definition reload (d : OpenedDB) : Act W (option string * OpenedDB) :=
  or_keep d (let! t := LoadTrees sha256 current in reloadOpened d t).

(** What the goroutine of a rewrite does after the snapshot is written. *)
Definition rewriteOpened (d : OpenedDB) : Act W (option string * OpenedDB) :=
  or_keep d (
    let! t := LoadTrees sha256 current in
    try (onDir (fun r l => let* t := opened_catchup sha256 t (log_source unmarshal l) 0 in Ok (t, (r, l))))
      (fail_with [TreesClose t]) (fun t => ret (None, set_result d (Some t)))).

(** [checkBackgroundSnapshotRewrite] with a tree in the channel; [waited]: whether the log
    writer came to the version of the database in time. *)
Definition switchOpened (waited : option string) (d : OpenedDB) : Act W (option string * OpenedDB) :=
  match od_result d with
  | None => ret (None, d)
  | Some t =>
      let d := set_result d None in
      or_keep d (
        try (lift (match waited with Some e => Err e | None => Ok tt end)) (fail_with [TreesClose t]) (fun _ =>
        try (onDir (fun r l => let* t := opened_catchup sha256 t (log_source unmarshal l) 0 in Ok (t, (r, l))))
          (fail_with [TreesClose t]) (fun t => reloadOpened d t)))
  end.

(** [Load].  [cleanup] and [choose] are its steps on the directory under the lock;
    [range_check], [catch_up] and [roll_back] those on the loaded tree. *)
Definition cleanup (o : Options) : Act W unit :=
  if o_ReadOnly o then ret tt
  else onDir (fun r l => Ok (tt, (mkRoot (removeTmpDirs (r_entries r)) (r_current r), l))).

Definition choose (o : Options) : Act W bytes :=
  if 0 <? o_TargetVersion o
  then onDir (fun r l => let* v := seekSnapshot (r_entries r) (o_TargetVersion o) in Ok (snapshotName v, (r, l)))
  else ret current.

Definition rolls_back (o : Options) : bool := o_LoadForOverwriting o && (0 <? o_TargetVersion o).

Definition range_check (o : Options) (t : MultiTree) : Act W Z :=
  let targetIndex := walIndex (o_TargetVersion o) (initialVersion t) in
  if rolls_back o then onDir (fun r l =>
    if (targetIndex =? 0) || (targetIndex <? walFirstIndex l) || (walLastIndex l <? targetIndex)
    then Err "rollback target version is outside the wal" else Ok (targetIndex, (r, l)))
  else ret targetIndex.

Definition catch_up (o : Options) (t : OpenedTrees) : Act W OpenedTrees :=
  if (o_TargetVersion o =? 0) || (MTVersion (om_tree t) <? o_TargetVersion o)
  then onDir (fun r l => let* t := opened_catchup sha256 t (log_source unmarshal l) (o_TargetVersion o) in Ok (t, (r, l)))
  else ret t.

Definition opened_state (o : Options) (t : MultiTree) (l : L) : @DB L :=
  mkDB (mkWorking (o_ReadOnly o) t NewPending) None (Some l) (negb (o_ReadOnly o)) (o_AsyncCommitBuffer o)
    None false None (o_SnapshotInterval o) 5000000000 None.

Definition roll_back (o : Options) (snapshot : bytes) (targetIndex : Z) (t : MultiTree) : Act W (@DB L) :=
  onDir (fun r l =>
    let* (r, l) := if rolls_back o then rollback r l snapshot (o_TargetVersion o) targetIndex else Ok (r, l) in
    Ok (opened_state o t l, (r, l))).

(** [InitialStores] of a database without a version. *)
Definition initial_upgrades (o : Options) : list TreeNameUpgrade := (fun n => mkUpgrade n [] false) <$> o_InitialStores o.
Definition initial_stores (o : Options) (d : OpenedDB) : Act W OpenedDB :=
  if negb (o_ReadOnly o) && (MTVersion (db_tree (od_db d)) =? 0) && negb (bool_decide (o_InitialStores o = []))
  then
    match OpenedUpgrades (od_tree d) (initial_upgrades o) with
    | Ok t => ret (mkOpenedDB (set_work (od_db d) (dbApplyUpgrades (db_work (od_db d)) (initial_upgrades o)).2) (om_trees t)
                     None None (od_log d) (od_lock d))
    | Err e | Panic e =>
        fail_with [close_opt (od_result d); TreesClose (od_tree d); log_close (od_log d); close_opt (od_retired d); unlock (od_lock d)] e
    end
  else ret d.

Definition LoadLocked (o : Options) (lock : option Handle) : Act W OpenedDB :=
  try (cleanup o) (fail_with [unlock lock]) (fun _ =>
  try (choose o) (fail_with [unlock lock]) (fun snapshot =>
  try (LoadTrees sha256 snapshot) (fail_with [unlock lock]) (fun mtree =>
  try (logOpen (o_ReadOnly o)) (fail_with [TreesClose mtree; unlock lock]) (fun reader =>
  try (range_check o (om_tree mtree)) (fail_with [TreesClose mtree; logClose reader; unlock lock]) (fun targetIndex =>
  try (catch_up o mtree) (fail_with [TreesClose mtree; logClose reader; unlock lock]) (fun mtree =>
  try (roll_back o snapshot targetIndex (om_tree mtree)) (fail_with [TreesClose mtree; logClose reader; unlock lock]) (fun db =>
  initial_stores o (mkOpenedDB db (om_trees mtree) None None (Some reader) lock)))))))).

Definition takeLock (o : Options) : Act W (option Handle) :=
  if o_ReadOnly o then ret None else let! h := LockFile in ret (Some h).

Definition create (o : Options) : Act W unit :=
  if o_CreateIfMissing o
  then onDir (fun r l => let* r := createDBIfNotExist sha256 r (o_InitialVersion o) in Ok (tt, (r, l))) else ret tt.

Definition LoadDB (o : Options) : Act W OpenedDB :=
  match Validate o with
  | Some e => throw ("invalid options: " ++ e)%string
  | None =>
      let o := FillDefaults o in
      let! _ := create o in
      let! lock := takeLock o in
      LoadLocked o lock
  end.
End Life.

(** ** What [Load] computes *)

Section Computes.
Context {L : Type} `{!Log L} (sha256 : bytes -> bytes) (unmarshal : bytes -> res WALEntry).

Definition created (o : Options) (r : Root) : res Root :=
  if o_CreateIfMissing o then createDBIfNotExist sha256 r (o_InitialVersion o) else Ok r.
Definition cleaned_dir (o : Options) (r : Root) : Root := if o_ReadOnly o then r else mkRoot (removeTmpDirs (r_entries r)) (r_current r).
Definition chosen (o : Options) (r : Root) : res bytes :=
  if 0 <? o_TargetVersion o then let* v := seekSnapshot (r_entries r) (o_TargetVersion o) in Ok (snapshotName v) else Ok current.
Definition loaded (snapshot : bytes) (r : Root) : res MultiTree := let* d := found (snapshot_dir r snapshot) in LoadMultiTree sha256 d.
Definition in_range (o : Options) (t : MultiTree) (l : L) : res Z :=
  let targetIndex := walIndex (o_TargetVersion o) (initialVersion t) in
  if rolls_back o && ((targetIndex =? 0) || (targetIndex <? walFirstIndex l) || (walLastIndex l <? targetIndex))
  then Err "rollback target version is outside the wal" else Ok targetIndex.
Definition caught (o : Options) (t : MultiTree) (l : L) : res MultiTree :=
  if (o_TargetVersion o =? 0) || (MTVersion t <? o_TargetVersion o) then catchupWAL sha256 t (log_source unmarshal l) (o_TargetVersion o) else Ok t.

Definition with_stores (o : Options) (d : @DB L) : res (@DB L) :=
  if negb (o_ReadOnly o) && (MTVersion (db_tree d) =? 0) && negb (bool_decide (o_InitialStores o = []))
  then match dbApplyUpgrades (db_work d) (initial_upgrades o) with (None, w) => Ok (set_work d w) | (Some e, _) => Err e end
  else Ok d.

Definition after_rollback (o : Options) (d : @DB L) (r : Root) (l : L) : res (@DB L * (Root * L)) := pure (fun _ => with_stores o d) r l.
Definition after_catchup (o : Options) (snapshot : bytes) (i : Z) (t : MultiTree) (r : Root) (l : L) : res (@DB L * (Root * L)) :=
  let* (d, (r, l)) :=
    (let* (r, l) := if rolls_back o then rollback r l snapshot (o_TargetVersion o) i else Ok (r, l) in Ok (opened_state o t l, (r, l))) in
  after_rollback o d r l.
Definition after_range (o : Options) (snapshot : bytes) (t : MultiTree) (i : Z) (r : Root) (l : L) : res (@DB L * (Root * L)) :=
  let* (t, (r, l)) := (let* t := caught o t l in Ok (t, (r, l))) in after_catchup o snapshot i t r l.
Definition after_open (o : Options) (snapshot : bytes) (t : MultiTree) (_ : unit) (r : Root) (l : L) : res (@DB L * (Root * L)) :=
  let* (i, (r, l)) := (let* i := in_range o t l in Ok (i, (r, l))) in after_range o snapshot t i r l.
Definition after_load (o : Options) (snapshot : bytes) (t : MultiTree) (r : Root) (l : L) : res (@DB L * (Root * L)) :=
  let* (u, (r, l)) := pure (fun _ => Ok tt) r l in after_open o snapshot t u r l.
Definition after_choice (o : Options) (snapshot : bytes) (r : Root) (l : L) : res (@DB L * (Root * L)) :=
  let* (t, (r, l)) := pure (loaded snapshot) r l in after_load o snapshot t r l.
Definition after_cleanup (o : Options) (_ : unit) (r : Root) (l : L) : res (@DB L * (Root * L)) :=
  let* (s, (r, l)) := pure (chosen o) r l in after_choice o s r l.
Definition after_lock (o : Options) (r : Root) (l : L) : res (@DB L * (Root * L)) :=
  let* (u, (r, l)) := Ok (tt, (cleaned_dir o r, l)) in after_cleanup o u r l.
Definition computed (o : Options) (r : Root) (l : L) : res (@DB L * (Root * L)) :=
  match Validate o with
  | Some e => Err ("invalid options: " ++ e)%string
  | None =>
      let o := FillDefaults o in
      let* r := created o r in
      after_lock o r l
  end.

Lemma name_not_current v : snapshotName v <> current.
Proof. unfold snapshotName, current. intros E. apply (f_equal (take 1)) in E. vm_compute in E. discriminate. Qed.

Lemma loaded_name v r : loaded (snapshotName v) r = load_snapshot sha256 r (snapshotName v).
Proof.
  unfold loaded, load_snapshot, snapshot_dir. rewrite decide_False by apply name_not_current. cbn.
  by destruct (find_entry _ _).
Qed.

Lemma loaded_current r : loaded current r = let* n := or_error "file does not exist" (r_current r) in load_snapshot sha256 r n.
Proof.
  unfold loaded, load_snapshot, snapshot_dir. rewrite decide_True by done. destruct (r_current r) as [n|]; [|done]. cbn.
  by destruct (find_entry _ _).
Qed.

Lemma after_load_tail o snapshot t r l :
  (let* (d, (r, _)) := after_load o snapshot t r l in Ok (d, r)) =
  let targetIndex := walIndex (o_TargetVersion o) (initialVersion t) in
  if rolls_back o && ((targetIndex =? 0) || (targetIndex <? walFirstIndex l) || (walLastIndex l <? targetIndex))
  then Err "rollback target version is outside the wal"
  else
    let* t := caught o t l in
    let* (r, l) := if rolls_back o then rollback r l snapshot (o_TargetVersion o) targetIndex else Ok (r, l) in
    let* d := with_stores o (opened_state o t l) in Ok (d, r).
Proof.
  cbv zeta. unfold after_load, after_open, in_range, pure. cbn [res_bind]. cbv zeta. destruct (rolls_back o && _); [done|]. cbn [res_bind].
  unfold after_range. destruct (caught o t l) as [t'|e|e]; [|done..]. cbn [res_bind]. unfold after_catchup.
  destruct (if rolls_back o then _ else _) as [[r' l']|e|e]; [|done..]. cbn [res_bind]. unfold after_rollback, pure.
  by destruct (with_stores o _).
Qed.

(** [computed] is [Load]: they return the same database and directory. *)
Lemma computed_Load o r l : Load sha256 unmarshal o r l = let* (d, (r, _)) := computed o r l in Ok (d, r).
Proof.
  unfold Load, computed. destruct (Validate o); [done|]. cbv zeta. set (o' := FillDefaults o).
  change (if o_CreateIfMissing o' then _ else _) with (created o' r). destruct (created o' r) as [r1|e|e]; [|done..]. cbn [res_bind].
  unfold after_lock. cbn [res_bind]. change (if o_ReadOnly o' then r1 else _) with (cleaned_dir o' r1). generalize (cleaned_dir o' r1). clear r1. intros r1.
  assert (forall s t, (let* (d, (r, _)) := after_load o' s t r1 l in Ok (d, r)) =
    (let back := o_LoadForOverwriting o' && (0 <? o_TargetVersion o') in
     let targetIndex := walIndex (o_TargetVersion o') (initialVersion t) in
     if back && ((targetIndex =? 0) || (targetIndex <? walFirstIndex l) || (walLastIndex l <? targetIndex))
     then Err "rollback target version is outside the wal"
     else
       let* t :=
         if (o_TargetVersion o' =? 0) || (MTVersion t <? o_TargetVersion o')
         then catchupWAL sha256 t (log_source unmarshal l) (o_TargetVersion o') else Ok t in
       let* (r, l) := if back : bool then rollback r1 l s (o_TargetVersion o') targetIndex else Ok (r1, l) in
       let d := opened_state o' t l in
       match o_InitialStores o' with
       | [] => Ok (d, r)
       | names =>
           if negb (o_ReadOnly o') && (MTVersion t =? 0) then
             match dbApplyUpgrades (db_work d) ((fun n => mkUpgrade n [] false) <$> names) with
             | (Some e, _) => Err e
             | (None, w) => Ok (set_work d w, r)
             end
           else Ok (d, r)
       end)) as Ht.
  { intros s t. rewrite after_load_tail. cbv zeta. fold (rolls_back o'). destruct (rolls_back o' && _); [done|].
    change (if _ || _ then _ else Ok t) with (caught o' t l). destruct (caught o' t l) as [t'|e|e]; [|done..]. cbn [res_bind].
    destruct (if rolls_back o' then _ else _) as [[r' l']|e|e]; [|done..]. cbn [res_bind]. unfold with_stores, initial_upgrades.
    destruct (o_InitialStores o') as [|n ns]; [by rewrite andb_false_r|]. rewrite andb_true_r. cbn [db_tree opened_state db_work w_tree].
    destruct (negb (o_ReadOnly o') && (MTVersion t' =? 0)); [|done]. by destruct (dbApplyUpgrades _ _) as [[e|] w]. }
  unfold after_cleanup, pure, chosen. destruct (0 <? o_TargetVersion o') eqn:ET.
  - destruct (seekSnapshot (r_entries r1) (o_TargetVersion o')) as [v|e|e]; [|done..]. cbn [res_bind]. unfold after_choice, pure.
    rewrite loaded_name. destruct (load_snapshot sha256 r1 (snapshotName v)) as [t|e|e]; [|done..]. cbn [res_bind]. rewrite Ht. cbv zeta. rewrite ?ET. done.
  - cbn [res_bind]. unfold after_choice, pure. rewrite loaded_current. destruct (r_current r1) as [n|]; [|done]. cbn [res_bind or_error].
    destruct (load_snapshot sha256 r1 n) as [t|e|e]; [|done..]. cbn [res_bind]. rewrite Ht. cbv zeta. rewrite ?ET. by rewrite andb_false_r.
Qed.
End Computes.

(** ** What [Load] owns *)

Section Owns.
Context {W L : Type} `{!Log L, !OS W, !LockOS W, !DirOS W L, !OSView W L, !OSLaws W L, !LockLaws W L, !DirLaws W L}.
Context (sha256 : bytes -> bytes) (unmarshal : bytes -> res WALEntry).

Definition lock_handles (h : option Handle) : handles := match h with Some (LockFd n) => {[+ LockFd n; Locked n +]} | _ => ∅ end.
Definition log_handles (h : option Handle) : handles := match h with Some h => {[+ h +]} | None => ∅ end.
Definition opt_owned (t : option OpenedTrees) : handles := match t with Some t => owned t | None => ∅ end.
Definition db_handles (d : OpenedDB (L := L)) : handles :=
  opt_owned (od_result d) ⊎ owned (od_tree d) ⊎ log_handles (od_log d) ⊎ opt_owned (od_retired d) ⊎ lock_handles (od_lock d).

(** A lock is the handle of a lock file. *)
Definition lock_ok (h : option Handle) : Prop := match h with Some (LockFd _) | None => True | _ => False end.
Definition db_ok (d : OpenedDB (L := L)) : Prop :=
  coherent (od_tree d) /\ (forall t, od_result d = Some t -> coherent t) /\ lock_ok (od_lock d).

Lemma TreesClose_gives_up t : gives_up (TreesClose t) (owned t).
Proof. apply trees_close. Qed.
Lemma close_opt_gives_up t : gives_up (close_opt t) (opt_owned t).
Proof. destruct t; [apply TreesClose_gives_up|apply gives_up_nothing]. Qed.
Lemma log_close_gives_up h : gives_up (log_close h) (log_handles h).
Proof. destruct h; [apply law_logClose|apply gives_up_nothing]. Qed.
Lemma unlock_gives_up h : lock_ok h -> gives_up (unlock h) (lock_handles h).
Proof. destruct h as [[| |n| |]|]; cbn; try done; intros _; [apply Unlock_gives_up|apply gives_up_nothing]. Qed.
#[local] Hint Resolve TreesClose_gives_up close_opt_gives_up log_close_gives_up unlock_gives_up law_logClose : release.

Lemma all_released (d : OpenedDB (L := L)) : lock_ok (od_lock d) ->
  Forall2 (gives_up (W := W)) [close_opt (od_result d); TreesClose (od_tree d); log_close (od_log d); close_opt (od_retired d); unlock (od_lock d)]
    [opt_owned (od_result d); owned (od_tree d); log_handles (od_log d); opt_owned (od_retired d); lock_handles (od_lock d)].
Proof.
  intros Hl. releases.
Qed.

Lemma all_handles (d : OpenedDB (L := L)) :
  db_handles d = ⋃+ [opt_owned (od_result d); owned (od_tree d); log_handles (od_log d); opt_owned (od_retired d); lock_handles (od_lock d)].
Proof. unfold db_handles. cbn. multiset_solver. Qed.

Lemma all_thrown {A} (d : OpenedDB (L := L)) : lock_ok (od_lock d) ->
  throws (A := A) (db_handles d) ∅ (fail_with [close_opt (od_result d); TreesClose (od_tree d); log_close (od_log d); close_opt (od_retired d); unlock (od_lock d)]).
Proof. intros Hl. eapply throws_fail; [by apply all_released|]. rewrite all_handles. multiset_solver. Qed.

(** A step on top of what is held, and the early return that gives it up. *)
Lemma does_step {A B C D} (Q Q' : L -> Prop) F (P : A -> Prop) (m : Act W A) p (data : A -> B) own rs Rs (k : A -> Act W C) q (data' : C -> D) own' P' :
  does Q ∅ ∅ m p data own P -> Forall2 gives_up rs Rs -> F = ⋃+ Rs ->
  (forall r l b r' l', Q l -> p r l = Ok (b, (r', l')) -> Q' l') ->
  (forall a, P a -> does Q' (F ⊎ own a) ∅ (k a) (q (data a)) data' own' P') ->
  does Q F ∅ (try m (fail_with rs) k) (fun r l => let* (b, (r, l)) := p r l in q b r l) data' own' P'.
Proof.
  intros Hm Hr HF HQ Hk. eapply does_try; [apply does_keep, Hm| |exact HQ|exact Hk].
  eapply throws_fail; [exact Hr|]. rewrite HF. multiset_solver.
Qed.

(** The value of a step on the directory, and its data. *)
Lemma does_onDir {A B} Q (f : Root -> L -> res (A * (Root * L))) p (data : A -> B) :
  (forall r l a r' l', names_differ r -> f r l = Ok (a, (r', l')) -> names_differ r') ->
  (forall r l, Q l -> p r l = let* (a, s) := f r l in Ok (data a, s)) -> does Q ∅ ∅ (onDir f) p data (fun _ => ∅) (fun _ => True).
Proof.
  intros Hf Hp w H Hq Hw. pose proof (law_onDir A f Hf w H I Hw) as Hm. specialize (Hp (rootOf w) (logOf w) Hq).
  destruct (onDir f w) as [[a|e|e] w'].
  - destruct Hm as (Ef & Hh & Hy & _). rewrite Ef in Hp. by rewrite Hp.
  - destruct Hm as (Hn & Hh). split; [|done]. intros Hy x Ex. rewrite Ex in Hp. destruct (f _ _) as [y| |]; [by apply (Hn Hy y)|done..].
  - intros x Ex. rewrite Ex in Hp. destruct (f _ _) as [y| |]; [by apply (Hm y)|done..].
Qed.

Lemma onDir_ok {A} (f : Root -> L -> res (A * (Root * L))) w a w' :
  (forall r l a r' l', names_differ r -> f r l = Ok (a, (r', l')) -> names_differ r') ->
  onDir f w = (Ok a, w') -> f (rootOf w) (logOf w) = Ok (a, (rootOf w', logOf w')).
Proof.
  intros Hf E. pose proof (law_onDir A f Hf w (held w) I) as Hm. rewrite (right_id_L ∅ (⊎)) in Hm. specialize (Hm eq_refl).
  rewrite E in Hm. apply Hm.
Qed.

Definition plain (l : L) : Prop := plain_log (log_source unmarshal l).
Definition catchup_step (t : OpenedTrees) (v : Z) (r : Root) (l : L) : res (OpenedTrees * (Root * L)) :=
  let* t := opened_catchup sha256 t (log_source unmarshal l) v in Ok (t, (r, l)).

Lemma same_root {A B} (x : res A) (g : A -> B) (r : Root) (l : L) y r' l' : (let* a := x in Ok (g a, (r, l))) = Ok (y, (r', l')) ->
  r' = r /\ l' = l.
Proof. destruct x; [|done..]. by intros [= _ <- <-]. Qed.

Lemma catchup_value t v w t' w' : coherent t -> plain (logOf w) -> onDir (catchup_step t v) w = (Ok t', w') ->
  coherent t' /\ owned t' = owned t.
Proof.
  intros Hc Hl E. apply onDir_ok in E; [|intros r l a r' l' Hn [-> ->]%same_root; done].
  pose proof (opened_catchup_follows sha256 t _ v Hc Hl) as Hf. unfold catchup_step in E.
  destruct (opened_catchup _ _ _ _) as [t1|e|e]; [|done..]. injection E as <- _ _. by destruct Hf as (_ & ? & ?).
Qed.
(** Catching up with the log keeps the files of the trees. *)
Lemma catchup_does t v : coherent t ->
  does plain ∅ ∅ (onDir (catchup_step t v))
    (fun r l => let* m := catchupWAL sha256 (om_tree t) (log_source unmarshal l) v in Ok (m, (r, l))) om_tree (fun _ => ∅)
    (fun t' => coherent t' /\ owned t' = owned t).
Proof.
  intros Hc. eapply does_and; [apply does_onDir|].
  - intros r l a r' l' Hn [-> ->]%same_root. done.
  - intros r l Hl. unfold catchup_step. pose proof (opened_catchup_follows sha256 t _ v Hc Hl) as Hf.
    destruct (opened_catchup _ _ _ _) as [t'|e|e]; cbn in Hf |- *; [|by rewrite Hf..]. by destruct Hf as (-> & _).
  - intros w t' w' Hl E _. by eapply catchup_value.
Qed.

Lemma LoadTrees_coherent snap w t w' : LoadTrees sha256 snap w = (Ok t, w') -> coherent t.
Proof.
  unfold LoadTrees, bind, try, lift. destruct (osReadMetadata snap w) as [[[c iv]|e|e] w1]; [|done..].
  destruct (checkMetadata c iv) as [[c' iv']|e|e]; [|done..]. destruct (osReadDir snap w1) as [[es|e|e] w2]; [|done..].
  destruct (open_dirs snap [] es w2) as [[opened|e|e] w3]; [|done..].
  destruct (commitInfoEqual _ _); [unfold fail_with; by destruct (release_all _ _)|]. intros [= <- _].
  unfold coherent. cbn. by destruct (1 <? u32 iv'); cbn; rewrite ?length_fmap.
Qed.

(** *** The steps *)

Lemma names_filter (f : list Entry -> list Entry) r c : (forall es e, e ∈ f es -> e ∈ es) -> names_differ r -> names_differ (mkRoot (f (r_entries r)) c).
Proof. unfold names_differ. rewrite !Forall_forall. cbn. eauto. Qed.

Lemma cleanup_does Q o : does Q ∅ ∅ (cleanup o) (fun r l => Ok (tt, (cleaned_dir o r, l))) id (fun _ => ∅) (fun _ => True).
Proof.
  unfold cleanup, cleaned_dir. destruct (o_ReadOnly o); [by apply (does_ret Q ∅ ∅ tt id (fun _ => ∅))|]. apply does_onDir.
  - intros r l a r' l' Hn [= _ <- _]. apply names_filter; [|done]. intros es e. by apply tmp_entries.
  - by intros r l _.
Qed.

Lemma choose_does Q o : does Q ∅ ∅ (choose o) (pure (chosen o)) id (fun _ => ∅) (fun _ => True).
Proof.
  unfold choose, pure, chosen. destruct (0 <? o_TargetVersion o); [|by apply (does_ret Q ∅ ∅ current id (fun _ => ∅) (fun _ => True))]. apply does_onDir.
  - intros r l a r' l' Hn [-> _]%same_root. done.
  - intros r l _. by destruct (seekSnapshot _ _).
Qed.

Lemma range_does Q o t : does Q ∅ ∅ (range_check o t) (fun r l => let* i := in_range o t l in Ok (i, (r, l))) id (fun _ => ∅) (fun _ => True).
Proof.
  unfold range_check, in_range. cbv zeta. destruct (rolls_back o); [|by apply (does_ret Q ∅ ∅ _ id (fun _ => ∅) (fun _ => True))]. cbn [andb]. apply does_onDir.
  - intros r l a r' l' Hn. destruct (_ || _); [done|]. by intros [= _ <- _].
  - intros r l _. by destruct (_ || _).
Qed.

Lemma catch_up_does o t : coherent t ->
  does plain ∅ ∅ (catch_up sha256 unmarshal o t) (fun r l => let* m := caught sha256 unmarshal o (om_tree t) l in Ok (m, (r, l))) om_tree (fun _ => ∅)
    (fun t' => coherent t' /\ owned t' = owned t).
Proof.
  intros Hc. unfold catch_up, caught. destruct (_ || _); [by apply catchup_does|]. by apply (does_ret plain ∅ ∅ t om_tree (fun _ => ∅)).
Qed.

(** What a callback keeps, the traversal keeps. *)
Lemma traverse_keeps {S} (cb : S -> Z -> S * bool * option string) (P : S -> Prop) es : (forall s v, P s -> P (cb s v).1.1) ->
  forall s, P s -> P (traverse_list cb s es).1.
Proof.
  intros Hcb. induction es as [|e es IH]; intros s Hs; [done|]. cbn.
  assert (P (process cb s e).1.1) as Hp by (unfold process; destruct (_ || _); [done|]; destruct (parseVersion _); [by apply Hcb|done..]).
  destruct (process cb s e) as [[s' [|]] [err|]]; cbn in *; auto.
Qed.

Lemma rollback_entries (r : Root) (l : L) s v i r' l' : rollback r l s v i = Ok (r', l') -> forall e, e ∈ r_entries r' -> e ∈ r_entries r.
Proof.
  unfold rollback. destruct (r_current r) as [cur|]; [|done].
  assert (r_entries (if decide (s = cur) then r else updateCurrentSymlink r s) = r_entries r) as Er by (by destruct (decide _)).
  rewrite Er. set (r1 := if decide _ then _ else _) in *.
  assert (forall e, e ∈ (traverseSnapshots (rollback_callback v) (r_entries r) false (r_entries r)).1 -> e ∈ r_entries r) as Hin.
  { apply (traverse_keeps _ (fun es => forall e, e ∈ es -> e ∈ r_entries r)); [|done]. intros es x Hes. unfold rollback_callback.
    destruct (x <=? v); [done|]. unfold atomicRemoveDir. destruct (find_entry _ _) as [y|]; [|done]. intros e [_ He]%list_elem_of_filter. auto. }
  destruct (traverseSnapshots _ _ _ _) as [es [err|]]; [done|]. intros (l1 & _ & [= <- _])%res_bind_ok. exact Hin.
Qed.

Lemma roll_back_does Q o s i t :
  does Q ∅ ∅ (roll_back o s i t)
    (fun r l => let* (r, l) := if rolls_back o then rollback r l s (o_TargetVersion o) i else Ok (r, l) in Ok (opened_state o t l, (r, l))) id (fun _ => ∅)
    (fun d => w_readOnly (db_work d) = o_ReadOnly o /\ db_tree d = t).
Proof.
  unfold roll_back. match goal with |- context [onDir ?f] => assert (forall r l a r' l', names_differ r -> f r l = Ok (a, (r', l')) -> names_differ r') as Hf end.
  { intros r l a r' l' Hn ([r1 l1] & E & [= _ <- _])%res_bind_ok. destruct (rolls_back o); [|by injection E as <- <-].
    unfold names_differ in *. rewrite Forall_forall in *. intros e He. by eapply Hn, rollback_entries. }
  eapply does_and; [apply does_onDir; [exact Hf|]|].
  - intros r l _. by destruct (if rolls_back o then _ else _) as [[r1 l1]| |].
  - intros w d w' _ E _. apply onDir_ok in E; [|exact Hf]. by apply res_bind_ok in E as ([r l] & _ & [= <- _ _]).
Qed.

Lemma initial_no_delete o : no_delete (initial_upgrades o).
Proof. apply Forall_fmap, Forall_true. done. Qed.

Lemma initial_stores_does Q o d : coherent (od_tree d) -> lock_ok (od_lock d) -> w_readOnly (db_work (od_db d)) = o_ReadOnly o ->
  od_result d = None -> od_retired d = None ->
  does Q (db_handles d) ∅ (initial_stores o d) (pure (fun _ => with_stores o (od_db d))) od_db db_handles db_ok.
Proof.
  intros Hc Hl Hro Hr1 Hr2. unfold initial_stores, with_stores.
  destruct (o_ReadOnly o) eqn:Ero; cbn [negb andb]; [apply (does_ret Q _ ∅ d od_db db_handles db_ok); [done|by unfold db_ok; rewrite Hr1]|].
  destruct (_ && _); [|apply (does_ret Q _ ∅ d od_db db_handles db_ok); [done|by unfold db_ok; rewrite Hr1]].
  pose proof (OpenedUpgrades_follows (od_tree d) (initial_upgrades o) Hc (initial_no_delete o)) as Hf.
  unfold dbApplyUpgrades. rewrite Hro. change (w_tree (db_work (od_db d))) with (om_tree (od_tree d)).
  destruct (OpenedUpgrades _ _) as [t|e|e]; cbn [follows] in Hf.
  - destruct Hf as (-> & Hc' & Ho). cbn [snd]. match goal with |- does _ _ _ (ret ?a) _ _ _ _ => apply (does_ret Q _ ∅ a od_db db_handles db_ok) end; [|by split_and!].
    unfold db_handles. cbn [od_result od_log od_retired od_lock]. rewrite Hr1, Hr2. do 4 f_equal. symmetry. exact Ho.
  - rewrite Hf. intros w H _ Hw. by destruct (all_thrown (A := OpenedDB (L := L)) d Hl e w H Hw) as (e' & w' & -> & Hh & _).
  - rewrite Hf. intros w H _ Hw. by destruct (all_thrown (A := OpenedDB (L := L)) d Hl e w H Hw) as (e' & w' & -> & Hh & _).
Qed.
(** *** All steps *)

Ltac owns := rewrite ?gmultiset_disj_union_list_cons, ?gmultiset_disj_union_list_nil; multiset_solver.

Lemma LoadLocked_does o lock : lock_ok lock ->
  does plain (lock_handles lock) ∅ (LoadLocked sha256 unmarshal o lock) (after_lock sha256 unmarshal o) od_db db_handles db_ok.
Proof.
  intros Hl. unfold LoadLocked, after_lock.
  eapply (does_step _ plain) with (q := after_cleanup sha256 unmarshal o); [apply cleanup_does|by releases|by owns|by intros ????? ? [= _ _ <-]|].
  intros [] _. unfold after_cleanup.
  eapply (does_step _ plain) with (q := after_choice sha256 unmarshal o); [apply choose_does|by releases|by owns|by intros ????? ? [-> ->]%same_root|].
  intros s _. unfold after_choice.
  eapply (does_step _ plain _ coherent) with (q := after_load sha256 unmarshal o s);
    [eapply does_and; [apply runs_does, LoadTrees_runs|]|by releases|by owns|by intros ????? ? [-> ->]%same_root|].
  { intros w t w' _ E _. by eapply LoadTrees_coherent. }
  intros t Hc. unfold after_load.
  eapply (does_step _ plain) with (q := after_open sha256 unmarshal o s (om_tree t)); [apply runs_does, law_logOpen|by releases|by owns|by intros ????? ? [= _ _ <-]|].
  intros h _. unfold after_open.
  eapply (does_step _ plain) with (q := after_range sha256 unmarshal o s (om_tree t)); [apply range_does|by releases|by owns|by intros ????? ? [-> ->]%same_root|].
  intros i _. unfold after_range.
  eapply (does_step _ plain) with (q := after_catchup o s i); [by apply catch_up_does|by releases|by owns|by intros ????? ? [-> ->]%same_root|].
  intros t' [Hc' Ho]. unfold after_catchup.
  eapply (does_step _ (fun _ => True)) with (q := after_rollback o); [apply roll_back_does|by releases|rewrite <- Ho; by owns|done|].
  intros d [Hro Ht]. unfold after_rollback. set (x := mkOpenedDB d (om_trees t') None None (Some h) lock). replace (_ ⊎ _) with (db_handles x).
  - apply (initial_stores_does _ o x); [|done..]. unfold coherent, od_tree. cbn. by rewrite Ht.
  - unfold db_handles, x, owned, od_tree in *. cbn [od_result od_log od_retired od_lock om_trees od_trees opt_owned log_handles] in *. rewrite Ho. multiset_solver.
Qed.

Lemma put_entry_elem e es x : x ∈ put_entry e es -> x = e \/ x ∈ es.
Proof.
  induction es as [|y es IH]; cbn; [by intros ->%list_elem_of_singleton; left|].
  destruct (bytes_compare _ _); rewrite !elem_of_cons; naive_solver.
Qed.

Lemma create_names r iv r' : names_differ r -> createDBIfNotExist sha256 r iv = Ok r' -> names_differ r'.
Proof.
  intros Hn. assert (initEmptyDB sha256 r iv = Ok r' -> names_differ r') as Hi.
  { intros (d & Ed & <-%Ok_inj)%res_bind_ok. cbn in Ed. injection Ed as <-. unfold names_differ in *. cbn [r_entries updateCurrentSymlink].
    rewrite Forall_forall in *. intros e [->|He]%put_entry_elem; [apply NoDup_nil_2|by apply Hn]. }
  unfold createDBIfNotExist. destruct (r_current r) as [n|]; [|done]. destruct (find_entry _ _); [|done]. by intros <-%Ok_inj.
Qed.

Lemma create_does o : does (fun _ => True) ∅ ∅ (create sha256 o) (fun r l => let* r := created sha256 o r in Ok (tt, (r, l))) id (fun _ => ∅) (fun _ => True).
Proof.
  unfold create, created. destruct (o_CreateIfMissing o); [|by apply (does_ret _ ∅ ∅ tt id (fun _ => ∅) (fun _ => True))]. apply does_onDir.
  - intros r l a r' l' Hn (r1 & E & [= _ <- _])%res_bind_ok. by eapply create_names.
  - intros r l _. by destruct (createDBIfNotExist _ _ _).
Qed.

Lemma takeLock_spec o w : match takeLock o w with
  | (Ok h, w') => lock_ok h /\ held w' = held w ⊎ lock_handles h /\ frame w w'
  | (Err _, w') => held w' = held w /\ (healthy w -> exists m, Locked m ∈ held w)
  | (Panic _, _) => False
  end.
Proof.
  unfold takeLock. destruct (o_ReadOnly o); [cbn; by rewrite (right_id_L ∅ (⊎))|]. unfold bind, try.
  pose proof (LockFile_spec w) as H. destruct (LockFile w) as [[h|e|e] w']; [|done|done]. by destruct H as (n & -> & Hh & _ & Hf).
Qed.

(** [Load] computes what [DbDir.Load] computes and owns what it opens. *)
Lemma LoadDB_spec o w : plain (logOf w) ->
  match LoadDB sha256 unmarshal o w with
  | (Ok d, w') => computed sha256 unmarshal o (rootOf w) (logOf w) = Ok (od_db d, (rootOf w', logOf w')) /\ held w' = held w ⊎ db_handles d /\ db_ok d
  | (Err _, w') => held w' = held w /\
      (healthy w -> (forall m, Locked m ∉ held w) -> forall x, computed sha256 unmarshal o (rootOf w) (logOf w) <> Ok x)
  | (Panic _, _) => forall x, computed sha256 unmarshal o (rootOf w) (logOf w) <> Ok x
  end.
Proof.
  intros Hp. unfold LoadDB, computed. destruct (Validate o); [done|]. cbv zeta. set (o' := FillDefaults o).
  pose proof (create_does o' w (held w) I) as Hc. rewrite (right_id_L ∅ (⊎)) in Hc. specialize (Hc eq_refl).
  unfold bind at 1, try at 1. destruct (create sha256 o' w) as [[[]|e|e] w1].
  2:{ destruct Hc as [Hc Hh]. split; [done|]. intros Hy _ x E. destruct (created sha256 o' (rootOf w)) as [r|e'|e']; [by apply (Hc Hy (tt, (r, logOf w)))|done..]. }
  2:{ intros x E. destruct (created sha256 o' (rootOf w)) as [r|e'|e']; [by apply (Hc (tt, (r, logOf w)))|done..]. }
  destruct Hc as ((r1 & Ec & [= -> El])%res_bind_ok & Hh1 & Hy1 & _). rewrite Ec, El. cbn [res_bind]. rewrite (right_id_L ∅ (⊎)) in Hh1.
  unfold bind, try. pose proof (takeLock_spec o' w1) as Hl. destruct (takeLock o' w1) as [[lock|e|e] w2]; [|cbn|done].
  2:{ destruct Hl as [Hl He]. split; [by rewrite Hl|]. intros Hy Hn x _. destruct (He (Hy1 Hy)) as [m Hm]. apply (Hn m). by rewrite <- Hh1. }
  destruct Hl as (Hok & Hh2 & Hr2 & Hl2 & Hy2).
  pose proof (LoadLocked_does o' lock Hok w2 (held w1)) as Hd. rewrite Hl2, Hr2 in Hd. rewrite El in Hp. specialize (Hd Hp Hh2).
  destruct (LoadLocked sha256 unmarshal o' lock w2) as [[d|e|e] w3]; [|rewrite (right_id_L ∅ (⊎)) in Hd|done].
  - destruct Hd as (E & Hh3 & _ & Hd). by rewrite E, Hh3, Hh1.
  - destruct Hd as (E & Hh3). rewrite Hh3, Hh1. split; [done|]. auto.
Qed.
(** *** Reloads *)

Definition pending_upgrades (d : OpenedDB (L := L)) : list TreeNameUpgrade := we_upgrades (pendingLog (w_pending (db_work (od_db d)))).

(** [stays H x]: a database with its handles on top of [H]. *)
Definition stays (H : handles) (x : res (option string * OpenedDB (L := L)) * W) : Prop :=
  match x with
  | (Ok (_, d), w) => held w = H ⊎ db_handles d /\ db_ok d
  | (Err _, _) => False
  | (Panic _, _) => True
  end.

Lemma owned_new (db : @DB L) ts retired result log lock : owned (od_tree (mkOpenedDB db ts retired result log lock)) = trees_handles ts.
Proof. done. Qed.

Lemma release {A} (r : Rel W) R w H (k : option string -> W -> A) (P : A -> Prop) : gives_up r R -> held w = H ⊎ R ->
  (forall e w', held w' = H -> P (k e w')) -> P (let (e, w) := r w in k e w).
Proof. intros Hr Hw Hk. destruct (Hr w H Hw) as [Hh _]. destruct (r w) as [e w']. by apply Hk. Qed.

Lemma reloadOpened_stays d t w H : db_ok d -> coherent t -> no_delete (pending_upgrades d) ->
  held w = H ⊎ db_handles d ⊎ owned t -> stays H (reloadOpened d t w).
Proof.
  intros (Hc & Hr & Hl) Ht Hn Hw. unfold reloadOpened. pose proof (opened_entry_follows t _ Ht Hn) as Hf.
  destruct (opened_entry t _) as [t'|e|e]; cbn [follows] in Hf; [| |done].
  - destruct Hf as (Ht' & Hc' & Ho). apply (release _ (opt_owned (od_retired d)) _
      (H ⊎ opt_owned (od_result d) ⊎ owned (od_tree d) ⊎ log_handles (od_log d) ⊎ lock_handles (od_lock d) ⊎ owned t));
      [apply close_opt_gives_up|rewrite Hw; unfold db_handles; multiset_solver|]. intros [e|] w1 Hw1.
    + eapply (release _ (owned t)); [apply TreesClose_gives_up|exact Hw1|]. intros err w2 Hw2. cbn. split; [|done]. rewrite Hw2.
      unfold db_handles. cbn [od_result od_log od_retired od_lock opt_owned set_retired]. change (od_tree (set_retired d None)) with (od_tree d). multiset_solver.
    + cbn. split; [|split_and!; [|done..]].
      * rewrite Hw1. unfold db_handles. cbn [od_result od_log od_retired od_lock opt_owned]. rewrite owned_new.
        change (trees_handles (om_trees t')) with (owned t'). rewrite Ho. multiset_solver.
      * unfold coherent, od_tree in *. cbn. unfold reloadMultiTree. by rewrite Ht'.
  - eapply (release _ (owned t)); [apply TreesClose_gives_up|exact Hw|]. intros err w1 Hw1. cbn. by rewrite Hw1.
Qed.
(** An opening on top of a database: when it fails, the database stays. *)
Lemma opens_stays {A B} Q d (m : Act W A) p (data : A -> B) own P (k : A -> Act W (option string * OpenedDB (L := L))) w H :
  does Q ∅ ∅ m p data own P -> Q (logOf w) -> db_ok d -> held w = H ⊎ db_handles d ->
  (forall a w', P a -> logOf w' = logOf w -> held w' = H ⊎ db_handles d ⊎ own a -> stays H (or_keep d (k a) w')) ->
  (forall r l b r' l', p r l = Ok (b, (r', l')) -> l' = l) -> stays H (or_keep d (bind m k) w).
Proof.
  intros Hm Hq Hd Hw Hk Hp. specialize (Hm w (H ⊎ db_handles d) Hq). rewrite (right_id_L ∅ (⊎)) in Hm. specialize (Hm Hw).
  unfold or_keep, bind, try in *. destruct (m w) as [[a|e|e] w1]; [|by destruct Hm as [_ Hh]; split|done].
  destruct Hm as (E & Hh & _ & HP). apply Hk; [done|by eapply Hp|done].
Qed.

Lemma catchup_stays d t (k : OpenedTrees -> Act W (option string * OpenedDB (L := L))) w H : db_ok d -> coherent t -> plain (logOf w) ->
  held w = H ⊎ db_handles d ⊎ owned t ->
  (forall t' w', coherent t' -> held w' = H ⊎ db_handles d ⊎ owned t' -> stays H (or_keep d (k t') w')) ->
  stays H (or_keep d (try (onDir (catchup_step t 0)) (fail_with [TreesClose t]) k) w).
Proof.
  intros Hd Hc Hp Hw Hk. pose proof (catchup_does t 0 Hc w (H ⊎ db_handles d ⊎ owned t) Hp) as Hm.
  rewrite (right_id_L ∅ (⊎)) in Hm. specialize (Hm Hw). unfold or_keep, try in *. destruct (onDir _ w) as [[t'|e|e] w1]; [| |done].
  - destruct Hm as (_ & Hh & _ & Hc' & Ho). apply Hk; [done|]. by rewrite Ho, Hh, (right_id_L ∅ (⊎)).
  - destruct Hm as (_ & Hh). rewrite ?(right_id_L ∅ (⊎)) in Hh. destruct (throws_one (A := option string * OpenedDB (L := L)) _ _ (TreesClose_gives_up t) e w1 (H ⊎ db_handles d) Hh)
      as (e' & w2 & -> & Hh2 & _). rewrite (right_id_L ∅ (⊎)) in Hh2. by split.
Qed.

Lemma load_does Q snap : does Q ∅ ∅ (LoadTrees sha256 snap) (pure (loaded sha256 snap)) om_tree owned coherent.
Proof. eapply does_and; [apply runs_does, LoadTrees_runs|]. intros w t w' _ E _. by eapply LoadTrees_coherent. Qed.

Lemma stays_or_keep d (m : Act W (option string * OpenedDB (L := L))) w H : stays H (m w) -> stays H (or_keep d m w).
Proof. unfold stays, or_keep. by destruct (m w) as [[[e x]|e|e] w']. Qed.

Lemma reload_stays d w H : db_ok d -> no_delete (pending_upgrades d) -> held w = H ⊎ db_handles d -> stays H (reload sha256 d w).
Proof.
  intros Hd Hn Hw. eapply (opens_stays (fun _ => True)); [apply load_does|done|done|done| |by intros ????? [-> ->]%same_root].
  intros t w' Hc _ Hw'. apply stays_or_keep. by apply reloadOpened_stays.
Qed.

Lemma rewriteOpened_stays d w H : db_ok d -> od_result d = None -> plain (logOf w) -> held w = H ⊎ db_handles d ->
  stays H (rewriteOpened sha256 unmarshal d w).
Proof.
  intros Hd Hr Hp Hw. eapply (opens_stays plain); [apply load_does|done|done|done| |by intros ????? [-> ->]%same_root].
  intros t w' Hc Hl Hw'. apply catchup_stays; [done|done|by rewrite Hl|done|]. intros t' w2 Hc' Hw2. apply stays_or_keep. cbn. split.
  - rewrite Hw2. unfold db_handles. cbn [set_result od_result od_log od_retired od_lock opt_owned]. rewrite Hr. cbn [opt_owned].
    change (od_tree (set_result d (Some t'))) with (od_tree d). multiset_solver.
  - destruct Hd as (H1 & _ & H3). split_and!; [done| |done]. by intros t2 [= <-].
Qed.

Lemma switchOpened_stays waited d w H : db_ok d -> no_delete (pending_upgrades d) -> plain (logOf w) -> held w = H ⊎ db_handles d ->
  stays H (switchOpened sha256 unmarshal waited d w).
Proof.
  intros Hd Hn Hp Hw. unfold switchOpened. destruct (od_result d) as [t|] eqn:Er; [|by split]. destruct Hd as (H1 & H2 & H3).
  assert (db_ok (set_result d None)) as Hd' by (by split_and!). specialize (H2 t Er).
  assert (held w = H ⊎ db_handles (set_result d None) ⊎ owned t) as Hw'.
  { rewrite Hw. unfold db_handles. cbn [set_result od_result od_log od_retired od_lock opt_owned]. rewrite Er. cbn [opt_owned].
    change (od_tree (set_result d None)) with (od_tree d). multiset_solver. }
  destruct waited as [e|].
  - unfold or_keep, try at 1, lift.
    destruct (throws_one (A := option string * OpenedDB (L := L)) _ _ (TreesClose_gives_up t) e w _ Hw') as (e' & w2 & -> & Hh2 & _).
    rewrite (right_id_L ∅ (⊎)) in Hh2. by split.
  - apply (catchup_stays (set_result d None) t); [done|done|done|done|]. intros t' w2 Hc' Hw2. apply stays_or_keep. by apply reloadOpened_stays.
Qed.

(** *** The life of a database *)

Definition set_db (d : OpenedDB (L := L)) (db : @DB L) : OpenedDB (L := L) :=
  mkOpenedDB db (od_trees d) (od_retired d) (od_result d) (od_log d) (od_lock d).

(** What happens to a database: changes, commits and the work of the log writer, which
    leave the set of trees alone, while others change the directory and the log;
    upgrades; reloads; the end of a rewrite; the switch.  No upgrade deletes a
    store. *)
Inductive life_step : OpenedDB (L := L) * W -> OpenedDB (L := L) * W -> Prop :=
| life_change d w db w' : length (trees (db_tree db)) = length (trees (db_tree (od_db d))) -> held w' = held w ->
    life_step (d, w) (set_db d db, w')
| life_upgrade d w us t : no_delete us -> OpenedUpgrades (od_tree d) us = Ok t ->
    life_step (d, w) (mkOpenedDB (set_work (od_db d) (with_tree (db_work (od_db d)) (om_tree t))) (om_trees t)
                        (od_retired d) (od_result d) (od_log d) (od_lock d), w)
| life_reload d w e d' w' : no_delete (pending_upgrades d) -> reload sha256 d w = (Ok (e, d'), w') -> life_step (d, w) (d', w')
| life_rewrite d w e d' w' : od_result d = None -> plain (logOf w) -> rewriteOpened sha256 unmarshal d w = (Ok (e, d'), w') ->
    life_step (d, w) (d', w')
| life_switch waited d w e d' w' : no_delete (pending_upgrades d) -> plain (logOf w) ->
    switchOpened sha256 unmarshal waited d w = (Ok (e, d'), w') -> life_step (d, w) (d', w').

Lemma life_step_inv H x y : life_step x y -> db_ok x.1 -> held x.2 = H ⊎ db_handles x.1 -> held y.2 = H ⊎ db_handles y.1 /\ db_ok y.1.
Proof.
  intros St Hd Hw. destruct St as [d w db w' Hl Hh|d w us t Hn E|d w e d' w' Hn E|d w e d' w' Hr Hp E|waited d w e d' w' Hn Hp E]; cbn [fst snd] in *.
  - split; [by rewrite Hh, Hw|]. destruct Hd as (H1 & H2 & H3). split_and!; [|done..]. unfold coherent, od_tree in *. cbn in *. congruence.
  - destruct Hd as (H1 & H2 & H3). pose proof (OpenedUpgrades_follows (od_tree d) us H1 Hn) as Hf. rewrite E in Hf. destruct Hf as (_ & Hc & Ho).
    split; [|by split_and!]. rewrite Hw. unfold db_handles. cbn [od_result od_log od_retired od_lock]. rewrite owned_new. by rewrite <- Ho.
  - pose proof (reload_stays d w H Hd Hn Hw) as Hs. by rewrite E in Hs.
  - pose proof (rewriteOpened_stays d w H Hd Hr Hp Hw) as Hs. by rewrite E in Hs.
  - pose proof (switchOpened_stays waited d w H Hd Hn Hp Hw) as Hs. by rewrite E in Hs.
Qed.

Lemma life_inv H x y : rtc life_step x y -> db_ok x.1 -> held x.2 = H ⊎ db_handles x.1 -> held y.2 = H ⊎ db_handles y.1 /\ db_ok y.1.
Proof. induction 1 as [x|x y z St _ IH]; intros Hd Hw; [done|]. destruct (life_step_inv H x y St Hd Hw). auto. Qed.

Lemma CloseDB_releases marshal rounds d w H : db_ok d -> held w = H ⊎ db_handles d -> held (CloseDB marshal rounds d w).2 = H.
Proof.
  intros (_ & _ & Hl) Hw. unfold CloseDB. destruct (dbClose marshal rounds (od_db d)) as [err db].
  destruct (release_all_gives_up _ _ (all_released d Hl) w H) as [Hh _]; [by rewrite <- all_handles|]. by destruct (release_all _ w).
Qed.
End Owns.

(** ** The world in memory *)

#[export] Instance mem_dir : DirOS MemOS ListLog := {|
  onDir := fun A f => attempt (fun w =>
    match f (me_dir w) (me_log w) with
    | Ok (a, (r, l)) => if names_ok r then (Ok a, mkMemOS r l (me_held w) (me_next w) (me_faults w)) else (Err "file exists", w)
    | Err e => (Err e, w)
    | Panic e => (Panic e, w)
    end);
  logOpen := fun _ => attempt (fun w => let h := LogFd (me_next w) in (Ok h, set_held w (me_held w ⊎ {[+ h +]})));
  logClose := drop_handle;
|}.

Lemma names_ok_spec r : names_ok r = true <-> names_differ r.
Proof. apply bool_decide_eq_true. Qed.

Lemma me_dir_differ w : names_differ (me_dir w).
Proof. unfold me_dir. destruct (names_ok (me_root w)) eqn:E; [by apply names_ok_spec|]. apply Forall_nil_2. Qed.

#[export] Instance mem_dir_laws : DirLaws MemOS ListLog.
Proof.
  split.
  - intros A f Hf w H _ Hw. unfold onDir, mem_dir, attempt. cbn [held mem_view] in Hw.
    set (w' := mkMemOS (me_root w) (me_log w) (me_held w) (me_next w) (tail (me_faults w))).
    assert (healthy w -> healthy w') as Hy by (cbn; by destruct 1). change (rootOf w) with (me_dir w'). change (logOf w) with (me_log w').
    assert (match me_faults w with true :: _ => ~ healthy w | _ => True end) as Hft.
    { destruct (me_faults w) as [|[|] fs] eqn:Ef; [done| |done]. cbn. rewrite Ef. by intros [? _]%Forall_cons. }
    destruct (me_faults w) as [|[|] fs]; [|cbn; rewrite Hw; by split; [intros|rewrite !(right_id_L ∅ (⊎))]|].
    all: destruct (f (me_dir w') (me_log w')) as [[a [r l]]|e|e] eqn:E; [|cbn; rewrite Hw; by rewrite !(right_id_L ∅ (⊎))|done].
    all: assert (names_ok r = true) as Hn by (apply names_ok_spec; eapply Hf; [apply me_dir_differ|exact E]); rewrite Hn.
    all: split_and!; [cbn; unfold me_dir; cbn; by rewrite Hn|exact Hw|exact Hy|done].
  - intros ro. apply attempt_runs; [done|]. intros w H Hw. cbn. split_and!; [done|cbn in Hw; rewrite Hw; multiset_solver|by split_and!].
  - intros h. apply drop_gives_up.
Qed.

(** ** Properties *)


Definition entry_plain (e : WALEntry) : bool := forallb (fun u => negb (up_delete u)) (we_upgrades e).

Lemma sample_plain : plain bit_unmarshal sample_log.
Proof.
  assert (forallb (fun b => match bit_unmarshal b with Ok e => entry_plain e | _ => true end) sample_bytes = true) as Hb by (vm_compute; reflexivity).
  rewrite forallb_forall in Hb. intros i e (b & Er & Eu)%res_bind_ok. unfold walRead, list_log in Er.
  destruct (i <=? _); [done|]. destruct (_ !! _) as [b'|] eqn:El; [|done]. apply Ok_inj in Er as <-.
  assert (In b' sample_bytes) as Hin by (by apply list_elem_of_In; eapply list_elem_of_lookup_2, El).
  specialize (Hb b' Hin). cbn beta in Hb. rewrite Eu in Hb. unfold entry_plain in Hb. rewrite forallb_forall in Hb.
  apply Forall_forall. intros u Hu%list_elem_of_In. specialize (Hb u Hu). by destruct (up_delete u).
Qed.


Lemma reload_retires {W L : Type} `{!Log L, !OS W} sha256 (d d' : OpenedDB (L := L)) (w w' : W) :
  reload sha256 d w = (Ok (None, d'), w') -> od_retired d' = Some (od_tree d).
Proof.
  unfold reload, or_keep, bind, try. destruct (LoadTrees _ _ w) as [[t|e|e] w1]; [|done..]. unfold reloadOpened.
  destruct (opened_entry t _) as [t'|e|e]; [|by destruct (TreesClose t w1)|done].
  destruct (close_opt (od_retired d) w1) as [[e|] w2]; [by destruct (TreesClose t w2)|]. by intros [= <- _].
Qed.


Definition life_loaded : res (OpenedDB (L := ListLog)) * MemOS := LoadDB digest32 bit_unmarshal (sample_options 0 false false) (sample_world []).
Definition life_reloaded : bool :=
  match life_loaded with (Ok d, w) => match reload digest32 d w with (Ok (None, d'), _) => forallb (fun u => negb (up_delete u)) (pending_upgrades d) | _ => false end | _ => false end.

