(* ===== verification/DbLocks.v ===== *)
(** The locks of a database: which mutexes the methods of [memiavl/db.go] take, in
    which order, and who releases them.

    A program is the sequence of lock operations of a call; what it does between
    them is [Work], whose meaning is in [Db], [DbDir] and [Pending].  The mutex
    [mtx] guards the database; [pruneSnapshotLock] is taken by the commit that
    switches to a new snapshot and released by the goroutine that prunes.  The
    goroutine that rewrites a snapshot hands its result over an unbuffered
    channel, from which commits take it when it is there and for which [Close]
    waits.  The callback [triggerStateSyncExport] of [store/setup.go] starts a
    goroutine, which may call the database in its turn.  A run interleaves any number
    of callers and the goroutines they start.

    Theorem: whatever the callers call, no run blocks for ever: every run ends, and
    at its end every call has returned and every lock is free. *)
From stdpp Require Import prelude gmap sets.
From Stdlib Require Import Lia.
From S2P Require Import Prelude.

(** ** Programs *)

(** [Mtx]: [db.mtx].  [Running]: the goroutine that rewrites the snapshot has not come
    to its result.  [CloneMtx]: [mtx] of the copy that it writes.  [Prune]:
    [db.pruneSnapshotLock]. *)
Inductive lock : Type := Mtx | Running | CloneMtx | Prune.
#[export] Instance lock_eq_dec : EqDecision lock.
Proof. solve_decision. Defined.
#[export] Instance lock_countable : Countable lock.
Proof.
  refine (inj_countable' (fun l => match l with Mtx => 0 | Running => 1 | CloneMtx => 2 | Prune => 3 end)
    (fun n => match n with 0 => Mtx | 1 => Running | 2 => CloneMtx | _ => Prune end) _). by intros [].
Defined.
Definition rank (l : lock) : nat := match l with Mtx => 0 | Running => 1 | CloneMtx => 2 | Prune => 3 end.

(** [Spawn q p]: start a goroutine.  [Start p q]: no rewrite is under way
    ([snapshotRewriteChan == nil]): make the channel and go on with [p], else [q].
    [Poll p q]: take the result if it can be received ([p]), else [q].  [Receive p]:
    wait for the result if a rewrite is under way. *)
Inductive prog : Type :=
| Done
| Work (p : prog)
| Lock (l : lock) (p : prog)
| Unlock (l : lock) (p : prog)
| Spawn (q p : prog)
| Start (p q : prog)
| Poll (p q : prog)
| Receive (p : prog).

(** ** The methods *)

(** The methods that hold [mtx] from their beginning to their end: [SetInitialVersion],
    [ApplyUpgrades], [ApplyChangeSets], [ApplyChangeSet], [WaitAsyncCommit], [Copy],
    [RewriteSnapshotWithContext], [Reload], [TreeByName], [Version],
    [LastCommitInfo], [SaveVersion], [WorkingCommitInfo], [UpdateCommitInfo],
    [WriteSnapshotWithContext]. *)
Definition guarded (k : prog) : prog := Lock Mtx (Work (Unlock Mtx k)).

(** The goroutine of [rewriteSnapshotBackground].  [Version] and [RewriteSnapshotWithContext]
    lock the copy; [written]: the snapshot was written; [caught]: it was loaded and caught
    up with the log.  [Unlock Running]: the result is sent, or the channel is closed. *)
Definition lock_clone (k : prog) : prog := Lock CloneMtx (Work (Unlock CloneMtx k)).
Definition rewriter (written caught : bool) : prog :=
  let send := Unlock Running Done in
  lock_clone (lock_clone
    (if written then lock_clone (Work (if caught then lock_clone send else send)) else send)).

(** What comes of a rewrite: [r_written] and [r_caught] as above. *)
Record outcome : Type := mkOutcome { r_written : bool; r_caught : bool }.

(** Another rewrite under way is an error. *)
Definition rewriteSnapshotBackground (o : outcome) (k : prog) : prog :=
  Start (Spawn (rewriter (r_written o) (r_caught o)) k) k.
Definition RewriteSnapshotBackground (readOnly : bool) (o : outcome) (k : prog) : prog :=
  Lock Mtx (if readOnly then Unlock Mtx k else rewriteSnapshotBackground o (Unlock Mtx k)).

(** [pruneSnapshots] waits for the last prune; without a log it gives the lock back,
    else the goroutine does. *)
Definition pruneSnapshots (wal : bool) (k : prog) : prog :=
  Lock Prune (if wal then Spawn (Work (Unlock Prune Done)) k else Unlock Prune k).

(** What [checkBackgroundSnapshotRewrite] makes of a result: an error, nothing, or the
    switch to the new snapshot, with the goroutine that the callback starts. *)
Inductive check (A : Type) : Type := CheckFails | CheckIgnores | Switches (wal : bool) (export : option A).
#[global] Arguments CheckFails {A}.
#[global] Arguments CheckIgnores {A}.
#[global] Arguments Switches {A} wal export.
Definition check_map {A B} (f : A -> B) (c : check A) : check B :=
  match c with CheckFails => CheckFails | CheckIgnores => CheckIgnores | Switches wal export => Switches wal (f <$> export) end.

Definition trigger (export : option prog) (k : prog) : prog := match export with Some q => Spawn q k | None => k end.
Definition checkBackgroundSnapshotRewrite (c : check prog) (fail k : prog) : prog :=
  Poll (Work match c with
             | CheckFails => fail
             | CheckIgnores => k
             | Switches wal export => pruneSnapshots wal (trigger export k)
             end) k.

(** [rewriteIfApplicable]: the height is one of the interval. *)
Definition rewriteIfApplicable (o : option outcome) (k : prog) : prog :=
  match o with Some o => rewriteSnapshotBackground o k | None => k end.

(** [Commit], after the guards for which it returns before its tasks ([guarded]). *)
Definition Commit (c : check prog) (o : option outcome) (k : prog) : prog :=
  let return_ := Unlock Mtx k in
  Lock Mtx (Work (checkBackgroundSnapshotRewrite c return_ (rewriteIfApplicable o return_))).

(** [Close] waits for the rewrite and for the prune. *)
Definition Close (k : prog) : prog :=
  Lock Mtx (Work (Receive (Lock Prune (Work (Unlock Prune (Unlock Mtx k)))))).

(** [TraverseStateChanges], [FirstVersion], [FirstStoreVersions]: the mutex only guards
    the fields they read first; [callback] is what the callback calls. *)
Definition reader (callback : prog -> prog) (k : prog) : prog := Lock Mtx (Work (Unlock Mtx (callback (Work k)))).

(** The calls of a caller, one after the other; a callback calls too. *)
Inductive call : Type :=
| Guarded
| CallRewrite (readOnly : bool) (o : outcome)
| CallCommit (c : check call) (o : option outcome)
| CallClose
| CallReader (inner : call)
| Then (a b : call)
| Nothing.

Fixpoint call_prog (c : call) (k : prog) : prog :=
  match c with
  | Guarded => guarded k
  | CallRewrite ro o => RewriteSnapshotBackground ro o k
  | CallCommit c o => Commit (check_map (fun x => call_prog x Done) c) o k
  | CallClose => Close k
  | CallReader inner => reader (call_prog inner) k
  | Then a b => call_prog a (call_prog b k)
  | Nothing => k
  end.
Definition caller (c : call) : prog := call_prog c Done.

(** ** Runs *)

(** The locks that are taken, whether [snapshotRewriteChan] is set, and the programs
    that are left.  The channel is set and [Running] is free: the goroutine waits for
    somebody who takes its result, or has closed the channel. *)
Abbreviation locks := (gset lock).
Abbreviation state := (locks * bool * list prog)%type.

(** One step of a thread, with the goroutine it starts. *)
Inductive thread_step : locks -> bool -> prog -> locks -> bool -> prog -> list prog -> Prop :=
| step_work H b p : thread_step H b (Work p) H b p []
| step_lock H b l p : l ∉ H -> thread_step H b (Lock l p) ({[l]} ∪ H) b p []
| step_unlock H b l p : thread_step H b (Unlock l p) (H ∖ {[l]}) b p []
| step_spawn H b q p : thread_step H b (Spawn q p) H b p [q]
| step_start H p q : thread_step H false (Start p q) ({[Running]} ∪ H) true p []
| step_busy H p q : thread_step H true (Start p q) H true q []
| step_taken H p q : Running ∉ H -> thread_step H true (Poll p q) H false p []
| step_default H b p q : b = false \/ Running ∈ H -> thread_step H b (Poll p q) H b q []
| step_received H p : Running ∉ H -> thread_step H true (Receive p) H false p []
| step_idle H p : thread_step H false (Receive p) H false p [].

Inductive lock_step : state -> state -> Prop :=
| step_thread H b H' b' ps1 p p' qs ps2 : thread_step H b p H' b' p' qs ->
    lock_step (H, b, ps1 ++ p :: ps2) (H', b', ps1 ++ p' :: ps2 ++ qs).

(** ** The order of the locks *)

(** [ordered H p]: a thread that has to release [H] can run [p]: it takes only locks above
    those it has, releases what it has, and hands to a goroutine what that
    releases. *)
Fixpoint ordered (H : locks) (p : prog) : Prop :=
  match p with
  | Done => H = ∅
  | Work p => ordered H p
  | Lock l p => l <> Running /\ (forall h, (h ∈ H) -> (rank h < rank l)%nat) /\ ordered ({[l]} ∪ H) p
  | Unlock l p => (l ∈ H) /\ ordered (H ∖ {[l]}) p
  | Spawn q p => exists Hq, (Hq ⊆ H) /\ ordered Hq q /\ ordered (H ∖ Hq) p
  | Start p q => (Running ∉ H) /\ ordered ({[Running]} ∪ H) p /\ ordered H q
  | Poll p q => ordered H p /\ ordered H q
  | Receive p => (forall h, (h ∈ H) -> (rank h < rank Running)%nat) /\ ordered H p
  end.

(** The taken locks are those of the threads, each of one. *)
Inductive owned_by : locks -> list prog -> Prop :=
| owned_nil : owned_by ∅ []
| owned_cons H Hp p ps : Hp ## H -> ordered Hp p -> owned_by H ps -> owned_by (Hp ∪ H) (p :: ps).

Fixpoint size_prog (p : prog) : nat :=
  match p with
  | Done => 0
  | Work p | Lock _ p | Unlock _ p | Receive p => 1 + size_prog p
  | Start p q | Poll p q | Spawn q p => 1 + size_prog p + size_prog q
  end.
Definition size_state (s : state) : nat := sum_list_with size_prog s.2.

Lemma owned_perm ps ps' : ps ≡ₚ ps' -> forall H, owned_by H ps -> owned_by H ps'.
Proof.
  induction 1 as [|p ps ps' _ IH|p q ps|ps ps1 ps' _ IH1 _ IH2]; intros H Ho; [done| | |auto].
  - inversion Ho; subst. constructor; auto.
  - inversion Ho as [|H1 Hq q' ps1 D1 O1 O2]; subst. inversion O2 as [|H2 Hp p' ps2 D2 O3 O4]; subst.
    replace (Hq ∪ (Hp ∪ H2)) with (Hp ∪ (Hq ∪ H2)) by set_solver. constructor; [set_solver|done|]. constructor; [set_solver|done|done].
Qed.

Lemma owned_split H p ps : owned_by H (p :: ps) -> exists Hp Hr, H = Hp ∪ Hr /\ Hp ## Hr /\ ordered Hp p /\ owned_by Hr ps.
Proof. inversion 1; subst. eauto 10. Qed.

(** Nobody rewrites when the channel is not set. *)
Definition idle (H : locks) (b : bool) : Prop := b = false -> Running ∉ H.

Lemma ordered_step Hp Hr b p H' b' p' qs : ordered Hp p -> Hp ## Hr -> idle (Hp ∪ Hr) b -> thread_step (Hp ∪ Hr) b p H' b' p' qs ->
  idle H' b' /\ exists Hn Hq, H' = Hn ∪ (Hq ∪ Hr) /\ Hn ## Hq ∪ Hr /\ Hq ## Hr /\ ordered Hn p' /\ owned_by Hq qs.
Proof.
  unfold idle. intros Ho Hd Hi St. inversion St; subst; cbn [ordered] in Ho; (split; [set_solver|]).
  - exists Hp, ∅. split_and!; [set_solver|set_solver|set_solver|done|constructor].
  - exists ({[l]} ∪ Hp), ∅. split_and!; [set_solver|set_solver|set_solver|apply Ho|constructor].
  - destruct Ho as [Hl Ho]. exists (Hp ∖ {[l]}), ∅. split_and!; [|set_solver|set_solver|done|constructor].
    apply leibniz_equiv. set_unfold. intros x. destruct (decide (x = l)); set_solver.
  - destruct Ho as (Hq & Hs & Oq & Op). exists (Hp ∖ Hq), Hq. split_and!; [|set_solver|set_solver|done|].
    + apply leibniz_equiv. set_unfold. intros x. destruct (decide (x ∈ Hq)); set_solver.
    + rewrite <- (union_empty_r_L Hq). constructor; [set_solver|done|constructor].
  - specialize (Hi eq_refl). exists ({[Running]} ∪ Hp), ∅. split_and!; [set_solver|set_solver|set_solver|apply Ho|constructor].
  - exists Hp, ∅. split_and!; [set_solver|set_solver|set_solver|apply Ho|constructor].
  - exists Hp, ∅. split_and!; [set_solver|set_solver|set_solver|apply Ho|constructor].
  - exists Hp, ∅. split_and!; [set_solver|set_solver|set_solver|apply Ho|constructor].
  - exists Hp, ∅. split_and!; [set_solver|set_solver|set_solver|apply Ho|constructor].
  - exists Hp, ∅. split_and!; [set_solver|set_solver|set_solver|apply Ho|constructor].
Qed.

Lemma owned_app H1 H2 ps qs : H1 ## H2 -> owned_by H1 ps -> owned_by H2 qs -> owned_by (H1 ∪ H2) (ps ++ qs).
Proof.
  intros Hd O1 O2. induction O1 as [|H Hp p ps D O _ IH]; cbn; [by rewrite union_empty_l_L|].
  rewrite <- union_assoc_L. constructor; [set_solver|done|apply IH; set_solver].
Qed.

Definition well_locked (s : state) : Prop := idle s.1.1 s.1.2 /\ owned_by s.1.1 s.2.

Lemma step_owned s s' : lock_step s s' -> well_locked s -> well_locked s'.
Proof.
  intros [H b H' b' ps1 p p' qs ps2 St] [Hi Ho]. cbn in *. apply (owned_perm _ (p :: ps1 ++ ps2)) in Ho; [|by rewrite Permutation_middle].
  apply owned_split in Ho as (Hp & Hr & -> & Hd & Op & Or).
  destruct (ordered_step _ _ _ _ _ _ _ _ Op Hd Hi St) as [Hi' (Hn & Hq & -> & D1 & D2 & On & Oq)]. split; [done|].
  apply (owned_perm (p' :: qs ++ ps1 ++ ps2)); [|constructor; [done|done|by apply owned_app]].
  rewrite (Permutation_app_comm qs), <- Permutation_middle. by rewrite <- app_assoc.
Qed.

Lemma step_shrinks s s' : lock_step s s' -> size_state s' < size_state s.
Proof.
  intros [H b H' b' ps1 p p' qs ps2 St]. unfold size_state. cbn [snd]. rewrite !sum_list_with_app. cbn [sum_list_with]. rewrite sum_list_with_app.
  inversion St; subst; cbn; lia.
Qed.

(** [waits l p]: the thread cannot go on while [l] is taken. *)
Definition waits (l : lock) (p : prog) : Prop := (exists k, p = Lock l k) \/ (l = Running /\ exists k, p = Receive k).

Lemma waits_above l p H h : waits l p -> ordered H p -> h ∈ H -> rank h < rank l.
Proof. intros [[k ->]|[-> [k ->]]]; cbn [ordered]; naive_solver. Qed.

(** A thread moves, has returned, or waits for a lock that is taken. *)
Lemma thread_moves H b p : (exists H' b' p' qs, thread_step H b p H' b' p' qs) \/ p = Done \/ exists l, waits l p /\ l ∈ H.
Proof.
  destruct p as [|p|l p|l p|q p|p q|p q|p]; [by auto|left; eauto 10 using thread_step| |left; eauto 10 using thread_step|left; eauto 10 using thread_step| | |].
  - destruct (decide (l ∈ H)); [right; right; exists l; unfold waits; eauto|left; eauto 10 using thread_step].
  - destruct b; left; eauto 10 using thread_step.
  - left. destruct b; [|eauto 10 using thread_step]. destruct (decide (Running ∈ H)); eauto 10 using thread_step.
  - destruct b; [|left; eauto 10 using thread_step].
    destruct (decide (Running ∈ H)); [right; right; exists Running; unfold waits; eauto|left; eauto 10 using thread_step].
Qed.

Lemma owner_of H ps l : owned_by H ps -> l ∈ H -> exists p Hp, p ∈ ps /\ ordered Hp p /\ l ∈ Hp.
Proof.
  induction 1 as [|H Hp p ps D O _ IH]; [set_solver|]. intros [Hl|Hl]%elem_of_union; [exists p, Hp; split_and!; [left|done|done]|].
  destruct (IH Hl) as (q & Hq & Hin & Oq & Lq). exists q, Hq. split_and!; [by right|done|done].
Qed.

(** The lock of the highest rank is not waited for by its owner. *)
Lemma nobody_waits H ps : owned_by H ps -> (forall p, p ∈ ps -> p = Done \/ exists l, waits l p /\ l ∈ H) -> H = ∅.
Proof.
  intros Ho Hb. assert (forall n l, 4 <= n + rank l -> l ∉ H) as Hn.
  { induction n as [|n IH]; intros l Hr Hl; [destruct l; cbn in Hr; lia|].
    destruct (owner_of _ _ _ Ho Hl) as (p & Hp & Hin & Op & Lp). destruct (Hb p Hin) as [->|(l' & Hw & Hl')].
    - cbn in Op. set_solver.
    - pose proof (waits_above _ _ _ _ Hw Op Lp). by apply (IH l'); [lia|]. }
  apply leibniz_equiv. intros l. split; [|set_solver]. intros Hl. destruct (Hn 4 l); [lia|done].
Qed.

Definition returned (s : state) : Prop := s.1.1 = ∅ /\ Forall (fun p => p = Done) s.2.

Lemma progress s : well_locked s -> (exists s', lock_step s s') \/ returned s.
Proof.
  destruct s as [[H b] ps]. cbn. intros [_ Ho].
  assert ((exists ps1 p ps2 H' b' p' qs, ps = ps1 ++ p :: ps2 /\ thread_step H b p H' b' p' qs) \/
          forall p, p ∈ ps -> p = Done \/ exists l, waits l p /\ l ∈ H) as [Hs|Hb].
  { clear Ho. induction ps as [|p ps IH]; [right; intros p Hp; by apply not_elem_of_nil in Hp|].
    destruct (thread_moves H b p) as [(H' & b' & p' & qs & St)|Hp]; [left; exists [], p, ps; eauto 10|].
    destruct IH as [(ps1 & q & ps2 & H' & b' & p' & qs & -> & St)|IH].
    - left. exists (p :: ps1), q, ps2. eauto 10.
    - right. intros q [->|Hq]%elem_of_cons; auto. }
  - left. destruct Hs as (ps1 & p & ps2 & H' & b' & p' & qs & -> & St). eexists. by constructor.
  - right. cbn in Ho. pose proof (nobody_waits _ _ Ho Hb) as ->. split; [done|]. apply Forall_forall. intros p Hp.
    destruct (Hb p Hp) as [|(l & _ & Hl)]; [done|set_solver].
Qed.

(** ** The methods keep the order *)

Lemma ordered_eq H H' p : ordered H p -> H = H' -> ordered H' p.
Proof. by intros ? <-. Qed.

Lemma ordered_work H p : ordered H p -> ordered H (Work p).
Proof. done. Qed.

Ltac same_locks := apply leibniz_equiv; intros x; destruct x; set_unfold; naive_solver.
Ltac below := intros h Hh; destruct h; set_unfold; cbn; first [lia|naive_solver].
Ltac order_step :=
  match goal with
  | |- ordered _ Done => same_locks
  | |- ordered _ (Work _) => apply ordered_work
  | |- ordered _ (Lock _ _) => split; [done|split; [below|]]
  | |- ordered _ (Poll _ _) => split
  | |- ordered _ (Receive _) => split; [below|]
  | |- ordered _ (Unlock _ _) => split; [set_solver|]
  end.

Ltac order := repeat order_step; try (eapply ordered_eq; [eassumption|same_locks]).

Lemma rewriter_ordered w c : ordered {[Running]} (rewriter w c).
Proof. unfold rewriter, lock_clone. destruct w, c; order. Qed.

Lemma rewrite_ordered o k : ordered {[Mtx]} k -> ordered {[Mtx]} (rewriteSnapshotBackground o k).
Proof.
  intros Hk. unfold rewriteSnapshotBackground. split_and!; [set_solver| |done]. exists {[Running]}. split_and!; [set_solver|apply rewriter_ordered|].
  eapply ordered_eq; [exact Hk|same_locks].
Qed.

Lemma prune_ordered wal k : ordered {[Mtx]} k -> ordered {[Mtx]} (pruneSnapshots wal k).
Proof.
  intros Hk. unfold pruneSnapshots. order_step. destruct wal; [|by order]. exists {[Prune]}. split_and!; [set_solver|order|].
  eapply ordered_eq; [exact Hk|same_locks].
Qed.

Lemma Unlock_ordered k : ordered ∅ k -> ordered {[Mtx]} (Unlock Mtx k).
Proof. intros Hk. order. Qed.

Lemma Lock_ordered k : ordered {[Mtx]} k -> ordered ∅ (Lock Mtx k).
Proof. intros Hk. order. Qed.

(** The goroutines that a commit starts hold nothing. *)
Definition exports (P : prog -> Prop) (c : check prog) : Prop := match c with Switches _ (Some q) => P q | _ => True end.

Lemma Commit_ordered c o k : exports (ordered ∅) c -> ordered ∅ k -> ordered ∅ (Commit c o k).
Proof.
  intros Hc Hk%Unlock_ordered. apply Lock_ordered, ordered_work.
  assert (ordered {[Mtx]} (rewriteIfApplicable o (Unlock Mtx k))) as Hr by (destruct o; [by apply rewrite_ordered|done]).
  split; [|done]. apply ordered_work. destruct c as [| |wal [q|]]; auto using prune_ordered. apply prune_ordered. exists ∅. split_and!; [set_solver|done|].
  eapply ordered_eq; [exact Hr|same_locks].
Qed.

Fixpoint call_ordered (c : call) : forall k, ordered ∅ k -> ordered ∅ (call_prog c k).
Proof.
  destruct c as [|ro o|c o| |c|a b|]; intros k Hk; cbn [call_prog]; [| | | | |by apply call_ordered, call_ordered|done].
  - unfold guarded. order.
  - apply Lock_ordered. destruct ro; [|apply rewrite_ordered]; by apply Unlock_ordered.
  - apply Commit_ordered; [|done]. destruct c as [| |wal [x|]]; cbn; [done..| |done]. by apply call_ordered.
  - unfold Close. order.
  - unfold reader. pose proof (call_ordered c (Work k) Hk). order.
Qed.

(** ** Properties *)

Definition start (cs : list call) : state := (∅, false, caller <$> cs).

Lemma start_owned cs : well_locked (start cs).
Proof.
  split; [intros _; cbn; set_solver|]. cbn. induction cs as [|c cs IH]; [constructor|]. cbn. rewrite <- (union_empty_r_L ∅).
  constructor; [set_solver|by apply call_ordered|done].
Qed.

Lemma steps_owned n s s' : nsteps lock_step n s s' -> well_locked s -> well_locked s' /\ n + size_state s' <= size_state s.
Proof.
  induction 1 as [s|n s1 s2 s3 St _ IH]; intros Ho; [split; [done|lia]|]. pose proof (step_shrinks _ _ St).
  destruct (IH (step_owned _ _ St Ho)). split; [done|lia].
Qed.


(** A commit that switches and rewrites while another caller closes. *)
Definition sample_calls : list call := [CallCommit (Switches true (Some Guarded)) (Some (mkOutcome true true)); CallClose].

