(* ===== verification/Changeset.v ===== *)
(** Change set files of versiondb: [versiondb/client/changeset.go].

    A file is a sequence of versions, each a header (version and payload size)
    with the encoded key-value pairs.  A reader is the bytes that are left to
    read; reading returns the rest.  Compression and the files themselves are
    not modelled.

    Theorems: what is written is read back, pair by pair, version by version
    and file by file, whether the payload is parsed or skipped; a file cut
    anywhere yields its complete versions and their length. *)
From stdpp Require Import prelude strings sorting.
From Stdlib Require Import ZArith Lia.
From S2P Require Import Prelude OrdMap Codec Tree.
Local Open Scope Z_scope.

(** ** Sizes *)

(** [bits.Len64] *)
Definition Len64 (num : Z) : Z := if num <=? 0 then 0 else Z.log2 num + 1.

Definition uvarintSize (num : Z) : Z :=
  let b := Len64 num in
  let q := b / 7 in
  let r := b mod 7 in
  if (0 <? r) || (q =? 0) then q + 1 else q.

(** The length of a slice; nil has length 0. *)
Definition slice_bytes (v : slice) : bytes := default [] v.

Definition encodedSizeOfKVPair (p : KVPair) : Z :=
  let keyLen := len (p_key p) in
  let size := 1 + uvarintSize keyLen + keyLen in
  if p_delete p then size
  else let valueLen := len (slice_bytes (p_value p)) in size + uvarintSize valueLen + valueLen.

(** ** Pairs *)

(** [copy(buf[offset:], data)]: as much as there is room for. *)
Definition copy_at (buf : bytes) (offset : Z) (data : bytes) : bytes :=
  let o := Z.to_nat offset in
  take o buf ++ take (length buf - o) data ++ drop (o + length data) buf.

Definition encodeKVPair (p : KVPair) : bytes :=
  let buf := repeat (z2b 0) (Z.to_nat (encodedSizeOfKVPair p)) in
  let n1 := PutUvarint (len (p_key p)) in
  let buf := copy_at buf 1 n1 in
  let offset := 1 + len n1 in
  let buf := copy_at buf offset (p_key p) in
  if p_delete p then copy_at buf 0 [z2b 1]
  else
    let offset := offset + len (p_key p) in
    let n2 := PutUvarint (len (slice_bytes (p_value p))) in
    let buf := copy_at buf offset n2 in
    copy_at buf (offset + len n2) (slice_bytes (p_value p)).

(** [make] refuses sizes that the address space cannot hold. *)
Definition maxAlloc : Z := 2 ^ 48.
Definition make_slice (n : Z) : res unit := if maxAlloc <? n then Panic "makeslice: len out of range" else Ok tt.

Definition readKVPair (reader : bytes) : res (KVPair * bytes) :=
  let* (deletion, reader) := ReadByte reader in
  let* (keyLen, reader) := ReadUvarint reader in
  let delete := b2z deletion =? 1 in
  let* _ := make_slice keyLen in
  let* (key, reader) := ReadFull keyLen reader in
  if delete then Ok (mkKVPair delete key None, reader)
  else
    let* (valueLen, reader) := ReadUvarint reader in
    let* _ := make_slice valueLen in
    let* (value, reader) := ReadFull valueLen reader in
    Ok (mkKVPair delete key (Some value), reader).

(** ** Versions *)

Definition WriteChangeSet (version : Z) (cs : ChangeSet) : bytes :=
  let items := encodeKVPair <$> cs in
  let size := fold_left (fun size item => size + len item) items 0 in
  PutUint64 (u64 version) ++ PutUint64 (u64 size) ++ concat items.

(** [for offset < size]; every pair takes a byte, so the number of bytes left
    bounds the rounds. *)
Fixpoint read_pairs (fuel : nat) (size offset : Z) (acc : ChangeSet) (reader : bytes) : res (Z * ChangeSet * bytes) :=
  if size <=? offset then Ok (offset, acc, reader)
  else
    match fuel with
    | O => Err "out of fuel"
    | S fuel =>
        let* (p, reader) := readKVPair reader in
        read_pairs fuel size (offset + encodedSizeOfKVPair p) (acc ++ [p]) reader
    end.

(** [io.CopyN(io.Discard, reader, n)]. *)
Definition discard (n : Z) (reader : bytes) : res bytes :=
  if n <=? len reader then Ok (drop (Z.to_nat n) reader) else Err "EOF".

(** The version, the number of bytes read, the change set and the rest. *)
Definition ReadChangeSet (reader : bytes) (parseChangeset : bool) : res (Z * Z * ChangeSet * bytes) :=
  let* (versionHeader, reader) := ReadFull 16 reader in
  let version := le_decode (take 8 versionHeader) in
  let size := i64 (le_decode (drop 8 versionHeader)) in
  if size =? 0 then Ok (i64 version, 16, [], reader)
  else if parseChangeset then
    let* (r, reader) := read_pairs (length reader + 1) size 0 [] reader in
    let (offset, cs) := r : Z * ChangeSet in
    if offset =? size then Ok (i64 version, i64 (size + 16), cs, reader)
    else Err "read beyond payload size limit"
  else
    let* reader := discard size reader in
    Ok (i64 version, i64 (size + 16), [], reader).

(** ** Files *)

(** An end of file ends an iteration without error. *)
Definition eof_is_end (e : string) : option string := if decide (e = "EOF"%string) then None else Some e.

Section Iterate.
Context {S : Type}.

(** The result of an iteration: the state of the callback, the length of the
    complete versions, the error, or a panic. *)
Definition iteration : Type := res (S * Z * option string).

(** [for cont]: a version takes at least the 16 bytes of its header, so the
    number of bytes bounds the rounds. *)
Fixpoint iterate (fuel : nat) (parse : bool) (fn : S -> Z -> ChangeSet -> S * (bool * option string))
  (s : S) (lastCompleteOffset : Z) (reader : bytes) : iteration :=
  match fuel with
  | O => Err "out of fuel"
  | Datatypes.S fuel =>
      match ReadChangeSet reader parse with
      | Ok (version, offset, cs, reader) =>
          match fn s version cs with
          | (s, (_, Some e)) => Ok (s, lastCompleteOffset, eof_is_end e)
          | (s, (cont, None)) =>
              let lastCompleteOffset := i64 (lastCompleteOffset + offset) in
              if cont then iterate fuel parse fn s lastCompleteOffset reader else Ok (s, lastCompleteOffset, None)
          end
      | Err e => Ok (s, lastCompleteOffset, eof_is_end e)
      | Panic m => Panic m
      end
  end.

Definition IterateChangeSets (reader : bytes) (fn : S -> Z -> ChangeSet -> S * (bool * option string)) (s : S) : iteration :=
  iterate (length reader + 1) true fn s 0 reader.

Definition IterateVersions (reader : bytes) (fn : S -> Z -> S * (bool * option string)) (s : S) : iteration :=
  iterate (length reader + 1) false (fun s version _ => fn s version) s 0 reader.
End Iterate.

(** [ReadFirstVersion] of an opened file. *)
Definition ReadFirstVersion (data : bytes) : res Z :=
  let* (versionBuf, _) := ReadFull 8 data in Ok (le_decode versionBuf).

(** The files with their contents; [None] cannot be opened. *)
Fixpoint first_versions (files : list (bytes * option bytes)) : res (list (bytes * Z)) :=
  match files with
  | [] => Ok []
  | (fileName, data) :: files =>
      match data ≫= fun d => Some (ReadFirstVersion d) with
      | Some (Ok v) => let* r := first_versions files in Ok ((fileName, v) :: r)
      | Some (Err e) => if decide (e = "EOF"%string) then first_versions files else Err e
      | Some (Panic m) => Panic m
      | None => Err "file does not exist"
      end
  end.

Definition version_le (a b : bytes * Z) : Prop := a.2 <= b.2.
#[export] Instance version_le_dec a b : Decision (version_le a b).
Proof. unfold version_le. apply _. Defined.

Definition SortFilesByFirstVerson (files : list (bytes * option bytes)) : res (list (bytes * Z)) :=
  let* nonEmptyFiles := first_versions files in Ok (merge_sort version_le nonEmptyFiles).

(** ** Lengths *)

Lemma Len64_shift x : 128 <= x -> Len64 x = Len64 (Z.shiftr x 7) + 7.
Proof.
  intros Hx. rewrite Z.shiftr_div_pow2 by lia. change (2 ^ 7) with 128.
  assert (1 <= x / 128) by (apply Z.div_le_lower_bound; lia). unfold Len64.
  destruct (Z.leb_spec x 0), (Z.leb_spec (x / 128) 0); try lia.
  change 128 with (2 ^ 7). rewrite <- Z.shiftr_div_pow2, Z.log2_shiftr by lia.
  assert (7 <= Z.log2 x) by (change 7 with (Z.log2 128); apply Z.log2_le_mono; lia). lia.
Qed.

Lemma Len64_small x : 0 <= x < 128 -> 0 <= Len64 x <= 7.
Proof.
  intros Hx. unfold Len64. destruct (Z.leb_spec x 0); [lia|]. pose proof (Z.log2_nonneg x).
  assert (Z.log2 x < 7) by (apply Z.log2_lt_pow2; lia). lia.
Qed.

Lemma Len64_nonneg x : 0 <= Len64 x.
Proof. unfold Len64. destruct (Z.leb_spec x 0); [lia|]. pose proof (Z.log2_nonneg x). lia. Qed.

Lemma Len64_pos x : 0 < x -> 0 < Len64 x.
Proof. intros Hx. unfold Len64. destruct (Z.leb_spec x 0); [lia|]. pose proof (Z.log2_nonneg x). lia. Qed.

Lemma uvarintSize_small x : 0 <= x < 128 -> uvarintSize x = 1.
Proof.
  intros Hx%Len64_small. unfold uvarintSize. set (b := Len64 x) in *.
  assert (b = 7 \/ b < 7) as [->|Hb] by lia; [done|]. rewrite Z.div_small by lia. by rewrite orb_true_r.
Qed.

Lemma uvarintSize_step x : 128 <= x -> uvarintSize x = 1 + uvarintSize (Z.shiftr x 7).
Proof.
  intros Hx. unfold uvarintSize. rewrite Len64_shift by done.
  assert (0 < Len64 (Z.shiftr x 7)) as Hp.
  { apply Len64_pos. rewrite Z.shiftr_div_pow2 by lia. apply Z.div_str_pos. lia. }
  set (b := Len64 (Z.shiftr x 7)) in *. replace (b + 7) with (b + 1 * 7) by lia. rewrite Z.div_add, Z.mod_add by lia.
  pose proof (Z.div_mod b 7) as Hdm. pose proof (Z.mod_pos_bound b 7).
  destruct (Z.ltb_spec 0 (b mod 7)), (Z.eqb_spec (b / 7 + 1) 0), (Z.eqb_spec (b / 7) 0); cbn [orb]; lia.
Qed.

Lemma len_put_uvarint f x : (1 <= f)%nat -> 0 <= x < 2 ^ (7 * Z.of_nat f) -> len (put_uvarint f x) = uvarintSize x.
Proof.
  revert x. induction f as [|f IH]; intros x Hf Hx; [lia|]. cbn [put_uvarint]. destruct (Z.ltb_spec x 128).
  - by rewrite uvarintSize_small by lia.
  - rewrite len_cons, uvarintSize_step by lia.
    assert (1 <= f)%nat by (destruct f; [change (2 ^ (7 * Z.of_nat 1)) with 128 in Hx|]; lia).
    f_equal. apply IH; [done|]. rewrite Z.shiftr_div_pow2 by lia.
    split; [apply Z.div_pos; lia|]. apply Z.div_lt_upper_bound; [lia|]. rewrite <- Z.pow_add_r by lia.
    replace (7 + 7 * Z.of_nat f) with (7 * Z.of_nat (S f)) by lia. apply Hx.
Qed.

Lemma len_PutUvarint x : 0 <= x < 2 ^ 64 -> len (PutUvarint x) = uvarintSize x.
Proof. intros Hx. apply len_put_uvarint; [unfold MaxVarintLen64; lia|]. change (7 * Z.of_nat MaxVarintLen64) with 70. lia. Qed.

(** ** Pairs *)

(** Lengths that fit into memory. *)
Definition pair_fits (p : KVPair) : Prop := len (p_key p) <= maxAlloc /\ len (slice_bytes (p_value p)) <= maxAlloc.

(** What a reader gets: a deletion has no value, and nil reads as empty. *)
Definition read_as (p : KVPair) : KVPair :=
  mkKVPair (p_delete p) (p_key p) (if p_delete p then None else Some (slice_bytes (p_value p))).

Lemma copy_at_mid a b c d o : o = len a -> length d = length b -> copy_at (a ++ b ++ c) o d = a ++ d ++ c.
Proof.
  intros -> Hl. unfold copy_at, len. rewrite Nat2Z.id, take_app_length. f_equal.
  rewrite !length_app, (take_ge d) by lia. f_equal. rewrite <- drop_drop, drop_app_length, Hl. by rewrite drop_app_length.
Qed.

(** The side conditions of [copy_at_mid]. *)
Ltac side := first [by rewrite repeat_length | rewrite ?len_app; change (len [z2b 0]) with 1; lia].

Lemma encodeKVPair_layout p : pair_fits p ->
  encodeKVPair p = z2b (if p_delete p then 1 else 0) :: PutUvarint (len (p_key p)) ++ p_key p ++
    (if p_delete p then [] else PutUvarint (len (slice_bytes (p_value p))) ++ slice_bytes (p_value p)).
Proof.
  intros [Hk Hv]. unfold maxAlloc in *. unfold encodeKVPair, encodedSizeOfKVPair.
  pose proof (len_nonneg (p_key p)). pose proof (len_nonneg (slice_bytes (p_value p))).
  rewrite <- !len_PutUvarint by lia. set (n1 := PutUvarint (len (p_key p))) in *.
  set (n2 := PutUvarint (len (slice_bytes (p_value p)))) in *. set (k := p_key p) in *. set (v := slice_bytes (p_value p)) in *.
  destruct (p_delete p).
  - replace (Z.to_nat (1 + len n1 + len k)) with (1 + (length n1 + (length k + 0)))%nat by (unfold len; lia).
    rewrite !repeat_app. change (repeat (z2b 0) 1%nat) with [z2b 0]. change (repeat (z2b 0) 0%nat) with (@nil byte).
    rewrite (copy_at_mid [z2b 0]) by side.
    change ([z2b 0] ++ n1 ++ repeat (z2b 0) (length k) ++ []) with (([z2b 0] ++ n1) ++ repeat (z2b 0) (length k) ++ []).
    rewrite (copy_at_mid ([z2b 0] ++ n1)) by side.
    change (([z2b 0] ++ n1) ++ k ++ []) with ([] ++ [z2b 0] ++ (n1 ++ k ++ [])). by rewrite (copy_at_mid []).
  - replace (Z.to_nat (1 + len n1 + len k + len n2 + len v)) with (1 + (length n1 + (length k + (length n2 + (length v + 0)))))%nat
      by (unfold len; lia).
    rewrite !repeat_app. change (repeat (z2b 0) 1%nat) with [z2b 0]. change (repeat (z2b 0) 0%nat) with (@nil byte).
    rewrite (copy_at_mid [z2b 0]) by side. rewrite (app_assoc [z2b 0]).
    rewrite (copy_at_mid ([z2b 0] ++ n1)) by side. rewrite (app_assoc ([z2b 0] ++ n1)).
    rewrite (copy_at_mid (([z2b 0] ++ n1) ++ k)) by side.
    rewrite (app_assoc (([z2b 0] ++ n1) ++ k)).
    rewrite (copy_at_mid ((([z2b 0] ++ n1) ++ k) ++ n2)) by side.
    rewrite app_nil_r, <- !app_assoc. done.
Qed.

Lemma len_encodeKVPair p : pair_fits p -> len (encodeKVPair p) = encodedSizeOfKVPair p.
Proof.
  intros Hf. rewrite encodeKVPair_layout by done. destruct Hf as [Hk Hv]. unfold maxAlloc in *.
  pose proof (len_nonneg (p_key p)). pose proof (len_nonneg (slice_bytes (p_value p))).
  unfold encodedSizeOfKVPair. rewrite len_cons, !len_app, len_PutUvarint by lia.
  destruct (p_delete p); [rewrite len_nil; lia|]. rewrite len_app, len_PutUvarint by lia. lia.
Qed.

Lemma readKVPair_encode p rest : pair_fits p -> readKVPair (encodeKVPair p ++ rest) = Ok (read_as p, rest).
Proof.
  intros Hf. rewrite encodeKVPair_layout by done. destruct Hf as [Hk Hv]. unfold maxAlloc in *.
  pose proof (len_nonneg (p_key p)). pose proof (len_nonneg (slice_bytes (p_value p))).
  unfold readKVPair. rewrite <- app_comm_cons, <- !app_assoc. cbn [ReadByte res_bind].
  rewrite ReadUvarint_Put by lia. cbn [res_bind]. unfold make_slice, maxAlloc.
  destruct (Z.ltb_spec (2 ^ 48) (len (p_key p))); [lia|]. cbn [res_bind]. rewrite ReadFull_app by done. cbn [res_bind].
  unfold read_as. destruct (p_delete p); [done|]. change (b2z (z2b 0) =? 1) with false. cbv iota.
  rewrite <- !app_assoc, ReadUvarint_Put by lia. cbn [res_bind].
  destruct (Z.ltb_spec (2 ^ 48) (len (slice_bytes (p_value p)))); [lia|]. cbn [res_bind]. by rewrite ReadFull_app.
Qed.

(** ** Versions *)

Definition payload (cs : ChangeSet) : bytes := concat (encodeKVPair <$> cs).

Lemma size_read_as p : encodedSizeOfKVPair (read_as p) = encodedSizeOfKVPair p.
Proof. unfold encodedSizeOfKVPair, read_as. by destruct p as [[] k []]. Qed.

Lemma uvarintSize_pos x : 0 <= x -> 1 <= uvarintSize x.
Proof.
  intros Hx. unfold uvarintSize. pose proof (Len64_nonneg x). assert (0 <= Len64 x / 7) by (apply Z.div_pos; lia).
  destruct (Z.ltb_spec 0 (Len64 x mod 7)), (Z.eqb_spec (Len64 x / 7) 0); cbn [orb]; lia.
Qed.

Lemma size_pos p : 1 <= encodedSizeOfKVPair p.
Proof.
  unfold encodedSizeOfKVPair. pose proof (len_nonneg (p_key p)). pose proof (len_nonneg (slice_bytes (p_value p))).
  pose proof (uvarintSize_pos (len (p_key p))). pose proof (uvarintSize_pos (len (slice_bytes (p_value p)))).
  destruct (p_delete p); lia.
Qed.

Lemma payload_cons p cs : payload (p :: cs) = encodeKVPair p ++ payload cs.
Proof. done. Qed.

Lemma payload_length cs : Forall pair_fits cs -> (length cs <= length (payload cs))%nat.
Proof.
  induction 1 as [|p cs Hp _ IH]; [done|]. rewrite payload_cons, length_app. pose proof (len_encodeKVPair p Hp) as E.
  pose proof (size_pos p). unfold len in E. cbn [length]. lia.
Qed.

Lemma read_pairs_payload cs : Forall pair_fits cs -> forall fuel offset acc rest, (length cs <= fuel)%nat ->
  read_pairs fuel (offset + len (payload cs)) offset acc (payload cs ++ rest) =
    Ok (offset + len (payload cs), acc ++ (read_as <$> cs), rest).
Proof.
  induction 1 as [|p cs Hp _ IH]; intros fuel offset acc rest Hf.
  { change (payload []) with (@nil byte). rewrite len_nil, Z.add_0_r, fmap_nil, app_nil_r. unfold read_pairs.
    destruct fuel; by rewrite (proj2 (Z.leb_le offset offset)) by lia. }
  destruct fuel as [|fuel]; [cbn in Hf; lia|]. rewrite payload_cons, len_app, (len_encodeKVPair p Hp).
  pose proof (size_pos p). pose proof (len_nonneg (payload cs)). cbn [read_pairs].
  rewrite (proj2 (Z.leb_gt _ offset)) by lia. rewrite <- app_assoc, readKVPair_encode by done. cbn [res_bind].
  rewrite size_read_as, Z.add_assoc, IH by (cbn in Hf; lia). by rewrite fmap_cons, <- app_assoc.
Qed.

Lemma WriteChangeSet_layout v cs : WriteChangeSet v cs = PutUint64 (u64 v) ++ PutUint64 (u64 (len (payload cs))) ++ payload cs.
Proof.
  unfold WriteChangeSet, payload. do 2 f_equal.
  assert (forall l n, fold_left (fun size (item : bytes) => size + len item) l n = n + len (concat l)) as ->; [|done].
  induction l as [|x l IH]; intros n; [cbn [fold_left concat]; rewrite len_nil; lia|].
  cbn [fold_left concat]. rewrite IH, len_app. lia.
Qed.

Definition version_ok (v : Z) : Prop := - 2 ^ 63 <= v < 2 ^ 63.
(** A version whose pairs fit and whose length is an [int64]. *)
Definition set_fits (x : Z * ChangeSet) : Prop :=
  version_ok x.1 /\ Forall pair_fits x.2 /\ len (payload x.2) + 16 < 2 ^ 63.

Lemma i64_u64 v : version_ok v -> i64 (u64 v) = v.
Proof. unfold version_ok, i64, u64. intros Hv. rewrite Zplus_mod_idemp_l, Z.mod_small; lia. Qed.

Lemma header_split v n rest : ReadFull 16 (PutUint64 v ++ PutUint64 n ++ rest) = Ok (PutUint64 v ++ PutUint64 n, rest).
Proof. rewrite app_assoc. apply ReadFull_app. by rewrite len_app. Qed.

Lemma header_decode v n : 0 <= v < 2 ^ 64 -> 0 <= n < 2 ^ 64 ->
  le_decode (take 8 (PutUint64 v ++ PutUint64 n)) = v /\ le_decode (drop 8 (PutUint64 v ++ PutUint64 n)) = n.
Proof.
  intros Hv Hn. assert (length (PutUint64 v) = 8%nat) as Hl by apply length_le_encode.
  rewrite take_app_length', drop_app_length' by done. unfold PutUint64. rewrite !le_decode_encode.
  change (8 * Z.of_nat 8) with 64. split; apply Z.mod_small; lia.
Qed.

Lemma ReadChangeSet_write v cs rest parse : set_fits (v, cs) ->
  ReadChangeSet (WriteChangeSet v cs ++ rest) parse =
    Ok (v, len (WriteChangeSet v cs), if parse then read_as <$> cs else [], rest).
Proof.
  intros (Hv & Hcs & Hlen). cbn [fst snd] in Hv, Hcs, Hlen. pose proof (len_nonneg (payload cs)) as Hp.
  rewrite WriteChangeSet_layout, <- !app_assoc. unfold ReadChangeSet. rewrite header_split. cbn [res_bind].
  destruct (header_decode (u64 v) (u64 (len (payload cs)))) as [-> ->]; [apply u64_range..|].
  rewrite (i64_u64 v), (i64_u64 (len (payload cs))), (u64_small (len (payload cs))) by (done || (unfold version_ok; lia)).
  assert (len (PutUint64 (u64 v) ++ PutUint64 (len (payload cs)) ++ payload cs) = len (payload cs) + 16) as ->.
  { rewrite !len_app. unfold PutUint64. rewrite !len_le_encode. lia. }
  destruct (Z.eqb_spec (len (payload cs)) 0) as [E0|E0].
  { destruct cs as [|p cs].
    - change (payload []) with (@nil byte). cbn. by destruct parse.
    - apply Forall_cons in Hcs as [Hp0 _]. rewrite payload_cons, len_app, len_encodeKVPair in E0 by done.
      pose proof (size_pos p). pose proof (len_nonneg (payload cs)). lia. }
  destruct parse.
  - pose proof (payload_length cs Hcs). change (len (payload cs)) with (0 + len (payload cs)) at 1.
    rewrite read_pairs_payload by (done || (rewrite length_app; lia)). cbn [res_bind]. rewrite Z.add_0_l, Z.eqb_refl.
    by rewrite i64_small by lia.
  - unfold discard. rewrite len_app. pose proof (len_nonneg rest). rewrite (proj2 (Z.leb_le _ _)) by lia. cbn [res_bind].
    replace (Z.to_nat (len (payload cs))) with (length (payload cs)) by (unfold len; lia). rewrite drop_app_length. by rewrite i64_small by lia.
Qed.

(** ** Files *)

Definition file_of (vs : list (Z * ChangeSet)) : bytes := concat ((fun x => WriteChangeSet x.1 x.2) <$> vs).

(** What an iteration over a file should do. *)
Fixpoint visit {S} (parse : bool) (fn : S -> Z -> ChangeSet -> S * (bool * option string)) (s : S) (offset : Z)
  (vs : list (Z * ChangeSet)) (err : option string) : S * Z * option string :=
  match vs with
  | [] => (s, offset, err)
  | (v, cs) :: vs =>
      match fn s v (if parse then read_as <$> cs else []) with
      | (s, (_, Some e)) => (s, offset, eof_is_end e)
      | (s, (cont, None)) =>
          let offset := offset + len (WriteChangeSet v cs) in
          if cont then visit parse fn s offset vs err else (s, offset, None)
      end
  end.

Lemma file_cons v cs vs : file_of ((v, cs) :: vs) = WriteChangeSet v cs ++ file_of vs.
Proof. done. Qed.

Lemma iterate_file {S} parse (fn : S -> Z -> ChangeSet -> S * (bool * option string)) tail e vs :
  Forall set_fits vs -> ReadChangeSet tail parse = Err e -> forall fuel s offset,
  (length vs < fuel)%nat -> 0 <= offset -> offset + len (file_of vs) < 2 ^ 63 ->
  iterate fuel parse fn s offset (file_of vs ++ tail) = Ok (visit parse fn s offset vs (eof_is_end e)).
Proof.
  intros Hvs Ht. induction Hvs as [|[v cs] vs Hv _ IH]; intros fuel s offset Hf Ho Hl.
  { destruct fuel as [|fuel]; [lia|]. change (file_of []) with (@nil byte). cbn [app iterate]. by rewrite Ht. }
  destruct fuel as [|fuel]; [lia|]. rewrite file_cons, len_app in Hl. rewrite file_cons, <- app_assoc. cbn [iterate visit].
  rewrite ReadChangeSet_write by done. destruct (fn s v _) as [s' [cont [e'|]]]; [done|].
  pose proof (len_nonneg (file_of vs)). pose proof (len_nonneg (WriteChangeSet v cs)). rewrite i64_small by lia.
  destruct cont; [|done]. apply IH; [cbn in Hf; lia|lia|lia].
Qed.

(** ** Torn files *)

(** The two errors of a reader that ends early. *)
Definition ends_early {A} (r : res A) : Prop := r = Err "EOF" \/ r = Err "unexpected EOF".

Lemma ends_early_bind {A B} (r : res A) (f : A -> res B) : ends_early r -> ends_early (res_bind r f).
Proof. intros [->| ->]; [by left|by right]. Qed.

Lemma ReadFull_torn n b : len b < n -> ends_early (ReadFull n b).
Proof. intros Hl. unfold ReadFull. rewrite decide_False by lia. destruct (decide _); [by left|by right]. Qed.

Lemma uvarint_torn f : forall i s acc x n, (f + i = MaxVarintLen64)%nat -> 0 <= x -> (n < length (put_uvarint f x))%nat ->
  uvarint_loop i s acc (take n (put_uvarint f x)) = UvTruncated (i + n).
Proof.
  induction f as [|f IH]; intros i s acc x n Hf Hx Hn; [cbn in Hn; lia|].
  destruct n as [|n]; [by rewrite Nat.add_0_r|]. cbn [put_uvarint] in *. destruct (Z.ltb_spec x 128); [cbn in Hn; lia|].
  cbn [take uvarint_loop]. rewrite decide_False by lia. rewrite lor_128_byte by done.
  destruct (Z.ltb_spec (128 + x mod 128) 128); [dlia|]. rewrite IH.
  - f_equal. lia.
  - lia.
  - apply Z.shiftr_nonneg. lia.
  - cbn in Hn. lia.
Qed.

Lemma ReadUvarint_torn x n : 0 <= x -> (n < length (PutUvarint x))%nat -> ends_early (ReadUvarint (take n (PutUvarint x))).
Proof.
  intros Hx Hn. unfold ReadUvarint, uvarint, PutUvarint. rewrite uvarint_torn by done. destruct n; [by left|by right].
Qed.

(** A strict beginning of a concatenation ends in the first or in the second part. *)
Lemma take_split {A} n (a b : list A) :
  (n < length a /\ take n (a ++ b) = take n a)%nat \/ exists m, n = (length a + m)%nat /\ take n (a ++ b) = a ++ take m b.
Proof.
  destruct (decide (n < length a)%nat) as [Hn|Hn]; [left; split; [done|]; by rewrite take_app_le by lia|].
  right. exists (n - length a)%nat. split; [lia|]. rewrite take_app_ge by lia. done.
Qed.

Lemma read_bytes_torn {B} bz tail n (f : bytes * bytes -> res B) : len bz <= maxAlloc ->
  (n < length (PutUvarint (len bz) ++ bz ++ tail))%nat ->
  (forall m, (m < length tail)%nat -> ends_early (f (bz, take m tail))) ->
  ends_early (let* (k, r) := ReadUvarint (take n (PutUvarint (len bz) ++ bz ++ tail)) in
              let* _ := make_slice k in let* x := ReadFull k r in f x).
Proof.
  intros Hb Hn Hf. unfold maxAlloc in *. pose proof (len_nonneg bz).
  destruct (take_split n (PutUvarint (len bz)) (bz ++ tail)) as [[Hlt ->]|(m & -> & ->)].
  { apply ends_early_bind. by apply ReadUvarint_torn. }
  rewrite ReadUvarint_Put by lia. cbn [res_bind]. unfold make_slice, maxAlloc. rewrite (proj2 (Z.ltb_ge (2 ^ 48) _)) by lia. cbn [res_bind].
  rewrite !length_app in Hn. destruct (take_split m bz tail) as [[Hlt ->]|(m' & -> & ->)].
  { apply ends_early_bind, ReadFull_torn. unfold len. rewrite length_take. lia. }
  rewrite ReadFull_app by done. cbn [res_bind]. apply Hf. lia.
Qed.

Lemma readKVPair_torn p n : pair_fits p -> (n < length (encodeKVPair p))%nat -> ends_early (readKVPair (take n (encodeKVPair p))).
Proof.
  intros Hf Hn. rewrite encodeKVPair_layout in * by done. destruct Hf as [Hk Hv].
  destruct n as [|n]; [by left|]. cbn [take]. cbn [length] in Hn. unfold readKVPair. cbn [ReadByte res_bind].
  apply (read_bytes_torn (p_key p) _ n (fun '(key, reader) => _)); [done|lia|]. intros m Hm.
  destruct (p_delete p); [cbn in Hm; lia|]. change (b2z (z2b 0) =? 1) with false. cbv iota.
  set (v := slice_bytes (p_value p)) in *.
  replace (PutUvarint (len v) ++ v) with (PutUvarint (len v) ++ v ++ []) in Hm |- * by by rewrite app_nil_r.
  apply (read_bytes_torn v [] m (fun '(value, reader) => _)); [done|done|]. intros m' Hm'. cbn in Hm'. lia.
Qed.

Lemma read_pairs_torn cs : Forall pair_fits cs -> forall n fuel offset acc,
  (n < length (payload cs))%nat -> (n < fuel)%nat ->
  ends_early (read_pairs fuel (offset + len (payload cs)) offset acc (take n (payload cs))).
Proof.
  induction 1 as [|p cs Hp _ IH]; intros n fuel offset acc Hn Hf; [cbn in Hn; lia|].
  destruct fuel as [|fuel]; [lia|]. rewrite payload_cons, length_app in Hn.
  rewrite payload_cons, len_app, (len_encodeKVPair p Hp). pose proof (size_pos p) as Hs. pose proof (len_nonneg (payload cs)).
  pose proof (len_encodeKVPair p Hp) as He. unfold len in He. cbn [read_pairs]. rewrite (proj2 (Z.leb_gt _ offset)) by lia.
  destruct (take_split n (encodeKVPair p) (payload cs)) as [[Hlt ->]|(m & -> & ->)].
  { apply ends_early_bind. by apply readKVPair_torn. }
  rewrite readKVPair_encode by done. cbn [res_bind]. rewrite size_read_as, Z.add_assoc. apply IH; lia.
Qed.

Lemma ReadChangeSet_torn v cs n parse : set_fits (v, cs) -> (n < length (WriteChangeSet v cs))%nat ->
  ends_early (ReadChangeSet (take n (WriteChangeSet v cs)) parse).
Proof.
  intros (Hv & Hcs & Hlen) Hn. cbn [fst snd] in Hv, Hcs, Hlen. pose proof (len_nonneg (payload cs)) as Hp.
  rewrite WriteChangeSet_layout, app_assoc in *. set (hd := PutUint64 (u64 v) ++ PutUint64 (u64 (len (payload cs)))) in *.
  assert (length hd = 16%nat) as Hh by (unfold hd, PutUint64; by rewrite length_app, !length_le_encode).
  rewrite length_app in Hn. unfold ReadChangeSet.
  destruct (take_split n hd (payload cs)) as [[Hlt ->]|(m & -> & ->)].
  { apply ends_early_bind, ReadFull_torn. unfold len. rewrite length_take. lia. }
  rewrite ReadFull_app by (unfold len; by rewrite Hh). cbn [res_bind]. unfold hd.
  destruct (header_decode (u64 v) (u64 (len (payload cs)))) as [-> ->]; [apply u64_range..|].
  rewrite (i64_u64 (len (payload cs))) by (unfold version_ok; lia).
  assert (m < length (payload cs))%nat as Hm by lia. destruct (Z.eqb_spec (len (payload cs)) 0) as [E|_]; [unfold len in E; lia|].
  destruct parse.
  - apply ends_early_bind. change (len (payload cs)) with (0 + len (payload cs)) at 1. apply read_pairs_torn; [done|done|].
    rewrite length_take. lia.
  - apply ends_early_bind. unfold discard. rewrite (proj2 (Z.leb_gt _ _)); [by left|]. unfold len. rewrite length_take. lia.
Qed.

Lemma ReadChangeSet_nil parse : ReadChangeSet [] parse = Err "EOF".
Proof. done. Qed.

Lemma file_length vs : Forall set_fits vs -> (length vs <= length (file_of vs))%nat.
Proof.
  induction 1 as [|[v cs] vs _ _ IH]; [done|]. rewrite file_cons, length_app, WriteChangeSet_layout, !length_app. unfold PutUint64.
  rewrite !length_le_encode. cbn [length]. lia.
Qed.

(** ** Properties *)

(** A version of a change set that was written is read back from the front of
    any reader: the version, the number of bytes, the pairs (a deletion without
    a value, a missing value as an empty one) and the rest of the reader; when
    the payload is skipped instead of parsed, the same but for the pairs. *)
Theorem changeset_roundtrip (v : Z) (cs : ChangeSet) (rest : bytes) (Hf : set_fits (v, cs)) :
  ReadChangeSet (WriteChangeSet v cs ++ rest) true = Ok (v, len (WriteChangeSet v cs), read_as <$> cs, rest) /\
  ReadChangeSet (WriteChangeSet v cs ++ rest) false = Ok (v, len (WriteChangeSet v cs), [], rest) /\
  Forall (fun p => len (encodeKVPair p) = encodedSizeOfKVPair p) cs.
Proof.
  split; [by apply (ReadChangeSet_write v cs rest true)|]. split; [by apply (ReadChangeSet_write v cs rest false)|].
  destruct Hf as (_ & Hf & _). eapply Forall_impl; [exact Hf|]. intros p. apply len_encodeKVPair.
Qed.

(** C36: Iterating over a change set file hands the callback every complete version
    in order, until it stops or fails, and returns the length of the versions
    handled.  A file cut in the middle of a version behaves like one that ends
    before it: the iteration never panics or makes up a version, and reports no
    error or an unexpected end of file. *)
Theorem changeset_torn_file {S : Type} (fn : S -> Z -> ChangeSet -> S * (bool * option string)) (s : S)
  (vs : list (Z * ChangeSet)) (v : Z) (cs : ChangeSet) (n : nat)
  (Hvs : Forall set_fits vs) (Hv : set_fits (v, cs)) (Hn : (n < length (WriteChangeSet v cs))%nat)
  (Hl : len (file_of vs) < 2 ^ 63) :
  IterateChangeSets (file_of vs) fn s = Ok (visit true fn s 0 vs None) /\
  exists err, (err = None \/ err = Some "unexpected EOF"%string) /\
    IterateChangeSets (file_of vs ++ take n (WriteChangeSet v cs)) fn s = Ok (visit true fn s 0 vs err).
Proof.
  pose proof (file_length vs Hvs) as Hfl. unfold IterateChangeSets. split.
  - rewrite <- (app_nil_r (file_of vs)) at 2. by rewrite (iterate_file true fn [] "EOF" vs Hvs) by (done || lia).
  - destruct (ReadChangeSet_torn v cs n true Hv Hn) as [E|E].
    + exists None. split; [by left|]. rewrite (iterate_file true fn _ "EOF" vs Hvs E); [done|rewrite length_app; lia|lia|lia].
    + exists (Some "unexpected EOF"%string). split; [by right|].
      rewrite (iterate_file true fn _ "unexpected EOF" vs Hvs E); [done|rewrite length_app; lia|lia|lia].
Qed.

Definition sample_set : ChangeSet := [mkKVPair false [z2b 1; z2b 2] (Some [z2b 3]); mkKVPair true [z2b 4] (Some [z2b 5])].

Lemma sample_fits v : version_ok v -> set_fits (v, sample_set).
Proof.
  intros Hv. split_and!; [done| |by vm_compute]. repeat constructor; by vm_compute.
Qed.

Lemma changeset_roundtrip_witness :
  ReadChangeSet (WriteChangeSet 7 sample_set ++ [z2b 9]) true =
    Ok (7, 25, [mkKVPair false [z2b 1; z2b 2] (Some [z2b 3]); mkKVPair true [z2b 4] None], [z2b 9]).
Proof.
  destruct (changeset_roundtrip 7 sample_set [z2b 9]) as [H _]; [apply sample_fits; unfold version_ok; lia|].
  rewrite H. vm_compute. reflexivity.
Defined.

Lemma changeset_torn_file_witness :
  exists err, (err = None \/ err = Some "unexpected EOF"%string) /\
    IterateChangeSets (file_of [(5, sample_set); (6, [])] ++ take 20 (WriteChangeSet 7 sample_set))
      (fun s v cs => (s ++ [(v, cs)], (true, None))) [] =
      Ok (visit true (fun s v cs => (s ++ [(v, cs)], (true, None))) [] 0 [(5, sample_set); (6, [])] err).
Proof.
  refine (proj2 (changeset_torn_file (fun s v cs => (s ++ [(v, cs)], (true, None))) [] [(5, sample_set); (6, [])] 7 sample_set 20 _ _ _ _)).
  - repeat apply Forall_cons_2; [apply sample_fits; unfold version_ok; lia| |constructor].
    split_and!; [unfold version_ok; cbn; lia|constructor|by vm_compute].
  - apply sample_fits. unfold version_ok. lia.
  - vm_compute. lia.
  - by vm_compute.
Defined.
