(* ===== verification/ExtSort.v ===== *)
(** External sorting: [versiondb/extsort].

    Items are collected into chunks; a full chunk is sorted and saved, with
    delta encoding and compression as the options say; the result is the k-way
    merge of the chunk files over the binary heap of [container/heap].  A chunk
    file is its bytes, a stream is the rest of a chunk file with the decoder's
    last item.  The chunk goroutines finish in any order, so the files are
    merged in any order.

    [sort.Slice] and the snappy codec are the interfaces [Sorting] and [Snappy].

    Theorems: delta encoding is inverted by the decoder; the heap operations
    keep the heap order; merging sorted streams gives all items in order and
    ends; feeding items and draining the sorter yields the items sorted. *)
From stdpp Require Import prelude strings sorting.
From Stdlib Require Import ZArith Lia.
From S2P Require Import Prelude Codec.
Local Open Scope Z_scope.

(** ** Delta encoding: [delta_encoding.go] *)

(** The length of the common beginning. *)
Fixpoint diffOffset (a b : bytes) : nat :=
  match a, b with
  | x :: a, y :: b => if decide (x = y) then S (diffOffset a b) else O
  | _, _ => O
  end.

(** [DeltaEncoder.Write]: the bytes written; the encoder's state becomes [key]. *)
Definition DeltaEncoderWrite (last key : bytes) : bytes :=
  let shared := diffOffset last key in
  PutUvarint (Z.of_nat shared) ++ PutUvarint (len key - Z.of_nat shared) ++ drop shared key.

(** [make]; sizes beyond the address space panic. *)
Definition make_bytes (n : Z) : res unit := if 2 ^ 48 <? n then Panic "makeslice: len out of range" else Ok tt.

(** [DeltaDecoder.Read]: the item, which is the decoder's new state, and the rest. *)
Definition DeltaDecoderRead (last reader : bytes) : res (bytes * bytes) :=
  let* (shared, reader) := ReadUvarint reader in
  let* (nonShared, reader) := ReadUvarint reader in
  let size := u64 (shared + nonShared) in
  let* _ := make_bytes size in
  if (size <? shared) || (len last <? shared) then Panic "slice bounds out of range"
  else
    let* (tail, reader) := ReadFull (size - shared) reader in
    Ok (take (Z.to_nat shared) last ++ tail, reader).

(** ** The heap of [container/heap] *)

Section Heap.
Context {E : Type} `{!Inhabited E} (less : E -> E -> bool).

Definition swap (l : list E) (i j : nat) : list E := <[i := l !!! j]> (<[j := l !!! i]> l).

(** [down]: sift the element at [i] into the first [n]; it moves at most to a
    leaf, so [n] rounds are enough.  The result says whether it moved. *)
Fixpoint down_loop (fuel : nat) (l : list E) (i n : nat) : list E * nat :=
  match fuel with
  | O => (l, i)
  | S fuel =>
      let j1 := (2 * i + 1)%nat in
      if (n <=? j1)%nat then (l, i)
      else
        let j2 := (j1 + 1)%nat in
        let j := if (j2 <? n)%nat && less (l !!! j2) (l !!! j1) then j2 else j1 in
        if negb (less (l !!! j) (l !!! i)) then (l, i)
        else down_loop fuel (swap l i j) j n
  end.

Definition down (l : list E) (i0 n : nat) : list E * bool :=
  let (l, i) := down_loop n l i0 n in (l, (i0 <? i)%nat).

(** [up]; the index halves, so [j] rounds are enough. *)
Fixpoint up_loop (fuel : nat) (l : list E) (j : nat) : list E :=
  match fuel with
  | O => l
  | S fuel =>
      let i := ((j - 1) / 2)%nat in
      if (i =? j)%nat || negb (less (l !!! j) (l !!! i)) then l
      else up_loop fuel (swap l i j) i
  end.
Definition up (l : list E) (j : nat) : list E := up_loop (S j) l j.

Fixpoint init_loop (l : list E) (n i : nat) : list E :=
  match i with
  | O => l
  | S i => init_loop (fst (down l i n)) n i
  end.
Definition heapInit (l : list E) : list E := init_loop l (length l) (length l / 2).

(** [heap.Fix(h, i)] *)
Definition heapFix (l : list E) (i : nat) : list E :=
  let (l, moved) := down l i (length l) in if moved then l else up l i.

(** [heap.Remove(h, i)]: the element goes to the end and is popped. *)
Definition heapRemove (l : list E) (i : nat) : list E :=
  let n := (length l - 1)%nat in
  let l := if (n =? i)%nat then l
           else let (l, moved) := down (swap l i n) i n in if moved then l else up l i in
  take n l.
End Heap.

(** ** Merging: [merge.go] *)

(** [heapEntry]: the current value and the stream behind it. *)
Record heapEntry (St : Type) : Type := mkHeapEntry { he_value : bytes; he_stream : St }.
Arguments mkHeapEntry {St} _ _.
Arguments he_value {St} _.
Arguments he_stream {St} _.
#[export] Instance heapEntry_inhabited {St} `{!Inhabited St} : Inhabited (heapEntry St) := populate (mkHeapEntry [] inhabitant).

Section Merge.
(** [NextFunc] on the state of a stream. *)
Context {St : Type} `{!Inhabited St} (next : St -> res (option bytes * St)) (lesserFunc : bytes -> bytes -> bool).

Definition entry_less (a b : heapEntry St) : bool := lesserFunc (he_value a) (he_value b).

Definition newHeapEntry (stream : St) : res (option (heapEntry St)) :=
  let* (value, stream) := next stream in
  match value with None => Ok None | Some v => Ok (Some (mkHeapEntry v stream)) end.

Fixpoint new_entries (streams : list St) : res (list (heapEntry St)) :=
  match streams with
  | [] => Ok []
  | stream :: streams =>
      let* entry := newHeapEntry stream in
      let* entries := new_entries streams in
      match entry with None => Ok entries | Some e => Ok (e :: entries) end
  end.

Definition NewMultiWayMerge (streams : list St) : res (list (heapEntry St)) :=
  let* entries := new_entries streams in Ok (heapInit entry_less entries).

(** [Next]: the least value; its stream is advanced and the heap repaired. *)
Definition MergeNext (merge : list (heapEntry St)) : res (option bytes * list (heapEntry St)) :=
  match merge with
  | [] => Ok (None, [])
  | mkHeapEntry result stream :: rest =>
      let* (value, stream) := next stream in
      match value with
      | None => Ok (Some result, heapRemove entry_less (mkHeapEntry result stream :: rest) 0)
      | Some v => Ok (Some result, heapFix entry_less (mkHeapEntry v stream :: rest) 0)
      end
  end.

(** The loop of [Spawn]: items until nil. *)
Fixpoint drain (fuel : nat) (merge : list (heapEntry St)) : res (list bytes) :=
  match fuel with
  | O => Err "out of fuel"
  | S fuel =>
      let* (item, merge) := MergeNext merge in
      match item with
      | None => Ok []
      | Some x => let* rest := drain fuel merge in Ok (x :: rest)
      end
  end.
End Merge.

(** ** The sorter: [sort.go] *)

Class Sorting := { sortSlice : (bytes -> bytes -> bool) -> list bytes -> list bytes }.
Class Snappy := { snappy_write : bytes -> bytes; snappy_read : bytes -> bytes }.

Record Options : Type := mkOptions {
  DeltaEncoding : bool;
  SnappyCompression : bool;
  MaxChunkSize : Z;
  LesserFunc : bytes -> bytes -> bool;
}.

(** The finished chunk files are those of [chunkFiles]. *)
Record ExtSorter : Type := mkSorter {
  currentChunk : list bytes;
  currentChunkSize : Z;
  chunkFiles : list bytes;
}.
Definition New : ExtSorter := mkSorter [] 0 [].

(** A stream over a chunk file: the last item and the bytes left. *)
Definition Stream : Type := (bytes * bytes)%type.

Section Sorter.
Context `{!Sorting, !Snappy} (opts : Options).

(** The items of a chunk, encoded one after the other. *)
Fixpoint delta_items (last : bytes) (items : list bytes) : bytes :=
  match items with
  | [] => []
  | item :: items => DeltaEncoderWrite last item ++ delta_items item items
  end.
Definition plain_items (items : list bytes) : bytes :=
  concat ((fun item => PutUvarint (len item) ++ item) <$> items).

Definition sortAndSaveChunk (chunk : list bytes) : bytes :=
  let chunk := sortSlice (LesserFunc opts) chunk in
  let out := if DeltaEncoding opts then delta_items [] chunk else plain_items chunk in
  if SnappyCompression opts then snappy_write out else out.

(** The chunk is rotated; the goroutine's file is listed when it has finished. *)
Definition sortChunkAndRotate (s : ExtSorter) : ExtSorter :=
  mkSorter [] 0 (chunkFiles s ++ [sortAndSaveChunk (currentChunk s)]).

Definition Feed (s : ExtSorter) (item : bytes) : res ExtSorter :=
  if MaxUint32 <? len item then Err "item length overflows uint32"
  else
    let s := mkSorter (currentChunk s ++ [item]) (currentChunkSize s + (len item + 4)) (chunkFiles s) in
    if MaxChunkSize opts <=? currentChunkSize s then Ok (sortChunkAndRotate s) else Ok s.

(** The stream functions of [Finalize]. *)
Definition stream_next (s : Stream) : res (option bytes * Stream) :=
  let (last, reader) := s in
  if DeltaEncoding opts then
    match DeltaDecoderRead last reader with
    | Ok (item, reader) => Ok (Some item, (item, reader))
    | Err e => if decide (e = "EOF"%string) then Ok (None, s) else Err e
    | Panic m => Panic m
    end
  else
    match ReadUvarint reader with
    | Ok (size, reader) =>
        let* _ := make_bytes size in
        let* (item, reader) := ReadFull size reader in Ok (Some item, (last, reader))
    | Err e => if decide (e = "EOF"%string) then Ok (None, s) else Err e
    | Panic m => Panic m
    end.

Definition open_chunk (file : bytes) : Stream := ([], if SnappyCompression opts then snappy_read file else file).

(** The files to merge, before the order in which they were finished. *)
Definition finalize_files (s : ExtSorter) : list bytes :=
  chunkFiles (if 0 <? currentChunkSize s then sortChunkAndRotate s else s).

(** [order] is the order in which the chunk goroutines finished. *)
Definition Finalize (order : list bytes -> list bytes) (s : ExtSorter) : res (list (heapEntry Stream)) :=
  NewMultiWayMerge stream_next (LesserFunc opts) (open_chunk <$> order (finalize_files s)).

Fixpoint feed_all (s : ExtSorter) (items : list bytes) : res ExtSorter :=
  match items with
  | [] => Ok s
  | item :: items => let* s := Feed s item in feed_all s items
  end.

(** [Spawn]: what the output channel delivers for the items of the input
    channel; errors panic. *)
Definition Spawn (fuel : nat) (order : list bytes -> list bytes) (items : list bytes) : res (list bytes) :=
  match (let* s := feed_all New items in
         let* merge := Finalize order s in
         drain stream_next (LesserFunc opts) fuel merge) with
  | Ok out => Ok out
  | Err e | Panic e => Panic e
  end.
End Sorter.

(** ** Delta encoding *)

Lemma diffOffset_prefix a b : take (diffOffset a b) a = take (diffOffset a b) b /\
  (diffOffset a b <= length a)%nat /\ (diffOffset a b <= length b)%nat.
Proof.
  revert b. induction a as [|x a IH]; intros [|y b]; cbn; try (split_and!; lia || done).
  destruct (decide (x = y)) as [->|]; [|cbn; split_and!; lia || done].
  destruct (IH b) as (E & H1 & H2). cbn. rewrite E. split_and!; [done|lia|lia].
Qed.

Lemma delta_roundtrip last key rest : len key < 2 ^ 32 ->
  DeltaDecoderRead last (DeltaEncoderWrite last key ++ rest) = Ok (key, rest).
Proof.
  intros Hk. destruct (diffOffset_prefix last key) as (E & H1 & H2). unfold DeltaEncoderWrite, DeltaDecoderRead, len in *.
  set (d := diffOffset last key) in *. rewrite <- !app_assoc.
  rewrite ReadUvarint_Put by lia. cbn [res_bind]. rewrite ReadUvarint_Put by lia. cbn [res_bind].
  replace (Z.of_nat d + (Z.of_nat (length key) - Z.of_nat d)) with (Z.of_nat (length key)) by lia. rewrite u64_small by lia.
  unfold make_bytes. rewrite (proj2 (Z.ltb_ge (2 ^ 48) _)) by lia. cbn [res_bind].
  rewrite !(proj2 (Z.ltb_ge _ _)) by lia. cbn [orb].
  rewrite ReadFull_app by (unfold len; rewrite length_drop; lia). cbn [res_bind].
  by rewrite Nat2Z.id, E, take_drop.
Qed.

(** ** The heap *)

Section HeapOrder.
Context {E : Type} `{!Inhabited E} (less : E -> E -> bool).

(** A strict weak order: not less is total and transitive. *)
Class StrictWeak : Prop := {
  sw_asym : forall a b, less a b = true -> less b a = false;
  sw_trans : forall a b c, less b a = false -> less c b = false -> less c a = false;
}.
Context `{SW : !StrictWeak}.

Definition le (a b : E) : Prop := less b a = false.
Lemma le_refl a : le a a.
Proof. unfold le. destruct (less a a) eqn:Hl; [|done]. by pose proof (sw_asym _ _ Hl); congruence. Qed.
Lemma le_trans a b c : le a b -> le b c -> le a c.
Proof. apply sw_trans. Qed.
Lemma less_le a b : less a b = true -> le a b.
Proof. apply sw_asym. Qed.

Definition child (i j : nat) : Prop := j = (2 * i + 1)%nat \/ j = (2 * i + 2)%nat.

(** The first [n] elements are in heap order from index [k] on. *)
Definition heap_from (k n : nat) (l : list E) : Prop :=
  forall i j, (k <= i)%nat -> child i j -> (j < n)%nat -> le (l !!! i) (l !!! j).

(** In order but for the element at [i], which may be too big. *)
Definition heap_but (k n : nat) (l : list E) (i : nat) : Prop :=
  (forall a b, (k <= a)%nat -> a <> i -> child a b -> (b < n)%nat -> le (l !!! a) (l !!! b)) /\
  (forall p c, (k <= p)%nat -> child p i -> child i c -> (c < n)%nat -> le (l !!! p) (l !!! c)).

Lemma swap_length (l : list E) i j : length (swap l i j) = length l.
Proof. unfold swap. by rewrite !length_insert. Qed.

Lemma swap_lookup (l : list E) i j x : (i < length l)%nat -> (j < length l)%nat -> i <> j ->
  swap l i j !!! x = if decide (x = i) then l !!! j else if decide (x = j) then l !!! i else l !!! x.
Proof.
  intros Hi Hj Hij. unfold swap. destruct (decide (x = i)) as [->|Hx].
  - apply list_lookup_total_insert_eq. by rewrite length_insert.
  - rewrite list_lookup_total_insert_ne by done. destruct (decide (x = j)) as [->|].
    + by apply list_lookup_total_insert_eq.
    + by rewrite list_lookup_total_insert_ne by done.
Qed.

Lemma down_loop_length fuel : forall l i n, length (fst (down_loop less fuel l i n)) = length l.
Proof.
  induction fuel as [|f IH]; intros l i n; [done|]. cbn [down_loop]. destruct (n <=? 2 * i + 1)%nat; [done|].
  destruct (negb _); [done|]. by rewrite IH, swap_length.
Qed.

Lemma down_loop_heap fuel : forall l i n k, (n <= length l)%nat -> (k <= i)%nat -> (n <= fuel + i)%nat ->
  heap_but k n l i -> heap_from k n (fst (down_loop less fuel l i n)).
Proof.
  induction fuel as [|f IH]; intros l i n k Hn Hk Hf [H1 H2].
  { intros a b Ha Hc Hb. apply H1; [done| |done..]. unfold child in Hc. lia. }
  cbn [down_loop]. destruct (Nat.leb_spec n (2 * i + 1)).
  { intros a b Ha Hc Hb. apply H1; [done| |done..]. unfold child in Hc. lia. }
  set (j := if _ && _ then _ else _).
  assert (child i j /\ (j < n)%nat /\ forall b, child i b -> (b < n)%nat -> le (l !!! j) (l !!! b)) as (Hj & Hjn & Hmin).
  { unfold j, child. destruct (Nat.ltb_spec (2 * i + 1 + 1) n) as [Hlt|Hge]; cbn [andb].
    - destruct (less (l !!! (2 * i + 1 + 1)%nat) (l !!! (2 * i + 1)%nat)) eqn:Hl; (split_and!; [lia|lia|]).
      + intros b [->| ->] _; [by apply less_le|]. replace (2 * i + 2)%nat with (2 * i + 1 + 1)%nat by lia. apply le_refl.
      + intros b [->| ->] _; [apply le_refl|]. replace (2 * i + 2)%nat with (2 * i + 1 + 1)%nat by lia. exact Hl.
    - split_and!; [lia|lia|]. intros b [->| ->] Hb; [apply le_refl|lia]. }
  clearbody j. destruct (less (l !!! j) (l !!! i)) eqn:Hl; cbn [negb fst].
  - apply IH; [by rewrite swap_length|unfold child in Hj; lia|unfold child in Hj; lia|]. split.
    + intros a b Ha Haj Hc Hb. assert (i <> j) by (unfold child in Hj; lia). rewrite !swap_lookup by lia.
      rewrite (decide_False (P := a = j)) by done. destruct (decide (a = i)) as [->|Hai].
      * rewrite (decide_False (P := b = i)) by (unfold child in Hc; lia). destruct (decide (b = j)) as [->|]; [by apply less_le|].
        by apply Hmin.
      * destruct (decide (b = i)) as [->|]; [by apply H2|].
        rewrite (decide_False (P := b = j)) by (unfold child in Hc, Hj; lia). by apply H1.
    + intros p c Hp Hpj Hjc Hc. assert (i <> j) by (unfold child in Hj; lia). assert (p = i) as -> by (unfold child in *; lia).
      rewrite !swap_lookup by lia. rewrite decide_True by done.
      rewrite !(decide_False (P := c = _)) by (unfold child in *; lia). apply H1; [unfold child in *; lia|lia|done..].
  - intros a b Ha Hc Hb. destruct (decide (a = i)) as [->|]; [|by apply H1]. eapply le_trans; [exact Hl|]. by apply Hmin.
Qed.

Lemma lookup_total_lt (l : list E) i : (i < length l)%nat -> l !! i = Some (l !!! i).
Proof. intros Hi. by apply list_lookup_lookup_total_lt. Qed.

(** A swap permutes the list. *)
Lemma swap_perm (l : list E) i j : (i < length l)%nat -> (j < length l)%nat -> swap l i j ≡ₚ l.
Proof.
  intros Hi Hj. destruct (decide (i = j)) as [->|Hij].
  { unfold swap. by rewrite list_insert_insert_eq, list_insert_id by by apply lookup_total_lt. }
  apply Permutation_inj. split; [apply swap_length|].
  exists (fun x => if decide (x = i) then j else if decide (x = j) then i else x). split.
  - intros x y. repeat case_decide; congruence.
  - intros x. destruct (decide (x < length l)%nat) as [Hx|Hx].
    + rewrite (lookup_total_lt (swap l i j)) by (by rewrite swap_length). rewrite swap_lookup by done.
      repeat case_decide; by rewrite lookup_total_lt.
    + rewrite !lookup_ge_None_2; [done|repeat case_decide; lia|rewrite swap_length; lia].
Qed.

Lemma down_loop_perm fuel : forall l i n, (i < n)%nat -> (n <= length l)%nat -> fst (down_loop less fuel l i n) ≡ₚ l.
Proof.
  induction fuel as [|f IH]; intros l i n Hi Hn; [done|]. cbn [down_loop]. destruct (Nat.leb_spec n (2 * i + 1)); [done|].
  set (j := if _ && _ then _ else _).
  assert (j < n)%nat by (unfold j; destruct (Nat.ltb_spec (2 * i + 1 + 1) n); cbn [andb]; [destruct (less _ _)|]; lia).
  destruct (negb _); [done|]. rewrite IH by (rewrite ?swap_length; lia). apply swap_perm; lia.
Qed.

(** Sifting does not look behind the first [n] elements. *)
Lemma down_loop_app fuel (m : list E) : forall l i n, n = length l -> (i < n)%nat ->
  fst (down_loop less fuel (l ++ m) i n) = fst (down_loop less fuel l i n) ++ m.
Proof.
  induction fuel as [|f IH]; intros l i n -> Hi; [done|]. cbn [down_loop]. destruct (Nat.leb_spec (length l) (2 * i + 1)); [done|].
  assert (forall x, (x < length l)%nat -> (l ++ m) !!! x = l !!! x) as Hl.
  { intros x Hx. by rewrite lookup_total_app_l. }
  rewrite (Hl (2 * i + 1)%nat), (Hl i) by lia.
  assert ((2 * i + 1 + 1 <? length l)%nat && less ((l ++ m) !!! (2 * i + 1 + 1)%nat) (l !!! (2 * i + 1)%nat) =
          (2 * i + 1 + 1 <? length l)%nat && less (l !!! (2 * i + 1 + 1)%nat) (l !!! (2 * i + 1)%nat)) as ->.
  { destruct (Nat.ltb_spec (2 * i + 1 + 1) (length l)); [by rewrite Hl|done]. }
  set (j := if _ && _ then _ else _).
  assert (j < length l)%nat by (unfold j; destruct (Nat.ltb_spec (2 * i + 1 + 1) (length l)); cbn [andb]; [destruct (less _ _)|]; lia).
  rewrite (Hl j) by done. destruct (negb _); [done|].
  assert (swap (l ++ m) i j = swap l i j ++ m) as ->.
  { unfold swap. rewrite !Hl by lia. by rewrite !insert_app_l by (rewrite ?length_insert; lia). }
  apply IH; [by rewrite swap_length|done].
Qed.

Lemma down_fst l i n : fst (down less l i n) = fst (down_loop less n l i n).
Proof. unfold down. by destruct (down_loop less n l i n). Qed.

Lemma init_loop_heap n i : forall l, (n <= length l)%nat -> (i <= n)%nat -> heap_from i n l ->
  heap_from 0 n (init_loop less l n i) /\ init_loop less l n i ≡ₚ l.
Proof.
  induction i as [|i IH]; intros l Hn Hi H; [done|]. cbn [init_loop]. rewrite down_fst.
  destruct (IH (fst (down_loop less n l i n))) as [H1 H2].
  - by rewrite down_loop_length.
  - lia.
  - apply down_loop_heap; [done..|lia|]. split.
    + intros a b Ha Hne Hc Hb. apply H; [lia|done..].
    + intros p c Hp Hc. unfold child in Hc. lia.
  - split; [done|]. rewrite H2. apply down_loop_perm; lia.
Qed.

Lemma heapInit_ok l : heap_from 0 (length l) (heapInit less l) /\ heapInit less l ≡ₚ l.
Proof.
  unfold heapInit. apply init_loop_heap; [done|apply Nat.Div0.div_le_upper_bound; lia|].
  intros i j Hi Hc Hj. unfold child in Hc. pose proof (Nat.div_mod_eq (length l) 2). pose proof (Nat.mod_upper_bound (length l) 2). lia.
Qed.

(** A new root, sifted. *)
Lemma sift_root x y rest : heap_from 0 (S (length rest)) (y :: rest) ->
  heap_from 0 (S (length rest)) (fst (down_loop less (S (length rest)) (x :: rest) 0 (S (length rest)))).
Proof.
  intros H. apply down_loop_heap; [done|lia|lia|]. split.
  - intros [|a] b Ha Hne Hc Hb; [done|]. destruct b as [|b]; [unfold child in Hc; lia|]. apply (H (S a) (S b)); [lia|done..].
  - intros p c _ Hc. unfold child in Hc. lia.
Qed.

Lemma heapFix_ok x y rest : heap_from 0 (S (length rest)) (y :: rest) ->
  heap_from 0 (S (length rest)) (heapFix less (x :: rest) 0) /\ heapFix less (x :: rest) 0 ≡ₚ x :: rest.
Proof.
  intros H. assert (heapFix less (x :: rest) 0 = fst (down_loop less (S (length rest)) (x :: rest) 0 (S (length rest)))) as ->.
  { unfold heapFix. rewrite <- down_fst. cbn [length]. destruct (down less _ _ _) as [l []]; done. }
  split; [by eapply sift_root|]. apply down_loop_perm; cbn; lia.
Qed.

Lemma heapRemove_ok x rest : heap_from 0 (S (length rest)) (x :: rest) ->
  heap_from 0 (length rest) (heapRemove less (x :: rest) 0) /\ heapRemove less (x :: rest) 0 ≡ₚ rest.
Proof.
  intros H. destruct rest as [|z rest _] using rev_ind.
  { split; [intros i j _ _ Hj; cbn in Hj; lia|done]. }
  rewrite length_app, Nat.add_1_r in *. cbn [length] in *.
  assert (swap (x :: rest ++ [z]) 0 (S (length rest)) = (z :: rest) ++ [x]) as Hs.
  { unfold swap. rewrite (list_lookup_total_middle (x :: rest) [] z) by done.
    change (z :: <[length rest := x]> (rest ++ [z]) = z :: (rest ++ [x])). f_equal.
    by rewrite insert_app_r_alt, Nat.sub_diag by lia. }
  assert (heapRemove less (x :: rest ++ [z]) 0 = fst (down_loop less (S (length rest)) (z :: rest) 0 (S (length rest)))) as ->.
  { unfold heapRemove. cbn [length]. rewrite length_app, Nat.add_1_r. cbn [Nat.sub length Nat.eqb]. rewrite Hs.
    assert (fst (down less ((z :: rest) ++ [x]) 0 (S (length rest))) =
            fst (down_loop less (S (length rest)) (z :: rest) 0 (S (length rest))) ++ [x]) as Hd
      by (rewrite down_fst; apply down_loop_app; cbn; lia).
    destruct (down less _ 0 _) as [l moved]. cbn [fst] in Hd. subst l.
    assert (forall l : list E, (if moved then l else up less l 0) = l) as -> by (by destruct moved).
    rewrite take_app_length'; [done|]. by rewrite down_loop_length. }
  split.
  - apply (sift_root z x). intros i j Hi Hc Hj. specialize (H i j Hi Hc ltac:(lia)).
    assert (forall a, (a < S (length rest))%nat -> (x :: rest ++ [z]) !!! a = (x :: rest) !!! a) as Hl.
    { intros a Ha. change (x :: rest ++ [z]) with ((x :: rest) ++ [z]). by rewrite lookup_total_app_l. }
    rewrite !Hl in H by (unfold child in Hc; lia). done.
  - rewrite down_loop_perm by (cbn; lia). by rewrite Permutation_app_comm.
Qed.

Lemma heap_root_least l i : heap_from 0 (length l) l -> (i < length l)%nat -> le (l !!! 0%nat) (l !!! i).
Proof.
  intros H. induction (lt_wf i) as [i _ IH]. intros Hi. destruct i as [|i]; [apply le_refl|].
  assert (child (i / 2) (S i)) as Hc.
  { unfold child. pose proof (Nat.div_mod_eq i 2). pose proof (Nat.mod_upper_bound i 2). lia. }
  eapply le_trans; [apply (IH (i / 2)%nat)|apply H; [lia|done..]]; unfold child in Hc; lia.
Qed.
End HeapOrder.

(** ** Merging sorted streams *)

Section MergeOrder.
Context {St : Type} `{!Inhabited St} (next : St -> res (option bytes * St)) (lesserFunc : bytes -> bytes -> bool).
Context `{SW : !StrictWeak lesserFunc}.

(** A stream that hands out these items and then nil. *)
Inductive yields : St -> list bytes -> Prop :=
| y_end s s' : next s = Ok (None, s') -> yields s []
| y_item s s' x l : next s = Ok (Some x, s') -> yields s' l -> yields s (x :: l).

#[export] Instance entry_weak : StrictWeak (@entry_less St lesserFunc).
Proof. split; unfold entry_less; intros *; destruct SW as [H1 H2]; [apply H1|apply H2]. Qed.

Abbreviation leb := (le lesserFunc).

(** The heap together with what the streams still hold. *)
Definition content (P : list (heapEntry St * list bytes)) : list bytes := P ≫= fun p => he_value p.1 :: p.2.

Definition merge_ok (P : list (heapEntry St * list bytes)) : Prop :=
  heap_from (entry_less lesserFunc) 0 (length P) P.*1 /\
  Forall (fun p => yields (he_stream p.1) p.2 /\ StronglySorted leb (he_value p.1 :: p.2)) P.

Lemma fmap_perm_inv {A B} (f : A -> B) l P : l ≡ₚ f <$> P -> exists P', l = f <$> P' /\ P' ≡ₚ P.
Proof. intros H. apply Permutation_map_inv in H as (P' & -> & HP). by exists P'. Qed.

Lemma content_least p P : merge_ok (p :: P) -> Forall (leb (he_value p.1)) (content (p :: P)).
Proof.
  intros [Hh Hf]. apply Forall_forall. intros x Hx. apply list_elem_of_bind in Hx as (q & Hx & Hq).
  apply list_elem_of_lookup in Hq as [i Hi]. pose proof (lookup_lt_Some _ _ _ Hi) as Hlt.
  pose proof (heap_root_least (entry_less lesserFunc) ((p :: P).*1) i) as Hr. rewrite length_fmap in Hr.
  specialize (Hr Hh Hlt). assert ((p :: P).*1 !!! i = q.1) as Eq.
  { apply list_lookup_total_correct. exact (list_lookup_fmap_Some_2 fst _ _ _ Hi). }
  assert (leb (he_value p.1) (he_value q.1)) as Hr' by exact (eq_ind _ (fun z => le (entry_less lesserFunc) p.1 z) Hr _ Eq). clear Hr.
  rewrite Forall_lookup in Hf. destruct (Hf i q Hi) as [_ Hs].
  apply elem_of_cons in Hx as [->|Hx]; [exact Hr'|]. eapply le_trans; [done|exact Hr'|].
  apply StronglySorted_inv in Hs as [_ Hs]. rewrite Forall_forall in Hs. by apply Hs.
Qed.

Lemma merge_ok_perm es P : es ≡ₚ P.*1 -> heap_from (entry_less lesserFunc) 0 (length es) es ->
  Forall (fun p => yields (he_stream p.1) p.2 /\ StronglySorted leb (he_value p.1 :: p.2)) P ->
  exists P', es = P'.*1 /\ P' ≡ₚ P /\ merge_ok P'.
Proof.
  intros Hp Hh Hf. apply fmap_perm_inv in Hp as (P' & -> & HP). exists P'. split_and!; [done..|]. rewrite length_fmap in Hh.
  split; [done|]. by rewrite HP.
Qed.

(** One item: the least one, and what is left. *)
Lemma MergeNext_ok P : merge_ok P ->
  match P with
  | [] => MergeNext next lesserFunc P.*1 = Ok (None, [])
  | p :: _ => exists P', MergeNext next lesserFunc P.*1 = Ok (Some (he_value p.1), P'.*1) /\ merge_ok P' /\ content P ≡ₚ he_value p.1 :: content P'
  end.
Proof.
  destruct P as [|[[r s] t] P]; [done|]. intros [Hh Hf]. apply Forall_cons in Hf as [[Hy Hs] Hf].
  change (((mkHeapEntry r s, t) :: P).*1) with (mkHeapEntry r s :: P.*1) in *. cbn [fst snd he_value he_stream] in *.
  cbn [length] in Hh. rewrite <- (length_fmap fst P) in Hh.
  cbn [MergeNext]. inversion Hy as [? s' En|? s' v t' En Hy']; subst; rewrite En; cbn [res_bind].
  - destruct (heapRemove_ok (entry_less lesserFunc) (mkHeapEntry r s') (P.*1)) as [H1 H2].
    { intros i j Hi Hc Hj. specialize (Hh i j Hi Hc Hj). destruct i, j; try exact Hh; unfold child in Hc; lia. }
    rewrite <- (Permutation_length H2) in H1. destruct (merge_ok_perm _ _ H2 H1 Hf) as (P' & -> & HP & Hok).
    exists P'. split_and!; [done|done|]. unfold content. rewrite bind_cons, HP. done.
  - destruct (heapFix_ok (entry_less lesserFunc) (mkHeapEntry v s') (mkHeapEntry r s) (P.*1) Hh) as [H1 H2].
    assert (length (heapFix (entry_less lesserFunc) (mkHeapEntry v s' :: P.*1) 0) = S (length P.*1)) as Hl
      by exact (Permutation_length H2). rewrite <- Hl in H1.
    destruct (merge_ok_perm (heapFix (entry_less lesserFunc) (mkHeapEntry v s' :: P.*1) 0) ((mkHeapEntry v s', t') :: P)) as (P' & -> & HP & Hok).
    + exact H2.
    + exact H1.
    + constructor; [|done]. cbn. split; [done|]. by apply StronglySorted_inv in Hs as [Hs _].
    + exists P'. split_and!; [done|done|]. unfold content. rewrite bind_cons, HP, bind_cons. done.
Qed.

Lemma merge_drain_ok n : forall P fuel, merge_ok P -> length (content P) = n -> (n < fuel)%nat ->
  exists out, drain next lesserFunc fuel P.*1 = Ok out /\ StronglySorted leb out /\ out ≡ₚ content P.
Proof.
  induction n as [|n IH]; intros P fuel Hok Hn Hf; (destruct fuel as [|fuel]; [lia|]); cbn [drain]; pose proof (MergeNext_ok P Hok) as HN.
  - destruct P as [|p P]; [|cbn in Hn; lia]. rewrite HN. exists []. split_and!; [done|constructor|done].
  - destruct P as [|p P]; [done|]. destruct HN as (P' & -> & Hok' & Hc). cbn [res_bind].
    pose proof (Permutation_length Hc) as Hl. rewrite Hn in Hl. cbn [length] in Hl.
    destruct (IH P' fuel Hok') as (out & -> & Hs & Hp); [lia|lia|]. cbn [res_bind]. eexists. split_and!; [done| |by rewrite Hp, Hc].
    constructor; [done|]. pose proof (content_least p P Hok) as Hle. rewrite Hc in Hle. apply Forall_cons in Hle as [_ Hle].
    by rewrite Hp.
Qed.

Lemma new_entries_ok streams ls : Forall2 yields streams ls -> Forall (StronglySorted leb) ls ->
  exists P, new_entries next streams = Ok P.*1 /\ content P ≡ₚ concat ls /\
    Forall (fun p => yields (he_stream p.1) p.2 /\ StronglySorted leb (he_value p.1 :: p.2)) P.
Proof.
  induction 1 as [|s l streams ls Hy _ IH]; intros Hs; [by exists []|]. apply Forall_cons in Hs as [Hl Hs].
  destruct (IH Hs) as (P & E & Hc & Hf). cbn [new_entries]. unfold newHeapEntry.
  inversion Hy as [? s' En|? s' v t En Hy']; subst; rewrite En; cbn [res_bind]; rewrite E; cbn [res_bind].
  - by exists P.
  - exists ((mkHeapEntry v s', t) :: P). split_and!; [done| |by constructor]. unfold content in *. rewrite bind_cons. cbn. by rewrite Hc.
Qed.

Lemma merge_streams streams ls fuel : Forall2 yields streams ls -> Forall (StronglySorted leb) ls ->
  (length (concat ls) < fuel)%nat ->
  exists m out, NewMultiWayMerge next lesserFunc streams = Ok m /\ drain next lesserFunc fuel m = Ok out /\
    StronglySorted leb out /\ out ≡ₚ concat ls.
Proof.
  intros Hy Hs Hf. destruct (new_entries_ok streams ls Hy Hs) as (P & E & Hc & Hp). unfold NewMultiWayMerge. rewrite E. cbn [res_bind].
  destruct (heapInit_ok (entry_less lesserFunc) P.*1) as [H1 H2]. rewrite <- (Permutation_length H2) in H1.
  destruct (merge_ok_perm _ P H2 H1 Hp) as (P' & -> & HP & Hok).
  assert (content P' ≡ₚ concat ls) as Hc' by (unfold content in *; by rewrite HP).
  destruct (merge_drain_ok (length (content P')) P' fuel Hok) as (out & Ho & Hso & Hpo); [done|by rewrite Hc'|].
  exists (P'.*1), out. split_and!; [done..|by rewrite Hpo].
Qed.
End MergeOrder.

(** ** The sorter *)

(** What [sort.Slice] promises. *)
Class SortingLaws `{!Sorting} := {
  sort_perm : forall less l, sortSlice less l ≡ₚ l;
  sort_sorted : forall less l, StrictWeak less -> StronglySorted (le less) (sortSlice less l);
}.
(** Compressed bytes decompress to what was compressed. *)
Class SnappyLaws `{!Snappy} := { snappy_roundtrip : forall b, snappy_read (snappy_write b) = b }.

Section SorterOrder.
Context `{Srt : !Sorting, Snp : !Snappy, SL : !SortingLaws, NL : !SnappyLaws} (opts : Options).
Context `{SW : !StrictWeak (LesserFunc opts)}.

Definition item_fits (x : bytes) : Prop := len x < 2 ^ 32.

Lemma delta_yields items : DeltaEncoding opts = true -> Forall item_fits items -> forall last,
  yields (stream_next opts) (last, delta_items last items) items.
Proof.
  intros Hd. induction 1 as [|x items Hx _ IH]; intros last.
  - eapply y_end. unfold stream_next. rewrite Hd. reflexivity.
  - eapply y_item; [|apply IH]. unfold stream_next. rewrite Hd. cbn [delta_items]. by rewrite delta_roundtrip.
Qed.

Lemma plain_yields items : DeltaEncoding opts = false -> Forall item_fits items -> forall last,
  yields (stream_next opts) (last, plain_items items) items.
Proof.
  intros Hd. induction 1 as [|x items Hx _ IH]; intros last.
  - eapply y_end. unfold stream_next. rewrite Hd. reflexivity.
  - eapply y_item; [|apply (IH last)]. unfold stream_next. rewrite Hd. unfold plain_items. rewrite fmap_cons. cbn [concat].
    pose proof (len_nonneg x). unfold item_fits in Hx. rewrite <- !app_assoc, ReadUvarint_Put by lia.
    unfold make_bytes. rewrite (proj2 (Z.ltb_ge (2 ^ 48) _)) by lia. cbn [res_bind]. by rewrite ReadFull_app.
Qed.

(** A saved chunk is a stream of its sorted items. *)
Lemma chunk_yields chunk : Forall item_fits chunk ->
  yields (stream_next opts) (open_chunk opts (sortAndSaveChunk opts chunk)) (sortSlice (LesserFunc opts) chunk).
Proof.
  intros Hf. unfold open_chunk, sortAndSaveChunk.
  assert (Forall item_fits (sortSlice (LesserFunc opts) chunk)) as Hf' by by rewrite sort_perm.
  destruct (SnappyCompression opts); rewrite ?snappy_roundtrip; destruct (DeltaEncoding opts) eqn:Hd;
    by (apply delta_yields || apply plain_yields).
Qed.

(** The chunks that were saved and the one being filled hold the items fed. *)
Definition holds_items (s : ExtSorter) (items : list bytes) : Prop :=
  exists chunks, chunkFiles s = sortAndSaveChunk opts <$> chunks /\ concat chunks ++ currentChunk s ≡ₚ items /\
    Forall (Forall item_fits) chunks /\ Forall item_fits (currentChunk s) /\
    (currentChunkSize s = 0 -> currentChunk s = []) /\ 0 <= currentChunkSize s.

Lemma rotate_holds s items : holds_items s items -> holds_items (sortChunkAndRotate opts s) items.
Proof.
  intros (chunks & Ef & Hp & Hc & Hcur & _). exists (chunks ++ [currentChunk s]). split_and!.
  - cbn. by rewrite Ef, fmap_app.
  - cbn. by rewrite concat_app, app_nil_r; cbn; rewrite app_nil_r.
  - apply Forall_app. repeat constructor; done.
  - constructor.
  - done.
  - done.
Qed.

Lemma Feed_holds s items x : holds_items s items -> item_fits x -> exists s', Feed opts s x = Ok s' /\ holds_items s' (items ++ [x]).
Proof.
  intros (chunks & Ef & Hp & Hc & Hcur & Hz & Hn) Hx. unfold item_fits in Hx. unfold Feed, MaxUint32.
  rewrite (proj2 (Z.ltb_ge _ (len x))) by lia. pose proof (len_nonneg x).
  set (s1 := mkSorter _ _ _). assert (holds_items s1 (items ++ [x])) as H1.
  { exists chunks. unfold s1. cbn. split_and!; [done| |done| |lia|lia].
    - by rewrite app_assoc, Hp.
    - apply Forall_app. by repeat constructor. }
  destruct (_ <=? _); eexists; (split; [done|]); [by apply rotate_holds|done].
Qed.

Lemma feed_all_holds items : Forall item_fits items -> forall s fed, holds_items s fed ->
  exists s', feed_all opts s items = Ok s' /\ holds_items s' (fed ++ items).
Proof.
  induction 1 as [|x items Hx _ IH]; intros s fed H; [exists s; by rewrite app_nil_r|].
  destruct (Feed_holds s fed x H Hx) as (s1 & E & H1). cbn [feed_all]. rewrite E. cbn [res_bind].
  destruct (IH s1 _ H1) as (s' & -> & H'). exists s'. by rewrite <- app_assoc in H'.
Qed.

Lemma finalize_files_hold s items : holds_items s items ->
  exists chunks, finalize_files opts s = sortAndSaveChunk opts <$> chunks /\ concat chunks ≡ₚ items /\ Forall (Forall item_fits) chunks.
Proof.
  intros H. unfold finalize_files. destruct (Z.ltb_spec 0 (currentChunkSize s)).
  - destruct (rotate_holds s items H) as (chunks & E & Hp & Hc & _). exists chunks. split_and!; [done| |done].
    by rewrite <- Hp, app_nil_r.
  - destruct H as (chunks & E & Hp & Hc & _ & Hz & Hn). exists chunks. split_and!; [done| |done].
    rewrite Hz in Hp by lia. by rewrite app_nil_r in Hp.
Qed.

Lemma concat_sorted_perm less chunks : concat (sortSlice less <$> chunks) ≡ₚ concat chunks.
Proof. induction chunks as [|c chunks IH]; [done|]. cbn. by rewrite IH, sort_perm. Qed.
End SorterOrder.

(** ** Properties *)

(** The k-way merge ends: over streams that each hand out a sorted list and
    then nil, the merge starts without error and yields, in finitely many steps
    and then nil, all items of all streams in order. *)
Theorem merge_sorted_streams {St : Type} `{!Inhabited St} (next : St -> res (option bytes * St))
  (lesserFunc : bytes -> bytes -> bool) (streams : list St) (ls : list (list bytes)) (fuel : nat)
  (SW : StrictWeak lesserFunc) (Hy : Forall2 (yields next) streams ls)
  (Hs : Forall (StronglySorted (le lesserFunc)) ls) (Hf : (length (concat ls) < fuel)%nat) :
  exists m out, NewMultiWayMerge next lesserFunc streams = Ok m /\ drain next lesserFunc fuel m = Ok out /\
    StronglySorted (le lesserFunc) out /\ out ≡ₚ concat ls.
Proof. by apply merge_streams. Qed.

Lemma spawn_sorts `{Srt : !Sorting, Snp : !Snappy, SL : !SortingLaws, NL : !SnappyLaws} (opts : Options)
  (order : list bytes -> list bytes) (items : list bytes) (fuel : nat) :
  StrictWeak (LesserFunc opts) -> Forall (fun x => len x < 2 ^ 32) items -> (forall fs, order fs ≡ₚ fs) -> (length items < fuel)%nat ->
  exists out, Spawn opts fuel order items = Ok out /\ StronglySorted (le (LesserFunc opts)) out /\ out ≡ₚ items.
Proof.
  intros SW Hi Ho Hf.
  assert (holds_items opts New []) as H0 by (exists []; split_and!; [done..|constructor|constructor|done|done]).
  destruct (feed_all_holds opts items Hi New [] H0) as (s & E & H). unfold Spawn. rewrite E. cbn [res_bind].
  destruct (finalize_files_hold opts s _ H) as (chunks & Ef & Hp & Hc). unfold Finalize.
  assert (order (finalize_files opts s) ≡ₚ sortAndSaveChunk opts <$> chunks) as Hor by by rewrite Ho, Ef.
  apply fmap_perm_inv in Hor as (chunks' & -> & HP). cbn [app] in Hp.
  assert (concat (sortSlice (LesserFunc opts) <$> chunks') ≡ₚ items) as Hp'.
  { rewrite concat_sorted_perm by done. by rewrite HP. }
  destruct (merge_streams (stream_next opts) (LesserFunc opts) (open_chunk opts <$> (sortAndSaveChunk opts <$> chunks'))
    (sortSlice (LesserFunc opts) <$> chunks') fuel) as (m & out & -> & Hd & Hs & Hperm).
  - rewrite <- HP in Hc. clear -Hc SL NL. induction Hc as [|c cs Hcf _ IH]; constructor; [by apply chunk_yields|exact IH].
  - apply Forall_fmap, Forall_forall. intros c _. by apply sort_sorted.
  - by rewrite Hp'.
  - cbn [res_bind]. rewrite Hd. exists out. split_and!; [done..|by rewrite Hperm].
Qed.

(** C37: External sorting: whatever chunk size, encoding and compression the options
    choose, and in whatever order the chunks are finished, the output channel
    delivers the items of the input channel in order, each as often as it was
    fed, and is closed; an item that is too long is refused. *)
Theorem extsort_sorts `{Srt : !Sorting, Snp : !Snappy, SL : !SortingLaws, NL : !SnappyLaws} (opts : Options)
  (order : list bytes -> list bytes) (items : list bytes) (fuel : nat)
  (SW : StrictWeak (LesserFunc opts)) (Hi : Forall (fun x => len x < 2 ^ 32) items) (Ho : forall fs, order fs ≡ₚ fs)
  (Hf : (length items < fuel)%nat) :
  (exists out, Spawn opts fuel order items = Ok out /\ StronglySorted (le (LesserFunc opts)) out /\ out ≡ₚ items) /\
  (forall s x, 2 ^ 32 <= len x -> Feed opts s x = Err "item length overflows uint32").
Proof.
  split; [by apply spawn_sorts|]. intros s x Hx. unfold Feed, MaxUint32. by rewrite (proj2 (Z.ltb_lt _ (len x))) by lia.
Qed.

(** Instances for evaluation: merge sort, and no compression. *)
#[export] Instance le_dec less (a b : bytes) : Decision (le less a b).
Proof. unfold le. apply _. Defined.
#[export] Instance merge_sorting : Sorting := {| sortSlice less := merge_sort (le less) |}.
#[export] Instance merge_sorting_laws : SortingLaws.
Proof.
  split.
  - intros less l. apply merge_sort_Permutation.
  - intros less l SW. apply StronglySorted_merge_sort.
    + intros a b c. apply (le_trans less).
    + intros a b. destruct (less b a) eqn:Hl; [right; by apply sw_asym|by left].
Qed.
#[export] Instance no_snappy : Snappy := {| snappy_write b := b; snappy_read b := b |}.
#[export] Instance no_snappy_laws : SnappyLaws.
Proof. by split. Qed.

#[export] Instance bytes_ltb_weak : StrictWeak bytes_ltb.
Proof.
  split.
  - intros a b. rewrite bytes_ltb_lt, bytes_ltb_nlt. intros H1 H2. by apply (bytes_lt_irrefl a), (bytes_lt_trans a b a).
  - intros a b c. rewrite !bytes_ltb_nlt. apply bytes_nlt_trans.
Qed.

Definition sample_sort_options : Options := mkOptions true false 12 bytes_ltb.
Definition sample_items : list bytes := [[z2b 3; z2b 1]; [z2b 2]; [z2b 3]; [z2b 2]; [z2b 1; z2b 7]].

Lemma extsort_sorts_witness :
  exists out, Spawn sample_sort_options 6 reverse sample_items = Ok out /\
    StronglySorted (le bytes_ltb) out /\ out ≡ₚ sample_items.
Proof.
  refine (proj1 (extsort_sorts sample_sort_options reverse sample_items 6 bytes_ltb_weak _ _ _)).
  - repeat constructor.
  - intros fs. apply reverse_Permutation.
  - cbn. lia.
Defined.

Definition list_next (s : list bytes) : res (option bytes * list bytes) :=
  match s with [] => Ok (None, []) | x :: s => Ok (Some x, s) end.

Lemma merge_sorted_streams_witness :
  exists m out, NewMultiWayMerge list_next bytes_ltb [[[z2b 1]; [z2b 4]]; []; [[z2b 2]]] = Ok m /\
    drain list_next bytes_ltb 4 m = Ok out /\ StronglySorted (le bytes_ltb) out /\
    out ≡ₚ concat [[[z2b 1]; [z2b 4]]; []; [[z2b 2]]].
Proof.
  refine (merge_sorted_streams list_next bytes_ltb [[[z2b 1]; [z2b 4]]; []; [[z2b 2]]] [[[z2b 1]; [z2b 4]]; []; [[z2b 2]]] 4 bytes_ltb_weak _ _ _).
  - repeat constructor; repeat (eapply y_item; [reflexivity|]); eapply y_end; reflexivity.
  - repeat constructor.
  - cbn. lia.
Defined.
