(* ===== verification/VersionDb.v ===== *)
(** The versioned key-value store on RocksDB: [versiondb/tsrocksdb] and
    [versiondb/store.go], [streaming_service.go].

    RocksDB is the interface [RocksDB] with its iterators [RocksIter]: a plain
    map for the latest version, and a column family whose keys carry timestamps,
    in which a read at a timestamp sees the newest entry that is not newer.
    A timestamp is the eight bytes that the code writes.

    Theorems: the key comparator orders by key and, for equal keys, newest
    first; a prefix range covers exactly the keys with the prefix; reading a
    version returns what the blocks up to it have written, for every store on
    its own; an iterator visits exactly the pairs of the store in its domain
    that are visible at its version, in its order. *)
From stdpp Require Import prelude strings gmap fin_maps sorting.
From Stdlib Require Import ZArith Lia.
From S2P Require Import Prelude OrdMap Codec Tree.
Local Open Scope Z_scope.

(** ** The comparator: [comparator.go] *)

Definition TimestampSize : nat := 8.

(** nil is the unset timestamp, which is less than any other. *)
Definition compareTS (bz1 bz2 : slice) : res comparison :=
  match bz1, bz2 with
  | None, None => Ok Eq
  | _, None => Ok Gt
  | None, _ => Ok Lt
  | Some b1, Some b2 =>
      let* ts1 := of_option "index out of range" (Uint64 b1) in
      let* ts2 := of_option "index out of range" (Uint64 b2) in
      Ok (ts1 ?= ts2)
  end.

(** [a[:len(a)-TimestampSize]] *)
Definition strip_ts (a : bytes) : res bytes :=
  if (length a <? TimestampSize)%nat then Panic "slice bounds out of range" else Ok (take (length a - TimestampSize) a).
Definition take_ts (a : bytes) : bytes := drop (length a - TimestampSize) a.

Definition compareWithoutTS (a : bytes) (aHasTS : bool) (b : bytes) (bHasTS : bool) : res comparison :=
  let* a := if aHasTS then strip_ts a else Ok a in
  let* b := if bHasTS then strip_ts b else Ok b in
  Ok (bytes_compare a b).

Definition compare (a b : bytes) : res comparison :=
  let* ret := compareWithoutTS a true b true in
  match ret with
  | Eq => let* c := compareTS (Some (take_ts a)) (Some (take_ts b)) in Ok (CompOpp c)
  | c => Ok c
  end.

(** ** RocksDB *)

Inductive BatchOp : Type :=
| BPut (key value : bytes)
| BPutTS (key ts value : bytes)
| BDeleteTS (key ts : bytes).

(** Iterators: positioned on an entry or not. *)
Class RocksIter (It : Type) := {
  itSeekToFirst : It -> It;
  itSeekToLast : It -> It;
  itSeek : It -> bytes -> It;
  itNext : It -> It;
  itPrev : It -> It;
  itValid : It -> bool;
  itErr : It -> option string;
  itKey : It -> bytes;
  itValue : It -> bytes;
  itTimestamp : It -> bytes;
}.

Class RocksDB (D It : Type) := {
  dbGet : D -> bytes -> res slice;
  dbWrite : D -> list BatchOp -> res D;
  dbGetTS : D -> bytes -> bytes -> res (option (bytes * bytes));
  dbNewIterator : D -> bytes -> It;
}.

(** ** Keys *)

Definition ascii_bytes (s : string) : bytes := String.list_byte_of_string s.
Definition latestVersionKey : bytes := ascii_bytes "s/latest".
Definition storePrefix (storeKey : bytes) : bytes := ascii_bytes "s/k:" ++ storeKey ++ ascii_bytes "/".
Definition prependStoreKey (storeKey key : bytes) : bytes := storePrefix storeKey ++ key.
Definition cloneAppend (bz tail : bytes) : bytes := bz ++ tail.

(** [cpIncr], from the last byte: the bytes incremented by one at the same
    length, nil when all are 0xFF. *)
Fixpoint incr_rev (r : bytes) : slice :=
  match r with
  | [] => None
  | b :: r => if b2z b <? 255 then Some (z2b (b2z b + 1) :: r) else let? r := incr_rev r in Some (z2b 0 :: r)
  end.
Definition cpIncr (bz : bytes) : res slice :=
  match bz with
  | [] => Panic "cpIncr expects non-zero bz length"
  | _ => Ok (let? r := incr_rev (reverse bz) in Some (reverse r))
  end.

Definition iterateWithPrefix (prefix : bytes) (begin end_ : slice) : res (slice * slice) :=
  match prefix with
  | [] => Ok (begin, end_)
  | _ =>
      let begin := Some (cloneAppend prefix (default [] begin)) in
      match end_ with
      | None => let* e := cpIncr prefix in Ok (begin, e)
      | Some e => Ok (begin, Some (cloneAppend prefix e))
      end
  end.

(** The timestamp of the read options; no version means the latest. *)
Definition newTSReadOptions (version : option Z) : bytes :=
  PutUint64 (match version with None => 2 ^ 64 - 1 | Some v => u64 v end).

(** ** The iterator: [iterator.go] *)

Section Iterator.
Context {It : Type} `{!RocksIter It}.

Record rocksDBIterator : Type := mkIter {
  source : It;
  prefix : bytes;
  start : slice;
  end_ : slice;
  domainStart : slice;
  domainEnd : slice;
  isReverse : bool;
  isInvalid : bool;
  skipVersionZero : bool;
}.
Definition set_source (itr : rocksDBIterator) (s : It) : rocksDBIterator :=
  mkIter s (prefix itr) (start itr) (end_ itr) (domainStart itr) (domainEnd itr) (isReverse itr) (isInvalid itr) (skipVersionZero itr).
Definition set_invalid (itr : rocksDBIterator) : rocksDBIterator :=
  mkIter (source itr) (prefix itr) (start itr) (end_ itr) (domainStart itr) (domainEnd itr) (isReverse itr) true (skipVersionZero itr).

(** Once invalid, forever invalid. *)
Definition Valid (itr : rocksDBIterator) : bool * rocksDBIterator :=
  if isInvalid itr then (false, itr)
  else
    match itErr (source itr) with
    | Some _ => (false, set_invalid itr)
    | None =>
        if negb (itValid (source itr)) then (false, set_invalid itr)
        else
          let key := itKey (source itr) in
          let out :=
            if isReverse itr then match start itr with Some s => bytes_ltb key s | None => false end
            else match end_ itr with Some e => negb (bytes_ltb key e) | None => false end in
          if out : bool then (false, set_invalid itr) else (true, itr)
    end.

Definition move (itr : rocksDBIterator) : rocksDBIterator :=
  set_source itr (if isReverse itr then itPrev (source itr) else itNext (source itr)).

(** [trySkipZeroVersion]: skip the entries with timestamp 0; [fuel] bounds the
    entries of the source. *)
Fixpoint skip_zero (fuel : nat) (itr : rocksDBIterator) : res rocksDBIterator :=
  match fuel with
  | O => Err "out of fuel"
  | S fuel =>
      let '(valid, itr) := Valid itr in
      if negb valid then Ok itr
      else
        let* ts := of_option "index out of range" (Uint64 (itTimestamp (source itr))) in
        if ts =? 0 then skip_zero fuel (move itr) else Ok itr
  end.
Definition trySkipZeroVersion (fuel : nat) (itr : rocksDBIterator) : res rocksDBIterator :=
  if skipVersionZero itr then skip_zero fuel itr else Ok itr.

Definition position (src : It) (start end_ : slice) (isReverse : bool) : It :=
  if isReverse then
    match end_ with
    | None => itSeekToLast src
    | Some e =>
        let src := itSeek src e in
        if itValid src then (if negb (bytes_ltb (itKey src) e) then itPrev src else src)
        else itSeekToLast src
    end
  else match start with None => itSeekToFirst src | Some s => itSeek src s end.

Definition newRocksDBIterator (fuel : nat) (src : It) (prefix : bytes) (start end_ domainStart domainEnd : slice)
  (isReverse skipVersionZero : bool) : res rocksDBIterator :=
  trySkipZeroVersion fuel
    (mkIter (position src start end_ isReverse) prefix start end_ domainStart domainEnd isReverse false skipVersionZero).

(** The accessors panic on an invalid iterator. *)
Definition assertIsValid {A} (itr : rocksDBIterator) (f : rocksDBIterator -> res A) : res A :=
  let '(valid, itr) := Valid itr in if valid then f itr else Panic "iterator is invalid".

Definition IterTimestamp (itr : rocksDBIterator) : res bytes := assertIsValid itr (fun itr => Ok (itTimestamp (source itr))).
Definition IterKey (itr : rocksDBIterator) : res bytes :=
  assertIsValid itr (fun itr => Ok (drop (length (prefix itr)) (itKey (source itr)))).
Definition IterValue (itr : rocksDBIterator) : res bytes := assertIsValid itr (fun itr => Ok (itValue (source itr))).
Definition Next (fuel : nat) (itr : rocksDBIterator) : res rocksDBIterator :=
  assertIsValid itr (fun itr => trySkipZeroVersion fuel (move itr)).
Definition Domain (itr : rocksDBIterator) : slice * slice := (domainStart itr, domainEnd itr).

(** A loop over an iterator: key, value and timestamp of every entry. *)
Fixpoint collect (fuel : nat) (itr : rocksDBIterator) : res (list (bytes * bytes * bytes)) :=
  match fuel with
  | O => Err "out of fuel"
  | S fuel' =>
      let '(valid, itr) := Valid itr in
      if negb valid then Ok []
      else
        let* k := IterKey itr in
        let* v := IterValue itr in
        let* t := IterTimestamp itr in
        let* itr := Next fuel itr in
        let* rest := collect fuel' itr in
        Ok ((k, v, t) :: rest)
  end.
End Iterator.

(** ** The store: [store.go] *)

Record StoreKVPair : Type := mkStoreKV { kv_store : bytes; kv_delete : bool; kv_key : bytes; kv_value : bytes }.
Definition ImportEntry : Type := (bytes * bytes * bytes)%type.

Section Store.
Context {D It : Type} `{!RocksIter It, !RocksDB D It}.

Record Store : Type := mkStore { st_db : D; st_skipVersionZero : bool }.

Definition SetSkipVersionZero (s : Store) (skip : bool) : Store := mkStore (st_db s) skip.
Definition write (s : Store) (batch : list BatchOp) : res Store :=
  let* d := dbWrite (st_db s) batch in Ok (mkStore d (st_skipVersionZero s)).

Definition SetLatestVersion (s : Store) (version : Z) : res Store := write s [BPut latestVersionKey (PutUint64 (u64 version))].

Definition pair_op (ts : bytes) (p : StoreKVPair) : BatchOp :=
  let key := prependStoreKey (kv_store p) (kv_key p) in
  if kv_delete p then BDeleteTS key ts else BPutTS key ts (kv_value p).

Definition PutAtVersion (s : Store) (version : Z) (changeSet : list StoreKVPair) : res Store :=
  let ts := PutUint64 (u64 version) in
  write s (BPut latestVersionKey ts :: (pair_op ts <$> changeSet)).

Definition GetAtVersionSlice (s : Store) (storeKey key : bytes) (version : option Z) : res slice :=
  let* r := dbGetTS (st_db s) (newTSReadOptions version) (prependStoreKey storeKey key) in
  match r with
  | None => Ok None
  | Some (value, ts) =>
      if st_skipVersionZero s then
        let* t := of_option "index out of range" (Uint64 ts) in
        if t =? 0 then Ok None else Ok (Some value)
      else Ok (Some value)
  end.
Definition GetAtVersion (s : Store) (storeKey key : bytes) (version : option Z) : res slice :=
  GetAtVersionSlice s storeKey key version.
Definition HasAtVersion (s : Store) (storeKey key : bytes) (version : option Z) : res bool :=
  let* v := GetAtVersionSlice s storeKey key version in Ok (bool_decide (is_Some v)).

Definition GetLatestVersion (s : Store) : res Z :=
  let* bz := dbGet (st_db s) latestVersionKey in
  match default [] bz with
  | [] => Ok 0
  | b => let* v := of_option "index out of range" (Uint64 b) in Ok (i64 v)
  end.

Definition errKeyEmpty : string := "key cannot be empty".

Definition iteratorAtVersion (fuel : nat) (s : Store) (storeKey : bytes) (start end_ : slice) (version : option Z) (reverse : bool)
  : res rocksDBIterator :=
  if decide (start = Some [] \/ end_ = Some []) then Err errKeyEmpty
  else
    let prefix := storePrefix storeKey in
    let* (b, e) := iterateWithPrefix prefix start end_ in
    newRocksDBIterator fuel (dbNewIterator (st_db s) (newTSReadOptions version)) prefix b e start end_ reverse (st_skipVersionZero s).

(** [FeedChangeSet]; a missing value is written as an empty one. *)
Definition FeedChangeSet (s : Store) (version : Z) (store : bytes) (cs : ChangeSet) : res Store :=
  let ts := PutUint64 (u64 version) in
  write s ((fun p => let key := cloneAppend (storePrefix store) (p_key p) in
                     if p_delete p then BDeleteTS key ts else BPutTS key ts (default [] (p_value p))) <$> cs).

Definition ImportCommitBatchSize : Z := 10000.

Fixpoint import_loop (s : Store) (ts : bytes) (counter : Z) (batch : list BatchOp) (ch : list ImportEntry) : res Store :=
  match ch with
  | [] => if (0 <? len batch) then write s batch else Ok s
  | (storeKey, key, value) :: ch =>
      let batch := batch ++ [BPutTS (cloneAppend (storePrefix storeKey) key) ts value] in
      let counter := counter + 1 in
      if counter mod ImportCommitBatchSize =? 0
      then let* s := write s batch in import_loop s ts counter [] ch
      else import_loop s ts counter batch ch
  end.
Definition Import (s : Store) (version : Z) (ch : list ImportEntry) : res Store :=
  import_loop s (PutUint64 (u64 version)) 0 [] ch.

(** [loadWrongData]: the entries at version 0, with the timestamp that is part
    of their keys. *)
Fixpoint wrong_pairs (fuel : nat) (itr : @rocksDBIterator It) : res (list (bytes * bytes * bytes)) :=
  match fuel with
  | O => Err "out of fuel"
  | S fuel' =>
      let '(valid, itr) := Valid itr in
      if negb valid then Ok []
      else
        let* tsb := IterTimestamp itr in
        let* ts := of_option "index out of range" (Uint64 tsb) in
        if negb (ts =? 0) then let* itr := Next fuel itr in wrong_pairs fuel' itr
        else
          let* key := IterKey itr in
          if (length key <? TimestampSize)%nat then Err "invalid key length"
          else
            let* value := IterValue itr in
            let p := (take (length key - TimestampSize) key, value, take_ts key) in
            let* itr := Next fuel itr in
            let* rest := wrong_pairs fuel' itr in
            Ok (p :: rest)
  end.
Definition loadWrongData (fuel : nat) (s : Store) (storeName : bytes) : res (list (bytes * bytes * bytes)) :=
  let* itr := iteratorAtVersion fuel s storeName None None (Some 0) false in wrong_pairs fuel itr.

Fixpoint fix_batch (s : Store) (prefix : bytes) (pairs : list (bytes * bytes * bytes)) : res (list BatchOp) :=
  match pairs with
  | [] => Ok []
  | (key, value, ts) :: pairs =>
      let realKey := cloneAppend prefix key in
      let* old := dbGetTS (st_db s) ts realKey in
      let clean := match old with
                   | Some (v, t) => bool_decide (v = value) && bool_decide (t = ts)
                   | None => bool_decide (value = []) && bool_decide (ts = [])
                   end in
      let* rest := fix_batch s prefix pairs in
      Ok (if clean : bool then rest else BPutTS realKey ts value :: rest)
  end.
Definition fixDataStore (fuel : nat) (s : Store) (storeName : bytes) (dryRun : bool) : res Store :=
  let* pairs := loadWrongData fuel s storeName in
  let* batch := fix_batch s (storePrefix storeName) pairs in
  if dryRun then Ok s else write s batch.
Fixpoint FixData (fuel : nat) (s : Store) (storeNames : list bytes) (dryRun : bool) : res Store :=
  match storeNames with
  | [] => Ok s
  | n :: ns => let* s := fixDataStore fuel s n dryRun in FixData fuel s ns dryRun
  end.
End Store.

(** ** What RocksDB promises *)

(** The newest entry of a key at a timestamp. *)
Definition newest (m : gmap (bytes * Z) slice) (k : bytes) (ts t : Z) (o : slice) : Prop :=
  m !! (k, t) = Some o /\ t <= ts /\ forall t' o', m !! (k, t') = Some o' -> t' <= ts -> t' <= t.

Definition apply_plain (m : gmap bytes bytes) (op : BatchOp) : gmap bytes bytes :=
  match op with BPut k v => <[k := v]> m | _ => m end.
Definition apply_ts (m : gmap (bytes * Z) slice) (op : BatchOp) : gmap (bytes * Z) slice :=
  match op with
  | BPut _ _ => m
  | BPutTS k ts v => <[(k, le_decode ts) := Some v]> m
  | BDeleteTS k ts => <[(k, le_decode ts) := None]> m
  end.

(** An entry that an iterator shows: key, value and timestamp. *)
Definition row : Type := (bytes * bytes * Z)%type.
Definition row_key (r : row) : bytes := r.1.1.

(** An iterator walks over a sorted list of entries; moving off either end
    leaves it without position. *)
Class RocksIterLaws (It : Type) `{!RocksIter It} := {
  rows : It -> list row;
  pos : It -> option nat;
  law_sorted : forall it, StronglySorted bytes_lt (row_key <$> rows it);
  law_ts : forall it, Forall (fun r => 0 <= r.2 < 2 ^ 64) (rows it);
  law_err : forall it, itErr it = None;
  law_valid : forall it, itValid it = bool_decide (is_Some (pos it ≫= fun i => rows it !! i));
  law_entry : forall it i r, pos it = Some i -> rows it !! i = Some r ->
    itKey it = r.1.1 /\ itValue it = r.1.2 /\ itTimestamp it = PutUint64 r.2;
  law_rows : forall it, rows (itSeekToFirst it) = rows it /\ rows (itSeekToLast it) = rows it /\
    (forall k, rows (itSeek it k) = rows it) /\ rows (itNext it) = rows it /\ rows (itPrev it) = rows it;
  law_first : forall it, pos (itSeekToFirst it) = Some 0%nat;
  law_last : forall it, pos (itSeekToLast it) = match rows it with [] => None | _ => Some (length (rows it) - 1)%nat end;
  law_seek : forall it k, pos (itSeek it k) = fst <$> list_find (fun r => ~ bytes_lt (row_key r) k) (rows it);
  law_next : forall it i, pos it = Some i -> pos (itNext it) = Some (S i);
  law_prev : forall it i, pos it = Some i -> pos (itPrev it) = match i with O => None | S i => Some i end;
}.

Class RocksLaws (D It : Type) `{!RocksIter It, !RocksDB D It, !RocksIterLaws It} := {
  plain : D -> gmap bytes bytes;
  versions : D -> gmap (bytes * Z) slice;
  law_get : forall d k, dbGet d k = Ok (plain d !! k);
  law_write : forall d d' b, dbWrite d b = Ok d' ->
    plain d' = fold_left apply_plain b (plain d) /\ versions d' = fold_left apply_ts b (versions d);
  law_get_found : forall d ts k t v, newest (versions d) k (le_decode ts) t (Some v) ->
    dbGetTS d ts k = Ok (Some (v, PutUint64 t));
  law_get_missing : forall d ts k, (forall t v, ~ newest (versions d) k (le_decode ts) t (Some v)) -> dbGetTS d ts k = Ok None;
  law_iter : forall d ts k v t, (k, v, t) ∈ rows (dbNewIterator d ts) <-> newest (versions d) k (le_decode ts) t (Some v);
}.

(** ** Order *)

Lemma take_ts_app a t : length t = TimestampSize -> take_ts (a ++ t) = t.
Proof. intros Hl. unfold take_ts. rewrite length_app, Hl. by rewrite drop_app_length' by lia. Qed.

Lemma strip_ts_app a t : length t = TimestampSize -> strip_ts (a ++ t) = Ok a.
Proof.
  intros Hl. unfold strip_ts. rewrite length_app, Hl. rewrite (proj2 (Nat.ltb_ge _ _)) by lia.
  by rewrite take_app_length' by lia.
Qed.

Lemma bytes_le_app p e : ~ bytes_lt (p ++ e) p.
Proof.
  unfold bytes_lt. induction p as [|x p IH]; [by destruct e|]. cbn. by rewrite Z.compare_refl.
Qed.

(** Between a prefix and an extension of it there are only extensions. *)
Lemma prefix_between p k e : ~ bytes_lt k p -> bytes_lt k (p ++ e) -> p `prefix_of` k.
Proof.
  unfold bytes_lt. revert k. induction p as [|x p IH]; intros k H1 H2; [by apply prefix_nil|].
  destruct k as [|y k]; [by cbn in H1|]. cbn in H1, H2.
  destruct (Z.compare_spec (b2z y) (b2z x)) as [E| |]; [|done|done]. apply b2z_inj in E as ->.
  apply prefix_cons, IH; done.
Qed.

Lemma bytes_lt_app p a b : bytes_lt (p ++ a) (p ++ b) <-> bytes_lt a b.
Proof. unfold bytes_lt. induction p as [|x p IH]; [done|]. cbn. by rewrite Z.compare_refl. Qed.

(** [cpIncr] of a prefix that does not end in 0xFF bounds exactly the keys with
    the prefix. *)
Lemma cpIncr_last a b : b2z b < 255 -> cpIncr (a ++ [b]) = Ok (Some (a ++ [z2b (b2z b + 1)])).
Proof.
  intros Hb. unfold cpIncr. assert (a ++ [b] <> []) by (by destruct a). destruct (a ++ [b]) eqn:E; [done|]. rewrite <- E.
  rewrite reverse_app. cbn [reverse rev_append app incr_rev]. rewrite (proj2 (Z.ltb_lt _ _)) by done.
  cbn [mbind option_bind]. by rewrite reverse_cons, reverse_involutive.
Qed.

Lemma prefix_range a b k : b2z b < 255 ->
  (~ bytes_lt k (a ++ [b]) /\ bytes_lt k (a ++ [z2b (b2z b + 1)])) <-> (a ++ [b]) `prefix_of` k.
Proof.
  intros Hb. pose proof (b2z_range b).
  assert (b2z (z2b (b2z b + 1)) = b2z b + 1) as Hb1 by (rewrite b2z_z2b; apply Z.mod_small; lia). split.
  - intros [H1 H2]. assert (a `prefix_of` k) as [k' ->].
    { apply (prefix_between a k [z2b (b2z b + 1)]); [|done]. intros Hk. apply H1.
      destruct (bytes_compare_spec k (a ++ [b])) as [->| |Hgt]; [by apply bytes_le_app in Hk|done|].
      exfalso. apply (bytes_le_app a [b]). by eapply bytes_lt_trans. }
    apply prefix_app. rewrite bytes_lt_app in H1, H2. destruct k' as [|y k']; [by cbn in H1|].
    unfold bytes_lt in H1, H2. cbn in H1, H2. rewrite Hb1 in H2.
    destruct (Z.compare_spec (b2z y) (b2z b)) as [E| |]; [|done|].
    + apply b2z_inj in E as ->. apply prefix_cons, prefix_nil.
    + destruct (Z.compare_spec (b2z y) (b2z b + 1)); [by destruct k'|lia|done].
  - intros [k' ->]. split; [apply bytes_le_app|]. rewrite <- app_assoc, bytes_lt_app. unfold bytes_lt. cbn. rewrite Hb1.
    by rewrite (proj2 (Z.compare_lt_iff _ _)) by lia.
Qed.

(** ** Walking over entries *)

Fixpoint prefix_while {A} (f : A -> bool) (l : list A) : list A :=
  match l with
  | [] => []
  | x :: l => if f x then x :: prefix_while f l else []
  end.

Section Walk.
Context {It : Type} `{!RocksIter It, !RocksIterLaws It}.

(** The entries from the current one on, in the order of the iterator. *)
Definition todo (itr : @rocksDBIterator It) : list row :=
  match isInvalid itr, (let? i := pos (source itr) in let? _ := rows (source itr) !! i in Some i) with
  | false, Some i => if isReverse itr then reverse (take (S i) (rows (source itr))) else drop i (rows (source itr))
  | _, _ => []
  end.

Definition in_bound (itr : @rocksDBIterator It) (r : row) : bool :=
  if isReverse itr then match start itr with Some s => negb (bytes_ltb (row_key r) s) | None => true end
  else match end_ itr with Some e => bytes_ltb (row_key r) e | None => true end.

Lemma take_S_reverse (l : list row) i r : l !! i = Some r -> reverse (take (S i) l) = r :: reverse (take i l).
Proof. intros H. by rewrite (take_S_r l i r), reverse_snoc. Qed.

Lemma todo_some itr i r : isInvalid itr = false -> pos (source itr) = Some i -> rows (source itr) !! i = Some r ->
  todo itr = r :: (if isReverse itr then reverse (take i (rows (source itr))) else drop (S i) (rows (source itr))).
Proof.
  intros Hv Hp Hr. unfold todo. rewrite Hv, Hp. cbn. rewrite Hr. cbn.
  destruct (isReverse itr); [by apply take_S_reverse|by apply drop_S].
Qed.

Lemma todo_cases itr : (todo itr = [] /\ (isInvalid itr = true \/ itValid (source itr) = false)) \/
  exists i r, isInvalid itr = false /\ pos (source itr) = Some i /\ rows (source itr) !! i = Some r /\ itValid (source itr) = true.
Proof.
  unfold todo. rewrite law_valid. destruct (isInvalid itr); [by left; auto|].
  destruct (pos (source itr)) as [i|]; cbn; [|left; split; [done|by right]].
  destruct (rows (source itr) !! i) as [r|] eqn:E; cbn; [right; by exists i, r|left; split; [done|by right]].
Qed.

(** [Valid] in terms of the entries left. *)
Lemma Valid_todo itr :
  match todo itr with
  | [] => exists itr', Valid itr = (false, itr')
  | r :: _ => if in_bound itr r then Valid itr = (true, itr) else exists itr', Valid itr = (false, itr')
  end.
Proof.
  destruct (todo_cases itr) as [[-> [Hv|Hv]]|(i & r & Hv & Hp & Hr & Ht)].
  - unfold Valid. rewrite Hv. by eexists.
  - unfold Valid. destruct (isInvalid itr); [by eexists|]. rewrite law_err, Hv. by eexists.
  - rewrite (todo_some itr i r Hv Hp Hr). unfold Valid, in_bound. rewrite Hv, law_err, Ht. cbn [negb].
    destruct (law_entry _ i r Hp Hr) as [-> _]. unfold row_key.
    destruct (isReverse itr).
    + destruct (start itr) as [s|]; [|done]. destruct (bytes_ltb r.1.1 s); [by eexists|done].
    + destruct (end_ itr) as [e|]; [|done]. destruct (bytes_ltb r.1.1 e); [done|by eexists].
Qed.

Lemma move_todo itr r rest : todo itr = r :: rest -> todo (move itr) = rest.
Proof.
  destruct (todo_cases itr) as [[-> _]|(i & r' & Hv & Hp & Hr & Ht)]; [done|].
  rewrite (todo_some itr i r' Hv Hp Hr). intros [= <- <-].
  destruct (law_rows (source itr)) as (_ & _ & _ & Hn & Hpr). unfold todo, move, set_source. cbn [isInvalid source isReverse].
  rewrite Hv. destruct (isReverse itr).
  - rewrite (law_prev _ i Hp), Hpr. destruct i as [|i]; cbn; [done|].
    destruct (rows (source itr) !! i) eqn:E; [done|]. apply lookup_ge_None in E. apply lookup_lt_Some in Hr. lia.
  - rewrite (law_next _ i Hp), Hn. cbn. destruct (rows (source itr) !! S i) eqn:E; [done|]. symmetry. apply drop_ge.
    by apply lookup_ge_None.
Qed.

Lemma head_entry itr r rest : todo itr = r :: rest ->
  itKey (source itr) = r.1.1 /\ itValue (source itr) = r.1.2 /\ itTimestamp (source itr) = PutUint64 r.2 /\ 0 <= r.2 < 2 ^ 64.
Proof.
  destruct (todo_cases itr) as [[-> _]|(i & r' & Hv & Hp & Hr & Ht)]; [done|].
  rewrite (todo_some itr i r' Hv Hp Hr). intros [= <- _]. destruct (law_entry _ i _ Hp Hr) as (-> & -> & ->).
  pose proof (law_ts (source itr)) as Hf. rewrite Forall_lookup in Hf. by split_and!; try apply (Hf i).
Qed.

(** Whether an entry is shown: not when zero timestamps are skipped. *)
Definition shown (itr : @rocksDBIterator It) (r : row) : bool := negb (skipVersionZero itr && (r.2 =? 0)).
Definition visible (itr : @rocksDBIterator It) : list row :=
  filter (fun r => shown itr r = true) (prefix_while (in_bound itr) (todo itr)).

(** Everything but the source and the flag. *)
Definition same_frame (a b : @rocksDBIterator It) : Prop :=
  prefix a = prefix b /\ start a = start b /\ end_ a = end_ b /\ isReverse a = isReverse b /\ skipVersionZero a = skipVersionZero b.

(** Standing on an entry to show, or at the end. *)
Definition ready (itr : @rocksDBIterator It) : Prop :=
  match todo itr with
  | r :: _ => in_bound itr r = true -> shown itr r = true
  | [] => True
  end.

Lemma Uint64_ts t : 0 <= t < 2 ^ 64 -> Uint64 (PutUint64 t) = Some t.
Proof. intros Ht. rewrite <- (app_nil_r (PutUint64 t)). by apply Uint64_Put. Qed.

Lemma Valid_false itr itr' : Valid itr = (false, itr') -> same_frame itr' itr /\ todo itr' = [].
Proof.
  unfold Valid. destruct (isInvalid itr) eqn:Hi.
  { intros [= <-]. split; [done|]. unfold todo. by rewrite Hi. }
  destruct (itErr _); [by intros [= <-]|]. destruct (negb _); [by intros [= <-]|]. cbv zeta. destruct (if isReverse itr then _ else _); [by intros [= <-]|done].
Qed.

(** Skipping shows nothing less. *)
Lemma skip_zero_ok fuel : forall itr, (length (todo itr) < fuel)%nat -> skipVersionZero itr = true ->
  exists itr', skip_zero fuel itr = Ok itr' /\ visible itr' = visible itr /\ ready itr' /\ same_frame itr' itr /\
    (length (todo itr') <= length (todo itr))%nat.
Proof.
  induction fuel as [|fuel IH]; intros itr Hf Hs; [lia|]. cbn [skip_zero]. pose proof (Valid_todo itr) as HV.
  destruct (todo itr) as [|r rest] eqn:Et.
  { destruct HV as [itr' Hv]. rewrite Hv. cbn [negb]. exists itr'. destruct (Valid_false _ _ Hv) as [Hfr Ht].
    unfold visible, ready. rewrite Ht, Et. done. }
  destruct (in_bound itr r) eqn:Eb.
  2:{ destruct HV as [itr' Hv]. rewrite Hv. cbn [negb]. exists itr'. destruct (Valid_false _ _ Hv) as [Hfr Ht].
      unfold visible, ready. rewrite Ht, Et. cbn [prefix_while]. rewrite Eb. split_and!; [done..|cbn; lia]. }
  rewrite HV. cbn [negb]. destruct (head_entry itr r rest Et) as (_ & _ & -> & Hr). rewrite Uint64_ts by done. cbn [of_option res_bind].
  destruct (Z.eqb_spec r.2 0) as [E0|E0].
  - destruct (IH (move itr)) as (itr' & -> & Hvis & Hrd & Hfr & Hlen); [rewrite (move_todo itr r rest Et); cbn in Hf; lia|done|].
    exists itr'. rewrite (move_todo itr r rest Et) in Hlen. split_and!; [done| |done|done|cbn; lia].
    rewrite Hvis. unfold visible. rewrite (move_todo itr r rest Et), Et. cbn [prefix_while]. rewrite Eb, filter_cons.
    rewrite (decide_False (P := shown itr r = true)); [done|]. unfold shown. by rewrite Hs, E0.
  - exists itr. split_and!; [done|done| |done|by rewrite Et]. unfold ready. rewrite Et. intros _. unfold shown.
    rewrite (proj2 (Z.eqb_neq _ _)) by done. by rewrite andb_false_r.
Qed.

Lemma trySkip_ok fuel itr : (length (todo itr) < fuel)%nat ->
  exists itr', trySkipZeroVersion fuel itr = Ok itr' /\ visible itr' = visible itr /\ ready itr' /\ same_frame itr' itr /\
    (length (todo itr') <= length (todo itr))%nat.
Proof.
  intros Hf. unfold trySkipZeroVersion. destruct (skipVersionZero itr) eqn:Hs; [by apply skip_zero_ok|].
  exists itr. split_and!; [done|done| |done|done]. unfold ready, shown. rewrite Hs. by destruct (todo itr).
Qed.

Definition show (prefix : bytes) (r : row) : bytes * bytes * bytes := (drop (length prefix) r.1.1, r.1.2, PutUint64 r.2).

Lemma iterator_collect_ok fuel : forall itr, ready itr -> (length (todo itr) < fuel)%nat ->
  collect fuel itr = Ok (show (prefix itr) <$> visible itr).
Proof.
  induction fuel as [|fuel IH]; intros itr Hrd Hf; [lia|]. cbn [collect]. pose proof (Valid_todo itr) as HV.
  unfold ready in Hrd. unfold visible. destruct (todo itr) as [|r rest] eqn:Et.
  { destruct HV as [itr' Hv]. by rewrite Hv. }
  cbn [prefix_while]. destruct (in_bound itr r) eqn:Eb; [|destruct HV as [itr' Hv]; by rewrite Hv].
  rewrite HV. cbn [negb]. unfold IterKey, IterValue, IterTimestamp, Next, assertIsValid. rewrite HV. cbn [res_bind].
  destruct (head_entry itr r rest Et) as (-> & -> & -> & Hr). pose proof (move_todo itr r rest Et) as Hm.
  destruct (trySkip_ok (S fuel) (move itr)) as (itr' & -> & Hvis & Hrd' & Hfr & Hlen); [rewrite Hm; cbn in Hf; lia|]. cbn [res_bind].
  rewrite IH; [|done|rewrite Hm in Hlen; cbn in Hf; lia]. cbn [res_bind]. rewrite Hvis.
  rewrite filter_cons, decide_True by auto. rewrite fmap_cons. unfold visible. rewrite Hm.
  destruct Hfr as (-> & _). done.
Qed.

(** ** From the position to the range *)

Lemma prefix_while_filter (f : row -> bool) l :
  (forall i j r r', (i < j)%nat -> l !! i = Some r -> l !! j = Some r' -> f r = false -> f r' = false) ->
  prefix_while f l = filter (fun r => f r = true) l.
Proof.
  induction l as [|x l IH]; intros Hm; [done|]. cbn [prefix_while]. rewrite filter_cons. destruct (f x) eqn:Ef.
  - rewrite decide_True by done. f_equal. apply IH. intros i j r r' Hij Hi Hj. apply (Hm (S i) (S j)); [lia|done..].
  - rewrite decide_False by done. symmetry.
    assert (forall r, r ∈ l -> f r = false) as Hall.
    { intros r Hr. apply list_elem_of_lookup in Hr as [i Hi]. apply (Hm 0%nat (S i) x r); [lia|done..]. }
    clear -Hall. induction l as [|y l IH]; [done|]. rewrite filter_cons, decide_False by (rewrite Hall; [done|left]).
    apply IH. intros r Hr. apply Hall. by right.
Qed.

Lemma sorted_lookup (l : list row) i j r r' : StronglySorted bytes_lt (row_key <$> l) -> (i < j)%nat ->
  l !! i = Some r -> l !! j = Some r' -> bytes_lt (row_key r) (row_key r').
Proof.
  revert i j. induction l as [|x l IH]; intros i j Hs Hij Hi Hj; [done|]. rewrite fmap_cons in Hs.
  apply StronglySorted_inv in Hs as [Hs Hf]. destruct j as [|j]; [lia|]. cbn in Hj. destruct i as [|i].
  - injection Hi as ->. rewrite Forall_forall in Hf. apply Hf. apply list_elem_of_fmap_2. by eapply list_elem_of_lookup_2.
  - by apply (IH i j); [|lia|..].
Qed.

Lemma sorted_rows_filter (P : row -> Prop) `{!forall r, Decision (P r)} l :
  StronglySorted bytes_lt (row_key <$> l) -> StronglySorted bytes_lt (row_key <$> filter P l).
Proof.
  induction l as [|x l IH]; intros Hs; [done|]. rewrite fmap_cons in Hs. apply StronglySorted_inv in Hs as [Hs Hf].
  rewrite filter_cons. destruct (decide (P x)); [|auto]. rewrite fmap_cons. constructor; [auto|].
  rewrite Forall_forall in *. intros k Hk. apply Hf. apply list_elem_of_fmap in Hk as (r & -> & Hr).
  apply list_elem_of_filter in Hr as [_ Hr]. by apply list_elem_of_fmap_2.
Qed.

(** A condition that, once true along the list, stays true, splits it. *)
Definition upward (P : row -> Prop) (l : list row) : Prop :=
  forall i j r r', (i < j)%nat -> l !! i = Some r -> l !! j = Some r' -> P r -> P r'.

Lemma split_find (P : row -> Prop) `{!forall r, Decision (P r)} l : upward P l ->
  match list_find P l with
  | Some (i, _) => filter P l = drop i l /\ filter (fun r => ~ P r) l = take i l
  | None => filter P l = [] /\ filter (fun r => ~ P r) l = l
  end.
Proof.
  induction l as [|x l IH]; intros Hm; [done|]. cbn [list_find]. rewrite !filter_cons.
  assert (upward P l) as Hm' by (intros i j r r' Hij Hi Hj; apply (Hm (S i) (S j)); [lia|done..]). specialize (IH Hm').
  destruct (decide (P x)) as [Hx|Hx].
  - rewrite decide_False by tauto. assert (forall r, r ∈ l -> P r) as Hall.
    { intros r Hr. apply list_elem_of_lookup in Hr as [i Hi]. apply (Hm 0%nat (S i) x r); [lia|done..]. }
    clear -Hall. cbn. split; [f_equal|]; induction l as [|y l IH]; try done; rewrite filter_cons.
    + rewrite decide_True by (apply Hall; left). f_equal. apply IH. intros r Hr. apply Hall. by right.
    + rewrite decide_False; [apply IH; intros r Hr; apply Hall; by right|]. intros Hn. apply Hn, Hall. left.
  - rewrite decide_True by done. destruct (list_find P l) as [[i y]|]; cbn; destruct IH as [-> ->]; done.
Qed.

Definition below (e : slice) (k : bytes) : Prop := match e with Some e => bytes_lt k e | None => True end.
#[export] Instance below_dec e k : Decision (below e k).
Proof. unfold below. destruct e; apply _. Defined.
Definition in_range (s : bytes) (e : slice) (k : bytes) : Prop := ~ bytes_lt k s /\ below e k.
#[export] Instance in_range_dec s e k : Decision (in_range s e k).
Proof. unfold in_range. apply _. Defined.

Lemma seek_upward it k : upward (fun r => ~ bytes_lt (row_key r) k) (rows it).
Proof.
  intros i j r r' Hij Hi Hj H1 H2. apply H1. eapply bytes_lt_trans; [|exact H2]. by eapply sorted_lookup; [apply law_sorted|..].
Qed.

Lemma reverse_filter (P : row -> Prop) `{!forall r, Decision (P r)} l : filter P (reverse l) = reverse (filter P l).
Proof.
  induction l as [|x l IH]; [done|]. rewrite reverse_cons, filter_app, IH, !filter_cons, filter_nil.
  destruct (decide (P x)); [by rewrite reverse_cons|by rewrite app_nil_r].
Qed.

Section Position.
Context (src : It) (p s : bytes) (e ds de : slice) (rev skip : bool).
Let itr0 := mkIter (position src (Some s) e rev) p (Some s) e ds de rev false skip.

Lemma position_rows : rows (source itr0) = rows src.
Proof.
  unfold itr0, position. cbn [source]. destruct (law_rows src) as (H1 & H2 & H3 & _). destruct rev; [|apply H3].
  destruct e as [e'|]; [|apply H2]. destruct (itValid _); [|destruct (law_rows (itSeek src e')) as (_ & -> & _); apply H3].
  destruct (negb _); [|apply H3]. destruct (law_rows (itSeek src e')) as (_ & _ & _ & _ & ->). apply H3.
Qed.

Lemma todo_last it0 : rows it0 = rows src -> pos it0 = match rows src with [] => None | _ => Some (length (rows src) - 1)%nat end ->
  todo (mkIter it0 p (Some s) e ds de true false skip) = reverse (rows src).
Proof.
  intros Hr Hp. unfold todo. cbn [isInvalid source isReverse]. rewrite Hp, Hr. destruct (rows src) as [|x l] eqn:E; [done|].
  cbn [mbind option_bind]. destruct ((x :: l) !! (length (x :: l) - 1)%nat) eqn:El.
  - f_equal. apply take_ge. cbn. lia.
  - apply lookup_ge_None in El. cbn in El. lia.
Qed.

(** The entries ahead of a new iterator. *)
Lemma todo_position : todo itr0 =
  if rev then reverse (filter (fun r => below e (row_key r)) (rows src))
  else filter (fun r => ~ bytes_lt (row_key r) s) (rows src).
Proof.
  pose proof position_rows as Hrows. unfold itr0, position in *. cbn [source] in Hrows. destruct rev.
  - destruct e as [e'|].
    + pose proof (split_find (fun r => ~ bytes_lt (row_key r) e') (rows src) (seek_upward src e')) as Hsp.
      pose proof (law_seek src e') as Hseek. pose proof (law_valid (itSeek src e')) as Hval.
      destruct (law_rows src) as (_ & _ & Hr3 & _). rewrite Hr3 in Hval.
      assert (filter (fun r => ~ ~ bytes_lt (row_key r) e') (rows src) = filter (fun r => below (Some e') (row_key r)) (rows src)) as Hdn.
      { apply list_filter_iff. intros r. cbn [below]. split; [|tauto]. intros H. destruct (decide (bytes_lt (row_key r) e')); tauto. }
      destruct (list_find _ (rows src)) as [[i r]|] eqn:Ef; cbn in Hseek.
      * apply list_find_Some in Ef as (Hi & Hge & _). rewrite Hseek in Hval. cbn in Hval. rewrite Hi in Hval.
        rewrite bool_decide_eq_true_2 in Hval by by eexists. rewrite Hval in *.
        assert (itKey (itSeek src e') = row_key r) as Hk by (eapply (law_entry (itSeek src e') i r); [done|by rewrite Hr3]).
        rewrite Hk, (proj2 (bytes_ltb_nlt _ _)) in * by done. cbn [negb] in *. unfold todo. cbn [isInvalid source isReverse].
        rewrite (law_prev _ i Hseek), Hrows. destruct Hsp as [_ Hsp]. rewrite Hdn in Hsp. rewrite Hsp.
        destruct i as [|i]; [done|]. cbn. destruct (rows src !! i) eqn:E; [done|].
        apply lookup_ge_None in E. apply lookup_lt_Some in Hi. lia.
      * rewrite Hseek in Hval. cbn in Hval. rewrite Hval in *. cbv iota in *. destruct Hsp as [_ Hsp]. rewrite Hdn in Hsp. rewrite Hsp.
        apply todo_last; [done|].
        etrans; [exact (law_last (itSeek src e'))|]. by rewrite Hr3.
    + assert (filter (fun r => below None (row_key r)) (rows src) = rows src) as ->.
      { clear. induction (rows src) as [|x l IH]; [done|]. rewrite filter_cons, decide_True by done. f_equal. exact IH. }
      apply todo_last; [done|apply law_last].
  - pose proof (split_find (fun r => ~ bytes_lt (row_key r) s) (rows src) (seek_upward src s)) as Hsp.
    unfold todo. cbn [isInvalid source isReverse]. rewrite law_seek, Hrows.
    destruct (list_find _ (rows src)) as [[i r]|] eqn:Ef; cbn.
    + apply list_find_Some in Ef as (Hi & _). rewrite Hi. cbn. by destruct Hsp as [-> _].
    + by destruct Hsp as [-> _].
Qed.

(** What a new iterator is going to show: the entries in range. *)
Lemma visible_position : visible itr0 =
  let l := filter (fun r => in_range s e (row_key r) /\ shown itr0 r = true) (rows src) in if rev then reverse l else l.
Proof.
  cbv zeta. unfold visible. rewrite todo_position. unfold in_bound. cbn [isReverse start end_ itr0].
  pose proof (law_sorted src) as Hs. destruct rev.
  - rewrite prefix_while_filter.
    + rewrite !reverse_filter, !list_filter_filter. f_equal. apply list_filter_iff. intros r. unfold in_range.
      rewrite negb_true_iff, bytes_ltb_nlt. tauto.
    + intros i j r r' Hij Hi Hj. rewrite !negb_false_iff, !bytes_ltb_lt. intros Hr. eapply bytes_lt_trans; [|exact Hr].
      apply reverse_lookup_Some in Hi as [Hi Hil], Hj as [Hj Hjl].
      eapply (sorted_lookup _ _ _ _ _ (sorted_rows_filter _ _ Hs)); [|exact Hj|exact Hi]. lia.
  - rewrite prefix_while_filter.
    + rewrite !list_filter_filter. apply list_filter_iff. intros r. unfold in_range, below.
      destruct e as [e'|]; [rewrite bytes_ltb_lt|]; naive_solver.
    + intros i j r r' Hij Hi Hj. destruct e as [e'|]; [|done]. rewrite !bytes_ltb_nlt. intros Hr H'. apply Hr.
      eapply bytes_lt_trans; [|exact H']. by eapply (sorted_lookup _ _ _ _ _ (sorted_rows_filter _ _ Hs)).
Qed.

Lemma todo_position_length : (length (todo itr0) <= length (rows src))%nat.
Proof. rewrite todo_position. destruct rev; [rewrite length_reverse|]; apply length_filter. Qed.

(** A new iterator, drained. *)
Lemma new_iterator_collects fuel : (length (rows src) < fuel)%nat ->
  exists itr, newRocksDBIterator fuel src p (Some s) e ds de rev skip = Ok itr /\
    collect fuel itr = Ok (show p <$> (let l := filter (fun r => in_range s e (row_key r) /\ negb (skip && (r.2 =? 0)) = true) (rows src) in
                                       if rev then reverse l else l)).
Proof.
  intros Hf. unfold newRocksDBIterator. fold itr0. pose proof todo_position_length.
  destruct (trySkip_ok fuel itr0) as (itr & -> & Hv & Hr & (Hp & _) & Hl); [lia|]. exists itr. split; [done|].
  rewrite iterator_collect_ok by (done || lia). rewrite Hv, visible_position, Hp. done.
Qed.
End Position.
End Walk.

(** ** Stores and blocks *)

(** Store names do not contain the separator. *)
Definition no_slash (n : bytes) : Prop := z2b 47 ∉ n.

Lemma split_at_sep {A} (c : A) s s' k k' : c ∉ s -> c ∉ s' -> s ++ c :: k = s' ++ c :: k' -> s = s' /\ k = k'.
Proof.
  revert s'. induction s as [|x s IH]; intros [|x' s'] H1 H2 E; cbn in E; simplify_eq; try done.
  - exfalso. apply H2. left.
  - exfalso. apply H1. left.
  - destruct (IH s') as [-> ->]; [by intros ?; apply H1; right|by intros ?; apply H2; right|done|done].
Qed.

Lemma full_key n k : prependStoreKey n k = ascii_bytes "s/k:" ++ n ++ z2b 47 :: k.
Proof. unfold prependStoreKey, storePrefix. by rewrite <- !app_assoc. Qed.

Lemma full_key_inj n n' k k' : no_slash n -> no_slash n' -> prependStoreKey n k = prependStoreKey n' k' -> n = n' /\ k = k'.
Proof. intros H1 H2 E. rewrite !full_key in E. apply (inj (app _)) in E. by apply split_at_sep in E. Qed.

(** A block: a version and the changes of its stores. *)
Abbreviation Block := (Z * list StoreKVPair)%type.
(** A block of a version that is at least [lo]. *)
Definition block_from (lo : Z) (b : Block) : Prop := Z.max 0 lo <= b.1 < 2 ^ 63 /\ Forall (fun p => no_slash (kv_store p)) b.2.
Abbreviation block_ok := (block_from 1).
(** The version read when none is given: the latest. *)
Definition read_version (version : option Z) : Z := match version with None => 2 ^ 64 - 1 | Some v => v end.
Definition version_ok (version : option Z) : Prop := forall v, version = Some v -> 0 <= v < 2 ^ 63.

(** The last change of a key in a change set. *)
Definition op_on (store key : bytes) (acc : option slice) (p : StoreKVPair) : option slice :=
  if decide (kv_store p = store /\ kv_key p = key) then Some (if kv_delete p then None else Some (kv_value p)) else acc.
Definition last_op (cs : list StoreKVPair) (store key : bytes) : option slice := fold_left (op_on store key) cs None.

(** The value of a key after the blocks up to a version. *)
Definition value_at (hist : list Block) (store key : bytes) (v : Z) : slice :=
  fold_left (fun acc b => if b.1 <=? v then match last_op b.2 store key with Some o => o | None => acc end else acc) hist None.

(** What is recorded for a key at a timestamp. *)
Definition written (hist : list Block) (store key : bytes) (t : Z) : option slice :=
  fold_left (fun acc b => if b.1 =? t then match last_op b.2 store key with Some o => Some o | None => acc end else acc) hist None.

Lemma le_decode_ts v : 0 <= v < 2 ^ 64 -> le_decode (PutUint64 v) = v.
Proof. intros Hv. unfold PutUint64. rewrite le_decode_encode. apply Z.mod_small. change (8 * Z.of_nat 8) with 64. lia. Qed.

Lemma ops_lookup v store key t cs m : 0 <= v < 2 ^ 64 -> no_slash store -> Forall (fun p => no_slash (kv_store p)) cs ->
  fold_left apply_ts (pair_op (PutUint64 v) <$> cs) m !! (prependStoreKey store key, t) =
    if v =? t then match last_op cs store key with Some o => Some o | None => m !! (prependStoreKey store key, t) end
    else m !! (prependStoreKey store key, t).
Proof.
  intros Hv Hs. induction cs as [|p cs IH] using rev_ind; intros Hc; [by destruct (v =? t)|].
  apply Forall_app in Hc as [Hc [Hp _]%Forall_cons]. rewrite fmap_app, fold_left_app. cbn [fmap list_fmap fold_left].
  unfold last_op. rewrite fold_left_app. cbn [fold_left]. fold (last_op cs store key). specialize (IH Hc).
  set (m' := fold_left apply_ts _ m) in *. unfold pair_op, op_on.
  set (o := if kv_delete p then None else Some (kv_value p)).
  assert (apply_ts m' (if kv_delete p then BDeleteTS (prependStoreKey (kv_store p) (kv_key p)) (PutUint64 v)
     else BPutTS (prependStoreKey (kv_store p) (kv_key p)) (PutUint64 v) (kv_value p)) =
     <[(prependStoreKey (kv_store p) (kv_key p), v) := o]> m') as ->.
  { unfold o. destruct (kv_delete p); cbn [apply_ts]; by rewrite le_decode_ts. }
  destruct (Z.eqb_spec v t) as [->|Hne].
  - destruct (decide (kv_store p = store /\ kv_key p = key)) as [[<- <-]|Hno].
    + by rewrite lookup_insert_eq.
    + rewrite lookup_insert_ne; [done|]. intros E%(f_equal fst). apply Hno. cbn [fst] in E. by apply full_key_inj in E as [-> ->].
  - rewrite lookup_insert_ne; [done|]. intros E%(f_equal snd). done.
Qed.

(** The newest record at a version. *)
Definition newest_in (f : Z -> option slice) (v t : Z) (o : slice) : Prop :=
  f t = Some o /\ t <= v /\ forall t' o', f t' = Some o' -> t' <= v -> t' <= t.

Lemma written_in hist store key t o : written hist store key t = Some o -> exists b, b ∈ hist /\ b.1 = t.
Proof.
  unfold written. induction hist as [|b hist IH] using rev_ind; [done|]. rewrite fold_left_app. cbn [fold_left].
  destruct (Z.eqb_spec b.1 t) as [E|_].
  - intros _. exists b. split; [set_solver|done].
  - intros H. destruct (IH H) as (b' & Hb & Eb). exists b'. split; [set_solver|done].
Qed.

Definition increasing (hist : list Block) : Prop := StronglySorted Z.lt hist.*1.

Lemma increasing_snoc hist b : increasing (hist ++ [b]) -> increasing hist /\ forall b', b' ∈ hist -> b'.1 < b.1.
Proof.
  unfold increasing. rewrite fmap_app. intros Hs. split; [by eapply StronglySorted_app_1_l|].
  intros b' Hb'. eapply StronglySorted_app_1_elem_of; [exact Hs|by apply list_elem_of_fmap_2|set_solver].
Qed.

(** Reading the newest record gives the value of the blocks. *)
Lemma value_newest hist store key : increasing hist -> forall v x,
  value_at hist store key v = Some x <-> exists t, newest_in (written hist store key) v t (Some x).
Proof.
  induction hist as [|[w cs] hist IH] using rev_ind; intros Hinc v x.
  { split; [done|]. intros (t & H & _). done. }
  destruct (increasing_snoc _ _ Hinc) as [Hinc' Hlt]. specialize (IH Hinc'). cbn [fst] in Hlt.
  assert (forall t, written (hist ++ [(w, cs)]) store key t =
    if w =? t then match last_op cs store key with Some o => Some o | None => written hist store key t end
    else written hist store key t) as Hw by (intros t; unfold written; by rewrite fold_left_app).
  assert (forall t o, written hist store key t = Some o -> t < w) as Hb.
  { intros t o Ho. apply written_in in Ho as (b & Hb & <-). by apply Hlt. }
  assert (value_at (hist ++ [(w, cs)]) store key v =
    if w <=? v then match last_op cs store key with Some o => o | None => value_at hist store key v end
    else value_at hist store key v) as -> by (unfold value_at; by rewrite fold_left_app).
  destruct (Z.leb_spec w v) as [Hle|Hgt].
  - destruct (last_op cs store key) as [o|].
    + split.
      * intros ->. exists w. split_and!; [by rewrite Hw, Z.eqb_refl|done|]. intros t' o'. rewrite Hw.
        destruct (Z.eqb_spec w t'); [lia|]. intros Ho _. apply Hb in Ho. lia.
      * intros (t & Ht & Htv & Hmax). specialize (Hmax w o). rewrite Hw, Z.eqb_refl in Hmax. specialize (Hmax eq_refl Hle).
        rewrite Hw in Ht. destruct (Z.eqb_spec w t); [congruence|]. apply Hb in Ht. lia.
    + rewrite IH. assert (forall t, written (hist ++ [(w, cs)]) store key t = written hist store key t) as He
        by (intros t; rewrite Hw; by destruct (w =? t)).
      unfold newest_in. by setoid_rewrite He.
  - rewrite IH. split; intros (t & Ht & Htv & Hmax); exists t; (split_and!; [|done|]).
    + rewrite Hw. destruct (Z.eqb_spec w t); [lia|done].
    + intros t' o'. rewrite Hw. destruct (Z.eqb_spec w t'); [lia|apply Hmax].
    + rewrite Hw in Ht. destruct (Z.eqb_spec w t); [lia|done].
    + intros t' o' Ho Hl. apply (Hmax t' o'); [|done]. rewrite Hw. destruct (Z.eqb_spec w t'); [lia|done].
Qed.

Section Blocks.
Context {D It : Type} `{RI : !RocksIter It, RD : !RocksDB D It, IL : !RocksIterLaws It, RL : !RocksLaws D It}.

(** The blocks, written one after the other. *)
Fixpoint put_all (s : @Store D) (hist : list Block) : res (@Store D) :=
  match hist with
  | [] => Ok s
  | (v, cs) :: hist => let* s := PutAtVersion s v cs in put_all s hist
  end.

(** A store without data. *)
Definition fresh (s : @Store D) : Prop :=
  (forall k t, versions (st_db s) !! (k, t) = None) /\ plain (st_db s) !! latestVersionKey = None.

Lemma fold_plain_ops ts cs m : fold_left apply_plain (pair_op ts <$> cs) m = m.
Proof. revert m. induction cs as [|p cs IH]; intros m; [done|]. cbn. rewrite IH. unfold pair_op. by destruct (kv_delete p). Qed.

Lemma put_effect lo s s' v cs : PutAtVersion s v cs = Ok s' -> block_from lo (v, cs) ->
  st_skipVersionZero s' = st_skipVersionZero s /\
  plain (st_db s') !! latestVersionKey = Some (PutUint64 v) /\
  forall store key t, no_slash store -> versions (st_db s') !! (prependStoreKey store key, t) =
    if v =? t then match last_op cs store key with Some o => Some o | None => versions (st_db s) !! (prependStoreKey store key, t) end
    else versions (st_db s) !! (prependStoreKey store key, t).
Proof.
  intros E [Hv Hc]. cbn [fst snd] in Hv, Hc. unfold PutAtVersion, write in E. rewrite u64_small in E by lia.
  apply res_bind_ok in E as (d & Ed & <-%Ok_inj). cbn [st_db st_skipVersionZero]. apply law_write in Ed as [Ep Ev].
  split_and!; [done| |].
  - rewrite Ep. cbn [fold_left apply_plain]. by rewrite fold_plain_ops, lookup_insert_eq.
  - intros store key t Hs. rewrite Ev. cbn [fold_left apply_ts]. apply ops_lookup; [lia|done..].
Qed.

Lemma put_all_effect lo hist : forall s s', put_all s hist = Ok s' -> Forall (block_from lo) hist ->
  st_skipVersionZero s' = st_skipVersionZero s /\
  plain (st_db s') !! latestVersionKey =
    match last hist with Some b => Some (PutUint64 b.1) | None => plain (st_db s) !! latestVersionKey end /\
  forall store key t, no_slash store -> versions (st_db s') !! (prependStoreKey store key, t) =
    fold_left (fun acc b => if b.1 =? t then match last_op b.2 store key with Some o => Some o | None => acc end else acc)
      hist (versions (st_db s) !! (prependStoreKey store key, t)).
Proof.
  induction hist as [|[v cs] hist IH]; intros s s' E Hok; [by apply Ok_inj in E as ->|].
  apply Forall_cons in Hok as [Hb Hok]. cbn [put_all] in E. apply res_bind_ok in E as (s1 & E1 & E).
  destruct (put_effect lo s s1 v cs E1 Hb) as (K1 & P1 & V1). destruct (IH s1 s' E Hok) as (K2 & P2 & V2). split_and!.
  - by rewrite K2.
  - rewrite P2. destruct hist as [|b hist]; [exact P1|]. rewrite last_cons_cons.
    destruct (last (b :: hist)) eqn:El; [done|]. by apply last_None in El.
  - intros store key t Hs. rewrite V2 by done. cbn [fold_left fst snd]. by rewrite V1.
Qed.

(** What is recorded for a key is what the blocks have written. *)
Definition records (s : @Store D) (hist : list Block) (store key : bytes) : Prop :=
  forall t, versions (st_db s) !! (prependStoreKey store key, t) = written hist store key t.

Lemma newest_records hist s store key ts t o : records s hist store key ->
  newest (versions (st_db s)) (prependStoreKey store key) ts t o <-> newest_in (written hist store key) ts t o.
Proof. intros Hw. unfold records in Hw. unfold newest, newest_in. by setoid_rewrite Hw. Qed.

Lemma put_all_records lo hist s s' store key : put_all s hist = Ok s' -> fresh s -> Forall (block_from lo) hist -> no_slash store -> records s' hist store key.
Proof. intros E [Hf _] Hok Hs t. destruct (put_all_effect _ hist s s' E Hok) as (_ & _ & HV). rewrite HV by done. by rewrite Hf. Qed.

Lemma newest_written hist s s' store key ts t o : put_all s hist = Ok s' -> fresh s -> Forall block_ok hist -> no_slash store ->
  newest (versions (st_db s')) (prependStoreKey store key) ts t o <-> newest_in (written hist store key) ts t o.
Proof. intros E Hf Hok Hs. by eapply newest_records, put_all_records. Qed.

Lemma read_ts version : (forall v, version = Some v -> 0 <= v < 2 ^ 63) ->
  le_decode (newTSReadOptions version) = match version with None => 2 ^ 64 - 1 | Some v => v end.
Proof.
  intros Hv. unfold newTSReadOptions. destruct version as [v|]; [|by apply le_decode_ts].
  specialize (Hv v eq_refl). rewrite u64_small by lia. apply le_decode_ts. lia.
Qed.

(** A recorded timestamp is the version of a block. *)
Lemma written_range lo hist store key ts t o : Forall (block_from lo) hist -> newest_in (written hist store key) ts t o -> Z.max 0 lo <= t < 2 ^ 63.
Proof.
  intros Hok (Hw & _ & _). apply written_in in Hw as (b & Hb & <-). rewrite Forall_forall in Hok. by apply (Hok b).
Qed.

(** A store that skips version 0 shows the blocks from 1 on. *)
Definition shows_from (s : @Store D) (lo : Z) : Prop := st_skipVersionZero s = true -> 1 <= lo.

Lemma get_from lo hist (s : @Store D) store key version : shows_from s lo -> records s hist store key -> Forall (block_from lo) hist ->
  increasing hist -> version_ok version ->
  GetAtVersionSlice s store key version = Ok (value_at hist store key (read_version version)).
Proof.
  intros Hlo Hr Hok Hinc Hv. unfold read_version. unfold GetAtVersionSlice. set (ts := match version with None => _ | Some v => v end).
  pose proof (read_ts version Hv) as Hts. fold ts in Hts.
  destruct (value_at hist store key ts) as [x|] eqn:Ex.
  - apply value_newest in Ex as (t & Hn); [|done]. pose proof (written_range _ _ _ _ _ _ _ Hok Hn) as Ht.
    rewrite (law_get_found _ _ _ t x); [|rewrite Hts; by apply (newest_records hist)]. cbn [res_bind].
    unfold shows_from in Hlo. destruct (st_skipVersionZero s); [|done]. specialize (Hlo eq_refl). rewrite Uint64_ts by lia. cbn [of_option res_bind].
    by rewrite (proj2 (Z.eqb_neq t 0)) by lia.
  - rewrite law_get_missing; [done|]. intros t x. rewrite Hts, (newest_records hist) by done. intros Hn.
    assert (value_at hist store key ts = Some x) as Hc by (apply value_newest; [done|by exists t]). congruence.
Qed.

Lemma shows_from_1 s : shows_from s 1.
Proof. intros _. lia. Qed.

Lemma get_recorded hist (s : @Store D) store key version : records s hist store key -> Forall block_ok hist -> increasing hist ->
  version_ok version -> GetAtVersionSlice s store key version = Ok (value_at hist store key (read_version version)).
Proof. apply get_from, shows_from_1. Qed.

Lemma get_value hist s s' store key version : put_all s hist = Ok s' -> fresh s -> Forall block_ok hist -> increasing hist ->
  no_slash store -> (forall v, version = Some v -> 0 <= v < 2 ^ 63) ->
  GetAtVersionSlice s' store key version =
    Ok (value_at hist store key (match version with None => 2 ^ 64 - 1 | Some v => v end)).
Proof. intros E Hf Hok Hinc Hs. apply get_recorded; [by eapply put_all_records|done..]. Qed.

Lemma prefix_ends n : storePrefix n = (ascii_bytes "s/k:" ++ n) ++ [z2b 47].
Proof. unfold storePrefix. by rewrite <- app_assoc. Qed.

(** The domain of an iterator, for the keys of the store. *)
Definition in_domain (start end_ : slice) (k : bytes) : Prop := in_range (default [] start) end_ k.

Lemma range_domain n start end_ b e k : iterateWithPrefix (storePrefix n) start end_ = Ok (Some b, e) ->
  in_range b e k <-> exists k', k = prependStoreKey n k' /\ in_domain start end_ k'.
Proof.
  intros E. unfold iterateWithPrefix in E. destruct (storePrefix n) as [|p0 p1] eqn:Ep; [done|]. rewrite <- Ep in E.
  assert (b = storePrefix n ++ default [] start) as ->.
  { destruct end_; [by injection E|]. apply res_bind_ok in E as (e0 & _ & E). by injection E. }
  assert (in_range (storePrefix n ++ default [] start) e k -> storePrefix n `prefix_of` k) as Hpre.
  { intros [H1 H2]. assert (~ bytes_lt k (storePrefix n)) as H3.
    { intros H. apply H1. destruct (bytes_compare_spec k (storePrefix n ++ default [] start)) as [->| |Hgt]; [|done|].
      - by apply bytes_le_app in H.
      - exfalso. apply (bytes_le_app (storePrefix n) (default [] start)). by eapply bytes_lt_trans. }
    destruct end_ as [e'|].
    - injection E as <-. exact (prefix_between _ k e' H3 H2).
    - rewrite prefix_ends, cpIncr_last in E by (vm_compute; done). injection E as <-. rewrite prefix_ends in H3 |- *.
      by apply prefix_range. }
  split.
  - intros Hr. destruct (Hpre Hr) as [k' ->]. exists k'. split; [done|]. destruct Hr as [H1 H2]. rewrite bytes_lt_app in H1.
    split; [done|]. destruct end_ as [e'|]; [|done]. assert (e = Some (storePrefix n ++ e')) as -> by (by injection E).
    exact (proj1 (bytes_lt_app _ _ _) H2).
  - intros (k' & -> & H1 & H2). unfold prependStoreKey. split; [by rewrite bytes_lt_app|]. destruct end_ as [e'|].
    + assert (e = Some (storePrefix n ++ e')) as -> by (by injection E). exact (proj2 (bytes_lt_app _ _ _) H2).
    + rewrite (prefix_ends n), cpIncr_last in E by (vm_compute; done).
      assert (e = Some ((ascii_bytes "s/k:" ++ n) ++ [z2b (b2z (z2b 47) + 1)])) as -> by (by injection E). cbn [below].
      apply (prefix_range (ascii_bytes "s/k:" ++ n) (z2b 47)); [vm_compute; done|]. rewrite <- (prefix_ends n). by exists k'.
Qed.

Lemma iterate_bounds n start end_ : exists b e, iterateWithPrefix (storePrefix n) start end_ = Ok (Some b, e).
Proof.
  unfold iterateWithPrefix. destruct (storePrefix n) as [|p0 p1] eqn:Ep; [done|]. rewrite <- Ep.
  destruct end_ as [e|]; [by eexists _, _|]. rewrite prefix_ends, cpIncr_last by (vm_compute; done). by eexists _, _.
Qed.

Lemma StronglySorted_reverse {A} (R : A -> A -> Prop) l : StronglySorted R l -> StronglySorted (fun a b => R b a) (reverse l).
Proof.
  induction 1 as [|x l Hs IH Hf]; [constructor|]. rewrite reverse_cons.
  assert (Forall (R x) (reverse l)) as Hr by by apply Forall_reverse.
  clear Hs Hf. induction (reverse l) as [|y ys IHy]; [repeat constructor|]. apply Forall_cons in Hr as [Hy Hr].
  apply StronglySorted_inv in IH as [IH Hf]. cbn. constructor; [auto|]. apply Forall_app. repeat constructor; done.
Qed.

(** Without the prefix the keys keep their order. *)
Lemma shown_sorted n (l : list row) (rev : bool) : StronglySorted bytes_lt (row_key <$> l) ->
  Forall (fun r => exists k', row_key r = prependStoreKey n k') l ->
  StronglySorted (fun a b => if rev then bytes_lt b a else bytes_lt a b)
    ((fun r => r.1.1) <$> (show (storePrefix n) <$> (if rev then reverse l else l))).
Proof.
  intros Hs Hf. assert (StronglySorted bytes_lt ((fun r => drop (length (storePrefix n)) (row_key r)) <$> l)) as Hd.
  { induction Hf as [|r l [k Ek] Hf IH]; [constructor|]. rewrite fmap_cons in *. apply StronglySorted_inv in Hs as [Hs Hlt].
    constructor; [by apply IH|]. pose proof (proj1 (Forall_forall _ _) Hf) as Hf'. rewrite Forall_forall in Hlt |- *. intros x Hx. apply list_elem_of_fmap in Hx as (r' & -> & Hr').
    destruct (Hf' r' Hr') as [k' Ek']. specialize (Hlt _ (list_elem_of_fmap_2 row_key _ _ Hr')). rewrite Ek, Ek' in *.
    unfold prependStoreKey in *. rewrite !drop_app_length. by apply bytes_lt_app in Hlt. }
  rewrite <- list_fmap_compose. change ((fun r : bytes * bytes * bytes => r.1.1) ∘ show (storePrefix n)) with
    (fun r : row => drop (length (storePrefix n)) (row_key r)).
  destruct rev; [|done]. rewrite fmap_reverse. by apply StronglySorted_reverse.
Qed.

(** Walking an iterator at a version shows the newest records of the domain. *)
Lemma iterate_from lo hist (s' : @Store D) store (start end_ : slice) version (rev : bool) fuel : shows_from s' lo ->
  (forall key, records s' hist store key) -> Forall (block_from lo) hist -> version_ok version ->
  (length (rows (dbNewIterator (st_db s') (newTSReadOptions version))) < fuel)%nat -> start <> Some [] -> end_ <> Some [] ->
  exists itr out, iteratorAtVersion fuel s' store start end_ version rev = Ok itr /\ collect fuel itr = Ok out /\
    StronglySorted (fun a b => if rev then bytes_lt b a else bytes_lt a b) ((fun r => r.1.1) <$> out) /\
    forall k x t, (k, x, t) ∈ out <-> in_domain start end_ k /\ exists u, t = PutUint64 u /\ newest_in (written hist store k) (read_version version) u (Some x).
Proof.
  intros Hlo Hrec Hok Hv Hfuel Hst Hen. unfold iteratorAtVersion. rewrite decide_False by tauto.
  destruct (iterate_bounds store start end_) as (b & e & Hb). rewrite Hb. cbn [res_bind].
  destruct (new_iterator_collects (dbNewIterator (st_db s') (newTSReadOptions version)) (storePrefix store) b e start end_ rev
    (st_skipVersionZero s') fuel Hfuel) as (itr & -> & Hc).
  pose proof (fun k => range_domain store start end_ b e k Hb) as Hrange.
  set (l := filter _ _) in Hc. exists itr, (show (storePrefix store) <$> (if rev then reverse l else l)).
  assert (StronglySorted bytes_lt (row_key <$> l)) as Hsort by apply sorted_rows_filter, law_sorted.
  assert (Forall (fun r => exists k', row_key r = prependStoreKey store k') l) as Hfull.
  { apply Forall_forall. intros r Hr. apply list_elem_of_filter in Hr as [[Hr _] _]. apply Hrange in Hr as (k' & -> & _). by exists k'. }
  split_and!; [done|exact Hc|by apply shown_sorted|]. intros k x t. split.
  - intros Hin. apply list_elem_of_fmap in Hin as ([[k0 x0] t0] & Eq & Hin). unfold show in Eq. cbn [fst snd] in Eq.
    assert (k = drop (length (storePrefix store)) k0) as -> by congruence. assert (x = x0) as -> by congruence. assert (t = PutUint64 t0) as -> by congruence. clear Eq.
    assert ((k0, x0, t0) ∈ l) as Hl by (destruct rev; [by rewrite elem_of_reverse in Hin|done]).
    apply list_elem_of_filter in Hl as [[Hr _] Hl]. apply Hrange in Hr as (k' & Ek & Hd). change (k0 = prependStoreKey store k') in Ek. subst k0.
    unfold prependStoreKey. cbn [fst]. rewrite drop_app_length. split; [done|]. exists t0. split; [done|].
    apply law_iter in Hl. rewrite read_ts in Hl by done. by apply (newest_records hist s').
  - intros (Hd & u & -> & Hn). pose proof (written_range _ _ _ _ _ _ _ Hok Hn) as Ht.
    apply list_elem_of_fmap. exists (prependStoreKey store k, x, u). split.
    { unfold show, prependStoreKey. cbn [fst snd]. by rewrite drop_app_length. }
    assert ((prependStoreKey store k, x, u) ∈ l) as Hl; [|destruct rev; [by rewrite elem_of_reverse|done]].
    apply list_elem_of_filter. split.
    + split; [apply Hrange; by exists k|]. cbn [snd]. unfold shows_from in Hlo. destruct (st_skipVersionZero s'); [|done].
      specialize (Hlo eq_refl). by rewrite (proj2 (Z.eqb_neq u 0)) by lia.
    + apply law_iter. rewrite read_ts by done. by apply (newest_records hist s').
Qed.

Lemma iterate_recorded hist (s' : @Store D) store (start end_ : slice) v (rev : bool) fuel :
  (forall key, records s' hist store key) -> Forall block_ok hist -> 0 <= v < 2 ^ 63 ->
  (length (rows (dbNewIterator (st_db s') (newTSReadOptions (Some v)))) < fuel)%nat -> start <> Some [] -> end_ <> Some [] ->
  exists itr out, iteratorAtVersion fuel s' store start end_ (Some v) rev = Ok itr /\ collect fuel itr = Ok out /\
    StronglySorted (fun a b => if rev then bytes_lt b a else bytes_lt a b) ((fun r => r.1.1) <$> out) /\
    forall k x t, (k, x, t) ∈ out <-> in_domain start end_ k /\ exists u, t = PutUint64 u /\ newest_in (written hist store k) v u (Some x).
Proof. intros Hr Hok Hv. apply (iterate_from 1); [apply shows_from_1|done..|by intros ? [= <-]]. Qed.

(** The latest version is the one of the last block. *)
Lemma latest_block lo (s s' : @Store D) hist : put_all s hist = Ok s' -> fresh s -> Forall (block_from lo) hist ->
  GetLatestVersion s' = Ok (match last hist with Some b => b.1 | None => 0 end).
Proof.
  intros E Hf Hok. unfold GetLatestVersion. rewrite law_get. destruct (put_all_effect _ hist s s' E Hok) as (_ & -> & _). cbn [res_bind].
  destruct (last hist) as [[v cs]|] eqn:El; [|by rewrite (proj2 Hf)]. cbn [default from_option id fst].
  assert (0 <= v < 2 ^ 63) as Hv.
  { apply last_Some in El as [h' ->]. apply Forall_app in Hok as [_ [[Hv _] _]%Forall_cons]. cbn in Hv. lia. }
  pose proof (Uint64_ts v ltac:(lia)) as Hu. destruct (PutUint64 v) as [|b bs] eqn:Eb; [done|]. rewrite Hu. cbn [of_option res_bind].
  by rewrite i64_small by lia.
Qed.

(** All reads after any blocks. *)
Lemma reads_blocks (s s' : @Store D) hist : put_all s hist = Ok s' -> fresh s -> Forall block_ok hist -> increasing hist ->
  (forall store key v, no_slash store -> 0 <= v < 2 ^ 63 ->
     GetAtVersion s' store key (Some v) = Ok (value_at hist store key v) /\
     HasAtVersion s' store key (Some v) = Ok (bool_decide (is_Some (value_at hist store key v)))) /\
  (forall store key, no_slash store -> GetAtVersion s' store key None = Ok (value_at hist store key (2 ^ 64 - 1))) /\
  GetLatestVersion s' = Ok (match last hist with Some b => b.1 | None => 0 end).
Proof.
  intros E Hf Hok Hinc. split_and!.
  - intros store key v Hs Hv. pose proof (get_value hist s s' store key (Some v) E Hf Hok Hinc Hs) as Hg.
    unfold GetAtVersion, HasAtVersion. rewrite Hg by (by intros ? [= <-]). done.
  - intros store key Hs. by apply (get_value hist s s' store key None E Hf Hok Hinc Hs).
  - by eapply latest_block.
Qed.
End Blocks.

(** ** Properties *)

(** Reading a version: after the changes of any blocks of increasing versions
    were written to an empty store, a read at version [v] returns for every
    store and key the last value written up to [v], or nothing when there is
    none or it was deleted, whether version zero is skipped or not; a read
    without version returns the last value written; and the latest version is
    the one of the last block. *)
Theorem versiondb_reads_blocks {D It : Type} `{RI : !RocksIter It, RD : !RocksDB D It, IL : !RocksIterLaws It, RL : !RocksLaws D It}
  (s s' : @Store D) (hist : list Block) (E : put_all s hist = Ok s') (Hf : fresh s) (Hok : Forall block_ok hist)
  (Hinc : increasing hist) :
  (forall store key v, no_slash store -> 0 <= v < 2 ^ 63 ->
     GetAtVersion s' store key (Some v) = Ok (value_at hist store key v) /\
     HasAtVersion s' store key (Some v) = Ok (bool_decide (is_Some (value_at hist store key v)))) /\
  (forall store key, no_slash store -> GetAtVersion s' store key None = Ok (value_at hist store key (2 ^ 64 - 1))) /\
  GetLatestVersion s' = Ok (match last hist with Some b => b.1 | None => 0 end).
Proof. by apply (reads_blocks s s' hist). Qed.

(** Iterating at a version: the iterator over a store opens, and walking to its
    end yields exactly the keys of the domain that have a value at that version,
    with these values, in ascending order, or in descending order for a reverse
    iterator; keys of other stores are never shown.  An empty bound is refused. *)
Theorem versiondb_iterates_domain {D It : Type} `{RI : !RocksIter It, RD : !RocksDB D It, IL : !RocksIterLaws It, RL : !RocksLaws D It}
  (s s' : @Store D) (hist : list Block) (store : bytes) (start end_ : slice) (v : Z) (rev : bool) (fuel : nat)
  (E : put_all s hist = Ok s') (Hf : fresh s) (Hok : Forall block_ok hist) (Hinc : increasing hist)
  (Hs : no_slash store) (Hv : 0 <= v < 2 ^ 63)
  (Hfuel : (length (rows (dbNewIterator (st_db s') (newTSReadOptions (Some v)))) < fuel)%nat) :
  iteratorAtVersion fuel s' store (Some []) end_ (Some v) rev = Err errKeyEmpty /\
  (start <> Some [] -> end_ <> Some [] ->
   exists itr out, iteratorAtVersion fuel s' store start end_ (Some v) rev = Ok itr /\ collect fuel itr = Ok out /\
    StronglySorted (fun a b => if rev then bytes_lt b a else bytes_lt a b) ((fun r => r.1.1) <$> out) /\
    forall k x, (exists t, (k, x, t) ∈ out) <-> in_domain start end_ k /\ value_at hist store k v = Some x).
Proof.
  split; [unfold iteratorAtVersion; by rewrite decide_True by auto|]. intros Hst Hen.
  destruct (iterate_recorded hist s' store start end_ v rev fuel) as (itr & out & E1 & E2 & So & Hin); [|done..|].
  { intros key. by eapply put_all_records. }
  exists itr, out. split_and!; [done..|]. intros k x. rewrite value_newest by done. split.
  - intros [t (Hk & u & -> & Hn)%Hin]. split; [done|by exists u].
  - intros (Hk & u & Hn). exists (PutUint64 u). apply Hin. split; [done|by exists u].
Qed.

(** The key comparator orders keys with timestamps by the key and, for equal
    keys, by the newest timestamp first; an unset timestamp comes before every
    other. *)
Theorem comparator_order (a b : bytes) (t u : Z) (Ht : 0 <= t < 2 ^ 64) (Hu : 0 <= u < 2 ^ 64) :
  compare (a ++ PutUint64 t) (b ++ PutUint64 u) = Ok (match bytes_compare a b with Eq => u ?= t | c => c end) /\
  compareWithoutTS (a ++ PutUint64 t) true b false = Ok (bytes_compare a b) /\
  compareTS (Some (PutUint64 t)) (Some (PutUint64 u)) = Ok (t ?= u) /\
  compareTS None (Some (PutUint64 t)) = Ok Lt /\ compareTS (Some (PutUint64 t)) None = Ok Gt.
Proof.
  assert (forall x, length (PutUint64 x) = TimestampSize) as Hl by (intros; apply length_le_encode).
  assert (compareTS (Some (PutUint64 t)) (Some (PutUint64 u)) = Ok (t ?= u)) as Hts.
  { unfold compareTS. by rewrite !Uint64_ts. }
  split_and!; [|unfold compareWithoutTS; by rewrite strip_ts_app|done|done|done].
  unfold compare, compareWithoutTS. rewrite !strip_ts_app by done. cbn [res_bind].
  destruct (bytes_compare a b); [|done|done]. rewrite !take_ts_app, Hts by done. cbn [res_bind]. by rewrite <- Z.compare_antisym.
Qed.
