(* ===== verification/VersionMem.v ===== *)
(** An in-memory instance of the RocksDB interface, and the witnesses of the
    theorems on the versioned store. *)
From stdpp Require Import prelude strings gmap fin_maps sorting.
From Stdlib Require Import ZArith Lia.
From S2P Require Import Prelude OrdMap Codec Tree VersionDb.
Local Open Scope Z_scope.

Abbreviation ts_map := (gmap (bytes * Z) slice).

Record MemDB : Type := mkMemDB { mem_plain : gmap bytes bytes; mem_raw : ts_map }.
Record MemIter : Type := mkMemIter { mi_raw : ts_map; mi_ts : Z; mi_pos : option nat }.

(** Timestamps are 64 bits. *)
Definition ts_ok (x : (bytes * Z) * slice) : Prop := 0 <= x.1.2 < 2 ^ 64.
#[export] Instance ts_ok_dec x : Decision (ts_ok x).
Proof. unfold ts_ok. apply _. Defined.
Definition clean (m : ts_map) : ts_map := filter ts_ok m.

Definition newer (acc : option (Z * slice)) (t : Z) : Prop := match acc with None => True | Some (t0, _) => t0 < t end.
#[export] Instance newer_dec acc t : Decision (newer acc t).
Proof. destruct acc as [[]|]; unfold newer; apply _. Defined.

(** The newest entry of a key. *)
Definition pick (k : bytes) (ts : Z) (kt : bytes * Z) (o : slice) (acc : option (Z * slice)) : option (Z * slice) :=
  if decide (kt.1 = k /\ kt.2 <= ts /\ newer acc kt.2) then Some (kt.2, o) else acc.
Definition mem_newest (m : ts_map) (k : bytes) (ts : Z) : option (Z * slice) := map_fold (pick k ts) None m.

Lemma mem_newest_spec m k ts :
  match mem_newest m k ts with
  | Some (t, o) => newest m k ts t o
  | None => forall t o, m !! (k, t) = Some o -> ~ t <= ts
  end.
Proof.
  unfold mem_newest. apply (map_fold_weak_ind (fun acc (m : ts_map) => match acc with
    | Some (t, o) => newest m k ts t o | None => forall t o, m !! (k, t) = Some o -> ~ t <= ts end)).
  { intros t o. by rewrite lookup_empty. }
  intros [k' t'] o' m' acc Hn IH. unfold pick. cbn [fst snd].
  destruct (decide (k' = k /\ t' <= ts /\ newer acc t')) as [(-> & Hle & Hacc)|Hno].
  - split_and!; [by rewrite lookup_insert_eq|done|]. intros t o. destruct (decide (t = t')) as [->|Hne]; [lia|].
    rewrite lookup_insert_ne by congruence. intros Ho Hlt. destruct acc as [[t0 o0]|].
    + destruct IH as (_ & _ & Hmax). specialize (Hmax t o Ho Hlt). unfold newer in Hacc. lia.
    + by apply (IH t o) in Ho.
  - destruct acc as [[t0 o0]|].
    + destruct IH as (H1 & H2 & H3). split_and!; [|done|].
      * rewrite lookup_insert_ne; [done|]. intros [= -> ->]. congruence.
      * intros t o. destruct (decide ((k', t') = (k, t))) as [[= -> ->]|Hne].
        -- intros _ Hlt. destruct (decide (t0 < t)); [|lia]. exfalso. by apply Hno.
        -- rewrite lookup_insert_ne by done. apply H3.
    + intros t o. destruct (decide ((k', t') = (k, t))) as [[= -> ->]|Hne].
      * intros _ Hlt. by apply Hno.
      * rewrite lookup_insert_ne by done. apply IH.
Qed.

Lemma newest_unique m k ts t t' o o' : newest m k ts t o -> newest m k ts t' o' -> t = t' /\ o = o'.
Proof.
  intros (H1 & H2 & H3) (K1 & K2 & K3). assert (t = t') as -> by (specialize (H3 t' o' K1 K2); specialize (K3 t o H1 H2); lia).
  split; congruence.
Qed.

Definition mem_get (m : ts_map) (k : bytes) (ts : Z) : option (bytes * Z) :=
  match mem_newest m k ts with Some (t, Some v) => Some (v, t) | _ => None end.

Lemma mem_get_spec m k ts v t : mem_get m k ts = Some (v, t) <-> newest m k ts t (Some v).
Proof.
  unfold mem_get. pose proof (mem_newest_spec m k ts) as Hs. destruct (mem_newest m k ts) as [[t0 [v0|]]|].
  - split; [by intros [= -> ->]|]. intros Hn. by destruct (newest_unique _ _ _ _ _ _ _ Hs Hn) as [-> [= ->]].
  - split; [done|]. intros Hn. by destruct (newest_unique _ _ _ _ _ _ _ Hs Hn) as [_ ?].
  - split; [done|]. intros (H1 & H2 & _). by apply Hs in H1.
Qed.

(** The keys in order. *)
Definition bytes_le (a b : bytes) : Prop := ~ bytes_lt b a.
#[export] Instance bytes_le_dec a b : Decision (bytes_le a b).
Proof. unfold bytes_le. apply _. Defined.
Definition sorted_keys (ks : list bytes) : list bytes := merge_sort bytes_le (remove_dups ks).
Definition mem_keys (m : ts_map) : list bytes := sorted_keys ((map_to_list m).*1.*1).
Definition mem_rows (m : ts_map) (ts : Z) : list row :=
  omap (fun k => let? (v, t) := mem_get m k ts in Some (k, v, t)) (mem_keys m).

#[local] Instance bytes_le_trans : Transitive bytes_le.
Proof. intros a b c. apply bytes_nlt_trans. Qed.
#[local] Instance bytes_le_total : Total bytes_le.
Proof. intros a b. unfold bytes_le. destruct (bytes_lt_total a b) as [H|[->|H]]; [left|left|right]; intros H'.
  - by apply (bytes_lt_irrefl a), (bytes_lt_trans a b a).
  - by apply bytes_lt_irrefl in H'.
  - by apply (bytes_lt_irrefl a), (bytes_lt_trans a b a).
Qed.

Lemma sorted_keys_sorted ks : StronglySorted bytes_lt (sorted_keys ks).
Proof.
  assert (StronglySorted bytes_le (sorted_keys ks)) as Hs by apply (StronglySorted_merge_sort bytes_le).
  assert (NoDup (sorted_keys ks)) as Hn by (unfold sorted_keys; rewrite merge_sort_Permutation; apply NoDup_remove_dups).
  induction Hs as [|k l _ IH Hf]; [constructor|]. apply NoDup_cons in Hn as [Hk Hn]. constructor; [by apply IH|].
  rewrite Forall_forall in *. intros x Hx. specialize (Hf x Hx). destruct (bytes_lt_total k x) as [|[->|]]; done.
Qed.

Lemma mem_sorted_keys_elem ks k : k ∈ sorted_keys ks <-> k ∈ ks.
Proof. unfold sorted_keys. by rewrite merge_sort_Permutation, elem_of_remove_dups. Qed.

Lemma mem_keys_sorted m : StronglySorted bytes_lt (mem_keys m).
Proof. apply sorted_keys_sorted. Qed.

Lemma mem_rows_keys m ts : StronglySorted bytes_lt (row_key <$> mem_rows m ts).
Proof.
  unfold mem_rows. pose proof (mem_keys_sorted m) as Hs. induction Hs as [|k ks _ IH Hf]; [constructor|].
  csimpl. destruct (mem_get m k ts) as [[v t]|]; cbn [mbind option_bind]; [|done]. rewrite fmap_cons. constructor; [done|].
  rewrite Forall_forall in *. intros x Hx. apply list_elem_of_fmap in Hx as (r & -> & Hr). apply list_elem_of_omap in Hr as (k' & Hk' & Er).
  destruct (mem_get m k' ts) as [[v' t']|]; cbn in Er; [|done]. injection Er as <-. by apply Hf.
Qed.

Lemma mem_rows_elem m ts k v t : (k, v, t) ∈ mem_rows m ts <-> newest m k ts t (Some v).
Proof.
  unfold mem_rows. rewrite list_elem_of_omap. split.
  - intros (k' & _ & E). destruct (mem_get m k' ts) as [[v' t']|] eqn:Eg; cbn in E; [|done]. injection E as -> -> ->.
    by apply mem_get_spec.
  - intros Hn. exists k. split; [|by rewrite (proj2 (mem_get_spec m k ts v t) Hn)].
    destruct Hn as (Hm & _). unfold mem_keys. apply mem_sorted_keys_elem.
    apply list_elem_of_fmap. exists (k, t). split; [done|]. apply list_elem_of_fmap. exists ((k, t), Some v). split; [done|].
    by apply elem_of_map_to_list.
Qed.

(** ** Instances *)

Definition mi_rows (it : MemIter) : list row := mem_rows (clean (mi_raw it)) (mi_ts it).
Definition mi_row (it : MemIter) : option row := let? i := mi_pos it in mi_rows it !! i.
Definition mi_move (it : MemIter) (p : option nat) : MemIter := mkMemIter (mi_raw it) (mi_ts it) p.

#[export] Instance mem_iter : RocksIter MemIter := {|
  itSeekToFirst it := mi_move it (Some 0%nat);
  itSeekToLast it := mi_move it (match mi_rows it with [] => None | _ => Some (length (mi_rows it) - 1)%nat end);
  itSeek it k := mi_move it (fst <$> list_find (fun r => ~ bytes_lt (row_key r) k) (mi_rows it));
  itNext it := mi_move it (S <$> mi_pos it);
  itPrev it := mi_move it (match mi_pos it with Some (S i) => Some i | _ => None end);
  itValid it := bool_decide (is_Some (mi_row it));
  itErr it := None;
  itKey it := match mi_row it with Some r => r.1.1 | None => [] end;
  itValue it := match mi_row it with Some r => r.1.2 | None => [] end;
  itTimestamp it := match mi_row it with Some r => PutUint64 r.2 | None => [] end;
|}.

Lemma clean_newest m k ts t o : newest (clean m) k ts t o -> 0 <= t < 2 ^ 64.
Proof. intros (H & _). apply map_lookup_filter_Some in H as [_ H]. exact H. Qed.

#[export, refine] Instance mem_iter_laws : RocksIterLaws MemIter := {| rows := mi_rows; pos := mi_pos |}.
Proof.
  - intros it. apply mem_rows_keys.
  - intros it. apply Forall_forall. intros [[k v] t] Hr. apply mem_rows_elem in Hr. by apply clean_newest in Hr.
  - done.
  - done.
  - intros it i r Hp Hr. assert (mi_row it = Some r) as E by (unfold mi_row; rewrite Hp; exact Hr). cbn [itKey itValue itTimestamp mem_iter]. by rewrite E.
  - done.
  - done.
  - done.
  - done.
  - intros it i Hp. cbn. by rewrite Hp.
  - intros it i Hp. cbn. by rewrite Hp.
Defined.

Definition op_ok (op : BatchOp) : bool :=
  match op with BPut _ _ => true | BPutTS _ ts _ | BDeleteTS _ ts => (length ts =? 8)%nat end.

#[export] Instance mem_db : RocksDB MemDB MemIter := {|
  dbGet d k := Ok (mem_plain d !! k);
  dbWrite d b := if forallb op_ok b then Ok (mkMemDB (fold_left apply_plain b (mem_plain d)) (fold_left apply_ts b (mem_raw d)))
                 else Err "invalid timestamp";
  dbGetTS d ts k := Ok (let? (v, t) := mem_get (clean (mem_raw d)) k (le_decode ts) in Some (v, PutUint64 t));
  dbNewIterator d ts := mkMemIter (mem_raw d) (le_decode ts) None;
|}.

Lemma le_decode_range b : 0 <= le_decode b < 2 ^ (8 * Z.of_nat (length b)).
Proof.
  induction b as [|x b IH]; [done|]. cbn [le_decode length]. pose proof (b2z_range x).
  replace (8 * Z.of_nat (S (length b))) with (8 + 8 * Z.of_nat (length b)) by lia. rewrite Z.pow_add_r by lia.
  rewrite Z.shiftl_mul_pow2 by lia. change (2 ^ 8) with 256. lia.
Qed.

Lemma clean_ops b : forall m, forallb op_ok b = true -> clean (fold_left apply_ts b m) = fold_left apply_ts b (clean m).
Proof.
  induction b as [|op b IH]; intros m Hb; [done|]. cbn [forallb fold_left] in *. apply andb_true_iff in Hb as [Hop Hb].
  rewrite IH by done. f_equal. unfold clean. destruct op as [k v|k ts v|k ts]; cbn [apply_ts op_ok] in *; [done| |];
    (rewrite map_filter_insert_True; [done|]); unfold ts_ok; cbn [fst snd]; apply Nat.eqb_eq in Hop;
    pose proof (le_decode_range ts) as Hr; rewrite Hop in Hr; exact Hr.
Qed.

#[export, refine] Instance mem_laws : RocksLaws MemDB MemIter := {| plain := mem_plain; versions d := clean (mem_raw d) |}.
Proof.
  - done.
  - intros d d' b. cbn. destruct (forallb op_ok b) eqn:Hb; [|done]. intros [= <-]. cbn. split; [done|by apply clean_ops].
  - intros d ts k t v Hn. cbn. by rewrite (proj2 (mem_get_spec _ k _ v t) Hn).
  - intros d ts k Hn. cbn. destruct (mem_get (clean (mem_raw d)) k (le_decode ts)) as [[v t]|] eqn:E; [|done].
    apply mem_get_spec in E. by apply Hn in E.
  - intros d ts k v t. cbn. apply mem_rows_elem.
Defined.

(** ** Witnesses *)

Definition empty_store : @Store MemDB := mkStore (mkMemDB ∅ ∅) true.
Definition store_a : bytes := [z2b 97].
Definition store_ab : bytes := [z2b 97; z2b 98].
Definition sample_blocks : list Block :=
  [(3, [mkStoreKV store_a false [z2b 1] [z2b 10]; mkStoreKV store_a false [z2b 2] [z2b 20]; mkStoreKV store_ab false [z2b 1] [z2b 30]]);
   (5, [mkStoreKV store_a true [z2b 1] []; mkStoreKV store_a false [z2b 9] [z2b 90]])].
Definition sample_store : @Store MemDB := match put_all empty_store sample_blocks with Ok s => s | _ => empty_store end.

Lemma sample_blocks_ok : Forall block_ok sample_blocks.
Proof.
  repeat constructor; cbn; try lia; unfold no_slash, store_a, store_ab;
    intros H; repeat (apply elem_of_cons in H as [H|H]; [by apply (f_equal b2z) in H; vm_compute in H|]); by apply not_elem_of_nil in H.
Qed.

Lemma sample_increasing : increasing sample_blocks.
Proof. repeat constructor. Qed.

Lemma empty_fresh : fresh empty_store.
Proof. split; [intros k t; cbn; unfold clean; by rewrite map_filter_empty, lookup_empty|done]. Qed.

Lemma store_a_name : no_slash store_a.
Proof. unfold no_slash, store_a. intros H. apply list_elem_of_singleton in H. by apply (f_equal b2z) in H; vm_compute in H. Qed.

Lemma versiondb_reads_blocks_witness :
  GetAtVersion sample_store store_a [z2b 1] (Some 4) = Ok (Some [z2b 10]) /\
  GetAtVersion sample_store store_a [z2b 1] (Some 5) = Ok None /\
  GetLatestVersion sample_store = Ok 5.
Proof.
  assert (put_all empty_store sample_blocks = Ok sample_store) as E by (vm_compute; reflexivity).
  destruct (versiondb_reads_blocks empty_store sample_store sample_blocks E empty_fresh sample_blocks_ok sample_increasing)
    as (H1 & _ & H3).
  split_and!.
  - rewrite (proj1 (H1 store_a [z2b 1] 4 store_a_name ltac:(lia))). vm_compute. reflexivity.
  - rewrite (proj1 (H1 store_a [z2b 1] 5 store_a_name ltac:(lia))). vm_compute. reflexivity.
  - rewrite H3. vm_compute. reflexivity.
Defined.

Lemma versiondb_iterates_domain_witness :
  exists itr out, iteratorAtVersion 5 sample_store store_a (Some [z2b 2]) None (Some 5) true = Ok itr /\ collect 5 itr = Ok out /\
    forall k x, (exists t, (k, x, t) ∈ out) <-> in_domain (Some [z2b 2]) None k /\ value_at sample_blocks store_a k 5 = Some x.
Proof.
  assert (put_all empty_store sample_blocks = Ok sample_store) as E by (vm_compute; reflexivity).
  destruct (versiondb_iterates_domain empty_store sample_store sample_blocks store_a (Some [z2b 2]) None 5 true 5
    E empty_fresh sample_blocks_ok sample_increasing store_a_name ltac:(lia) ltac:(vm_compute; lia)) as [_ H].
  destruct H as (itr & out & H1 & H2 & _ & H4); [done|done|]. exists itr, out. split_and!; [exact H1|exact H2|exact H4].
Defined.

Lemma comparator_order_witness :
  compare ([z2b 1] ++ PutUint64 7) ([z2b 1] ++ PutUint64 9) = Ok Gt.
Proof. rewrite (proj1 (comparator_order [z2b 1] [z2b 1] 7 9 ltac:(lia) ltac:(lia))). vm_compute. reflexivity. Defined.
