(* ===== verification/VersionStore.v ===== *)
(** The clients of the versioned store: [versiondb/types.go], [store.go],
    [streaming_service.go] and [multistore.go].

    [VersionStore] is the interface of [types.go], with the laws that its clients
    rely on; the store on RocksDB is an instance.  The streaming service turns
    the events of the application into writes; a [KVStore] reads one store at
    one version; the multi-store hands out the stores.

    Theorem: what the listeners were told is what the key-value stores show. *)
From stdpp Require Import prelude strings gmap fin_maps sorting.
From Stdlib Require Import ZArith Lia.
From S2P Require Import Prelude OrdMap Codec Tree VersionDb VersionMem.
Local Open Scope Z_scope.

(** ** The interface *)

(** The iterators of a store; [fuel] bounds the entries that a step may skip. *)
Class VersionIter (I : Type) := {
  viValid : I -> bool * I;
  viNext : nat -> I -> res I;
  viKey : I -> res bytes;
  viValue : I -> res bytes;
}.

Class VersionStore (S I : Type) := {
  vsGetAtVersion : S -> bytes -> bytes -> option Z -> res slice;
  vsHasAtVersion : S -> bytes -> bytes -> option Z -> res bool;
  vsIteratorAtVersion : nat -> S -> bytes -> slice -> slice -> option Z -> res I;
  vsReverseIteratorAtVersion : nat -> S -> bytes -> slice -> slice -> option Z -> res I;
  vsGetLatestVersion : S -> res Z;
  vsPutAtVersion : S -> Z -> list StoreKVPair -> res S;
  vsImport : S -> Z -> list ImportEntry -> res S;
}.

(** A loop over an iterator. *)
Fixpoint consume {I} `{!VersionIter I} (fuel : nat) (it : I) : res (list (bytes * bytes)) :=
  match fuel with
  | O => Err "out of fuel"
  | S fuel' =>
      let '(valid, it) := viValid it in
      if negb valid then Ok []
      else
        let* k := viKey it in
        let* v := viValue it in
        let* it := viNext fuel it in
        let* rest := consume fuel' it in
        Ok ((k, v) :: rest)
  end.

Section Writes.
Context {S I : Type} `{!VersionStore S I}.

Fixpoint write_blocks (s : S) (hist : list Block) : res S :=
  match hist with
  | [] => Ok s
  | (v, cs) :: hist => let* s := vsPutAtVersion s v cs in write_blocks s hist
  end.
End Writes.

(** ** What the blocks say *)

Definition keys_of (hist : list Block) : list bytes := hist ≫= fun b => kv_key <$> b.2.

(** The pairs of a store at a version in a domain, by key. *)
Definition listing (hist : list Block) (store : bytes) (start end_ : slice) (v : Z) (rev : bool) : list (bytes * bytes) :=
  let l := omap (fun k => if decide (in_range (default [] start) end_ k) then pair k <$> value_at hist store k v else None)
             (sorted_keys (keys_of hist)) in
  if rev then reverse l else l.

Definition key_order (rev : bool) (a b : bytes) : Prop := if rev then bytes_lt b a else bytes_lt a b.

Lemma last_op_key cs store key acc : fold_left (op_on store key) cs acc <> acc -> key ∈ kv_key <$> cs.
Proof.
  revert acc. induction cs as [|p cs IH]; intros acc; [done|]. cbn. rewrite elem_of_cons. unfold op_on at 2.
  destruct (decide (kv_store p = store /\ kv_key p = key)) as [[_ <-]|_]; [by left|]. intros H. right. by eapply IH.
Qed.

Lemma value_at_key hist store key v x : value_at hist store key v = Some x -> key ∈ keys_of hist.
Proof.
  unfold value_at, keys_of. induction hist as [|b hist IH] using rev_ind; [done|]. rewrite fold_left_app, bind_app, elem_of_app. cbn [fold_left].
  destruct (b.1 <=? v); [|auto]. destruct (last_op b.2 store key) as [o|] eqn:El; [|auto]. intros _. right. cbn. rewrite app_nil_r.
  apply (last_op_key b.2 store key None). unfold last_op in El. by rewrite El.
Qed.

Lemma listing_elem hist store start end_ v rev k x :
  (k, x) ∈ listing hist store start end_ v rev <-> in_domain start end_ k /\ value_at hist store k v = Some x.
Proof.
  unfold listing. set (l := omap _ _). assert ((k, x) ∈ (if rev then reverse l else l) <-> (k, x) ∈ l) as ->
    by (destruct rev; [by rewrite elem_of_reverse|done]).
  unfold l. rewrite list_elem_of_omap. unfold in_domain. split.
  - intros (k' & _ & E). destruct (decide _) as [Hd|]; [|done]. destruct (value_at hist store k' v) eqn:Ev; [|done]. by injection E as -> ->.
  - intros [Hd Hv]. exists k. rewrite mem_sorted_keys_elem, decide_True by done. rewrite Hv. split; [by eapply value_at_key|done].
Qed.

Lemma listing_sorted hist store start end_ v rev : StronglySorted (key_order rev) (listing hist store start end_ v rev).*1.
Proof.
  unfold listing. set (l := omap _ _). assert (StronglySorted bytes_lt l.*1) as Hs.
  { unfold l. pose proof (sorted_keys_sorted (keys_of hist)) as Hs. induction Hs as [|k ks _ IH Hf]; [constructor|].
    csimpl. destruct (decide _); cbn [fmap option_fmap]; [|done]. destruct (value_at hist store k v); cbn; [|done]. constructor; [done|].
    rewrite Forall_forall in *. intros y Hy. apply list_elem_of_fmap in Hy as ([k' x'] & -> & (k2 & Hk2 & E)%list_elem_of_omap). cbn.
    destruct (decide _); [|done]. destruct (value_at hist store k2 v); [|done]. injection E as -> _. by apply Hf. }
  destruct rev; [|done]. rewrite fmap_reverse. by apply StronglySorted_reverse.
Qed.

(** Sorted lists of pairs with the same elements are equal. *)
Lemma key_order_unique rev (l l' : list (bytes * bytes)) : StronglySorted (key_order rev) l.*1 -> StronglySorted (key_order rev) l'.*1 ->
  (forall p, p ∈ l <-> p ∈ l') -> l = l'.
Proof.
  assert (forall a b, key_order rev a b -> key_order rev b a -> False) as Has.
  { unfold key_order. intros a b. destruct rev; intros H1 H2; [apply (bytes_lt_irrefl a), (bytes_lt_trans a b a)|apply (bytes_lt_irrefl b), (bytes_lt_trans b a b)]; done. }
  assert (forall a, ~ key_order rev a a) as Hir by (intros a Ha; by apply (Has a a)).
  revert l'. induction l as [|p l IH]; intros [|q l'] Hl Hl' He; [done|by destruct (not_elem_of_nil q); apply He; left|by destruct (not_elem_of_nil p); apply He; left|].
  cbn in *. apply StronglySorted_inv in Hl as [Hl Fl], Hl' as [Hl' Fl']. rewrite Forall_forall in Fl, Fl'.
  assert (p = q) as <-.
  { pose proof (proj1 (He p) ltac:(left)) as Hp. pose proof (proj2 (He q) ltac:(left)) as Hq.
    apply elem_of_cons in Hp as [?|Hp]; [done|]. apply elem_of_cons in Hq as [?|Hq]; [done|]. exfalso.
    apply (Has p.1 q.1); [by apply Fl, list_elem_of_fmap_2|by apply Fl', list_elem_of_fmap_2]. }
  f_equal. apply IH; [done|done|]. intros r. specialize (He r). rewrite !elem_of_cons in He. split; intros Hr.
  - destruct (proj1 He (or_intror Hr)) as [->|]; [|done]. exfalso. eapply Hir, Fl, list_elem_of_fmap_2, Hr.
  - destruct (proj2 He (or_intror Hr)) as [->|]; [|done]. exfalso. eapply Hir, Fl', list_elem_of_fmap_2, Hr.
Qed.

(** What a versioned store promises: reads show the blocks written so far, from the
    first version that the store shows. *)
Class VersionStoreLaws (S I : Type) `{!VersionIter I, !VersionStore S I} := {
  vs_empty : Z -> S -> Prop;
  law_vs_get : forall lo s s' hist store key version, vs_empty lo s -> write_blocks s hist = Ok s' -> Forall (block_from lo) hist ->
    increasing hist -> no_slash store -> version_ok version ->
    vsGetAtVersion s' store key version = Ok (value_at hist store key (read_version version)) /\
    vsHasAtVersion s' store key version = Ok (bool_decide (is_Some (value_at hist store key (read_version version))));
  law_vs_iterate : forall lo s s' hist store start end_ version, vs_empty lo s -> write_blocks s hist = Ok s' -> Forall (block_from lo) hist ->
    increasing hist -> no_slash store -> version_ok version -> start <> Some [] -> end_ <> Some [] ->
    exists n, forall fuel, (n <= fuel)%nat ->
      (exists it, vsIteratorAtVersion fuel s' store start end_ version = Ok it /\
         consume fuel it = Ok (listing hist store start end_ (read_version version) false)) /\
      (exists it, vsReverseIteratorAtVersion fuel s' store start end_ version = Ok it /\
         consume fuel it = Ok (listing hist store start end_ (read_version version) true));
  law_vs_latest : forall lo s s' hist, vs_empty lo s -> write_blocks s hist = Ok s' -> Forall (block_from lo) hist -> increasing hist ->
    vsGetLatestVersion s' = Ok (match last hist with Some b => b.1 | None => 0 end);
}.

(** ** The store on RocksDB *)

(** [IteratorAtVersion] and [ReverseIteratorAtVersion] of [tsrocksdb/store.go]. *)
Definition IteratorAtVersion {D It} `{!RocksIter It, !RocksDB D It} (fuel : nat) (s : @Store D) (storeKey : bytes) (start end_ : slice)
  (version : option Z) : res (@rocksDBIterator It) := iteratorAtVersion fuel s storeKey start end_ version false.
Definition ReverseIteratorAtVersion {D It} `{!RocksIter It, !RocksDB D It} (fuel : nat) (s : @Store D) (storeKey : bytes) (start end_ : slice)
  (version : option Z) : res (@rocksDBIterator It) := iteratorAtVersion fuel s storeKey start end_ version true.

#[export] Instance rocks_version_iter {It} `{!RocksIter It} : VersionIter (@rocksDBIterator It) := {|
  viValid := Valid; viNext := Next; viKey := IterKey; viValue := IterValue;
|}.

Section Rocks.
Context {D It : Type} `{RI : !RocksIter It, RD : !RocksDB D It, IL : !RocksIterLaws It, RL : !RocksLaws D It}.

#[export] Instance rocks_version_store : VersionStore (@Store D) (@rocksDBIterator It) := {|
  vsGetAtVersion := GetAtVersion;
  vsHasAtVersion := HasAtVersion;
  vsIteratorAtVersion := IteratorAtVersion;
  vsReverseIteratorAtVersion := ReverseIteratorAtVersion;
  vsGetLatestVersion := GetLatestVersion;
  vsPutAtVersion := PutAtVersion;
  vsImport := Import;
|}.

Lemma write_blocks_put s hist : write_blocks s hist = put_all s hist.
Proof. revert s. induction hist as [|[v cs] hist IH]; intros s; [done|]. cbn. by destruct (PutAtVersion s v cs). Qed.

Lemma consume_collect fuel : forall (itr : @rocksDBIterator It) out, collect fuel itr = Ok out -> consume fuel itr = Ok out.*1.
Proof.
  induction fuel as [|fuel IH]; intros itr out; [done|]. cbn [collect consume]. cbn [viValid viKey viValue viNext rocks_version_iter].
  destruct (Valid itr) as [valid itr1]. destruct (negb valid); [by intros [= <-]|].
  intros (k & Ek & (x & Ex & (t & _ & (itr2 & En & (rest & Er & <-%Ok_inj)%res_bind_ok)%res_bind_ok)%res_bind_ok)%res_bind_ok)%res_bind_ok.
  rewrite Ek, Ex. cbn [res_bind]. rewrite En. cbn [res_bind]. by rewrite (IH _ _ Er).
Qed.

Lemma iterate_listing lo hist (s : @Store D) store start end_ version rev fuel : shows_from s lo ->
  (forall key, records s hist store key) -> Forall (block_from lo) hist -> increasing hist -> version_ok version ->
  (length (rows (dbNewIterator (st_db s) (newTSReadOptions version))) < fuel)%nat -> start <> Some [] -> end_ <> Some [] ->
  exists itr, iteratorAtVersion fuel s store start end_ version rev = Ok itr /\
    consume fuel itr = Ok (listing hist store start end_ (read_version version) rev).
Proof.
  intros Hlo Hr Hok Hinc Hv Hf Hs He.
  destruct (iterate_from lo hist s store start end_ version rev fuel Hlo Hr Hok Hv Hf Hs He) as (itr & out & E1 & E2 & So & Hin).
  exists itr. split; [done|]. rewrite (consume_collect _ _ _ E2). f_equal. apply (key_order_unique rev).
  - rewrite <- list_fmap_compose. unfold key_order. by destruct rev.
  - apply listing_sorted.
  - intros [k x]. rewrite listing_elem, value_newest by done. split.
    + intros ([[k' x'] t] & Eq & Hr')%list_elem_of_fmap. cbn in Eq. injection Eq as <- <-. apply Hin in Hr' as (Hd & u & _ & Hn). eauto.
    + intros (Hd & t & Hn). apply list_elem_of_fmap. exists (k, x, PutUint64 t). split; [done|]. apply Hin. eauto.
Qed.

#[export, refine] Instance rocks_version_laws : VersionStoreLaws (@Store D) (@rocksDBIterator It) :=
  {| vs_empty := fun lo s => fresh s /\ shows_from s lo |}.
Proof.
  - intros lo s s' hist store key version [Hf Hlo] E Hok Hinc Hs Hv. rewrite write_blocks_put in E.
    destruct (put_all_effect _ hist s s' E Hok) as (Hz & _ & _).
    assert (GetAtVersionSlice s' store key version = Ok (value_at hist store key (read_version version))) as Hg.
    { apply (get_from lo); [unfold shows_from; by rewrite Hz|by eapply put_all_records|done..]. }
    cbn. unfold GetAtVersion, HasAtVersion. by rewrite Hg.
  - intros lo s s' hist store start end_ version [Hf Hlo] E Hok Hinc Hs Hv Hst Hen. rewrite write_blocks_put in E.
    destruct (put_all_effect _ hist s s' E Hok) as (Hz & _ & _).
    exists (S (length (rows (dbNewIterator (st_db s') (newTSReadOptions version))))). intros fuel Hfuel.
    split; (apply (iterate_listing lo); [unfold shows_from; by rewrite Hz|intros key; by eapply put_all_records|done..|lia|done|done]).
  - intros lo s s' hist [Hf Hlo] E Hok Hinc. rewrite write_blocks_put in E. by eapply latest_block.
Defined.
End Rocks.

(** ** The streaming service *)

Section Clients.
Context {S I : Type} `{!VersionIter I, !VersionStore S I}.

Record StreamingService : Type := mkService { ss_store : S; currentBlockNumber : Z }.
Definition NewStreamingService (s : S) : StreamingService := mkService s 0.

Definition ListenFinalizeBlock (fss : StreamingService) (height : Z) : StreamingService := mkService (ss_store fss) height.
Definition ListenCommit (fss : StreamingService) (changeSet : list StoreKVPair) : res StreamingService :=
  let* s := vsPutAtVersion (ss_store fss) (currentBlockNumber fss) changeSet in Ok (mkService s (currentBlockNumber fss)).

(** The events of the application. *)
Inductive event : Type :=
| FinalizeBlock (height : Z)
| CommitBlock (changeSet : list StoreKVPair).

Fixpoint listen (fss : StreamingService) (evs : list event) : res StreamingService :=
  match evs with
  | [] => Ok fss
  | FinalizeBlock h :: evs => listen (ListenFinalizeBlock fss h) evs
  | CommitBlock cs :: evs => let* fss := ListenCommit fss cs in listen fss evs
  end.

(** ** The key-value store *)

Record KVStore : Type := mkKVStore { kvs_store : S; kvs_name : bytes; kvs_version : option Z }.
Definition NewKVStore (s : S) (storeKey : bytes) (version : option Z) : KVStore := mkKVStore s storeKey version.

(** Errors panic. *)
Definition or_panic {A} (r : res A) : res A := match r with Err e => Panic e | r => r end.
Definition kvGet (st : KVStore) (key : bytes) : res slice := or_panic (vsGetAtVersion (kvs_store st) (kvs_name st) key (kvs_version st)).
Definition kvHas (st : KVStore) (key : bytes) : res bool := or_panic (vsHasAtVersion (kvs_store st) (kvs_name st) key (kvs_version st)).
Definition kvIterator (fuel : nat) (st : KVStore) (start end_ : slice) : res I :=
  or_panic (vsIteratorAtVersion fuel (kvs_store st) (kvs_name st) start end_ (kvs_version st)).
Definition kvReverseIterator (fuel : nat) (st : KVStore) (start end_ : slice) : res I :=
  or_panic (vsReverseIteratorAtVersion fuel (kvs_store st) (kvs_name st) start end_ (kvs_version st)).
Definition kvSet (st : KVStore) (key value : bytes) : res KVStore := Panic "write operation is not supported".
Definition kvDelete (st : KVStore) (key : bytes) : res KVStore := Panic "write operation is not supported".

(** ** The multi-store *)

(** [ms_delegated]: the stores of the parent, by name. *)
Record MultiStore : Type := mkMultiStore { ms_versionDB : S; ms_stores : list bytes; ms_delegated : list bytes }.

(** [storeKeys]: the names of the mounted stores. *)
Definition NewMultiStore (versionDB : S) (storeKeys : list bytes) (delegatedStoreKeys : list bytes) : MultiStore :=
  mkMultiStore versionDB storeKeys delegatedStoreKeys.

(** The store of a key: one of the versioned stores, or the parent's. *)
Definition GetStore (s : MultiStore) (storeKey : bytes) : res (KVStore + bytes) :=
  if decide (storeKey ∈ ms_stores s) then Ok (inl (NewKVStore (ms_versionDB s) storeKey None))
  else if decide (storeKey ∈ ms_delegated s) then Ok (inr storeKey)
  else Panic "store key is not registered".

(** The stores of [cacheMultiStore]: versioned ones at the version, the others
    from the parent. *)
Definition cacheMultiStore (s : MultiStore) (version : option Z) (storeKey : bytes) : option (KVStore + bytes) :=
  if decide (storeKey ∈ ms_stores s) then Some (inl (NewKVStore (ms_versionDB s) storeKey version))
  else if decide (storeKey ∈ ms_delegated s) then Some (inr storeKey) else None.

Definition CacheMultiStore (s : MultiStore) : bytes -> option (KVStore + bytes) := cacheMultiStore s None.
Definition CacheMultiStoreWithVersion (s : MultiStore) (version : Z) : res (bytes -> option (KVStore + bytes)) :=
  Ok (cacheMultiStore s (Some version)).

(** [isKV]: whether a store of the parent is a key-value store. *)
Definition GetKVStore (isKV : bytes -> bool) (s : MultiStore) (storeKey : bytes) : res (KVStore + bytes) :=
  let* st := GetStore s storeKey in
  match st with
  | inl st => Ok (inl st)
  | inr k => if isKV k then Ok (inr k) else Panic "interface conversion"
  end.

Definition LatestVersion (s : MultiStore) : res Z := or_panic (vsGetLatestVersion (ms_versionDB s)).

(** ** Blocks as events *)

Definition events (hist : list Block) : list event := hist ≫= fun b => [FinalizeBlock b.1; CommitBlock b.2].

Lemma listen_blocks hist : forall fss fss', listen fss (events hist) = Ok fss' ->
  write_blocks (ss_store fss) hist = Ok (ss_store fss').
Proof.
  induction hist as [|[v cs] hist IH]; intros fss fss' E; [by apply Ok_inj in E as ->|].
  unfold events in E. rewrite bind_cons in E. cbn [app listen fst snd] in E. unfold ListenCommit, ListenFinalizeBlock in E.
  cbn [ss_store currentBlockNumber] in E. cbn [write_blocks].
  destruct (vsPutAtVersion (ss_store fss) v cs) as [s| |]; cbn [res_bind] in *; [|done|done]. by apply IH in E.
Qed.
End Clients.
Arguments event : clear implicits.

(** ** Properties *)

(** C33: Streaming to reading, for any versioned store that keeps its promises: when
    the service was told the blocks of increasing heights and their changes, the
    key-value store that the multi-store hands out for a version shows for every
    key the value after the blocks up to that version, and its iterators walk
    exactly the pairs of the domain at that version, forwards and backwards; one
    without version shows the newest, writing panics, and the multi-store reports
    the height of the last block. *)
Theorem streamed_blocks_are_read {S I : Type} `{VI : !VersionIter I, VS : !VersionStore S I, VL : !VersionStoreLaws S I} (lo : Z) (s : S)
  (fss : @StreamingService S) (hist : list Block) (stores delegated : list bytes) (store key : bytes) (start end_ : slice) (version : option Z)
  (He : vs_empty lo s) (E : listen (NewStreamingService s) (events hist) = Ok fss) (Hok : Forall (block_from lo) hist)
  (Hinc : increasing hist) (Hs : no_slash store) (Hv : version_ok version) (Hin : store ∈ stores)
  (Hst : start <> Some []) (Hen : end_ <> Some []) :
  let ms := NewMultiStore (ss_store fss) stores delegated in
  exists st, match version with None => Ok (CacheMultiStore ms) | Some v => CacheMultiStoreWithVersion ms v end = Ok (cacheMultiStore ms version) /\
    cacheMultiStore ms version store = Some (inl st) /\
    kvGet st key = Ok (value_at hist store key (read_version version)) /\
    kvHas st key = Ok (bool_decide (is_Some (value_at hist store key (read_version version)))) /\
    (exists n, forall fuel, (n <= fuel)%nat ->
      (exists it, kvIterator fuel st start end_ = Ok it /\ consume fuel it = Ok (listing hist store start end_ (read_version version) false)) /\
      (exists it, kvReverseIterator fuel st start end_ = Ok it /\ consume fuel it = Ok (listing hist store start end_ (read_version version) true))) /\
    (forall value, kvSet st key value = Panic "write operation is not supported") /\
    LatestVersion ms = Ok (match last hist with Some b => b.1 | None => 0 end).
Proof.
  intros ms. apply listen_blocks in E. cbn [NewStreamingService ss_store] in E.
  destruct (law_vs_get lo s (ss_store fss) hist store key version He E Hok Hinc Hs Hv) as [H1 H2].
  destruct (law_vs_iterate lo s (ss_store fss) hist store start end_ version He E Hok Hinc Hs Hv Hst Hen) as [n Hn].
  exists (NewKVStore (ss_store fss) store version). split_and!.
  - by destruct version.
  - unfold cacheMultiStore. by rewrite decide_True.
  - unfold kvGet. cbn. by rewrite H1.
  - unfold kvHas. cbn. by rewrite H2.
  - exists n. intros fuel Hf. destruct (Hn fuel Hf) as [(i1 & E1 & C1) (i2 & E2 & C2)]. unfold kvIterator, kvReverseIterator. cbn.
    rewrite E1, E2. cbn. split; eauto.
  - done.
  - unfold LatestVersion. cbn. by rewrite (law_vs_latest lo s (ss_store fss) hist He E Hok Hinc).
Qed.

Definition sample_service : @StreamingService (@Store MemDB) :=
  match listen (NewStreamingService empty_store) (events sample_blocks) with Ok f => f | _ => NewStreamingService empty_store end.

Lemma sample_empty : vs_empty 1 empty_store.
Proof. split; [apply empty_fresh|apply shows_from_1]. Qed.

Lemma streamed_blocks_are_read_witness :
  exists st, cacheMultiStore (NewMultiStore (ss_store sample_service) [store_a] []) (Some 4) store_a = Some (inl st) /\
    kvGet st [z2b 1] = Ok (Some [z2b 10]) /\
    exists n, forall fuel, (n <= fuel)%nat -> exists it, kvReverseIterator fuel st None None = Ok it /\
      consume fuel it = Ok [([z2b 2], [z2b 20]); ([z2b 1], [z2b 10])].
Proof.
  assert (listen (NewStreamingService empty_store) (events sample_blocks) = Ok sample_service) as E by (vm_compute; reflexivity).
  destruct (streamed_blocks_are_read (VL := rocks_version_laws) 1 empty_store sample_service sample_blocks [store_a] [] store_a [z2b 1] None None (Some 4)
    sample_empty E sample_blocks_ok sample_increasing store_a_name) as (st & _ & H1 & H2 & _ & (n & H3) & _).
  - intros v [= <-]. lia.
  - set_solver.
  - done.
  - done.
  - exists st. split_and!; [exact H1|rewrite H2; vm_compute; reflexivity|]. exists n. intros fuel Hf. destruct (H3 fuel Hf) as [_ (it & E1 & E2)].
    exists it. split; [exact E1|]. rewrite E2. vm_compute. reflexivity.
Defined.
