(* ===== verification/VersionSuite.v ===== *)
(** The conformance suite of the versioned stores: [versiondb/backend_test_utils.go].

    [Run] is written against the interface [VersionStore]: it writes blocks from
    version 0 on to a fresh store and requires what reads and iterators return.
    A [require] that does not hold is an error.

    Theorem: every store that keeps the promises of the interface, and whose
    writes do not fail, passes the suite; so the promises are at least what the
    suite requires. *)
From stdpp Require Import prelude strings gmap fin_maps sorting.
From Stdlib Require Import ZArith Lia.
From S2P Require Import Prelude OrdMap Codec Tree VersionDb VersionMem VersionStore.
Local Open Scope Z_scope.

(** ** Helpers of the suite *)

Section Reversed.
Context {E : Type} (zero : E).

(** [reversed]: the slice is cloned and swapped from both ends. *)
Fixpoint reverse_loop (fuel : nat) (s r : list E) (i j : Z) : list E :=
  match fuel with
  | O => r
  | S fuel =>
      if i <=? j then
        let a := default zero (s !! Z.to_nat j) in
        let b := default zero (s !! Z.to_nat i) in
        reverse_loop fuel s (<[Z.to_nat j := b]> (<[Z.to_nat i := a]> r)) (i + 1) (j - 1)
      else r
  end.
Definition reversed (s : list E) : list E := reverse_loop (length s) s (replicate (length s) zero) 0 (len s - 1).

(** The positions outside of [i..j] are done. *)
Definition outside (s r : list E) (i j : Z) : Prop :=
  length r = length s /\ forall p, (p < length s)%nat -> Z.of_nat p < i \/ j < Z.of_nat p -> r !! p = s !! (length s - 1 - p)%nat.

Lemma reverse_loop_ok fuel s : forall r i j, i + j = len s - 1 -> 0 <= i -> j - i < Z.of_nat fuel -> outside s r i j ->
  reverse_loop fuel s r i j = reverse s.
Proof.
  assert (forall r i j, j < i -> outside s r i j -> r = reverse s) as Hend.
  { intros r i j Hij [Hl Ho]. apply list_eq_same_length with (length s); [by rewrite length_reverse|done|].
    intros p x y Hp Hx Hy. rewrite Ho in Hx by lia. rewrite reverse_lookup in Hy by done.
    replace (length s - S p)%nat with (length s - 1 - p)%nat in Hy by lia. congruence. }
  induction fuel as [|fuel IH]; intros r i j Hs Hi Hf Ho; [apply (Hend r i j); [lia|done]|].
  cbn [reverse_loop]. destruct (Z.leb_spec i j) as [Hij|Hij]; [|by apply (Hend r i j)].
  assert (forall k, 0 <= k < len s -> exists x, s !! Z.to_nat k = Some x) as Hin.
  { intros k Hk. apply lookup_lt_is_Some. unfold len in *. lia. }
  destruct (Hin j) as [a Ea]; [lia|]. destruct (Hin i) as [b Eb]; [lia|]. rewrite Ea, Eb. cbn [default from_option id].
  apply IH; [lia|lia|lia|]. destruct Ho as [Hl Ho]. unfold len in *. split; [by rewrite !length_insert|]. intros p Hp Hpo.
  destruct (decide (p = Z.to_nat j)) as [->|Hj].
  - rewrite list_lookup_insert_eq by (rewrite length_insert; lia). rewrite <- Eb. f_equal. lia.
  - rewrite list_lookup_insert_ne by done. destruct (decide (p = Z.to_nat i)) as [->|Hi'].
    + rewrite list_lookup_insert_eq by lia. rewrite <- Ea. f_equal. lia.
    + rewrite list_lookup_insert_ne by done. apply Ho; lia.
Qed.

Lemma reversed_reverse s : reversed s = reverse s.
Proof.
  apply reverse_loop_ok; unfold len; [lia|lia|lia|]. split; [by rewrite length_replicate|]. intros p Hp H. lia.
Qed.
End Reversed.

(** [require]: a failed requirement ends the test. *)
Definition require (b : bool) (msg : string) : res unit := if b then Ok tt else Err msg.
Definition requireEqual {A} `{!EqDecision A} (a b : A) : res unit := require (bool_decide (a = b)) "not equal".
Definition requireEmpty (b : slice) : res unit := requireEqual (default [] b) [].

(** [s[len(s)-n:]] and [s[:len(s)-n]] *)
Definition last_of {A} (n : nat) (l : list A) : list A := drop (length l - n) l.
Definition but_last {A} (n : nat) (l : list A) : list A := take (length l - n) l.

(** ** The data *)

Definition testStoreKeyEVM : bytes := ascii_bytes "evm".
Definition testStoreKeyStaking : bytes := ascii_bytes "staking".
Definition key1 : bytes := ascii_bytes "key1".
Definition value1 : bytes := ascii_bytes "value1".
Definition key1Subkey : bytes := ascii_bytes "key1/subkey".

Definition evm_set (k v : string) : StoreKVPair := mkStoreKV testStoreKeyEVM false (ascii_bytes k) (ascii_bytes v).
Definition evm_delete (k : string) : StoreKVPair := mkStoreKV testStoreKeyEVM true (ascii_bytes k) [].
Definition staking_set (k v : string) : StoreKVPair := mkStoreKV testStoreKeyStaking false (ascii_bytes k) (ascii_bytes v).
Definition staking_delete (k : string) : StoreKVPair := mkStoreKV testStoreKeyStaking true (ascii_bytes k) [].

Definition changeSets : list (list StoreKVPair) :=
  [[evm_set "delete-in-block2" "1"; evm_set "re-add-in-block3" "1"; evm_set "z-genesis-only" "2"; evm_set "modify-in-block2" "1";
    staking_set "key1" "value1"; staking_set "key1/subkey" "value1"];
   [evm_delete "re-add-in-block3"; evm_set "add-in-block1" "1"; staking_delete "key1"];
   [evm_set "add-in-block2" "1"; evm_delete "delete-in-block2"; evm_set "modify-in-block2" "2"; evm_delete "key2"; staking_set "key1" "value2"];
   [evm_set "re-add-in-block3" "2"];
   [evm_delete "re-add-in-block3"]].

Definition pairs (l : list (string * string)) : list (bytes * bytes) := (fun p => (ascii_bytes p.1, ascii_bytes p.2)) <$> l.

Definition expItems : list (list (bytes * bytes)) :=
  [pairs [("delete-in-block2", "1"); ("modify-in-block2", "1"); ("re-add-in-block3", "1"); ("z-genesis-only", "2")];
   pairs [("add-in-block1", "1"); ("delete-in-block2", "1"); ("modify-in-block2", "1"); ("z-genesis-only", "2")];
   pairs [("add-in-block1", "1"); ("add-in-block2", "1"); ("modify-in-block2", "2"); ("z-genesis-only", "2")];
   pairs [("add-in-block1", "1"); ("add-in-block2", "1"); ("modify-in-block2", "2"); ("re-add-in-block3", "2"); ("z-genesis-only", "2")];
   pairs [("add-in-block1", "1"); ("add-in-block2", "1"); ("modify-in-block2", "2"); ("z-genesis-only", "2")]]%string.
Definition exp_at (i : nat) : list (bytes * bytes) := default [] (expItems !! i).

(** ** The tests *)

Section Suite.
Context {S I : Type} `{!VersionIter I, !VersionStore S I}.
Context (fuel : nat).

Fixpoint put_sets (store : S) (i : Z) (sets : list (list StoreKVPair)) : res S :=
  match sets with
  | [] => Ok store
  | cs :: sets => let* store := vsPutAtVersion store i cs in put_sets store (i + 1) sets
  end.
Definition SetupTestDB (store : S) : res S := put_sets store 0 changeSets.

Definition testBasics (store : S) : res unit :=
  let* store := SetupTestDB store in
  let evm k version := vsGetAtVersion store testStoreKeyEVM (ascii_bytes k) version in
  let staking k version := vsGetAtVersion store testStoreKeyStaking k version in
  let* value := evm "z-genesis-only" None in
  let* _ := requireEqual value (Some (ascii_bytes "2")) in
  let* ok := vsHasAtVersion store testStoreKeyEVM (ascii_bytes "z-genesis-only") (Some 4) in
  let* _ := require ok "not true" in
  let* value := evm "z-genesis-only" (Some 4) in
  let* _ := requireEqual value (Some (ascii_bytes "2")) in
  let* value := evm "re-add-in-block3" None in
  let* _ := requireEmpty value in
  let* ok := vsHasAtVersion store testStoreKeyStaking key1 None in
  let* _ := require ok "not true" in
  let* value := staking key1 None in
  let* _ := requireEqual value (Some (ascii_bytes "value2")) in
  let* value := staking key1 (Some 2) in
  let* _ := requireEqual value (Some (ascii_bytes "value2")) in
  let* ok := vsHasAtVersion store testStoreKeyStaking key1 (Some 2) in
  let* _ := require ok "not true" in
  let* value := staking key1 (Some 0) in
  let* _ := requireEqual value (Some (ascii_bytes "value1")) in
  let* value := staking key1 (Some 1) in
  let* _ := requireEmpty value in
  let* ok := vsHasAtVersion store testStoreKeyStaking key1 (Some 1) in
  let* _ := require (negb ok) "not false" in
  let* value := staking key1 (Some 0) in
  let* _ := requireEqual value (Some value1) in
  let* value := staking key1Subkey (Some 0) in
  requireEqual value (Some value1).

Definition ConsumeIterator (it : I) : res (list (bytes * bytes)) := consume fuel it.

(** Open an iterator over the first store and compare what it walks. *)
Definition forward (store : S) (start end_ : slice) (version : option Z) (exp : list (bytes * bytes)) : res unit :=
  let* it := vsIteratorAtVersion fuel store testStoreKeyEVM start end_ version in
  let* actual := ConsumeIterator it in
  requireEqual exp actual.
Definition backward (store : S) (start end_ : slice) (version : option Z) (exp : list (bytes * bytes)) : res unit :=
  let* it := vsReverseIteratorAtVersion fuel store testStoreKeyEVM start end_ version in
  let* actual := ConsumeIterator it in
  let* _ := requireEqual (length exp) (length actual) in
  requireEqual exp actual.

Fixpoint each_block (store : S) (i : Z) (exps : list (list (bytes * bytes))) : res unit :=
  match exps with
  | [] => Ok tt
  | exp :: exps =>
      let* _ := forward store None None (Some i) exp in
      let* _ := backward store None None (Some i) (reversed ([], []) exp) in
      each_block store (i + 1) exps
  end.

Definition testIterator (store : S) : res unit :=
  let* store := SetupTestDB store in
  let* _ := each_block store 0 expItems in
  let latest := exp_at (length expItems - 1) in
  let* _ := forward store None None None latest in
  let* _ := backward store None None None (reversed ([], []) latest) in
  let* _ := forward store (Some [z2b 255]) None (Some 2) [] in
  let* _ := backward store None (Some [z2b 0]) (Some 2) [] in
  let* _ := forward store (Some (ascii_bytes "modify-in-block2")) None (Some 2) (last_of 2 (exp_at 2)) in
  let* _ := backward store None (Some (ascii_bytes "mp")) (Some 2) (reversed ([], []) (but_last 1 (exp_at 2))) in
  let* _ := backward store None (Some (ascii_bytes "modify-in-block3")) (Some 2) (reversed ([], []) (but_last 1 (exp_at 2))) in
  let v := len expItems in
  let* store := vsPutAtVersion store v [evm_delete "z-genesis-only"] in
  let* _ := forward store None None (Some v) (but_last 1 (exp_at (Z.to_nat (v - 1)))) in
  let v := v - 1 in
  forward store None None (Some v) (exp_at (Z.to_nat v)).

Definition testHeightInFuture (store : S) : res unit :=
  let* store := SetupTestDB store in
  let* latest := vsGetLatestVersion store in
  let v := Some (latest + 1) in
  let* _ := vsGetAtVersion store testStoreKeyStaking key1 v in
  let* _ := vsHasAtVersion store testStoreKeyStaking key1 v in
  let* _ := vsIteratorAtVersion fuel store testStoreKeyStaking None None v in
  let* _ := vsReverseIteratorAtVersion fuel store testStoreKeyStaking None None v in
  Ok tt.

(** [storeCreator] returns a fresh store at each call. *)
Definition Run (storeCreator : S) : res unit :=
  let* _ := testBasics storeCreator in
  let* _ := testIterator storeCreator in
  let* _ := testHeightInFuture storeCreator in
  let* _ := vsPutAtVersion storeCreator 0 [mkStoreKV testStoreKeyEVM true [z2b 1] []] in
  Ok tt.
End Suite.

(** ** The promises are enough *)

Definition setup_blocks : list Block := zip (seqZ 0 5) changeSets.
Definition delete_block : Block := (5, [evm_delete "z-genesis-only"]).

Record query : Type := mkQuery { q_start : slice; q_end : slice; q_version : option Z }.
Definition query_ok (q : query) : bool :=
  bool_decide (q_start q <> Some []) && bool_decide (q_end q <> Some []) &&
  match q_version q with None => true | Some v => (0 <=? v) && (v <? 100) end.

Lemma query_ok_spec q : query_ok q = true -> q_start q <> Some [] /\ q_end q <> Some [] /\ version_ok (q_version q).
Proof.
  unfold query_ok. rewrite !andb_true_iff, !bool_decide_eq_true. intros [[H1 H2] H3]. split_and!; [done..|]. intros v Hv. rewrite Hv in H3.
  apply andb_true_iff in H3 as [?%Z.leb_le ?%Z.ltb_lt]. lia.
Qed.

Lemma evm_name : no_slash testStoreKeyEVM.
Proof. unfold no_slash. by apply (bool_decide_eq_false (z2b 47 ∈ testStoreKeyEVM)); vm_compute. Qed.
Lemma staking_name : no_slash testStoreKeyStaking.
Proof. unfold no_slash. by apply (bool_decide_eq_false (z2b 47 ∈ testStoreKeyStaking)); vm_compute. Qed.

(** Decide the conditions on concrete blocks by evaluation. *)
Lemma blocks_from_0 hist : forallb (fun b => (0 <=? b.1) && (b.1 <? 100) && forallb (fun p => bool_decide (z2b 47 ∉ kv_store p)) b.2) hist = true ->
  Forall (block_from 0) hist.
Proof.
  intros H. apply Forall_forall. intros b Hb. rewrite forallb_forall in H. specialize (H b ltac:(by apply list_elem_of_In)).
  rewrite !andb_true_iff in H. destruct H as [[H1%Z.leb_le H2%Z.ltb_lt] H3]. split; [lia|]. apply Forall_forall. intros p Hp.
  rewrite forallb_forall in H3. specialize (H3 p ltac:(by apply list_elem_of_In)). by apply bool_decide_eq_true in H3.
Qed.

Section Promise.
Context {S I : Type} `{VI : !VersionIter I, VS : !VersionStore S I, VL : !VersionStoreLaws S I}.

Section Reads.
Context (s s' : S) (hist : list Block) (He : vs_empty 0 s) (Hw : write_blocks s hist = Ok s') (Hok : Forall (block_from 0) hist) (Hinc : increasing hist).

(** With enough fuel the iterators of finitely many queries show the blocks. *)
Definition answers (store : bytes) (fuel : nat) (q : query) : Prop :=
  (exists it, vsIteratorAtVersion fuel s' store (q_start q) (q_end q) (q_version q) = Ok it /\
     consume fuel it = Ok (listing hist store (q_start q) (q_end q) (read_version (q_version q)) false)) /\
  (exists it, vsReverseIteratorAtVersion fuel s' store (q_start q) (q_end q) (q_version q) = Ok it /\
     consume fuel it = Ok (listing hist store (q_start q) (q_end q) (read_version (q_version q)) true)).

Lemma queries_answered store qs : no_slash store -> forallb query_ok qs = true ->
  exists n, forall fuel, (n <= fuel)%nat -> Forall (answers store fuel) qs.
Proof.
  intros Hs. induction qs as [|q qs IH]; [intros _; exists O; constructor|]. cbn. intros [Hq Hqs]%andb_true_iff.
  destruct (IH Hqs) as [n Hn]. apply query_ok_spec in Hq as (H1 & H2 & H3).
  destruct (law_vs_iterate 0 s s' hist store _ _ _ He Hw Hok Hinc Hs H3 H1 H2) as [m Hm].
  exists (n `max` m)%nat. intros fuel Hf. constructor; [apply Hm; lia|apply Hn; lia].
Qed.

Lemma forward_ok fuel start end_ version exp : answers testStoreKeyEVM fuel (mkQuery start end_ version) ->
  listing hist testStoreKeyEVM start end_ (read_version version) false = exp -> forward fuel s' start end_ version exp = Ok tt.
Proof.
  intros [(it & E1 & E2) _] El. cbn [q_start q_end q_version] in *. unfold forward, ConsumeIterator. rewrite E1. cbn [res_bind]. rewrite E2, El. cbn [res_bind].
  unfold requireEqual. by rewrite bool_decide_eq_true_2.
Qed.

Lemma backward_ok fuel start end_ version exp : answers testStoreKeyEVM fuel (mkQuery start end_ version) ->
  listing hist testStoreKeyEVM start end_ (read_version version) true = exp -> backward fuel s' start end_ version exp = Ok tt.
Proof.
  intros [_ (it & E1 & E2)] El. cbn [q_start q_end q_version] in *. unfold backward, ConsumeIterator. rewrite E1. cbn [res_bind]. rewrite E2, El. cbn [res_bind].
  unfold requireEqual. by rewrite !bool_decide_eq_true_2.
Qed.
End Reads.

Definition setup_queries : list query :=
  [mkQuery None None (Some 0); mkQuery None None (Some 1); mkQuery None None (Some 2); mkQuery None None (Some 3); mkQuery None None (Some 4);
   mkQuery None None None; mkQuery (Some [z2b 255]) None (Some 2); mkQuery None (Some [z2b 0]) (Some 2);
   mkQuery (Some (ascii_bytes "modify-in-block2")) None (Some 2); mkQuery None (Some (ascii_bytes "mp")) (Some 2);
   mkQuery None (Some (ascii_bytes "modify-in-block3")) (Some 2)].
Definition delete_queries : list query := [mkQuery None None (Some 5); mkQuery None None (Some 4)].

Lemma setup_ok : Forall (block_from 0) setup_blocks /\ increasing setup_blocks.
Proof. split; [by apply blocks_from_0; vm_compute|]. repeat constructor. Qed.
Lemma deleted_ok : Forall (block_from 0) (setup_blocks ++ [delete_block]) /\ increasing (setup_blocks ++ [delete_block]).
Proof. split; [by apply blocks_from_0; vm_compute|]. repeat constructor. Qed.

Lemma SetupTestDB_blocks (s : S) : SetupTestDB s = write_blocks s setup_blocks.
Proof. reflexivity. Qed.

Lemma testBasics_passes (s s' : S) : vs_empty 0 s -> SetupTestDB s = Ok s' -> testBasics s = Ok tt.
Proof.
  intros He Hw. destruct setup_ok as [Hok Hinc]. unfold testBasics. rewrite Hw. cbn [res_bind]. rewrite SetupTestDB_blocks in Hw.
  assert (forall store key version, no_slash store -> version_ok version ->
    vsGetAtVersion s' store key version = Ok (value_at setup_blocks store key (read_version version)) /\
    vsHasAtVersion s' store key version = Ok (bool_decide (is_Some (value_at setup_blocks store key (read_version version))))) as Hread
    by (intros; by eapply law_vs_get).
  assert (forall v, 0 <= v < 100 -> version_ok (Some v)) as Hv by (intros v Hv w [= <-]; lia).
  assert (version_ok None) as Hn by done.
  rewrite !(proj1 (Hread _ _ _ evm_name Hn)), !(proj2 (Hread _ _ _ staking_name Hn)), !(proj1 (Hread _ _ _ staking_name Hn)).
  rewrite !(proj1 (Hread _ _ _ evm_name (Hv 4 ltac:(lia)))), !(proj2 (Hread _ _ _ evm_name (Hv 4 ltac:(lia)))).
  rewrite !(proj1 (Hread _ _ _ staking_name (Hv 2 ltac:(lia)))), !(proj2 (Hread _ _ _ staking_name (Hv 2 ltac:(lia)))).
  rewrite !(proj1 (Hread _ _ _ staking_name (Hv 0 ltac:(lia)))), !(proj1 (Hread _ _ _ staking_name (Hv 1 ltac:(lia)))).
  rewrite !(proj2 (Hread _ _ _ staking_name (Hv 1 ltac:(lia)))). vm_compute. reflexivity.
Qed.

Lemma write_blocks_app (s : S) h1 h2 : write_blocks s (h1 ++ h2) = let* s := write_blocks s h1 in write_blocks s h2.
Proof.
  revert s. induction h1 as [|[v cs] h1 IH]; intros s; [done|]. cbn. destruct (vsPutAtVersion s v cs); [apply IH|done|done].
Qed.

Lemma testIterator_passes (s s1 s2 : S) : vs_empty 0 s -> SetupTestDB s = Ok s1 -> vsPutAtVersion s1 5 [evm_delete "z-genesis-only"] = Ok s2 ->
  exists n, forall fuel, (n <= fuel)%nat -> testIterator fuel s = Ok tt.
Proof.
  intros He Hw Hd. rewrite SetupTestDB_blocks in Hw.
  assert (write_blocks s (setup_blocks ++ [delete_block]) = Ok s2) as Hw2 by (rewrite write_blocks_app, Hw; cbn; by rewrite Hd).
  destruct (queries_answered s s1 setup_blocks He Hw (proj1 setup_ok) (proj2 setup_ok) testStoreKeyEVM setup_queries evm_name eq_refl) as [n Hn].
  destruct (queries_answered s s2 _ He Hw2 (proj1 deleted_ok) (proj2 deleted_ok) testStoreKeyEVM delete_queries evm_name eq_refl) as [m Hm].
  exists (n `max` m)%nat. intros fuel Hf. specialize (Hn fuel ltac:(lia)). specialize (Hm fuel ltac:(lia)).
  unfold setup_queries in Hn. repeat (apply Forall_cons in Hn as [? Hn]). unfold delete_queries in Hm. repeat (apply Forall_cons in Hm as [? Hm]).
  unfold testIterator. rewrite SetupTestDB_blocks, Hw. cbn [res_bind each_block expItems]. change (0 + 1) with 1.
  change (1 + 1) with 2. change (2 + 1) with 3. change (3 + 1) with 4. rewrite !reversed_reverse.
  change (len expItems) with 5. change (5 - 1) with 4. rewrite Hd.
  repeat (first [erewrite forward_ok by (eassumption || by vm_compute)|erewrite backward_ok by (eassumption || by vm_compute)]; cbn [res_bind]).
  done.
Qed.

Lemma testHeightInFuture_passes (s s1 : S) : vs_empty 0 s -> SetupTestDB s = Ok s1 ->
  exists n, forall fuel, (n <= fuel)%nat -> testHeightInFuture fuel s = Ok tt.
Proof.
  intros He Hw. rewrite SetupTestDB_blocks in Hw. destruct setup_ok as [Hok Hinc].
  destruct (queries_answered s s1 setup_blocks He Hw Hok Hinc testStoreKeyStaking [mkQuery None None (Some 5)] staking_name eq_refl) as [n Hn].
  exists n. intros fuel Hf. specialize (Hn fuel Hf). apply Forall_cons in Hn as [[(i1 & E1 & _) (i2 & E2 & _)] _]. cbn [q_start q_end q_version] in E1, E2.
  unfold testHeightInFuture. rewrite SetupTestDB_blocks, Hw. cbn [res_bind]. rewrite (law_vs_latest 0 s s1 setup_blocks He Hw Hok Hinc).
  cbn [res_bind]. change (match last setup_blocks with Some b => b.1 | None => 0 end + 1) with 5.
  destruct (law_vs_get 0 s s1 setup_blocks testStoreKeyStaking key1 (Some 5) He Hw Hok Hinc staking_name) as [G1 G2]; [intros v [= <-]; lia|].
  rewrite G1, G2. cbn [res_bind]. rewrite E1. cbn [res_bind]. by rewrite E2.
Qed.
End Promise.

(** ** Properties *)


(** A store of [NewStoreWithDB] does not skip version 0. *)
Definition suite_store : @Store MemDB := mkStore (mkMemDB ∅ ∅) false.

Lemma suite_fresh : vs_empty 0 suite_store.
Proof. split; [|done]. split; [intros k t; cbn; unfold clean; by rewrite map_filter_empty, lookup_empty|done]. Qed.

(** The store in memory accepts every write. *)
Lemma mem_put (s : @Store MemDB) v cs : exists s', vsPutAtVersion s v cs = Ok s'.
Proof.
  cbn. unfold PutAtVersion, write. cbn [dbWrite mem_db forallb op_ok].
  assert (forallb op_ok (pair_op (PutUint64 (u64 v)) <$> cs) = true) as ->; [|by eexists].
  apply forallb_forall. intros op (p & -> & _)%list_elem_of_In%list_elem_of_fmap. unfold pair_op. by destruct (kv_delete p).
Qed.

Lemma mem_sets sets : forall (s : @Store MemDB) i, exists s', put_sets s i sets = Ok s'.
Proof.
  induction sets as [|cs sets IH]; intros s i; [by eexists|]. cbn [put_sets]. destruct (mem_put s i cs) as [s1 ->]. apply IH.
Qed.

