(* ===== verification/HistCache.v ===== *)
(** The cache of historical databases of the root multi-store:
    [historicalDBCache] of [store/rootmulti/store.go].

    Queries at old heights borrow a read-only database from a small LRU cache,
    which loads it on a miss.  Entries are shared between goroutines through
    pointers and counted, so that an evicted database is closed by the last
    borrower.  The memory holds the entries by pointer, the databases opened so
    far and the calls of [Close] in order; a goroutine is a program counter,
    and a step is one critical section, one load or one operation on the
    semaphore.

    Theorems: along every interleaving no borrowed database is closed and none
    is closed twice; all queries come to an end, and after the cache was closed
    they leave no database open. *)
From stdpp Require Import prelude strings list sorting.
From Stdlib Require Import ZArith Lia.
From S2P Require Import Prelude.
Local Open Scope Z_scope.

(** ** The memory *)

(** [historicalDBEntry]; [e_db] points into the databases opened so far. *)
Record historicalDBEntry := mkEntry { e_version : Z; e_db : nat; e_refs : Z; e_evicted : bool }.

(** [historicalDBCache] without its mutex: [entries] are pointers, the most
    recently used first; [loadSem] is the number of tokens in the channel. *)
Record historicalDBCache := mkCache { maxSize : Z; entries : list nat; closed : bool; loadSem : Z }.

Definition defaultHistoricalDBCacheSize : Z := 4.

Definition newHistoricalDBCache (maxSize : Z) : historicalDBCache :=
  mkCache (if maxSize <=? 0 then defaultHistoricalDBCacheSize else maxSize) [] false 0.

Definition with_entries (c : historicalDBCache) (l : list nat) : historicalDBCache :=
  mkCache (maxSize c) l (closed c) (loadSem c).
Definition with_sem (c : historicalDBCache) (n : Z) : historicalDBCache :=
  mkCache (maxSize c) (entries c) (closed c) n.

Section Cache.
Context {D : Type}.

Record memory := mkMemory {
  m_cache : historicalDBCache;
  m_entries : list historicalDBEntry;
  m_dbs : list D;
  m_closes : list nat;
}.

Definition set_cache (m : memory) (c : historicalDBCache) : memory := mkMemory c (m_entries m) (m_dbs m) (m_closes m).
Definition update_entry (m : memory) (p : nat) (e : historicalDBEntry) : memory :=
  mkMemory (m_cache m) (<[p := e]> (m_entries m)) (m_dbs m) (m_closes m).
Definition set_refs (e : historicalDBEntry) (n : Z) : historicalDBEntry := mkEntry (e_version e) (e_db e) n (e_evicted e).
Definition set_evicted (e : historicalDBEntry) : historicalDBEntry := mkEntry (e_version e) (e_db e) (e_refs e) true.

(** [db.Close()], recorded. *)
Definition closeDB (m : memory) (d : nat) : memory := mkMemory (m_cache m) (m_entries m) (m_dbs m) (m_closes m ++ [d]).

(** ** Operations *)

(** The position of the first entry of a version in the index. *)
Fixpoint find_version (es : list historicalDBEntry) (l : list nat) (version : Z) : option (nat * nat * historicalDBEntry) :=
  match l with
  | [] => None
  | p :: l =>
      let? e := es !! p in
      if e_version e =? version then Some (0%nat, p, e)
      else let? (i, p, e) := find_version es l version in Some (S i, p, e)
  end.

Definition lookup_entry (m : memory) (version : Z) : option nat * memory :=
  let l := entries (m_cache m) in
  match find_version (m_entries m) l version with
  | Some (i, p, e) =>
      let m := update_entry m p (set_refs e (e_refs e + 1)) in
      (Some p, set_cache m (with_entries (m_cache m) (p :: take i l ++ drop (S i) l)))
  | None => (None, m)
  end.

Definition errClosed : string := "historicalDBCache: cache is closed".

(** The first critical section of [borrow]: [Ok None] goes on to load. *)
Definition borrow_check (m : memory) (version : Z) : res (option nat) * memory :=
  if closed (m_cache m) then (Err errClosed, m)
  else let '(e, m) := lookup_entry m version in (Ok e, m).

Definition evict_oldest (m : memory) : memory :=
  let l := entries (m_cache m) in
  if len l <? maxSize (m_cache m) then m
  else
    match last l with
    | None => m
    | Some p =>
        match m_entries m !! p with
        | None => m
        | Some e =>
            let m := set_cache m (with_entries (m_cache m) (removelast l)) in
            let m := update_entry m p (set_evicted e) in
            if e_refs e =? 0 then closeDB m (e_db e) else m
        end
    end.

(** The second critical section of [borrow], after the load of database [d];
    the flag is [dbInserted]. *)
Definition borrow_insert (m : memory) (version : Z) (d : nat) : res nat * bool * memory :=
  if closed (m_cache m) then (Err errClosed, false, m)
  else
    match lookup_entry m version with
    | (Some e, m) => (Ok e, false, m)
    | (None, m) =>
        let m := evict_oldest m in
        let p := length (m_entries m) in
        let c := with_entries (m_cache m) (p :: entries (m_cache m)) in
        (Ok p, true, mkMemory c (m_entries m ++ [mkEntry version d 1 false]) (m_dbs m) (m_closes m))
    end.

(** [load()]: a database opened gets the next name. *)
Definition opened (m : memory) (x : D) : nat * memory :=
  (length (m_dbs m), mkMemory (m_cache m) (m_entries m) (m_dbs m ++ [x]) (m_closes m)).

(** The whole of [borrow] of a goroutine that is not interrupted. *)
Definition borrow (m : memory) (version : Z) (load : res D) : res nat * memory :=
  match borrow_check m version with
  | (Err e, m) => (Err e, m)
  | (Panic e, m) => (Panic e, m)
  | (Ok (Some p), m) => (Ok p, m)
  | (Ok None, m) =>
      match load with
      | Err e => (Err e, m)
      | Panic e => (Panic e, m)
      | Ok x =>
          let '(d, m) := opened m x in
          let '(r, dbInserted, m) := borrow_insert m version d in
          (r, if dbInserted then m else closeDB m d)
      end
  end.

Definition release (m : memory) (p : nat) : res memory :=
  match m_entries m !! p with
  | None => Panic "invalid pointer"
  | Some e =>
      if e_refs e <=? 0 then Panic "historicalDBCache: release called on entry without refs"
      else
        let e := set_refs e (e_refs e - 1) in
        let m := update_entry m p e in
        Ok (if (e_refs e =? 0) && e_evicted e then closeDB m (e_db e) else m)
  end.

Fixpoint close_entries (closeErr : nat -> option string) (m : memory) (l : list nat) : list string * memory :=
  match l with
  | [] => ([], m)
  | p :: l =>
      match m_entries m !! p with
      | None => close_entries closeErr m l
      | Some e =>
          let m := update_entry m p (set_evicted e) in
          if e_refs e =? 0 then
            let '(errs, m) := close_entries closeErr (closeDB m (e_db e)) l in
            (option_list (closeErr (e_db e)) ++ errs, m)
          else close_entries closeErr m l
      end
  end.

Definition close (closeErr : nat -> option string) (m : memory) : list string * memory :=
  let c := m_cache m in
  let m := set_cache m (mkCache (maxSize c) (entries c) true (loadSem c)) in
  let '(errs, m) := close_entries closeErr m (entries c) in
  (errs, set_cache m (with_entries (m_cache m) [])).

(** ** Goroutines *)

(** A query at a version: where [Query] stands with its borrowed entry. *)
Inductive pc :=
| PStart (version : Z)
| PWait (version : Z)
| PLoad (version : Z)
| PInsert (version : Z) (d : nat)
| PDrop (d : nat) (next : pc)
| PReturn (next : pc)
| PHeld (version : Z) (p : nat)
| PFailed (e : string)
| PDone
| PPanic (msg : string).

Record world := mkWorld { w_mem : memory; w_threads : list pc }.

(** What a goroutine does next; [loads] says what [load] may return. *)
Variable loads : Z -> res D -> Prop.

Inductive pc_step (m : memory) : pc -> memory -> pc -> Prop :=
| step_check_fail version e m' :
    borrow_check m version = (Err e, m') -> pc_step m (PStart version) m' (PFailed e)
| step_check_hit version p m' :
    borrow_check m version = (Ok (Some p), m') -> pc_step m (PStart version) m' (PHeld version p)
| step_check_miss version m' :
    borrow_check m version = (Ok None, m') -> pc_step m (PStart version) m' (PWait version)
| step_acquire version :
    loadSem (m_cache m) < maxSize (m_cache m) ->
    pc_step m (PWait version) (set_cache m (with_sem (m_cache m) (loadSem (m_cache m) + 1))) (PLoad version)
| step_load_fail version e :
    loads version (Err e) -> pc_step m (PLoad version) m (PReturn (PFailed e))
| step_load version x d m' :
    loads version (Ok x) -> opened m x = (d, m') -> pc_step m (PLoad version) m' (PInsert version d)
| step_insert version d p m' :
    borrow_insert m version d = (Ok p, true, m') ->
    pc_step m (PInsert version d) m' (PReturn (PHeld version p))
| step_insert_lost version d p m' :
    borrow_insert m version d = (Ok p, false, m') ->
    pc_step m (PInsert version d) m' (PDrop d (PHeld version p))
| step_insert_fail version d e i m' :
    borrow_insert m version d = (Err e, i, m') ->
    pc_step m (PInsert version d) m' (PDrop d (PFailed e))
| step_drop d next : pc_step m (PDrop d next) (closeDB m d) (PReturn next)
| step_return next :
    pc_step m (PReturn next) (set_cache m (with_sem (m_cache m) (loadSem (m_cache m) - 1))) next
| step_release version p m' : release m p = Ok m' -> pc_step m (PHeld version p) m' PDone
| step_release_panic version p msg : release m p = Panic msg -> pc_step m (PHeld version p) m (PPanic msg).

(** A step of one of the goroutines. *)
Inductive thread_step (w : world) : world -> Prop :=
| thread_step_at t q m' q' :
    w_threads w !! t = Some q -> pc_step (w_mem w) q m' q' ->
    thread_step w (mkWorld m' (<[t := q']> (w_threads w))).

(** The server also starts queries and closes the cache. *)
Inductive world_step (w : world) : world -> Prop :=
| world_thread w' : thread_step w w' -> world_step w w'
| world_query version : world_step w (mkWorld (w_mem w) (w_threads w ++ [PStart version]))
| world_close closeErr errs m' :
    close closeErr (w_mem w) = (errs, m') -> world_step w (mkWorld m' (w_threads w)).

Definition initial (size : Z) : world := mkWorld (mkMemory (newHistoricalDBCache size) [] [] []) [].

Inductive reachable (size : Z) : world -> Prop :=
| reachable_init : reachable size (initial size)
| reachable_step w w' : reachable size w -> world_step w w' -> reachable size w'.

(** [n] steps of the goroutines, no new query. *)
Inductive thread_run : nat -> world -> world -> Prop :=
| run_done w : thread_run 0 w w
| run_step n w w' w'' : thread_step w w' -> thread_run n w' w'' -> thread_run (S n) w w''.

Definition finished (q : pc) : bool :=
  match q with PFailed _ | PDone => true | _ => false end.

(** ** Invariant

    [H p] counts the goroutines that hold entry [p], [O d] those that own
    database [d] outside of any entry.  Every database opened has exactly one
    owner: such a goroutine, a live entry, or a call of [Close]. *)

Definition ind (P : Prop) `{!Decision P} : nat := if decide P then 1 else 0.

Definition live (d : nat) (e : historicalDBEntry) : nat :=
  ind (e_db e = d /\ ~ (e_evicted e = true /\ e_refs e = 0)).

Definition occ (d : nat) (l : list nat) : nat := sum_list_with (fun x => ind (x = d)) l.

Definition indexed (m : memory) (p : nat) (e : historicalDBEntry) : Prop :=
  m_entries m !! p = Some e /\ e_evicted e = false.

(** Database [d] is one that [load] gave for the version. *)
Definition loaded (m : memory) (version : Z) (d : nat) : Prop :=
  exists x, m_dbs m !! d = Some x /\ loads version (Ok x).

Record mem_ok (m : memory) (H O : nat -> nat) : Prop := {
  ok_refs : forall p e, m_entries m !! p = Some e -> e_refs e = Z.of_nat (H p);
  ok_held : forall p, (0 < H p)%nat -> is_Some (m_entries m !! p);
  ok_nodup : NoDup (entries (m_cache m));
  ok_index : forall p, p ∈ entries (m_cache m) <-> exists e, indexed m p e;
  ok_owned : forall d, (O d + sum_list_with (live d) (m_entries m) + occ d (m_closes m) = ind (d < length (m_dbs m))%nat)%nat;
  ok_size : len (entries (m_cache m)) <= maxSize (m_cache m) /\ 0 < maxSize (m_cache m);
  ok_closed : closed (m_cache m) = true -> entries (m_cache m) = [];
  ok_versions : forall p q e f, indexed m p e -> indexed m q f -> e_version e = e_version f -> p = q;
  ok_loaded : forall p e, m_entries m !! p = Some e -> loaded m (e_version e) (e_db e);
}.

(** Entries keep their version and database, databases are only added. *)
Definition grows (m m' : memory) : Prop :=
  (forall p e, m_entries m !! p = Some e ->
     exists e', m_entries m' !! p = Some e' /\ e_version e' = e_version e /\ e_db e' = e_db e) /\
  m_dbs m `prefix_of` m_dbs m'.

Definition add_at (f : nat -> nat) (k : nat) : nat -> nat := fun x => (f x + ind (x = k))%nat.

Lemma sum_insert {A} (f : A -> nat) l i x y :
  l !! i = Some x -> (sum_list_with f (<[i := y]> l) + f x = sum_list_with f l + f y)%nat.
Proof.
  revert i. induction l as [|a l IH]; intros [|i] H; simplify_eq/=; [lia|].
  specialize (IH i H). lia.
Qed.

Lemma ind_true P `{!Decision P} : P -> ind P = 1%nat.
Proof. intros H. unfold ind. by rewrite decide_True. Qed.

Lemma ind_false P `{!Decision P} : ~ P -> ind P = 0%nat.
Proof. intros H. unfold ind. by rewrite decide_False. Qed.

Lemma grows_refl m : grows m m.
Proof. split; [|done]. intros p e E. by exists e. Qed.

Lemma grows_trans m1 m2 m3 : grows m1 m2 -> grows m2 m3 -> grows m1 m3.
Proof.
  intros [E1 P1] [E2 P2]. split; [|by transitivity (m_dbs m2)].
  intros p e He. destruct (E1 p e He) as (e' & He' & ? & ?).
  destruct (E2 p e' He') as (e'' & ? & ? & ?). exists e''. repeat split; congruence.
Qed.

Lemma grows_update m p e e' :
  m_entries m !! p = Some e -> e_version e' = e_version e -> e_db e' = e_db e -> grows m (update_entry m p e').
Proof.
  intros E Ev Ed. split; [|done]. simpl. intros q f Ef. destruct (decide (p = q)) as [<-|Hpq].
  - exists e'. rewrite list_lookup_insert_eq by (by eapply lookup_lt_Some). simplify_eq. naive_solver.
  - exists f. by rewrite list_lookup_insert_ne.
Qed.

Lemma find_version_spec es l version :
  Forall (fun p => is_Some (es !! p)) l ->
  match find_version es l version with
  | Some (i, p, e) => l !! i = Some p /\ es !! p = Some e /\ e_version e = version
  | None => forall p e, p ∈ l -> es !! p = Some e -> e_version e <> version
  end.
Proof.
  induction 1 as [|p l [e Ee] Hl IH]; simpl; [by intros p e ?%elem_of_nil|].
  rewrite Ee. simpl. destruct (Z.eqb_spec (e_version e) version) as [Ev|Ev]; [done|].
  destruct (find_version es l version) as [[[i q] f]|]; simpl; [done|].
  intros q f Hq Ef. apply elem_of_cons in Hq as [->|Hq]; [congruence | eauto].
Qed.

Lemma move_front_perm {A} (l : list A) i x : l !! i = Some x -> x :: take i l ++ drop (S i) l ≡ₚ l.
Proof. intros E. rewrite <- (take_drop_middle l i x E) at 3. by rewrite <- Permutation_middle. Qed.

Lemma live_refs d e n : e_evicted e = false -> live d (set_refs e n) = live d e.
Proof. intros E. unfold live, ind. simpl. rewrite E. by do 2 case_decide; naive_solver. Qed.

Lemma indexed_insert m p e e' q f :
  m_entries m !! p = Some e -> e_evicted e' = e_evicted e ->
  indexed (update_entry m p e') q f ->
  exists f0, indexed m q f0 /\ (q <> p -> f = f0) /\ (q = p -> f0 = e /\ f = e').
Proof.
  intros E Ev [Ef Evf]. simpl in Ef. destruct (decide (p = q)) as [<-|Hpq].
  - rewrite list_lookup_insert_eq in Ef by (by eapply lookup_lt_Some). simplify_eq.
    exists e. split; [by split; [|congruence] | naive_solver].
  - rewrite list_lookup_insert_ne in Ef by done. exists f. repeat split; auto; congruence.
Qed.

(** Updating the count of an entry, with the databases accounted for. *)
Lemma ok_update m H O p e n H' O' closes' :
  mem_ok m H O -> m_entries m !! p = Some e -> n = Z.of_nat (H' p) ->
  (forall q, q <> p -> H' q = H q) ->
  (forall d, (O' d + live d (set_refs e n) + occ d closes' = O d + live d e + occ d (m_closes m))%nat) ->
  mem_ok (mkMemory (m_cache m) (<[p := set_refs e n]> (m_entries m)) (m_dbs m) closes') H' O'.
Proof.
  intros M E En HH HO. pose proof (lookup_lt_Some _ _ _ E) as Hlt.
  pose proof (indexed_insert m p e (set_refs e n)) as HI.
  split; simpl.
  - intros q f Ef. destruct (decide (p = q)) as [<-|Hpq].
    + rewrite list_lookup_insert_eq in Ef by done. by simplify_eq.
    + rewrite list_lookup_insert_ne in Ef by done. rewrite HH by done. by apply (ok_refs _ _ _ M).
  - intros q Hq. apply lookup_lt_is_Some. rewrite length_insert. destruct (decide (q = p)) as [->|Hqp]; [done|].
    apply lookup_lt_is_Some. apply (ok_held _ _ _ M). by rewrite <- HH.
  - apply (ok_nodup _ _ _ M).
  - intros q. rewrite (ok_index _ _ _ M). split.
    + intros (f & Ef & Evf). destruct (decide (p = q)) as [<-|Hpq].
      * exists (set_refs e n). split; [by apply list_lookup_insert_eq|]. simpl. congruence.
      * exists f. split; [|done]. simpl. by rewrite list_lookup_insert_ne.
    + intros (f & If). destruct (HI q f E eq_refl If) as (f0 & ? & _). by exists f0.
  - intros d. pose proof (ok_owned _ _ _ M d). specialize (HO d).
    pose proof (sum_insert (live d) _ _ _ (set_refs e n) E). lia.
  - apply (ok_size _ _ _ M).
  - apply (ok_closed _ _ _ M).
  - intros q1 q2 f1 f2 I1 I2 Ev.
    destruct (HI q1 f1 E eq_refl I1) as (g1 & J1 & N1 & P1). destruct (HI q2 f2 E eq_refl I2) as (g2 & J2 & N2 & P2).
    apply (ok_versions _ _ _ M q1 q2 g1 g2 J1 J2).
    destruct (decide (q1 = p)), (decide (q2 = p)); naive_solver.
  - intros q f Ef. destruct (decide (p = q)) as [<-|Hpq].
    + rewrite list_lookup_insert_eq in Ef by done. simplify_eq/=. by apply (ok_loaded _ _ _ M p).
    + rewrite list_lookup_insert_ne in Ef by done. by apply (ok_loaded _ _ _ M q).
Qed.

(** Taking an entry out of the index. *)
Lemma ok_evict c es dbs cl H O p e l :
  mem_ok (mkMemory c es dbs cl) H O -> entries c ≡ₚ p :: l -> es !! p = Some e ->
  mem_ok (mkMemory (with_entries c l) (<[p := set_evicted e]> es) dbs (if e_refs e =? 0 then cl ++ [e_db e] else cl)) H O.
Proof.
  intros M Hl E. pose proof (lookup_lt_Some _ _ _ E) as Hlt. pose proof (ok_nodup _ _ _ M) as Hnd.
  simpl in Hnd. rewrite Hl in Hnd. apply NoDup_cons in Hnd as [Hp Hnd].
  assert (Hev : e_evicted e = false).
  { destruct (proj1 (ok_index _ _ _ M p)) as (f & Ef & ?); [simpl; rewrite Hl; by left|]. simpl in Ef. congruence. }
  assert (Hother : forall q f, <[p := set_evicted e]> es !! q = Some f -> e_evicted f = false -> q <> p /\ es !! q = Some f).
  { intros q f Ef Hf. destruct (decide (p = q)) as [<-|Hpq].
    - rewrite list_lookup_insert_eq in Ef by done. simplify_eq/=.
    - rewrite list_lookup_insert_ne in Ef by done. naive_solver. }
  split; simpl.
  - intros q f Ef. destruct (decide (p = q)) as [<-|Hpq].
    + rewrite list_lookup_insert_eq in Ef by done. simplify_eq/=. by apply (ok_refs _ _ _ M).
    + rewrite list_lookup_insert_ne in Ef by done. by apply (ok_refs _ _ _ M).
  - intros q Hq. apply lookup_lt_is_Some. rewrite length_insert. apply lookup_lt_is_Some. by apply (ok_held _ _ _ M).
  - done.
  - intros q. split.
    + intros Hq. destruct (proj1 (ok_index _ _ _ M q)) as (f & Ef & Hf); [simpl; rewrite Hl; by right|].
      exists f. split; [|done]. simpl. by rewrite list_lookup_insert_ne by (intros <-; done).
    + intros (f & Ef & Hf). destruct (Hother q f Ef Hf) as [Hqp Eq].
      assert (Hq : q ∈ entries c) by (apply (ok_index _ _ _ M q); by exists f).
      rewrite Hl in Hq. apply elem_of_cons in Hq as [?|?]; done.
  - intros d. pose proof (ok_owned _ _ _ M d) as HO. simpl in HO.
    pose proof (sum_insert (live d) _ _ _ (set_evicted e) E) as Hs.
    assert (Hd : (live d (set_evicted e) + occ d (if (e_refs e =? 0)%Z then cl ++ [e_db e] else cl) = live d e + occ d cl)%nat).
    { unfold occ, live, ind. simpl. rewrite Hev. destruct (Z.eqb_spec (e_refs e) 0) as [Hr|Hr].
      - rewrite sum_list_with_app. simpl. unfold ind. repeat case_decide; try lia; naive_solver.
      - repeat case_decide; try lia; naive_solver. }
    lia.
  - pose proof (ok_size _ _ _ M) as [Hs ?]. simpl in *. split; [|done]. unfold len in *. rewrite Hl in Hs. simpl in Hs. lia.
  - intros Hc. pose proof (ok_closed _ _ _ M Hc) as Hn. simpl in Hn. rewrite Hn in Hl.
    by apply Permutation_nil_l in Hl.
  - intros q1 q2 f1 f2 [E1 H1] [E2 H2] Hv. apply (ok_versions _ _ _ M q1 q2 f1 f2); [..|done]; split; try done; simpl.
    + by apply Hother.
    + by apply Hother.
  - intros q f Ef. destruct (decide (p = q)) as [<-|Hpq].
    + rewrite list_lookup_insert_eq in Ef by done. simplify_eq/=. by apply (ok_loaded _ _ _ M p).
    + rewrite list_lookup_insert_ne in Ef by done. by apply (ok_loaded _ _ _ M q).
Qed.

(** Reordering the index and the semaphore do not matter. *)
Lemma ok_reorder m H O c :
  mem_ok m H O -> entries c ≡ₚ entries (m_cache m) -> maxSize c = maxSize (m_cache m) -> closed c = closed (m_cache m) ->
  mem_ok (set_cache m c) H O.
Proof.
  intros M Hl Hs Hc. split; simpl; try apply M.
  - rewrite Hl. apply (ok_nodup _ _ _ M).
  - intros p. rewrite Hl. apply (ok_index _ _ _ M).
  - rewrite Hs. unfold len. rewrite Hl. apply (ok_size _ _ _ M).
  - rewrite Hc. intros E. apply (ok_closed _ _ _ M) in E. rewrite E in Hl. by apply Permutation_nil_r in Hl.
Qed.

Lemma ok_ext m H O H' O' : mem_ok m H O -> (forall p, H' p = H p) -> (forall d, O' d = O d) -> mem_ok m H' O'.
Proof.
  intros M EH EO. split; try apply M.
  - intros p e. rewrite EH. apply M.
  - intros p. rewrite EH. apply M.
  - intros d. rewrite EO. apply M.
Qed.

(** What the operations leave alone in the cache record. *)
Definition same_config (m m' : memory) : Prop :=
  maxSize (m_cache m') = maxSize (m_cache m) /\ closed (m_cache m') = closed (m_cache m) /\
  loadSem (m_cache m') = loadSem (m_cache m).

Definition has_version (m : memory) (p : nat) (version : Z) : Prop :=
  exists e, m_entries m !! p = Some e /\ e_version e = version.

Lemma lookup_spec m H O version :
  mem_ok m H O ->
  match lookup_entry m version with
  | (Some p, m') => mem_ok m' (add_at H p) O /\ grows m m' /\ same_config m m' /\ has_version m' p version
  | (None, m') => m' = m /\ forall p e, indexed m p e -> e_version e <> version
  end.
Proof.
  intros M. unfold lookup_entry.
  assert (HF : Forall (fun p => is_Some (m_entries m !! p)) (entries (m_cache m))).
  { apply Forall_forall. intros p Hp. apply (ok_index _ _ _ M) in Hp as (e & Ee & _). by exists e. }
  pose proof (find_version_spec _ _ version HF) as Hf.
  destruct (find_version _ _ _) as [[[i p] e]|].
  - destruct Hf as (Hi & Ee & Ev).
    assert (Hev : e_evicted e = false).
    { destruct (proj1 (ok_index _ _ _ M p)) as (f & Ef & ?); [by eapply list_elem_of_lookup_2|]. congruence. }
    split; [|split_and!; try done].
    + apply ok_reorder; simpl; try done; [|by apply move_front_perm].
      apply (ok_update m H O p e); [done|done| | |].
      * rewrite (ok_refs _ _ _ M p e Ee). unfold add_at. rewrite ind_true by done. lia.
      * intros q Hq. unfold add_at. rewrite ind_false by done. lia.
      * intros d. by rewrite live_refs.
    + by apply (grows_update m p e).
    + exists (set_refs e (e_refs e + 1)). split; [|done]. simpl. apply list_lookup_insert_eq. by eapply lookup_lt_Some.
  - split; [done|]. intros p e [Ee He]. apply (Hf p e); [|done]. apply (ok_index _ _ _ M). by exists e.
Qed.

Lemma removelast_perm {A} (l : list A) x : last l = Some x -> l ≡ₚ x :: removelast l.
Proof.
  intros E. apply last_Some in E as [l' ->]. rewrite removelast_last. by rewrite Permutation_app_comm.
Qed.

Lemma evict_spec m H O :
  mem_ok m H O ->
  mem_ok (evict_oldest m) H O /\ grows m (evict_oldest m) /\ same_config m (evict_oldest m) /\
  len (entries (m_cache (evict_oldest m))) < maxSize (m_cache m) /\
  (forall p e, indexed (evict_oldest m) p e -> indexed m p e).
Proof.
  intros M. pose proof (ok_size _ _ _ M) as [Hs Hpos]. unfold evict_oldest.
  destruct (Z.ltb_spec (len (entries (m_cache m))) (maxSize (m_cache m))) as [Hlt|Hge].
  { split_and!; try done. apply grows_refl. }
  destruct (last (entries (m_cache m))) as [p|] eqn:El; [|apply last_None in El; rewrite El in *; unfold len in *; simpl in *; lia].
  pose proof (removelast_perm _ _ El) as Hp.
  destruct (proj1 (ok_index _ _ _ M p)) as (e & Ee & Hev); [rewrite Hp; by left|]. rewrite Ee.
  destruct m as [c es dbs cl]. simpl in *.
  pose proof (ok_evict c es dbs cl H O p e _ M Hp Ee) as M'.
  assert (Hlen : len (removelast (entries c)) < maxSize c).
  { unfold len in *. rewrite Hp in Hs. simpl in Hs. lia. }
  assert (Hg : grows (mkMemory c es dbs cl) (update_entry (mkMemory c es dbs cl) p (set_evicted e))) by by eapply grows_update.
  assert (Hi : forall q f, <[p := set_evicted e]> es !! q = Some f -> e_evicted f = false -> es !! q = Some f).
  { intros q f Ef Hf. destruct (decide (p = q)) as [<-|Hpq].
    - rewrite list_lookup_insert_eq in Ef by (by eapply lookup_lt_Some). simplify_eq/=.
    - by rewrite list_lookup_insert_ne in Ef. }
  destruct (e_refs e =? 0); (split_and!; [exact M' | exact Hg | done | exact Hlen | intros q f [? ?]; split; [by apply Hi | done]]).
Qed.

Lemma held_fresh m H O : mem_ok m H O -> H (length (m_entries m)) = 0%nat.
Proof.
  intros M. destruct (H (length (m_entries m))) as [|n] eqn:E; [done|].
  assert (Hs : is_Some (m_entries m !! length (m_entries m))) by (apply (ok_held _ _ _ M); lia).
  apply lookup_lt_is_Some in Hs. lia.
Qed.

(** A new entry at the front of the index takes over database [d]. *)
Lemma ok_new_entry m H O version d :
  mem_ok m H (add_at O d) -> len (entries (m_cache m)) < maxSize (m_cache m) -> closed (m_cache m) = false ->
  (forall p e, indexed m p e -> e_version e <> version) -> loaded m version d ->
  mem_ok (mkMemory (with_entries (m_cache m) (length (m_entries m) :: entries (m_cache m)))
            (m_entries m ++ [mkEntry version d 1 false]) (m_dbs m) (m_closes m))
         (add_at H (length (m_entries m))) O.
Proof.
  intros M Hl Hc Hv HL. set (p := length (m_entries m)). pose proof (held_fresh _ _ _ M) as Hp.
  assert (Hinv : forall q f, (m_entries m ++ [mkEntry version d 1 false]) !! q = Some f ->
    (q <> p /\ m_entries m !! q = Some f) \/ (q = p /\ f = mkEntry version d 1 false)).
  { intros q f. rewrite lookup_app_Some. intros [E|[Hq E]].
    - left. split; [|done]. apply lookup_lt_Some in E. unfold p. lia.
    - apply list_lookup_singleton_Some in E as [? <-]. right. unfold p. split; [lia|done]. }
  assert (Hin : (m_entries m ++ [mkEntry version d 1 false]) !! p = Some (mkEntry version d 1 false)).
  { unfold p. rewrite lookup_app_r by lia. by rewrite Nat.sub_diag. }
  assert (Hmono : forall q f, m_entries m !! q = Some f -> (m_entries m ++ [mkEntry version d 1 false]) !! q = Some f).
  { intros q f E. by apply lookup_app_l_Some. }
  split; simpl.
  - intros q f [[Hq E]|[-> ->]]%Hinv; unfold add_at; simpl.
    + rewrite ind_false by done. rewrite (ok_refs _ _ _ M q f E). lia.
    + rewrite ind_true by done. unfold p. rewrite Hp. done.
  - intros q Hq. unfold add_at in Hq. destruct (decide (q = p)) as [->|Hqp]; [by eexists|].
    rewrite ind_false in Hq by done. destruct (ok_held _ _ _ M q) as [f Ef]; [lia|]. eexists. by apply Hmono.
  - apply NoDup_cons. split; [|apply (ok_nodup _ _ _ M)]. intros Hin'.
    apply (ok_index _ _ _ M) in Hin' as (e & Ee & _). apply lookup_lt_Some in Ee. unfold p in Ee. lia.
  - intros q. rewrite elem_of_cons, (ok_index _ _ _ M). split.
    + intros [->|(f & Ef & Hf)]; [by eexists|]. exists f. split; [by apply Hmono | done].
    + intros (f & Ef & Hf). apply Hinv in Ef as [[Hq E]|[-> ->]]; [right; by exists f | by left].
  - intros x. rewrite sum_list_with_app. simpl. pose proof (ok_owned _ _ _ M x) as HO. unfold add_at in HO.
    assert (Hlive : live x (mkEntry version d 1 false) = ind (x = d)).
    { unfold live, ind. simpl. by repeat case_decide; naive_solver. }
    lia.
  - pose proof (ok_size _ _ _ M). rewrite len_cons. lia.
  - congruence.
  - intros q1 q2 f1 f2 [E1 H1] [E2 H2] E. apply Hinv in E1 as [[Hq1 E1]|[-> ->]]; apply Hinv in E2 as [[Hq2 E2]|[-> ->]]; simpl in *.
    + by apply (ok_versions _ _ _ M q1 q2 f1 f2).
    + by destruct (Hv q1 f1).
    + by destruct (Hv q2 f2).
    + done.
  - intros q f [[Hq E]|[-> ->]]%Hinv; [|done]. by apply (ok_loaded _ _ _ M q).
Qed.

Lemma grows_loaded m m' version d : grows m m' -> loaded m version d -> loaded m' version d.
Proof. intros [_ Hp] (x & E & Hx). exists x. split; [by eapply prefix_lookup_Some | done]. Qed.

Lemma grows_version m m' p version : grows m m' -> has_version m p version -> has_version m' p version.
Proof. intros [Hg _] (e & E & Hv). destruct (Hg p e E) as (e' & ? & ? & ?). exists e'. split; congruence. Qed.

Lemma insert_spec m H O version d :
  mem_ok m H (add_at O d) -> loaded m version d ->
  match borrow_insert m version d with
  | (Ok p, true, m') => mem_ok m' (add_at H p) O /\ grows m m' /\ same_config m m' /\ has_version m' p version
  | (Ok p, false, m') => mem_ok m' (add_at H p) (add_at O d) /\ grows m m' /\ same_config m m' /\ has_version m' p version
  | (Err _, _, m') => m' = m
  | (Panic _, _, _) => False
  end.
Proof.
  intros M HL. unfold borrow_insert. destruct (closed (m_cache m)) eqn:Ec; [done|].
  pose proof (lookup_spec m H _ version M) as Hl. destruct (lookup_entry m version) as [[p|] m'].
  { done. }
  destruct Hl as [-> Hv]. destruct (evict_spec m H _ M) as (M' & Hg & Hc & Hs & Hi).
  destruct Hc as (C1 & C2 & C3).
  assert (Hg' : grows (evict_oldest m) (mkMemory (with_entries (m_cache (evict_oldest m)) (length (m_entries (evict_oldest m)) :: entries (m_cache (evict_oldest m))))
      (m_entries (evict_oldest m) ++ [mkEntry version d 1 false]) (m_dbs (evict_oldest m)) (m_closes (evict_oldest m)))).
  { split; [|done]. simpl. intros q f E. exists f. split; [by apply lookup_app_l_Some | done]. }
  split_and!.
  - apply ok_new_entry; [done | congruence | congruence | | by eapply grows_loaded].
    intros p e Hp. apply (Hv p). by apply Hi.
  - by eapply grows_trans.
  - done.
  - exists (mkEntry version d 1 false). split; [|done]. simpl. rewrite lookup_app_r by lia. by rewrite Nat.sub_diag.
Qed.

Lemma release_spec m H O p :
  mem_ok m (add_at H p) O -> exists m', release m p = Ok m' /\ mem_ok m' H O /\ grows m m' /\ same_config m m'.
Proof.
  intros M. unfold release. destruct (ok_held _ _ _ M p) as [e Ee].
  { unfold add_at. rewrite ind_true by done. lia. }
  rewrite Ee. pose proof (ok_refs _ _ _ M p e Ee) as Hr. unfold add_at in Hr. rewrite ind_true in Hr by done.
  destruct (Z.leb_spec (e_refs e) 0) as [Hle|Hgt]; [lia|]. eexists. split; [done|].
  set (n := e_refs e - 1). set (e' := set_refs e n).
  assert (M' : mem_ok (mkMemory (m_cache m) (<[p := e']> (m_entries m)) (m_dbs m)
     (if (e_refs e' =? 0) && e_evicted e' then m_closes m ++ [e_db e'] else m_closes m)) H O).
  { apply (ok_update m (add_at H p) O p e); [done|done| | |].
    - unfold n. lia.
    - intros q Hq. unfold add_at. rewrite ind_false by done. lia.
    - intros d. unfold e', occ, live, ind. simpl.
      destruct (Z.eqb_spec n 0) as [Hn|Hn]; simpl; [destruct (e_evicted e) eqn:Hev|]; rewrite ?sum_list_with_app; simpl; unfold ind;
        repeat case_decide; try lia; naive_solver lia. }
  assert (Hg : grows m (update_entry m p e')) by by apply (grows_update m p e).
  destruct ((e_refs e' =? 0) && e_evicted e'); (split_and!; [exact M' | exact Hg | done]).
Qed.

Lemma close_entries_spec closeErr c H O l m errs m' :
  mem_ok (set_cache m (with_entries c l)) H O -> close_entries closeErr m l = (errs, m') ->
  mem_ok (set_cache m' (with_entries c [])) H O /\ m_cache m' = m_cache m /\ grows m m'.
Proof.
  revert m errs m'. induction l as [|p l IH]; intros m errs m' M; simpl.
  { intros [= <- <-]. split_and!; [done|done|apply grows_refl]. }
  destruct (proj1 (ok_index _ _ _ M p)) as (e & Ee & Hev); [by left|]. simpl in Ee. rewrite Ee.
  destruct m as [c0 es dbs cl]. simpl in *.
  pose proof (ok_evict (with_entries c (p :: l)) es dbs cl H O p e l M (Permutation_refl _) Ee) as M'.
  assert (Hg : grows (mkMemory c0 es dbs cl) (update_entry (mkMemory c0 es dbs cl) p (set_evicted e))) by by eapply grows_update.
  destruct (e_refs e =? 0).
  - destruct (close_entries _ _ l) as [errs1 m1] eqn:E1. intros [= <- <-].
    destruct (IH (mkMemory c0 (<[p := set_evicted e]> es) dbs (cl ++ [e_db e])) errs1 m1 M' E1) as (? & ? & ?).
    split_and!; [done|done|]. by eapply grows_trans.
  - intros E1. destruct (IH (mkMemory c0 (<[p := set_evicted e]> es) dbs cl) errs m' M' E1) as (? & ? & ?).
    split_and!; [done|done|]. by eapply grows_trans.
Qed.

Lemma close_spec closeErr m H O errs m' :
  mem_ok m H O -> close closeErr m = (errs, m') ->
  mem_ok m' H O /\ grows m m' /\ maxSize (m_cache m') = maxSize (m_cache m) /\ loadSem (m_cache m') = loadSem (m_cache m) /\
  closed (m_cache m') = true.
Proof.
  intros M. unfold close.
  destruct (close_entries _ _ _) as [es m1] eqn:E. intros [= <- <-].
  destruct m as [c ents dbs cl]. simpl in *.
  assert (M0 : mem_ok (set_cache (set_cache (mkMemory c ents dbs cl) (mkCache (maxSize c) (entries c) true (loadSem c)))
    (with_entries c (entries c))) H O) by (destruct c; exact M).
  destruct (close_entries_spec closeErr c H O (entries c) _ _ _ M0 E) as (M1 & Hc & Hg).
  simpl in *. split_and!; rewrite ?Hc; try done.
  pose proof (ok_size _ _ _ M1). split; simpl; rewrite ?Hc; try apply M1; done.
Qed.

Lemma opened_spec m H O x d m' :
  mem_ok m H O -> opened m x = (d, m') -> mem_ok m' H (add_at O d) /\ grows m m' /\ same_config m m' /\ m_dbs m' !! d = Some x.
Proof.
  intros M [= <- <-]. split_and!; try done.
  - split; simpl; try apply M.
    + intros d. pose proof (ok_owned _ _ _ M d) as HO. unfold add_at. rewrite length_app. simpl.
      enough (ind (d < length (m_dbs m) + 1)%nat = ind (d < length (m_dbs m)) + ind (d = length (m_dbs m)))%nat by lia.
      unfold ind. repeat case_decide; lia.
    + intros p e E. destruct (ok_loaded _ _ _ M p e E) as (y & Ey & Hy). exists y. split; [|done]. simpl.
      by apply lookup_app_l_Some.
  - split; simpl; [|by eexists]. intros p e E. by exists e.
  - simpl. rewrite lookup_app_r by lia. by rewrite Nat.sub_diag.
Qed.

Lemma drop_spec m H O d : mem_ok m H (add_at O d) -> mem_ok (closeDB m d) H O.
Proof.
  intros M. split; simpl; try apply M.
  intros x. pose proof (ok_owned _ _ _ M x) as HO. unfold add_at in HO. unfold occ in *.
  rewrite sum_list_with_app. simpl. unfold ind in *. repeat case_decide; lia.
Qed.

(** A query that is not interrupted gets a database of its version. *)
Lemma borrow_ok m H O version x :
  mem_ok m H O -> closed (m_cache m) = false -> loads version (Ok x) ->
  exists p m' e y, borrow m version (Ok x) = (Ok p, m') /\ mem_ok m' (add_at H p) O /\
    m_entries m' !! p = Some e /\ m_dbs m' !! e_db e = Some y /\ loads version (Ok y).
Proof.
  intros M Hc HL.
  assert (forall p m' O', mem_ok m' (add_at H p) O' -> has_version m' p version ->
    exists e y, m_entries m' !! p = Some e /\ m_dbs m' !! e_db e = Some y /\ loads version (Ok y)) as Hget.
  { intros p m' O' M' (e & Ee & <-). destruct (ok_loaded _ _ _ M' p e Ee) as (y & Ey & Hy). by exists e, y. }
  unfold borrow, borrow_check. rewrite Hc. pose proof (lookup_spec m H O version M) as Hl.
  destruct (lookup_entry m version) as [[p|] m1].
  - destruct Hl as (M' & _ & _ & Hv). destruct (Hget p m1 O M' Hv) as (e & y & ? & ? & ?). by exists p, m1, e, y.
  - destruct Hl as [-> _]. destruct (opened m x) as [d m2] eqn:Eo.
    destruct (opened_spec m H O x d m2 M Eo) as (M2 & _ & (_ & C2 & _) & Ex).
    pose proof (insert_spec m2 H O version d M2) as Hi. specialize (Hi ltac:(by exists x)).
    assert (closed (m_cache m2) = false) as Hc2 by congruence.
    destruct (borrow_insert m2 version d) as [[[p|e|e] [|]] m3] eqn:Ei; try done.
    + destruct Hi as (M3 & _ & _ & Hv). destruct (Hget p m3 O M3 Hv) as (e & y & ? & ? & ?). by exists p, m3, e, y.
    + destruct Hi as (M3 & _ & _ & Hv). destruct (Hget p m3 _ M3 Hv) as (e & y & ? & ? & ?).
      exists p, (closeDB m3 d), e, y. split_and!; try done. by apply drop_spec.
    + exfalso. unfold borrow_insert in Ei. rewrite Hc2 in Ei. by destruct (lookup_entry m2 version) as [[?|] ?].
    + exfalso. unfold borrow_insert in Ei. rewrite Hc2 in Ei. by destruct (lookup_entry m2 version) as [[?|] ?].
Qed.

(** *** Goroutines *)

Fixpoint held (p : nat) (q : pc) : nat :=
  match q with
  | PHeld _ p' => ind (p = p')
  | PDrop _ q | PReturn q => held p q
  | _ => 0
  end.

Fixpoint owns (d : nat) (q : pc) : nat :=
  match q with
  | PInsert _ d' => ind (d = d')
  | PDrop d' q => ind (d = d') + owns d q
  | PReturn q => owns d q
  | _ => 0
  end.

Fixpoint tokens (q : pc) : nat :=
  match q with
  | PLoad _ | PInsert _ _ => 1
  | PDrop _ q | PReturn q => 1 + tokens q
  | _ => 0
  end.

(** What a goroutine knows of its databases and entries. *)
Fixpoint knows (m : memory) (q : pc) : Prop :=
  match q with
  | PInsert version d => loaded m version d
  | PHeld version p => has_version m p version
  | PDrop _ q => knows m q
  | PReturn q => knows m q
  | PPanic _ => False
  | _ => True
  end.

Record world_ok (w : world) : Prop := {
  world_mem : mem_ok (w_mem w) (fun p => sum_list_with (held p) (w_threads w)) (fun d => sum_list_with (owns d) (w_threads w));
  world_sem : loadSem (m_cache (w_mem w)) = Z.of_nat (sum_list_with tokens (w_threads w)) /\
              loadSem (m_cache (w_mem w)) <= maxSize (m_cache (w_mem w));
  world_knows : Forall (knows (w_mem w)) (w_threads w);
}.

Lemma grows_knows m m' q : grows m m' -> knows m q -> knows m' q.
Proof.
  intros Hg. induction q; simpl; try done; [by apply grows_loaded | by apply grows_version].
Qed.

Lemma sum_at {A} (f : A -> nat) l t q :
  l !! t = Some q -> sum_list_with f l = (f q + sum_list_with f (take t l ++ drop (S t) l))%nat.
Proof.
  intros E. rewrite <- (take_drop_middle l t q E) at 1. rewrite !sum_list_with_app. simpl. lia.
Qed.

Lemma sum_at_insert {A} (f : A -> nat) l t q q' :
  l !! t = Some q -> sum_list_with f (<[t := q']> l) = (f q' + sum_list_with f (take t l ++ drop (S t) l))%nat.
Proof.
  intros E. rewrite insert_take_drop by (by eapply lookup_lt_Some). rewrite !sum_list_with_app. simpl. lia.
Qed.

Ltac settle := split_and!; try done; try lia; try match goal with |- grows ?m _ => exact (grows_refl m) end.

(** One step of a goroutine beside others that hold [R] and own [S]. *)
Lemma pc_step_ok m q m' q' R S :
  pc_step m q m' q' ->
  mem_ok m (fun p => held p q + R p)%nat (fun d => owns d q + S d)%nat -> knows m q ->
  loadSem (m_cache m) <= maxSize (m_cache m) ->
  mem_ok m' (fun p => held p q' + R p)%nat (fun d => owns d q' + S d)%nat /\ knows m' q' /\ grows m m' /\
  maxSize (m_cache m') = maxSize (m_cache m) /\
  loadSem (m_cache m') + Z.of_nat (tokens q) = loadSem (m_cache m) + Z.of_nat (tokens q') /\
  loadSem (m_cache m') <= maxSize (m_cache m').
Proof.
  intros St M K Hsem.
  assert (Hsame : forall m1, mem_ok m1 R S -> mem_ok m1 (fun p => 0 + R p)%nat (fun d => 0 + S d)%nat) by (intros; by eapply ok_ext).
  assert (Hadd : forall f k x, (ind (x = k) + f x = add_at f k x)%nat) by (intros; unfold add_at; lia).
  destruct St as [v e m' E|v p m' E|v m' E|v Hv|v e HL|v x d m' HL E|v d p m' E|v d p m' E|v d e i m' E|d q|q|v p m' E|v p msg E]; simpl in *.
  - unfold borrow_check in E. destruct (closed _); [|by destruct (lookup_entry _ _)]. simplify_eq.
    settle.
  - unfold borrow_check in E. destruct (closed _); [done|].
    pose proof (lookup_spec _ _ _ v M) as Hl. destruct (lookup_entry m v) as [[p'|] m1]; simplify_eq.
    destruct Hl as (M' & Hg & (C1 & C2 & C3) & Hv). settle.
    eapply ok_ext; [exact M'|intros; unfold add_at; lia|done].
  - unfold borrow_check in E. destruct (closed _); [done|].
    pose proof (lookup_spec _ _ _ v M) as Hl. destruct (lookup_entry m v) as [[p'|] m1]; simplify_eq.
    destruct Hl as [-> _]. settle.
  - settle. by apply ok_reorder.
  - settle.
  - destruct (opened_spec _ _ _ _ _ _ M E) as (M' & Hg & (C1 & C2 & C3) & Ex).
    settle; [|by exists x]. eapply ok_ext; [exact M'|done|intros; unfold add_at; lia].
  - eapply (ok_ext _ _ _ R (add_at S d)) in M; [|done|intros; unfold add_at; lia].
    pose proof (insert_spec _ _ _ v d M K) as Hi. rewrite E in Hi. destruct Hi as (M' & Hg & (C1 & C2 & C3) & Hv).
    settle. eapply ok_ext; [exact M'|intros; unfold add_at; lia|done].
  - eapply (ok_ext _ _ _ R (add_at S d)) in M; [|done|intros; unfold add_at; lia].
    pose proof (insert_spec _ _ _ v d M K) as Hi. rewrite E in Hi. destruct Hi as (M' & Hg & (C1 & C2 & C3) & Hv).
    settle. eapply ok_ext; [exact M'|intros; unfold add_at; lia|intros; unfold add_at; lia].
  - eapply (ok_ext _ _ _ R (add_at S d)) in M; [|done|intros; unfold add_at; lia].
    pose proof (insert_spec _ _ _ v d M K) as Hi. rewrite E in Hi. subst m'.
    settle. eapply ok_ext; [exact M|done|intros; unfold add_at; lia].
  - assert (M' : mem_ok (closeDB m d) (fun p => held p q + R p)%nat (fun x => owns x q + S x)%nat).
    { apply drop_spec. eapply ok_ext; [exact M|done|intros; unfold add_at; lia]. }
    settle. by apply (grows_knows m); [exact (grows_refl m)|].
  - settle; [by apply ok_reorder|]. by apply (grows_knows m); [exact (grows_refl m)|].
  - destruct (release_spec m R S p) as (m1 & E1 & M' & Hg & (C1 & C2 & C3)).
    { eapply ok_ext; [exact M|intros; unfold add_at; lia|done]. }
    rewrite E in E1. injection E1 as <-. settle.
  - destruct (release_spec m R S p) as (m1 & E1 & _); [|congruence].
    eapply ok_ext; [exact M|intros; unfold add_at; lia|done].
Qed.

Lemma thread_step_ok w w' : world_ok w -> thread_step w w' -> world_ok w' /\ grows (w_mem w) (w_mem w').
Proof.
  intros [M [S1 S2] K] [t q m' q' Et St]. destruct w as [m ts]. simpl in *.
  set (rest := take t ts ++ drop (S t) ts).
  destruct (pc_step_ok m q m' q' (fun p => sum_list_with (held p) rest) (fun d => sum_list_with (owns d) rest))
    as (M' & K' & Hg & Hm & Ht & Hs); [done| | |done|].
  { eapply ok_ext; [exact M|..]; intros; symmetry; by apply sum_at. }
  { by eapply Forall_lookup_1. }
  split; [|done]. split; simpl.
  - eapply ok_ext; [exact M'|..]; intros; by apply sum_at_insert with q.
  - pose proof (sum_at tokens ts t q Et). pose proof (sum_at_insert tokens ts t q q' Et). unfold rest in *. lia.
  - apply Forall_insert; [|done]. eapply Forall_impl; [exact K|]. intros x. by apply grows_knows.
Qed.

Lemma world_step_ok w w' : world_ok w -> world_step w w' -> world_ok w'.
Proof.
  intros W St. destruct St as [w' St|version|closeErr errs m' E].
  - by eapply thread_step_ok.
  - destruct W as [M S K]. split; simpl.
    + eapply ok_ext; [exact M|..]; intros; rewrite sum_list_with_app; simpl; lia.
    + rewrite sum_list_with_app. simpl. lia.
    + apply Forall_app. by repeat constructor.
  - destruct W as [M S K]. destruct (close_spec _ _ _ _ _ _ M E) as (M' & Hg & C1 & C2 & _).
    split; simpl; [done|lia|]. eapply Forall_impl; [exact K|]. intros x. by apply grows_knows.
Qed.

Lemma initial_ok size : world_ok (initial size).
Proof.
  split; simpl; [|split; [done|]; destruct (Z.leb_spec size 0); unfold defaultHistoricalDBCacheSize; lia | constructor].
  split; simpl; try done.
  - intros p Hp. lia.
  - constructor.
  - intros p. split; [by intros ?%elem_of_nil | by intros (e & E & _)].
  - unfold len. simpl. destruct (Z.leb_spec size 0); unfold defaultHistoricalDBCacheSize; lia.
  - by intros p q e f [E _].
Qed.

Lemma reachable_ok size w : reachable size w -> world_ok w.
Proof. induction 1 as [|w w' _ IH St]; [apply initial_ok | by eapply world_step_ok]. Qed.

(** *** Progress *)

(** What a goroutine still has to do. *)
Fixpoint work (q : pc) : nat :=
  match q with
  | PStart _ => 7
  | PWait _ => 6
  | PLoad _ => 5
  | PInsert _ _ => 4
  | PDrop _ q => 2 + work q
  | PReturn q => 1 + work q
  | PHeld _ _ => 1
  | _ => 0
  end.

Lemma pc_step_work m q m' q' : pc_step m q m' q' -> (work q' < work q)%nat.
Proof. by destruct 1; simpl; lia. Qed.

Definition total_work (w : world) : nat := sum_list_with work (w_threads w).

Lemma thread_step_work w w' : thread_step w w' -> (total_work w' < total_work w)%nat.
Proof.
  intros [t q m' q' Et St]. unfold total_work. simpl. apply pc_step_work in St.
  rewrite (sum_at work _ t q Et), (sum_at_insert work _ t q q' Et). lia.
Qed.

Lemma run_bounded n w w' : thread_run n w w' -> (n + total_work w' <= total_work w)%nat.
Proof. induction 1 as [|n w w' w'' St _ IH]; [done|]. apply thread_step_work in St. lia. Qed.

Lemma sum_pos {A} (f : A -> nat) l : (0 < sum_list_with f l)%nat -> exists t q, l !! t = Some q /\ (0 < f q)%nat.
Proof.
  induction l as [|x l IH]; simpl; [lia|]. intros H. destruct (f x) as [|n] eqn:E.
  - destruct IH as (t & q & Et & Hq); [lia|]. by exists (S t), q.
  - exists 0%nat, x. split; [done|lia].
Qed.

Lemma sum_zero {A} (f : A -> nat) l : (forall x, x ∈ l -> f x = 0%nat) -> sum_list_with f l = 0%nat.
Proof.
  induction l as [|x l IH]; simpl; [done|]. intros H. rewrite (H x) by (by left). rewrite IH; [done|].
  intros y Hy. apply H. by right.
Qed.

Definition load_returns : Prop := forall version, exists r, loads version r /\ forall msg, r <> Panic msg.

Lemma pc_progress m q R S :
  load_returns -> mem_ok m (fun p => held p q + R p)%nat (fun d => owns d q + S d)%nat -> knows m q ->
  finished q = false -> (forall version, q = PWait version -> loadSem (m_cache m) < maxSize (m_cache m)) ->
  exists m' q', pc_step m q m' q'.
Proof.
  intros HL M K Hf Hw. destruct q as [v|v|v|v d|d q|q|v p|e| |msg]; simpl in *; try done.
  - destruct (borrow_check m v) as [[[p|]|e|msg] m'] eqn:E; [by do 2 eexists; eapply step_check_hit | by do 2 eexists; eapply step_check_miss
      | by do 2 eexists; eapply step_check_fail |].
    unfold borrow_check in E. destruct (closed _); [done|]. by destruct (lookup_entry _ _).
  - do 2 eexists. apply step_acquire. by apply (Hw v).
  - destruct (HL v) as [[x|e|msg] [Hr Hn]]; [by do 2 eexists; eapply step_load | by do 2 eexists; eapply step_load_fail |].
    by destruct (Hn msg).
  - eapply (ok_ext _ _ _ R (add_at S d)) in M; [|done|intros; unfold add_at; lia].
    pose proof (insert_spec _ _ _ v d M K) as Hi. destruct (borrow_insert m v d) as [[[p|e|msg] [|]] m'] eqn:E; try done.
    + by do 2 eexists; eapply step_insert.
    + by do 2 eexists; eapply step_insert_lost.
    + by do 2 eexists; eapply step_insert_fail.
    + by do 2 eexists; eapply step_insert_fail.
  - do 2 eexists. apply step_drop.
  - do 2 eexists. apply step_return.
  - destruct (release_spec m R S p) as (m1 & E1 & _); [|by do 2 eexists; eapply step_release].
    eapply ok_ext; [exact M|intros; unfold add_at; lia|done].
Qed.

Lemma world_progress w t q :
  load_returns -> world_ok w -> w_threads w !! t = Some q -> finished q = false -> exists w', thread_step w w'.
Proof.
  intros HL [M [S1 S2] K] Et Hf.
  assert (Hgo : forall t q, w_threads w !! t = Some q -> finished q = false ->
    (forall version, q = PWait version -> loadSem (m_cache (w_mem w)) < maxSize (m_cache (w_mem w))) -> exists w', thread_step w w').
  { clear t q Et Hf. intros t q Et Hf Hw.
    destruct (pc_progress (w_mem w) q (fun p => sum_list_with (held p) (take t (w_threads w) ++ drop (S t) (w_threads w)))
      (fun d => sum_list_with (owns d) (take t (w_threads w) ++ drop (S t) (w_threads w)))) as (m' & q' & St); try done.
    - eapply ok_ext; [exact M|..]; intros; symmetry; by apply sum_at.
    - by eapply Forall_lookup_1.
    - eexists. by econstructor. }
  destruct (decide (loadSem (m_cache (w_mem w)) < maxSize (m_cache (w_mem w)))) as [Hlt|Hge]; [by apply (Hgo t q)|].
  pose proof (ok_size _ _ _ M) as [_ Hpos].
  destruct (sum_pos tokens (w_threads w)) as (t' & q' & Et' & Ht); [lia|].
  apply (Hgo t' q'); [done|..]; by destruct q'; simpl in *; try lia.
Qed.

Definition all_finished (w : world) : Prop := Forall (fun q => finished q = true) (w_threads w).

#[export] Instance all_finished_dec w : Decision (all_finished w).
Proof. unfold all_finished. apply _. Defined.

Lemma run_finishes w : load_returns -> world_ok w -> exists n w', thread_run n w w' /\ all_finished w'.
Proof.
  intros HL. remember (total_work w) as k eqn:Ek. revert w Ek.
  induction (lt_wf k) as [k _ IH]. intros w -> W.
  destruct (decide (all_finished w)) as [Hf|Hf]; [exists 0%nat, w; by split; [constructor|]|].
  apply not_Forall_Exists in Hf; [|apply _]. apply Exists_exists in Hf as (q & Hq & Hn).
  apply list_elem_of_lookup_1 in Hq as [t Et]. simpl in Hn. apply not_true_is_false in Hn.
  destruct (world_progress w t q HL W Et Hn) as [w1 St].
  destruct (IH (total_work w1) (thread_step_work _ _ St) w1 eq_refl) as (n & w' & Hr & Hf); [by eapply thread_step_ok|].
  exists (S n), w'. split; [by econstructor | done].
Qed.

Lemma occ_zero d l : occ d l = 0%nat <-> d ∉ l.
Proof.
  unfold occ. induction l as [|x l IH]; simpl; [by split; [intros _ ?%elem_of_nil|]|].
  rewrite not_elem_of_cons, <- IH. unfold ind. case_decide; naive_solver lia.
Qed.

Lemma occ_nodup l : (forall d, (occ d l <= 1)%nat) -> NoDup l.
Proof.
  induction l as [|x l IH]; intros H; constructor.
  - apply occ_zero. specialize (H x). unfold occ in *. simpl in H. rewrite ind_true in H by done. lia.
  - apply IH. intros d. specialize (H d). unfold occ in *. simpl in H. lia.
Qed.

Lemma live_pos d es p e :
  es !! p = Some e -> e_db e = d -> (e_evicted e = true -> e_refs e <> 0) -> (1 <= sum_list_with (live d) es)%nat.
Proof.
  intros E Ed Hr. rewrite (sum_at (live d) es p e E). unfold live at 1. rewrite ind_true; [lia|]. naive_solver.
Qed.

Lemma finished_none q p d : finished q = true -> held p q = 0%nat /\ owns d q = 0%nat.
Proof. by destruct q. Qed.

Lemma borrowed_open w t version p :
  world_ok w -> w_threads w !! t = Some (PHeld version p) ->
  exists e x, m_entries (w_mem w) !! p = Some e /\ e_version e = version /\ m_dbs (w_mem w) !! e_db e = Some x /\
    loads version (Ok x) /\ e_db e ∉ m_closes (w_mem w).
Proof.
  intros [M S K] Et. pose proof (Forall_lookup_1 _ _ _ _ K Et) as (e & Ee & Ev).
  destruct (ok_loaded _ _ _ M p e Ee) as (x & Ex & Hx). exists e, x. rewrite Ev in Hx. split_and!; try done.
  pose proof (ok_owned _ _ _ M (e_db e)) as HO.
  assert (Hl : (1 <= sum_list_with (live (e_db e)) (m_entries (w_mem w)))%nat).
  { apply (live_pos _ _ p e Ee eq_refl). intros _. rewrite (ok_refs _ _ _ M p e Ee), (sum_at (held p) _ t _ Et).
    simpl. rewrite ind_true by done. lia. }
  apply occ_zero. unfold ind in HO. case_decide; lia.
Qed.

Lemma idle_all_closed w d :
  world_ok w -> closed (m_cache (w_mem w)) = true -> all_finished w -> (d < length (m_dbs (w_mem w)))%nat ->
  d ∈ m_closes (w_mem w).
Proof.
  intros [M S K] Hc Hf Hd. pose proof (ok_owned _ _ _ M d) as HO. rewrite ind_true in HO by done.
  assert (Hz : forall p d, sum_list_with (held p) (w_threads w) = 0%nat /\ sum_list_with (owns d) (w_threads w) = 0%nat).
  { intros p x. split; apply sum_zero; intros q Hq; by apply (finished_none q p x), (proj1 (Forall_forall _ _) Hf). }
  destruct (decide (d ∈ m_closes (w_mem w))) as [|Hn]; [done|]. apply occ_zero in Hn.
  rewrite (proj2 (Hz 0%nat d)), Hn in HO. simpl in HO.
  destruct (sum_pos (live d) (m_entries (w_mem w))) as (p & e & Ee & Hl); [lia|].
  unfold live, ind in Hl. case_decide as Hcase; [|lia]. destruct Hcase as [_ []].
  split; [|by rewrite (ok_refs _ _ _ M p e Ee), (proj1 (Hz p d))].
  destruct (e_evicted e) eqn:Hev; [done|].
  assert (Hp : p ∈ entries (m_cache (w_mem w))) by (apply (ok_index _ _ _ M); by exists e).
  rewrite (ok_closed _ _ _ M Hc) in Hp. by apply elem_of_nil in Hp.
Qed.
End Cache.

(** ** Theorems *)

(** C29: while a query holds an entry of the cache, the database behind it is one
    that was loaded for the version it asked for and has not been closed, however
    the critical sections of the queries, their loads and the closing of the
    cache interleave; no database is closed twice, the count of references never
    panics, the cache keeps to its size with one entry per version, and at most
    [maxSize] loads run at a time. *)
Theorem borrowed_database_open {D} (loads : Z -> res D -> Prop) size w :
  reachable loads size w ->
  let m := w_mem w in
  (forall t version p, w_threads w !! t = Some (PHeld version p) ->
     exists e x, m_entries m !! p = Some e /\ e_version e = version /\ m_dbs m !! e_db e = Some x /\
       loads version (Ok x) /\ e_db e ∉ m_closes m) /\
  NoDup (m_closes m) /\
  (forall t msg, w_threads w !! t <> Some (PPanic msg)) /\
  len (entries (m_cache m)) <= maxSize (m_cache m) /\
  (forall p q e f, p ∈ entries (m_cache m) -> q ∈ entries (m_cache m) -> m_entries m !! p = Some e ->
     m_entries m !! q = Some f -> e_version e = e_version f -> p = q) /\
  Z.of_nat (sum_list_with tokens (w_threads w)) <= maxSize (m_cache m).
Proof.
  intros W%reachable_ok. simpl. pose proof W as [M [S1 S2] K]. split_and!.
  - intros t version p. by apply borrowed_open.
  - apply occ_nodup. intros d. pose proof (ok_owned _ _ _ _ M d). unfold ind in *. case_decide; lia.
  - intros t msg E. by apply (Forall_lookup_1 _ _ _ _ K) in E.
  - apply (ok_size _ _ _ _ M).
  - intros p q e f (e' & ? & ?)%(ok_index _ _ _ _ M) (f' & ? & ?)%(ok_index _ _ _ _ M) Ee Ef. simplify_eq.
    by apply (ok_versions _ _ _ _ M).
  - lia.
Qed.

(** C30: queries come to an end and leave nothing open: whatever is going on, the
    goroutines make no more than a bounded number of steps, they are never stuck
    before all of them have finished (a full semaphore is always given back), and
    once the cache is closed and they have finished every database that was
    opened has been closed. *)
Theorem queries_finish_and_close {D} (loads : Z -> res D -> Prop) size w :
  load_returns loads -> reachable loads size w ->
  (forall n w', thread_run loads n w w' -> (n <= total_work w)%nat) /\
  (exists n w', thread_run loads n w w' /\ all_finished w') /\
  (forall n w', thread_run loads n w w' -> ~ all_finished w' -> exists w'', thread_step loads w' w'') /\
  (forall n w' d, thread_run loads n w w' -> all_finished w' -> closed (m_cache (w_mem w')) = true ->
     (d < length (m_dbs (w_mem w')))%nat -> d ∈ m_closes (w_mem w')).
Proof.
  intros HL W%reachable_ok.
  assert (Hrun : forall n w', thread_run loads n w w' -> world_ok loads w').
  { intros n w' Hr. revert W. induction Hr as [|n w w1 w2 St _ IH]; [done|]. intros W. apply IH. by eapply thread_step_ok. }
  split_and!.
  - intros n w' Hr. apply run_bounded in Hr. lia.
  - by apply run_finishes.
  - intros n w' Hr Hf. apply not_Forall_Exists in Hf; [|apply _]. apply Exists_exists in Hf as (q & Hq & Hn).
    apply list_elem_of_lookup_1 in Hq as [t Et]. apply (world_progress loads w' t q); eauto. by apply not_true_is_false.
  - intros n w' d Hr Hf Hc Hd. by apply (idle_all_closed loads w'); eauto.
Qed.

(** ** A run: two queries share a cache of size one; the second evicts the
    database that the first still holds. *)

Definition sample_loads (version : Z) (r : res Z) : Prop := r = Ok version.

Definition sample_world : world :=
  mkWorld (mkMemory (mkCache 1 [1%nat] false 0) [mkEntry 5 0 1 true; mkEntry 6 1 1 false] [5; 6] [])
    [PHeld 5 0; PHeld 6 1].

Tactic Notation "advance" hyp(H) constr(t) uconstr(rule) :=
  eapply reachable_step in H;
    [|apply world_thread; eapply (thread_step_at _ _ t); [vm_compute; reflexivity | eapply rule; vm_compute; reflexivity]];
  vm_compute in H.

Lemma sample_reachable : reachable sample_loads 1 sample_world.
Proof.
  pose proof (reachable_init sample_loads 1) as H.
  eapply reachable_step in H; [|apply (world_query _ _ 5)].
  eapply reachable_step in H; [|apply (world_query _ _ 6)].
  advance H 0%nat step_check_miss. advance H 1%nat step_check_miss.
  advance H 0%nat step_acquire. advance H 0%nat step_load. advance H 0%nat step_insert. advance H 0%nat step_return.
  advance H 1%nat step_acquire. advance H 1%nat step_load. advance H 1%nat step_insert. advance H 1%nat step_return.
  exact H.
Qed.

Lemma borrowed_database_open_witness :
  exists e x, m_entries (w_mem sample_world) !! 0%nat = Some e /\ e_version e = 5 /\
    m_dbs (w_mem sample_world) !! e_db e = Some x /\ sample_loads 5 (Ok x) /\ e_db e ∉ m_closes (w_mem sample_world).
Proof.
  exact (proj1 (borrowed_database_open sample_loads 1 sample_world sample_reachable) 0%nat 5 0%nat eq_refl).
Defined.

Lemma queries_finish_and_close_witness :
  exists n w', thread_run sample_loads n sample_world w' /\ all_finished w'.
Proof.
  refine (proj1 (proj2 (queries_finish_and_close sample_loads 1 sample_world _ sample_reachable))).
  intros version. exists (Ok version). split; [done|]. intros msg. discriminate.
Defined.
