(* ===== verification/MemStore.v ===== *)
(** The store of one module: [store/memiavlstore/store.go].

    A [Store] reads a tree of the database and collects writes in a change set
    that the root multi-store takes when it flushes.  The tree is a pointer: the
    type of pointers is a parameter, and the operations that read it are given
    the tree it points to.

    Lemmas: a query of a key answers with its value in the tree and a proof that
    shows it; the pairs of a subspace are the pairs of the tree with that prefix;
    asking an empty store for a proof panics. *)
From stdpp Require Import prelude strings sorting.
From Stdlib Require Import ZArith Lia.
From S2P Require Import Prelude OrdMap Codec Node Hash Wal Tree TreeSpec Iterator Proofs MultiTree.
Local Open Scope Z_scope.

(** ** State and operations *)

Section Store.
Context {P : Type}.

Record Store : Type := mkStore { st_tree : P; st_changeSet : ChangeSet }.

Definition New (tree : P) : Store := mkStore tree [].
Definition SetTree (st : Store) (tree : P) : Store := mkStore tree (st_changeSet st).

Definition Set_ (st : Store) (key : bytes) (value : slice) : Store :=
  mkStore (st_tree st) (st_changeSet st ++ [mkKVPair false key value]).
Definition Delete (st : Store) (key : bytes) : Store :=
  mkStore (st_tree st) (st_changeSet st ++ [mkKVPair true key None]).

Definition PopChangeSet (st : Store) : ChangeSet * Store := (st_changeSet st, mkStore (st_tree st) []).
End Store.
Arguments Store : clear implicits.

(** A memiavl store is committed and set up by the root store only. *)
Definition StoreCommit : res CommitID := Panic "memiavl store is not supposed to be committed alone".
Definition StoreSetInitialVersion (version : Z) : res unit :=
  Panic "memiavl store's SetInitialVersion is not supposed to be called directly".

Definition treeGet (t : VTree) (key : bytes) : slice :=
  match vt_root t with None => None | Some n => (Node.Get n key).1 end.
Definition treeHas (t : VTree) (key : bytes) : bool :=
  match treeGet t key with None => false | Some _ => true end.

Definition StoreIterator (zeroCopy : bool) (t : VTree) (start stop : slice) : Iterator :=
  NewIterator start stop true (vt_root t) zeroCopy.
Definition StoreReverseIterator (zeroCopy : bool) (t : VTree) (start stop : slice) : Iterator :=
  NewIterator start stop false (vt_root t) zeroCopy.

(** ** Queries *)

Record RequestQuery : Type := mkRequest { rq_Data : bytes; rq_Path : bytes; rq_Height : Z; rq_Prove : bool }.

(** An operation of a proof: the one of the tree, or the one of the commit info
    that leads from a store to the application hash. *)
Inductive ProofOp : Type :=
| IavlCommitmentOp (key : bytes) (p : CommitmentProof)
| CommitInfoOp (ci : CommitInfo) (store : name).

Record ResponseQuery : Type := mkResponse {
  rp_Height : Z;
  rp_Key : bytes;
  rp_Value : slice;
  rp_ProofOps : option (list ProofOp);
}.

Definition errTxDecode : string := "query cannot be zero length".
Definition errInvalidHeight : string := "invalid height".
Definition errUnknownPath : string := "unexpected query path".

Section Query.
Context (sha256 : bytes -> bytes).
(** [Pairs.Marshal] and [types.PrefixEndBytes]. *)
Context (marshalPairs : list (slice * slice) -> res bytes) (PrefixEndBytes : bytes -> slice).

Definition LastCommitID (t : VTree) : CommitID := mkCommitID (vt_version t) (rootHash sha256 (vt_root t)).
Definition StoreWorkingHash (t : VTree) : bytes := rootHash sha256 (vt_root t).

Definition getProofFromTree (t : VTree) (key : bytes) (exists_ : bool) : res (list ProofOp) :=
  let proof := if exists_ then GetMembershipProof sha256 (vt_root t) key else GetNonMembershipProof sha256 (vt_root t) key in
  match proof with
  | Ok p => Ok [IavlCommitmentOp key p]
  | Err e | Panic e =>
      Panic ((if exists_ then "unexpected value for empty proof: " else "unexpected error for nonexistence proof: ") ++ e)%string
  end.

(** The loop over the pairs of a prefix: one round per pair of the tree and
    one more to see the end. *)
Definition prefix_pairs (zeroCopy : bool) (t : VTree) (subspace : bytes) : list (slice * slice) :=
  collect (S (length (root_list (vt_root t)))) (StoreIterator zeroCopy t (Some subspace) (PrefixEndBytes subspace)).

Definition StoreQuery (zeroCopy : bool) (t : VTree) (req : RequestQuery) : res ResponseQuery :=
  if len (rq_Data req) =? 0 then Err errTxDecode
  else if (0 <? rq_Height req) && negb (rq_Height req =? vt_version t) then Err errInvalidHeight
  else if decide (rq_Path req = str "/key") then
    let key := rq_Data req in
    let value := treeGet t key in
    if negb (rq_Prove req) then Ok (mkResponse (vt_version t) key value None)
    else
      let* ops := getProofFromTree t key (match value with None => false | Some _ => true end) in
      Ok (mkResponse (vt_version t) key value (Some ops))
  else if decide (rq_Path req = str "/subspace") then
    let* bz := marshalPairs (prefix_pairs zeroCopy t (rq_Data req)) in
    Ok (mkResponse (vt_version t) (rq_Data req) (Some bz) None)
  else Err errUnknownPath.
End Query.

(** ** Theorems *)

Lemma treeGet_map t key :
  root_wf (vt_root t) -> len (root_list (vt_root t)) < 2 ^ 32 -> treeGet t key = assoc_get key (root_list (vt_root t)).
Proof. unfold treeGet. destruct (vt_root t) as [n|]; [|done]. intros W Hs. by rewrite Get_ok. Qed.

(** The end of a prefix, as [PrefixEndBytes] documents it. *)
Definition prefix_end_law (PrefixEndBytes : bytes -> slice) : Prop :=
  forall p k, p <> [] -> in_range (Some p) (PrefixEndBytes p) k = true <-> p `prefix_of` k.

Lemma prefix_pairs_filter PrefixEndBytes z t p :
  prefix_end_law PrefixEndBytes -> p <> [] -> root_wf (vt_root t) ->
  prefix_pairs PrefixEndBytes z t p =
  (fun q => (Some q.1, q.2)) <$> filter (fun q => p `prefix_of` q.1) (root_list (vt_root t)).
Proof.
  intros Hl Hp W. unfold prefix_pairs, StoreIterator. rewrite iterator_pairs.
  - f_equal. unfold assoc_range. apply list_filter_iff. intros q. by apply Hl.
  - by destruct (vt_root t); [apply W|].
Qed.

Lemma assoc_get_elem k (l : pairs) v : assoc_get k l = Some v -> (k, Some v) ∈ l.
Proof.
  induction l as [|[k' v'] l IH]; simpl; [done|]. case_decide as E; intros H; subst; [by left|right; auto].
Qed.

Section Answers.
Context (sha256 : bytes -> bytes) (marshalPairs : list (slice * slice) -> res bytes) (PrefixEndBytes : bytes -> slice).
Context (applyLeaf : LeafOp -> bytes -> bytes -> bytes) (applyInner : InnerOp -> bytes -> bytes).
Hypothesis leaf_spec : forall prefix k v, applyLeaf (mkLeafOp SHA256 SHA256 VAR_PROTO prefix) k v =
  sha256 (prefix ++ EncodeBytes k ++ EncodeBytes (sha256 v)).
Hypothesis inner_spec : forall prefix suffix child,
  applyInner (mkInnerOp SHA256 prefix suffix) child = sha256 (prefix ++ child ++ suffix).
Hypothesis sha256_len : forall b, len (sha256 b) = 32.

(** What a proof in the answer to a key query shows about a tree. *)
Definition key_proof_ok (t : VTree) (key : bytes) (ops : list ProofOp) : Prop :=
  let root := rootHash sha256 (vt_root t) in
  let l := root_list (vt_root t) in
  match assoc_get key l with
  | Some v => exists p, ops = [IavlCommitmentOp key (Exist p)] /\ proves applyLeaf applyInner root p key (Some v)
  | None => exists pl pr, ops = [IavlCommitmentOp key (Nonexist (mkNonExist key pl pr))] /\
      proves_opt applyLeaf applyInner root pl (left_of key l) /\ proves_opt applyLeaf applyInner root pr (right_of key l)
  end.

Lemma getProof_ok t key :
  root_wf (vt_root t) -> len (root_list (vt_root t)) < 2 ^ 32 -> vt_root t <> None ->
  exists ops, getProofFromTree sha256 t key (match treeGet t key with None => false | Some _ => true end) = Ok ops /\
    key_proof_ok t key ops.
Proof.
  intros W Hs Hn. rewrite treeGet_map by done. unfold getProofFromTree, key_proof_ok.
  destruct (vt_root t) as [n|]; [|done]. cbn [root_list root_wf from_option rootHash] in *.
  destruct (assoc_get key (to_list n)) as [v|] eqn:E.
  - destruct (existence_ok sha256 applyLeaf applyInner leaf_spec inner_spec sha256_len n key (Some v) W) as (p & Ep & Hp).
    { unfold small, max_leaves. lia. } { by apply assoc_get_elem. }
    unfold GetMembershipProof. rewrite Ep. cbn [res_bind]. eexists. split; [done|]. by exists p.
  - destruct (nonexistence_ok sha256 applyLeaf applyInner leaf_spec inner_spec sha256_len n key W Hs E) as (pl & pr & Ep & Hl & Hr).
    rewrite Ep. eexists. split; [done|]. by exists pl, pr.
Qed.

Lemma query_key z t req :
  root_wf (vt_root t) -> len (root_list (vt_root t)) < 2 ^ 32 ->
  rq_Data req <> [] -> (0 < rq_Height req -> rq_Height req = vt_version t) -> rq_Path req = str "/key" ->
  let value := assoc_get (rq_Data req) (root_list (vt_root t)) in
  (rq_Prove req = false ->
     StoreQuery sha256 marshalPairs PrefixEndBytes z t req = Ok (mkResponse (vt_version t) (rq_Data req) value None)) /\
  (rq_Prove req = true -> vt_root t <> None ->
     exists ops, StoreQuery sha256 marshalPairs PrefixEndBytes z t req =
       Ok (mkResponse (vt_version t) (rq_Data req) value (Some ops)) /\ key_proof_ok t (rq_Data req) ops).
Proof.
  intros W Hs Hd Hh Hp value. unfold StoreQuery.
  assert ((len (rq_Data req) =? 0) = false) as -> by (destruct (rq_Data req); [done|]; rewrite len_cons; apply Z.eqb_neq; llia).
  assert ((0 <? rq_Height req) && negb (rq_Height req =? vt_version t) = false) as ->.
  { destruct (Z.ltb_spec 0 (rq_Height req)) as [H|H]; [|done]. by rewrite (Hh H), Z.eqb_refl. }
  rewrite decide_True by done. split.
  - intros ->. cbn [negb]. by rewrite treeGet_map.
  - intros -> Hn. cbn [negb]. destruct (getProof_ok t (rq_Data req) W Hs Hn) as (ops & E & Ho).
    rewrite E. cbn [res_bind]. exists ops. split; [|done]. by rewrite treeGet_map.
Qed.
End Answers.

(** A proof of absence from an empty store cannot be made: the query panics,
    although its error is documented to be impossible. *)
Lemma empty_store_proof_panics sha256 marshalPairs PrefixEndBytes z version key :
  key <> [] ->
  exists msg, StoreQuery sha256 marshalPairs PrefixEndBytes z (mkVTree version None) (mkRequest key (str "/key") 0 true) = Panic msg.
Proof.
  intros Hk. unfold StoreQuery. cbn [rq_Data rq_Height rq_Path rq_Prove].
  rewrite (proj2 (Z.eqb_neq _ _)) by (destruct key; [done|]; rewrite len_cons; llia).
  rewrite decide_True by done. by eexists.
Qed.
