(* ===== verification/RootMulti.v ===== *)
(** The root multi-store: [store/rootmulti/store.go].

    The application writes to the stores of its modules; the root store flushes
    the writes to the database, commits, loads versions with store upgrades and
    answers queries at the latest or at an older height.

    Go maps are [gmap]s; a loop over a map takes the order in which it visits
    the keys as an argument.  A memiavl store holds a pointer to a tree of the
    database: the number of times the multi-tree has been replaced and the name
    of the tree.  Transient and memory stores, the hash of a commit info and the
    rule which paths need a proof are the SDK's and parameters.

    This file has the definitions; their theorems are in [RootSpec] and
    [RootQuery]. *)
From stdpp Require Import prelude strings gmap fin_maps sorting.
From Stdlib Require Import ZArith Lia.
From S2P Require Import Prelude OrdMap Codec Node Hash Wal Tree TreeSpec Iterator Proofs MultiTree Pending Db DbDir.
From S2P Require Import VersionDb HistCache MemStore.
Local Open Scope Z_scope.

(** ** Store keys and types *)

Inductive KeyKind : Set := KVStoreKey | TransientStoreKey | MemoryStoreKey | ObjectStoreKey.

(** A key is a pointer; [sk_id] tells keys of the same name apart. *)
Record StoreKey : Set := mkKey { sk_id : nat; sk_name : name; sk_kind : KeyKind }.

Inductive StoreType : Set :=
| StoreTypeMulti | StoreTypeDB | StoreTypeIAVL | StoreTypeTransient | StoreTypeMemory | StoreTypeExtra (n : Z).

#[export] Instance KeyKind_eq_dec : EqDecision KeyKind.
Proof. solve_decision. Defined.
#[export] Instance StoreType_eq_dec : EqDecision StoreType.
Proof. solve_decision. Defined.
#[export] Instance StoreKey_eq_dec : EqDecision StoreKey.
Proof. solve_decision. Defined.
#[export] Instance KeyKind_countable : Countable KeyKind.
Proof.
  apply (inj_countable'
    (fun k => match k with KVStoreKey => 0%nat | TransientStoreKey => 1%nat | MemoryStoreKey => 2%nat | ObjectStoreKey => 3%nat end)
    (fun n => match n with O => KVStoreKey | 1%nat => TransientStoreKey | 2%nat => MemoryStoreKey | _ => ObjectStoreKey end)).
  by intros [].
Defined.
#[export] Instance StoreKey_countable : Countable StoreKey.
Proof.
  apply (inj_countable' (fun k => (sk_id k, sk_name k, sk_kind k)) (fun '(i, n, k) => mkKey i n k)). by intros [].
Defined.

(** [sort.SliceStable] by a name. *)
Section SortBy.
Context {A : Type} (nm : A -> name).
Fixpoint insert_sorted (e : A) (l : list A) : list A :=
  match l with
  | [] => [e]
  | x :: l' => if bytes_ltb (nm x) (nm e) then x :: insert_sorted e l' else e :: l
  end.
Definition sort_named (l : list A) : list A := foldr insert_sorted [] l.
End SortBy.

(** ** Paths *)

Definition slash : byte := z2b 47.

(** [strings.SplitN(s, "/", 2)]. *)
Fixpoint split_slash (s : bytes) : bytes * option bytes :=
  match s with
  | [] => ([], None)
  | c :: s =>
      if decide (c = slash) then ([], Some s)
      else let '(a, b) := split_slash s in (c :: a, b)
  end.

Definition parsePath (path : bytes) : res (name * bytes) :=
  match path with
  | c :: path' =>
      if decide (c = slash) then
        let '(storeName, rest) := split_slash path' in
        Ok (storeName, match rest with Some sub => slash :: sub | None => [] end)
      else Err "invalid path"
  | [] => Err "invalid path"
  end.

(** ** Commit info *)

Record storeParams : Type := mkParams { sp_key : StoreKey; sp_typ : StoreType }.
Definition newStoreParams (key : StoreKey) (typ : StoreType) : storeParams := mkParams key typ.

Definition mergeStoreInfos (commitInfo : CommitInfo) (storeInfos : list StoreInfo) : CommitInfo :=
  mkCommitInfo (ci_version commitInfo) (sort_named si_name (ci_stores commitInfo ++ storeInfos)).

(** [order] is how the loop visits the keys of the map. *)
Definition amendCommitInfo (order : list StoreKey) (commitInfo : CommitInfo) (params : gmap StoreKey storeParams) : CommitInfo :=
  mergeStoreInfos commitInfo (omap (fun key =>
    let? p := params !! key in
    if bool_decide (sp_typ p <> StoreTypeIAVL) && bool_decide (sp_typ p <> StoreTypeTransient)
    then Some (mkStoreInfo (sk_name key) (mkCommitID 0 [])) else None) order).

Definition convertCommitInfo (commitInfo : CommitInfo) : CommitInfo :=
  mkCommitInfo (ci_version commitInfo)
    ((fun s => mkStoreInfo (si_name s) (mkCommitID (cid_version (si_commit s)) (cid_hash (si_commit s)))) <$> ci_stores commitInfo).

(** ** State *)

(** A pointer to a tree. *)
Abbreviation treePtr := (nat * name)%type.

Section Root.
Context {L : Type} `{!Log L} (sha256 : bytes -> bytes).
Context (marshal : WALEntry -> res bytes) (unmarshal : bytes -> res WALEntry).
(** Transient and memory stores of the SDK, and [CommitInfo.Hash]. *)
Context {T : Type} (newTransient newMem : T) (otherCommit : T -> T).
Context (infoHash : CommitInfo -> bytes).

Inductive CommitStore : Type :=
| MemiavlStore (s : Store treePtr)
| OtherStore (typ : StoreType) (x : T).

Definition GetStoreType (s : CommitStore) : StoreType :=
  match s with MemiavlStore _ => StoreTypeIAVL | OtherStore typ _ => typ end.

(** [rs_gen] counts the multi-trees that [rs_db] has had. *)
Record RootStore : Type := mkRS {
  rs_db : option (@DB L);
  rs_gen : nat;
  rs_lastCommitInfo : option CommitInfo;
  rs_storesParams : gmap StoreKey storeParams;
  rs_keysByName : gmap name StoreKey;
  rs_stores : gmap StoreKey CommitStore;
  rs_listeners : gmap StoreKey (list StoreKVPair);
  rs_opts : Options;
  rs_sdk46Compact : bool;
  rs_hist : @memory (@DB L);
}.

Definition set_db (rs : RootStore) (d : option DB) (gen : nat) : RootStore :=
  mkRS d gen (rs_lastCommitInfo rs) (rs_storesParams rs) (rs_keysByName rs) (rs_stores rs) (rs_listeners rs)
    (rs_opts rs) (rs_sdk46Compact rs) (rs_hist rs).
Definition set_stores (rs : RootStore) (m : gmap StoreKey CommitStore) : RootStore :=
  mkRS (rs_db rs) (rs_gen rs) (rs_lastCommitInfo rs) (rs_storesParams rs) (rs_keysByName rs) m (rs_listeners rs)
    (rs_opts rs) (rs_sdk46Compact rs) (rs_hist rs).
Definition set_info (rs : RootStore) (c : option CommitInfo) : RootStore :=
  mkRS (rs_db rs) (rs_gen rs) c (rs_storesParams rs) (rs_keysByName rs) (rs_stores rs) (rs_listeners rs)
    (rs_opts rs) (rs_sdk46Compact rs) (rs_hist rs).
Definition set_params (rs : RootStore) (m : gmap StoreKey storeParams) (k : gmap name StoreKey) : RootStore :=
  mkRS (rs_db rs) (rs_gen rs) (rs_lastCommitInfo rs) m k (rs_stores rs) (rs_listeners rs)
    (rs_opts rs) (rs_sdk46Compact rs) (rs_hist rs).
Definition set_listeners (rs : RootStore) (m : gmap StoreKey (list StoreKVPair)) : RootStore :=
  mkRS (rs_db rs) (rs_gen rs) (rs_lastCommitInfo rs) (rs_storesParams rs) (rs_keysByName rs) (rs_stores rs) m
    (rs_opts rs) (rs_sdk46Compact rs) (rs_hist rs).
Definition set_hist (rs : RootStore) (m : memory) : RootStore :=
  mkRS (rs_db rs) (rs_gen rs) (rs_lastCommitInfo rs) (rs_storesParams rs) (rs_keysByName rs) (rs_stores rs) (rs_listeners rs)
    (rs_opts rs) (rs_sdk46Compact rs) m.

Definition NewStore (opts : Options) (sdk46Compact : bool) : RootStore :=
  mkRS None 0 None ∅ ∅ ∅ ∅ opts sdk46Compact
    (mkMemory (newHistoricalDBCache defaultHistoricalDBCacheSize) [] [] []).

(** The tree a pointer refers to: one of the current multi-tree, or of the one
    it replaced. *)
Definition deref (rs : RootStore) (p : treePtr) : option VTree :=
  let? d := rs_db rs in
  if decide (p.1 = rs_gen rs) then TreeByName (db_tree d) p.2
  else if decide (S p.1 = rs_gen rs) then let? t := db_retired d in TreeByName t p.2
  else None.

Definition with_amend (order : list StoreKey) (rs : RootStore) (c : CommitInfo) : CommitInfo :=
  if rs_sdk46Compact rs then amendCommitInfo order c (rs_storesParams rs) else c.

(** ** Mounting *)

Definition MountStoreWithDB (rs : RootStore) (key : option StoreKey) (typ : StoreType) : res RootStore :=
  match key with
  | None => Panic "MountIAVLStore() key cannot be nil"
  | Some key =>
      match rs_storesParams rs !! key, rs_keysByName rs !! sk_name key with
      | Some _, _ => Panic "store duplicate store key"
      | None, Some _ => Panic "store duplicate store key name"
      | None, None =>
          Ok (set_params rs (<[key := newStoreParams key typ]> (rs_storesParams rs)) (<[sk_name key := key]> (rs_keysByName rs)))
      end
  end.

(** ** Flush and commit *)

(** The loop of [flush]: it takes the change sets out of the memiavl stores. *)
Fixpoint pop_change_sets (order : list StoreKey) (stores : gmap StoreKey CommitStore)
  : list NamedChangeSet * gmap StoreKey CommitStore :=
  match order with
  | [] => ([], stores)
  | key :: order =>
      match stores !! key with
      | Some (MemiavlStore s) =>
          let '(cs, s) := PopChangeSet s in
          let '(css, stores) := pop_change_sets order (<[key := MemiavlStore s]> stores) in
          (match cs with [] => css | _ => mkNamedCS (sk_name key) cs :: css end, stores)
      | _ => pop_change_sets order stores
      end
  end.

Definition nilDB : string := "nil pointer dereference".

Definition flush (order : list StoreKey) (rs : RootStore) : option string * RootStore :=
  let '(css, stores) := pop_change_sets order (rs_stores rs) in
  let rs := set_stores rs stores in
  match rs_db rs with
  | None => (Some nilDB, rs)
  | Some d =>
      let '(err, w) := dbApplyChangeSets (db_work d) (sort_named ncs_name css) in
      (err, set_db rs (Some (set_work d w)) (rs_gen rs))
  end.

Definition WorkingHash (order : list StoreKey) (rs : RootStore) : res bytes * RootStore :=
  match flush order rs with
  | (Some e, rs) => (Panic e, rs)
  | (None, rs) =>
      match rs_db rs with
      | None => (Panic nilDB, rs)
      | Some d =>
          let commitInfo := convertCommitInfo (WorkingCommitInfo sha256 (db_tree d)) in
          (Ok (infoHash (with_amend order rs commitInfo)), rs)
      end
  end.

(** [CommitInfo.CommitID] of the SDK. *)
Definition commitID (c : CommitInfo) : CommitID := mkCommitID (ci_version c) (infoHash c).

Definition commit_others (stores : gmap StoreKey CommitStore) : gmap StoreKey CommitStore :=
  (fun s => match s with
            | MemiavlStore _ => s
            | OtherStore typ x => if decide (typ = StoreTypeIAVL) then s else OtherStore typ (otherCommit x)
            end) <$> stores.

(** The underlying tree might be reloaded: the stores are pointed to it. *)
Definition set_trees (gen : nat) (stores : gmap StoreKey CommitStore) : gmap StoreKey CommitStore :=
  map_imap (fun key s => Some match s with
                              | MemiavlStore s => MemiavlStore (SetTree s (gen, sk_name key))
                              | OtherStore _ _ => s
                              end) stores.

(** Whether a commit replaces the multi-tree when it succeeds. *)
Definition reloads (d : @DB L) : bool :=
  match db_rewrite d with Some (Some (RTree _)) => true | _ => false end.

(** [None]: still waiting for the log when the schedule ends. *)
Definition RootCommit (order : list StoreKey) (s : schedule) (rs : RootStore) : option (res CommitID * RootStore) :=
  match flush order rs with
  | (Some e, rs) => Some (Panic e, rs)
  | (None, rs) =>
      match rs_db rs with
      | None => Some (Panic nilDB, rs)
      | Some d =>
          let rs := set_stores rs (commit_others (rs_stores rs)) in
          let? (r, d') := Db.Commit sha256 marshal unmarshal s d in
          match r with
          | Err e | Panic e => Some (Panic e, set_db rs (Some d') (rs_gen rs))
          | Ok _ =>
              let rs := set_db rs (Some d') (if reloads d then S (rs_gen rs) else rs_gen rs) in
              let rs := set_stores rs (set_trees (rs_gen rs) (rs_stores rs)) in
              let info := with_amend order rs (convertCommitInfo (lastCommitInfo (db_tree d'))) in
              Some (Ok (commitID info), set_info rs (Some info))
          end
      end
  end.

Definition RootClose (rounds : list nat) (closeErr : nat -> option string) (rs : RootStore) : list string * RootStore :=
  match rs_db rs with
  | None => ([nilDB], rs)
  | Some d =>
      let '(err, d) := dbClose marshal rounds d in
      let '(errs, m) := close closeErr (rs_hist rs) in
      (option_list err ++ errs, set_hist (set_db rs (Some d) (rs_gen rs)) m)
  end.

(** [dir] and [lastIndex] are the directory and the log on disk. *)
Definition RootLastCommitID (dir : Root) (lastIndex : res Z) (rs : RootStore) : res CommitID :=
  match rs_lastCommitInfo rs with
  | None =>
      match DbDir.GetLatestVersion dir lastIndex with
      | Ok v => Ok (mkCommitID v [])
      | Err e | Panic e => Panic ("failed to get latest version: " ++ e)%string
      end
  | Some c => Ok (commitID c)
  end.

(** ** Loading *)

Record StoreUpgrades : Type := mkUpgrades { su_Added : list name; su_Renamed : list (name * name); su_Deleted : list name }.

Definition tree_upgrades (upgrades : option StoreUpgrades) : list TreeNameUpgrade :=
  match upgrades with
  | None => []
  | Some u =>
      ((fun n => mkUpgrade n [] true) <$> su_Deleted u) ++
      ((fun n => mkUpgrade n [] false) <$> su_Added u) ++
      ((fun r => mkUpgrade r.2 r.1 false) <$> su_Renamed u)
  end.

(** The loop over the trees: what is left of the expected names, and the names
    that are not expected. *)
Fixpoint check_trees (expected : gset name) (ts : list NamedTree) : gset name * list name :=
  match ts with
  | [] => (expected, [])
  | t :: ts =>
      if decide (nt_name t ∈ expected) then check_trees (expected ∖ {[nt_name t]}) ts
      else let '(missing, unexpected) := check_trees expected ts in (missing, nt_name t :: unexpected)
  end.

(** The error carries the missing and the unexpected names. *)
Definition validateMemiAVLTreeMembership (t : MultiTree) (expectedNames : list name) : option (list name * list name) :=
  let '(missing, unexpected) := check_trees (list_to_set expectedNames) (trees t) in
  let missing := sort_named id (elements missing) in
  match missing, unexpected with
  | [], [] => None
  | _, _ => Some (missing, unexpected)
  end.

Definition errMembership : string := "memiavl tree membership mismatch".

Definition loadCommitStoreFromParams (gen : nat) (t : MultiTree) (key : StoreKey) (params : storeParams) : res CommitStore :=
  match sp_typ params with
  | StoreTypeMulti | StoreTypeDB => Panic "recursive MultiStores not yet supported"
  | StoreTypeIAVL =>
      match TreeByName t (sk_name key) with
      | None => Err "new store is not added in upgrades"
      | Some _ => Ok (MemiavlStore (New (gen, sk_name key)))
      end
  | StoreTypeTransient =>
      if decide (sk_kind key = TransientStoreKey) then Ok (OtherStore StoreTypeTransient newTransient)
      else Err "unexpected key type for a TransientStoreKey"
  | StoreTypeMemory =>
      if decide (sk_kind key = MemoryStoreKey) then Ok (OtherStore StoreTypeMemory newMem)
      else Err "unexpected key type for a MemoryStoreKey"
  | StoreTypeExtra _ => Panic "unrecognized store type"
  end.

Fixpoint load_stores (gen : nat) (t : MultiTree) (params : gmap StoreKey storeParams) (keys : list StoreKey)
  (stores : gmap StoreKey CommitStore) : res (gmap StoreKey CommitStore) :=
  match keys with
  | [] => Ok stores
  | key :: keys =>
      let* p := of_option nilDB (params !! key) in
      let* s := loadCommitStoreFromParams gen t key p in
      load_stores gen t params keys (<[key := s]> stores)
  end.

(** The keys of the map in the order of their names, which are distinct. *)
Definition sorted_keys (params : gmap StoreKey storeParams) : list StoreKey := sort_named sk_name (map_to_list params).*1.

Definition iavl_names (params : gmap StoreKey storeParams) (keys : list StoreKey) : list name :=
  omap (fun key => let? p := params !! key in
                   if decide (sp_typ p = StoreTypeIAVL) then Some (sk_name key) else None) keys.

Definition set_target (o : Options) (create readOnly : bool) (stores : list name) (target : Z) (overwrite : bool) : Options :=
  mkOptions create (o_InitialVersion o) readOnly stores (o_SnapshotKeepRecent o) (o_SnapshotInterval o) target
    (o_AsyncCommitBuffer o) overwrite (o_SnapshotWriterLimit o).

(** A failed call leaves the store as it was. *)
Definition LoadVersionAndUpgrade (order : list StoreKey) (dir : Root) (l : L) (rs : RootStore) (version : Z)
  (upgrades : option StoreUpgrades) : res (RootStore * Root) :=
  if MaxUint32 <? version then Err "version overflows uint32"
  else
    let storesKeys := sorted_keys (rs_storesParams rs) in
    let initialStores := iavl_names (rs_storesParams rs) storesKeys in
    let opts := set_target (rs_opts rs) true (o_ReadOnly (rs_opts rs)) initialStores (u32 version) (o_LoadForOverwriting (rs_opts rs)) in
    let* (d, dir) := DbDir.Load sha256 unmarshal opts dir l in
    let treeUpgrades := tree_upgrades upgrades in
    let* d :=
      match treeUpgrades with
      | [] => Ok d
      | _ =>
          match dbApplyUpgrades (db_work d) treeUpgrades with
          | (Some e, _) => Err e
          | (None, w) => Ok (set_work d w)
          end
      end in
    let* _ :=
      if (version =? 0) || negb (bool_decide (treeUpgrades = [])) then
        match validateMemiAVLTreeMembership (db_tree d) initialStores with
        | Some _ => Err errMembership
        | None => Ok tt
        end
      else Ok tt in
    let gen := S (rs_gen rs) in
    let* stores := load_stores gen (db_tree d) (rs_storesParams rs) storesKeys ∅ in
    let rs := set_stores (set_db rs (Some d) gen) stores in
    let info :=
      if negb (MTVersion (db_tree d) =? 0) then with_amend order rs (convertCommitInfo (lastCommitInfo (db_tree d)))
      else mkCommitInfo 0 [] in
    Ok (set_info rs (Some info), dir).

Definition LoadLatestVersion (order : list StoreKey) (dir : Root) (l : L) (rs : RootStore) : res (RootStore * Root) :=
  LoadVersionAndUpgrade order dir l rs 0 None.
Definition LoadLatestVersionAndUpgrade (order : list StoreKey) (dir : Root) (l : L) (rs : RootStore) (u : option StoreUpgrades)
  : res (RootStore * Root) := LoadVersionAndUpgrade order dir l rs 0 u.
Definition LoadVersion (order : list StoreKey) (dir : Root) (l : L) (rs : RootStore) (version : Z) : res (RootStore * Root) :=
  LoadVersionAndUpgrade order dir l rs version None.

Definition RootSetInitialVersion (dir : Root) (rs : RootStore) (version : Z) : res (RootStore * Root) :=
  let* d := of_option nilDB (rs_db rs) in
  let* (d, dir) := dbSetInitialVersion sha256 d dir version in
  Ok (set_db rs (Some d) (rs_gen rs), dir).

(** [RollbackToVersion]; the error of [Load] leaves no database. *)
Definition RollbackToVersion (rounds : list nat) (dir : Root) (l : L) (rs : RootStore) (target : Z) : option string * RootStore * Root :=
  if target <=? 0 then (Some "invalid rollback height target", rs, dir)
  else if MaxUint32 <? target then (Some "rollback height target exceeds max uint32", rs, dir)
  else
    let '(err, rs) :=
      match rs_db rs with
      | None => (None, rs)
      | Some d => let '(err, d) := dbClose marshal rounds d in (err, set_db rs (Some d) (rs_gen rs))
      end in
    match err with
    | Some e => (Some e, rs, dir)
    | None =>
        let opts := set_target (rs_opts rs) (o_CreateIfMissing (rs_opts rs)) (o_ReadOnly (rs_opts rs))
                      (o_InitialStores (rs_opts rs)) (u32 target) true in
        match DbDir.Load sha256 unmarshal opts dir l with
        | Ok (d, dir) => (None, set_db rs (Some d) (S (rs_gen rs)), dir)
        | Err e | Panic e => (Some e, set_db rs None (rs_gen rs), dir)
        end
    end.

(** ** Stores of the application *)

Definition GetCommitStore (rs : RootStore) (key : StoreKey) : option CommitStore := rs_stores rs !! key.

Definition GetStore (rs : RootStore) (key : StoreKey) : res CommitStore := of_option "store does not exist for key" (rs_stores rs !! key).

Definition GetStoreByName (rs : RootStore) (n : name) : option CommitStore :=
  let? key := rs_keysByName rs !! n in GetCommitStore rs key.

Definition RootLatestVersion (rs : RootStore) : res Z :=
  let* d := of_option nilDB (rs_db rs) in Ok (MTVersion (db_tree d)).

(** An error is logged and answered with 0. *)
Definition RootEarliestVersion (cache : Z) (dir : Root) (rs : RootStore) : res Z :=
  let* d := of_option nilDB (rs_db rs) in
  match DbDir.EarliestVersion cache (r_entries dir) (initialVersion (db_tree d)) with
  | Ok (v, _) => Ok v
  | Err _ | Panic _ => Ok 0
  end.

Definition SetMemIAVLOptions (rs : RootStore) (opts : Options) : RootStore :=
  mkRS (rs_db rs) (rs_gen rs) (rs_lastCommitInfo rs) (rs_storesParams rs) (rs_keysByName rs) (rs_stores rs) (rs_listeners rs)
    opts (rs_sdk46Compact rs) (rs_hist rs).

Definition ListeningEnabled (rs : RootStore) (key : StoreKey) : bool :=
  match rs_listeners rs !! key with Some _ => true | None => false end.

Definition AddListeners (rs : RootStore) (keys : list StoreKey) : RootStore :=
  set_listeners rs (fold_left (fun m k => match m !! k with Some _ => m | None => <[k := []]> m end) keys (rs_listeners rs)).

(** The state changes since the last call, in the order of the store keys. *)
Definition PopStateCache (order : list StoreKey) (rs : RootStore) : list StoreKVPair * RootStore :=
  let cache := mjoin ((fun k => default [] (rs_listeners rs !! k)) <$> order) in
  (sort_named kv_store cache, set_listeners rs ((fun _ => []) <$> rs_listeners rs)).

(** What the cache multi-store wraps: the store itself, the store with its
    listener, or a store at an older version. *)
Inductive CacheWrapper : Type :=
| WStore (s : CommitStore)
| WListen (key : StoreKey) (s : CommitStore)
| WHistorical (s : Store VTree).

Definition CacheMultiStore (rs : RootStore) : gmap StoreKey CacheWrapper :=
  map_imap (fun k s => Some (if ListeningEnabled rs k then WListen k s else WStore s)) (rs_stores rs).

(** ** Older versions *)

Definition loadAtVersion (dir : Root) (l : L) (opts : Options) (version : Z) : res (@DB L) :=
  let opts := set_target opts (o_CreateIfMissing opts) true (o_InitialStores opts) (u32 version) (o_LoadForOverwriting opts) in
  let* (d, _) := DbDir.Load sha256 unmarshal opts dir l in
  if negb (MTVersion (db_tree d) =? version) then Err "failed to load state at height" else Ok d.

Definition add_historical (keysByName : gmap name StoreKey) (ts : list NamedTree) (stores : gmap StoreKey CacheWrapper)
  : gmap StoreKey CacheWrapper :=
  fold_left (fun m t =>
    match keysByName !! nt_name t with
    | None => m
    | Some key => <[key := WHistorical (New (nt_tree t))]> m
    end) ts stores.

(** With the database that the caller closes. *)
Definition CacheMultiStoreWithVersion (dir : Root) (l : L) (rs : RootStore) (version : Z)
  : res (gmap StoreKey CacheWrapper * option (@DB L)) :=
  if (version =? 0) || bool_decide (ci_version <$> rs_lastCommitInfo rs = Some version) then Ok (CacheMultiStore rs, None)
  else if (version <? 0) || (MaxUint32 <? version) then Err "version out of range"
  else
    let* d := loadAtVersion dir l (rs_opts rs) version in
    let stores := WStore <$> filter (fun kv => GetStoreType kv.2 <> StoreTypeIAVL) (rs_stores rs) in
    Ok (add_historical (rs_keysByName rs) (trees (db_tree d)) stores, Some d).

(** ** Queries *)

Context (marshalPairs : list (slice * slice) -> res bytes) (PrefixEndBytes : bytes -> slice).
(** [rootmulti.RequireProof] of the SDK. *)
Context (RequireProof : bytes -> bool).

(** The part of [Query] once the database is chosen. *)
Definition query_db (order : list StoreKey) (zeroCopy : bool) (rs : RootStore) (d : @DB L) (req : RequestQuery) : res ResponseQuery :=
  let* (storeName, subpath) := parsePath (rq_Path req) in
  match TreeByName (db_tree d) storeName with
  | None =>
      match rs_keysByName rs !! storeName with
      | None => Err "no such store"
      | Some _ => Err "store not present in historical snapshot at this version"
      end
  | Some tree =>
      let req := mkRequest (rq_Data req) subpath (rq_Height req) (rq_Prove req) in
      let* r := StoreQuery sha256 marshalPairs PrefixEndBytes zeroCopy tree req in
      if negb (rq_Prove req) || negb (RequireProof subpath) then Ok r
      else
        match rp_ProofOps r with
        | None | Some [] => Err "proof is unexpectedly empty; ensure height has not been pruned"
        | Some ops =>
            let commitInfo := with_amend order rs (convertCommitInfo (lastCommitInfo (db_tree d))) in
            Ok (mkResponse (rp_Height r) (rp_Key r) (rp_Value r) (Some (ops ++ [CommitInfoOp commitInfo storeName])))
        end
  end.

Definition Query (order : list StoreKey) (zeroCopy : bool) (dir : Root) (l : L) (rs : RootStore) (req : RequestQuery)
  : res ResponseQuery * RootStore :=
  match rs_db rs with
  | None => (Panic nilDB, rs)
  | Some d =>
      let version := if rq_Height req =? 0 then MTVersion (db_tree d) else rq_Height req in
      if (version <? 0) || (MaxUint32 <? version) then (Err "version out of range", rs)
      else if bool_decide (ci_version <$> rs_lastCommitInfo rs = Some version) then (query_db order zeroCopy rs d req, rs)
      else
        match borrow (rs_hist rs) version (loadAtVersion dir l (rs_opts rs) version) with
        | (Err e, m) => (Err e, set_hist rs m)
        | (Panic e, m) => (Panic e, set_hist rs m)
        | (Ok p, m) =>
            let r := match (let? e := m_entries m !! p in m_dbs m !! e_db e) with
                     | None => Panic nilDB
                     | Some d => query_db order zeroCopy rs d req
                     end in
            match release m p with
            | Ok m => (r, set_hist rs m)
            | Err e | Panic e => (Panic e, set_hist rs m)
            end
        end
  end.
End Root.
