(* ===== verification/RootSpec.v ===== *)
(** The theorems on the root multi-store of [RootMulti.v]. *)
From stdpp Require Import prelude strings gmap fin_maps sorting.
From Stdlib Require Import ZArith Lia.
From S2P Require Import Prelude OrdMap Codec Node Hash Wal Tree TreeSpec Iterator Proofs MultiTree Pending Db DbDir.
From S2P Require Import VersionDb HistCache MemStore RootMulti.
Local Open Scope Z_scope.

(** ** Sorting by name *)

Section Sort.
Context {A : Type} (nm : A -> name).

Lemma insert_sorted_comm a b l : nm a <> nm b -> insert_sorted nm a (insert_sorted nm b l) = insert_sorted nm b (insert_sorted nm a l).
Proof.
  assert (forall a b l, nm a ≺ nm b -> insert_sorted nm a (insert_sorted nm b l) = insert_sorted nm b (insert_sorted nm a l)) as Hlt.
  { clear. intros a b l H. assert (bytes_ltb (nm a) (nm b) = true) as Hab by by apply bytes_ltb_lt.
    assert (bytes_ltb (nm b) (nm a) = false) as Hba.
    { apply bytes_ltb_nlt. intros H'. apply (bytes_lt_irrefl (nm a)). by transitivity (nm b). }
    induction l as [|x l IH]; simpl; [by rewrite Hab, Hba|].
    destruct (bytes_ltb (nm x) (nm b)) eqn:Exb, (bytes_ltb (nm x) (nm a)) eqn:Exa; simpl; rewrite ?Exb, ?Exa, ?Hab, ?Hba; simpl; rewrite ?Exb, ?Exa.
    - by rewrite IH.
    - done.
    - apply bytes_ltb_lt in Exa. apply bytes_ltb_nlt in Exb. destruct Exb. by transitivity (nm a).
    - done. }
  intros Hn. destruct (bytes_lt_total (nm a) (nm b)) as [?|[?|?]]; [by apply Hlt|done|symmetry; by apply Hlt].
Qed.

(** The order in which distinct names arrive does not matter. *)
Lemma insert_all_perm l l' k : l ≡ₚ l' -> NoDup (nm <$> l) -> foldr (insert_sorted nm) k l = foldr (insert_sorted nm) k l'.
Proof.
  induction 1 as [|x l l' H IH|x y l|l1 l2 l3 H1 IH1 H2 IH2]; intros N; simpl; [done|..].
  - apply NoDup_cons in N as [_ N]. by rewrite IH.
  - apply NoDup_cons in N as [Hx N]. apply insert_sorted_comm. intros E. apply Hx. rewrite E. by left.
  - rewrite IH1, IH2; [done| |done]. by rewrite <- H1.
Qed.

Lemma sort_named_perm l l' : l ≡ₚ l' -> NoDup (nm <$> l) -> sort_named nm l = sort_named nm l'.
Proof. apply insert_all_perm. Qed.

Lemma insert_sorted_Permutation x l : insert_sorted nm x l ≡ₚ x :: l.
Proof.
  induction l as [|y l IH]; simpl; [done|]. destruct (bytes_ltb _ _); [|done]. rewrite IH. apply Permutation_swap.
Qed.

Lemma sort_named_Permutation l : sort_named nm l ≡ₚ l.
Proof. induction l as [|x l IH]; simpl; [done|]. by rewrite insert_sorted_Permutation, IH. Qed.

Lemma sort_named_app a b : sort_named nm (a ++ b) = foldr (insert_sorted nm) (sort_named nm b) a.
Proof. apply foldr_app. Qed.
End Sort.

(** Sorting looks at the names only. *)
Lemma insert_sorted_map {A B} (nmA : A -> name) (nmB : B -> name) (f : A -> B) x l :
  (forall a, nmB (f a) = nmA a) -> f <$> insert_sorted nmA x l = insert_sorted nmB (f x) (f <$> l).
Proof.
  intros H. induction l as [|y l IH]; simpl; [done|]. rewrite !H. destruct (bytes_ltb _ _); [|done].
  by rewrite fmap_cons, IH.
Qed.

Lemma sort_named_map {A B} (nmA : A -> name) (nmB : B -> name) (f : A -> B) l :
  (forall a, nmB (f a) = nmA a) -> f <$> sort_named nmA l = sort_named nmB (f <$> l).
Proof. intros H. induction l as [|x l IH]; [done|]. simpl. by rewrite (insert_sorted_map _ nmB), IH. Qed.

(** ** Maps of stores *)

Section Maps.
Context {T : Type}.

Abbreviation CStore := (@CommitStore T).

(** The keys of a map, in any order. *)
Definition visits {A} (order : list StoreKey) (m : gmap StoreKey A) : Prop := order ≡ₚ (map_to_list m).*1.

Definition distinct_names {A} (m : gmap StoreKey A) : Prop :=
  forall k k', k ∈ dom m -> k' ∈ dom m -> sk_name k = sk_name k' -> k = k'.

Definition cleared (s : CStore) : CStore :=
  match s with MemiavlStore s => MemiavlStore (mkStore (st_tree s) []) | OtherStore _ _ => s end.

(** The change sets waiting in a store. *)
Definition waiting (stores : gmap StoreKey CStore) (key : StoreKey) : ChangeSet :=
  match stores !! key with Some (MemiavlStore s) => st_changeSet s | _ => [] end.

Definition set_of (stores : gmap StoreKey CStore) (key : StoreKey) : option NamedChangeSet :=
  match waiting stores key with [] => None | cs => Some (mkNamedCS (sk_name key) cs) end.

(** The entry of the block, whatever the order of the loop. *)
Definition block_sets (stores : gmap StoreKey CStore) : list NamedChangeSet :=
  sort_named ncs_name (omap (set_of stores) (map_to_list stores).*1).

Lemma pop_spec order : forall stores, NoDup order ->
  (pop_change_sets order stores).1 = omap (set_of stores) order /\
  forall key, (pop_change_sets order stores).2 !! key =
    (if decide (key ∈ order) then cleared <$> stores !! key else stores !! key).
Proof.
  induction order as [|k order IH]; intros stores N; [done|]. apply NoDup_cons in N as [Hk N]. cbn [pop_change_sets].
  assert (forall stores', (forall key, key <> k -> stores' !! key = stores !! key) ->
     omap (set_of stores') order = omap (set_of stores) order) as Hext.
  { intros stores' H. clear IH. induction order as [|k' order IH']; [done|]. apply not_elem_of_cons in Hk as [Hk Hk'].
    apply NoDup_cons in N as [_ N]. cbn [omap list_omap]. rewrite IH' by done.
    assert (set_of stores' k' = set_of stores k') as -> by (unfold set_of, waiting; by rewrite H). done. }
  destruct (stores !! k) as [[s|typ x]|] eqn:E.
  2-3: destruct (IH stores N) as [E1 E2]; split;
    [cbn [omap list_omap]; unfold set_of at 1, waiting at 1; by rewrite E
    |intros key; rewrite E2; destruct (decide (key = k)) as [->|Hne];
      [rewrite decide_False, decide_True by (done || by left); by rewrite E | by rewrite (decide_ext (key ∈ k :: order) (key ∈ order)) by set_solver]].
  cbn [PopChangeSet]. destruct (IH (<[k := MemiavlStore (mkStore (st_tree s) [])]> stores) N) as [E1 E2].
  destruct (pop_change_sets order _) as [css st]. cbn [fst snd] in *. split.
  - cbn [omap list_omap]. unfold set_of at 1, waiting at 1. rewrite E, E1, Hext by (intros; by rewrite lookup_insert_ne).
    by destruct (st_changeSet s).
  - intros key. rewrite E2. destruct (decide (key = k)) as [->|Hne].
    + rewrite lookup_insert_eq, !decide_False by done. rewrite decide_True by by left. by rewrite E.
    + rewrite lookup_insert_ne by done. by rewrite (decide_ext (key ∈ k :: order) (key ∈ order)) by set_solver.
Qed.

Lemma elem_of_keys {A} (m : gmap StoreKey A) k : k ∈ (map_to_list m).*1 <-> k ∈ dom m.
Proof.
  rewrite elem_of_dom, list_elem_of_fmap. split.
  - intros ([k' x] & -> & H). apply elem_of_map_to_list in H. by exists x.
  - intros [x H]. exists (k, x). split; [done|]. by apply elem_of_map_to_list.
Qed.

Lemma visits_elem {A} order (m : gmap StoreKey A) k : visits order m -> k ∈ order <-> k ∈ dom m.
Proof. intros H. unfold visits in H. rewrite H. apply elem_of_keys. Qed.

Lemma visits_nodup {A} order (m : gmap StoreKey A) : visits order m -> NoDup order.
Proof. intros H. unfold visits in H. rewrite H. apply NoDup_fst_map_to_list. Qed.

Lemma visits_dom {A B} order (m : gmap StoreKey A) (m' : gmap StoreKey B) : dom m = dom m' -> visits order m -> visits order m'.
Proof.
  intros E H. unfold visits in *. rewrite H. apply NoDup_Permutation; [apply NoDup_fst_map_to_list..|].
  intros k. by rewrite !elem_of_keys, E.
Qed.

(** Only keys with distinct names are in the map. *)
Lemma omap_names {A} (f : StoreKey -> option A) (nm : A -> name) (m : gmap StoreKey CStore) order :
  (forall k x, f k = Some x -> nm x = sk_name k) -> distinct_names m -> NoDup order -> (forall k, k ∈ order -> k ∈ dom m) ->
  NoDup (nm <$> omap f order).
Proof.
  intros Hf Hd. induction order as [|k order IH]; intros N Hm; [constructor|]. apply NoDup_cons in N as [Hk N].
  cbn [omap list_omap]. destruct (f k) as [x|] eqn:E; [|apply IH; set_solver]. rewrite fmap_cons. constructor; [|apply IH; set_solver].
  intros (y & Ey & Hy)%list_elem_of_fmap. apply list_elem_of_omap in Hy as (k' & Hk' & E').
  apply Hk. rewrite (Hd k k'); [done|set_solver..|]. by rewrite <- (Hf k x E), <- (Hf k' y E').
Qed.

Lemma set_of_name stores k c : set_of stores k = Some c -> ncs_name c = sk_name k.
Proof. unfold set_of. destruct (waiting stores k); [done|]. by intros [= <-]. Qed.

Lemma pop_sorted order (stores : gmap StoreKey CStore) :
  visits order stores -> distinct_names stores ->
  exists css, pop_change_sets order stores = (css, cleared <$> stores) /\ sort_named ncs_name css = block_sets stores.
Proof.
  intros Hv Hd. pose proof (visits_nodup _ _ Hv) as N. destruct (pop_spec order stores N) as [E1 E2].
  destruct (pop_change_sets order stores) as [css st]. cbn [fst snd] in *. exists css. split.
  - f_equal. apply map_eq. intros k. rewrite E2, lookup_fmap. destruct (decide (k ∈ order)) as [Hk|Hk]; [done|].
    rewrite (visits_elem _ _ _ Hv) in Hk. by rewrite (not_elem_of_dom_1 _ _ Hk).
  - subst css. apply sort_named_perm; [unfold visits in Hv; by rewrite Hv|].
    apply (omap_names _ _ stores); [apply set_of_name|done|done|]. intros k. by rewrite (visits_elem _ _ _ Hv).
Qed.

(** The sum of the changes of a name is what waits in its store. *)
Lemma flat_block (stores : gmap StoreKey CStore) key :
  distinct_names stores -> key ∈ dom stores -> flat (block_sets stores) (sk_name key) = waiting stores key.
Proof.
  intros Hd Hk. unfold block_sets.
  assert (NoDup (ncs_name <$> omap (set_of stores) (map_to_list stores).*1)) as N.
  { apply (omap_names _ _ stores); [apply set_of_name|done|apply NoDup_fst_map_to_list|]. intros k. by rewrite elem_of_keys. }
  pose proof (sort_named_Permutation ncs_name (omap (set_of stores) (map_to_list stores).*1)) as Hp.
  set (l := sort_named _ _) in *. rewrite <- Hp in N.
  assert (forall c, c ∈ l -> ncs_name c = sk_name key -> ncs_changeset c = waiting stores key) as Hin.
  { intros c Hc En. rewrite Hp in Hc. apply list_elem_of_omap in Hc as (k & Hk' & E).
    pose proof (set_of_name _ _ _ E) as En'. rewrite elem_of_keys in Hk'.
    assert (k = key) as -> by (apply Hd; congruence). unfold set_of in E. destruct (waiting stores key); [done|]. by injection E as <-. }
  destruct (decide (sk_name key ∈ ncs_name <$> l)) as [Hy|Hn].
  - apply list_elem_of_fmap in Hy as (c & Ec & Hc). rewrite <- (Hin c Hc) by done. rewrite Ec. clear -N Hc.
    induction l as [|x l IH]; [by apply elem_of_nil in Hc|]. rewrite flat_cons. rewrite fmap_cons in N. apply NoDup_cons in N as [Hx N].
    apply elem_of_cons in Hc as [<-|Hc].
    + rewrite decide_True by done. rewrite flat_absent; [by rewrite app_nil_r|]. done.
    + rewrite decide_False; [by apply IH|]. intros E. apply Hx. rewrite E. by apply list_elem_of_fmap_2.
  - rewrite flat_absent by done. destruct (waiting stores key) as [|p cs] eqn:E; [done|]. exfalso. apply Hn.
    apply list_elem_of_fmap. exists (mkNamedCS (sk_name key) (p :: cs)). split; [done|]. rewrite Hp. apply list_elem_of_omap.
    exists key. rewrite elem_of_keys. split; [done|]. unfold set_of. by rewrite E.
Qed.
End Maps.

(** ** The names of the trees *)

Lemma check_trees_spec ts : forall expected, NoDup (names ts) ->
  check_trees expected ts = (expected ∖ list_to_set (names ts), filter (fun n => n ∉ expected) (names ts)).
Proof.
  induction ts as [|t ts IH]; intros expected N; cbn [check_trees names fmap list_fmap].
  - f_equal. set_solver.
  - apply NoDup_cons in N as [Ht N]. rewrite filter_cons. destruct (decide (nt_name t ∈ expected)) as [Hin|Hout].
    + rewrite decide_False by (intros H; by apply H). rewrite IH by done. f_equal; [set_solver|].
      apply list_filter_iff'. intros n Hn. split; [|set_solver]. intros H1 H2. apply H1. apply elem_of_difference. split; [done|].
      intros ->%elem_of_singleton. done.
    + rewrite decide_True by done. rewrite IH by done. f_equal. set_solver.
Qed.

(** The check accepts exactly the trees that are expected. *)
Lemma validate_spec t expected : NoDup (names (trees t)) ->
  validateMemiAVLTreeMembership t expected = None <-> forall n, n ∈ names (trees t) <-> n ∈ expected.
Proof.
  intros N. unfold validateMemiAVLTreeMembership. rewrite check_trees_spec by done.
  set (missing := list_to_set expected ∖ list_to_set (names (trees t)) : gset name).
  pose proof (sort_named_Permutation id (elements missing)) as Hp. split.
  - intros H. destruct (sort_named id (elements missing)) as [|a l]; [|done].
    destruct (filter _ (names (trees t))) as [|b k] eqn:Ef; [|done]. apply Permutation_nil_l in Hp.
    assert (missing ≡ ∅) as Hm by by apply elements_empty_inv.
    intros n. split; intros Hn.
    + destruct (decide (n ∈ expected)) as [?|Hx]; [done|]. exfalso.
      assert (n ∈ filter (fun n => n ∉ (list_to_set expected : gset name)) (names (trees t))) as Hin by (apply list_elem_of_filter; set_solver).
      rewrite Ef in Hin. by apply elem_of_nil in Hin.
    + destruct (decide (n ∈ names (trees t))) as [?|Hx]; [done|]. exfalso. assert (n ∈ missing) by (unfold missing; set_solver). set_solver.
  - intros H. assert (elements missing = []) as -> by (apply elements_empty_iff; unfold missing; set_solver).
    assert (filter (fun n => n ∉ (list_to_set expected : gset name)) (names (trees t)) = []) as ->; [|done].
    apply filter_none. intros n Hn. set_solver.
Qed.

(** ** Stores from their parameters *)

Section Load.
Context {T : Type} (newTransient newMem : T).

(** The type of every mounted store can be loaded. *)
Definition loadable (key : StoreKey) (p : storeParams) : Prop :=
  match sp_typ p with
  | StoreTypeIAVL => True
  | StoreTypeTransient => sk_kind key = TransientStoreKey
  | StoreTypeMemory => sk_kind key = MemoryStoreKey
  | _ => False
  end.

Definition fresh_store (gen : nat) (key : StoreKey) (p : storeParams) : @CommitStore T :=
  match sp_typ p with
  | StoreTypeIAVL => MemiavlStore (New (gen, sk_name key))
  | StoreTypeTransient => OtherStore StoreTypeTransient newTransient
  | _ => OtherStore StoreTypeMemory newMem
  end.

Lemma load_stores_spec gen t params keys : forall stores,
  (forall key, key ∈ keys -> exists p, params !! key = Some p /\ loadable key p /\
     (sp_typ p = StoreTypeIAVL -> is_Some (TreeByName t (sk_name key)))) ->
  exists stores', load_stores newTransient newMem gen t params keys stores = Ok stores' /\
    forall key, stores' !! key = if decide (key ∈ keys) then fresh_store gen key <$> params !! key else stores !! key.
Proof.
  induction keys as [|k keys IH]; intros stores H; [by exists stores|]. cbn [load_stores].
  destruct (H k) as (p & Ep & Hl & Ht); [by left|]. rewrite Ep. cbn [of_option res_bind].
  assert (loadCommitStoreFromParams newTransient newMem gen t k p = Ok (fresh_store gen k p)) as ->.
  { unfold loadCommitStoreFromParams, fresh_store, loadable in *. destruct (sp_typ p); try done; [destruct (Ht eq_refl) as [? ->]; done|by rewrite decide_True..]. }
  cbn [res_bind]. destruct (IH (<[k := fresh_store gen k p]> stores)) as (st & E & Hst).
  { intros key Hk. apply H. by right. }
  exists st. split; [done|]. intros key. rewrite Hst. destruct (decide (key = k)) as [->|Hne].
  - rewrite lookup_insert_eq, (decide_True (P := k ∈ k :: keys)) by by left. rewrite Ep. by case_decide.
  - rewrite lookup_insert_ne by done. by rewrite (decide_ext (key ∈ k :: keys) (key ∈ keys)) by set_solver.
Qed.

Lemma sorted_keys_elem (params : gmap StoreKey storeParams) key : key ∈ sorted_keys params <-> key ∈ dom params.
Proof. unfold sorted_keys. rewrite sort_named_Permutation. apply elem_of_keys. Qed.

Lemma iavl_names_elem (params : gmap StoreKey storeParams) n :
  n ∈ iavl_names params (sorted_keys params) <-> exists key p, params !! key = Some p /\ sp_typ p = StoreTypeIAVL /\ sk_name key = n.
Proof.
  unfold iavl_names. rewrite list_elem_of_omap. split.
  - intros (key & _ & E). destruct (params !! key) as [p|] eqn:Ep; [|done]. cbn in E. case_decide; [|done]. injection E as <-. by exists key, p.
  - intros (key & p & Ep & Et & <-). exists key. rewrite sorted_keys_elem. split; [by eapply elem_of_dom_2|]. rewrite Ep. cbn. by rewrite decide_True.
Qed.
End Load.

Section Spec.
Context {L : Type} `{!Log L, !LogLaws L} (sha256 : bytes -> bytes).
Context (marshal : WALEntry -> res bytes) (unmarshal : bytes -> res WALEntry).
Context {T : Type} (otherCommit : T -> T) (infoHash : CommitInfo -> bytes).

Abbreviation CStore := (@CommitStore T).
Abbreviation RStore := (@RootStore L T).

(** ** A block *)

Lemma apply_trees_Ok css : forall t t', ApplyChangeSets t css = Ok t' -> apply_trees t css = (None, t').
Proof.
  induction css as [|c css IH]; intros t t'; simpl; [by intros [= <-]|].
  destruct (MTApplyChangeSet t (ncs_name c) (ncs_changeset c)); simpl; [apply IH|done..].
Qed.

Lemma dbApply_block w css :
  mt_wf (w_tree w) -> w_readOnly w = false -> p_sets (w_pending w) = [] -> p_upgrades (w_pending w) = [] ->
  Forall (fun c => ncs_name c ∈ names (trees (w_tree w))) css ->
  exists w', dbApplyChangeSets w css = (None, w') /\ w_tree w' = apply_flat (w_tree w) (flat css) /\
    pendingLog (w_pending w') = MultiTree.mkEntry css [] /\ w_readOnly w' = false.
Proof.
  intros W Hro Hs Hu Hn. destruct css as [|c css].
  - exists w. split_and!; [done| |unfold pendingLog; by rewrite Hs, Hu|done]. symmetry. by apply apply_flat_nil.
  - unfold dbApplyChangeSets. rewrite Hro, Hs. cbn [with_pending w_tree].
    rewrite (apply_trees_Ok _ _ _ (ApplyChangeSets_flat _ _ W Hn)).
    eexists. split_and!; [done|done| |done].
    destruct (setPending_ok (w_pending w) (c :: css)) as (_ & Hv & Hup); [done|].
    cbn [with_tree with_pending w_pending]. unfold view in Hv. rewrite <- Hv at 2. rewrite <- Hu, <- Hup. done.
Qed.

(** The state of the root store between blocks: the database has committed the
    entries [es], and the stores point to its trees. *)
Record root_ok (t0 : MultiTree) (es : list WALEntry) (rs : RStore) (d : @DB L) : Prop := {
  ro_db : rs_db rs = Some d;
  ro_log : log_inv marshal es d;
  ro_err : db_walErr d = None;
  ro_state : state_inv sha256 t0 es d;
  ro_dom : dom (rs_stores rs) = dom (rs_storesParams rs);
  ro_names : distinct_names (rs_stores rs);
  ro_ptr : forall key s, rs_stores rs !! key = Some (MemiavlStore s) ->
    st_tree s = (rs_gen rs, sk_name key) /\ sk_name key ∈ names (trees (db_tree d));
}.

Lemma tree_inv_wf t0 es (d : @DB L) : mt_wf t0 -> tree_inv sha256 t0 es d -> mt_wf (db_tree d).
Proof. intros W0 (t & mi & El & -> & _). pose proof (live_wf _ _ W0 _ _ El) as []. by split. Qed.

Lemma block_names (stores : gmap StoreKey CStore) (ns : list name) :
  (forall key s, stores !! key = Some (MemiavlStore s) -> sk_name key ∈ ns) ->
  Forall (fun c => ncs_name c ∈ ns) (block_sets stores).
Proof.
  intros H. unfold block_sets. rewrite sort_named_Permutation. apply Forall_forall. intros c Hc.
  apply list_elem_of_omap in Hc as (k & _ & E). rewrite (set_of_name _ _ _ E). unfold set_of, waiting in E.
  destruct (stores !! k) as [[s|]|] eqn:Ek; [by eapply H|done..].
Qed.

(** The store after its writes were flushed. *)
Definition flushed (rs : RStore) (d : @DB L) (w : Working) : RStore :=
  set_db (set_stores rs (cleared <$> rs_stores rs)) (Some (set_work d w)) (rs_gen rs).

Lemma flush_ok t0 es rs d order :
  mt_wf t0 -> root_ok t0 es rs d -> visits order (rs_stores rs) ->
  exists w, flush order rs = (None, flushed rs d w) /\
    w_tree w = apply_flat (db_tree d) (flat (block_sets (rs_stores rs))) /\
    pendingLog (w_pending w) = MultiTree.mkEntry (block_sets (rs_stores rs)) [] /\ w_readOnly w = false /\
    dbApplyChangeSets (db_work d) (block_sets (rs_stores rs)) = (None, w).
Proof.
  intros W0 R Hv. destruct (pop_sorted order (rs_stores rs) Hv (ro_names _ _ _ _ R)) as (css & Ep & Es).
  pose proof (ro_state _ _ _ _ R) as [Ht _ [Hs Hu] Hm].
  destruct (dbApply_block (db_work d) (block_sets (rs_stores rs))) as (w & Ew & Et & Epl & Ero); [by eapply tree_inv_wf|done..| |].
  { apply block_names. intros key s Hk. by apply (ro_ptr _ _ _ _ R key s). }
  exists w. split_and!; try done. unfold flush. rewrite Ep, Es. cbn [set_stores rs_db]. rewrite (ro_db _ _ _ _ R), Ew. done.
Qed.

Lemma cleared_twice (m : gmap StoreKey CStore) : cleared <$> (cleared <$> m) = cleared <$> m.
Proof. rewrite <- map_fmap_compose. apply map_fmap_ext. by intros k [s|]. Qed.

Lemma block_sets_cleared (m : gmap StoreKey CStore) : block_sets (cleared <$> m) = [].
Proof.
  unfold block_sets. generalize ((map_to_list (cleared <$> m)).*1). intros l.
  assert (omap (set_of (cleared <$> m)) l = []) as ->; [|done]. induction l as [|k l IH]; [done|]. cbn [omap list_omap].
  assert (set_of (cleared <$> m) k = None) as ->; [|done].
  unfold set_of, waiting. rewrite lookup_fmap. by destruct (m !! k) as [[|]|].
Qed.

(** Flushing again changes nothing. *)
Lemma flush_again rs d w order :
  distinct_names (rs_stores rs) -> visits order (rs_stores rs) -> flush order (flushed rs d w) = (None, flushed rs d w).
Proof.
  intros Hd Hv. assert (dom (cleared <$> rs_stores rs) = dom (rs_stores rs)) as Edom by apply dom_fmap_L.
  destruct (pop_sorted order (cleared <$> rs_stores rs)) as (css & Ep & Es).
  { by eapply visits_dom. } { intros k k'. rewrite Edom. apply Hd. }
  unfold flush, flushed. cbn [set_db set_stores rs_stores rs_db rs_gen]. rewrite Ep, Es, block_sets_cleared, cleared_twice. done.
Qed.

Lemma amend_order o o' c (params : gmap StoreKey storeParams) (stores : gmap StoreKey CStore) :
  dom stores = dom params -> distinct_names stores -> visits o params -> visits o' params ->
  amendCommitInfo o c params = amendCommitInfo o' c params.
Proof.
  intros Ed Hd Hv Hv'. unfold amendCommitInfo, mergeStoreInfos. f_equal. rewrite !sort_named_app. f_equal.
  apply sort_named_perm.
  - unfold visits in *. by rewrite Hv, Hv'.
  - apply (omap_names _ _ stores); [|done|by eapply visits_nodup|].
    + intros k x. destruct (params !! k); [|done]. cbn [mbind option_bind]. destruct (_ && _); [|done]. by intros [= <-].
    + intros k. by rewrite (visits_elem _ _ _ Hv), Ed.
Qed.

Lemma with_amend_order o o' c (rs : RStore) :
  dom (rs_stores rs) = dom (rs_storesParams rs) -> distinct_names (rs_stores rs) ->
  visits o (rs_stores rs) -> visits o' (rs_stores rs) -> with_amend o rs c = with_amend o' rs c.
Proof.
  intros Ed Hd Hv Hv'. unfold with_amend. destruct (rs_sdk46Compact rs); [|done].
  apply (amend_order _ _ _ _ (rs_stores rs)); [done|done|by eapply visits_dom..].
Qed.

(** The names and hashes of a commit info, which its hash is made of. *)
Definition store_hashes (c : CommitInfo) : list (name * bytes) :=
  (fun s => (si_name s, cid_hash (si_commit s))) <$> ci_stores c.
Definition hash_law : Prop := forall c c', store_hashes c = store_hashes c' -> infoHash c = infoHash c'.

Lemma store_hashes_convert c : store_hashes (convertCommitInfo c) = store_hashes c.
Proof. unfold store_hashes. simpl. by rewrite <- list_fmap_compose. Qed.

Lemma store_hashes_amend o c c' params :
  store_hashes c = store_hashes c' -> store_hashes (amendCommitInfo o c params) = store_hashes (amendCommitInfo o c' params).
Proof.
  intros E. unfold store_hashes, amendCommitInfo, mergeStoreInfos in *. cbn [ci_stores] in *.
  rewrite !(sort_named_map si_name fst) by done. by rewrite !fmap_app, E.
Qed.

Lemma store_hashes_with o (rs : RStore) c c' : store_hashes c = store_hashes c' -> store_hashes (with_amend o rs c) = store_hashes (with_amend o rs c').
Proof. intros E. unfold with_amend. destruct (rs_sdk46Compact rs); [by apply store_hashes_amend|done]. Qed.

(** What saving a version makes of the trees and the commit info. *)
Lemma save_spec t v t1 :
  MTSaveVersion sha256 t true = Ok (v, t1) ->
  trees t1 = (fun e => mkNamed (nt_name e) (vtSave (nt_tree e))) <$> trees t /\
  treesByName t1 = treesByName t /\ v = nextVersion (MTVersion t) (initialVersion t) /\ MTVersion t1 = v /\
  store_hashes (lastCommitInfo t1) = store_hashes (WorkingCommitInfo sha256 t).
Proof.
  unfold MTSaveVersion. destruct (existsb _ _); [done|]. intros [= <- <-]. split_and!; [done..|].
  unfold store_hashes. simpl. by rewrite <- !list_fmap_compose.
Qed.

Lemma TreeByName_elem t n x : mt_wf t -> TreeByName t n = Some x <-> mkNamed n x ∈ trees t.
Proof. intros W. rewrite TreeByName_forest by done. apply forest_lookup. apply strict_nodup, (wf_sorted _ W). Qed.

(** ** Commits *)

Section History.
Context (encodable : WALEntry -> Prop).
Hypothesis marshal_ok : forall e, encodable e -> exists b, marshal e = Ok b.
Hypothesis unmarshal_ok : forall e b, marshal e = Ok b -> unmarshal b = Ok (wire e).
Context (t0 : MultiTree).
Hypotheses (Hbase : base_version (MTVersion t0) (initialVersion t0)) (Hiv : 0 <= initialVersion t0 < 2 ^ 32) (W0 : mt_wf t0).

(** The entry that the log gets for the writes of a block. *)
Definition block_entry (rs : RStore) : WALEntry := MultiTree.mkEntry (block_sets (rs_stores rs)) [].

(** Two multi-trees that differ in the metadata of their snapshot only. *)
Definition same_state (t t' : MultiTree) : Prop := exists mi, t = with_meta mi t'.

Lemma block_replays (rs : RStore) (d : @DB L) w :
  mt_wf (db_tree d) -> Forall (fun c => ncs_name c ∈ names (trees (db_tree d))) (block_sets (rs_stores rs)) ->
  w_tree w = apply_flat (db_tree d) (flat (block_sets (rs_stores rs))) ->
  applyWALEntry (db_tree d) (block_entry rs) = Ok (w_tree w).
Proof.
  intros W Hn Ew. unfold applyWALEntry, block_entry. cbn [we_upgrades we_changesets ApplyUpgrades res_bind].
  rewrite Ew. by apply ApplyChangeSets_flat.
Qed.

Lemma Commit_saves es rs d w s v d' :
  len es + 1 < 2 ^ 62 -> root_ok t0 es rs d -> encodable (block_entry rs) ->
  w_tree w = apply_flat (db_tree d) (flat (block_sets (rs_stores rs))) ->
  pendingLog (w_pending w) = block_entry rs -> w_readOnly w = false ->
  Db.Commit sha256 marshal unmarshal s (set_work d w) = Some (Ok v, d') ->
  log_inv marshal (es ++ [block_entry rs]) d' /\ db_walErr d' = None /\ state_inv sha256 t0 (es ++ [block_entry rs]) d' /\
  exists v t1, MTSaveVersion sha256 (w_tree w) true = Ok (v, t1) /\ same_state (db_tree d') t1.
Proof.
  intros Hl R Henc Ew Ep Hro Ec. pose proof (ro_state _ _ _ _ R) as S. pose proof (tree_inv_wf _ _ _ W0 (si_tree _ _ _ _ S)) as W.
  assert (applyWALEntry (db_tree d) (block_entry rs) = Ok (w_tree w)) as Ea.
  { apply block_replays; [done| |done]. apply block_names. intros key st Hk. by apply (ro_ptr _ _ _ _ R key st). }
  destruct (Commit_inv sha256 marshal unmarshal encodable marshal_ok unmarshal_ok t0 Hbase Hiv s es d w (Ok v) d' (block_entry rs))
    as [[HL S'] He]; try done; [apply R|apply R|by left; exists v|].
  specialize (He v eq_refl). specialize (S' He). split_and!; [done..|].
  unfold Db.Commit in Ec. cbn [set_work db_work db_walErr] in Ec. rewrite Hro, (ro_err _ _ _ _ R) in Ec.
  change (db_tree (set_work d w)) with (w_tree w) in Ec.
  destruct (MTSaveVersion sha256 (w_tree w) true) as [[v1 t1]|x|x] eqn:Es; [|by injection Ec..].
  exists v1, t1. split; [done|]. clear Ec.
  destruct (save_block sha256 t0 Hbase Hiv es d w (block_entry rs) v1 t1 Hl (si_tree _ _ _ _ S) Ea Es) as (t' & mi & El & -> & _).
  destruct (si_tree _ _ _ _ S') as (t2 & mi2 & El2 & Et2 & _). unfold Db.live in El, El2. rewrite El in El2. apply Ok_inj in El2 as <-.
  exists mi2. by rewrite Et2.
Qed.

(** A commit in the asynchronous mode, without the result of a snapshot rewrite
    waiting, succeeds. *)
Definition quiet (d : @DB L) : Prop :=
  0 <= db_walChanSize d /\ (db_rewrite d = None \/ db_rewrite d = Some None) /\
  Forall (fun e => vtOverflow (nt_tree e) = false) (trees (db_tree d)).

Lemma Commit_succeeds es rs d w s :
  root_ok t0 es rs d -> quiet d -> w_tree w = apply_flat (db_tree d) (flat (block_sets (rs_stores rs))) -> w_readOnly w = false ->
  exists v d', Db.Commit sha256 marshal unmarshal s (set_work d w) = Some (Ok v, d').
Proof.
  intros R (Hc & Hr & Ho) Ew Hro. unfold Db.Commit. cbn [set_work db_work db_walErr]. rewrite Hro, (ro_err _ _ _ _ R).
  change (db_tree (set_work d w)) with (w_tree w).
  assert (existsb (fun e => vtOverflow (nt_tree e)) (trees (w_tree w)) = false) as Hex.
  { rewrite Ew. cbn [apply_flat with_trees trees]. induction Ho as [|e ts He _ IH]; [done|].
    rewrite fmap_cons. cbn [existsb nt_tree]. rewrite IH, orb_false_r. exact He. }
  unfold MTSaveVersion. rewrite Hex. cbv zeta. set (t1 := UpdateCommitInfo _ _).
  unfold logCommit. cbn [set_work db_walWriter db_wal db_walChanSize].
  destruct (ro_log _ _ _ _ R) as (l & El & Ewr & _ & H). rewrite (ro_err _ _ _ _ R) in H. destruct H as (Hq & _).
  rewrite Ewr, El, (proj2 (Z.leb_le 0 _) Hc).
  assert (forall d1 : @DB L, db_rewrite d1 = db_rewrite d -> db_walErr d1 = None ->
    exists v d', (let? (err, d2) := checkBackgroundSnapshotRewrite sha256 marshal unmarshal s d1 in
      match db_walErr d1, err with
      | None, None => Some (Ok (ci_version (lastCommitInfo t1)), rewriteIfApplicable (ci_version (lastCommitInfo t1)) d2)
      | Some e, _ | None, Some e => Some (Err e, d2)
      end) = Some (Ok v, d')) as Hgo.
  { intros d1 E1 E2. unfold checkBackgroundSnapshotRewrite. rewrite E1, E2. destruct Hr as [-> | ->]; by do 2 eexists. }
  set (d1 := match db_walChan (set_work (set_work d w) (with_tree w t1)) with None => _ | Some _ => _ end).
  assert (db_walQuit d1 = false /\ db_rewrite d1 = db_rewrite d /\ db_walErr d1 = None) as (Q1 & Q2 & Q3).
  { unfold d1. cbn [set_work db_walChan]. destruct (db_walChan d); split_and!; try done; apply (ro_err _ _ _ _ R). }
  rewrite Q1. exact (Hgo (set_work (set_chan d1 _ false) _) Q2 Q3).
Qed.

(** The stores after a commit. *)
Definition stores_after (gen : nat) (stores : gmap StoreKey CStore) : gmap StoreKey CStore :=
  set_trees gen (commit_others otherCommit (cleared <$> stores)).

Lemma stores_after_lookup gen stores key :
  stores_after gen stores !! key =
  match stores !! key with
  | None => None
  | Some (MemiavlStore _) => Some (MemiavlStore (mkStore (gen, sk_name key) []))
  | Some (OtherStore typ x) => Some (OtherStore typ (if decide (typ = StoreTypeIAVL) then x else otherCommit x))
  end.
Proof.
  unfold stores_after, set_trees, commit_others. rewrite map_lookup_imap, !lookup_fmap.
  destruct (stores !! key) as [[s|typ x]|]; [done| |done]. cbn. by case_decide.
Qed.

Lemma stores_after_dom gen stores : dom (stores_after gen stores) = dom stores.
Proof.
  apply set_eq. intros k. rewrite !elem_of_dom, stores_after_lookup. destruct (stores !! k) as [[|]|]; split; intros [y Hy]; try done; by eexists.
Qed.

(** The state after a commit that left the database [d']. *)
Definition committed (rs : RStore) (gen : nat) (d' : @DB L) (info : CommitInfo) : RStore :=
  set_info (set_stores (set_db rs (Some d') gen) (stores_after gen (rs_stores rs))) (Some info).

Definition gen_after (rs : RStore) (d : @DB L) : nat := if reloads d then S (rs_gen rs) else rs_gen rs.

Definition commit_info (o : list StoreKey) (rs : RStore) (d' : @DB L) : CommitInfo :=
  with_amend o rs (convertCommitInfo (lastCommitInfo (db_tree d'))).

(** Committing from a state that flushes to [flushed rs d w]. *)
Lemma RootCommit_eq x o s rs d w :
  flush o x = (None, flushed rs d w) ->
  RootCommit sha256 marshal unmarshal otherCommit infoHash o s x =
  let? (r, d') := Db.Commit sha256 marshal unmarshal s (set_work d w) in
  match r with
  | Err e | Panic e => Some (Panic e, set_db (set_stores (flushed rs d w) (commit_others otherCommit (cleared <$> rs_stores rs))) (Some d') (rs_gen rs))
  | Ok _ => Some (Ok (commitID infoHash (commit_info o rs d')), committed rs (gen_after rs d) d' (commit_info o rs d'))
  end.
Proof. intros E. unfold RootCommit. rewrite E. done. Qed.

Lemma committed_ok es rs d w s v d' info :
  len es + 1 < 2 ^ 62 -> root_ok t0 es rs d -> encodable (block_entry rs) ->
  w_tree w = apply_flat (db_tree d) (flat (block_sets (rs_stores rs))) ->
  pendingLog (w_pending w) = block_entry rs -> w_readOnly w = false ->
  Db.Commit sha256 marshal unmarshal s (set_work d w) = Some (Ok v, d') ->
  root_ok t0 (es ++ [block_entry rs]) (committed rs (gen_after rs d) d' info) d' /\
  MTVersion (db_tree d') = nextVersion (MTVersion (db_tree d)) (initialVersion (db_tree d)) /\
  store_hashes (lastCommitInfo (db_tree d')) = store_hashes (WorkingCommitInfo sha256 (w_tree w)) /\
  forall key st t, rs_stores rs !! key = Some (MemiavlStore st) -> TreeByName (db_tree d) (sk_name key) = Some t ->
    TreeByName (db_tree d') (sk_name key) = Some (vtSave (vtApply t (st_changeSet st))).
Proof.
  intros Hl R Henc Ew Ep Hro Ec.
  destruct (Commit_saves es rs d w s v d' Hl R Henc Ew Ep Hro Ec) as (HL & He & S & v1 & t1 & Es & mi & Et).
  destruct (save_spec _ _ _ Es) as (T1 & T2 & T3 & T4 & T5).
  pose proof (tree_inv_wf _ _ _ W0 (si_tree _ _ _ _ (ro_state _ _ _ _ R))) as W.
  pose proof (tree_inv_wf _ _ _ W0 (si_tree _ _ _ _ S)) as W'.
  assert (trees (db_tree d') = (fun e => mkNamed (nt_name e) (vtSave (vtApply (nt_tree e) (flat (block_sets (rs_stores rs)) (nt_name e))))) <$> trees (db_tree d)) as Etr.
  { rewrite Et. cbn [with_meta trees]. rewrite T1, Ew. cbn [apply_flat with_trees trees]. by rewrite <- list_fmap_compose. }
  split_and!.
  - constructor; try done.
    + cbn [committed set_info set_stores rs_stores rs_storesParams set_db]. rewrite stores_after_dom. apply R.
    + cbn [committed set_info set_stores rs_stores set_db]. intros k k'. rewrite stores_after_dom. apply R.
    + cbn [committed set_info set_stores rs_stores set_db rs_gen]. intros key st. rewrite stores_after_lookup.
      destruct (rs_stores rs !! key) as [[st0|]|] eqn:Ek; [|done..]. intros [= <-]. split; [done|].
      destruct (ro_ptr _ _ _ _ R key st0 Ek) as [_ Hn]. rewrite Etr. unfold names in *. by rewrite <- list_fmap_compose.
  - rewrite Et. cbn [with_meta]. change (MTVersion (with_meta mi t1)) with (MTVersion t1). rewrite T4, T3, Ew. done.
  - rewrite Et. exact T5.
  - intros key st t Ek Ht. apply TreeByName_elem in Ht; [|done]. apply TreeByName_elem; [done|]. rewrite Etr.
    apply list_elem_of_fmap. exists (mkNamed (sk_name key) t). split; [|done]. cbn [nt_name nt_tree].
    rewrite flat_block; [|apply R|by eapply elem_of_dom_2]. unfold waiting. by rewrite Ek.
Qed.

Lemma deref_current es (rs : RStore) d key st :
  root_ok t0 es rs d -> rs_stores rs !! key = Some (MemiavlStore st) -> deref rs (st_tree st) = TreeByName (db_tree d) (sk_name key).
Proof.
  intros R Ek. destruct (ro_ptr _ _ _ _ R key st Ek) as [Ep _]. unfold deref. rewrite (ro_db _ _ _ _ R), Ep. cbn. by rewrite decide_True.
Qed.

(** The application writes to a store between blocks. *)
Definition write_store (rs : RStore) (key : StoreKey) (st : Store treePtr) : RStore :=
  set_stores rs (<[key := MemiavlStore st]> (rs_stores rs)).

Lemma write_ok es (rs : RStore) d key st st' :
  root_ok t0 es rs d -> rs_stores rs !! key = Some (MemiavlStore st) -> st_tree st' = st_tree st ->
  root_ok t0 es (write_store rs key st') d.
Proof.
  intros R Ek Et. assert (dom (<[key := MemiavlStore st']> (rs_stores rs)) = dom (rs_stores rs)) as Ed.
  { rewrite dom_insert_L. apply subseteq_union_1_L, singleton_subseteq_l. by eapply elem_of_dom_2. }
  destruct R as [R1 R2 R3 R4 R5 R6 R7]. constructor; cbn [write_store set_stores rs_db rs_stores rs_storesParams rs_gen]; try done.
  - by rewrite Ed.
  - intros k k'. rewrite Ed. apply R6.
  - intros k s0. destruct (decide (k = key)) as [->|Hne].
    + rewrite lookup_insert_eq. intros [= <-]. rewrite Et. by apply R7.
    + rewrite lookup_insert_ne by done. apply R7.
Qed.

(** C19: the hash that the root store announces for a block is the hash it commits
    to: after [WorkingHash], [Commit] returns that hash with the next version; a
    [Commit] without [WorkingHash] before it gives the same result and the same
    state; the order in which the loops visit the maps of stores does not matter,
    neither does a switch to a rewritten snapshot inside the commit.  Afterwards
    every store has no writes waiting and shows its tree with the writes of the
    block applied in order, and the state is again one between blocks.  In the
    asynchronous mode, without the result of a rewrite, the commit succeeds. *)
Theorem working_hash_is_commit_hash (Hhash : hash_law) es rs d o1 o2 o3
  (R : root_ok t0 es rs d) (Hl : len es + 1 < 2 ^ 62) (Henc : encodable (block_entry rs))
  (V1 : visits o1 (rs_stores rs)) (V2 : visits o2 (rs_stores rs)) (V3 : visits o3 (rs_stores rs)) :
  exists h rs1, WorkingHash sha256 infoHash o1 rs = (Ok h, rs1) /\
    (forall s cid rs2, RootCommit sha256 marshal unmarshal otherCommit infoHash o2 s rs1 = Some (Ok cid, rs2) ->
       cid_hash cid = h /\ cid_version cid = nextVersion (MTVersion (db_tree d)) (initialVersion (db_tree d)) /\
       RootCommit sha256 marshal unmarshal otherCommit infoHash o3 s rs = Some (Ok cid, rs2) /\
       (exists d', root_ok t0 (es ++ [block_entry rs]) rs2 d') /\
       (forall key st t, rs_stores rs !! key = Some (MemiavlStore st) -> deref rs (st_tree st) = Some t ->
          exists st', rs_stores rs2 !! key = Some (MemiavlStore st') /\ st_changeSet st' = [] /\
            deref rs2 (st_tree st') = Some (vtSave (vtApply t (st_changeSet st))))) /\
    (quiet d -> forall s, exists cid rs2, RootCommit sha256 marshal unmarshal otherCommit infoHash o2 s rs1 = Some (Ok cid, rs2)).
Proof.
  destruct (flush_ok t0 es rs d o1 W0 R V1) as (w & F1 & Ew & Ep & Hro & Ea).
  destruct (flush_ok t0 es rs d o3 W0 R V3) as (w3 & F3 & _ & _ & _ & Ea3). rewrite Ea in Ea3. injection Ea3 as <-.
  pose proof (flush_again rs d w o2 (ro_names _ _ _ _ R) V2) as F2.
  eexists _, (flushed rs d w). split_and!.
  - unfold WorkingHash. rewrite F1. done.
  - intros s cid rs2. rewrite (RootCommit_eq _ _ _ _ _ _ F2), (RootCommit_eq _ _ _ _ _ _ F3).
    destruct (Db.Commit _ _ _ _ _) as [[[v|e|e] d']|] eqn:Ec; [|done..]. cbn [mbind option_bind]. intros [= <- <-].
    destruct (committed_ok es rs d w s v d' (commit_info o2 rs d') Hl R Henc Ew Ep Hro Ec) as (R' & Hv & Hh & Htr).
    split_and!.
    + apply Hhash. unfold commit_info. rewrite (with_amend_order o2 o1) by (done || apply R).
      change (with_amend o1 (flushed rs d w)) with (with_amend o1 rs). apply store_hashes_with. by rewrite !store_hashes_convert.
    + cbn [commitID cid_version]. unfold commit_info, with_amend, amendCommitInfo, mergeStoreInfos. by destruct (rs_sdk46Compact rs).
    + unfold commit_info. by rewrite (with_amend_order o3 o2) by (done || apply R).
    + by exists d'.
    + intros key st t Ek Ht. exists (mkStore (gen_after rs d, sk_name key) []). split_and!; [|done|].
      * cbn [committed set_info set_stores rs_stores set_db]. by rewrite stores_after_lookup, Ek.
      * rewrite (deref_current es rs d key st R Ek) in Ht. rewrite <- (Htr key st t Ek Ht).
        apply (deref_current _ _ _ key (mkStore (gen_after rs d, sk_name key) []) R').
        cbn [committed set_info set_stores rs_stores set_db]. by rewrite stores_after_lookup, Ek.
  - intros Hq s. rewrite (RootCommit_eq _ _ _ _ _ _ F2).
    destruct (Commit_succeeds es rs d w s R Hq Ew Hro) as (v & d' & ->). cbn [mbind option_bind]. by do 2 eexists.
Qed.

(** ** Loading *)

Context (newTransient newMem : T).

Lemma load_snapshot_meta r n mk tk : load_snapshot sha256 r n = Ok (with_meta mk tk) -> ci_version mk = MTVersion tk.
Proof.
  unfold load_snapshot. destruct (find_entry n (r_entries r)) as [e|]; [|done]. unfold LoadMultiTree.
  destruct (readMetadata (en_content e)) as [[c iv]| |]; [|done..]. cbn [res_bind].
  destruct (open_trees _) as [ts| |]; [|done..]. cbn [res_bind]. destruct (commitInfoEqual _ _); [done|].
  intros [= E1 E2 E3 E4 E5]. unfold MTVersion. congruence.
Qed.

(** The database that [Load] opens at the end of its log. *)
Lemma load_latest_state es bs dir (l : L) tn o :
  stored sha256 marshal t0 es bs dir l -> linked dir -> Db.live sha256 t0 es tn -> 0 < MTVersion tn ->
  o_ReadOnly o = false -> o_TargetVersion o = 0 ->
  exists (d : @DB L) mk, DbDir.Load sha256 unmarshal o dir l = Ok (d, cleaned false dir) /\ db_tree d = with_meta mk tn /\
    db_rewrite d = None /\ db_walChanSize d = o_AsyncCommitBuffer o /\ log_inv marshal es d /\ db_walErr d = None /\ state_inv sha256 t0 es d.
Proof.
  intros Hst Hlk El Hpos Hro Ht. destruct (stored_cleaned sha256 marshal t0 false es bs dir l Hst Hlk) as (Hst1 & (c & Ec & Hc) & _ & _).
  destruct (load_latest sha256 marshal unmarshal unmarshal_ok t0 Hbase Hiv es bs _ l c tn Hst1 Hc El) as (mk & tk & Hld & Hcu).
  assert (ci_version mk <= MTVersion tn) as Hmk.
  { rewrite (load_snapshot_meta _ _ _ _ Hld).
    destruct (load_saved sha256 marshal t0 es bs _ l c Hst1 Hc) as (k & tk' & mk' & Hld' & Hk & Ek & _).
    rewrite Hld in Hld'. apply Ok_inj in Hld' as E. assert (MTVersion tk = MTVersion tk') as -> by (change (MTVersion (with_meta mk tk) = MTVersion (with_meta mk' tk')); by rewrite E).
    pose proof (st_len _ _ _ _ _ _ _ Hst) as Hlen. destruct (live_version_at sha256 t0 Hbase Hiv es tn El Hlen) as [_ ->].
    destruct (live_version_at sha256 t0 Hbase Hiv _ tk' Ek) as [_ ->]; [unfold len in *; rewrite length_take; lia|].
    apply version_after_mono; [done..|]. unfold len. rewrite length_take. lia. }
  exists (opened_db o (with_meta mk tn) l), mk. split_and!; [|done|done|done| |done|].
  - replace (cleaned false dir) with (cleaned (o_ReadOnly o) dir) by by rewrite Hro.
    eapply Load_eq; [apply Hst|done| | |rewrite Hro; exact Hld| | |right; exact Hpos].
    + unfold Validate. by rewrite Hro.
    + rewrite Ht, Hro. cbn [Z.ltb Z.compare]. by rewrite Ec.
    + rewrite Ht. exact Hcu.
    + rewrite Ht. cbn [Z.ltb Z.compare]. by rewrite andb_false_r.
  - exists l. split_and!; [done|cbn; by rewrite Hro|done|]. cbn. split; [done|]. exists bs, (length es). apply Hst.
  - constructor; [by exists tn, mk| |done|exact Hro]. intros t. done.
Qed.

(** The names under which memiavl stores are mounted. *)
Definition mounted (rs : RStore) (n : name) : Prop :=
  exists key p, rs_storesParams rs !! key = Some p /\ sp_typ p = StoreTypeIAVL /\ sk_name key = n.

Lemma mounted_names rs n : n ∈ iavl_names (rs_storesParams rs) (sorted_keys (rs_storesParams rs)) <-> mounted rs n.
Proof. apply iavl_names_elem. Qed.

(** The root store on a database with the mounted trees. *)
Definition loaded_root (rs : RStore) (d : @DB L) (st : gmap StoreKey CStore) (info : CommitInfo) : RStore :=
  set_info (set_stores (set_db rs (Some d) (S (rs_gen rs))) st) (Some info).

Lemma loaded_stores es (rs : RStore) (d : @DB L) :
  log_inv marshal es d -> db_walErr d = None -> state_inv sha256 t0 es d -> distinct_names (rs_storesParams rs) ->
  (forall key p, rs_storesParams rs !! key = Some p -> loadable key p) ->
  (forall n, n ∈ names (trees (db_tree d)) <-> mounted rs n) ->
  exists st, load_stores newTransient newMem (S (rs_gen rs)) (db_tree d) (rs_storesParams rs) (sorted_keys (rs_storesParams rs)) ∅ = Ok st /\
    (forall info, root_ok t0 es (loaded_root rs d st info) d) /\
    (forall key, st !! key = fresh_store newTransient newMem (S (rs_gen rs)) key <$> rs_storesParams rs !! key).
Proof.
  intros HL He Si Hd Hload Hm. pose proof (tree_inv_wf _ _ _ W0 (si_tree _ _ _ _ Si)) as W.
  destruct (load_stores_spec newTransient newMem (S (rs_gen rs)) (db_tree d) (rs_storesParams rs) (sorted_keys (rs_storesParams rs)) ∅) as (st & Est & Hst').
  { intros key Hk. rewrite sorted_keys_elem in Hk. apply elem_of_dom in Hk as [p Ep]. exists p. split_and!; [done|by apply Hload|].
    intros Hty. assert (sk_name key ∈ names (trees (db_tree d))) as Hin by (apply Hm; by exists key, p).
    apply list_elem_of_fmap in Hin as ([n x] & E & Hx). exists x. apply TreeByName_elem; [done|]. simpl in E. by rewrite E. }
  assert (forall key, st !! key = fresh_store newTransient newMem (S (rs_gen rs)) key <$> rs_storesParams rs !! key) as Hlook.
  { intros key. rewrite Hst'. case_decide as Hk; [done|]. rewrite sorted_keys_elem in Hk.
    by rewrite (not_elem_of_dom_1 _ _ Hk), lookup_empty. }
  assert (forall key s0, st !! key = Some (MemiavlStore s0) -> s0 = New (S (rs_gen rs), sk_name key) /\ mounted rs (sk_name key)) as Hmem.
  { intros key s0. rewrite Hlook. destruct (rs_storesParams rs !! key) as [p|] eqn:Ep; [|done]. cbn [fmap option_fmap option_map].
    unfold fresh_store. destruct (sp_typ p) eqn:Ety; intros [= <-]. split; [done|]. by exists key, p. }
  assert (dom st = dom (rs_storesParams rs)) as Edom.
  { apply set_eq. intros k. rewrite !elem_of_dom, Hlook. by rewrite fmap_is_Some. }
  exists st. split_and!; [done| |].
  - intros info. constructor; try done.
    + cbn [loaded_root set_info set_stores rs_stores set_db]. intros k k'. rewrite Edom. apply Hd.
    + cbn [loaded_root set_info set_stores rs_stores set_db rs_gen]. intros key s0 Hk.
      destruct (Hmem key s0 Hk) as [-> Hmn]. split; [done|]. by apply Hm.
  - exact Hlook.
Qed.

(** What the latest version is when the names agree. *)
Definition at_latest (es : list WALEntry) (dir dir' : Root) (l : L) (tn : MultiTree) (rs : RStore) (order : list StoreKey) : Prop :=
  exists rs' d mk, LoadLatestVersion sha256 unmarshal newTransient newMem order dir l rs = Ok (rs', dir') /\
    root_ok t0 es rs' d /\ db_tree d = with_meta mk tn /\ db_rewrite d = None /\ db_walChanSize d = o_AsyncCommitBuffer (rs_opts rs) /\
    rs_lastCommitInfo rs' = Some (with_amend order rs (convertCommitInfo (lastCommitInfo tn))) /\
    (forall key, rs_stores rs' !! key = fresh_store newTransient newMem (S (rs_gen rs)) key <$> rs_storesParams rs !! key) /\
    (forall key st, rs_stores rs' !! key = Some (MemiavlStore st) -> deref rs' (st_tree st) = TreeByName tn (sk_name key)).

(** The options with which the latest version is loaded. *)
Definition latest_options (rs : RStore) : Options :=
  set_target (rs_opts rs) true (o_ReadOnly (rs_opts rs)) (iavl_names (rs_storesParams rs) (sorted_keys (rs_storesParams rs)))
    (u32 0) (o_LoadForOverwriting (rs_opts rs)).

(** The checks of the root store on the database that [Load] gives it. *)
Lemma load_checks es dir dir' l tn mk (rs : RStore) order (d : @DB L) :
  DbDir.Load sha256 unmarshal (latest_options rs) dir l = Ok (d, dir') -> db_tree d = with_meta mk tn -> db_rewrite d = None ->
  db_walChanSize d = o_AsyncCommitBuffer (rs_opts rs) -> log_inv marshal es d -> db_walErr d = None -> state_inv sha256 t0 es d ->
  0 < MTVersion tn -> distinct_names (rs_storesParams rs) ->
  (forall key p, rs_storesParams rs !! key = Some p -> loadable key p) ->
  ((forall n, n ∈ names (trees tn) <-> mounted rs n) -> at_latest es dir dir' l tn rs order) /\
  (~ (forall n, n ∈ names (trees tn) <-> mounted rs n) ->
     LoadLatestVersion sha256 unmarshal newTransient newMem order dir l rs = Err errMembership).
Proof.
  intros Eld Et Erw Ecs HL He Si Hpos Hd Hload.
  set (names0 := iavl_names (rs_storesParams rs) (sorted_keys (rs_storesParams rs))).
  pose proof (tree_inv_wf _ _ _ W0 (si_tree _ _ _ _ Si)) as W.
  pose proof (validate_spec (db_tree d) names0 (strict_nodup _ (wf_sorted _ W))) as Hval.
  assert (names (trees (db_tree d)) = names (trees tn)) as En by by rewrite Et.
  unfold at_latest, LoadLatestVersion, LoadVersionAndUpgrade.
  change (MaxUint32 <? 0) with false. cbv iota zeta. fold names0. unfold latest_options in Eld. fold names0 in Eld. rewrite Eld.
  cbn [res_bind tree_upgrades Z.eqb orb]. split; intros Hm.
  - assert (forall n, n ∈ names (trees (db_tree d)) <-> n ∈ names0) as Hm'.
    { intros n. rewrite En. unfold names0. by rewrite Hm, mounted_names. }
    rewrite (proj2 Hval Hm'). cbn [res_bind].
    destruct (loaded_stores es rs d HL He Si Hd Hload) as (st & Est & R & Hcs); [by rewrite En|].
    rewrite Est. cbn [res_bind]. eexists _, d, mk. split_and!; [done|apply R|done|done|done| |exact Hcs|].
    + cbn [set_info rs_lastCommitInfo]. rewrite Et. change (MTVersion (with_meta mk tn)) with (MTVersion tn).
      by rewrite (proj2 (Z.eqb_neq _ _)) by lia.
    + intros key s0 Hk. etransitivity; [exact (deref_current _ _ _ _ _ (R _) Hk)|]. by rewrite Et.
  - destruct (validateMemiAVLTreeMembership (db_tree d) names0) as [x|] eqn:Ev; [done|]. exfalso. apply Hm.
    intros n. rewrite <- mounted_names, <- En. by apply Hval.
Qed.

Lemma load_latest_checks es bs dir l tn (rs : RStore) order :
  stored sha256 marshal t0 es bs dir l -> linked dir -> Db.live sha256 t0 es tn -> 0 < MTVersion tn ->
  o_ReadOnly (rs_opts rs) = false -> distinct_names (rs_storesParams rs) ->
  (forall key p, rs_storesParams rs !! key = Some p -> loadable key p) ->
  ((forall n, n ∈ names (trees tn) <-> mounted rs n) -> at_latest es dir (cleaned false dir) l tn rs order) /\
  (~ (forall n, n ∈ names (trees tn) <-> mounted rs n) ->
     LoadLatestVersion sha256 unmarshal newTransient newMem order dir l rs = Err errMembership).
Proof.
  intros Hst Hlk El Hpos Hro Hd Hload.
  destruct (load_latest_state es bs dir l tn (latest_options rs) Hst Hlk El Hpos Hro eq_refl) as (d & mk & Eld & Et & Erw & Ecs & HL & He & Si).
  by eapply load_checks.
Qed.

(** C28: loading the latest version accepts exactly the databases whose trees are
    the mounted memiavl stores.  When the names agree, the root store stands at
    the last committed state, its stores point to the trees of the database, the
    commit info is the one of that state, and it is ready for the next block;
    when a mounted store has no tree or a tree no store, the membership error is
    reported. *)
Theorem load_accepts_mounted_stores es bs dir l tn (rs : RStore) order
  (Hst : stored sha256 marshal t0 es bs dir l) (Hlk : linked dir) (El : Db.live sha256 t0 es tn) (Hpos : 0 < MTVersion tn)
  (Hro : o_ReadOnly (rs_opts rs) = false) (Hd : distinct_names (rs_storesParams rs))
  (Hload : forall key p, rs_storesParams rs !! key = Some p -> loadable key p) :
  ((forall n, n ∈ names (trees tn) <-> mounted rs n) ->
     exists rs' d mk, LoadLatestVersion sha256 unmarshal newTransient newMem order dir l rs = Ok (rs', cleaned false dir) /\
       root_ok t0 es rs' d /\ db_tree d = with_meta mk tn /\ db_rewrite d = None /\ db_walChanSize d = o_AsyncCommitBuffer (rs_opts rs) /\
       rs_lastCommitInfo rs' = Some (with_amend order rs (convertCommitInfo (lastCommitInfo tn))) /\
       (forall key, rs_stores rs' !! key = fresh_store newTransient newMem (S (rs_gen rs)) key <$> rs_storesParams rs !! key) /\
       (forall key st, rs_stores rs' !! key = Some (MemiavlStore st) -> deref rs' (st_tree st) = TreeByName tn (sk_name key))) /\
  (~ (forall n, n ∈ names (trees tn) <-> mounted rs n) ->
     LoadLatestVersion sha256 unmarshal newTransient newMem order dir l rs = Err errMembership).
Proof. by apply (load_latest_checks es bs dir l tn rs order). Qed.
End History.
End Spec.

(** ** A root store on the sample database *)

Definition key_a : StoreKey := mkKey 1 name_a KVStoreKey.
Definition key_b : StoreKey := mkKey 2 name_b KVStoreKey.
Definition key_m : StoreKey := mkKey 3 (str "mem") MemoryStoreKey.

(** A hash of the names and hashes of the stores. *)
Definition sample_infoHash (c : CommitInfo) : bytes := digest32 (mjoin ((fun p => p.1 ++ p.2) <$> store_hashes c)).

Lemma sample_hash_law : hash_law sample_infoHash.
Proof. intros c c' E. unfold sample_infoHash. by rewrite E. Qed.

Definition mount (rs : @RootStore ListLog nat) (key : StoreKey) (typ : StoreType) : @RootStore ListLog nat :=
  match MountStoreWithDB rs (Some key) typ with Ok rs => rs | _ => rs end.

Definition sample_mounted : @RootStore ListLog nat :=
  mount (mount (mount (NewStore (sample_options 0 false false) true) key_a StoreTypeIAVL) key_b StoreTypeIAVL) key_m StoreTypeMemory.

Definition sample_loaded : @RootStore ListLog nat :=
  match LoadLatestVersion digest32 bit_unmarshal 0%nat 0%nat [key_a; key_b; key_m] sample_root sample_log sample_mounted with
  | Ok (rs, _) => rs
  | _ => sample_mounted
  end.

Lemma mount_fresh rs key typ : rs_storesParams rs !! key = None -> rs_keysByName rs !! sk_name key = None ->
  mount rs key typ = set_params rs (<[key := newStoreParams key typ]> (rs_storesParams rs)) (<[sk_name key := key]> (rs_keysByName rs)).
Proof. intros E1 E2. unfold mount, MountStoreWithDB. by rewrite E1, E2. Qed.

Lemma sample_params_eq : rs_storesParams sample_mounted =
  <[key_m := newStoreParams key_m StoreTypeMemory]> (<[key_b := newStoreParams key_b StoreTypeIAVL]>
    (<[key_a := newStoreParams key_a StoreTypeIAVL]> ∅)).
Proof.
  unfold sample_mounted. rewrite (mount_fresh (NewStore _ _)) by done. rewrite (mount_fresh _ key_b) by (vm_compute; reflexivity).
  rewrite (mount_fresh _ key_m) by (vm_compute; reflexivity). reflexivity.
Qed.

Lemma sample_params key p : rs_storesParams sample_mounted !! key = Some p ->
  (key = key_a /\ sp_typ p = StoreTypeIAVL) \/ (key = key_b /\ sp_typ p = StoreTypeIAVL) \/ (key = key_m /\ sp_typ p = StoreTypeMemory).
Proof.
  rewrite sample_params_eq, !lookup_insert_Some, lookup_empty.
  intros [[<- <-]|[_ [[<- <-]|[_ [[<- <-]|[_ ?]]]]]]; [right; by right|right; by left|by left|done].
Qed.

Lemma sample_distinct : distinct_names (rs_storesParams sample_mounted).
Proof.
  intros k k' Hk Hk' E. apply elem_of_dom in Hk as [p Hp], Hk' as [p' Hp'].
  apply sample_params in Hp as [[-> _]|[[-> _]|[-> _]]]; apply sample_params in Hp' as [[-> _]|[[-> _]|[-> _]]]; done || by vm_compute in E.
Qed.

Lemma sample_loadable key p : rs_storesParams sample_mounted !! key = Some p -> loadable key p.
Proof. unfold loadable. by intros [[-> ->]|[[-> ->]|[-> ->]]]%sample_params. Qed.

Lemma sample_names n : n ∈ names (trees (state_after sample_history)) <-> mounted sample_mounted n.
Proof.
  assert (names (trees (state_after sample_history)) = [name_a; name_b]) as -> by (vm_compute; reflexivity). split.
  - rewrite !elem_of_cons. intros [->|[->|Hn]]; [| |by apply elem_of_nil in Hn].
    + exists key_a, (newStoreParams key_a StoreTypeIAVL). by vm_compute.
    + exists key_b, (newStoreParams key_b StoreTypeIAVL). by vm_compute.
  - intros (key & p & Ep & Ety & <-). apply sample_params in Ep as [[-> _]|[[-> _]|[-> Et]]]; [by left|right; by left|congruence].
Qed.

Lemma load_accepts_mounted_stores_witness :
  exists rs' d mk, LoadLatestVersion digest32 bit_unmarshal 0%nat 0%nat [key_a; key_b; key_m] sample_root sample_log sample_mounted =
      Ok (rs', cleaned false sample_root) /\
    root_ok digest32 bit_marshal (NewEmptyMultiTree 5) sample_history rs' d /\ db_tree d = with_meta mk (state_after sample_history).
Proof.
  destruct (proj1 (load_accepts_mounted_stores digest32 bit_marshal bit_unmarshal bit_unmarshal_ok (NewEmptyMultiTree 5) sample_base
    ltac:(by vm_compute) sample_wf 0%nat 0%nat sample_history sample_bytes sample_root sample_log (state_after sample_history) sample_mounted
    [key_a; key_b; key_m] sample_stored sample_linked ltac:(vm_compute; reflexivity) ltac:(by vm_compute) ltac:(done) sample_distinct
    sample_loadable) sample_names) as (rs' & d & mk & H1 & H2 & H3 & _).
  exists rs', d, mk. split; [exact H1|]. split; [exact H2|exact H3].
Defined.

(** The root store right after loading, with two writes waiting. *)
Definition sample_writes : Store treePtr := Delete (Set_ (New (1%nat, name_a)) [z2b 7] (Some [z2b 70])) [z2b 2].

Lemma sample_visits (rs : @RootStore ListLog nat) :
  dom (rs_stores rs) = dom (rs_storesParams sample_mounted) -> visits [key_a; key_b; key_m] (rs_stores rs).
Proof.
  intros E. apply NoDup_Permutation; [|apply NoDup_fst_map_to_list|].
  - repeat constructor; set_solver.
  - intros k. rewrite elem_of_keys, E, sample_params_eq, !dom_insert_L, dom_empty_L. set_solver.
Qed.

Lemma sample_root_ok : exists (rs : @RootStore ListLog nat) d,
  root_ok digest32 bit_marshal (NewEmptyMultiTree 5) sample_history rs d /\ quiet d /\ visits [key_a; key_b; key_m] (rs_stores rs) /\
  rs_stores rs !! key_a = Some (MemiavlStore sample_writes) /\ deref rs (st_tree sample_writes) = TreeByName (state_after sample_history) name_a.
Proof.
  destruct (proj1 (load_latest_checks digest32 bit_marshal bit_unmarshal bit_unmarshal_ok (NewEmptyMultiTree 5) sample_base
    ltac:(by vm_compute) sample_wf 0%nat 0%nat sample_history sample_bytes sample_root sample_log (state_after sample_history) sample_mounted
    [key_a; key_b; key_m] sample_stored sample_linked ltac:(vm_compute; reflexivity) ltac:(by vm_compute) ltac:(done) sample_distinct
    sample_loadable) sample_names) as (rs & d & mk & H1 & H2 & H3 & H5 & H6 & _ & H4 & _).
  assert (rs_stores rs !! key_a = Some (MemiavlStore (New (1%nat, name_a)))) as Ea.
  { rewrite H4, sample_params_eq. vm_compute. reflexivity. }
  pose proof (write_ok _ _ _ _ _ _ _ _ sample_writes H2 Ea eq_refl) as R. exists (write_store rs key_a sample_writes), d.
  assert (rs_stores (write_store rs key_a sample_writes) !! key_a = Some (MemiavlStore sample_writes)) as Ew by apply lookup_insert_eq.
  split; [exact R|]. split; [|split; [|split; [exact Ew|]]].
  - split_and!; [by rewrite H6|by left|]. rewrite H3. assert (forall t, trees (with_meta mk t) = trees t) as Emeta by done. rewrite Emeta.
    assert (trees (state_after sample_history) = [mkNamed name_a (mkVTree 6 (Some (Leaf 5 [z2b 2] (Some [z2b 20]))));
      mkNamed name_b (mkVTree 6 (Some (Leaf 5 [z2b 3] (Some []))))]) as -> by (vm_compute; reflexivity). by repeat constructor.
  - apply sample_visits. assert (dom (rs_stores rs) = dom (rs_storesParams sample_mounted)) as <-.
    { apply set_eq. intros k. by rewrite !elem_of_dom, H4, fmap_is_Some. }
    cbn [write_store set_stores rs_stores]. rewrite dom_insert_L. apply subseteq_union_1_L, singleton_subseteq_l. by eapply elem_of_dom_2.
  - rewrite (deref_current _ _ _ _ _ _ _ _ R Ew), H3. reflexivity.
Qed.

Lemma working_hash_is_commit_hash_witness :
  exists (rs : @RootStore ListLog nat) h rs1 cid rs2 st',
    WorkingHash digest32 sample_infoHash [key_a; key_b; key_m] rs = (Ok h, rs1) /\
    RootCommit digest32 bit_marshal bit_unmarshal (fun x => x) sample_infoHash [key_a; key_b; key_m] (0, []) rs1 = Some (Ok cid, rs2) /\
    cid_hash cid = h /\ rs_stores rs2 !! key_a = Some (MemiavlStore st') /\
    deref rs2 (st_tree st') = Some (mkVTree 7 (Some (Leaf 7 [z2b 7] (Some [z2b 70])))).
Proof.
  destruct sample_root_ok as (rs & d & R & Hq & V & Ea & Hd).
  destruct (working_hash_is_commit_hash digest32 bit_marshal bit_unmarshal (fun x : nat => x) sample_infoHash (fun _ => True)
    (fun e _ => ex_intro _ _ eq_refl) bit_unmarshal_ok (NewEmptyMultiTree 5) sample_base ltac:(by vm_compute) sample_wf sample_hash_law
    sample_history rs d [key_a; key_b; key_m] [key_a; key_b; key_m] [key_a; key_b; key_m] R ltac:(by vm_compute) I V V V)
    as (h & rs1 & Ew & Hc & Hs).
  destruct (Hs Hq (0, [])) as (cid & rs2 & Ec). destruct (Hc _ _ _ Ec) as (Eh & _ & _ & _ & Htree).
  assert (TreeByName (state_after sample_history) name_a = Some (mkVTree 6 (Some (Leaf 5 [z2b 2] (Some [z2b 20]))))) as Et by (vm_compute; reflexivity).
  rewrite Et in Hd. destruct (Htree key_a sample_writes _ Ea Hd) as (st' & E1 & _ & E2).
  exists rs, h, rs1, cid, rs2, st'. split; [exact Ew|]. split; [exact Ec|]. split; [exact Eh|]. split; [exact E1|].
  rewrite E2. vm_compute. reflexivity.
Defined.
