(* ===== verification/RootQuery.v ===== *)
(** Queries of the root multi-store at the latest and at older heights: the
    theorem on [Query] of [RootMulti.v], which composes loading a version of the
    database, the cache of historical databases, the query of a store and the
    proofs of its tree. *)
From stdpp Require Import prelude strings gmap fin_maps sorting.
From Stdlib Require Import ZArith Lia.
From S2P Require Import Prelude OrdMap Codec Node Hash Wal Tree TreeSpec Proofs MultiTree Pending Db DbDir.
From S2P Require Import HistCache MemStore RootMulti RootSpec.
Local Open Scope Z_scope.

(** ** Paths *)

Lemma split_slash_app store rest : slash ∉ store -> split_slash (store ++ slash :: rest) = (store, Some rest).
Proof.
  induction store as [|c store IH]; intros H; cbn [app split_slash].
  - by rewrite decide_True.
  - apply not_elem_of_cons in H as [Hc H]. rewrite decide_False by congruence. by rewrite IH.
Qed.

Definition key_path (store : name) : bytes := slash :: store ++ str "/key".

Lemma parse_key_path store : slash ∉ store -> parsePath (key_path store) = Ok (store, str "/key").
Proof.
  intros H. unfold parsePath, key_path. rewrite decide_True by done.
  change (str "/key") with (slash :: str "key"). by rewrite split_slash_app.
Qed.

Section Query.
Context {L : Type} `{!Log L, !LogLaws L} (sha256 : bytes -> bytes).
Context (marshal : WALEntry -> res bytes) (unmarshal : bytes -> res WALEntry).
Hypothesis unmarshal_ok : forall e b, marshal e = Ok b -> unmarshal b = Ok (wire e).
Context {T : Type} (marshalPairs : list (slice * slice) -> res bytes) (PrefixEndBytes : bytes -> slice).
Context (RequireProof : bytes -> bool).
Hypothesis key_proof : RequireProof (str "/key") = true.
Context (applyLeaf : LeafOp -> bytes -> bytes -> bytes) (applyInner : InnerOp -> bytes -> bytes).
Hypothesis leaf_spec : forall prefix k v, applyLeaf (mkLeafOp SHA256 SHA256 VAR_PROTO prefix) k v =
  sha256 (prefix ++ EncodeBytes k ++ EncodeBytes (sha256 v)).
Hypothesis inner_spec : forall prefix suffix child,
  applyInner (mkInnerOp SHA256 prefix suffix) child = sha256 (prefix ++ child ++ suffix).
Hypothesis sha256_len : forall b, len (sha256 b) = 32.
Context (t0 : MultiTree).
Hypotheses (Hbase : base_version (MTVersion t0) (initialVersion t0)) (Hiv : 0 <= initialVersion t0 < 2 ^ 32).

Abbreviation RStore := (@RootStore L T).

(** A database at a version of the history. *)
Definition version_db (es : list WALEntry) (version : Z) (r : res (@DB L)) : Prop :=
  exists d m tm mk, r = Ok d /\ (1 <= m <= length es)%nat /\ Db.live sha256 t0 (take m es) tm /\
    MTVersion tm = version /\ db_tree d = with_meta mk tm.

Lemma version_db_tree es m tm d : len es < 2 ^ 62 -> (1 <= m <= length es)%nat -> Db.live sha256 t0 (take m es) tm ->
  version_db es (MTVersion tm) (Ok d) -> exists mk, db_tree d = with_meta mk tm.
Proof.
  intros Hl Hm Em (d' & m' & tm' & mk & [= <-] & Hm' & Em' & Ev & Et). exists mk.
  assert (m = m') as <-.
  { apply Nat.le_antisymm; [eapply (live_order sha256 t0 Hbase Hiv es m m')|eapply (live_order sha256 t0 Hbase Hiv es m' m)]; try done; lia. }
  unfold Db.live in *. rewrite Em in Em'. by apply Ok_inj in Em' as <-.
Qed.

(** What [loadAtVersion] needs of the options: they neither create nor roll
    back a database. *)
Definition plain_options (o : Options) : Prop := o_CreateIfMissing o = false /\ o_LoadForOverwriting o = false.

Lemma loadAtVersion_ok es bs dir (l : L) o m tm v :
  stored sha256 marshal t0 es bs dir l -> linked dir -> plain_options o ->
  (1 <= m <= length es)%nat -> Db.live sha256 t0 (take m es) tm -> 0 <= MTVersion tm < 2 ^ 32 ->
  v ∈ versions (r_entries dir) -> v <= MTVersion tm ->
  exists d, loadAtVersion sha256 unmarshal dir l o (MTVersion tm) = Ok d /\ version_db es (MTVersion tm) (Ok d).
Proof.
  intros Hst Hlk [Hc Ho] Hm Em Hr Hin Hle. unfold loadAtVersion.
  set (o' := set_target _ _ _ _ _ _).
  destruct (load_version_state sha256 marshal unmarshal unmarshal_ok t0 Hbase Hiv o' es bs dir l m tm v) as (d & r' & mk & E & Et & _); try done.
  - unfold Validate, o'. cbn. by rewrite Hc, Ho.
  - cbn. by rewrite u32_small.
  - rewrite E. cbn [res_bind]. rewrite Et. change (MTVersion (with_meta mk tm)) with (MTVersion tm). rewrite Z.eqb_refl. cbn [negb].
    exists d. split; [done|]. by exists d, m, tm, mk.
Qed.

(** The commit info of a committed state has the root hash of every tree. *)
Lemma commit_info_hashes es m tm n tree o (rs : RStore) :
  (1 <= m <= length es)%nat -> Db.live sha256 t0 (take m es) tm -> mt_wf tm -> TreeByName tm n = Some tree ->
  (n, rootHash sha256 (vt_root tree)) ∈ store_hashes (with_amend o rs (convertCommitInfo (lastCommitInfo tm))).
Proof.
  intros Hm Em W Ht. apply TreeByName_elem in Ht; [|done].
  assert (exists e t, live_entry sha256 t e = Ok tm) as (e & t & E).
  { assert (0 < length (take m es))%nat as Hlen by (rewrite length_take; lia). unfold Db.live in Em.
    destruct (take m es) as [|e l _] using rev_ind; [simpl in Hlen; lia|].
    rewrite run_entries_app, res_bind_ok in Em. destruct Em as (t1 & _ & E2). cbn in E2. rewrite res_bind_ok in E2.
    destruct E2 as (t2 & E2 & E3). apply Ok_inj in E3 as <-. by exists e, t1. }
  destruct (live_commit_info sha256 t e tm E) as [-> _].
  assert ((n, rootHash sha256 (vt_root tree)) ∈ store_hashes (convertCommitInfo (lastCommitInfo (UpdateCommitInfo sha256 tm)))) as Hin.
  { rewrite store_hashes_convert. unfold store_hashes. simpl. rewrite <- list_fmap_compose. apply list_elem_of_fmap.
    by exists (mkNamed n tree). }
  unfold with_amend. destruct (rs_sdk46Compact rs); [|done]. unfold amendCommitInfo, mergeStoreInfos, store_hashes in *.
  cbn [ci_stores] in *. rewrite sort_named_Permutation, fmap_app. apply elem_of_app. by left.
Qed.

(** The answer of a database that stands at the state [tm]. *)
Lemma query_db_ok es m tm mk d o z (rs : RStore) n tree key height :
  (1 <= m <= length es)%nat -> Db.live sha256 t0 (take m es) tm -> mt_wf tm -> db_tree d = with_meta mk tm ->
  TreeByName tm n = Some tree -> slash ∉ n -> key <> [] -> (0 < height -> height = vt_version tree) ->
  root_wf (vt_root tree) -> len (root_list (vt_root tree)) < 2 ^ 32 -> vt_root tree <> None ->
  exists ops info, query_db sha256 marshalPairs PrefixEndBytes RequireProof o z rs d (mkRequest key (key_path n) height true) =
      Ok (mkResponse (vt_version tree) key (assoc_get key (root_list (vt_root tree))) (Some (ops ++ [CommitInfoOp info n]))) /\
    key_proof_ok sha256 applyLeaf applyInner tree key ops /\
    info = with_amend o rs (convertCommitInfo (lastCommitInfo tm)) /\
    (n, rootHash sha256 (vt_root tree)) ∈ store_hashes info.
Proof.
  intros Hm Em W Et Ht Hn Hk Hh Wt Hs Hne.
  destruct (query_key sha256 marshalPairs PrefixEndBytes applyLeaf applyInner leaf_spec inner_spec sha256_len z tree
    (mkRequest key (str "/key") height true) Wt Hs Hk Hh eq_refl) as [_ Hq].
  destruct (Hq eq_refl Hne) as (ops & Eq & Hops). cbn [rq_Data] in *.
  exists ops, (with_amend o rs (convertCommitInfo (lastCommitInfo tm))). split_and!; [|done|done|by eapply commit_info_hashes].
  unfold query_db. cbn [rq_Path rq_Data rq_Height rq_Prove]. rewrite parse_key_path by done. cbn [res_bind]. rewrite Et.
  change (TreeByName (with_meta mk tm) n) with (TreeByName tm n). rewrite Ht, Eq. cbn [res_bind rq_Prove negb orb rp_ProofOps].
  rewrite key_proof. cbn [negb]. unfold key_proof_ok in Hops.
  destruct (assoc_get key _); [destruct Hops as (p & -> & _)|destruct Hops as (pl & pr & -> & _)]; done.
Qed.

(** Where the answer for a height comes from: the open database, when it is the
    last committed version, or the snapshots and the log on disk, through the
    cache of historical databases. *)
Definition answers_from (es : list WALEntry) (dir : Root) (l : L) (rs : RStore) (tm : MultiTree) (H O : nat -> nat) : Prop :=
  (ci_version <$> rs_lastCommitInfo rs = Some (MTVersion tm) /\ exists d mk, rs_db rs = Some d /\ db_tree d = with_meta mk tm) \/
  (ci_version <$> rs_lastCommitInfo rs <> Some (MTVersion tm) /\ is_Some (rs_db rs) /\
   (exists bs, stored sha256 marshal t0 es bs dir l) /\ linked dir /\ plain_options (rs_opts rs) /\
   (exists v, v ∈ versions (r_entries dir) /\ v <= MTVersion tm) /\
   mem_ok (version_db es) (rs_hist rs) H O /\ closed (m_cache (rs_hist rs)) = false).

Lemma Query_from es dir l (rs : RStore) m tm H O o z data path prove :
  len es < 2 ^ 62 -> (1 <= m <= length es)%nat -> Db.live sha256 t0 (take m es) tm -> 0 < MTVersion tm < 2 ^ 32 ->
  answers_from es dir l rs tm H O ->
  let req := mkRequest data path (MTVersion tm) prove in
  exists d mk rs', db_tree d = with_meta mk tm /\
    Query sha256 unmarshal marshalPairs PrefixEndBytes RequireProof o z dir l rs req =
      (query_db sha256 marshalPairs PrefixEndBytes RequireProof o z rs d req, rs') /\
    (mem_ok (version_db es) (rs_hist rs) H O -> mem_ok (version_db es) (rs_hist rs') H O).
Proof.
  intros Hlen Hm Em Hr Hfrom req. unfold Query.
  assert (forall d : @DB L, (if rq_Height req =? 0 then MTVersion (db_tree d) else rq_Height req) = MTVersion tm) as Hver.
  { intros d. cbn [req rq_Height]. by rewrite (proj2 (Z.eqb_neq _ _)) by lia. }
  assert ((MTVersion tm <? 0) || (MaxUint32 <? MTVersion tm) = false) as Hrange.
  { apply orb_false_iff. unfold MaxUint32. split; apply Z.ltb_ge; lia. }
  destruct Hfrom as [(Elast & d & mk & Ed & Et)|(Elast & [d0 Ed] & (bs & Hst) & Hlk & Hopt & (v & Hin & Hle) & M & Hcl)].
  - rewrite Ed, Hver, Hrange, bool_decide_eq_true_2 by done. by exists d, mk, rs.
  - rewrite Ed, Hver, Hrange, bool_decide_eq_false_2 by done.
    destruct (loadAtVersion_ok es bs dir l (rs_opts rs) m tm v Hst Hlk Hopt Hm Em ltac:(lia) Hin Hle) as (x & Ex & Hx). rewrite Ex.
    destruct (borrow_ok (version_db es) (rs_hist rs) H O (MTVersion tm) x M Hcl Hx) as (p & m' & e & y & Eb & M' & Ee & Ey & Hy).
    rewrite Eb, Ee. cbn [mbind option_bind]. rewrite Ey.
    destruct (release_spec _ _ _ _ _ M') as (m2 & -> & M2 & _). destruct (version_db_tree es m tm y Hlen Hm Em Hy) as [mk Et].
    exists y, mk, (set_hist rs m2). split_and!; done.
Qed.

End Query.

(** ** A query at an older height of the sample database *)

Definition sample_querier : @RootStore ListLog nat :=
  mkRS (Some sample_committed) 1 (Some (mkCommitInfo 6 [])) ∅ ∅ ∅ ∅ (sample_options 0 false false) false
    (mkMemory (newHistoricalDBCache 1) [] [] []).

Lemma sample_answers :
  answers_from digest32 bit_marshal (NewEmptyMultiTree 5) sample_history sample_root sample_log sample_querier
    (state_after (take 1 sample_history)) (fun _ => 0%nat) (fun _ => 0%nat).
Proof.
  right. split; [by vm_compute|]. split; [by eexists|]. split; [exists sample_bytes; exact sample_stored|]. split; [exact sample_linked|].
  split; [done|]. split; [exists 5; split; [vm_compute; set_solver|by vm_compute]|]. split; [|done].
  exact (world_mem _ _ (initial_ok (version_db digest32 (NewEmptyMultiTree 5) sample_history) 1)).
Qed.

