(* ===== verification/StateSync.v ===== *)
(** State sync: [NewMultiTreeExporter] of [memiavl/export.go], [MultiTreeImporter]
    and [TreeImporter] of [memiavl/import.go], [store/rootmulti/snapshot.go] and
    [store/rootmulti/import.go].

    [Snapshot] sends the trees of a version as a stream of messages, [Restore]
    rebuilds the snapshot directory from the stream and loads it.  The importer
    of a tree is a goroutine behind a channel: the nodes sent are kept in order,
    and each send takes a flag that says whether the [select] takes an error of
    the goroutine that is already waiting.  A directory of an unfinished import
    is removed by the next [Load] and described by its complete trees only.

    Theorem: a root store restored from the stream of a snapshot stands at the
    state of that version, with the same trees, hashes and commit info, and is
    ready for the next block. *)
From stdpp Require Import prelude strings gmap fin_maps sorting.
From Stdlib Require Import ZArith Lia.
From S2P Require Import Prelude OrdMap Codec Node Hash Persisted Snapshot Export Import Wal Tree TreeSpec Iterator Proofs MultiTree Pending Db DbDir.
From S2P Require Import HistCache MemStore RootMulti RootSpec DbRewrite.
Local Open Scope Z_scope.

(** ** Messages *)

(** [SnapshotIAVLItem]. *)
Record IAVLItem : Type := mkIAVL { ia_Key : slice; ia_Value : slice; ia_Version : Z; ia_Height : Z }.

(** [SnapshotItem]; other kinds of items are extensions, and the empty item is
    what the reader is given to fill. *)
Inductive SnapshotItem : Type :=
| ItemNone
| ItemStore (n : name)
| ItemIAVL (i : IAVLItem)
| ItemExtension (x : bytes).

(** [int32]. *)
Definition i32 (z : Z) : Z := (z + 2 ^ 31) mod 2 ^ 32 - 2 ^ 31.

(** The message for an item of the exporter. *)
Definition item_message (i : Item) : SnapshotItem :=
  match i with
  | ITree n => ItemStore n
  | INode n => ItemIAVL (mkIAVL (Some (e_key n)) (e_value n) (Export.e_version n) (i32 (e_height n)))
  end.

(** The node that a message stands for; protobuf does not tell an empty slice
    from nil. *)
Definition message_node (i : IAVLItem) : ExportNode :=
  let height := i8 (ia_Height i) in
  mkExport (default [] (ia_Key i)) (if height =? 0 then Some (default [] (ia_Value i)) else ia_Value i) (ia_Version i) height.

(** ** Importing trees *)

(** [TreeImporter]: the directory it writes and the nodes it was sent. *)
Record TreeImporter : Type := mkTI { ti_name : name; ti_nodes : list ExportNode }.

(** [MultiTreeImporter]; [mti_tmp] has the trees complete in its directory. *)
Record MultiTreeImporter : Type := mkMTI {
  mti_root : Root;
  mti_height : Z;
  mti_tmp : option (list (name * Files));
  mti_importer : option TreeImporter;
}.

Definition tmpDir (height : Z) : bytes := snapshotName height ++ TmpSuffix.

(** [NewMultiTreeImporter]; [locked] when another process has the lock. *)
Definition NewMultiTreeImporter (locked : bool) (r : Root) (height : Z) : res MultiTreeImporter :=
  if MaxUint32 <? height then Err "version overflows uint32"
  else if locked then Err "fail to lock db"
  else Ok (mkMTI r height ((fun e => d_trees (en_content e)) <$> find_entry (tmpDir height) (r_entries r)) None).

Definition put_tree (n : name) (f : Files) (ts : list (name * Files)) : list (name * Files) :=
  filter (fun p => p.1 <> n) ts ++ [(n, f)].

Section Importer.
Context (sha256 : bytes -> bytes).

Definition TreeAdd (quit : bool) (ti : TreeImporter) (node : ExportNode) : res TreeImporter :=
  let sent := Ok (mkTI (ti_name ti) (ti_nodes ti ++ [node])) in
  if quit then
    match AddAll sha256 (fun _ => false) (mkImporter newSnapshotWriter [] []) (ti_nodes ti) with
    | Ok _ => sent
    | Err e => Err e
    | Panic e => Panic e
    end
  else sent.

Definition TreeClose (height : Z) (ti : TreeImporter) : res Files := doImport sha256 (fun _ => false) height (ti_nodes ti).

(** The importer of the last tree is closed, and its tree is complete. *)
Definition close_importer (m : MultiTreeImporter) : res MultiTreeImporter :=
  match mti_importer m with
  | None => Ok m
  | Some ti =>
      let* f := TreeClose (mti_height m) ti in
      Ok (mkMTI (mti_root m) (mti_height m) (Some (put_tree (ti_name ti) f (default [] (mti_tmp m)))) None)
  end.

Definition AddTree (m : MultiTreeImporter) (n : name) : res MultiTreeImporter :=
  let* m := close_importer m in
  Ok (mkMTI (mti_root m) (mti_height m) (mti_tmp m) (Some (mkTI n []))).

Definition AddNode (quit : bool) (m : MultiTreeImporter) (node : ExportNode) : res MultiTreeImporter :=
  match mti_importer m with
  | None => Err "received node item before tree item"
  | Some ti => let* ti := TreeAdd quit ti node in Ok (mkMTI (mti_root m) (mti_height m) (mti_tmp m) (Some ti))
  end.

(** [MultiTreeImporter.Add]. *)
Definition MTIAdd (quit : bool) (m : MultiTreeImporter) (item : Item) : res MultiTreeImporter :=
  match item with ITree n => AddTree m n | INode n => AddNode quit m n end.

Definition SnapshotRootHash (s : Snapshot) : res bytes :=
  if IsEmpty s then Ok (emptyHash sha256)
  else let* p := RootNode s in of_option "slice bounds out of range" (Persisted.Hash s p).

(** The loop of [updateMetadataFile] over the directories. *)
Fixpoint store_infos (height : Z) (ts : list (name * Files)) : res (list StoreInfo) :=
  match ts with
  | [] => Ok []
  | (n, f) :: ts =>
      let* s := OpenSnapshot f in
      let* hash := SnapshotRootHash s in
      let* rest := store_infos height ts in
      Ok (mkStoreInfo n (mkCommitID height hash) :: rest)
  end.

(** [os.ReadDir] gives the entries in the order of their names. *)
Definition updateMetadataFile (ts : list (name * Files)) (height : Z) : res Dir :=
  let ts := sort_named fst ts in
  let* infos := store_infos height ts in
  Ok (mkDir ts (mkCommitInfo height infos) (i64 (height + 1))).

Definition Finalize (m : MultiTreeImporter) : res Root :=
  let* m := close_importer m in
  match mti_tmp m with
  | None => Err "file does not exist"
  | Some ts =>
      let* d := updateMetadataFile ts (mti_height m) in
      let n := snapshotName (mti_height m) in
      let es := filter (fun e => en_name e <> tmpDir (mti_height m)) (r_entries (mti_root m)) in
      match find_entry n es with
      | Some _ => Err "file exists"
      | None => Ok (updateCurrentSymlink (mkRoot (put_entry (mkEntryOf n true d) es) (r_current (mti_root m))) n)
      end
  end.

(** ** Restoring *)

(** The loop of [restore]: the messages that the reader has, [quits] the flags
    of the sends; it returns the item that ended it and the messages left. *)
Fixpoint restore_loop (quits : list bool) (m : MultiTreeImporter) (msgs : list (res SnapshotItem))
  : res (SnapshotItem * list (res SnapshotItem) * MultiTreeImporter) :=
  match msgs with
  | [] => Ok (ItemNone, [], m)
  | Err e :: _ => Err ("invalid protobuf message: " ++ e)%string
  | Panic e :: _ => Panic e
  | Ok (ItemStore n) :: msgs => let* m := AddTree m n in restore_loop quits m msgs
  | Ok (ItemIAVL i) :: msgs =>
      if 127 <? ia_Height i then Err "node height cannot exceed"
      else let* m := AddNode (hd false quits) m (message_node i) in restore_loop (tl quits) m msgs
  | Ok item :: msgs => Ok (item, msgs, m)
  end.

Definition restore (locked : bool) (quits : list bool) (r : Root) (height : Z) (msgs : list (res SnapshotItem))
  : res (SnapshotItem * list (res SnapshotItem) * Root) :=
  let* m := NewMultiTreeImporter locked r height in
  let* (item, rest, m) := restore_loop quits m msgs in
  let* r := Finalize m in
  Ok (item, rest, r).
End Importer.

(** ** Exporting *)

Section Sync.
Context {L : Type} `{!Log L} (sha256 : bytes -> bytes).
Context (marshal : WALEntry -> res bytes) (unmarshal : bytes -> res WALEntry).
Context {T : Type} (newTransient newMem : T).
Abbreviation RStore := (@RootStore L T).

(** What an exporter reads: a database opened at the version, or a snapshot. *)
Inductive ExportSource : Type :=
| FromDB (d : @DB L)
| FromSnapshot (t : MultiTree).

Definition source_tree (s : ExportSource) : MultiTree :=
  match s with FromDB d => db_tree d | FromSnapshot t => t end.

Definition NewMultiTreeExporter (dir : Root) (l : L) (version : Z) (supportExportNonSnapshotVersion : bool) : res ExportSource :=
  if supportExportNonSnapshotVersion then
    match DbDir.Load sha256 unmarshal (mkOptions false 0 true [] 0 0 version 0 false 4) dir l with
    | Ok (d, _) => Ok (FromDB d)
    | Err e | Panic e => Err ("invalid height: " ++ e)%string
    end
  else
    match currentVersion dir with
    | Err e | Panic e => Err ("failed to load current version: " ++ e)%string
    | Ok curVersion =>
        if curVersion <? version then Err "snapshot is not created yet"
        else
          match load_snapshot sha256 dir (snapshotName version) with
          | Ok t => Ok (FromSnapshot t)
          | Err e | Panic e => Err ("snapshot don't exists: " ++ e)%string
          end
    end.

(** The trees of the source with their streams, which are the same whether a
    tree is walked or its snapshot files are read ([Export]). *)
Definition source_exporter (s : ExportSource) : MultiTreeExporter :=
  mkMTE ((fun e => (nt_name e, export_stream (vt_root (nt_tree e)))) <$> trees (source_tree s)) 0 None.

(** [MultiTreeExporter.Close]. *)
Definition MTEClose (rounds : list nat) (s : ExportSource) : option string :=
  match s with FromDB d => (dbClose marshal rounds d).1 | FromSnapshot _ => None end.

(** [writeMsg] is what the writer answers to a message after those written. *)
Context (writeMsg : list SnapshotItem -> SnapshotItem -> option string).

Fixpoint snapshot_loop (fuel : nat) (m : MultiTreeExporter) (written : list SnapshotItem) : option string * list SnapshotItem :=
  match fuel with
  | O => (None, written)
  | S fuel =>
      match MTENext m with
      | (None, _) => (None, written)
      | (Some i, m) =>
          match writeMsg written (item_message i) with
          | Some e => (Some e, written)
          | None => snapshot_loop fuel m (written ++ [item_message i])
          end
      end
  end.

(** [Snapshot]: the errors it returns and what was written; one call of [Next]
    for every item and one that ends the loop. *)
Definition RootSnapshot (rounds : list nat) (supportExportNonSnapshotVersion : bool) (dir : Root) (l : L) (height : Z)
  : list string * list SnapshotItem :=
  if MaxUint32 <? height then (["height overflows uint32"], [])
  else
    match NewMultiTreeExporter dir l (u32 height) supportExportNonSnapshotVersion with
    | Err e | Panic e => ([e], [])
    | Ok s =>
        let m := source_exporter s in
        let '(err, written) := snapshot_loop (S (length (all_items (mte_trees m)))) m [] in
        (option_list err ++ option_list (MTEClose rounds s), written)
    end.

(** [Restore]; the outcome has the item that ended the stream, the messages
    left and the directory. *)
Definition RootRestore (locked : bool) (rounds : list nat) (order : list StoreKey) (quits : list bool) (dir : Root) (l : L) (rs : RStore)
  (height : Z) (msgs : list (res SnapshotItem)) : res (SnapshotItem * list (res SnapshotItem) * Root) * RStore :=
  let '(err, rs) :=
    match rs_db rs with
    | None => (None, rs)
    | Some d =>
        match dbClose marshal rounds d with
        | (Some e, d) => (Some e, set_db rs (Some d) (rs_gen rs))
        | (None, _) => (None, set_db rs None (rs_gen rs))
        end
    end in
  match err with
  | Some e => (Err ("failed to close db: " ++ e)%string, rs)
  | None =>
      match restore sha256 locked quits dir height msgs with
      | Err e => (Err e, rs)
      | Panic e => (Panic e, rs)
      | Ok (item, rest, dir) =>
          match LoadLatestVersion sha256 unmarshal newTransient newMem order dir l rs with
          | Ok (rs, dir) => (Ok (item, rest, dir), rs)
          | Err e => (Err e, rs)
          | Panic e => (Panic e, rs)
          end
      end
  end.
End Sync.

(** ** The stream *)

(** A message as the receiver may read it: protobuf gives back an empty slice or
    nil for both. *)
Definition delivered (m m' : SnapshotItem) : Prop :=
  match m, m' with
  | ItemStore n, ItemStore n' => n = n'
  | ItemIAVL i, ItemIAVL i' =>
      default [] (ia_Key i) = default [] (ia_Key i') /\ default [] (ia_Value i) = default [] (ia_Value i') /\
      ia_Version i = ia_Version i' /\ ia_Height i = ia_Height i'
  | ItemExtension x, ItemExtension x' => x = x'
  | ItemNone, ItemNone => True
  | _, _ => False
  end.

(** Nodes that are imported alike: the value of a branch is not looked at. *)
Definition same_node (n n' : ExportNode) : Prop :=
  e_key n = e_key n' /\ Export.e_version n = Export.e_version n' /\ e_height n = e_height n' /\
  (e_height n = 0 -> default [] (e_value n) = default [] (e_value n')).

Lemma i8_range z : -128 <= i8 z < 128.
Proof. unfold i8. dlia. Qed.
Lemma i32_small z : - 2 ^ 31 <= z < 2 ^ 31 -> i32 z = z.
Proof. intros Hz. unfold i32. rewrite Z.mod_small; lia. Qed.

Lemma delivered_node n i :
  -128 <= e_height n < 128 -> delivered (item_message (INode n)) (ItemIAVL i) ->
  (127 <? ia_Height i) = false /\ same_node n (message_node i).
Proof.
  intros Hh (Ek & Ex & Ev & Eh). cbn [ia_Key ia_Value ia_Version ia_Height default] in *. rewrite i32_small in Eh by lia. rewrite <- Eh.
  split; [lia|]. unfold message_node. rewrite <- Eh, i8_small by lia. split_and!; [done..|]. cbn [e_value]. intros ->. cbn. by rewrite <- Ex.
Qed.

Section Streams.
Context (sha256 : bytes -> bytes).
Abbreviation Add := (Add sha256 (fun _ => false)).
Abbreviation AddAll := (AddAll sha256 (fun _ => false)).
Abbreviation fresh := (mkImporter newSnapshotWriter [] []).

(** Importers that go on alike: keys and values of pending nodes are not used. *)
Definition forget (i : importer) : importer :=
  mkImporter (writer i) (leavesStack i)
    ((fun p => Import.mkPending (pn_height p) (pn_size p) (pn_version p) [] None (pn_hash p)) <$> nodeStack i).

Lemma Add_same i1 i2 n n' : forget i1 = forget i2 -> same_node n n' ->
  res_rel (fun a b => forget a = forget b) (Add i1 n) (Add i2 n').
Proof.
  destruct i1 as [w l1 s1], i2 as [w2 l2 s2], n as [k x v h], n' as [k' x' v' h']. intros E (Ek & Ev & Eh & Ex).
  unfold forget in E. cbn in E, Ek, Ev, Eh, Ex. injection E as <- <- Es. subst k' v' h'. unfold Import.Add. cbn.
  destruct (MaxUint32 <? v); [done|]. destruct (Z.eqb_spec h 0) as [->|Hh].
  - unfold pendingLeafHash. rewrite Ex by done. destruct (writeLeaf _ _ _ _ _ _) as [w'|e|e]; cbn; [|done..].
    unfold forget. cbn. by rewrite Es.
  - destruct s1 as [|p1 [|q1 s1]], s2 as [|p2 [|q2 s2]]; cbn in Es; try done; destruct l1 as [|a [|b l1]]; try done.
    injection Es as A1 A2 A3 A4 B1 B2 B3 B4 Es.
    cbn. unfold forget. cbn. rewrite A2, A4, B2, B4, Es. f_equal.
    apply (f_equal length) in Es. rewrite !length_fmap in Es. unfold len. cbn. by rewrite Es.
Qed.

Lemma AddAll_same l l' : Forall2 same_node l l' -> forall i1 i2, forget i1 = forget i2 ->
  res_rel (fun a b => forget a = forget b) (AddAll i1 l) (AddAll i2 l').
Proof.
  induction 1 as [|n n' l l' Hn _ IH]; intros i1 i2 E; [done|]. cbn [Import.AddAll].
  pose proof (Add_same i1 i2 n n' E Hn) as H. destruct (Add i1 n), (Add i2 n'); try done. by apply IH.
Qed.

Lemma doImport_same v l l' : Forall2 same_node l l' -> doImport sha256 (fun _ => false) v l = doImport sha256 (fun _ => false) v l'.
Proof.
  intros H. unfold doImport. destruct (MaxUint32 <? v); [done|]. unfold writeSnapshot.
  pose proof (AddAll_same l l' H fresh fresh eq_refl) as Hr.
  destruct (AddAll fresh l) as [i1|e|e], (AddAll fresh l') as [i2|e'|e']; cbn in Hr; subst; try done.
  injection Hr as Hw Hl _. cbn. rewrite Hl. destruct (leavesStack i2) as [|? [|]]; cbn; by rewrite ?Hw.
Qed.

Lemma doImport_AddAll v l f : doImport sha256 (fun _ => false) v l = Ok f -> exists i, AddAll fresh l = Ok i.
Proof.
  unfold doImport, writeSnapshot. destruct (MaxUint32 <? v); [done|]. destruct (AddAll fresh l) as [i|e|e]; [|done..]. by exists i.
Qed.

(** The nodes that arrive for a tree. *)
Lemma nodes_delivered st msgs :
  Forall (fun n => -128 <= e_height n < 128) st -> Forall2 delivered (item_message <$> (INode <$> st)) msgs ->
  exists ms, msgs = ItemIAVL <$> ms /\ Forall (fun i => (127 <? ia_Height i) = false) ms /\ Forall2 same_node st (message_node <$> ms).
Proof.
  intros Hs. revert msgs. induction Hs as [|n st Hn _ IH]; intros msgs H.
  - apply Forall2_nil_inv_l in H as ->. by exists [].
  - apply Forall2_cons_inv_l in H as (m & msgs' & Hm & H & ->). destruct (IH _ H) as (ms & -> & Hi & Hsame).
    destruct m as [| |i|]; try done. destruct (delivered_node n i Hn Hm) as [Hh Hno].
    exists (i :: ms). split_and!; [done|by constructor|by constructor].
Qed.

Lemma restore_nodes ms : forall quits r h tmp n ns rest i,
  Forall (fun i => (127 <? ia_Height i) = false) ms -> AddAll fresh (ns ++ (message_node <$> ms)) = Ok i ->
  exists quits', restore_loop sha256 quits (mkMTI r h tmp (Some (mkTI n ns))) ((Ok <$> (ItemIAVL <$> ms)) ++ rest) =
    restore_loop sha256 quits' (mkMTI r h tmp (Some (mkTI n (ns ++ (message_node <$> ms))))) rest.
Proof.
  induction ms as [|x ms IH]; intros quits r h tmp n ns rest i Hi Ha; [exists quits; by rewrite app_nil_r|].
  apply Forall_cons in Hi as [Hx Hi]. rewrite !fmap_cons in *. cbn [app restore_loop]. rewrite Hx.
  assert (AddNode sha256 (hd false quits) (mkMTI r h tmp (Some (mkTI n ns))) (message_node x) =
    Ok (mkMTI r h tmp (Some (mkTI n (ns ++ [message_node x]))))) as ->.
  { unfold AddNode, TreeAdd. cbn. destruct (hd false quits); [|done]. rewrite AddAll_app in Ha.
    by destruct (AddAll fresh ns). }
  cbn [res_bind]. destruct (IH (tl quits) r h tmp n (ns ++ [message_node x]) rest i Hi) as (q & ->).
  - by rewrite <- app_assoc.
  - exists q. by rewrite <- app_assoc.
Qed.

Lemma stream_heights root : Forall (fun n => -128 <= e_height n < 128) (export_stream root).
Proof. unfold export_stream. rewrite Forall_fmap. apply Forall_forall. intros n _. apply i8_range. Qed.

Lemma put_tree_new n f fs : n ∉ fs.*1 -> put_tree n f fs = fs ++ [(n, f)].
Proof.
  intros H. unfold put_tree. f_equal. induction fs as [|p fs IH]; [done|]. rewrite fmap_cons, not_elem_of_cons in H. destruct H as [H1 H2].
  rewrite filter_cons, decide_True by auto. f_equal. auto.
Qed.
Lemma write_trees_names ts fs : write_trees sha256 (fun _ => false) ts = Ok fs -> fs.*1 = names ts.
Proof.
  revert fs. induction ts as [|e ts IH]; intros fs; cbn [write_trees]; [by intros <-%Ok_inj|].
  rewrite res_bind_ok. intros (f & _ & E). rewrite res_bind_ok in E. destruct E as (rest & E & <-%Ok_inj). by rewrite fmap_cons, (IH _ E).
Qed.

Context (sha256_len : forall b, len (sha256 b) = 32).

(** Importing the stream of a tree writes the snapshot of the tree. *)
Lemma import_tree e nodes : tree_storable e -> Forall2 same_node (export_stream (vt_root (nt_tree e))) nodes ->
  exists f, doImport sha256 (fun _ => false) (vt_version (nt_tree e)) nodes = Ok f /\
    WriteSnapshotWithContext sha256 (fun _ => false) (vt_version (nt_tree e)) (vt_root (nt_tree e)) = Ok f.
Proof.
  intros St H. destruct (write_open_tree sha256 sha256_len (fun _ => false) e (fun _ => eq_refl) St) as (f & Ew & _).
  exists f. split; [|done]. rewrite <- (doImport_same _ _ _ H), <- Ew. destruct St as [Hv Sr].
  destruct (vt_root (nt_tree e)) as [n|]; [by apply doImport_export|].
  unfold doImport, WriteSnapshotWithContext, writeSnapshot, MaxUint32. destruct (Z.ltb_spec (2 ^ 32 - 1) (vt_version (nt_tree e))); [lia|].
  by rewrite u32_small.
Qed.

(** The messages of trees. *)
Definition messages (ts : list NamedTree) : list SnapshotItem :=
  item_message <$> all_items ((fun e => (nt_name e, export_stream (vt_root (nt_tree e)))) <$> ts).

Lemma messages_cons e ts : messages (e :: ts) =
  ItemStore (nt_name e) :: (item_message <$> (INode <$> export_stream (vt_root (nt_tree e)))) ++ messages ts.
Proof. unfold messages, all_items. csimpl. by rewrite fmap_app. Qed.

Lemma restore_trees ts : forall quits m r h fs0 msgs rest,
  close_importer sha256 m = Ok (mkMTI r h fs0 None) -> Forall tree_storable ts -> Forall (at_version h) ts ->
  NoDup ((default [] fs0).*1 ++ names ts) -> Forall2 delivered (messages ts) msgs ->
  exists quits' m' fs, restore_loop sha256 quits m ((Ok <$> msgs) ++ rest) = restore_loop sha256 quits' m' rest /\
    write_trees sha256 (fun _ => false) ts = Ok fs /\
    close_importer sha256 m' = Ok (mkMTI r h (if decide (ts = []) then fs0 else Some (default [] fs0 ++ fs)) None).
Proof.
  induction ts as [|e ts IH]; intros quits m r h fs0 msgs rest Hc St U Hnd H.
  - apply Forall2_nil_inv_l in H as ->. exists quits, m, []. split_and!; [done..|]. by rewrite decide_True.
  - rewrite messages_cons in H. apply Forall2_cons_inv_l in H as (m1 & msgs1 & Hm & H & ->).
    apply Forall2_app_inv_l in H as (msgs2 & msgs3 & H2 & H3 & ->). destruct m1 as [|n| |]; try done. cbn in Hm. subst n.
    apply Forall_cons in St as [Se St], U as [Ue U].
    destruct (nodes_delivered _ _ (stream_heights _) H2) as (ms & -> & Hms & Hsame).
    destruct (import_tree e _ Se Hsame) as (f & Ei & Ew). destruct (doImport_AddAll _ _ _ Ei) as (i & Ea).
    rewrite fmap_cons, fmap_app. cbn [app restore_loop]. unfold AddTree. rewrite Hc. cbn [res_bind mti_root mti_height mti_tmp].
    rewrite <- app_assoc. destruct (restore_nodes ms quits r h fs0 (nt_name e) [] ((Ok <$> msgs3) ++ rest) i Hms Ea) as (q & ->).
    cbn [app]. destruct (IH q (mkMTI r h fs0 (Some (mkTI (nt_name e) (message_node <$> ms)))) r h (Some (default [] fs0 ++ [(nt_name e, f)]))
      msgs3 rest) as (q' & m' & fs & -> & Ets & Ecl); [|done|done| |done|].
    + unfold close_importer, TreeClose. cbn [mti_importer mti_height ti_nodes]. rewrite Ue in Ei. rewrite Ei. cbn [res_bind mti_tmp ti_name].
      rewrite put_tree_new; [done|].
      apply NoDup_app in Hnd as (_ & Hd & _). intros Hin. by apply (Hd _ Hin); left.
    + cbn [from_option id]. rewrite fmap_app, <- app_assoc. done.
    + exists q', m', ((nt_name e, f) :: fs). split_and!; [done| |].
      * cbn [write_trees]. rewrite Ew. cbn [res_bind]. by rewrite Ets.
      * rewrite Ecl. cbn [from_option id]. rewrite (decide_False (P := e :: ts = [])) by done. do 3 f_equal.
        destruct ts; [injection Ets as <-; by rewrite decide_True|]. rewrite decide_False by done. by rewrite <- app_assoc.
Qed.

(** The hashes that the metadata file gets. *)
Lemma store_infos_ok ts : forall fs h, Forall tree_storable ts -> Forall (at_version h) ts ->
  write_trees sha256 (fun _ => false) ts = Ok fs ->
  store_infos sha256 h fs = Ok ((fun e => mkStoreInfo (nt_name e) (mkCommitID (vt_version (nt_tree e)) (rootHash sha256 (vt_root (nt_tree e))))) <$> ts).
Proof.
  induction ts as [|e ts IH]; intros fs h St U E; cbn [write_trees] in E; [by apply Ok_inj in E as <-|].
  apply Forall_cons in St as [Se St], U as [Ue U]. rewrite res_bind_ok in E. destruct E as (f & Ew & E).
  rewrite res_bind_ok in E. destruct E as (fs' & E & <-%Ok_inj). cbn [store_infos].
  assert (exists s, OpenSnapshot f = Ok s /\ SnapshotRootHash sha256 s = Ok (rootHash sha256 (vt_root (nt_tree e)))) as (s & Eo & Eh).
  { destruct Se as [Hv Sr]. unfold SnapshotRootHash. destruct (vt_root (nt_tree e)) as [n|].
    - destruct (write_open sha256 sha256_len (fun _ => false) (fun _ => eq_refl) _ n Hv Sr) as (f' & s & Ew' & Eo & _ & Er & Sd & Hk).
      rewrite Ew in Ew'. apply Ok_inj in Ew' as <-. exists s. split; [done|]. unfold IsEmpty, RootNode. rewrite Er. cbn [res_bind].
      destruct Sr as [(A & _ & So) F]. pose proof (stored_presents sha256 sha256_len s n 0 0 0 Sd F So Hk) as P.
      assert (Persisted.Hash s (root_at 0 0 n) = Some (HashNode sha256 n)) as -> by (destruct n; apply P). done.
    - apply Ok_inj in Ew as <-. rewrite (OpenSnapshot_metadata _ _) by done. by eexists. }
  rewrite Eo. cbn [res_bind]. rewrite Eh. cbn [res_bind]. rewrite (IH fs' h St U E). csimpl. by rewrite Ue.
Qed.
End Streams.

(** ** The restored database *)

Lemma sort_named_id {A} (nm : A -> name) l : StronglySorted bytes_lt (nm <$> l) -> sort_named nm l = l.
Proof.
  induction l as [|x l IH]; intros H; [done|]. rewrite fmap_cons in H. apply StronglySorted_inv in H as [Hs Hf].
  cbn [sort_named foldr]. fold (sort_named nm l). rewrite IH by done. destruct l as [|y l]; [done|]. cbn [insert_sorted].
  rewrite fmap_cons in Hf. apply Forall_cons in Hf as [Hxy _]. unfold bytes_ltb. by rewrite (proj2 (bytes_compare_gt _ _) Hxy).
Qed.

(** The state after the restore of [t]: the log starts after it. *)
Definition restored (t : MultiTree) : MultiTree :=
  mkMulti (MTVersion t + 1) (trees t) (treesByName t) (lastCommitInfo t) (lastCommitInfo t).

(** What follows the trees in the stream: nothing, or an extension. *)
Definition stream_end (rest : list (res SnapshotItem)) (item : SnapshotItem) (left : list (res SnapshotItem)) : Prop :=
  (rest = [] /\ item = ItemNone /\ left = []) \/ exists x, rest = Ok (ItemExtension x) :: left /\ item = ItemExtension x.

Section Restored.
Context (sha256 : bytes -> bytes) (sha256_len : forall b, len (sha256 b) = 32).
Context (t : MultiTree) (W : mt_wf t) (Hw : writable t) (Hne : trees t <> []).
Hypothesis Hinfo : lastCommitInfo t = buildCommitInfo sha256 t (MTVersion t).

Lemma restored_dir : exists fs d, write_trees sha256 (fun _ => false) (trees t) = Ok fs /\
  updateMetadataFile sha256 fs (MTVersion t) = Ok d /\ LoadMultiTree sha256 d = Ok (restored t).
Proof.
  destruct Hw as [Hv U St]. destruct (write_open_trees sha256 sha256_len (fun _ => false) (trees t) (fun _ => eq_refl) St) as (fs & Ew & _).
  exists fs, (mkDir fs (lastCommitInfo t) (MTVersion t + 1)). split; [done|]. split.
  - unfold updateMetadataFile. rewrite sort_named_id by (rewrite (write_trees_names _ _ _ Ew); apply W).
    rewrite (store_infos_ok sha256 sha256_len (trees t) fs (MTVersion t) St U Ew). cbn [res_bind]. rewrite i64_small by lia.
    by rewrite Hinfo.
  - apply (load_written sha256 sha256_len (restored t) (mkDir fs (lastCommitInfo t) (MTVersion t + 1)) fs (fun _ => false)); try done.
    + destruct W. by split.
    + change (MTVersion (restored t)) with (MTVersion t). lia.
    + cbn. lia.
    + unfold MTWriteSnapshot. cbn [restored trees]. by rewrite Ew.
Qed.

Lemma restore_ok quits r msgs rest item left : dir_ok (r_entries r) -> find_entry (snapshotName (MTVersion t)) (r_entries r) = None ->
  find_entry (tmpDir (MTVersion t)) (r_entries r) = None -> Forall2 delivered (messages (trees t)) msgs -> stream_end rest item left ->
  exists r', restore sha256 false quits r (MTVersion t) ((Ok <$> msgs) ++ rest) = Ok (item, left, r') /\
    dir_ok (r_entries r') /\ linked r' /\ r_current r' = Some (snapshotName (MTVersion t)) /\
    versions (r_entries r') ≡ₚ MTVersion t :: versions (r_entries r) /\
    forall b, load_snapshot sha256 (cleaned b r') (snapshotName (MTVersion t)) = Ok (restored t).
Proof.
  intros Hd Hf Htmp Hdel Hend. destruct restored_dir as (fs & d & Ew & Eu & El). pose proof (wr_version _ Hw) as Hv.
  unfold restore, NewMultiTreeImporter, MaxUint32. destruct (Z.ltb_spec (2 ^ 32 - 1) (MTVersion t)); [lia|]. rewrite Htmp. cbn [fmap option_fmap option_map res_bind].
  destruct (restore_trees sha256 sha256_len (trees t) quits (mkMTI r (MTVersion t) None None) r (MTVersion t) None msgs rest)
    as (q & m & fs' & -> & Ew' & Ec); [done|apply Hw|apply Hw|apply strict_nodup, W|done|].
  rewrite Ew in Ew'. apply Ok_inj in Ew' as <-. rewrite decide_False in Ec by done. cbn [from_option id app] in Ec.
  assert (restore_loop sha256 q m rest = Ok (item, left, m)) as ->
    by (destruct Hend as [(-> & -> & ->)|(x & -> & ->)]; done).
  cbn [res_bind]. unfold Finalize. rewrite Ec. cbn [res_bind mti_tmp mti_height mti_root]. rewrite Eu. cbn [res_bind].
  rewrite filter_all by (rewrite find_entry_None, Forall_forall in Htmp; done). rewrite Hf. cbn [res_bind].
  eexists. split; [done|]. unfold updateCurrentSymlink. cbn [r_entries r_current].
  pose proof (put_snapshot_versions (MTVersion t) d (r_entries r) ltac:(lia) Hf) as Hvs. split_and!; [|by eexists; split; [done|]; rewrite Hvs; left|done|done|].
  - apply put_snapshot_ok; [lia|done..].
  - intros b. unfold load_snapshot. rewrite find_put_snapshot by (done || lia). exact El.
Qed.
End Restored.

Section Sync_ok.
Context {L : Type} `{!Log L, !LogLaws L} (sha256 : bytes -> bytes) (sha256_len : forall b, len (sha256 b) = 32).
Context (marshal : WALEntry -> res bytes) (unmarshal : bytes -> res WALEntry).
Hypothesis unmarshal_ok : forall e b, marshal e = Ok b -> unmarshal b = Ok (wire e).
Context {T : Type} (newTransient newMem : T).
Abbreviation RStore := (@RootStore L T).

(** Nothing is replayed from an empty log. *)
Lemma catchup_restored t (l : L) : 0 < MTVersion t < 2 ^ 31 -> Db.entries l = [] ->
  catchupWAL sha256 (restored t) (log_source unmarshal l) 0 = Ok (restored t).
Proof.
  intros Hv He. unfold catchupWAL. cbn [Z.ltb Z.compare log_source LastIndex]. rewrite law_last, He, law_empty by done.
  change (MTVersion (restored t)) with (MTVersion t). cbn [restored initialVersion].
  assert (walIndex (nextVersion (MTVersion t) (MTVersion t + 1)) (MTVersion t + 1) = 1) as ->; [|done].
  unfold walIndex, nextVersion. destruct (Z.eqb_spec (MTVersion t) 0); [lia|]. cbn [andb]. rewrite i64_small by lia.
  destruct (Z.ltb_spec 1 (MTVersion t + 1)); [|lia]. rewrite (u64_small (MTVersion t + 1)), Z.sub_diag by lia. done.
Qed.

(** The database that [Load] opens in a restored directory. *)
Lemma load_restored t r (l : L) o :
  0 < MTVersion t < 2 ^ 31 -> dir_ok (r_entries r) -> linked r -> r_current r = Some (snapshotName (MTVersion t)) ->
  (forall b, load_snapshot sha256 (cleaned b r) (snapshotName (MTVersion t)) = Ok (restored t)) -> Db.entries l = [] ->
  o_ReadOnly o = false -> o_TargetVersion o = 0 ->
  DbDir.Load sha256 unmarshal o r l = Ok (opened_db o (restored t) l, cleaned false r).
Proof.
  intros Hv Hd Hlk Hc Hld He Hro Ht. replace (cleaned false r) with (cleaned (o_ReadOnly o) r) by by rewrite Hro.
  eapply Load_eq; [done|done| | |apply Hld| | |right; change (MTVersion (restored t)) with (MTVersion t); lia].
  - unfold Validate. by rewrite Hro.
  - rewrite Ht, Hro. cbn [Z.ltb Z.compare cleaned r_current]. by rewrite Hc.
  - rewrite Ht. by apply catchup_restored.
  - rewrite Ht. cbn [Z.ltb Z.compare]. by rewrite andb_false_r.
Qed.

Lemma restored_inv t (l : L) o : Db.entries l = [] -> o_ReadOnly o = false ->
  log_inv marshal [] (opened_db o (restored t) l) /\ state_inv sha256 (restored t) [] (opened_db o (restored t) l).
Proof.
  intros He Hro. split.
  - exists l. split_and!; [done|cbn; by rewrite Hro|done|]. cbn. split; [done|]. exists [], 0%nat. split; [done| | |done].
    + rewrite law_empty by done. done.
    + by rewrite He, take_nil, drop_nil.
  - constructor; [|intros x; done|done|exact Hro]. exists (restored t), (lastCommitInfo t). split_and!; [done|done|]. done.
Qed.

(** ** The source *)

Lemma snapshot_loop_ok writeMsg fuel : (forall w m, writeMsg w m = None) -> forall m written,
  snapshot_loop writeMsg fuel m written = (None, written ++ (item_message <$> drain fuel m)).
Proof.
  intros Hw. induction fuel as [|fuel IH]; intros m written; cbn [snapshot_loop drain]; [by rewrite app_nil_r|].
  destruct (MTENext m) as [[i|] m']; [|by rewrite app_nil_r]. rewrite Hw, IH, fmap_cons. by rewrite <- app_assoc.
Qed.

Context (t0 : MultiTree).
Hypotheses (Hbase : base_version (MTVersion t0) (initialVersion t0)) (Hiv : 0 <= initialVersion t0 < 2 ^ 32).

(** The version can be exported: from a snapshot and the log, or, when only
    snapshots are exported, from its own snapshot. *)
Definition exportable (support : bool) (dir : Root) (version : Z) : Prop :=
  if support then exists v, v ∈ versions (r_entries dir) /\ v <= version
  else version ∈ versions (r_entries dir) /\ exists c, r_current dir = Some (snapshotName c) /\ version <= c < 2 ^ 31.

Lemma exporter_ok support es bs dir (l : L) m tm rounds :
  stored sha256 marshal t0 es bs dir l -> linked dir -> (1 <= m <= length es)%nat -> Db.live sha256 t0 (take m es) tm ->
  0 < MTVersion tm < 2 ^ 31 -> exportable support dir (MTVersion tm) ->
  exists s mk, NewMultiTreeExporter sha256 unmarshal dir l (MTVersion tm) support = Ok s /\ source_tree s = with_meta mk tm /\
    MTEClose marshal rounds s = None.
Proof.
  intros Hst Hlk Hm Em Hv Hx. unfold NewMultiTreeExporter. destruct support.
  - destruct Hx as (v & Hin & Hle).
    destruct (load_version_db sha256 marshal unmarshal unmarshal_ok t0 Hbase Hiv (mkOptions false 0 true [] 0 0 (MTVersion tm) 0 false 4)
      es bs dir l m tm v) as (mk & ->); try done. by eexists (FromDB _), mk.
  - destruct Hx as (Hin & c & Hc & Hle). unfold currentVersion. rewrite Hc, parse_small by lia.
    destruct (Z.ltb_spec c (MTVersion tm)); [lia|].
    destruct (load_saved sha256 marshal t0 es bs dir l _ Hst Hin) as (k & tk & mk & -> & Hk & Ek & Ev & _).
    eexists (FromSnapshot _), mk. split_and!; [done| |done].
    assert (k = m) as ->; [|unfold Db.live in *; rewrite Em in Ek; by apply Ok_inj in Ek as <-].
    pose proof (st_len _ _ _ _ _ _ _ Hst).
    apply Nat.le_antisymm; [eapply (live_order sha256 t0 Hbase Hiv es k m)|eapply (live_order sha256 t0 Hbase Hiv es m k)]; try done; lia.
Qed.

Lemma RootSnapshot_ok writeMsg rounds support es bs dir (l : L) m tm :
  (forall w x, writeMsg w x = None) ->
  stored sha256 marshal t0 es bs dir l -> linked dir -> (1 <= m <= length es)%nat -> Db.live sha256 t0 (take m es) tm ->
  0 < MTVersion tm < 2 ^ 31 -> exportable support dir (MTVersion tm) ->
  RootSnapshot sha256 marshal unmarshal writeMsg rounds support dir l (MTVersion tm) = ([], messages (trees tm)).
Proof.
  intros Hwr Hst Hlk Hm Em Hv Hx. unfold RootSnapshot, MaxUint32. destruct (Z.ltb_spec (2 ^ 32 - 1) (MTVersion tm)); [lia|].
  rewrite u32_small by lia. destruct (exporter_ok support es bs dir l m tm rounds Hst Hlk Hm Em Hv Hx) as (s & mk & -> & Es & ->).
  unfold source_exporter. rewrite Es. cbn [with_meta trees mte_trees]. rewrite snapshot_loop_ok by done.
  cbn [option_list app]. unfold messages. rewrite drain_ok by (cbn; rewrite drop_0; lia). cbn. by rewrite drop_0.
Qed.

(** ** The target *)

(** A root store that can receive a state: its stores are the trees of the
    state, its database closes, and its directory and log are unused. *)
Record receives (rs : RStore) (rounds : list nat) (dir : Root) (l : L) (t : MultiTree) : Prop := {
  rc_mode : o_ReadOnly (rs_opts rs) = false;
  rc_names : distinct_names (rs_storesParams rs);
  rc_loadable : forall key p, rs_storesParams rs !! key = Some p -> loadable key p;
  rc_mounted : forall n, n ∈ names (trees t) <-> mounted rs n;
  rc_close : forall d, rs_db rs = Some d -> (dbClose marshal rounds d).1 = None;
  rc_dir : dir_ok (r_entries dir);
  rc_new : find_entry (snapshotName (MTVersion t)) (r_entries dir) = None;
  rc_tmp : find_entry (tmpDir (MTVersion t)) (r_entries dir) = None;
  rc_log : Db.entries l = [];
}.

(** The root store that stands at a restored state. *)
Definition restored_at (order : list StoreKey) (rs rs' : RStore) (t : MultiTree) : Prop :=
  exists d mk, root_ok sha256 marshal (restored t) [] rs' d /\ db_tree d = with_meta mk (restored t) /\
    rs_lastCommitInfo rs' = Some (with_amend order rs (convertCommitInfo (lastCommitInfo t))) /\
    (forall key st, rs_stores rs' !! key = Some (MemiavlStore st) -> deref rs' (st_tree st) = TreeByName t (sk_name key)).

Lemma RootRestore_ok rounds order quits dir l (rs : RStore) t msgs rest item left :
  mt_wf t -> writable t -> trees t <> [] -> lastCommitInfo t = buildCommitInfo sha256 t (MTVersion t) ->
  receives rs rounds dir l t -> Forall2 delivered (messages (trees t)) msgs -> stream_end rest item left ->
  exists dir' rs', RootRestore sha256 marshal unmarshal newTransient newMem false rounds order quits dir l rs (MTVersion t)
      ((Ok <$> msgs) ++ rest) = (Ok (item, left, dir'), rs') /\ restored_at order rs rs' t.
Proof.
  intros W Hw Hne Hinfo [Hro Hd Hload Hm Hcl Hdir Hnew Htmp Hlog] Hdel Hend. pose proof (wr_version _ Hw) as Hv.
  destruct (restore_ok sha256 sha256_len t W Hw Hne Hinfo quits dir msgs rest item left Hdir Hnew Htmp Hdel Hend)
    as (r' & Er & Hd' & Hlk' & Hcur & _ & Hld).
  set (rs1 := match rs_db rs with Some _ => set_db rs None (rs_gen rs) | None => rs end).
  assert (rs_storesParams rs1 = rs_storesParams rs /\ rs_opts rs1 = rs_opts rs /\ rs_sdk46Compact rs1 = rs_sdk46Compact rs) as (Ep & Eo & Es)
    by (unfold rs1; by destruct (rs_db rs)).
  assert (W0 : mt_wf (restored t)) by (destruct W; by split).
  pose proof (load_restored t r' l (latest_options rs1) Hv Hd' Hlk' Hcur Hld Hlog ltac:(cbn; by rewrite Eo) eq_refl) as Eld.
  destruct (restored_inv t l (latest_options rs1) Hlog ltac:(cbn; by rewrite Eo)) as [HL Si].
  destruct (load_checks sha256 marshal unmarshal (restored t) W0 newTransient newMem [] r' (cleaned false r') l (restored t)
    (lastCommitInfo t) rs1 order (opened_db (latest_options rs1) (restored t) l)) as [Hok _]; try done.
  { exact (proj1 Hv). } { by rewrite Ep. } { rewrite Ep. exact Hload. }
  destruct Hok as (rs' & d & mk & E & R & Et & _ & _ & Ei & _ & Hde).
  { intros n. unfold mounted. rewrite Ep. apply Hm. }
  exists (cleaned false r'), rs'. split.
  - unfold RootRestore. replace (match rs_db rs with None => (None, rs) | Some d => _ end) with (@None string, rs1).
    + rewrite Er. by rewrite E.
    + unfold rs1. destruct (rs_db rs) as [d0|] eqn:Ed; [|done]. specialize (Hcl d0 eq_refl).
      destruct (dbClose marshal rounds d0) as [[e|] d1]; done.
  - exists d, mk. split_and!; [done|done| |exact Hde]. rewrite Ei. unfold with_amend. by rewrite Es, Ep.
Qed.

(** C21: state sync.  [Snapshot] at a version of the history, from the snapshots and
    the log or from the snapshot of that version only, writes without an error a
    stream of messages; when [Restore] reads that stream, in whatever way empty
    slices arrive and however the goroutines that import the trees are
    scheduled, with nothing or with an extension behind it, the root store stands
    at the state of that version: the same trees under its stores, the same
    commit info and so the same application hash, ready for the next block; the
    extension is handed out and the messages after it are left to the caller. *)
Theorem state_sync_restores_state writeMsg support es bs sdir (sl : L) m tm srounds
  rounds order quits dir l (rs : RStore) msgs rest item left
  (Hwr : forall w x, writeMsg w x = None)
  (Hst : stored sha256 marshal t0 es bs sdir sl) (Hlk : linked sdir) (Hm : (1 <= m <= length es)%nat)
  (Em : Db.live sha256 t0 (take m es) tm) (W : mt_wf tm) (Hw : writable tm) (Hne : trees tm <> [])
  (Hx : exportable support sdir (MTVersion tm)) (Hrc : receives rs rounds dir l tm)
  (Hdel : Forall2 delivered (RootSnapshot sha256 marshal unmarshal writeMsg srounds support sdir sl (MTVersion tm)).2 msgs)
  (Hend : stream_end rest item left) :
  (RootSnapshot sha256 marshal unmarshal writeMsg srounds support sdir sl (MTVersion tm)).1 = [] /\
  exists dir' rs', RootRestore sha256 marshal unmarshal newTransient newMem false rounds order quits dir l rs (MTVersion tm)
      ((Ok <$> msgs) ++ rest) = (Ok (item, left, dir'), rs') /\ restored_at order rs rs' tm.
Proof.
  pose proof (wr_version _ Hw) as Hv.
  rewrite (RootSnapshot_ok writeMsg srounds support es bs sdir sl m tm Hwr Hst Hlk Hm Em Hv Hx) in *. split; [done|].
  apply RootRestore_ok; try done. apply (live_info sha256 t0 (take m es)); [|done].
  intros E. apply (f_equal length) in E. rewrite length_take in E. simpl in E. lia.
Qed.
End Sync_ok.

(** ** A state sync of the sample database *)

Lemma delivered_refl m : delivered m m.
Proof. by destruct m. Qed.

(** A new node: its database has the empty snapshot it was created with. *)
Definition new_node : Root := mkRoot [snapshot_entry 0] (Some (snapshotName 0)).

Lemma new_node_receives : receives bit_marshal sample_mounted [] new_node (mkListLog 0 []) (state_after sample_history).
Proof.
  split; [done|exact sample_distinct|exact sample_loadable|exact sample_names|done| | | |done]; try (vm_compute; reflexivity).
  split; [repeat constructor|]. repeat constructor; intros E. exists 0. split; [lia|vm_compute; reflexivity].
Qed.

Lemma state_sync_restores_state_witness :
  let stream := RootSnapshot digest32 bit_marshal bit_unmarshal (fun _ _ => None) [] true sample_root sample_log 6 in
  stream.1 = [] /\
  exists dir' rs', RootRestore digest32 bit_marshal bit_unmarshal 0%nat 0%nat false [] [key_a; key_b; key_m] [true; false] new_node
      (mkListLog 0 []) sample_mounted 6 ((Ok <$> stream.2) ++ [Ok (ItemExtension [z2b 9]); Ok ItemNone]) =
      (Ok (ItemExtension [z2b 9], [Ok ItemNone], dir'), rs') /\
    restored_at digest32 bit_marshal [key_a; key_b; key_m] sample_mounted rs' (state_after sample_history).
Proof.
  refine (state_sync_restores_state digest32 digest32_len bit_marshal bit_unmarshal bit_unmarshal_ok 0%nat 0%nat (NewEmptyMultiTree 5) sample_base
    _ (fun _ _ => None) true sample_history sample_bytes sample_root sample_log 2 (state_after sample_history) [] [] [key_a; key_b; key_m]
    [true; false] new_node (mkListLog 0 []) sample_mounted _ _ _ _ (fun _ _ => eq_refl) sample_stored sample_linked _ _ _ sample_writable _ _
    new_node_receives _ _).
  - by vm_compute.
  - cbn. lia.
  - vm_compute. reflexivity.
  - apply (live_wf digest32 _ sample_wf sample_history). vm_compute. reflexivity.
  - vm_compute. done.
  - exists 5. split; [vm_compute; set_solver|by vm_compute].
  - apply Forall_Forall2_diag, Forall_forall. intros x _. apply delivered_refl.
  - right. by exists [z2b 9].
Defined.

(** A height that the log has not reached is not refused: the latest state is
    exported under that height. *)
Lemma snapshot_beyond_latest :
  RootSnapshot digest32 bit_marshal bit_unmarshal (fun _ _ => None) [] true sample_root sample_log 9 =
    ([], messages (trees (state_after sample_history))).
Proof. vm_compute. reflexivity. Qed.
