(* ===== verification/Setup.v ===== *)
(** Set-up and configuration: [store/setup.go], [store/config/config.go], [toml.go].

    The configuration is written to a file by the template and read back by the
    server, which hands it to [SetupMemIAVL] as values under names.  Values and
    their conversion (spf13/cast) and the base application of the SDK are not part
    of the repository; they are interfaces with laws.

    Theorem: a configuration written with the template comes back as the options of
    the root store, which is installed in front of all other options of the
    application; a disabled one changes nothing. *)
From stdpp Require Import prelude strings gmap.
From Stdlib Require Import ZArith Lia.
From S2P Require Import Prelude Db DbDir HistCache RootMulti.
Local Open Scope Z_scope.

(** ** The configuration *)

Record MemIAVLConfig : Type := mkConfig {
  c_Enable : bool;
  c_ZeroCopy : bool;
  c_AsyncCommitBuffer : Z;
  c_SnapshotKeepRecent : Z;
  c_SnapshotInterval : Z;
  c_CacheSize : Z;
}.
Definition DefaultCacheSize : Z := 1000.
Definition DefaultSnapshotInterval : Z := 1000.
Definition DefaultMemIAVLConfig : MemIAVLConfig := mkConfig false false 0 1 DefaultSnapshotInterval DefaultCacheSize.

Definition FlagMemIAVL : string := "memiavl.enable".
Definition FlagAsyncCommitBuffer : string := "memiavl.async-commit-buffer".
Definition FlagZeroCopy : string := "memiavl.zero-copy".
Definition FlagSnapshotKeepRecent : string := "memiavl.snapshot-keep-recent".
Definition FlagSnapshotInterval : string := "memiavl.snapshot-interval".
Definition FlagCacheSize : string := "memiavl.cache-size".
Definition FlagSnapshotWriterLimit : string := "memiavl.snapshot-writer-limit".

(** Values of the configuration file: [cast.ToBool] and the like; [absent] is nil. *)
Class Cast (V : Type) := {
  absent : V;
  ofBool : bool -> V;
  ofInt : Z -> V;
  ToBool : V -> bool;
  ToInt : V -> Z;
  ToUint32 : V -> Z;
}.
Class CastLaws (V : Type) `{!Cast V} := {
  law_bool : forall b, ToBool (ofBool b) = b;
  law_int : forall z, - 2 ^ 63 <= z < 2 ^ 63 -> ToInt (ofInt z) = z;
  law_uint32 : forall z, 0 <= z < 2 ^ 32 -> ToUint32 (ofInt z) = z;
  law_absent : ToBool absent = false /\ ToInt absent = 0 /\ ToUint32 absent = 0;
}.

(** The sections and keys of [DefaultConfigTemplate]. *)
Definition DefaultConfigTemplate {V} `{!Cast V} (c : MemIAVLConfig) : gmap string V :=
  {[ ("memiavl" ++ "." ++ "enable")%string := ofBool (c_Enable c);
     ("memiavl" ++ "." ++ "zero-copy")%string := ofBool (c_ZeroCopy c);
     ("memiavl" ++ "." ++ "async-commit-buffer")%string := ofInt (c_AsyncCommitBuffer c);
     ("memiavl" ++ "." ++ "snapshot-keep-recent")%string := ofInt (c_SnapshotKeepRecent c);
     ("memiavl" ++ "." ++ "snapshot-interval")%string := ofInt (c_SnapshotInterval c);
     ("memiavl" ++ "." ++ "cache-size")%string := ofInt (c_CacheSize c) ]}.

(** ** Setting up *)

(** [memiavl.Options] with the fields that only the trees read. *)
Record StoreOptions : Type := mkStoreOptions { so_db : Options; so_ZeroCopy : bool; so_CacheSize : Z }.

(** The base application: [SetCMS], and the goroutine that the snapshot manager runs. *)
Class BaseApp (A : Type) (CMS : Type) := {
  SetCMS : A -> CMS -> A;
  SnapshotIfApplicable : A -> Z -> A;
}.

(** The committed store of the application: a root store with its directory, its options,
    the callback after a switch, the mode of export and the chain. *)
Record Installed (A L T : Type) : Type := mkInstalled {
  in_dir : list string;
  in_store : @RootStore L T;
  in_options : StoreOptions;
  in_trigger : A -> Z -> A;
  in_supportExportNonSnapshotVersion : bool;
  in_chainId : string;
}.
#[global] Arguments mkInstalled {A L T}.
#[global] Arguments in_dir {A L T}.
#[global] Arguments in_store {A L T}.
#[global] Arguments in_options {A L T}.
#[global] Arguments in_trigger {A L T}.
#[global] Arguments in_supportExportNonSnapshotVersion {A L T}.
#[global] Arguments in_chainId {A L T}.

Section SetUp.
Context {V A L T : Type} `{!Cast V, !Log L, !BaseApp A (Installed A L T)}.

Definition appGet (appOpts : gmap string V) (flag : string) : V := default absent (appOpts !! flag).

Definition setMemIAVL (homePath : string) (opts : StoreOptions) (sdk46Compact supportExportNonSnapshotVersion : bool) (chainId : string) (bapp : A) : A :=
  let cms := NewStore (mkOptions false 0 false [] 0 0 0 0 false 0) sdk46Compact in
  let cms := SetMemIAVLOptions cms (so_db opts) in
  SetCMS bapp (mkInstalled [homePath; "data"; "memiavl.db"]%string cms opts SnapshotIfApplicable
    supportExportNonSnapshotVersion chainId).

(** The options of the application, and whether the address cache stays enabled. *)
Definition SetupMemIAVL (homePath : string) (appOpts : gmap string V) (sdk46Compact supportExportNonSnapshotVersion : bool) (cacheSize : Z)
  (chainId : string) (baseAppOptions : list (A -> A)) : list (A -> A) * bool :=
  if ToBool (appGet appOpts FlagMemIAVL) then
    let opts := mkStoreOptions
      (mkOptions false 0 false [] (ToUint32 (appGet appOpts FlagSnapshotKeepRecent)) (ToUint32 (appGet appOpts FlagSnapshotInterval)) 0
         (ToInt (appGet appOpts FlagAsyncCommitBuffer)) false (ToInt (appGet appOpts FlagSnapshotWriterLimit)))
      (ToBool (appGet appOpts FlagZeroCopy)) cacheSize in
    (setMemIAVL homePath opts sdk46Compact supportExportNonSnapshotVersion chainId :: baseAppOptions, negb (so_ZeroCopy opts))
  else (baseAppOptions, true).

(** [baseapp.NewBaseApp] applies the options in their order. *)
Definition apply_options (opts : list (A -> A)) (a : A) : A := fold_left (fun a f => f a) opts a.
End SetUp.

(** ** Properties *)

(** What a configuration may hold: the widths of its fields. *)
Definition config_ok (c : MemIAVLConfig) : Prop :=
  - 2 ^ 63 <= c_AsyncCommitBuffer c < 2 ^ 63 /\ 0 <= c_SnapshotKeepRecent c < 2 ^ 32 /\ 0 <= c_SnapshotInterval c < 2 ^ 32.

Section Template.
Context {V : Type} `{!Cast V, !CastLaws V}.

Lemma template_get (c : MemIAVLConfig) : let m := DefaultConfigTemplate (V := V) c in
  appGet m FlagMemIAVL = ofBool (c_Enable c) /\ appGet m FlagZeroCopy = ofBool (c_ZeroCopy c) /\
  appGet m FlagAsyncCommitBuffer = ofInt (c_AsyncCommitBuffer c) /\ appGet m FlagSnapshotKeepRecent = ofInt (c_SnapshotKeepRecent c) /\
  appGet m FlagSnapshotInterval = ofInt (c_SnapshotInterval c) /\ appGet m FlagSnapshotWriterLimit = absent.
Proof. by split_and!. Qed.
End Template.

(** A configuration that is enabled, written with the template and read back, puts the root
    store with its options under [data/memiavl.db] before any other option of the
    application runs; the options are valid, the defaults fill in the interval and
    the writer limit, and the address cache is off exactly in zero-copy mode.  One
    that is not enabled leaves the options of the application alone. *)
Theorem configured_store_is_installed {V A L T : Type} `{CV : !Cast V, CL : !CastLaws V, LG : !Log L, BA : !BaseApp A (Installed A L T)}
  (home : string) (c : MemIAVLConfig) (sdk46Compact support : bool) (cacheSize : Z) (chainId : string)
  (opts : list (A -> A)) (a : A) (Hc : config_ok c) :
  let (opts', addrCache) := SetupMemIAVL home (DefaultConfigTemplate (V := V) c) sdk46Compact support cacheSize chainId opts in
  if c_Enable c then
    exists s, apply_options opts' a = apply_options opts (SetCMS a s) /\ in_dir s = [home; "data"; "memiavl.db"]%string /\
      rs_opts (in_store s) = so_db (in_options s) /\ Validate (rs_opts (in_store s)) = None /\
      FillDefaults (rs_opts (in_store s)) =
        mkOptions false 0 false [] (c_SnapshotKeepRecent c) (if c_SnapshotInterval c =? 0 then 1000 else c_SnapshotInterval c) 0
          (c_AsyncCommitBuffer c) false 4 /\
      so_ZeroCopy (in_options s) = c_ZeroCopy c /\ so_CacheSize (in_options s) = cacheSize /\
      rs_sdk46Compact (in_store s) = sdk46Compact /\ in_supportExportNonSnapshotVersion s = support /\ in_chainId s = chainId /\ addrCache = negb (c_ZeroCopy c)
  else opts' = opts /\ addrCache = true.
Proof.
  destruct Hc as (H1 & H2 & H3). destruct (template_get (V := V) c) as (E1 & E2 & E3 & E4 & E5 & E6). destruct law_absent as (_ & E7 & _).
  unfold SetupMemIAVL. rewrite E1, E2, E3, E4, E5, E6, E7, !law_bool, law_int, !law_uint32 by done. destruct (c_Enable c); [|done].
  eexists. split; [reflexivity|]. by split_and!.
Qed.

(** Values of a file as a sum, and an application that only keeps its store. *)
#[export] Instance sum_cast : Cast (option (bool + Z)) := {|
  absent := None; ofBool b := Some (inl b); ofInt z := Some (inr z);
  ToBool v := match v with Some (inl b) => b | _ => false end;
  ToInt v := match v with Some (inr z) => z | _ => 0 end;
  ToUint32 v := match v with Some (inr z) => z | _ => 0 end;
|}.
#[export] Instance sum_cast_laws : CastLaws (option (bool + Z)).
Proof. by split. Qed.

#[export] Instance counting_app : BaseApp nat (Installed nat ListLog unit) := {| SetCMS a _ := S a; SnapshotIfApplicable a _ := a |}.

(** The default configuration, enabled. *)
Lemma configured_store_is_installed_witness :
  let c := mkConfig true false 0 1 0 1000 in
  exists s : Installed nat ListLog unit,
    apply_options (SetupMemIAVL "/home" (DefaultConfigTemplate (V := option (bool + Z)) c) false false 1000 "cronos" [Nat.add 5]).1 0%nat = 6%nat /\
    o_SnapshotInterval (FillDefaults (rs_opts (in_store s))) = 1000.
Proof.
  intros c. destruct (configured_store_is_installed (V := option (bool + Z)) (L := ListLog) (T := unit) "/home" c false false 1000 "cronos" [Nat.add 5] 0%nat)
    as (s & H1 & _ & _ & _ & H4 & _); [done|]. exists s. split; [exact H1|]. by rewrite H4.
Defined.
