(* ===== verification/ClientVerify.v ===== *)
(** Verification of change sets: [versiondb/client/verify.go], with
    [scanChangeSetFiles] of [versiondb/client/convert_to_sst.go].

    The command replays the change set files of every store into a tree and
    prints the commit info, which can be compared with block headers.  Stores
    run in a pool of goroutines; [order] is the order in which they come to an
    end.  A file is its name and its contents after decompression, [None] when it
    cannot be opened; a directory that does not exist is [None].

    Theorems: replaying the files of a store, in whatever order they are listed
    and however they are cut, gives the tree of the history at the last or at the
    target version; the commit info does not depend on the order of completion. *)
From stdpp Require Import prelude strings gmap sorting.
From Stdlib Require Import ZArith Lia.
From S2P Require Import Prelude OrdMap Codec Node Hash Snapshot Wal Tree TreeSpec MultiTree Pending Db Changeset RootMulti RootSpec StateSync.
Local Open Scope Z_scope.

(** ** Files *)

Abbreviation csFile := (bytes * option bytes)%type.

(** A directory that does not exist has no files. *)
Definition scanChangeSetFiles (dir : option (list csFile)) : res (list (bytes * Z)) :=
  match dir with
  | None => Ok []
  | Some files => SortFilesByFirstVerson files
  end.

(** [withChangeSetFile]: the callback runs on the contents of the file. *)
Definition withChangeSetFile {A} (files : list csFile) (fileName : bytes) (fn : bytes -> res A) : res A :=
  match list_find (fun f => f.1 = fileName) files with
  | Some (_, (_, Some data)) => fn data
  | _ => Err "file does not exist"
  end.

(** ** One store *)

(** [advanceTreeVersion]: no-op saves; the error of [SaveVersion] is reported. *)
Fixpoint advance_loop (fuel : nat) (t : VTree) (target : Z) : VTree * option string :=
  if vt_version t <? target then
    match fuel with
    | O => (t, None)
    | S fuel => if vtOverflow t then (t, Some "version overflows uint32"%string) else advance_loop fuel (vtSave t) target
    end
  else (t, None).

Definition advanceTreeVersion (t : VTree) (target : Z) : VTree * option string :=
  advance_loop (Z.to_nat (target - vt_version t)) t target.

Definition convertChangeSet (cs : ChangeSet) : ChangeSet := (fun p => mkKVPair (p_delete p) (p_key p) (p_value p)) <$> cs.

(** The callback on a version of a file: the tree, whether to go on, the error. *)
Definition verify_version (targetVersion : Z) (t : VTree) (version : Z) (cs : ChangeSet) : VTree * (bool * option string) :=
  if version <=? vt_version t then (t, (true, None))
  else
    match advanceTreeVersion t (version - 1) with
    | (t, Some e) => (t, (false, Some e))
    | (t, None) =>
        let t := vtApply t (convertChangeSet cs) in
        if vtOverflow t then (t, (false, Some "version overflows uint32"%string))
        else
          let t := vtSave t in
          if negb (vt_version t =? version) then (t, (false, Some "version don't match"%string))
          else (t, ((targetVersion =? 0) || (vt_version t <? targetVersion), None))
    end.

(** The loop over the files. *)
Fixpoint verify_files (files : list csFile) (targetVersion : Z) (filesWithVersion : list (bytes * Z)) (t : VTree) : res VTree :=
  match filesWithVersion with
  | [] => Ok t
  | (fileName, version) :: rest =>
      if (0 <? targetVersion) && (targetVersion <? version) then Ok t
      else
        let* t := withChangeSetFile files fileName (fun reader =>
          let* (r, err) := IterateChangeSets reader (verify_version targetVersion) t in
          match err with Some e => Err e | None => Ok (r.1 : VTree) end) in
        if (0 <? targetVersion) && (targetVersion <=? vt_version t) then Ok t
        else verify_files files targetVersion rest t
  end.

Section Verify.
Context (sha256 : bytes -> bytes).

(** [copy(hash[:], tree.RootHash())] into an array of 32 bytes. *)
Definition lastCommitID (t : VTree) : CommitID :=
  let h := rootHash sha256 (vt_root t) in
  mkCommitID (vt_version t) (take 32 h ++ repeat (z2b 0) (32 - length h)).

(** The info of the store with the snapshot that is saved when asked for;
    [None] for a store that does not exist before the target. *)
Definition verifyOneStore (t : VTree) (store : name) (dir : option (list csFile)) (saveSnapshot : bool) (targetVersion : Z)
  : res (option (StoreInfo * option Files)) :=
  let* filesWithVersion := scanChangeSetFiles dir in
  match filesWithVersion with
  | [] => Ok None
  | (_, initialVersion) :: _ =>
      if (0 <? targetVersion) && (targetVersion <? initialVersion) then Ok None
      else if MaxUint32 <=? i64 initialVersion then Err "version overflows uint32"
      else
        let t := vtSetInitialVersion t (u32 (i64 initialVersion)) in
        let* t := verify_files (default [] dir) targetVersion filesWithVersion t in
        let* t :=
          if 0 <? targetVersion then
            match advanceTreeVersion t targetVersion with (t, None) => Ok t | (_, Some e) => Err e end
          else Ok t in
        let* files :=
          if saveSnapshot
          then let* f := WriteSnapshotWithContext sha256 (fun _ => false) (vt_version t) (vt_root t) in Ok (Some f)
          else Ok None in
        Ok (Some (mkStoreInfo store (lastCommitID t), files))
  end.

(** ** All stores *)

Definition buildCommitInfo (storeInfos : list StoreInfo) (version : Z) : CommitInfo :=
  mkCommitInfo version (sort_named si_name storeInfos).

Definition convertCommitInfo (commitInfo : CommitInfo) : CommitInfo :=
  mkCommitInfo (ci_version commitInfo)
    ((fun s => mkStoreInfo (si_name s) (mkCommitID (cid_version (si_commit s)) (cid_hash (si_commit s)))) <$> ci_stores commitInfo).

(** The tree a store starts from: the one of the loaded snapshot, or a new one. *)
Definition start_tree (mtree : MultiTree) (store : name) : VTree :=
  match TreeByName mtree store with Some t => t | None => mkVTree 0 None end.

(** The tasks in the order of their completion; the first error ends the group. *)
Fixpoint verify_tasks (mtree : MultiTree) (dirs : name -> option (list csFile)) (saveSnapshot : bool) (targetVersion : Z)
  (order : list name) (infos : list StoreInfo) (saved : list (name * Files)) (latest : Z)
  : res (list StoreInfo * list (name * Files) * Z) :=
  match order with
  | [] => Ok (infos, saved, latest)
  | store :: order =>
      let* r := verifyOneStore (start_tree mtree store) store (dirs store) saveSnapshot targetVersion in
      match r with
      | None => verify_tasks mtree dirs saveSnapshot targetVersion order infos saved latest
      | Some (info, files) =>
          verify_tasks mtree dirs saveSnapshot targetVersion order (infos ++ [info])
            (saved ++ match files with Some f => [(store, f)] | None => [] end)
            (if latest <? cid_version (si_commit info) then cid_version (si_commit info) else latest)
      end
  end.

(** The replay of [VerifyChangeSetCmd] from a loaded snapshot or from an empty
    multi-tree: the commit info, and the snapshot directory when one is saved. *)
Definition verifyChangeSets (loadSnapshot : option Dir) (dirs : name -> option (list csFile)) (saveSnapshot : bool) (targetVersion : Z)
  (order : list name) : res (CommitInfo * option Dir) :=
  let* mtree := match loadSnapshot with Some d => LoadMultiTree sha256 d | None => Ok (NewEmptyMultiTree 0) end in
  let* (r, latest) := verify_tasks mtree dirs saveSnapshot targetVersion order [] [] 0 in
  let (infos, saved) := r : list StoreInfo * list (name * Files) in
  let commitInfo := buildCommitInfo infos latest in
  Ok (commitInfo, if saveSnapshot then Some (mkDir saved (convertCommitInfo commitInfo) 0) else None).

(** The end of the command: the result is compared with the verified file,
    saved, or printed.  [render] is the text of a commit info. *)
Context (render : CommitInfo -> bytes).
Inductive Outcome : Type := Checked | SavedResult (b : bytes) | Printed (b : bytes).

Definition reportVerified (check save : bool) (verified : option bytes) (commitInfo : CommitInfo) : res Outcome :=
  let buf := render commitInfo in
  if check then
    match verified with
    | None => Err "file does not exist"
    | Some bz => if decide (buf = bz) then Ok Checked else Err "verify result don't match"
    end
  else if save then Ok (SavedResult buf)
  else Ok (Printed buf).
End Verify.

(** ** Replaying a history *)

Lemma advance_ok t target : vt_version t <= target <= MaxUint32 -> 0 <= vt_version t ->
  advanceTreeVersion t target = (mkVTree target (vt_root t), None).
Proof.
  unfold advanceTreeVersion. intros H H0. remember (Z.to_nat (target - vt_version t)) as k eqn:Ek. revert t H H0 Ek.
  induction k as [|k IH]; intros [v r] H H0 Ek; cbn [vt_version vt_root advance_loop] in *.
  - replace target with v by lia. by rewrite Z.ltb_irrefl.
  - rewrite (proj2 (Z.ltb_lt v target)) by lia. unfold vtOverflow, vtSave. cbn [vt_version vt_root]. unfold MaxUint32 in *.
    rewrite (proj2 (Z.eqb_neq v _)) by lia. rewrite u32_small by lia. apply IH; cbn; lia.
Qed.

Lemma vtApply_read t cs : vtApply t (convertChangeSet (read_as <$> cs)) = vtApply t cs.
Proof.
  unfold vtApply, pure_apply, convertChangeSet. f_equal. generalize (vt_root t) as o. induction cs as [|p cs IH]; intros o; [done|].
  rewrite !fmap_cons. cbn [fold_left]. rewrite IH. f_equal. unfold pure_pair, read_as. cbn. by destruct p as [[] k [|]].
Qed.

Lemma IterateChangeSets_file {S} (fn : S -> Z -> ChangeSet -> S * (bool * option string)) s vs :
  Forall set_fits vs -> len (file_of vs) < 2 ^ 63 -> IterateChangeSets (file_of vs) fn s = Ok (visit true fn s 0 vs None).
Proof.
  intros Hvs Hl. pose proof (file_length vs Hvs). unfold IterateChangeSets. rewrite <- (app_nil_r (file_of vs)) at 2.
  by rewrite (iterate_file true fn [] "EOF" vs Hvs) by (done || lia).
Qed.

(** A history of one tree: [T v] is the tree at version [v], and [changes v] the
    change set that leads to it. *)
Record tree_history (T : Z -> VTree) (changes : Z -> ChangeSet) (a b : Z) : Prop := {
  th_range : 0 <= a <= b /\ b <= MaxUint32;
  th_version : forall v, a <= v <= b -> vt_version (T v) = v;
  th_step : forall v, a < v <= b -> T v = vtSave (vtApply (T (v - 1)) (changes v));
}.

(** Files by name with the versions in them; none is empty. *)
Abbreviation told_files := (list (bytes * list (Z * ChangeSet))).

Definition file_fits (vs : list (Z * ChangeSet)) : Prop := Forall set_fits vs /\ len (file_of vs) < 2 ^ 63.

(** A file with the first version in it, as the scan of the directory has it. *)
Definition with_first (f : bytes * list (Z * ChangeSet)) : bytes * Z := (f.1, from_option fst 0 (head f.2)).

Definition all_versions (fs : told_files) : list (Z * ChangeSet) := concat fs.*2.

Section Replay.
Context (T : Z -> VTree) (changes : Z -> ChangeSet) (a b : Z) (H : tree_history T changes a b).

(** Where nothing changes, only the version advances. *)
Lemma history_gap v w : a <= v <= w -> w <= b -> (forall x, v < x <= w -> changes x = []) -> T w = mkVTree w (vt_root (T v)).
Proof.
  intros Hv Hw Hc. destruct H as [Hr Hver Hs]. remember (Z.to_nat (w - v)) as k eqn:Ek. revert w Hv Hw Hc Ek.
  induction k as [|k IH]; intros w Hv Hw Hc Ek.
  - replace w with v by lia. rewrite <- (Hver v) at 2 by lia. by destruct (T v).
  - rewrite Hs, (Hc w), (IH (w - 1)) by (lia || (intros x Hx; apply Hc; lia)). unfold vtApply, vtSave, pure_apply. cbn.
    rewrite u32_small by (unfold MaxUint32 in *; lia). f_equal. lia.
Qed.

Lemma verify_version_ok target s v : a <= s < v -> v <= b -> (forall x, s < x < v -> changes x = []) ->
  verify_version target (T s) v (read_as <$> changes v) = (T v, ((target =? 0) || (v <? target), None)).
Proof.
  intros Hs Hv Hc. pose proof H as [Hr Hver Hst]. unfold verify_version. rewrite Hver by lia.
  rewrite (proj2 (Z.leb_gt v s)) by lia. unfold MaxUint32 in *. rewrite advance_ok by (rewrite Hver by lia; unfold MaxUint32; lia).
  rewrite vtApply_read. rewrite <- (history_gap s (v - 1)) by (lia || (intros x Hx; apply Hc; lia)).
  assert (vtOverflow (vtApply (T (v - 1)) (changes v)) = false) as ->.
  { unfold vtOverflow. cbn [vtApply vt_version]. rewrite Hver by lia. unfold MaxUint32. apply Z.eqb_neq. lia. }
  rewrite <- Hst by lia. rewrite Hver by lia. by rewrite Z.eqb_refl.
Qed.

(** Old versions are skipped. *)
Lemma verify_version_old target s v cs : a <= s <= b -> v <= s -> verify_version target (T s) v cs = (T s, (true, None)).
Proof. intros Hs Hv. unfold verify_version. rewrite (th_version _ _ _ _ H) by done. by rewrite (proj2 (Z.leb_le v s)). Qed.

(** The tree stands at [s] and the versions [R], in order, tell all that changes
    after it. *)
Record pending (s : Z) (R : list (Z * ChangeSet)) : Prop := {
  pd_range : a <= s <= b;
  pd_sorted : StronglySorted Z.lt R.*1;
  pd_told : forall v cs, (v, cs) ∈ R -> a < v <= b /\ cs = changes v;
  pd_gap : forall x, s < x <= b -> x ∉ R.*1 -> changes x = [];
}.

Lemma pending_next s v cs R : pending s ((v, cs) :: R) ->
  a < v <= b /\ cs = changes v /\ (forall x, s < x < v -> changes x = []) /\ pending (Z.max s v) R.
Proof.
  intros [Hr Hs Ht Hg]. destruct (Ht v cs) as [Hv Hc]; [by left|]. rewrite fmap_cons in Hs. cbn in Hs.
  apply StronglySorted_inv in Hs as [Hs Hf]. rewrite Forall_forall in Hf. split_and!; [lia|lia|done| |].
  - intros x Hx. apply Hg; [lia|]. rewrite fmap_cons, not_elem_of_cons. cbn. split; [lia|]. intros Hin. specialize (Hf x Hin). lia.
  - split; [lia|done| |].
    + intros w c Hw. apply Ht. by right.
    + intros x Hx Hn. apply Hg; [lia|]. rewrite fmap_cons, not_elem_of_cons. cbn. split; [lia|done].
Qed.

(** A target that a file may stop at: not inside a gap of the file. *)
Definition stops_at (target : Z) (vs : list (Z * ChangeSet)) : Prop :=
  (forall v, v ∈ vs.*1 -> v < target) \/ target ∈ vs.*1.

(** Where the replay of some versions leaves the tree. *)
Definition replayed (target s s' : Z) (vs rest : list (Z * ChangeSet)) : Prop :=
  (0 < target /\ s' = target /\ a <= s' <= b) \/
  (pending s' rest /\ s' ∈ s :: vs.*1 /\ s <= s' /\ Forall (fun v => v <= s') vs.*1 /\ (0 < target -> s' < target)).

Lemma visit_file target vs : forall rest s off, pending s (vs ++ rest) -> 0 <= target -> (0 < target -> s < target /\ stops_at target vs) ->
  exists s' off', visit true (verify_version target) (T s) off vs None = (T s', off', None) /\ replayed target s s' vs rest.
Proof.
  induction vs as [|[v cs] vs IH]; intros rest s off Hp H0 Htg.
  - exists s, off. split; [done|]. right. split_and!; [done|by left|lia|done|]. intros Ht. by apply Htg.
  - cbn [visit]. cbn [app] in Hp. pose proof (pd_range _ _ Hp) as Hr. pose proof (pd_sorted _ _ Hp) as Hsort.
    rewrite fmap_cons in Hsort. apply StronglySorted_inv in Hsort as [_ Hf]. rewrite Forall_forall in Hf. cbn in Hf.
    destruct (pending_next _ _ _ _ Hp) as (Hv & -> & Hgap & Hn).
    assert (forall s1, s1 = Z.max s v -> (0 < target -> s1 < target) -> 0 < target -> s1 < target /\ stops_at target vs) as Hnext.
    { intros s1 E1 Hlt Ht. split; [auto|]. destruct (Htg Ht) as [_ [Ha|Ha]].
      - left. intros w Hw. apply Ha. rewrite fmap_cons. by right.
      - rewrite fmap_cons, elem_of_cons in Ha. cbn in Ha. destruct Ha as [->|Ha]; [specialize (Hlt Ht); lia|by right]. }
    destruct (Z.le_gt_cases v s) as [Hle|Hgt].
    + rewrite verify_version_old by lia. replace (Z.max s v) with s in Hn by lia.
      destruct (IH rest s (off + len (WriteChangeSet v (changes v))) Hn H0) as (s' & off' & E & Hq); [apply Hnext; [lia|intros Ht; by apply Htg]|].
      exists s', off'. split; [exact E|]. destruct Hq as [Hq|(Q1 & Q2 & Q3 & Q4 & Q5)]; [by left|]. right. split_and!; [done| |done| |done].
      * rewrite fmap_cons. set_solver.
      * rewrite fmap_cons. constructor; [cbn; lia|done].
    + rewrite verify_version_ok by lia || done. replace (Z.max s v) with v in Hn by lia.
      destruct (decide (0 < target)) as [Ht|Ht]; [|replace target with 0 in * by lia].
      * destruct (Z.eqb_spec target 0); [lia|]. cbn [orb]. destruct (Z.ltb_spec v target) as [Hlt|Hge].
        -- destruct (IH rest v (off + len (WriteChangeSet v (changes v))) Hn H0) as (s' & off' & E & Hq); [apply Hnext; [lia|auto]|].
           exists s', off'. split; [exact E|]. destruct Hq as [Hq|(Q1 & Q2 & Q3 & Q4 & Q5)]; [by left|]. right.
           split_and!; [done|rewrite fmap_cons; by right|lia|rewrite fmap_cons; constructor; [cbn; lia|done]|done].
        -- exists v, (off + len (WriteChangeSet v (changes v))). split; [done|]. left. split; [done|]. split; [|lia].
           destruct (Htg Ht) as [_ [Ha|Ha]]; [specialize (Ha v); rewrite fmap_cons in Ha; specialize (Ha ltac:(by left)); lia|].
           rewrite fmap_cons, elem_of_cons in Ha. cbn in Ha. destruct Ha as [|Ha]; [done|].
           specialize (Hf target). rewrite fmap_app in Hf. specialize (Hf ltac:(apply elem_of_app; by left)). lia.
      * cbn [Z.eqb orb]. destruct (IH rest v (off + len (WriteChangeSet v (changes v))) Hn H0) as (s' & off' & E & Hq); [lia|].
        exists s', off'. split; [exact E|]. destruct Hq as [Hq|(Q1 & Q2 & Q3 & Q4 & Q5)]; [lia|]. right.
        split_and!; [done|rewrite fmap_cons; by right|lia|rewrite fmap_cons; constructor; [cbn; lia|done]|lia].
Qed.

(** ** Files of a store *)

Lemma verify_files_ok files target fs : forall s, 0 <= target ->
  Forall (fun f => f.2 <> [] /\ file_fits f.2 /\ exists i, list_find (fun x => x.1 = f.1) files = Some (i, (f.1, Some (file_of f.2)))) fs ->
  (0 < target -> s < target /\ Forall (fun f => (with_first f).2 <= target -> stops_at target f.2) fs) ->
  pending s (all_versions fs) ->
  exists s', verify_files files target (with_first <$> fs) (T s) = Ok (T s') /\
    ((0 < target /\ a <= s' <= b /\ s' <= target /\ forall x, s' < x <= target -> x <= b -> changes x = []) \/
     (target = 0 /\ s' ∈ s :: (all_versions fs).*1 /\ s <= s' /\ Forall (fun v => v <= s') (all_versions fs).*1)).
Proof.
  induction fs as [|[n vs] fs IH]; intros s H0 Hf Ht Hp.
  { exists s. split; [done|]. destruct (decide (0 < target)) as [Hpos|Hz].
    - left. destruct (Ht Hpos). split_and!; [done|apply Hp|apply Hp|lia|]. intros x Hx Hb. apply (pd_gap _ _ Hp); [lia|]. set_solver.
    - right. split_and!; [lia|by left|lia|done]. }
  apply Forall_cons in Hf as [(Hne & [Hfit Hlen] & i & Hfind) Hf]. cbn [fst snd] in *.
  destruct vs as [|[v cs] vs]; [done|]. set (F := (v, cs) :: vs) in *.
  change (all_versions ((n, F) :: fs)) with (F ++ all_versions fs) in *.
  rewrite fmap_cons. change (with_first (n, F)) with (n, v). cbn [verify_files].
  destruct ((0 <? target) && (target <? v)) eqn:Eb.
  { apply andb_true_iff in Eb as [Hpos%Z.ltb_lt Hv%Z.ltb_lt]. destruct (Ht Hpos) as [Hs _]. exists s. split; [done|]. left.
    split_and!; [done|apply Hp|apply Hp|lia|]. intros x Hx Hb. apply (pd_gap _ _ Hp); [lia|]. intros Hin.
    pose proof (pd_sorted _ _ Hp) as Hso. change (F ++ all_versions fs) with ((v, cs) :: vs ++ all_versions fs) in *.
    rewrite fmap_cons in Hso, Hin. apply StronglySorted_inv in Hso as [_ Hso]. rewrite Forall_forall in Hso. cbn in Hso, Hin.
    apply elem_of_cons in Hin as [->|Hin]; [lia|]. specialize (Hso x Hin). lia. }
  unfold withChangeSetFile. rewrite Hfind, IterateChangeSets_file by done.
  destruct (visit_file target F (all_versions fs) s 0 Hp H0) as (s1 & off & E & Hq).
  { intros Hpos. destruct (Ht Hpos) as [Hs Hst]. split; [done|]. apply Forall_cons in Hst as [Hst _]. apply Hst. cbn.
    rewrite (proj2 (Z.ltb_lt 0 target) Hpos) in Eb. cbn in Eb. lia. }
  rewrite E. cbn [res_bind fst]. destruct Hq as [(Hpos & -> & Hin)|(Q1 & Q2 & Q3 & Q4 & Q5)].
  - rewrite (th_version _ _ _ _ H) by lia. rewrite (proj2 (Z.ltb_lt 0 target)), Z.leb_refl by done. cbn [andb].
    exists target. split; [done|]. left. split_and!; [done|lia..|]. intros x Hx. lia.
  - rewrite (th_version _ _ _ _ H) by apply Q1.
    assert ((0 <? target) && (target <=? s1) = false) as ->.
    { destruct (Z.ltb_spec 0 target) as [Hpos|]; [|done]. cbn [andb]. apply Z.leb_gt. auto. }
    destruct (IH s1 H0 Hf) as (s' & E' & Hq); [|done|].
    { intros Hpos. split; [auto|]. destruct (Ht Hpos) as [_ Hst]. by apply Forall_cons in Hst as [_ Hst]. }
    exists s'. split; [exact E'|]. destruct Hq as [Hq|(Z0 & Z1 & Z2 & Z3)]; [by left|]. right.
    rewrite fmap_app. split_and!; [done| |lia|].
    + apply elem_of_cons in Z1 as [->|Z1]; [|right; apply elem_of_app; by right].
      apply elem_of_cons in Q2 as [->|Q2]; [by left|right; apply elem_of_app; by left].
    + apply Forall_app. split; [|done]. eapply Forall_impl; [exact Q4|]. cbn. lia.
Qed.
End Replay.

(** ** The directory of a store *)

(** What a file contributes to the scan. *)
Definition first_of (f : csFile) : option (bytes * Z) :=
  match f.2 ≫= fun d => Some (ReadFirstVersion d) with Some (Ok v) => Some (f.1, v) | _ => None end.

Definition readable (f : csFile) : Prop :=
  exists d, f.2 = Some d /\ (ReadFirstVersion d = Err "EOF" \/ exists v, ReadFirstVersion d = Ok v).

Lemma first_versions_ok files : Forall readable files -> first_versions files = Ok (omap first_of files).
Proof.
  induction 1 as [|[n d] files (x & E & Hx) _ IH]; [done|]. cbn in E. subst d. cbn [first_versions mbind option_bind].
  csimpl. unfold first_of at 1. cbn [snd mbind option_bind fst].
  destruct Hx as [->|[v ->]]; [by rewrite decide_True|]. by rewrite IH.
Qed.

Lemma ReadFirstVersion_file v cs vs : 0 <= v < 2 ^ 63 -> ReadFirstVersion (file_of ((v, cs) :: vs)) = Ok v.
Proof.
  intros Hv. unfold ReadFirstVersion. rewrite file_cons, WriteChangeSet_layout, <- !app_assoc.
  rewrite ReadFull_app by (unfold PutUint64; by rewrite len_le_encode). cbn [res_bind]. unfold PutUint64. rewrite le_decode_encode.
  change (8 * Z.of_nat 8) with 64. rewrite (u64_small v), Z.mod_small by lia. done.
Qed.

(** A directory with these files: listed in any order, maybe with empty files. *)
Definition lists (dir : list csFile) (fs : told_files) : Prop :=
  NoDup dir.*1 /\ exists empties : list bytes, dir ≡ₚ ((fun f => (f.1, Some (file_of f.2))) <$> fs) ++ ((fun n => (n, Some [])) <$> empties).

Lemma first_sorted (fs : told_files) : Forall (fun f => f.2 <> []) fs -> StronglySorted Z.lt (all_versions fs).*1 ->
  StronglySorted Z.lt (with_first <$> fs).*2.
Proof.
  induction 1 as [|[n vs] fs Hne Hf IH]; intros Hs; [constructor|]. destruct vs as [|[v cs] vs]; [done|].
  change (all_versions ((n, (v, cs) :: vs) :: fs)) with ((v, cs) :: vs ++ all_versions fs) in Hs. rewrite fmap_cons in Hs.
  apply StronglySorted_inv in Hs as [Hs Hlt]. rewrite !fmap_cons. rewrite fmap_app in Hs, Hlt.
  apply StronglySorted_app_1_r in Hs as Hs'. constructor; [by apply IH|].
  rewrite Forall_forall in Hlt. apply Forall_forall. intros w Hw. cbn. apply list_elem_of_fmap in Hw as ([n' w'] & -> & Hw).
  apply list_elem_of_fmap in Hw as ([m us] & Em & Hm). rewrite Forall_forall in Hf. specialize (Hf _ Hm). cbn in Hf.
  destruct us as [|[u cu] us]; [done|]. injection Em as -> ->. apply Hlt, elem_of_app. right. unfold all_versions.
  apply list_elem_of_fmap. exists (u, cu). split; [done|]. apply list_elem_of_In, in_concat. exists ((u, cu) :: us). split; [|by left].
  apply list_elem_of_In, list_elem_of_fmap. by exists (m, (u, cu) :: us).
Qed.

Lemma in_versions (fs : told_files) n vs x : (n, vs) ∈ fs -> x ∈ vs -> x ∈ all_versions fs.
Proof.
  intros Hf Hx. unfold all_versions. apply list_elem_of_In, in_concat. exists vs. split; [|by apply list_elem_of_In].
  apply list_elem_of_In, list_elem_of_fmap. by exists (n, vs).
Qed.

#[local] Instance version_le_total : Total version_le.
Proof. intros x y. unfold version_le. lia. Qed.
#[local] Instance version_le_trans : Transitive version_le.
Proof. intros x y z. unfold version_le. lia. Qed.

Lemma lt_sorted_le (l : list (bytes * Z)) : StronglySorted Z.lt l.*2 -> StronglySorted version_le l.
Proof.
  induction l as [|x l IH]; intros H; [constructor|]. rewrite fmap_cons in H. apply StronglySorted_inv in H as [H Hf].
  constructor; [auto|]. rewrite Forall_fmap in Hf. eapply Forall_impl; [exact Hf|]. unfold version_le. cbn. lia.
Qed.

(** Sorting by first version finds the one increasing order. *)
Lemma sort_by_version (l l' : list (bytes * Z)) : l' ≡ₚ l -> StronglySorted Z.lt l.*2 -> merge_sort version_le l' = l.
Proof.
  intros Hp Hs. apply (StronglySorted_unique_strong version_le).
  - intros x1 x2 H1 H2 L1 L2. unfold version_le in *. rewrite merge_sort_Permutation, Hp in H1.
    apply list_elem_of_lookup in H1 as [i H1]. apply list_elem_of_lookup in H2 as [j H2].
    assert (i = j) as ->; [|congruence].
    assert (l.*2 !! i = Some x1.2) as E1 by (by rewrite list_lookup_fmap, H1).
    assert (l.*2 !! j = Some x2.2) as E2 by (by rewrite list_lookup_fmap, H2).
    apply (NoDup_lookup l.*2 i j x1.2); [|done|rewrite E2; f_equal; lia].
    clear -Hs. induction Hs as [|z zs Hz IH Hf]; constructor; [|done]. intros Hin. rewrite Forall_forall in Hf. specialize (Hf _ Hin). lia.
  - apply (StronglySorted_merge_sort version_le); apply _.
  - by apply lt_sorted_le.
  - by rewrite merge_sort_Permutation.
Qed.

Lemma scan_ok dir fs : lists dir fs -> Forall (fun f => f.2 <> []) fs -> StronglySorted Z.lt (all_versions fs).*1 ->
  (forall v, v ∈ (all_versions fs).*1 -> 0 <= v < 2 ^ 63) -> scanChangeSetFiles (Some dir) = Ok (with_first <$> fs).
Proof.
  intros [_ [em Hp]] Hne Hs Hr. unfold scanChangeSetFiles, SortFilesByFirstVerson.
  assert (forall n vs, (n, vs) ∈ fs -> exists v, with_first (n, vs) = (n, v) /\ ReadFirstVersion (file_of vs) = Ok v) as Hfirst.
  { intros n vs Hin. rewrite Forall_forall in Hne. specialize (Hne _ Hin). cbn in Hne. destruct vs as [|[v cs] vs]; [done|].
    exists v. split; [done|]. apply ReadFirstVersion_file, Hr, list_elem_of_fmap. exists (v, cs). split; [done|].
    by apply (in_versions fs n ((v, cs) :: vs)); [|left]. }
  rewrite first_versions_ok; cbn [res_bind].
  - f_equal. apply sort_by_version; [|by apply first_sorted]. rewrite Hp, omap_app.
    assert (omap first_of ((fun n : bytes => (n, Some [])) <$> em) = []) as ->; [|rewrite app_nil_r].
    + clear. induction em as [|m em IH]; [done|]. rewrite fmap_cons. csimpl. apply IH.
    + clear -Hfirst. induction fs as [|[n vs] fs IH]; [done|]. destruct (Hfirst n vs) as (v & E1 & E2); [by left|].
      rewrite !fmap_cons. csimpl. unfold first_of at 1. cbn [snd fst mbind option_bind]. rewrite E2, E1. f_equiv. apply IH.
      intros m us Hm. apply Hfirst. by right.
  - rewrite Hp. apply Forall_app. split; apply Forall_fmap, Forall_forall.
    + intros [n vs] Hin. exists (file_of vs). split; [done|]. right. destruct (Hfirst n vs Hin) as (v & _ & E). by exists v.
    + intros n _. exists []. split; [done|]. by left.
Qed.

(** ** The result for a store *)

Definition first_version (fs : told_files) : Z := from_option fst 0 (head (all_versions fs)).

(** The tree of the loaded snapshot at version [s], or a new tree for a store that
    is empty before the first file. *)
Definition starts (T : Z -> VTree) (t : VTree) (s first : Z) : Prop :=
  (t = T s /\ 0 < s) \/ (t = mkVTree 0 None /\ s = first - 1 /\ vt_root (T s) = None).

(** The directory of a store tells the history of its tree after version [s], and
    a target is a version after [s] at which the files stop. *)
Record store_told (T : Z -> VTree) (changes : Z -> ChangeSet) (b : Z) (target s : Z) (t : VTree) (dir : list csFile) (fs : told_files) : Prop := {
  st_history : exists a, tree_history T changes a b /\ pending changes a b s (all_versions fs);
  st_bound : b < MaxUint32;
  st_lists : lists dir fs;
  st_files : fs <> [] /\ Forall (fun f => f.2 <> [] /\ file_fits f.2) fs;
  st_starts : starts T t s (first_version fs);
  st_target : 0 <= target <= b;
  st_stops : 0 < target -> s < target /\ first_version fs <= target /\ Forall (fun f => (with_first f).2 <= target -> stops_at target f.2) fs;
}.

(** The version a replay ends at: the target, or the last version of the files. *)
Definition end_version (target s : Z) (fs : told_files) : Z :=
  if 0 <? target then target else foldr Z.max s (all_versions fs).*1.

Lemma foldr_max_in s l x : x ∈ s :: l -> s <= x -> Forall (fun v => v <= x) l -> foldr Z.max s l = x.
Proof.
  intros Hin Hs Hf. assert (forall z, foldr Z.max s l <= z <-> s <= z /\ Forall (fun v => v <= z) l) as Hle.
  { intros z. clear. induction l as [|v l IH]; cbn; [by rewrite Forall_nil; intuition|]. rewrite Forall_cons, Z.max_lub_iff, IH. intuition. }
  apply Z.le_antisymm; [by apply Hle|]. pose proof (proj1 (Hle _) (Z.le_refl _)) as [H1 H2].
  apply elem_of_cons in Hin as [->|Hin]; [done|]. by rewrite Forall_forall in H2; apply H2.
Qed.

Lemma find_file (dir : list csFile) n d : NoDup dir.*1 -> (n, d) ∈ dir -> exists i, list_find (fun x => x.1 = n) dir = Some (i, (n, d)).
Proof.
  intros Hn Hin. destruct (list_find_elem_of (fun x => x.1 = n) dir (n, d) Hin eq_refl) as [[i [n' d']] E]. exists i. rewrite E. do 2 f_equal.
  apply list_find_Some in E as (E & E' & _). cbn in E'. subst n'. apply list_elem_of_lookup in Hin as [j Ej].
  assert (i = j) as ->; [|congruence]. apply (NoDup_lookup dir.*1 i j n); [done|by rewrite list_lookup_fmap, E|by rewrite list_lookup_fmap, Ej].
Qed.

Lemma starts_tree T changes a b t s fs : tree_history T changes a b -> a <= s <= b -> first_version fs <= b -> b < MaxUint32 ->
  0 < first_version fs -> starts T t s (first_version fs) -> vtSetInitialVersion t (u32 (i64 (first_version fs))) = T s.
Proof.
  intros H Hs Hf Hb H0 Hst. unfold MaxUint32 in *. unfold vtSetInitialVersion. destruct Hst as [[-> Hpos]|(-> & Es & Hr)].
  - rewrite (th_version _ _ _ _ H) by done. by rewrite (proj2 (Z.ltb_lt 0 s)).
  - cbn [vt_version vt_root Z.ltb Z.compare]. rewrite i64_small, u32_small by lia. rewrite (proj2 (Z.ltb_ge _ 1)) by lia.
    rewrite <- Es, <- Hr, <- (th_version _ _ _ _ H s) at 1 by done. by destruct (T s).
Qed.

(** What [verifyOneStore] answers for the tree [t] it arrives at. *)
Definition answer (sha256 : bytes -> bytes) (saveSnapshot : bool) (store : name) (t : VTree) : res (option (StoreInfo * option Files)) :=
  let* files :=
    if saveSnapshot
    then let* f := WriteSnapshotWithContext sha256 (fun _ => false) (vt_version t) (vt_root t) in Ok (Some f)
    else Ok None in
  Ok (Some (mkStoreInfo store (mkCommitID (vt_version t) (rootHash sha256 (vt_root t))), files)).

Lemma lastCommitID_hash sha256 t : (forall b, len (sha256 b) = 32) ->
  lastCommitID sha256 t = mkCommitID (vt_version t) (rootHash sha256 (vt_root t)).
Proof.
  intros Hl. unfold lastCommitID. assert (length (rootHash sha256 (vt_root t)) = 32%nat) as E.
  { apply Nat2Z.inj. by destruct (vt_root t) as [[]|]; apply Hl. }
  by rewrite E, Nat.sub_diag, app_nil_r, take_ge by lia.
Qed.

(** Replaying from the start to the end version. *)
Lemma replay_ok T changes a b target s dir fs : tree_history T changes a b -> pending changes a b s (all_versions fs) ->
  lists dir fs -> Forall (fun f => f.2 <> [] /\ file_fits f.2) fs -> 0 <= target <= b -> b < MaxUint32 ->
  (0 < target -> s < target /\ Forall (fun f => (with_first f).2 <= target -> stops_at target f.2) fs) ->
  (let* t := verify_files dir target (with_first <$> fs) (T s) in
   if 0 <? target then match advanceTreeVersion t target with (t, None) => Ok t | (_, Some e) => Err e end else Ok t) =
  Ok (T (end_version target s fs)).
Proof.
  intros H Hp [Hnd [em Hdir]] Hf Ht Hb Hs. pose proof (th_range _ _ _ _ H) as Hab.
  destruct (verify_files_ok T changes a b H dir target fs s) as (s' & E & Hq); [lia| |done|done|].
  { apply Forall_forall. intros [n vs] Hin. rewrite Forall_forall in Hf. destruct (Hf _ Hin) as [H1 H2]. split_and!; [done|done|].
    apply find_file; [done|]. rewrite Hdir. apply elem_of_app. left. apply list_elem_of_fmap. by exists (n, vs). }
  rewrite E. cbn [res_bind]. unfold end_version. destruct Hq as [(H0 & Hr & Hle & Hc)|(H0 & Hin & Hle & Hfa)].
  - rewrite (proj2 (Z.ltb_lt 0 target)) by done. rewrite advance_ok by (rewrite (th_version _ _ _ _ H) by lia; lia).
    rewrite (history_gap T changes a b H s' target) by (lia || (intros x Hx; apply Hc; lia)). done.
  - rewrite H0. cbn [Z.ltb Z.compare]. by rewrite (foldr_max_in s _ s').
Qed.

Lemma first_in (fs : told_files) : fs <> [] -> Forall (fun f => f.2 <> []) fs ->
  first_version fs ∈ (all_versions fs).*1 /\ exists n rest, with_first <$> fs = (n, first_version fs) :: rest.
Proof.
  intros Hne Hf. destruct fs as [|[n vs] fs]; [done|]. apply Forall_cons in Hf as [Hv _]. cbn in Hv. destruct vs as [|[v cs] vs]; [done|].
  change (first_version _) with v. split; [|by exists n, (with_first <$> fs)]. unfold all_versions. csimpl. by left.
Qed.

(** Replaying the files gives the tree of the history. *)
Lemma verify_store sha256 T changes b target s t dir fs saveSnapshot store :
  (forall x, len (sha256 x) = 32) -> store_told T changes b target s t dir fs ->
  verifyOneStore sha256 t store (Some dir) saveSnapshot target = answer sha256 saveSnapshot store (T (end_version target s fs)).
Proof.
  intros Hsha [(a & H & Hp) Hb Hl [Hne Hf] Hst Ht Hs]. pose proof (th_range _ _ _ _ H) as Hab. unfold MaxUint32 in Hb.
  assert (Forall (fun f : bytes * list (Z * ChangeSet) => f.2 <> []) fs) as Hf' by (eapply Forall_impl; [exact Hf|]; by intros ? []).
  assert (forall v, v ∈ (all_versions fs).*1 -> a < v <= b) as Hv.
  { intros v Hin. apply list_elem_of_fmap in Hin as ([v' cs] & -> & Hin). by destruct (pd_told _ _ _ _ _ Hp _ _ Hin). }
  destruct (first_in fs Hne Hf') as [Hfi (n & rest & Ef)]. pose proof (Hv _ Hfi) as Hfv.
  unfold verifyOneStore. rewrite (scan_ok dir fs Hl Hf') by (apply Hp || (intros v Hin; specialize (Hv v Hin); lia)).
  cbn [res_bind]. rewrite Ef. cbv iota beta. rewrite <- Ef.
  assert ((0 <? target) && (target <? first_version fs) = false) as ->.
  { destruct (Z.ltb_spec 0 target) as [H0|]; [|done]. cbn. apply Z.ltb_ge, Hs, H0. }
  rewrite (starts_tree T changes a b t s fs) by (done || lia || apply Hp).
  rewrite i64_small by lia. rewrite (proj2 (Z.leb_gt _ _)) by (unfold MaxUint32; lia).
  cbn [default from_option id].
  destruct (proj1 (res_bind_ok _ _ _) (replay_ok T changes a b target s dir fs H Hp Hl Hf Ht Hb ltac:(intros H0; by destruct (Hs H0) as (? & _ & ?))))
    as (t' & -> & E). cbn [res_bind]. rewrite E. cbn [res_bind]. by rewrite lastCommitID_hash.
Qed.

(** ** The command *)

(** When every store has an answer, the tasks collect the answers. *)
Lemma tasks_ok sha256 mtree dirs target r order : (forall n, n ∈ order ->
    verifyOneStore sha256 (start_tree mtree n) n (dirs n) false target = Ok ((fun i => (i, None)) <$> r n)) ->
  forall infos saved latest, verify_tasks sha256 mtree dirs false target order infos saved latest =
    Ok (infos ++ omap r order, saved, foldl (fun m i => Z.max m (cid_version (si_commit i))) latest (omap r order)).
Proof.
  induction order as [|n order IH]; intros Hr infos saved latest; cbn [verify_tasks]; [by csimpl; rewrite app_nil_r|].
  rewrite Hr by (by left). csimpl. assert (forall m, m ∈ order -> _) as Hr' by (intros m Hm; apply Hr; by right).
  destruct (r n) as [i|]; cbn [fmap option_fmap option_map res_bind]; rewrite (IH Hr'); [|done].
  rewrite <- app_assoc, app_nil_r. cbn [app foldl]. do 3 f_equal. destruct (Z.ltb_spec latest (cid_version (si_commit i))); lia.
Qed.

(** A store that the target does not reach: no directory, no change sets, or
    only later ones. *)
Definition unreached (target : Z) (dir : option (list csFile)) : Prop :=
  dir = None \/
  exists d fs, dir = Some d /\ lists d fs /\ Forall (fun f => f.2 <> []) fs /\ StronglySorted Z.lt (all_versions fs).*1 /\
    (forall v, v ∈ (all_versions fs).*1 -> target < v < 2 ^ 63).

Lemma verify_unreached sha256 t store dir save target : 0 < target -> unreached target dir ->
  verifyOneStore sha256 t store dir save target = Ok None.
Proof.
  intros H0 [->|(d & fs & -> & Hl & Hf & Hs & Hv)]; [done|]. unfold verifyOneStore.
  rewrite (scan_ok d fs Hl Hf Hs) by (intros v Hin; specialize (Hv v Hin); lia). cbn [res_bind].
  destruct fs as [|f fs]; [done|]. destruct (first_in (f :: fs) ltac:(done) Hf) as [Hin (n & rest & E)].
  rewrite E. specialize (Hv _ Hin). rewrite (proj2 (Z.ltb_lt 0 target)), (proj2 (Z.ltb_lt target _)) by lia. done.
Qed.

(** The stores of a directory of change sets against the state [mt]. *)
Definition state_told (mtree mt : MultiTree) (dirs : name -> option (list csFile)) (target : Z) (n : name) : Prop :=
  match TreeByName mt n with
  | None => unreached target (dirs n)
  | Some x => exists T changes b s dir fs, dirs n = Some dir /\ T target = x /\
                store_told T changes b target s (start_tree mtree n) dir fs
  end.

Definition info_of sha256 (mt : MultiTree) (n : name) : option StoreInfo :=
  (fun x => mkStoreInfo n (mkCommitID (vt_version x) (rootHash sha256 (vt_root x)))) <$> TreeByName mt n.

Lemma state_task sha256 mtree mt dirs target n : (forall x, len (sha256 x) = 32) -> 0 < target ->
  state_told mtree mt dirs target n ->
  verifyOneStore sha256 (start_tree mtree n) n (dirs n) false target = Ok ((fun i => (i, None)) <$> info_of sha256 mt n).
Proof.
  intros Hsha H0. unfold state_told, info_of. destruct (TreeByName mt n) as [x|].
  - intros (T & changes & b & s & dir & fs & -> & E & Hst). rewrite (verify_store sha256 T changes b target s _ dir fs) by done.
    unfold answer, end_version. rewrite (proj2 (Z.ltb_lt 0 target)) by done. by rewrite E.
  - intros Hu. by apply verify_unreached.
Qed.

Lemma infos_perm sha256 mt order : mt_wf mt -> NoDup order -> (forall n, TreeByName mt n <> None -> n ∈ order) ->
  omap (info_of sha256 mt) order ≡ₚ ci_stores (MultiTree.buildCommitInfo sha256 mt 0).
Proof.
  intros W Hn Hall. cbn. set (g := fun e => mkStoreInfo (nt_name e) (mkCommitID (vt_version (nt_tree e)) (rootHash sha256 (vt_root (nt_tree e))))).
  assert (NoDup (si_name <$> (g <$> trees mt))) as Hd.
  { rewrite <- list_fmap_compose. exact (strict_nodup _ (wf_sorted _ W)). }
  apply NoDup_Permutation; [|by apply NoDup_fmap_1 in Hd|].
  - clear Hall. induction Hn as [|n order Hx Hn IH]; [constructor|]. csimpl. unfold info_of at 1.
    destruct (TreeByName mt n) as [x|]; cbn [fmap option_fmap option_map]; [|done]. constructor; [|done].
    rewrite list_elem_of_omap. intros (m & Hm & E). unfold info_of in E. destruct (TreeByName mt m); [|done]. cbn in E. congruence.
  - intros i. rewrite list_elem_of_omap, list_elem_of_fmap. split.
    + intros (n & _ & E). unfold info_of in E. destruct (TreeByName mt n) as [x|] eqn:Ex; [|done]. injection E as <-.
      exists (mkNamed n x). split; [done|]. by apply TreeByName_elem.
    + intros ([n x] & -> & Hin). apply (TreeByName_elem _ _ _ W) in Hin. exists n. unfold info_of. rewrite Hin. split; [|done].
      apply Hall. by rewrite Hin.
Qed.

Lemma latest_target target l : l <> [] -> Forall (fun i => cid_version (si_commit i) = target) l -> 0 < target -> forall m, m <= target ->
  foldl (fun m i => Z.max m (cid_version (si_commit i))) m l = target.
Proof.
  intros Hne Hf H0. induction Hf as [|i l Hi Hf IH]; [done|]. intros m Hm. cbn. rewrite Hi.
  destruct l as [|j l]; [cbn; lia|]. apply IH; [done|lia].
Qed.

Lemma verify_state (sha256 : bytes -> bytes) (load : option Dir) (mtree mt : MultiTree)
  (dirs : name -> option (list csFile)) (target : Z) (order : list name)
  (Hsha : forall x, len (sha256 x) = 32) (Ht : 0 < target)
  (Hload : match load with Some d => LoadMultiTree sha256 d | None => Ok (NewEmptyMultiTree 0) end = Ok mtree)
  (W : mt_wf mt) (Hv : Forall (fun e => vt_version (nt_tree e) = target) (trees mt)) (Hne : trees mt <> [])
  (Hn : NoDup order) (Hall : forall n, TreeByName mt n <> None -> n ∈ order)
  (Htold : forall n, n ∈ order -> state_told mtree mt dirs target n) :
  verifyChangeSets sha256 load dirs false target order = Ok (MultiTree.buildCommitInfo sha256 mt target, None).
Proof.
  unfold verifyChangeSets. rewrite Hload. cbn [res_bind].
  rewrite (tasks_ok sha256 mtree dirs target (info_of sha256 mt)) by (intros n Hin; apply state_task; auto). cbn [res_bind app].
  pose proof (infos_perm sha256 mt order W Hn Hall) as Hp. unfold buildCommitInfo.
  change (MultiTree.buildCommitInfo sha256 mt target) with (mkCommitInfo target (ci_stores (MultiTree.buildCommitInfo sha256 mt 0))).
  do 3 f_equal.
  - apply latest_target; [| |done|lia].
    + intros E. rewrite E in Hp. apply Permutation_nil in Hp. cbn in Hp. by apply fmap_nil_inv in Hp.
    + rewrite Hp. cbn. apply Forall_fmap. exact Hv.
  - assert (si_name <$> ci_stores (MultiTree.buildCommitInfo sha256 mt 0) = names (trees mt)) as En by (cbn; by rewrite <- list_fmap_compose).
    rewrite (sort_named_perm si_name _ _ Hp).
    + apply sort_named_id. rewrite En. apply W.
    + rewrite Hp, En. apply strict_nodup, W.
Qed.


(** ** Samples *)

(** A store with changes at versions 1 and 2, in two files listed in the wrong
    order with an empty one between them. *)
Definition sample_changes (v : Z) : ChangeSet :=
  if v =? 1 then [mkKVPair false (str "k") (Some (str "x"))]
  else if v =? 2 then [mkKVPair false (str "k") (Some (str "y"))] else [].
Definition sample_T (v : Z) : VTree :=
  mkVTree v (if v <? 1 then None else if v <? 2 then Some (Leaf 1 (str "k") (Some (str "x"))) else Some (Leaf 2 (str "k") (Some (str "y")))).
Definition sample_files : told_files := [(str "a", [(1, sample_changes 1)]); (str "b", [(2, sample_changes 2)])].
Definition sample_csdir : list csFile :=
  [(str "b", Some (file_of [(2, sample_changes 2)])); (str "empty", Some []); (str "a", Some (file_of [(1, sample_changes 1)]))].

Lemma sample_tree_history : tree_history sample_T sample_changes 0 5.
Proof.
  split; [unfold MaxUint32; lia|done|]. intros v Hv.
  assert (v = 1 \/ v = 2 \/ v = 3 \/ v = 4 \/ v = 5) as [->|[->|[->|[->| ->]]]] by lia; vm_compute; reflexivity.
Qed.

Lemma sample_pending : pending sample_changes 0 5 0 (all_versions sample_files).
Proof.
  split; [lia|repeat constructor; lia| |].
  - intros v cs Hin. cbn in Hin. apply elem_of_cons in Hin as [[= -> ->]|Hin]; [by split; [lia|]|].
    apply list_elem_of_singleton in Hin as [= -> ->]. by split; [lia|].
  - intros x Hx Hn. unfold sample_changes. destruct (Z.eqb_spec x 1) as [->|]; [destruct Hn; by left|].
    destruct (Z.eqb_spec x 2) as [->|]; [destruct Hn; right; by left|done].
Qed.

Lemma sample_lists : lists sample_csdir sample_files.
Proof.
  split; [by apply (bool_decide_unpack _); vm_compute|]. exists [str "empty"].
  unfold sample_csdir, sample_files. cbn [fmap list_fmap map fst snd app].
  rewrite Permutation_cons_append. cbn [app]. rewrite Permutation_swap. apply Permutation_skip, Permutation_swap.
Qed.

Lemma sample_set_fits v : 1 <= v <= 2 -> file_fits [(v, sample_changes v)].
Proof.
  intros Hv. assert (v = 1 \/ v = 2) as [->| ->] by lia; (split; [|vm_compute; reflexivity]); repeat constructor; vm_compute; (reflexivity || discriminate).
Qed.

Lemma sample_told : store_told sample_T sample_changes 5 3 0 (mkVTree 0 None) sample_csdir sample_files.
Proof.
  split.
  - exists 0. split; [exact sample_tree_history|exact sample_pending].
  - unfold MaxUint32. lia.
  - exact sample_lists.
  - split; [done|]. repeat constructor; try done; apply sample_set_fits; lia.
  - right. done.
  - lia.
  - intros _. split_and!; [lia|by vm_compute|]. unfold sample_files.
    constructor; [|constructor; [|constructor]]; intros _; left; intros v Hv; cbn in Hv; apply list_elem_of_singleton in Hv as ->; lia.
Qed.

Definition sample_mt : MultiTree :=
  mkMulti 0 [mkNamed (str "bank") (sample_T 3)] (index_trees [mkNamed (str "bank") (sample_T 3)]) (mkCommitInfo 3 []) (mkCommitInfo 0 []).

Definition sample_dirs (n : name) : option (list csFile) := if decide (n = str "bank") then Some sample_csdir else None.


(** A target between two versions of one file is overshot: versions 5 and 8 with
    target 6 end at version 8. *)
Example target_in_gap_overshoots :
  (let* r := verifyOneStore digest32 (mkVTree 0 None) (str "bank")
     (Some [(str "a", Some (file_of [(5, sample_changes 1); (8, sample_changes 2)]))]) false 6 in
   Ok ((fun i => cid_version (si_commit i.1)) <$> r)) = Ok (Some 8).
Proof. vm_compute. reflexivity. Qed.
