(* ===== verification/StoreHistory.v ===== *)
(** The history of one store in the history of a database: how the tree of a
    store follows from the entries of the write-ahead log.

    The multi-tree applies the upgrades of an entry, then its change sets, and
    saves every tree.  Seen from one store, which no entry renames or deletes, this
    is the history of a single tree ([tree_history]): a tree that does not exist
    yet stands for an empty tree, the entry that adds it starts from there, and
    the change set of a version is the one the entry has for the store. *)
From stdpp Require Import prelude strings gmap sorting.
From Stdlib Require Import ZArith Lia.
From S2P Require Import Prelude OrdMap Codec Node Hash Snapshot Wal Tree TreeSpec MultiTree Pending Db DbDir Changeset RootMulti RootSpec StateSync ClientVerify.
Local Open Scope Z_scope.

(** ** One upgrade *)

Definition at_name (n : name) (ts : list NamedTree) : list NamedTree := filter (fun e => nt_name e = n) ts.

(** The upgrade has nothing to do with the store. *)
Definition other_store (n : name) (u : TreeNameUpgrade) : Prop := up_name u <> n /\ up_renameFrom u <> n.

Definition adds_store (n : name) (u : TreeNameUpgrade) : Prop := up_name u = n /\ up_delete u = false /\ up_renameFrom u = [].

Lemma at_name_app n a b : at_name n (a ++ b) = at_name n a ++ at_name n b.
Proof. apply filter_app. Qed.

Lemma at_name_other n e ts : nt_name e <> n -> at_name n (e :: ts) = at_name n ts.
Proof. intros H. unfold at_name. by rewrite filter_cons_False. Qed.

Lemma upgrade_other n v iv ts u ts' : other_store n u -> apply_upgrade v iv ts u = Ok ts' -> at_name n ts' ≡ₚ at_name n ts.
Proof.
  intros [Hn Hf]. unfold apply_upgrade. destruct (up_delete u).
  - destruct (index_of (up_name u) ts) as [i|] eqn:E; [|done]. intros <-%Ok_inj.
    destruct (index_of_split _ _ _ E) as (l1 & e & l2 & -> & <- & En). unfold at_name at 1. rewrite swap_delete_perm.
    change (at_name n (l1 ++ l2) ≡ₚ at_name n (l1 ++ e :: l2)). by rewrite !at_name_app, (at_name_other n e) by congruence.
  - destruct (negb _).
    + destruct (index_of (up_renameFrom u) ts) as [i|] eqn:E; [|done]. intros <-%Ok_inj.
      destruct (index_of_split _ _ _ E) as (l1 & e & l2 & -> & <- & En).
      rewrite alter_app_r_alt, Nat.sub_diag by lia. cbn [alter list_alter]. rewrite !at_name_app, !at_name_other by (cbn; congruence). done.
    + destruct (vtNew _) as [x| |]; cbn [res_bind]; intros [= <-]. by rewrite at_name_app, at_name_other, app_nil_r by done.
Qed.

Lemma upgrades_other n v iv us : forall ts ts', Forall (other_store n) us -> apply_upgrades v iv ts us = Ok ts' -> at_name n ts' ≡ₚ at_name n ts.
Proof.
  induction us as [|u us IH]; intros ts ts' F; cbn; [by intros [= ->]|]. apply Forall_cons in F as [Hu F].
  intros (ts1 & E1 & E2)%res_bind_ok. by rewrite (IH _ _ F E2), (upgrade_other _ _ _ _ _ _ Hu E1).
Qed.

(** The entry leaves the store alone, or adds it. *)
Definition keeps_store (n : name) (us : list TreeNameUpgrade) : Prop := Forall (other_store n) us.
Definition creates_store (n : name) (us : list TreeNameUpgrade) : Prop :=
  exists us1 u us2, us = us1 ++ u :: us2 /\ keeps_store n us1 /\ adds_store n u /\ keeps_store n us2.

Lemma apply_upgrades_app v iv us1 us2 : forall ts,
  apply_upgrades v iv ts (us1 ++ us2) = let* ts := apply_upgrades v iv ts us1 in apply_upgrades v iv ts us2.
Proof. induction us1 as [|u us1 IH]; intros ts; cbn; [done|]. destruct (apply_upgrade v iv ts u); cbn; auto. Qed.

Lemma upgrades_create n v iv us ts ts' x : creates_store n us -> vtNew (u32 (nextVersion v iv)) = Ok x ->
  apply_upgrades v iv ts us = Ok ts' -> at_name n ts' ≡ₚ at_name n ts ++ [mkNamed n x].
Proof.
  intros (us1 & u & us2 & -> & K1 & (Hn & Hd & Hr) & K2) Ex. rewrite apply_upgrades_app. intros (ts1 & E1 & E2)%res_bind_ok.
  cbn [apply_upgrades] in E2. apply res_bind_ok in E2 as (ts2 & E2 & E3). rewrite (upgrades_other _ _ _ _ _ _ K2 E3).
  unfold apply_upgrade in E2. rewrite Hd, Hr, Ex in E2. cbn in E2. injection E2 as <-.
  rewrite at_name_app, (upgrades_other _ _ _ _ _ _ K1 E1). rewrite Hn. unfold at_name at 2. by rewrite filter_cons_True.
Qed.

(** ** Lookup *)

Lemma TreeByName_at t n : mt_wf t -> TreeByName t n = nt_tree <$> head (at_name n (trees t)).
Proof.
  intros W. pose proof (strict_nodup _ (wf_sorted _ W)) as N. apply option_eq. intros x. rewrite TreeByName_elem by done. split.
  - intros Hin. apply list_elem_of_split in Hin as (l1 & l2 & E). rewrite E in *. unfold names in N. rewrite fmap_app, fmap_cons in N.
    assert (at_name n l1 = []) as E1.
    { apply filter_none. intros e He En. apply NoDup_app in N as (_ & N & _). destruct (N (nt_name e)); [by apply list_elem_of_fmap_2|].
      rewrite En. by left. }
    rewrite at_name_app, E1. cbn [app]. unfold at_name. by rewrite filter_cons_True.
  - destruct (at_name n (trees t)) as [|e l] eqn:E; [done|]. cbn. intros [= <-].
    assert (e ∈ at_name n (trees t)) as Hin by (rewrite E; by left). apply list_elem_of_filter in Hin as [<- Hin]. by destruct e.
Qed.

Lemma at_name_single t n : mt_wf t -> at_name n (trees t) = match TreeByName t n with Some x => [mkNamed n x] | None => [] end.
Proof.
  intros W. rewrite TreeByName_at by done. pose proof (strict_nodup _ (wf_sorted _ W)) as N.
  assert (NoDup (names (at_name n (trees t)))) as N' by (eapply sublist_NoDup; [exact N|apply fmap_sublist, sublist_filter]).
  assert (Forall (fun e => nt_name e = n) (at_name n (trees t))) as F by (apply Forall_forall; intros e He; by apply list_elem_of_filter in He as [? _]).
  destruct (at_name n (trees t)) as [|[m x] [|[m' x'] l]]; [done| |].
  - apply Forall_cons in F as [F _]. cbn in *. by rewrite F.
  - apply Forall_cons in F as [F1 F]. apply Forall_cons in F as [F2 _]. cbn in *. subst. apply NoDup_cons in N' as [N' _]. destruct N'. by left.
Qed.

(** ** One entry *)

Lemma ApplyUpgrades_trees t us t1 n ts : mt_wf t -> ApplyUpgrades t us = Ok t1 ->
  (forall r, apply_upgrades (MTVersion t) (initialVersion t) (trees t) us = Ok r -> at_name n r ≡ₚ ts) -> at_name n (trees t1) ≡ₚ ts.
Proof.
  intros W. unfold ApplyUpgrades. destruct us as [|u us]; [intros [= <-] H; by apply H|]. intros (r & E & E1)%res_bind_ok H.
  apply res_bind_ok in E1 as (m & _ & [= <-]). cbn [trees with_index with_trees]. rewrite <- (H r E). unfold at_name. by rewrite sort_by_name_perm.
Qed.

Lemma tree_of_at t n l : mt_wf t -> at_name n (trees t) ≡ₚ l -> TreeByName t n = nt_tree <$> head l.
Proof.
  intros W Hp. rewrite TreeByName_at by done. rewrite at_name_single in * by done. destruct (TreeByName t n).
  - by apply Permutation_singleton_l in Hp as ->.
  - by apply Permutation_nil_l in Hp as ->.
Qed.

Lemma ApplyUpgrades_keeps_store t us t1 n : mt_wf t -> ApplyUpgrades t us = Ok t1 -> keeps_store n us -> TreeByName t1 n = TreeByName t n.
Proof.
  intros W E K. rewrite (TreeByName_at t) by done. apply tree_of_at; [by eapply ApplyUpgrades_wf|].
  apply (ApplyUpgrades_trees t us); [done..|]. intros r Er. by apply (upgrades_other _ _ _ _ _ _ K Er).
Qed.

Lemma ApplyUpgrades_creates_store t us t1 n x : mt_wf t -> ApplyUpgrades t us = Ok t1 -> creates_store n us -> TreeByName t n = None ->
  vtNew (u32 (nextVersion (MTVersion t) (initialVersion t))) = Ok x -> TreeByName t1 n = Some x.
Proof.
  intros W E K Hn Hx. rewrite (tree_of_at t1 n [mkNamed n x]); [done|by eapply ApplyUpgrades_wf|].
  apply (ApplyUpgrades_trees t us); [done..|]. intros r Er. rewrite (upgrades_create _ _ _ _ _ _ _ K Hx Er).
  by rewrite at_name_single, Hn.
Qed.

Lemma TreeByName_fmap t t' n (f : VTree -> VTree) g : mt_wf t -> mt_wf t' ->
  trees t' = (fun e => mkNamed (nt_name e) (g (nt_name e) (nt_tree e))) <$> trees t -> (forall x, g n x = f x) ->
  TreeByName t' n = f <$> TreeByName t n.
Proof.
  intros W W' E Hg. rewrite !TreeByName_at, E by done. clear -Hg. induction (trees t) as [|e ts IH]; [done|]. rewrite fmap_cons.
  destruct (decide (nt_name e = n)) as [En|En].
  - unfold at_name. rewrite !filter_cons_True by done. cbn. by rewrite En, Hg.
  - by rewrite !at_name_other by done.
Qed.

Lemma ApplyChangeSets_store t css t' n : mt_wf t -> ApplyChangeSets t css = Ok t' ->
  TreeByName t' n = (fun x => vtApply x (flat css n)) <$> TreeByName t n.
Proof.
  intros W E. pose proof (ApplyChangeSets_known _ _ _ W E) as K. rewrite ApplyChangeSets_flat in E by done. injection E as <-.
  apply (TreeByName_fmap _ _ _ _ (fun m x => vtApply x (flat css m))); [done|by apply apply_flat_wf|done..].
Qed.

Lemma MTSaveVersion_store sha256 t b v t' n : mt_wf t -> MTSaveVersion sha256 t b = Ok (v, t') -> TreeByName t' n = vtSave <$> TreeByName t n.
Proof.
  intros W. unfold MTSaveVersion. destruct (existsb _ _); [done|]. intros [= _ <-].
  assert (forall t1, trees t1 = (fun e => mkNamed (nt_name e) (vtSave (nt_tree e))) <$> trees t -> treesByName t1 = treesByName t ->
    TreeByName t1 n = vtSave <$> TreeByName t n) as H.
  { intros t1 E1 E2. unfold TreeByName. rewrite E1, E2. destruct (treesByName t !! n) as [i|]; [|done]. cbn.
    rewrite list_lookup_fmap. by destruct (trees t !! i). }
  destruct b; by apply H.
Qed.

Lemma entry_flat n e : NoDup (ncs_name <$> we_changesets e) -> flat (we_changesets e) n = entry_changes n e.
Proof.
  unfold entry_changes. induction (we_changesets e) as [|c css IH]; intros N; [done|]. rewrite fmap_cons in N. apply NoDup_cons in N as [Hc N].
  rewrite flat_cons. cbn [list_find]. destruct (decide (ncs_name c = n)) as [En|En].
  - rewrite flat_absent by congruence. apply app_nil_r.
  - rewrite IH by done. destruct (list_find _ css) as [[i c']|]; done.
Qed.

(** The tree of a store, or the empty tree it stands for. *)
Definition store_tree (t : MultiTree) (n : name) (v : Z) : VTree := default (mkVTree v None) (TreeByName t n).

(** What an entry may do to a store in its history. *)
Definition stays (n : name) (t : MultiTree) (e : WALEntry) : Prop :=
  keeps_store n (we_upgrades e) \/ (creates_store n (we_upgrades e) /\ TreeByName t n = None).

Lemma store_step sha256 t e t' n v : mt_wf t -> live_entry sha256 t e = Ok t' -> NoDup (ncs_name <$> we_changesets e) ->
  nextVersion (MTVersion t) (initialVersion t) = v -> 1 <= v <= MaxUint32 -> stays n t e ->
  store_tree t' n v = vtSave (vtApply (store_tree t n (v - 1)) (entry_changes n e)).
Proof.
  intros W E N Hv Hr Hs. unfold MaxUint32 in Hr. unfold live_entry, applyWALEntry in E. apply res_bind_ok in E as (t2 & E & E3).
  apply res_bind_ok in E as (t1 & E1 & E2). apply res_bind_ok in E3 as ([v' t3] & E3 & [= <-]).
  pose proof (ApplyUpgrades_wf _ _ _ W E1) as W1. pose proof (ApplyChangeSets_wf _ _ _ W1 E2) as W2.
  unfold store_tree. rewrite (MTSaveVersion_store _ _ _ _ _ n W2 E3), (ApplyChangeSets_store _ _ _ n W1 E2), entry_flat by done.
  destruct Hs as [Hs|[Hs Hn]].
  - rewrite (ApplyUpgrades_keeps_store _ _ _ n W E1 Hs). destruct (TreeByName t n) as [x|] eqn:Ex; [done|]. cbn [fmap option_fmap option_map default from_option id].
    assert (entry_changes n e = []) as ->.
    { rewrite <- entry_flat by done. apply flat_absent. intros (c & -> & Hc)%list_elem_of_fmap.
      pose proof (ApplyChangeSets_known _ _ _ W1 E2) as K. rewrite Forall_forall in K. specialize (K c Hc).
      rewrite <- (ApplyUpgrades_keeps_store _ _ _ _ W E1 Hs), TreeByName_forest, forest_None in Ex by done. done. }
    unfold vtSave, vtApply, pure_apply. cbn. rewrite u32_small by lia. f_equal. lia.
  - rewrite (ApplyUpgrades_creates_store t (we_upgrades e) t1 n (mkVTree (v - 1) None)), Hn; [done|done..|].
    rewrite Hv, u32_small by lia. unfold vtNew, MaxUint32. destruct (Z.leb_spec v 1); [by replace v with 1 by lia|].
    by rewrite (proj2 (Z.leb_gt _ _)) by lia.
Qed.

(** ** All entries *)

Lemma entry_changes_wire n e : entry_changes n (wire e) = wire_pair <$> entry_changes n e.
Proof.
  unfold entry_changes, wire. cbn [we_changesets]. induction (we_changesets e) as [|c css IH]; [done|]. rewrite fmap_cons. cbn [list_find ncs_name].
  destruct (decide (ncs_name c = n)); [done|]. destruct (list_find _ css) as [[? ?]|], (list_find _ (_ <$> css)) as [[? ?]|]; exact IH.
Qed.

(** The version before the first entry of the log. *)
Definition base_of (iv : Z) : Z := if 1 <? iv then iv - 1 else 0.

Section History.
Context (sha256 : bytes -> bytes) (t0 : MultiTree) (es : list WALEntry).
#[local] Abbreviation a := (base_of (initialVersion t0)).

Definition state_at (k : nat) : MultiTree :=
  match run_entries (live_entry sha256) t0 (take k es) with Ok t => t | _ => t0 end.

(** The tree of the store at a version, and the change set that leads to it, as
    the log gives it back. *)
Definition hist_tree (n : name) (v : Z) : VTree := store_tree (state_at (Z.to_nat (v - a))) n v.
Definition hist_changes (n : name) (v : Z) : ChangeSet :=
  match es !! Z.to_nat (v - a - 1) with Some e => entry_changes n (wire e) | None => [] end.

(** A history in which the store is at most added. *)
Record store_hist (n : name) : Prop := {
  sh_live : exists t, Db.live sha256 t0 es t;
  sh_base : base_version (MTVersion t0) (initialVersion t0);
  sh_iv : 0 <= initialVersion t0;
  sh_bound : a + len es < MaxUint32;
  sh_wf : mt_wf t0;
  sh_start : forall x, TreeByName t0 n = Some x -> vt_version x = a;
  sh_names : Forall (fun e => NoDup (ncs_name <$> we_changesets e)) es;
  sh_stays : forall k e, es !! k = Some e -> stays n (state_at k) e;
}.

Context (n : name) (H : store_hist n).

Lemma a_range : 0 <= a /\ len es < 2 ^ 32 /\ initialVersion t0 < 2 ^ 32.
Proof.
  pose proof (sh_iv _ H). pose proof (sh_bound _ H) as Hb. pose proof (len_nonneg es). unfold base_of, MaxUint32 in *.
  destruct (Z.ltb_spec 1 (initialVersion t0)); lia.
Qed.

Lemma state_live k : Db.live sha256 t0 (take k es) (state_at k).
Proof.
  destruct (sh_live _ H) as [t Ht]. unfold state_at, Db.live in *. rewrite <- (take_drop k es), run_entries_app in Ht.
  apply res_bind_ok in Ht as (t1 & E & _). by rewrite E.
Qed.

Lemma state_step k e : es !! k = Some e -> live_entry sha256 (state_at k) e = Ok (state_at (S k)).
Proof.
  intros He. pose proof (state_live (S k)) as E. unfold Db.live in E. rewrite (take_S_r _ _ _ He), run_entries_app in E.
  rewrite (state_live k) in E. cbn [res_bind run_entries] in E. apply res_bind_ok in E as (t1 & -> & E1). exact E1.
Qed.

Lemma state_version k : (k <= length es)%nat ->
  initialVersion (state_at k) = initialVersion t0 /\ MTVersion (state_at k) = version_after (MTVersion t0) (initialVersion t0) (Z.of_nat k).
Proof.
  intros Hk. pose proof a_range as (_ & Hl & Hi). unfold len in *.
  apply (live_versions sha256 (take k es)); [apply H|lia| |lia|exact (state_live k)]. unfold len. rewrite length_take. lia.
Qed.

Lemma state_wf k : mt_wf (state_at k).
Proof. eapply live_wf; [apply H|exact (state_live k)]. Qed.

Lemma next_at k : (k < length es)%nat -> nextVersion (MTVersion (state_at k)) (initialVersion (state_at k)) = a + Z.of_nat k + 1.
Proof.
  intros Hk. destruct (lookup_lt_is_Some_2 es k Hk) as [e He]. destruct (live_version _ _ _ _ (state_step k e He)) as [_ <-].
  destruct (state_version (S k)) as [_ ->]; [lia|]. unfold version_after, base_of. destruct (Z.eqb_spec (Z.of_nat (S k)) 0); [lia|].
  destruct (1 <? initialVersion t0); lia.
Qed.

(** The trees of a store make a history. *)
Lemma store_history : tree_history (hist_tree n) (hist_changes n) a (a + len es).
Proof.
  pose proof a_range as (Ha & Hl & Hi). pose proof (sh_bound _ H) as Hb. pose proof (len_nonneg es).
  assert (forall v, a < v <= a + len es -> hist_tree n v = vtSave (vtApply (hist_tree n (v - 1)) (hist_changes n v))) as Hstep.
  { intros v Hv. unfold hist_tree, hist_changes, len in *. set (k := Z.to_nat (v - a - 1)).
    replace (Z.to_nat (v - a)) with (S k) by lia. replace (Z.to_nat (v - 1 - a)) with k by lia.
    destruct (lookup_lt_is_Some_2 es k) as [e He]; [lia|]. rewrite He, entry_changes_wire, vtApply_wire.
    apply (store_step sha256); [apply state_wf|by apply state_step| |rewrite next_at by lia; lia|lia|by apply (sh_stays _ H)].
    exact (Forall_lookup_1 _ _ _ _ (sh_names _ H) He). }
  split; [unfold MaxUint32 in *; lia| |exact Hstep].
  intros v Hv. remember (Z.to_nat (v - a)) as k eqn:Ek. revert v Hv Ek. induction k as [|k IH]; intros v Hv Ek.
  - replace v with a by lia. unfold hist_tree, store_tree. rewrite Z.sub_diag. change (Z.to_nat 0) with 0%nat.
    assert (state_at 0 = t0) as -> by done. pose proof (sh_start _ H) as Hs. destruct (TreeByName t0 n) as [x|]; [by apply Hs|done].
  - rewrite Hstep by lia. cbn [vtSave vtApply vt_version]. rewrite (IH (v - 1)) by lia. unfold MaxUint32 in *. rewrite u32_small; lia.
Qed.
End History.

(** ** Reading the changes of a store from the log *)

(** The callback on versions in order, up to the first error. *)
Fixpoint visit_all {S} (fn : S -> Z -> ChangeSet -> S * option string) (s : S) (vs : list (Z * ChangeSet)) : S * option string :=
  match vs with
  | [] => (s, None)
  | (v, cs) :: vs => match fn s v cs with (s, None) => visit_all fn s vs | r => r end
  end.

(** The versions of [[i, e)] with the change sets of a store. *)
Definition told (t0 : MultiTree) (es : list WALEntry) (n : name) (i e : Z) : list (Z * ChangeSet) :=
  (fun v => (v, hist_changes t0 es n v)) <$> seqZ i (e - i).

Lemma told_cons t0 es n i e : i < e -> told t0 es n i e = (i, hist_changes t0 es n i) :: told t0 es n (i + 1) e.
Proof. intros H. unfold told. rewrite seqZ_cons by lia. rewrite fmap_cons. do 3 f_equal; lia. Qed.

Lemma told_app t0 es n i j e : i <= j <= e -> told t0 es n i e = told t0 es n i j ++ told t0 es n j e.
Proof.
  intros H. unfold told. rewrite <- fmap_app. f_equal. replace (e - i) with ((j - i) + (e - j)) by lia. rewrite seqZ_app by lia.
  do 2 f_equal. lia.
Qed.

Lemma told_versions t0 es n i e : (told t0 es n i e).*1 = seqZ i (e - i).
Proof. unfold told. rewrite <- list_fmap_compose. apply list_fmap_id. Qed.

Lemma walVersion_base i iv : 0 <= iv < 2 ^ 32 -> 0 <= i < 2 ^ 62 -> walVersion i iv = base_of iv + i.
Proof.
  intros Hiv Hi. unfold walVersion, base_of. destruct (Z.ltb_spec 1 iv); [|rewrite i64_small; lia].
  rewrite (i64_small i), (i64_small (i + iv)), i64_small by lia. lia.
Qed.

Lemma walIndex_base i iv : 0 <= iv < 2 ^ 32 -> 1 <= i < 2 ^ 62 -> walIndex (base_of iv + i) iv = i.
Proof.
  intros Hiv Hi. unfold walIndex, base_of. destruct (Z.ltb_spec 1 iv); [|rewrite u64_small; lia].
  rewrite (u64_small (iv - 1 + i)), (u64_small iv), (u64_small (iv - 1 + i - iv)), u64_small by lia. lia.
Qed.

Section Traverse.
Context {L : Type} `{!Log L, !LogLaws L} (marshal : WALEntry -> res bytes) (unmarshal : bytes -> res WALEntry).
Hypothesis unmarshal_ok : forall e b, marshal e = Ok b -> unmarshal b = Ok (wire e).
Context (t0 : MultiTree) (es : list WALEntry) (bs : list bytes) (m : nat) (q : list (Z * WALEntry)) (l : L).
Hypotheses (Hh : holds marshal l q es bs m) (Hiv : 0 <= initialVersion t0 < 2 ^ 32) (Hlen : len es < 2 ^ 62).

Lemma traverse_entries_ok {S} (fn : S -> Z -> ChangeSet -> S * option string) n k : forall i s, base l < i -> i + Z.of_nat k <= Z.of_nat m + 1 ->
  traverse_entries unmarshal k l (initialVersion t0) i n fn s =
  visit_all fn s (told t0 es n (base_of (initialVersion t0) + i) (base_of (initialVersion t0) + i + Z.of_nat k)).
Proof.
  pose proof (h_range _ _ _ _ _ _ Hh) as [Hb Hm]. pose proof (law_base l) as Hb0.
  induction k as [|k IH]; intros i s Hi Hk; cbn [traverse_entries].
  - unfold told. by rewrite Z.add_0_r, Z.sub_diag.
  - destruct (holds_read marshal unmarshal unmarshal_ok l q es bs m i Hh) as (e & He & Hr); [lia|].
    cbn [ReadEntry log_source] in Hr. rewrite Hr. rewrite told_cons by lia. cbn [visit_all]. rewrite walVersion_base by lia.
    unfold hist_changes at 1. replace (base_of (initialVersion t0) + i - base_of (initialVersion t0) - 1) with (i - 1) by lia. rewrite He.
    destruct (fn s _ _) as [s' [e'|]]; [done|]. rewrite IH by lia. do 2 f_equal; lia.
Qed.

Lemma traverse_log_ok {S} (fn : S -> Z -> ChangeSet -> S * option string) n start stop s :
  base_of (initialVersion t0) + base l < start -> start < stop -> stop <= base_of (initialVersion t0) + Z.of_nat m + 1 ->
  traverse_log unmarshal l (initialVersion t0) n start (stop - 1) fn s = visit_all fn s (told t0 es n start stop).
Proof.
  intros Hs Hlt He. pose proof (h_range _ _ _ _ _ _ Hh) as [Hb Hm]. pose proof (law_base l) as Hb0. pose proof (holds_last _ _ _ _ _ _ Hh) as Hl.
  assert (0 <= base_of (initialVersion t0)) as H0 by (unfold base_of; destruct (1 <? initialVersion t0) eqn:E; lia).
  unfold traverse_log. rewrite law_first, Hl.
  assert (entries l <> []) as Hne.
  { intros E. pose proof (law_empty l E) as E0. rewrite law_last, E, E0 in Hl. unfold len in Hl. cbn in Hl. lia. }
  rewrite decide_False by done. rewrite (proj2 (Z.eqb_neq (base l + 1) 0)), (proj2 (Z.eqb_neq (Z.of_nat m) 0)) by lia. cbn [orb].
  rewrite !walVersion_base by lia.
  rewrite (proj2 (Z.eqb_neq (stop - 1) 0)), (proj2 (Z.ltb_ge _ (stop - 1))) by lia. cbn [orb].
  rewrite (proj2 (Z.ltb_ge start _)) by lia. rewrite (proj2 (Z.ltb_ge (stop - 1) start)) by lia.
  set (a := base_of (initialVersion t0)) in *.
  replace (walIndex start (initialVersion t0)) with (start - a) by (rewrite <- (walIndex_base (start - a) (initialVersion t0)) by lia; f_equal; lia).
  replace (walIndex (stop - 1) (initialVersion t0)) with (stop - 1 - a) by (rewrite <- (walIndex_base (stop - 1 - a) (initialVersion t0)) by lia; f_equal; lia).
  rewrite traverse_entries_ok by lia. fold a. do 2 f_equal; lia.
Qed.

(** *** First versions of stores *)

(** A recorded version is one before which the log has nothing for the store;
    without a record there was nothing up to [w]. *)
Definition first_ok (targets : list name) (w : Z) (r : gmap name Z) : Prop :=
  forall n, n ∈ targets -> forall x, base_of (initialVersion t0) + base l < x ->
    match r !! n with
    | Some v => base_of (initialVersion t0) + base l < v <= w /\ (x < v -> hist_changes t0 es n x = [])
    | None => x <= w -> hist_changes t0 es n x = []
    end.

Lemma record_stores_lookup (targets : list name) v e : forall (r : gmap name Z) n, n ∈ targets ->
  record_stores targets v r e !! n =
  match r !! n with Some x => Some x | None => if decide (n ∈ ncs_name <$> we_changesets e) then Some v else None end.
Proof.
  unfold record_stores. induction (we_changesets e) as [|c css IH]; intros r n Hn; cbn [fold_left].
  { destruct (r !! n); [done|]. by rewrite decide_False by apply not_elem_of_nil. }
  rewrite IH by done. rewrite fmap_cons. destruct (decide (ncs_name c = n)) as [Ec|Ec].
  - rewrite Ec, decide_True by done. destruct (r !! n) as [x|] eqn:Em; [by rewrite Em|]. rewrite lookup_insert_eq. by rewrite decide_True by (by left).
  - assert ((if decide (ncs_name c ∈ targets) then match r !! ncs_name c with Some _ => r | None => <[ncs_name c := v]> r end else r) !! n = r !! n) as ->.
    { destruct (decide (ncs_name c ∈ targets)); [|done]. destruct (r !! ncs_name c); [done|]. by rewrite lookup_insert_ne. }
    destruct (r !! n); [done|]. destruct (decide (n ∈ ncs_name <$> css)) as [Hin|Hin].
    + by rewrite decide_True by (by right).
    + rewrite decide_False; [done|]. rewrite not_elem_of_cons. done.
Qed.

Lemma entry_changes_absent n e : n ∉ ncs_name <$> we_changesets e -> entry_changes n e = [].
Proof.
  unfold entry_changes. induction (we_changesets e) as [|c css IH]; intros Hn; [done|]. rewrite fmap_cons, not_elem_of_cons in Hn. destruct Hn as [Hc Hn].
  cbn [list_find]. rewrite decide_False by done. specialize (IH Hn). by destruct (list_find _ css) as [[? ?]|].
Qed.

Lemma first_store_loop_ok targets k : forall i r, base l < i -> i + Z.of_nat k = Z.of_nat (length es) + 1 ->
  holds marshal l q es bs (length es) -> first_ok targets (base_of (initialVersion t0) + i - 1) r ->
  exists r' w, first_store_loop unmarshal k l (initialVersion t0) i targets r = Ok r' /\
    w <= base_of (initialVersion t0) + len es /\ first_ok targets w r'.
Proof.
  intros i r Hi Hk Hall. revert i r Hi Hk. pose proof (law_base l) as Hb0. induction k as [|k IH]; intros i r Hi Hk F; cbn [first_store_loop].
  { exists r, (base_of (initialVersion t0) + i - 1). unfold len. split_and!; [done|lia|done]. }
  destruct (decide (size r = length targets)) as [Hs|Hs].
  { exists r, (base_of (initialVersion t0) + i - 1). unfold len. split_and!; [done|lia|done]. }
  destruct (holds_read marshal unmarshal unmarshal_ok l q es bs (length es) i Hall) as (e & He & Hr); [lia|].
  cbn [ReadEntry log_source] in Hr. apply res_bind_ok in Hr as (b & -> & Eu). cbn [res_bind]. rewrite Eu. cbn [res_bind].
  unfold len in Hlen. rewrite walVersion_base by lia. apply IH; [lia|lia|]. set (a := base_of (initialVersion t0)) in *.
  intros n Hn x Hx. specialize (F n Hn x Hx). rewrite record_stores_lookup by done.
  assert (we_changesets (wire e) = (fun c => mkNamedCS (ncs_name c) (wire_pair <$> ncs_changeset c)) <$> we_changesets e) as Ew by done.
  destruct (r !! n) as [v|]; [destruct F; split; [lia|done]|].
  destruct (decide (n ∈ ncs_name <$> we_changesets (wire e))) as [Hin|Hin].
  - split; [lia|]. intros Hlt. apply F. lia.
  - intros Hle. destruct (Z.eq_dec x (a + i)) as [->|Hne]; [|apply F; lia]. unfold hist_changes.
    replace (a + i - base_of (initialVersion t0) - 1) with (i - 1) by (unfold a; lia). rewrite He. by apply entry_changes_absent.
Qed.
End Traverse.
