(* ===== verification/ClientDump.v ===== *)
(** Dumping change sets: [versiondb/client/dump.go], with [openChangeSetFile] of
    [versiondb/client/changeset.go].

    [dump] reads the versions of an iavl database and [dump-memiavl] the
    write-ahead log of a memiavl database; both write the change sets of a store
    to files of [chunkSize] versions each.  A chunk first goes to temporary files
    compressed with snappy, which [collect] joins into one output file, compressed
    with zlib when a level is given.  The two compressions are a parameter,
    [Codecs], of which only the round trips are used.

    The output directory is a map from paths to contents; a path is its
    components below the directory.

    Theorems: the ranges that a loop or [splitWorkLoad] makes partition the full
    range, for every positive size; the tasks of [dump] give the same files in
    every interleaving with the collection of the chunks; the files of
    [dump-memiavl], verified, give the commit info of the database they came
    from. *)
From stdpp Require Import prelude strings gmap pretty sorting.
From Stdlib Require Import ZArith Lia.
From S2P Require Import Prelude OrdMap Codec Node Hash Snapshot Wal Tree TreeSpec MultiTree Pending Db DbDir Changeset RootMulti RootSpec StateSync DbRewrite ClientVerify StoreHistory.
Local Open Scope Z_scope.

(** ** Compression *)

Class Codecs := {
  snappyEncode : bytes -> bytes;
  snappyDecode : bytes -> res bytes;
  zlibEncode : Z -> bytes -> res bytes;
  zlibDecode : bytes -> res bytes;
}.

(** What is compressed reads back; the levels 1 to 9 exist. *)
Class CodecLaws `{!Codecs} : Prop := {
  law_snappy : forall b, snappyDecode (snappyEncode b) = Ok b;
  law_zlib : forall level b c, zlibEncode level b = Ok c -> zlibDecode c = Ok b;
  law_levels : forall level b, 1 <= level <= 9 -> exists c, zlibEncode level b = Ok c;
}.

(** ** Files *)

Abbreviation Path := (list bytes).
Abbreviation FS := (gmap Path bytes).

(** The verb [%d]. *)
Definition fmt_d (z : Z) : bytes := str (pretty z).

Definition ZlibFileSuffix : bytes := str ".zz".
Definition SnappyFileSuffix : bytes := str ".snappy".

(** [tmp-%s-%d.snappy] and [block-%d], the latter in the directory of the store. *)
Definition tmp_file (store : name) (start : Z) : Path := [str "tmp-" ++ store ++ str "-" ++ fmt_d start ++ SnappyFileSuffix].
Definition block_file (beginVersion zlibLevel : Z) : bytes :=
  str "block-" ++ fmt_d beginVersion ++ (if 0 <? zlibLevel then ZlibFileSuffix else []).

Section Files.
Context `{!Codecs}.

(** The contents of an opened file, by its suffix. *)
Definition openChangeSetFile (fileName data : bytes) : res bytes :=
  if has_suffix ZlibFileSuffix fileName then zlibDecode data
  else if has_suffix SnappyFileSuffix fileName then snappyDecode data
  else Ok data.

(** The directory of a store as the reader of change sets sees it. *)
Definition store_dir (fs : FS) (store : name) : option (list csFile) :=
  let files := omap (fun x => match x.1 with
                              | [d; f] => if decide (d = store)
                                          then Some (f, match openChangeSetFile f x.2 with Ok b => Some b | _ => None end)
                                          else None
                              | _ => None
                              end) (map_to_list fs) in
  match files with [] => None | _ => Some files end.
End Files.

(** ** Ranges *)

(** A range [[Start, End)]. *)
Record Range : Type := mkRange { Start : Z; End_ : Z }.

(** [for i := i; i < stop; i += size] with the end of a round cut at [stop]; the
    sums wrap.  [None] when the fuel is used up, which for a positive size the
    length of the range prevents; for a size of zero the loop has no end. *)
Fixpoint for_ranges {S} (fuel : nat) (i size stop : Z) (body : Range -> S -> option (res S)) (s : S) : option (res S) :=
  if i <? stop then
    match fuel with
    | O => None
    | Datatypes.S fuel =>
        let end_ := i64 (i + size) in
        let end_ := if stop <? end_ then stop else end_ in
        match body (mkRange i end_) s with
        | Some (Ok s) => for_ranges fuel (i64 (i + size)) size stop body s
        | r => r
        end
    end
  else Some (Ok s).

Definition rounds (i stop : Z) : nat := Z.to_nat (stop - i).

(** Go's integer division panics on zero and truncates. *)
Definition splitWorkLoad (workers : Z) (full : Range) : option (res (list Range)) :=
  if workers =? 0 then Some (Panic "integer divide by zero")
  else
    let chunkSize := i64 (Z.quot (i64 (i64 (i64 (End_ full - Start full) + workers) - 1)) workers) in
    for_ranges (rounds (Start full) (End_ full)) (Start full) chunkSize (End_ full) (fun r chunks => Some (Ok (chunks ++ [r]))) [].

(** ** Chunks *)

Record chunk : Type := mkChunk { c_store : name; beginVersion : Z; taskFiles : list Path }.

Section Dump.
Context `{!Codecs}.

Definition os_open (fs : FS) (p : Path) : res bytes := of_option "file does not exist" (fs !! p).

(** [copyTmpFile] appends the decompressed file to the writer. *)
Definition copyTmpFile (fs : FS) (writer : bytes) (tmpFile : Path) : res bytes :=
  let* raw := os_open fs tmpFile in let* data := snappyDecode raw in Ok (writer ++ data).

Fixpoint copy_tasks (files : list Path) (fs : FS) (writer : bytes) : res (FS * bytes) :=
  match files with
  | [] => Ok (fs, writer)
  | f :: files => let* writer := copyTmpFile fs writer f in copy_tasks files (delete f fs) writer
  end.

(** [collect] after the tasks of the chunk. *)
Definition collect (zlibLevel : Z) (c : chunk) (fs : FS) : res FS :=
  let output := [c_store c; block_file (beginVersion c) zlibLevel] in
  let* (fs, data) := copy_tasks (taskFiles c) (<[output := []]> fs) [] in
  let* data := if 0 <? zlibLevel then zlibEncode zlibLevel data else Ok data in
  Ok (<[output := data]> fs).

Fixpoint collect_all (zlibLevel : Z) (chunks : list chunk) (fs : FS) : res FS :=
  match chunks with
  | [] => Ok fs
  | c :: chunks => let* fs := collect zlibLevel c fs in collect_all zlibLevel chunks fs
  end.

Definition convertMemiavlChangeSet (cs : ChangeSet) : ChangeSet := (fun p => mkKVPair (p_delete p) (p_key p) (p_value p)) <$> cs.

(** ** [dump-memiavl] *)

Section Memiavl.
Context {L : Type} `{!Log L} (marshal : WALEntry -> res bytes) (unmarshal : bytes -> res WALEntry).

(** The file is created first; what a failed traversal leaves in it is not
    looked at. *)
Definition dumpRangeBlocksMemiavl (sch : schedule) (d : @DB L) (store : name) (outputFile : Path) (blockRange : Range) (fs : FS)
  : option (res FS) :=
  let? (r, _) := traverseStateChanges marshal unmarshal sch d store (Start blockRange) (i64 (End_ blockRange - 1))
    (fun writer version changeSet => (writer ++ WriteChangeSet version (convertMemiavlChangeSet changeSet), None)) [] in
  let (writer, err) := r : bytes * option string in
  Some (match err with Some e => Err e | None => Ok (<[outputFile := snappyEncode writer]> fs) end).

(** A round of the loop over the chunks of a store. *)
Definition memiavl_chunk (sch : schedule) (d : @DB L) (store : name) (r : Range) (s : list chunk * FS) : option (res (list chunk * FS)) :=
  let taskFile := tmp_file store (Start r) in
  let? fs := dumpRangeBlocksMemiavl sch d store taskFile r s.2 in
  Some (let* fs := fs in Ok (s.1 ++ [mkChunk store (Start r) [taskFile]], fs)).

Definition memiavl_store (sch : schedule) (d : @DB L) (storeFirstVersions : gmap name Z) (startVersion endVersion chunkSize zlibLevel : Z)
  (store : name) (fs : FS) : option (res FS) :=
  match TreeByName (db_tree d) store with
  | None => Some (Ok fs)
  | Some _ =>
      let storeStart :=
        match storeFirstVersions !! store with
        | Some v => if startVersion <? v then v else startVersion
        | None => startVersion
        end in
      if endVersion <=? storeStart then Some (Ok fs)
      else
        let? r := for_ranges (rounds storeStart endVersion) storeStart chunkSize endVersion (memiavl_chunk sch d store) ([], fs) in
        Some (let* (chunks, fs) := r in collect_all zlibLevel chunks fs)
  end.

Fixpoint memiavl_stores (sch : schedule) (d : @DB L) (storeFirstVersions : gmap name Z) (startVersion endVersion chunkSize zlibLevel : Z)
  (stores : list name) (fs : FS) : option (res FS) :=
  match stores with
  | [] => Some (Ok fs)
  | store :: stores =>
      let? r := memiavl_store sch d storeFirstVersions startVersion endVersion chunkSize zlibLevel store fs in
      match r with
      | Ok fs => memiavl_stores sch d storeFirstVersions startVersion endVersion chunkSize zlibLevel stores fs
      | e => Some e
      end
  end.

(** The command on the loaded database; the output directory is [fs]. *)
Definition DumpMemiavlChangeSet (sch : schedule) (d : @DB L) (stores : list name) (startVersion endVersion chunkSize zlibLevel : Z) (fs : FS)
  : option (res FS) :=
  match stores with
  | [] => Some (Err "no stores")
  | _ =>
      match FirstVersion (db_wal d) (initialVersion (db_tree d)) with
      | Ok firstVersion =>
          if firstVersion =? 0 then Some (Ok fs)
          else
            let startVersion := if (startVersion =? 0) || (startVersion <? firstVersion) then firstVersion else startVersion in
            let endVersion := if endVersion =? 0 then i64 (MTVersion (db_tree d) + 1) else endVersion in
            if endVersion <=? startVersion then Some (Err "invalid version range")
            else
              let? (storeFirstVersions, _) := FirstStoreVersions marshal unmarshal sch d stores in
              match storeFirstVersions with
              | Ok m => memiavl_stores sch d m startVersion endVersion chunkSize zlibLevel stores fs
              | Err e => Some (Err e)
              | Panic e => Some (Panic e)
              end
      | Err e => Some (Err e)
      | Panic e => Some (Panic e)
      end
  end.
End Memiavl.
End Dump.

(** ** Ranges: what the loops do *)

(** Consecutive ranges of at most [size] versions that cover [[i, stop)]. *)
Inductive partition (size : Z) : Z -> Z -> list Range -> Prop :=
| partition_nil i stop : stop <= i -> partition size i stop []
| partition_last i stop : i < stop <= i + size -> partition size i stop [mkRange i stop]
| partition_cons i stop rs : i + size < stop -> partition size (i + size) stop rs -> partition size i stop (mkRange i (i + size) :: rs).

Fixpoint run_bodies {S} (body : Range -> S -> option (res S)) (rs : list Range) (s : S) : option (res S) :=
  match rs with
  | [] => Some (Ok s)
  | r :: rs => match body r s with Some (Ok s) => run_bodies body rs s | e => e end
  end.

(** Every positive size ends the loop, after the ranges of a partition. *)
Lemma for_ranges_ok {S} (body : Range -> S -> option (res S)) size stop : 0 < size -> stop + size < 2 ^ 63 -> forall fuel i,
  - 2 ^ 63 <= i -> (rounds i stop <= fuel)%nat ->
  exists rs, partition size i stop rs /\ forall s, for_ranges fuel i size stop body s = run_bodies body rs s.
Proof.
  intros Hs Hb. induction fuel as [|fuel IH]; intros i Hi Hf; unfold rounds in *; cbn [for_ranges].
  - exists []. split; [constructor; lia|]. intros s. by rewrite (proj2 (Z.ltb_ge i stop)) by lia.
  - destruct (Z.ltb_spec i stop) as [Hlt|Hge]; [|exists []; split; [constructor; lia|done]].
    rewrite i64_small by lia. destruct (IH (i + size)) as (rs & Hp & E); [lia..|].
    destruct (Z.ltb_spec stop (i + size)) as [Hcut|Hfit].
    + inversion Hp as [? ? Hn|? ? Hn|? ? ? Hn]; subst; [|lia..]. exists [mkRange i stop]. split; [constructor; lia|]. intros s. cbn.
      destruct (body (mkRange i stop) s) as [[]|]; [apply E|done..].
    + destruct (Z.eq_dec (i + size) stop) as [Heq|Hne].
      * inversion Hp as [? ? Hn|? ? Hn|? ? ? Hn]; subst; [|lia..]. exists [mkRange i (i + size)]. split; [constructor; lia|]. intros s. cbn.
        destruct (body _ s) as [[]|]; [apply E|done..].
      * exists (mkRange i (i + size) :: rs). split; [constructor; [lia|done]|]. intros s. cbn. destruct (body _ s) as [[]|]; [apply E|done..].
Qed.

Lemma partition_count size i stop rs : 0 < size -> partition size i stop rs -> rs <> [] -> (len rs - 1) * size < stop - i.
Proof.
  intros Hs Hp. induction Hp as [|i stop|i stop rs Hi Hp IH]; intros Hne; [done|unfold len; cbn [length]; lia|].
  rewrite len_cons. destruct rs as [|r rs]; [unfold len; cbn [length]; lia|]. specialize (IH ltac:(done)). lia.
Qed.

Lemma run_append (rs acc : list Range) : run_bodies (fun r chunks => Some (Ok (chunks ++ [r]))) rs acc = Some (Ok (acc ++ rs)).
Proof. revert acc. induction rs as [|r rs IH]; intros acc; cbn; [by rewrite app_nil_r|]. by rewrite IH, <- app_assoc. Qed.

Lemma split_work_load_ok (workers : Z) (full : Range) (Hw : 0 < workers) (Hs : 0 <= Start full <= End_ full)
  (Hb : 2 * End_ full + workers < 2 ^ 63) :
  exists rs, splitWorkLoad workers full = Some (Ok rs) /\
    partition ((End_ full - Start full + workers - 1) / workers) (Start full) (End_ full) rs /\ len rs <= workers.
Proof.
  destruct full as [a b]. cbn [Start End_] in *. unfold splitWorkLoad. cbn [Start End_]. rewrite (proj2 (Z.eqb_neq workers 0)) by lia.
  assert (0 <= (b - a + workers - 1) / workers <= b - a + workers - 1) as Hq
    by (split; [apply Z.div_pos; lia|apply Z.div_le_upper_bound; nia]).
  rewrite (i64_small (b - a)), (i64_small (b - a + workers)), (i64_small (b - a + workers - 1)), Z.quot_div_nonneg, i64_small by lia.
  destruct (Z.eq_dec a b) as [->|Hne].
  - exists []. split; [|split; [constructor; lia|unfold len; cbn [length]; lia]]. unfold rounds. rewrite Z.sub_diag. change (Z.to_nat 0) with 0%nat. cbn [for_ranges]. by rewrite Z.ltb_irrefl.
  - assert (b - a <= (b - a + workers - 1) / workers * workers) as Hc.
    { pose proof (Z.div_mod (b - a + workers - 1) workers ltac:(lia)). pose proof (Z.mod_pos_bound (b - a + workers - 1) workers Hw). nia. }
    set (size := (b - a + workers - 1) / workers) in *. assert (0 < size) as H0 by nia.
    destruct (for_ranges_ok (fun r chunks => Some (Ok (chunks ++ [r]))) size b H0 ltac:(unfold size; nia) (rounds a b) a) as (rs & Hp & E); [lia..|].
    exists rs. split; [by rewrite E, run_append|]. split; [done|].
    destruct rs as [|r rs]; [inversion Hp; lia|]. pose proof (partition_count _ _ _ _ H0 Hp ltac:(done)). nia.
Qed.

(** C38: [splitWorkLoad] ends for every positive number of workers, and the
    ranges it returns are consecutive, cover exactly the full range, have at most
    [ceil(length / workers)] versions each, and are at most as many as the
    workers. *)
Theorem split_work_load_partitions (workers : Z) (full : Range) (Hw : 0 < workers) (Hs : 0 <= Start full <= End_ full)
  (Hb : 2 * End_ full + workers < 2 ^ 63) :
  exists rs, splitWorkLoad workers full = Some (Ok rs) /\
    partition ((End_ full - Start full + workers - 1) / workers) (Start full) (End_ full) rs /\ len rs <= workers.
Proof. by apply split_work_load_ok. Qed.

(** ** Names of files *)

Lemma str_inj a b : str a = str b -> a = b.
Proof. intros H. apply (f_equal String.string_of_list_byte) in H. unfold str in H. by rewrite !String.string_of_list_byte_of_string in H. Qed.

Lemma fmt_d_inj a b : fmt_d a = fmt_d b -> a = b.
Proof. intros H%str_inj. by apply (inj pretty) in H. Qed.

Lemma pretty_go_app x : forall s, exists p, str (pretty_N_go x s) = p ++ str s.
Proof.
  induction (N.lt_wf_0 x) as [x _ IH]. intros s. destruct (decide (x = 0)%N) as [->|Hx]; [by exists []|].
  rewrite pretty_N_go_step by lia. destruct (IH (x `div` 10)%N ltac:(apply N.div_lt; lia) (String (pretty_N_char (x `mod` 10)) s)) as [p ->].
  exists (p ++ str (String (pretty_N_char (x `mod` 10)) "")). by rewrite <- app_assoc.
Qed.

Lemma pretty_char_digit x : is_digit (Ascii.byte_of_ascii (pretty_N_char x)) = true.
Proof. unfold pretty_N_char. destruct x as [|p]; [done|]. do 4 (try destruct p as [p|p|]); done. Qed.

(** A number ends in a digit. *)
Lemma fmt_d_last v : 0 <= v -> exists s c, fmt_d v = s ++ [c] /\ is_digit c = true.
Proof.
  intros Hv. unfold fmt_d, pretty, pretty_Z. destruct v as [|p|p]; [exists [], (z2b 48); done| |lia]. unfold pretty_positive, pretty, pretty_N.
  rewrite decide_False by done. rewrite pretty_N_go_step by lia.
  destruct (pretty_go_app (N.pos p `div` 10) (String (pretty_N_char (N.pos p `mod` 10)) "")%N) as [s ->].
  exists s, (Ascii.byte_of_ascii (pretty_N_char (N.pos p `mod` 10)))%N. split; [done|apply pretty_char_digit].
Qed.

Lemma has_suffix_last suf s c d : last suf = Some d -> c <> d -> has_suffix suf (s ++ [c]) = false.
Proof.
  intros Hl Hne. unfold has_suffix. rewrite bool_decide_eq_false_2; [done|]. intros E. apply (f_equal last) in E. rewrite Hl in E.
  destruct (decide (length suf = 0)%nat) as [E0|E0]; [by apply nil_length_inv in E0 as ->|].
  assert (last (drop (length (s ++ [c]) - length suf) (s ++ [c])) = Some c) as E1; [|congruence].
  rewrite length_app. cbn [length]. rewrite drop_app_le by lia. apply last_snoc.
Qed.

Lemma has_suffix_app s suf : has_suffix suf (s ++ suf) = true.
Proof.
  unfold has_suffix. rewrite length_app, Nat.add_sub, drop_app_length, bool_decide_eq_true_2 by done. apply Nat.leb_le. lia.
Qed.

Section Collect.
Context `{!Codecs, !CodecLaws}.

(** The output of a chunk reads back as what was written. *)
Lemma open_block v level data : 0 <= v -> level <= 9 ->
  exists raw, (if 0 <? level then zlibEncode level data else Ok data) = Ok raw /\ openChangeSetFile (block_file v level) raw = Ok data.
Proof.
  intros Hv Hl. unfold openChangeSetFile, block_file. destruct (Z.ltb_spec 0 level).
  - destruct (law_levels level data) as [raw E]; [lia|]. exists raw. split; [done|]. rewrite app_assoc, has_suffix_app. by apply (law_zlib level).
  - exists data. split; [done|]. rewrite app_nil_r. destruct (fmt_d_last v Hv) as (s & c & -> & Hc). rewrite app_assoc.
    assert (c <> z2b 122 /\ c <> z2b 121) as [Hz Hy] by (split; intros ->; discriminate Hc).
    by rewrite (has_suffix_last ZlibFileSuffix _ _ (z2b 122)), (has_suffix_last SnappyFileSuffix _ _ (z2b 121)) by done.
Qed.

Lemma copy_tasks_ok files ds : forall fs w, Forall2 (fun f d => fs !! f = Some (snappyEncode d)) files ds -> NoDup files ->
  exists fs', copy_tasks files fs w = Ok (fs', w ++ concat ds) /\ forall p, fs' !! p = if decide (p ∈ files) then None else fs !! p.
Proof.
  revert ds. induction files as [|f files IH]; intros ds fs w F N.
  - apply Forall2_nil_inv_l in F as ->. exists fs. cbn. rewrite app_nil_r. split; [done|]. intros p. rewrite decide_False; [done|]. apply not_elem_of_nil.
  - apply Forall2_cons_inv_l in F as (d & ds' & Hd & F & ->). apply NoDup_cons in N as [Hf N].
    destruct (IH ds' (delete f fs) (w ++ d)) as (fs' & E & Hp); [|done|].
    { clear -F Hf. induction F as [|g e files ds Hg F IH]; constructor; [|apply IH; set_solver].
      rewrite lookup_delete_ne; [done|]. intros ->. apply Hf. by left. }
    exists fs'. split.
    + cbn. unfold copyTmpFile, os_open. rewrite Hd. cbn. rewrite law_snappy. cbn. by rewrite E, <- app_assoc.
    + intros p. rewrite Hp. destruct (decide (p = f)) as [->|Hne].
      * rewrite lookup_delete_eq, (decide_True (P := f ∈ f :: files)) by (by left). by destruct (decide _).
      * rewrite lookup_delete_ne by done. destruct (decide (p ∈ files)) as [Hin|Hin].
        -- by rewrite decide_True by (by right).
        -- by rewrite decide_False by (rewrite not_elem_of_cons; done).
Qed.

Definition output (level : Z) (c : chunk) : Path := [c_store c; block_file (beginVersion c) level].

Lemma collect_chunk_ok level c fs ds : Forall2 (fun f d => fs !! f = Some (snappyEncode d)) (taskFiles c) ds -> NoDup (taskFiles c) ->
  output level c ∉ taskFiles c -> 0 <= beginVersion c -> level <= 9 ->
  exists fs' raw, collect level c fs = Ok fs' /\ fs' !! output level c = Some raw /\
    openChangeSetFile (block_file (beginVersion c) level) raw = Ok (concat ds) /\
    forall p, p <> output level c -> fs' !! p = if decide (p ∈ taskFiles c) then None else fs !! p.
Proof.
  intros F N Ho Hv Hl. unfold collect. fold (output level c).
  destruct (copy_tasks_ok (taskFiles c) ds (<[output level c := []]> fs) []) as (fs1 & E & Hp); [|done|].
  { eapply Forall2_impl; [|intros f d Hfd; exact Hfd]. clear -F Ho. induction F as [|f d files ds Hf F IH]; constructor; [|apply IH; set_solver].
    rewrite lookup_insert_ne; [done|]. intros E. apply Ho. rewrite E. by left. }
  rewrite E. cbn [res_bind app]. destruct (open_block (beginVersion c) level (concat ds) Hv Hl) as (raw & Er & Eo).
  exists (<[output level c := raw]> fs1), raw. rewrite Er. split_and!; [done|apply lookup_insert_eq|done|].
  intros p Hne. rewrite lookup_insert_ne, Hp by done. destruct (decide _); [done|]. by rewrite lookup_insert_ne.
Qed.

(** Chunks with the contents of their temporary files. *)
Definition chunk_ready (fs : FS) (x : chunk * list bytes) : Prop :=
  Forall2 (fun f d => fs !! f = Some (snappyEncode d)) (taskFiles x.1) x.2.

Definition all_tasks (xs : list (chunk * list bytes)) : list Path := concat (taskFiles <$> xs.*1).

(** Temporary files have a path of one component, outputs of two. *)
Definition temporary (p : Path) : Prop := length p = 1%nat.

Lemma output_not_temporary level c : ~ temporary (output level c).
Proof. done. Qed.

Record collected (level : Z) (xs : list (chunk * list bytes)) (fs fs' : FS) : Prop := {
  cl_out : forall c ds, (c, ds) ∈ xs -> exists raw, fs' !! output level c = Some raw /\
    openChangeSetFile (block_file (beginVersion c) level) raw = Ok (concat ds);
  cl_rest : forall p, p ∉ output level <$> xs.*1 -> fs' !! p = if decide (p ∈ all_tasks xs) then None else fs !! p;
}.

Lemma collect_all_ok level xs : forall fs, level <= 9 -> Forall (chunk_ready fs) xs -> NoDup (all_tasks xs) -> Forall temporary (all_tasks xs) ->
  NoDup (output level <$> xs.*1) -> Forall (fun x => 0 <= beginVersion x.1) xs ->
  exists fs', collect_all level xs.*1 fs = Ok fs' /\ collected level xs fs fs'.
Proof.
  induction xs as [|[c ds] xs IH]; intros fs Hl R N T O B.
  { exists fs. split; [done|]. split; [by intros ? ? ?%elem_of_nil|]. intros p _. by rewrite decide_False by apply not_elem_of_nil. }
  apply Forall_cons in R as [Rc R]. apply Forall_cons in B as [Bc B]. unfold all_tasks in N, T. rewrite !fmap_cons in *. cbn [fst concat] in N, T.
  apply NoDup_app in N as (Nc & Nd & N). apply Forall_app in T as [Tc T]. apply NoDup_cons in O as [Oc O]. cbn [fst] in *.
  assert (forall c' p, temporary p -> p <> output level c') as Hout by (by intros c' p Hp ->).
  destruct (collect_chunk_ok level c fs ds) as (fs1 & raw & E1 & Eo & Er & Hp1); [done..| |done|done|].
  { intros Hin. rewrite Forall_forall in Tc. by apply (Hout c _ (Tc _ Hin)). }
  destruct (IH fs1) as (fs' & E & C); [done| |done..|].
  { rewrite Forall_forall in R |- *. intros [c' ds'] Hin. specialize (R _ Hin). unfold chunk_ready in *. cbn [fst snd] in *.
    assert (Forall (fun f => temporary f /\ f ∉ taskFiles c) (taskFiles c')) as Ff.
    { apply Forall_forall. intros f Hf. assert (f ∈ all_tasks xs) as Hall.
      { apply list_elem_of_In, in_concat. exists (taskFiles c'). split; [|by apply list_elem_of_In].
        apply list_elem_of_In, list_elem_of_fmap. exists c'. split; [done|]. apply list_elem_of_fmap. by exists (c', ds'). }
      rewrite Forall_forall in T. split; [by apply T|]. intros Hc. by apply (Nd f Hc). }
    clear -R Ff Hp1 Hout. induction R as [|f d files ds Hf R IHr]; constructor; apply Forall_cons in Ff as [[F1 F2] Ff]; [|by apply IHr].
    rewrite Hp1 by (by apply Hout). by rewrite decide_False. }
  exists fs'. split; [cbn; by rewrite E1|]. destruct C as [C1 C2]. split.
  - intros c' ds' [[= -> ->]|Hin]%elem_of_cons; [|by apply C1]. exists raw. split; [|done].
    rewrite C2 by done. rewrite decide_False; [done|]. intros Hin. rewrite Forall_forall in T. by apply (Hout c _ (T _ Hin)).
  - intros p [Hp Hps]%not_elem_of_cons. rewrite C2 by done. unfold all_tasks. rewrite fmap_cons. cbn [concat fst].
    destruct (decide (p ∈ concat (taskFiles <$> xs.*1))) as [Hin|Hin]; [rewrite decide_True by (apply elem_of_app; by right); done|].
    rewrite Hp1 by done. destruct (decide (p ∈ taskFiles c)) as [Hc|Hc]; [by rewrite decide_True by (apply elem_of_app; by left)|].
    rewrite decide_False; [done|]. by intros [?|?]%elem_of_app.
Qed.
End Collect.

(** ** What [dump-memiavl] writes *)

Lemma partition_ranges size i stop rs : partition size i stop rs -> 0 < size ->
  Forall (fun r => i <= Start r < End_ r /\ End_ r <= stop) rs /\ StronglySorted Z.lt (Start <$> rs).
Proof.
  intros H Hs. induction H as [i stop|i stop|i stop rs Hi H IH]; [by split; constructor|repeat constructor; cbn; lia|].
  destruct IH as [F S]. rewrite fmap_cons. split; constructor; try done; cbn; [lia| |].
  - eapply Forall_impl; [exact F|]. cbn. intros r Hr. lia.
  - apply Forall_fmap. eapply Forall_impl; [exact F|]. cbn. intros r Hr. lia.
Qed.

Lemma partition_told t0 es n size i stop rs : partition size i stop rs -> 0 < size -> i <= stop ->
  concat ((fun r => told t0 es n (Start r) (End_ r)) <$> rs) = told t0 es n i stop.
Proof.
  intros H Hs. induction H as [i stop|i stop|i stop rs Hi H IH]; intros Hle.
  - unfold told. by replace (stop - i) with 0 by lia.
  - cbn. by rewrite app_nil_r.
  - rewrite fmap_cons. cbn [concat Start End_]. rewrite IH by lia. by rewrite <- told_app by lia.
Qed.

Lemma visit_append vs : forall w,
  visit_all (fun writer version changeSet => (writer ++ WriteChangeSet version (convertMemiavlChangeSet changeSet), None)) w vs = (w ++ file_of vs, None).
Proof.
  induction vs as [|[v cs] vs IH]; intros w; cbn [visit_all]; [by rewrite app_nil_r|]. rewrite IH, file_cons, <- app_assoc.
  assert (convertMemiavlChangeSet cs = cs) as ->; [|done]. unfold convertMemiavlChangeSet. rewrite <- (list_fmap_id cs) at 2. apply list_fmap_ext. by intros i [? ? ?] _.
Qed.

Section MemiavlDump.
Context `{!Codecs, !CodecLaws} {L : Type} `{!Log L, !LogLaws L} (marshal : WALEntry -> res bytes) (unmarshal : bytes -> res WALEntry).
Hypothesis unmarshal_ok : forall e b, marshal e = Ok b -> unmarshal b = Ok (wire e).
Context (t0 : MultiTree) (es : list WALEntry) (bs : list bytes) (l : L) (d : @DB L) (sch : schedule).
#[local] Abbreviation a := (base_of (initialVersion t0)).

(** A database opened for reading whose log holds the entries [es]. *)
Record reading : Prop := {
  rd_holds : holds marshal l [] es bs (length es);
  rd_iv : 0 <= initialVersion t0 < 2 ^ 32;
  rd_len : len es < 2 ^ 61;
  rd_wal : db_wal d = Some l;
  rd_err : db_walErr d = None;
  rd_readOnly : w_readOnly (db_work d) = true;
  rd_tree : initialVersion (db_tree d) = initialVersion t0;
}.
Hypothesis R : reading.

Lemma wait_reading upTo wait : waitWALForRead marshal sch upTo wait d = Some (Ok l, d).
Proof.
  unfold waitWALForRead. rewrite (rd_wal R), (rd_readOnly R), orb_true_r. unfold waitForWAL. rewrite orb_true_r. cbn [mbind option_bind].
  by rewrite (rd_err R), (rd_wal R).
Qed.

Lemma a_nonneg : 0 <= a < 2 ^ 32.
Proof. pose proof (rd_iv R). unfold base_of. destruct (Z.ltb_spec 1 (initialVersion t0)); lia. Qed.

Lemma dump_range_ok n f i e fs : a + base l < i < e -> e <= a + len es + 1 ->
  dumpRangeBlocksMemiavl marshal unmarshal sch d n f (mkRange i e) fs = Some (Ok (<[f := snappyEncode (file_of (told t0 es n i e))]> fs)).
Proof.
  intros Hi He. pose proof a_nonneg. pose proof (law_base l). pose proof (rd_len R). unfold dumpRangeBlocksMemiavl. cbn [Start End_].
  rewrite i64_small by lia. unfold traverseStateChanges. rewrite (proj2 (Z.ltb_ge (e - 1) 0)) by lia.
  rewrite wait_reading. cbn [mbind option_bind]. rewrite (rd_tree R).
  rewrite (traverse_log_ok marshal unmarshal unmarshal_ok t0 es bs (length es) [] l (rd_holds R)) by (apply (rd_iv R) || unfold len in *; lia).
  by rewrite visit_append.
Qed.

(** The chunks of a store, with the contents of their temporary files. *)
Definition store_chunk (n : name) (r : Range) : chunk * list bytes :=
  (mkChunk n (Start r) [tmp_file n (Start r)], [file_of (told t0 es n (Start r) (End_ r))]).

Lemma tmp_file_inj n v w : tmp_file n v = tmp_file n w -> v = w.
Proof. unfold tmp_file. intros [= E]. apply app_inv_head in E. injection E as E. apply app_inv_tail in E. by apply fmt_d_inj. Qed.

Lemma block_file_inj level v w : block_file v level = block_file w level -> v = w.
Proof. unfold block_file. intros E. apply app_inv_head in E. apply app_inv_tail in E. by apply fmt_d_inj. Qed.

Lemma chunks_ok n rs : forall cs fs, Forall (fun r => a + base l < Start r < End_ r /\ End_ r <= a + len es + 1) rs -> NoDup (Start <$> rs) ->
  exists fs', run_bodies (memiavl_chunk marshal unmarshal sch d n) rs (cs, fs) = Some (Ok (cs ++ (store_chunk n <$> rs).*1, fs')) /\
    Forall (chunk_ready fs') (store_chunk n <$> rs) /\ forall p, p ∉ (fun r => tmp_file n (Start r)) <$> rs -> fs' !! p = fs !! p.
Proof.
  induction rs as [|r rs IH]; intros cs fs F N; cbn [run_bodies].
  { exists fs. rewrite app_nil_r. split_and!; [done|constructor|done]. }
  apply Forall_cons in F as [[F1 F2] F]. rewrite fmap_cons in N. apply NoDup_cons in N as [Hn N].
  unfold memiavl_chunk at 1. cbn [snd fst]. destruct r as [i e]. cbn [Start End_] in *. rewrite dump_range_ok by done. cbn [mbind option_bind res_bind].
  destruct (IH (cs ++ [mkChunk n i [tmp_file n i]]) (<[tmp_file n i := snappyEncode (file_of (told t0 es n i e))]> fs) F N) as (fs' & E & C & Hp).
  exists fs'. rewrite E, <- app_assoc. assert (tmp_file n i ∉ (fun r => tmp_file n (Start r)) <$> rs) as Ht.
  { intros (r & E' & Hr)%list_elem_of_fmap. apply tmp_file_inj in E' as ->. apply Hn. by apply list_elem_of_fmap_2. }
  split_and!; [done| |].
  - constructor; [|done]. constructor; [|constructor]. rewrite Hp by done. apply lookup_insert_eq.
  - intros p [Hne Hps]%not_elem_of_cons. rewrite Hp by done. by rewrite lookup_insert_ne.
Qed.

Definition out_path (level : Z) (n : name) (r : Range) : Path := [n; block_file (Start r) level].

(** The ranges of a store are in their files, and nothing else has changed. *)
Record dumped (level : Z) (n : name) (rs : list Range) (fs fs' : FS) : Prop := {
  dp_out : forall r, r ∈ rs -> exists raw, fs' !! out_path level n r = Some raw /\
    openChangeSetFile (block_file (Start r) level) raw = Ok (file_of (told t0 es n (Start r) (End_ r)));
  dp_rest : forall p, ~ temporary p -> p ∉ out_path level n <$> rs -> fs' !! p = fs !! p;
  dp_tmp : forall p, temporary p -> fs !! p = None -> fs' !! p = None;
}.

Lemma lt_sorted_nodup (vs : list Z) : StronglySorted Z.lt vs -> NoDup vs.
Proof. induction 1 as [|v vs S IH F]; constructor; [|done]. intros Hin. rewrite Forall_forall in F. specialize (F v Hin). lia. Qed.

Lemma nodup_map {A B C} (f : A -> B) (g : A -> C) (xs : list A) : (forall x y, g x = g y -> f x = f y) -> NoDup (f <$> xs) -> NoDup (g <$> xs).
Proof.
  intros Hg. induction xs as [|x xs IH]; intros N; [constructor|]. rewrite fmap_cons in *. apply NoDup_cons in N as [Hx N]. constructor; [|auto].
  intros (y & E & Hy)%list_elem_of_fmap. apply Hx. rewrite (Hg x y E). by apply list_elem_of_fmap_2.
Qed.

Definition store_start (r : gmap name Z) (start : Z) (n : name) : Z :=
  match r !! n with Some v => if start <? v then v else start | None => start end.

Lemma memiavl_store_ok n r start stop size level fs : TreeByName (db_tree d) n <> None -> 0 < size -> level <= 9 -> stop + size < 2 ^ 63 ->
  a + base l < store_start r start n < stop -> stop <= a + len es + 1 ->
  exists rs fs', partition size (store_start r start n) stop rs /\
    memiavl_store marshal unmarshal sch d r start stop size level n fs = Some (Ok fs') /\ dumped level n rs fs fs'.
Proof.
  intros Ht Hs Hl Hb Hi He. pose proof a_nonneg. pose proof (law_base l). unfold memiavl_store. destruct (TreeByName (db_tree d) n); [|done].
  fold (store_start r start n). set (s := store_start r start n) in *. rewrite (proj2 (Z.leb_gt stop s)) by lia.
  destruct (for_ranges_ok (memiavl_chunk marshal unmarshal sch d n) size stop Hs Hb (rounds s stop) s) as (rs & Hp & E); [lia..|].
  destruct (partition_ranges _ _ _ _ Hp Hs) as [F S]. pose proof (lt_sorted_nodup _ S) as N.
  destruct (chunks_ok n rs [] fs) as (fs1 & E1 & C & Hf); [|done|].
  { eapply Forall_impl; [exact F|]. cbn. intros x Hx. lia. }
  assert (all_tasks (store_chunk n <$> rs) = (fun r => tmp_file n (Start r)) <$> rs) as Et.
  { unfold all_tasks. clear. induction rs as [|x rs IH]; [done|]. rewrite !fmap_cons. cbn. f_equal. exact IH. }
  assert (output level <$> (store_chunk n <$> rs).*1 = out_path level n <$> rs) as Eo by (by rewrite <- !list_fmap_compose).
  destruct (collect_all_ok level (store_chunk n <$> rs) fs1) as (fs' & E2 & [C1 C2]); [done|done|..].
  { rewrite Et. apply (nodup_map Start); [|done]. intros x y Exy. by apply tmp_file_inj in Exy. }
  { rewrite Et. apply Forall_fmap, Forall_forall. done. }
  { rewrite Eo. apply (nodup_map Start); [|done]. intros x y Exy. apply (block_file_inj level). unfold out_path in Exy. congruence. }
  { apply Forall_fmap. eapply Forall_impl; [exact F|]. cbn. intros x Hx. lia. }
  exists rs, fs'. split; [done|]. split; [by rewrite E, E1; cbn [mbind option_bind res_bind app]; rewrite E2|]. rewrite Eo, Et in C2. split.
  - intros x Hx. destruct (C1 (store_chunk n x).1 (store_chunk n x).2) as (raw & Er & Eopen); [rewrite <- surjective_pairing; by apply list_elem_of_fmap_2|].
    exists raw. split; [done|]. refine (eq_trans Eopen _). cbn. by rewrite app_nil_r.
  - intros p Htmp Hout. rewrite C2 by done. assert (p ∉ (fun r => tmp_file n (Start r)) <$> rs) as Hn.
    { intros (x & -> & _)%list_elem_of_fmap. by apply Htmp. }
    by rewrite decide_False, Hf by done.
  - intros p Htmp Hnone. rewrite C2 by (intros (x & -> & _)%list_elem_of_fmap; discriminate Htmp). destruct (decide _); [done|]. by rewrite Hf.
Qed.

(** The ranges of all dumped stores. *)
Record all_dumped (r : gmap name Z) (start stop size level : Z) (stores : list name) (xs : list (name * list Range)) (fs fs' : FS) : Prop := {
  ad_nodup : NoDup xs.*1;
  ad_store : forall n rs, (n, rs) ∈ xs -> n ∈ stores /\ TreeByName (db_tree d) n <> None /\ partition size (store_start r start n) stop rs;
  ad_all : forall n, n ∈ stores -> TreeByName (db_tree d) n <> None -> exists rs, (n, rs) ∈ xs;
  ad_out : forall n rs x, (n, rs) ∈ xs -> x ∈ rs -> exists raw, fs' !! out_path level n x = Some raw /\
    openChangeSetFile (block_file (Start x) level) raw = Ok (file_of (told t0 es n (Start x) (End_ x)));
  ad_rest : forall p, ~ temporary p -> (forall n rs, (n, rs) ∈ xs -> p ∉ out_path level n <$> rs) -> fs' !! p = fs !! p;
  ad_tmp : forall p, temporary p -> fs !! p = None -> fs' !! p = None;
}.

Lemma memiavl_stores_ok r start stop size level stores : 0 < size -> level <= 9 -> stop + size < 2 ^ 63 -> stop <= a + len es + 1 ->
  NoDup stores -> (forall n, n ∈ stores -> a + base l < store_start r start n < stop) -> forall fs,
  exists xs fs', memiavl_stores marshal unmarshal sch d r start stop size level stores fs = Some (Ok fs') /\
    all_dumped r start stop size level stores xs fs fs'.
Proof.
  intros Hs Hl Hb He N Hst. induction N as [|n stores Hn N IH]; intros fs; cbn [memiavl_stores].
  { exists [], fs. split; [done|]. split; [constructor|..]; try done; by intros ? ? ?%elem_of_nil || by intros ? ?%elem_of_nil || by intros ? ? ? ?%elem_of_nil. }
  assert (forall m, m ∈ stores -> a + base l < store_start r start m < stop) as Hst' by (intros m Hm; apply Hst; by right).
  specialize (IH Hst'). destruct (TreeByName (db_tree d) n) as [t|] eqn:Et.
  - destruct (memiavl_store_ok n r start stop size level fs) as (rs & fs1 & Hp & E & D); [congruence|done..|apply Hst; by left|done|].
    rewrite E. cbn [mbind option_bind]. destruct (IH fs1) as (xs & fs' & E' & A). exists ((n, rs) :: xs), fs'. split; [done|].
    assert (forall m ms, (m, ms) ∈ xs -> m <> n) as Hne by (intros m ms Hm ->; by apply (ad_store _ _ _ _ _ _ _ _ _ A) in Hm as [? _]).
    split.
    + rewrite fmap_cons. constructor; [|apply A]. intros ([m ms] & Em & Hm)%list_elem_of_fmap. by apply (Hne m ms).
    + intros m ms [[= -> ->]|Hm]%elem_of_cons; [split_and!; [by left|congruence|done]|].
      destruct (ad_store _ _ _ _ _ _ _ _ _ A m ms Hm) as (? & ? & ?). split_and!; [by right|done..].
    + intros m [->|Hm]%elem_of_cons Ht; [exists rs; by left|]. destruct (ad_all _ _ _ _ _ _ _ _ _ A m Hm Ht) as [ms ?]. exists ms. by right.
    + intros m ms x [[= -> ->]|Hm]%elem_of_cons Hx; [|by eapply (ad_out _ _ _ _ _ _ _ _ _ A)].
      destruct (dp_out _ _ _ _ _ D x Hx) as (raw & E1 & E2). exists raw. split; [|done].
      rewrite (ad_rest _ _ _ _ _ _ _ _ _ A); [done|done|]. intros m ms Hm (y & [= <- _] & _)%list_elem_of_fmap. by apply (Hne n ms).
    + intros p Htmp Hp'. rewrite (ad_rest _ _ _ _ _ _ _ _ _ A) by (done || (intros m ms Hm; apply Hp'; by right)).
      apply (dp_rest _ _ _ _ _ D); [done|]. apply Hp'. by left.
    + intros p Htmp Hno. apply (ad_tmp _ _ _ _ _ _ _ _ _ A); [done|]. by apply (dp_tmp _ _ _ _ _ D).
  - unfold memiavl_store at 1. rewrite Et. cbn [mbind option_bind]. destruct (IH fs) as (xs & fs' & E' & A). exists xs, fs'. split; [done|].
    split; try apply A.
    + intros m ms Hm. destruct (ad_store _ _ _ _ _ _ _ _ _ A m ms Hm) as (? & ? & ?). split_and!; [by right|done..].
    + intros m [->|Hm]%elem_of_cons Ht; [done|]. by apply (ad_all _ _ _ _ _ _ _ _ _ A).
Qed.
End MemiavlDump.

(** ** Reading the dump back *)

Section ReadBack.
Context `{!Codecs, !CodecLaws}.

Definition dir_entry (store : name) (x : Path * bytes) : option csFile :=
  match x.1 with
  | [d; f] => if decide (d = store) then Some (f, match openChangeSetFile f x.2 with Ok b => Some b | _ => None end) else None
  | _ => None
  end.

Lemma dir_entry_Some store p raw f o : dir_entry store (p, raw) = Some (f, o) <->
  p = [store; f] /\ o = match openChangeSetFile f raw with Ok b => Some b | _ => None end.
Proof.
  unfold dir_entry. cbn [fst snd]. destruct p as [|x [|g [|]]]; try (split; [done|by intros [? _]]).
  destruct (decide (x = store)) as [->|Hne]; [|split; [done|intros [[= -> ->] _]; done]].
  split; [by intros [= -> <-]|by intros [[= ->] ->]].
Qed.

Lemma dir_nodup store (xs : list (Path * bytes)) : NoDup xs.*1 -> NoDup (omap (dir_entry store) xs).*1.
Proof.
  induction xs as [|[p raw] xs IH]; intros N; [constructor|]. rewrite fmap_cons in N. apply NoDup_cons in N as [Hp N]. csimpl.
  destruct (dir_entry store (p, raw)) as [[f o]|] eqn:E; [|auto]. rewrite fmap_cons. constructor; [|auto].
  apply dir_entry_Some in E as [-> _]. intros ([g o'] & Eg & Hin)%list_elem_of_fmap. cbn in Eg. subst g.
  apply list_elem_of_omap in Hin as ([p' raw'] & Hin & E'). apply dir_entry_Some in E' as [-> _]. apply Hp.
  apply list_elem_of_fmap. by exists ([store; f], raw').
Qed.

Lemma store_dir_lists (fs : FS) store (files : told_files) : files <> [] -> NoDup files.*1 ->
  (forall f vs, (f, vs) ∈ files -> exists raw, fs !! [store; f] = Some raw /\ openChangeSetFile f raw = Ok (file_of vs)) ->
  (forall f raw, fs !! [store; f] = Some raw -> f ∈ files.*1) ->
  exists dir, store_dir fs store = Some dir /\ lists dir files.
Proof.
  intros Hne N Hin Hout. unfold store_dir. fold (dir_entry store). set (dir := omap _ _).
  assert (NoDup dir.*1) as Nd by (apply dir_nodup, NoDup_fst_map_to_list).
  assert (dir ≡ₚ (fun f => (f.1, Some (file_of f.2))) <$> files) as Hp.
  { apply NoDup_Permutation.
    - by apply NoDup_fmap_1 in Nd.
    - apply (NoDup_fmap_1 fst). by rewrite <- list_fmap_compose.
    - intros [f o]. unfold dir. rewrite list_elem_of_omap, list_elem_of_fmap. split.
      + intros ([p raw] & Hm & [-> Eo]%dir_entry_Some). apply elem_of_map_to_list in Hm. pose proof (Hout _ _ Hm) as ([g vs] & Eg & Hf)%list_elem_of_fmap.
        cbn in Eg. subst g. exists (f, vs). split; [|done]. destruct (Hin f vs Hf) as (raw' & E1 & E2).
        rewrite E1 in Hm. injection Hm as <-. cbn. by rewrite Eo, E2.
      + intros ([g vs] & [= -> ->] & Hf). destruct (Hin g vs Hf) as (raw & E1 & E2). exists ([store; g], raw).
        split; [by apply elem_of_map_to_list|]. apply dir_entry_Some. cbn. by rewrite E2. }
  assert (dir <> []) as Hdne.
  { intros E. rewrite E in Hp. apply Permutation_nil_l in Hp. symmetry in Hp. by apply fmap_nil_inv in Hp. }
  exists dir. split; [by destruct dir|]. split; [done|]. exists []. by rewrite app_nil_r.
Qed.

Lemma store_dir_None (fs : FS) store : (forall f, fs !! [store; f] = None) -> store_dir fs store = None.
Proof.
  intros Hno. unfold store_dir. fold (dir_entry store). destruct (omap (dir_entry store) (map_to_list fs)) as [|[f o] dir] eqn:E; [done|].
  assert ((f, o) ∈ omap (dir_entry store) (map_to_list fs)) as Hin by (rewrite E; by left).
  apply list_elem_of_omap in Hin as ([p raw] & Hm & [-> _]%dir_entry_Some). apply elem_of_map_to_list in Hm. by rewrite Hno in Hm.
Qed.
End ReadBack.

(** ** Dump and verify *)

Lemma seqZ_sorted i k : StronglySorted Z.lt (seqZ i k).
Proof.
  destruct (decide (0 <= k)) as [Hk|Hk]; [|by rewrite seqZ_nil by lia; constructor]. revert i. pattern k. apply natlike_ind; [|clear k Hk|done].
  - intros i. rewrite seqZ_nil by lia. constructor.
  - intros k Hk IH i. rewrite seqZ_cons by lia. replace (Z.pred (Z.succ k)) with k by lia. constructor; [apply IH|].
    apply Forall_forall. intros x Hx. apply elem_of_seqZ in Hx. lia.
Qed.

Lemma told_pending t0 es n s : let a := base_of (initialVersion t0) in let b := a + len es in
  a <= s <= b -> pending (hist_changes t0 es n) a b s (told t0 es n (s + 1) (b + 1)).
Proof.
  intros a b Hs. split; [done|rewrite told_versions; apply seqZ_sorted| |].
  - intros v cs (w & [= -> ->] & Hw)%list_elem_of_fmap. apply elem_of_seqZ in Hw. split; [lia|done].
  - intros x Hx Hn. destruct Hn. rewrite told_versions. apply elem_of_seqZ. lia.
Qed.

(** Files for the ranges of a partition. *)
Definition range_files t0 es (level : Z) (n : name) (rs : list Range) : told_files :=
  (fun r => (block_file (Start r) level, told t0 es n (Start r) (End_ r))) <$> rs.

Lemma range_files_versions t0 es level n size i stop rs : partition size i stop rs -> 0 < size -> i <= stop ->
  all_versions (range_files t0 es level n rs) = told t0 es n i stop.
Proof.
  intros Hp Hs Hle. rewrite <- (partition_told t0 es n size i stop rs) by done. unfold all_versions, range_files. by rewrite <- list_fmap_compose.
Qed.

Lemma file_of_app x y : file_of (x ++ y) = file_of x ++ file_of y.
Proof. unfold file_of. by rewrite fmap_app, concat_app. Qed.

(** Part of a file that fits does. *)
Lemma file_fits_part t0 es n i e j f : i <= j -> j <= f -> f <= e -> file_fits (told t0 es n i e) -> file_fits (told t0 es n j f).
Proof.
  intros H1 H2 H3 [F Hl]. rewrite (told_app t0 es n i j e), (told_app t0 es n j f e) in F, Hl by lia.
  apply Forall_app in F as [_ F]. apply Forall_app in F as [F _]. rewrite !file_of_app, !len_app in Hl.
  pose proof (len_nonneg (file_of (told t0 es n i j))). pose proof (len_nonneg (file_of (told t0 es n f e))). split; [done|lia].
Qed.

Lemma told_nonempty t0 es n i e : i < e -> told t0 es n i e <> [].
Proof. intros H. by rewrite told_cons. Qed.

(** A dense file may stop at every target. *)
Lemma told_stops t0 es n i e target : i < e -> i <= target -> stops_at target (told t0 es n i e).
Proof.
  intros H Hi. unfold stops_at. rewrite told_versions. destruct (Z.lt_ge_cases target e); [right|left].
  - apply elem_of_seqZ. lia.
  - intros v Hv. apply elem_of_seqZ in Hv. lia.
Qed.

(** The files of a store tell its history from nothing to the last version. *)
Lemma range_files_told sha256 t0 es n level size s rs dir : store_hist sha256 t0 es n -> es <> [] ->
  let a := base_of (initialVersion t0) in let b := a + len es in
  TreeByName t0 n = None -> a < s <= b -> (forall x, a < x < s -> hist_changes t0 es n x = []) -> 0 < size ->
  partition size s (b + 1) rs -> file_fits (told t0 es n (a + 1) (b + 1)) -> lists dir (range_files t0 es level n rs) ->
  store_told (hist_tree sha256 t0 es n) (hist_changes t0 es n) b b (s - 1) (mkVTree 0 None) dir (range_files t0 es level n rs).
Proof.
  intros H Hne a b Hn Hs Hc Hz Hp Hf Hl. pose proof (store_history sha256 t0 es n H) as Th. fold a in Th. fold b in Th.
  pose proof (partition_ranges _ _ _ _ Hp Hz) as [F _]. pose proof (a_range sha256 t0 es n H) as (Ha & _). fold a in Ha.
  pose proof (range_files_versions t0 es level n size s (b + 1) rs Hp Hz ltac:(lia)) as Ev.
  assert (first_version (range_files t0 es level n rs) = s) as Efirst by (unfold first_version; rewrite Ev, told_cons by lia; done).
  split; rewrite ?Efirst.
  - exists a. split; [done|]. rewrite Ev. pose proof (told_pending t0 es n (s - 1) ltac:(fold a; fold b; lia)) as P. by replace (s - 1 + 1) with s in P by lia.
  - apply (sh_bound _ _ _ _ H).
  - done.
  - split; [intros E; rewrite E in Ev; symmetry in Ev; revert Ev; apply told_nonempty; lia|].
    apply Forall_fmap. eapply Forall_impl; [exact F|]. cbn. intros r Hr. split; [apply told_nonempty; lia|].
    by apply (file_fits_part t0 es n (a + 1) (b + 1)); [lia..|].
  - right. split_and!; [done|lia|]. rewrite (history_gap _ _ a b Th a (s - 1)) by (lia || (intros x Hx; apply Hc; lia)). cbn [vt_root].
    unfold hist_tree, store_tree. fold a. rewrite Z.sub_diag. change (state_at sha256 t0 es (Z.to_nat 0)) with t0. by rewrite Hn.
  - lia.
  - intros _. split_and!; [lia|lia|]. apply Forall_fmap. eapply Forall_impl; [exact F|]. cbn. intros r Hr _. apply told_stops; lia.
Qed.

Lemma first_stores_ok {L : Type} `{!Log L, !LogLaws L} marshal unmarshal t0 es bs (l : L) d sch stores :
  (forall e b, marshal e = Ok b -> unmarshal b = Ok (wire e)) -> reading marshal t0 es bs l d -> base l = 0 -> es <> [] -> stores <> [] ->
  exists r, FirstStoreVersions marshal unmarshal sch d stores = Some (Ok r, d) /\
    forall n, n ∈ stores -> let s := store_start r (base_of (initialVersion t0) + 1) n in
      base_of (initialVersion t0) < s <= base_of (initialVersion t0) + len es /\
      forall x, base_of (initialVersion t0) < x < s -> hist_changes t0 es n x = [].
Proof.
  intros Hu R Hb Hne Hst. unfold FirstStoreVersions. destruct stores as [|n0 stores]; [done|]. rewrite (wait_reading _ _ _ _ _ _ _ R).
  cbn [mbind option_bind res_bind]. rewrite (rd_tree _ _ _ _ _ _ R), law_first, (holds_last _ _ _ _ _ _ (rd_holds _ _ _ _ _ _ R)), Hb.
  assert (0 < len es) as Hpos by (destruct es; [done|]; unfold len; cbn; lia).
  assert (entries l <> []) as Hen.
  { intros E. pose proof (holds_last _ _ _ _ _ _ (rd_holds _ _ _ _ _ _ R)) as El. rewrite law_last, E, Hb in El. unfold len in *. cbn in El. lia. }
  rewrite decide_False by done. cbn [Z.add Z.eqb orb]. rewrite (proj2 (Z.eqb_neq (Z.of_nat (length es)) 0)) by (unfold len in Hpos; lia). cbn [orb].
  destruct (first_store_loop_ok marshal unmarshal Hu t0 es bs [] l (rd_iv _ _ _ _ _ _ R) ltac:(pose proof (rd_len _ _ _ _ _ _ R); lia)
    (remove_dups (n0 :: stores)) (Z.to_nat (Z.of_nat (length es) - 1 + 1)) 1 ∅) as (r & w & E & Hw & Hok); [lia|lia|apply R| |].
  { intros n _ x Hx. rewrite lookup_empty. lia. }
  exists r. split; [change (0 + 1) with 1; by rewrite E|]. intros n Hn. unfold store_start. apply elem_of_remove_dups in Hn. pose proof (Hok n Hn) as Hk.
  destruct (r !! n) as [v|].
  - destruct (Hk (base_of (initialVersion t0) + 1) ltac:(lia)) as [Hv _]. destruct (Z.ltb_spec (base_of (initialVersion t0) + 1) v); split; [lia| |lia|].
    + intros x Hx. destruct (Hk x ltac:(lia)) as [_ Hx']. apply Hx'. lia.
    + intros x Hx. lia.
  - split; [lia|]. intros x Hx. lia.
Qed.

Lemma empty_wf iv : mt_wf (NewEmptyMultiTree iv).
Proof. split; [constructor|]. intros n i. cbn. rewrite lookup_empty. split; [done|]. by intros (e & E & _). Qed.

(** The dump with default versions: its ranges and files. *)
Lemma dump_files {L : Type} `{!Codecs, !CodecLaws, !Log L, !LogLaws L} marshal unmarshal t0 es bs (l : L) d sch stores size level :
  (forall e b, marshal e = Ok b -> unmarshal b = Ok (wire e)) -> reading marshal t0 es bs l d -> base l = 0 -> es <> [] -> stores <> [] ->
  MTVersion (db_tree d) = base_of (initialVersion t0) + len es -> NoDup stores -> 0 < size < 2 ^ 61 -> level <= 9 ->
  exists r xs fs, DumpMemiavlChangeSet marshal unmarshal sch d stores 0 0 size level ∅ = Some (Ok fs) /\
    all_dumped t0 es d r (base_of (initialVersion t0) + 1) (base_of (initialVersion t0) + len es + 1) size level stores xs ∅ fs /\
    forall n, n ∈ stores -> base_of (initialVersion t0) < store_start r (base_of (initialVersion t0) + 1) n <= base_of (initialVersion t0) + len es /\
      forall x, base_of (initialVersion t0) < x < store_start r (base_of (initialVersion t0) + 1) n -> hist_changes t0 es n x = [].
Proof.
  intros Hu R Hb Hne Hst Hv Hn Hz Hl. assert (0 < len es) as Hpos by (destruct es; [done|]; unfold len; cbn; lia).
  pose proof (a_nonneg _ _ _ _ _ _ R) as Ha. pose proof (rd_len _ _ _ _ _ _ R) as Hlen. pose proof (holds_last _ _ _ _ _ _ (rd_holds _ _ _ _ _ _ R)) as El.
  destruct (first_stores_ok marshal unmarshal t0 es bs l d sch stores Hu R Hb Hne Hst) as (r & Er & Hr). exists r.
  set (a := base_of (initialVersion t0)) in *.
  destruct (memiavl_stores_ok marshal unmarshal Hu t0 es bs l d sch R r (a + 1) (a + len es + 1) size level stores) with (fs := ∅ : FS)
    as (xs & fs & E & A); [lia|done|lia|fold a; lia|done| |].
  { intros n Hin. destruct (Hr n Hin) as [Hs _]. fold a. lia. }
  exists xs, fs. split_and!; [|exact A|exact Hr]. unfold DumpMemiavlChangeSet.
  assert (entries l <> []) as Hen by (intros E0; rewrite law_last, E0, Hb in El; unfold len in *; cbn in El; lia).
  rewrite (rd_wal _ _ _ _ _ _ R), (rd_tree _ _ _ _ _ _ R). unfold FirstVersion. rewrite law_first, decide_False, Hb by done. change (0 + 1 =? 0) with false. cbn iota.
  rewrite walVersion_base by (apply (rd_iv _ _ _ _ _ _ R) || lia). fold a. rewrite (proj2 (Z.eqb_neq (a + (0 + 1)) 0)) by lia.
  change (0 =? 0) with true. cbn [orb]. rewrite Hv, i64_small by lia. rewrite (proj2 (Z.leb_gt _ _)) by lia. rewrite Er. cbn [mbind option_bind].
  destruct stores; [done|exact E].
Qed.

(** The state after all entries. *)
Lemma dump_end sha256 t0 es t : Db.live sha256 t0 es t ->
  state_at sha256 t0 es (Z.to_nat (base_of (initialVersion t0) + len es - base_of (initialVersion t0))) = t.
Proof.
  intros Hlive. replace (base_of (initialVersion t0) + len es - base_of (initialVersion t0)) with (len es) by lia.
  unfold state_at, len. rewrite Nat2Z.id, take_ge by lia. unfold Db.live in Hlive. by rewrite Hlive.
Qed.

(** What is dumped tells the state of the database. *)
Lemma dump_told {L : Type} `{!Codecs, !CodecLaws} (sha256 : bytes -> bytes) (t0 : MultiTree) (es : list WALEntry) (d : @DB L) (r : gmap name Z) (stores : list name) (size level : Z)
  (xs : list (name * list Range)) (fs : FS) (n : name) (t : MultiTree) : 0 < size -> es <> [] ->
  (forall n, TreeByName (db_tree d) n = TreeByName t n) -> Db.live sha256 t0 es t ->
  all_dumped t0 es d r (base_of (initialVersion t0) + 1) (base_of (initialVersion t0) + len es + 1) size level stores xs ∅ fs ->
  (base_of (initialVersion t0) < store_start r (base_of (initialVersion t0) + 1) n <= base_of (initialVersion t0) + len es /\
      forall x, base_of (initialVersion t0) < x < store_start r (base_of (initialVersion t0) + 1) n -> hist_changes t0 es n x = []) ->
  n ∈ stores -> store_hist sha256 t0 es n -> TreeByName t0 n = None ->
  file_fits (told t0 es n (base_of (initialVersion t0) + 1) (base_of (initialVersion t0) + len es + 1)) ->
  state_told (NewEmptyMultiTree 0) t (store_dir fs) (base_of (initialVersion t0) + len es) n.
Proof.
  intros Hz Hne Ht Hlive A [Hs Hc] Hn Hist Ht0 Hfit. set (a := base_of (initialVersion t0)) in *. set (s := store_start r (a + 1) n) in *.
  assert (forall f raw, fs !! [n; f] = Some raw -> exists rs, (n, rs) ∈ xs /\ f ∈ (fun x => block_file (Start x) level) <$> rs) as Hfiles.
  { intros f raw Ef. destruct (decide (Exists (fun y => y.1 = n /\ f ∈ (fun x => block_file (Start x) level) <$> y.2) xs)) as [Hyes|Hno].
    { apply Exists_exists in Hyes as ([m rs] & Hm & <- & Hf). by exists rs. }
    exfalso. rewrite Exists_exists in Hno.
    rewrite (ad_rest _ _ _ _ _ _ _ _ _ _ _ _ A) in Ef; [by rewrite lookup_empty in Ef|done|].
    intros m rs Hm (x & [= <- ->] & Hx)%list_elem_of_fmap. apply Hno. exists (n, rs). split_and!; [done..|].
    apply list_elem_of_fmap. by exists x. }
  unfold state_told. destruct (TreeByName t n) as [x|] eqn:Ex.
  - destruct (ad_all _ _ _ _ _ _ _ _ _ _ _ _ A n Hn) as [rs Hrs]; [congruence|]. destruct (ad_store _ _ _ _ _ _ _ _ _ _ _ _ A n rs Hrs) as (_ & _ & Hp).
    fold s in Hp. destruct (store_dir_lists fs n (range_files t0 es level n rs)) as (dir & Ed & Hl).
    + intros E. apply (f_equal all_versions) in E. rewrite (range_files_versions t0 es level n size s (a + len es + 1)) in E by (done || lia).
      revert E. apply told_nonempty. lia.
    + destruct (partition_ranges _ _ _ _ Hp Hz) as [_ S]. unfold range_files. rewrite <- list_fmap_compose.
      apply (nodup_map Start); [|by apply lt_sorted_nodup]. intros y z. apply block_file_inj.
    + intros f vs (y & [= -> ->] & Hy)%list_elem_of_fmap. by apply (ad_out _ _ _ _ _ _ _ _ _ _ _ _ A n rs).
    + intros f raw Ef. destruct (Hfiles f raw Ef) as (rs' & Hrs' & Hf). unfold range_files. rewrite <- list_fmap_compose.
      assert (rs' = rs) as <-; [|exact Hf]. pose proof (ad_nodup _ _ _ _ _ _ _ _ _ _ _ _ A) as Nx.
      apply (elem_of_list_to_map_1 (M := gmap name)) in Hrs, Hrs'; [congruence|done..].
    + exists (hist_tree sha256 t0 es n), (hist_changes t0 es n), (a + len es), (s - 1), dir, (range_files t0 es level n rs).
      split_and!; [done| |by apply (range_files_told sha256 t0 es n level size)].
      unfold hist_tree. unfold a. rewrite (dump_end _ _ _ _ Hlive). unfold store_tree. by rewrite Ex.
  - left. apply store_dir_None. intros f. destruct (fs !! [n; f]) as [raw|] eqn:Ef; [|done]. destruct (Hfiles f raw Ef) as (rs & Hrs & _).
    destruct (ad_store _ _ _ _ _ _ _ _ _ _ _ _ A n rs Hrs) as (_ & Hx & _). congruence.
Qed.

(** C22: [dump-memiavl] followed by [verify] reproduces the last commit info of the
    database.  The database was opened for reading; its log holds the whole
    history [es] of a chain that began with an empty multi-tree, in which every
    store is added at most once and neither renamed nor deleted.  With default
    version flags, any positive chunk size and any compression level, the dump
    ends without error, and replaying the files it wrote to the last version, the
    stores in any order, returns exactly the commit info of the database. *)
Theorem dump_then_verify {L : Type} `{!Codecs, !CodecLaws, !Log L, !LogLaws L} (sha256 : bytes -> bytes)
  (marshal : WALEntry -> res bytes) (unmarshal : bytes -> res WALEntry) (iv : Z) (es : list WALEntry) (bs : list bytes) (l : L) (d : @DB L)
  (sch : schedule) (t : MultiTree) (mi : CommitInfo) (stores order : list name) (size level : Z)
  (Hsha : forall x, len (sha256 x) = 32) (Hu : forall e b, marshal e = Ok b -> unmarshal b = Ok (wire e))
  (R : reading marshal (NewEmptyMultiTree iv) es bs l d) (Hb : base l = 0) (Hes : es <> [])
  (Hlive : Db.live sha256 (NewEmptyMultiTree iv) es t) (Htree : db_tree d = with_meta mi t) (Htrees : trees t <> [])
  (Hn : NoDup stores) (Ho : NoDup order) (Hso : forall n, n ∈ order <-> n ∈ stores) (Hall : forall n, TreeByName t n <> None -> n ∈ stores)
  (Hist : forall n, n ∈ stores -> store_hist sha256 (NewEmptyMultiTree iv) es n)
  (Hfit : forall n, n ∈ stores -> file_fits (told (NewEmptyMultiTree iv) es n (base_of iv + 1) (base_of iv + len es + 1)))
  (Hsize : 0 < size < 2 ^ 61) (Hlevel : level <= 9) :
  exists fs, DumpMemiavlChangeSet marshal unmarshal sch d stores 0 0 size level ∅ = Some (Ok fs) /\
    verifyChangeSets sha256 None (store_dir fs) false (MTVersion t) order = Ok (lastCommitInfo (db_tree d), None).
Proof.
  pose proof (empty_wf iv) as W0. pose proof (live_wf sha256 (NewEmptyMultiTree iv) W0 es t Hlive) as W.
  assert (exists n x, TreeByName t n = Some x) as (n0 & x0 & E0).
  { destruct (trees t) as [|[n x] ts] eqn:E; [done|]. exists n, x. apply TreeByName_elem; [done|]. rewrite E. by left. }
  assert (n0 ∈ stores) as Hn0 by (apply Hall; congruence).
  assert (MTVersion t = base_of iv + len es) as Hv.
  { destruct (state_version sha256 (NewEmptyMultiTree iv) es n0 (Hist n0 Hn0) (length es)) as [_ E]; [lia|].
    unfold state_at in E. rewrite take_ge in E by lia. unfold Db.live in Hlive. rewrite Hlive in E. rewrite E. cbn [MTVersion initialVersion NewEmptyMultiTree].
    assert (0 < length es)%nat by (destruct es; [done|]; cbn; lia).
    unfold version_after, base_of, len. rewrite (proj2 (Z.eqb_neq (Z.of_nat (length es)) 0)) by lia. destruct (1 <? iv); lia. }
  destruct (dump_files marshal unmarshal (NewEmptyMultiTree iv) es bs l d sch stores size level Hu R Hb Hes) as (r & xs & fs & E & A & Hr);
    [by intros ->; apply elem_of_nil in Hn0|rewrite Htree; exact Hv|done..|].
  exists fs. split; [exact E|].
  assert (lastCommitInfo (db_tree d) = MultiTree.buildCommitInfo sha256 t (MTVersion t)) as ->.
  { rewrite Htree. exact (DbRewrite.live_info sha256 (NewEmptyMultiTree iv) es t Hes Hlive). }
  apply (verify_state sha256 None (NewEmptyMultiTree 0) t); [done| |done|done| |done|done| |].
  - rewrite Hv. pose proof (a_nonneg _ _ _ _ _ _ R). destruct es; [done|]. unfold len. cbn [length initialVersion NewEmptyMultiTree] in *. lia.
  - apply Forall_forall. intros [n x] Hin. pose proof (proj2 (TreeByName_elem t n x W) Hin) as Ex.
    assert (n ∈ stores) as Hns by (apply Hall; congruence).
    pose proof (th_version _ _ _ _ (store_history sha256 (NewEmptyMultiTree iv) es n (Hist n Hns)) (base_of iv + len es)) as Hx.
    cbn [initialVersion NewEmptyMultiTree] in Hx. pose proof (len_nonneg es). specialize (Hx ltac:(lia)). unfold hist_tree in Hx. cbn [initialVersion NewEmptyMultiTree] in Hx.
    pose proof (dump_end sha256 (NewEmptyMultiTree iv) es t Hlive) as Eend. cbn [initialVersion NewEmptyMultiTree] in Eend. rewrite Eend in Hx. unfold store_tree in Hx. rewrite Ex in Hx. cbn. by rewrite Hv.
  - intros n Hx. by apply Hso, Hall.
  - intros n Hin. rewrite Hv. apply Hso in Hin. apply (dump_told sha256 (NewEmptyMultiTree iv) es d r stores size level xs fs n t);
      [lia|done|intros m; by rewrite Htree|done|done|by apply Hr|done|by apply Hist|done|by apply Hfit].
Qed.

(** ** Samples *)

(** Compressions that change nothing. *)
#[export] Instance plain_codecs : Codecs := {|
  snappyEncode := id;
  snappyDecode b := Ok b;
  zlibEncode level b := if (1 <=? level) && (level <=? 9) then Ok b else Err "invalid compression level";
  zlibDecode b := Ok b;
|}.
#[export] Instance plain_laws : CodecLaws.
Proof.
  split; [done| |].
  - intros level b c. cbn. by destruct ((1 <=? level) && (level <=? 9)); intros [= ->].
  - intros level b Hl. exists b. cbn. by rewrite (proj2 (Z.leb_le 1 level)), (proj2 (Z.leb_le level 9)) by lia.
Qed.

Lemma split_work_load_partitions_witness : exists rs, splitWorkLoad 3 (mkRange 10 20) = Some (Ok rs) /\ partition 4 10 20 rs /\ len rs <= 3.
Proof. apply (split_work_load_partitions 3 (mkRange 10 20)); cbn; lia. Defined.

(** A size of zero never ends the loop. *)
Lemma zero_size_never_ends {S} (body : Range -> S -> option (res S)) i stop : 0 <= i < stop -> stop < 2 ^ 63 ->
  (forall r s, exists s', body r s = Some (Ok s')) -> forall fuel s, for_ranges fuel i 0 stop body s = None.
Proof.
  intros Hi Hb Hok. induction fuel as [|fuel IH]; intros s; cbn [for_ranges]; rewrite (proj2 (Z.ltb_lt i stop)) by lia; [done|].
  rewrite Z.add_0_r, i64_small by lia. destruct (Hok (mkRange i (if stop <? i then stop else i)) s) as [s' ->]. apply IH.
Qed.

Definition sample_end : MultiTree := state_after sample_history.
Definition sample_reader : @DB ListLog := opened_db (sample_options 0 true false) sample_end sample_log.

Lemma sample_reading : reading bit_marshal (NewEmptyMultiTree 5) sample_history sample_bytes sample_log sample_reader.
Proof. split; [apply sample_stored|cbn; lia|by vm_compute|done..|by vm_compute]. Qed.

Lemma sample_store_hist n : n = str "a" \/ n = str "b" -> store_hist digest32 (NewEmptyMultiTree 5) sample_history n.
Proof.
  intros Hn. split.
  - exists sample_end. vm_compute. reflexivity.
  - exact sample_base.
  - cbn. lia.
  - by vm_compute.
  - exact sample_wf.
  - done.
  - constructor; [by apply (bool_decide_unpack _); vm_compute|repeat constructor].
  - intros [|[|k]] e He; [| |done]; injection He as <-; [right|left; constructor].
    assert (TreeByName (state_at digest32 (NewEmptyMultiTree 5) sample_history 0) n = None) as Hno by (destruct Hn as [->| ->]; reflexivity).
    split; [|exact Hno]. destruct Hn as [->| ->].
    + exists [mkUpgrade (str "b") [] false], (mkUpgrade (str "a") [] false), []. split_and!; [reflexivity|by repeat constructor|done|constructor].
    + exists [], (mkUpgrade (str "b") [] false), [mkUpgrade (str "a") [] false]. split_and!; [reflexivity|constructor|done|by repeat constructor].
Qed.

Lemma dump_then_verify_witness :
  exists fs, DumpMemiavlChangeSet bit_marshal bit_unmarshal (0, []) sample_reader [str "a"; str "b"] 0 0 1 6 ∅ = Some (Ok fs) /\
    verifyChangeSets digest32 None (store_dir fs) false (MTVersion sample_end) [str "b"; str "a"] = Ok (lastCommitInfo (db_tree sample_reader), None).
Proof.
  assert (forall n, n ∈ [str "a"; str "b"] -> n = str "a" \/ n = str "b") as Hab.
  { intros n Hn. apply elem_of_cons in Hn as [->|Hn]; [by left|]. apply list_elem_of_singleton in Hn as ->. by right. }
  apply (dump_then_verify digest32 bit_marshal bit_unmarshal 5 sample_history sample_bytes sample_log sample_reader (0, []) sample_end
    (metadataInfo sample_end) [str "a"; str "b"] [str "b"; str "a"] 1 6).
  - exact digest32_len.
  - exact bit_unmarshal_ok.
  - exact sample_reading.
  - by vm_compute.
  - done.
  - vm_compute. reflexivity.
  - vm_compute. reflexivity.
  - by vm_compute.
  - by apply (bool_decide_unpack _); vm_compute.
  - by apply (bool_decide_unpack _); vm_compute.
  - intros n. rewrite !elem_of_cons, !elem_of_nil. tauto.
  - intros n Hn. destruct (decide (n = str "a")) as [->|Ha]; [by left|]. destruct (decide (n = str "b")) as [->|Hb]; [right; by left|].
    destruct Hn. assert (trees sample_end = [mkNamed (str "a") (nt_tree (default (mkNamed [] (mkVTree 0 None)) (trees sample_end !! 0%nat)));
      mkNamed (str "b") (nt_tree (default (mkNamed [] (mkVTree 0 None)) (trees sample_end !! 1%nat)))]) as Et by (vm_compute; reflexivity).
    rewrite TreeByName_forest, forest_None, Et; [|apply (state_wf digest32 (NewEmptyMultiTree 5) sample_history (str "a") (sample_store_hist _ (or_introl eq_refl)) 2)].
    cbn. rewrite !not_elem_of_cons. split_and!; [done|done|apply not_elem_of_nil].
  - intros n Hn. apply sample_store_hist, Hab, Hn.
  - intros n Hn. apply Hab in Hn as [->| ->]; (split; [repeat constructor; vm_compute; (reflexivity || discriminate)|by vm_compute]).
  - lia.
  - lia.
Defined.
