(* ===== verification/ClientDumpIavl.v ===== *)
(** The command [dump] of [versiondb/client/dump.go] on an iavl database, and
    [getFirstVersion].

    The iavl database is a third-party library; it is known here by what the
    command asks of it ([IavlDB]): the keys of a store in a range, the latest
    version of a store, and the change sets of a range of versions
    ([TraverseStateChanges], inclusive at the end).  Tasks run in a pool: all tasks
    of a store are submitted, then the chunks are collected one after the other,
    each when its own tasks are done.  [dump_step] is one step of that; a task may
    run while earlier chunks are being collected.

    Theorems: every complete run of a store writes, for every chunk, the change
    sets of exactly its versions, whatever the number of workers and the order in
    which the tasks run, and removes the temporary files; a run can always go on
    until it is complete. *)
From stdpp Require Import prelude strings gmap pretty sorting.
From Stdlib Require Import ZArith Lia.
From S2P Require Import Prelude OrdMap Codec Node Hash Snapshot Wal Tree TreeSpec MultiTree Changeset ClientVerify StoreHistory ClientDump.
Local Open Scope Z_scope.

(** ** The database *)

Class IavlDB := {
  (** The keys of a store in [[start, end)] in order, and the error of the
      iterator at its end. *)
  db_iterator : name -> bytes -> bytes -> list bytes * option string;
  (** [LoadVersion(0)] on a mutable tree. *)
  db_latest : name -> res Z;
  (** The calls of the callback, and the error. *)
  db_traverse : name -> Z -> Z -> list (Z * ChangeSet) * option string;
  (** [rootKeyFormat] and [nodeKeyV1Format] of iavl's key formats. *)
  rootKey : Z -> bytes;
  rootScan : bytes -> Z;
  nodeKeyInt64 : Z -> bytes;
  nodeScan : bytes -> bytes;
}.

Definition IAVLV0 : Z := 0.
Definition MaxInt64 : Z := 2 ^ 63 - 1.

(** [binary.BigEndian]. *)
Definition be_decode (b : bytes) : Z := le_decode (reverse b).

Section Dump.
Context `{!Codecs, !IavlDB}.

(** The loop over node keys: the root of a version is the node with nonce 1. *)
Fixpoint first_root (keys : list bytes) (err : option string) : res Z :=
  match keys with
  | [] => match err with Some e => Err e | None => Ok 0 end
  | key :: keys =>
      let nk := nodeScan key in
      if (length nk <? 12)%nat then Panic "slice bounds out of range"
      else
        let version := i64 (be_decode (take 8 nk)) in
        let nonce := be_decode (take 4 (drop 8 nk)) in
        if nonce =? 1 then Ok version else first_root keys err
  end.

Definition getFirstVersion (store : name) (iavlVersion : Z) : res Z :=
  if iavlVersion =? IAVLV0 then
    match db_iterator store (rootKey 1) (rootKey MaxInt64) with
    | (key :: _, _) => Ok (rootScan key)
    | ([], Some e) => Err e
    | ([], None) => Ok 0
    end
  else let (keys, err) := db_iterator store (nodeKeyInt64 1) (nodeKeyInt64 MaxInt64) in first_root keys err.

(** A task: the file is written when the traversal succeeds. *)
Definition dumpRangeBlocks (store : name) (outputFile : Path) (blockRange : Range) (fs : FS) : res FS :=
  match db_traverse store (Start blockRange) (i64 (End_ blockRange - 1)) with
  | (calls, None) => Ok (<[outputFile := snappyEncode (file_of calls)]> fs)
  | (_, Some e) => Err e
  end.

(** A round of the loop over the chunks of a store: the tasks of the chunk, which
    are submitted, and the chunk. *)
Definition iavl_chunk (concurrency : Z) (store : name) (r : Range) (s : list (chunk * list (Path * Range)))
  : option (res (list (chunk * list (Path * Range)))) :=
  let? ranges := splitWorkLoad concurrency r in
  Some (let* ranges := ranges in
        let tasks := (fun w => (tmp_file store (Start w), w)) <$> ranges in
        Ok (s ++ [(mkChunk store (Start r) tasks.*1, tasks)])).

(** The chunks of a store with their tasks. *)
Definition store_plan (iavlVersion startVersion endVersion chunkSize concurrency : Z) (store : name)
  : option (res (list (chunk * list (Path * Range)))) :=
  match getFirstVersion store iavlVersion with
  | Ok storeStartVersion =>
      if storeStartVersion =? 0 then Some (Ok [])
      else
        let storeStartVersion := if storeStartVersion <? startVersion then startVersion else storeStartVersion in
        for_ranges (rounds storeStartVersion endVersion) storeStartVersion chunkSize endVersion (iavl_chunk concurrency store) []
  | Err e => Some (Err e)
  | Panic e => Some (Panic e)
  end.

(** The end of the range when it is not given: after the latest version of the
    first store. *)
Definition dump_end_version (stores : list name) (endVersion : Z) : res Z :=
  if endVersion =? 0 then
    match stores with
    | [] => Panic "index out of range"
    | store :: _ => let* latestVersion := db_latest store in Ok (i64 (latestVersion + 1))
    end
  else Ok endVersion.

(** ** Running the tasks of a store *)

Record DumpState : Type := mkDump { dt_tasks : list (Path * Range); dt_chunks : list chunk; dt_fs : FS }.

(** A worker runs any of the submitted tasks; the main goroutine collects the next
    chunk once the tasks of that chunk have ended. *)
Inductive dump_step (store : name) (zlibLevel : Z) : DumpState -> DumpState -> Prop :=
| step_task ts1 f r ts2 cs fs fs' : dumpRangeBlocks store f r fs = Ok fs' ->
    dump_step store zlibLevel (mkDump (ts1 ++ (f, r) :: ts2) cs fs) (mkDump (ts1 ++ ts2) cs fs')
| step_collect ts c cs fs fs' : Forall (fun t => t.1 ∉ taskFiles c) ts -> collect zlibLevel c fs = Ok fs' ->
    dump_step store zlibLevel (mkDump ts (c :: cs) fs) (mkDump ts cs fs').

Definition dump_init (plan : list (chunk * list (Path * Range))) (fs : FS) : DumpState :=
  mkDump (concat plan.*2) plan.*1 fs.
End Dump.

(** ** Every run writes the same files *)

Section Runs.
Context `{!Codecs, !CodecLaws, !IavlDB} (store : name) (level : Z) (changes : Z -> Z -> list (Z * ChangeSet)).
Hypothesis Hlevel : level <= 9.

(** [TraverseStateChanges] calls back the change sets of the versions of a range,
    and those of adjacent ranges follow each other. *)
Record traverses : Prop := {
  tr_calls : forall i e, 0 < i < e -> e < 2 ^ 63 -> db_traverse store i (e - 1) = (changes i e, None);
  tr_split : forall i j e, 0 < i <= j -> j <= e -> changes i e = changes i j ++ changes j e;
}.
Hypothesis Tr : traverses.

(** The plan of a run: tasks are the temporary files of non-empty ranges. *)
Record plan_ok (plan : list (chunk * list (Path * Range))) : Prop := {
  pl_files : Forall (fun x => taskFiles x.1 = x.2.*1 /\ c_store x.1 = store /\ 0 <= beginVersion x.1) plan;
  pl_tasks : Forall (fun t => temporary t.1 /\ 0 < Start t.2 < End_ t.2 /\ End_ t.2 < 2 ^ 63) (concat plan.*2);
  pl_nodup : NoDup (concat plan.*2).*1;
  pl_outs : NoDup (output level <$> plan.*1);
}.

Definition contents (r : Range) : bytes := file_of (changes (Start r) (End_ r)).

(** The files at a state: the chunks [don] are written, the tasks of the others
    are waiting or have left their file, and nothing else has changed. *)
Record run_inv (plan : list (chunk * list (Path * Range))) (fs0 : FS) (s : DumpState) : Prop := {
  ri_split : exists don todo, plan = don ++ todo /\ dt_chunks s = todo.*1 /\
    Forall (fun x => exists raw, dt_fs s !! output level x.1 = Some raw /\
      openChangeSetFile (block_file (beginVersion x.1) level) raw = Ok (concat (contents <$> x.2.*2))) don /\
    (forall f r, (f, r) ∈ concat todo.*2 -> (f, r) ∈ dt_tasks s \/ dt_fs s !! f = Some (snappyEncode (contents r))) /\
    (forall f r, (f, r) ∈ concat don.*2 -> dt_fs s !! f = None) /\
    Forall (fun t => t ∈ concat todo.*2) (dt_tasks s);
  ri_nodup : NoDup (dt_tasks s).*1;
  ri_rest : forall p, p ∉ output level <$> plan.*1 -> p ∉ (concat plan.*2).*1 -> dt_fs s !! p = fs0 !! p;
}.

Lemma task_content f r fs : 0 < Start r < End_ r -> End_ r < 2 ^ 63 ->
  dumpRangeBlocks store f r fs = Ok (<[f := snappyEncode (contents r)]> fs).
Proof. intros Hr He. unfold dumpRangeBlocks. rewrite i64_small, (tr_calls Tr) by lia. done. Qed.

Lemma init_inv plan fs : plan_ok plan -> run_inv plan fs (dump_init plan fs).
Proof.
  intros P. split; [|apply P|done]. exists [], plan. split_and!; [done..| | |].
  - intros f r Ht. by left.
  - by intros f r ?%elem_of_nil.
  - apply Forall_forall. done.
Qed.

(** Output files are no temporary files. *)
Lemma plan_temporary plan f r : plan_ok plan -> (f, r) ∈ concat plan.*2 -> temporary f /\ 0 < Start r < End_ r /\ End_ r < 2 ^ 63.
Proof. intros P Hin. pose proof (pl_tasks _ P) as F. rewrite Forall_forall in F. apply (F _ Hin). Qed.

Lemma task_inv plan fs0 ts1 f r ts2 cs fs fs' : plan_ok plan -> run_inv plan fs0 (mkDump (ts1 ++ (f, r) :: ts2) cs fs) ->
  dumpRangeBlocks store f r fs = Ok fs' -> run_inv plan fs0 (mkDump (ts1 ++ ts2) cs fs').
Proof.
  intros P [(don & todo & -> & Hc & Hd & Ht & Hg & Hs) N Hr] E. cbn [dt_tasks dt_chunks dt_fs] in *.
  rewrite Forall_app, Forall_cons in Hs. destruct Hs as (S1 & Sf & S2).
  assert ((f, r) ∈ concat (don ++ todo).*2) as Hin by (rewrite fmap_app, concat_app; apply elem_of_app; by right).
  destruct (plan_temporary _ _ _ P Hin) as (Tf & Hr1 & Hr2). rewrite task_content in E by done. injection E as <-.
  rewrite fmap_app, fmap_cons in N. cbn [fst] in N. pose proof N as N'. rewrite <- Permutation_middle in N'. apply NoDup_cons in N' as [Hnf N'].
  pose proof (pl_nodup _ P) as Np. rewrite fmap_app, concat_app, fmap_app in Np. apply NoDup_app in Np as (Nd & Nx & Nt).
  split; cbn [dt_tasks dt_chunks dt_fs].
  - exists don, todo. split_and!; [done..| | | |by apply Forall_app].
    + eapply Forall_impl; [exact Hd|]. cbn. intros x (raw & E1 & E2). exists raw. split; [|done].
      rewrite lookup_insert_ne; [done|]. intros ->. discriminate Tf.
    + intros g q Hq. destruct (decide (g = f)) as [->|Hne].
      * right. rewrite lookup_insert_eq. do 3 f_equal. apply (elem_of_list_to_map_1 (M := gmap Path)) in Hq, Sf; [congruence|done..].
      * destruct (Ht g q Hq) as [Hin'|Hin']; [left|right; by rewrite lookup_insert_ne].
        rewrite elem_of_app, elem_of_cons in Hin'. destruct Hin' as [?|[[= ]|?]]; [by apply elem_of_app; left|done|by apply elem_of_app; right].
    + intros g q Hq. rewrite lookup_insert_ne; [by apply (Hg g q)|]. intros ->. apply (Nx g).
      * apply list_elem_of_fmap. by exists (g, q).
      * apply list_elem_of_fmap. by exists (g, r).
  - by rewrite fmap_app.
  - intros p Ho Hp. rewrite lookup_insert_ne; [by apply Hr|]. intros <-. apply Hp, list_elem_of_fmap. by exists (f, r).
Qed.

Lemma collect_inv plan fs0 ts c cs fs : plan_ok plan -> run_inv plan fs0 (mkDump ts (c :: cs) fs) ->
  Forall (fun t => t.1 ∉ taskFiles c) ts ->
  exists fs', collect level c fs = Ok fs' /\ run_inv plan fs0 (mkDump ts cs fs').
Proof.
  intros P [(don & todo & -> & Hc & Hd & Ht & Hg & Hs) N Hr] Hw. cbn [dt_tasks dt_chunks dt_fs] in *.
  destruct todo as [|[c' tasks] todo]; [done|]. rewrite fmap_cons in Hc. injection Hc as <- ->.
  pose proof (pl_files _ P) as Fc. rewrite Forall_app, Forall_cons in Fc. destruct Fc as (Fd & (Ef & _ & Hb) & Ft). cbn [fst snd] in Ef, Hb.
  pose proof (pl_nodup _ P) as Np. rewrite fmap_app, fmap_cons, concat_app in Np. cbn [snd concat] in Np.
  rewrite !fmap_app in Np. apply NoDup_app in Np as (Nd & Nx & Np). apply NoDup_app in Np as (Nc & Ny & Nt).
  pose proof (pl_outs _ P) as No. rewrite !fmap_app, !fmap_cons in No. cbn [fst] in No. apply NoDup_app in No as (_ & No & Nq). apply NoDup_cons in Nq as [Nq _].
  assert (forall f, f ∈ tasks.*1 -> temporary f) as Tc.
  { intros f ([g r] & -> & Hin)%list_elem_of_fmap. apply (plan_temporary _ g r P). rewrite fmap_app, concat_app. apply elem_of_app. right.
    rewrite fmap_cons. cbn [concat snd]. apply elem_of_app. by left. }
  destruct (collect_chunk_ok level c fs (contents <$> tasks.*2)) as (fs' & raw & E & Eo & Er & Hp); [|by rewrite Ef| |done|done|].
  { rewrite Ef. apply Forall2_fmap_l, Forall2_fmap_r, Forall2_fmap_r, Forall_Forall2_diag, Forall_forall. intros [f r] Hin. cbn.
    destruct (Ht f r) as [Hts|Hts]; [rewrite fmap_cons; cbn [concat snd]; apply elem_of_app; by left| |done].
    rewrite Forall_forall in Hw. destruct (Hw _ Hts). rewrite Ef. apply list_elem_of_fmap. by exists (f, r). }
  { intros Hin. rewrite Ef in Hin. apply Tc in Hin. discriminate Hin. }
  exists fs'. split; [done|]. assert (forall f, temporary f -> f <> output level c) as Hnt by (by intros f Hf ->).
  split; cbn [dt_tasks dt_chunks dt_fs]; [|done|].
  - exists (don ++ [(c, tasks)]), todo. rewrite <- app_assoc. split_and!; [done|done| | | |].
    + apply Forall_app. split; [|constructor; [by exists raw|constructor]]. rewrite Forall_forall in Hd |- *. intros x Hx. destruct (Hd x Hx) as (raw' & E1 & E2).
      exists raw'. split; [|done]. rewrite Hp.
      * rewrite decide_False; [done|]. rewrite Ef. intros Hin%Tc. discriminate Hin.
      * intros Eq. apply (No (output level c)); [rewrite <- Eq; by do 2 apply list_elem_of_fmap_2|by left].
    + intros f r Hin. destruct (Ht f r) as [?|Hf]; [rewrite fmap_cons; cbn [concat snd]; apply elem_of_app; by right|by left|right].
      assert (temporary f) as Tf.
      { apply (plan_temporary _ f r P). rewrite fmap_app, concat_app, fmap_cons. cbn [concat snd]. rewrite !elem_of_app. by right; right. }
      rewrite Hp by auto. rewrite decide_False; [done|]. rewrite Ef. intros Hfc. apply (Ny f Hfc). apply list_elem_of_fmap. by exists (f, r).
    + intros f r. rewrite fmap_app, concat_app. cbn. rewrite app_nil_r. intros [Hin|Hin]%elem_of_app.
      * assert (temporary f) as Tf by (apply (plan_temporary _ f r P); rewrite fmap_app, concat_app; apply elem_of_app; by left).
        rewrite Hp by auto. destruct (decide _); [done|]. by apply (Hg f r).
      * assert (f ∈ tasks.*1) as Hfc by (apply list_elem_of_fmap; by exists (f, r)). rewrite Hp by auto. by rewrite Ef, decide_True.
    + rewrite Forall_forall in Hs, Hw |- *. intros t Hin. specialize (Hs t Hin). specialize (Hw t Hin). rewrite fmap_cons in Hs. cbn [concat snd] in Hs.
      apply elem_of_app in Hs as [Hs|Hs]; [|done]. destruct Hw. rewrite Ef. by apply list_elem_of_fmap_2.
  - intros p Ho Hin. rewrite Hp.
    + rewrite decide_False; [by apply Hr|]. rewrite Ef. intros Hp'. apply Hin. rewrite fmap_app, concat_app, fmap_app, fmap_cons. cbn [concat snd].
      rewrite fmap_app, !elem_of_app. by right; left.
    + intros ->. apply Ho. rewrite !fmap_app, !fmap_cons. apply elem_of_app. right. by left.
Qed.

Lemma dump_step_inv plan fs0 s s' : plan_ok plan -> dump_step store level s s' -> run_inv plan fs0 s -> run_inv plan fs0 s'.
Proof.
  intros P [ts1 f r ts2 cs fs fs' E|ts c cs fs fs' Hw E] I; [by eapply task_inv|].
  destruct (collect_inv plan fs0 ts c cs fs P I Hw) as (fs1 & E1 & I'). congruence.
Qed.
(** *** The plan of a store *)

Definition range_tasks (ws : list Range) : list (Path * Range) := (fun w => (tmp_file store (Start w), w)) <$> ws.

(** The chunk of a range and its tasks, one per worker. *)
Definition planned (r : Range) (x : chunk * list (Path * Range)) : Prop :=
  exists size ws, 0 < size /\ partition size (Start r) (End_ r) ws /\ x = (mkChunk store (Start r) (range_tasks ws).*1, range_tasks ws).

Lemma plan_bodies concurrency rs : 0 < concurrency -> Forall (fun r => 0 <= Start r < End_ r /\ 2 * End_ r + concurrency < 2 ^ 63) rs -> forall acc,
  exists plan, run_bodies (iavl_chunk concurrency store) rs acc = Some (Ok (acc ++ plan)) /\ Forall2 planned rs plan.
Proof.
  intros Hc. induction 1 as [|r rs [Hr1 Hr2] F IH]; intros acc; [exists []; rewrite app_nil_r; by split|]. cbn [run_bodies].
  destruct (split_work_load_ok concurrency r Hc ltac:(lia) Hr2) as (ws & E & Hp & _). unfold iavl_chunk at 1. rewrite E. cbn [mbind option_bind res_bind].
  destruct (IH (acc ++ [(mkChunk store (Start r) (range_tasks ws).*1, range_tasks ws)])) as (plan & E' & F'). fold (range_tasks ws). rewrite E'.
  eexists (_ :: plan). rewrite <- app_assoc. split; [done|]. constructor; [|done]. eexists _, ws. split_and!; [|exact Hp|done].
  apply Z.div_str_pos. lia.
Qed.

(** The tasks of a planned chunk, joined, are the change sets of its range. *)
Lemma planned_contents r x : 0 < Start r < End_ r -> planned r x ->
  concat (contents <$> x.2.*2) = file_of (changes (Start r) (End_ r)) /\ c_store x.1 = store /\ beginVersion x.1 = Start r /\ taskFiles x.1 = x.2.*1.
Proof.
  intros Hr (size & ws & Hs & Hp & ->). cbn [fst snd c_store beginVersion taskFiles]. split_and!; [|done..].
  assert ((range_tasks ws).*2 = ws) as -> by (unfold range_tasks; rewrite <- list_fmap_compose; apply list_fmap_id).
  destruct r as [i e]. cbn [Start End_] in *. induction Hp as [i e|i e|i e ws Hi Hp IH]; [lia|by cbn; rewrite app_nil_r|].
  rewrite fmap_cons. cbn [concat]. rewrite IH by lia. unfold contents. cbn [Start End_].
  by rewrite (tr_split Tr i (i + size) e), file_of_app by lia.
Qed.

Lemma planned_starts r x : planned r x -> Start r < End_ r ->
  Forall (fun t => temporary t.1 /\ t.1 = tmp_file store (Start t.2) /\ Start r <= Start t.2 < End_ t.2 /\ End_ t.2 <= End_ r) x.2 /\
  StronglySorted Z.lt (Start <$> x.2.*2).
Proof.
  intros (size & ws & Hs & Hp & ->) Hr. destruct (partition_ranges _ _ _ _ Hp Hs) as [F S]. cbn [snd].
  assert ((range_tasks ws).*2 = ws) as -> by (unfold range_tasks; rewrite <- list_fmap_compose; apply list_fmap_id).
  split; [|done]. apply Forall_fmap. eapply Forall_impl; [exact F|]. cbn. intros w Hw. split_and!; [done|done|lia..].
Qed.

(** Over all chunks the starts of the tasks increase. *)
Lemma plan_starts size i stop rs plan : 0 < size -> partition size i stop rs -> Forall2 planned rs plan ->
  Forall (fun t => temporary t.1 /\ t.1 = tmp_file store (Start t.2) /\ i <= Start t.2 < End_ t.2 /\ End_ t.2 <= stop) (concat plan.*2) /\
  StronglySorted Z.lt (Start <$> (concat plan.*2).*2).
Proof.
  intros Hs Hp. revert plan. induction Hp as [i stop|i stop Hi|i stop rs Hi Hp IH]; intros plan F.
  - apply Forall2_nil_inv_l in F as ->. split; constructor.
  - apply Forall2_cons_inv_l in F as (x & plan' & Hx & F & ->). apply Forall2_nil_inv_l in F as ->.
    destruct (planned_starts _ _ Hx) as [F S]; [cbn; lia|]. cbn [Start End_] in *. rewrite fmap_cons. cbn [concat]. rewrite app_nil_r. split; [|done].
    eapply Forall_impl; [exact F|]. cbn. intros t Ht. destruct_and?. split_and!; [done|done|lia..].
  - apply Forall2_cons_inv_l in F as (x & plan' & Hx & F & ->). destruct (IH plan' F) as [F2 S2].
    destruct (planned_starts _ _ Hx) as [F1 S1]; [cbn; lia|]. cbn [Start End_] in *. rewrite fmap_cons. cbn [concat]. split.
    + apply Forall_app. split; (eapply Forall_impl; [eassumption|]); cbn; intros t (? & ? & ? & ?); split_and!; try done; lia.
    + rewrite !fmap_app. apply StronglySorted_app. split_and!; [|done|done].
      intros v w (t & -> & Ht)%list_elem_of_fmap (u & -> & Hu)%list_elem_of_fmap. apply list_elem_of_fmap in Ht as ([f1 r1] & -> & Ht), Hu as ([f2 r2] & -> & Hu).
      rewrite Forall_forall in F1, F2. specialize (F1 _ Ht). specialize (F2 _ Hu). cbn in *. lia.
Qed.

Lemma plan_is_ok size i stop rs plan : 0 < size -> 0 < i -> stop < 2 ^ 63 -> partition size i stop rs -> Forall2 planned rs plan -> plan_ok plan.
Proof.
  intros Hs Hi Hb Hp F. destruct (partition_ranges _ _ _ _ Hp Hs) as [Fr Sr]. destruct (plan_starts size i stop rs plan Hs Hp F) as [Ft St].
  assert (Forall2 (fun r x => taskFiles x.1 = x.2.*1 /\ c_store x.1 = store /\ beginVersion x.1 = Start r) rs plan) as Fx.
  { rewrite Forall_forall in Fr. eapply Forall2_impl; [|intros r x Hrx; exact Hrx]. clear -F Fr Tr Hi. induction F as [|r x rs plan Hx F IH]; constructor.
    - specialize (Fr r ltac:(by left)). destruct (planned_contents r x) as (_ & ? & ? & ?); [lia|done|]. by split_and!.
    - apply IH. intros y Hy. apply Fr. by right. }
  assert (beginVersion <$> plan.*1 = Start <$> rs) as Eb.
  { clear -Fx. induction Fx as [|r x rs plan (_ & _ & E) F IH]; [done|]. rewrite !fmap_cons. by rewrite E, IH. }
  split.
  - rewrite Forall_forall in Fr. apply Forall_forall. intros x Hx. apply list_elem_of_lookup in Hx as [j Hj].
    destruct (Forall2_lookup_r _ _ _ _ _ Fx Hj) as (r & Hr & E1 & E2 & E3). split_and!; [done|done|]. rewrite E3.
    specialize (Fr r ltac:(by eapply list_elem_of_lookup_2)). lia.
  - eapply Forall_impl; [exact Ft|]. cbn. intros t (? & ? & ? & ?). split_and!; [done|lia..].
  - assert ((concat plan.*2).*1 = (fun v => tmp_file store v) <$> (Start <$> (concat plan.*2).*2)) as ->.
    { rewrite <- !list_fmap_compose. apply list_fmap_ext. intros j t Hj. rewrite Forall_forall in Ft.
      destruct (Ft t) as (_ & E & _); [by eapply list_elem_of_lookup_2|]. exact E. }
    apply (nodup_map id); [intros v w; apply tmp_file_inj|]. rewrite list_fmap_id. by apply lt_sorted_nodup.
  - apply (nodup_map beginVersion); [|rewrite Eb; by apply lt_sorted_nodup]. intros c c' E. apply (block_file_inj level). unfold output in E. congruence.
Qed.

(** A run can go on until it is complete, and it gets shorter with every step. *)
Lemma run_progress plan fs0 s : plan_ok plan -> run_inv plan fs0 s -> (dt_tasks s = [] /\ dt_chunks s = []) \/
  exists s', dump_step store level s s'.
Proof.
  intros P I. destruct s as [[|[f r] ts] [|c cs] fs]; cbn; [by left|right..].
  - destruct (collect_inv plan fs0 [] c cs fs P I) as (fs' & E & _); [constructor|]. eexists. by apply step_collect.
  - pose proof I as [(don & todo & -> & _ & _ & _ & _ & Hs) _ _]. cbn in Hs. apply Forall_cons in Hs as [Hs _].
    destruct (plan_temporary _ f r P) as (_ & ? & ?); [rewrite fmap_app, concat_app; apply elem_of_app; by right|].
    eexists. eapply (step_task _ _ [] f r ts). by apply task_content.
  - pose proof I as [(don & todo & -> & _ & _ & _ & _ & Hs) _ _]. cbn in Hs. apply Forall_cons in Hs as [Hs _].
    destruct (plan_temporary _ f r P) as (_ & ? & ?); [rewrite fmap_app, concat_app; apply elem_of_app; by right|].
    eexists. eapply (step_task _ _ [] f r ts). by apply task_content.
Qed.

Definition remaining (s : DumpState) : nat := length (dt_tasks s) + length (dt_chunks s).

Lemma step_shorter s s' : dump_step store level s s' -> (remaining s' < remaining s)%nat.
Proof. intros [ts1 f r ts2 cs fs fs' _|ts c cs fs fs' _ _]; unfold remaining; cbn; rewrite ?length_app; cbn; lia. Qed.

Lemma run_completes plan fs0 s : plan_ok plan -> run_inv plan fs0 s -> exists fs, rtc (dump_step store level) s (mkDump [] [] fs).
Proof.
  intros P. remember (remaining s) as k eqn:Ek. revert s Ek. induction (lt_wf k) as [k _ IH]. intros s -> I.
  destruct (run_progress plan fs0 s P I) as [[E1 E2]|[s' St]].
  - exists (dt_fs s). destruct s. cbn in *. subst. apply rtc_refl.
  - destruct (IH (remaining s') (step_shorter _ _ St) s' eq_refl) as [fs Hr]; [by eapply dump_step_inv|]. exists fs. by eapply rtc_l.
Qed.

Lemma run_inv_rtc plan fs0 s s' : plan_ok plan -> rtc (dump_step store level) s s' -> run_inv plan fs0 s -> run_inv plan fs0 s'.
Proof. intros P. induction 1 as [|s1 s2 s3 St _ IH]; [done|]. intros I. apply IH. by eapply dump_step_inv. Qed.
End Runs.

(** C27: [dump] on an iavl database.  Take any positive chunk size and number of
    workers.  The versions of a store are cut into chunks; then, in whatever order
    the workers run the tasks and however the collection of finished chunks is
    interleaved with them, a state that has been reached can always be completed,
    and at the end every chunk's file opens as exactly the change sets of its
    versions, the temporary files are gone and no other file has changed. *)
Theorem dump_every_interleaving `{!Codecs, !CodecLaws, !IavlDB} (store : name) (level iavlVersion first startVersion endVersion chunkSize concurrency : Z)
  (changes : Z -> Z -> list (Z * ChangeSet)) (fs0 : FS) (Hlevel : level <= 9) (Tr : traverses store changes)
  (Hfirst : getFirstVersion store iavlVersion = Ok first) (Hpos : 0 < first) (Hsize : 0 < chunkSize) (Hconc : 0 < concurrency)
  (He : 0 <= endVersion) (Hb : 2 * endVersion + chunkSize + concurrency < 2 ^ 63) :
  exists plan rs, store_plan iavlVersion startVersion endVersion chunkSize concurrency store = Some (Ok plan) /\
    partition chunkSize (Z.max first startVersion) endVersion rs /\
    forall s, rtc (dump_step store level) (dump_init plan fs0) s ->
      (exists fs, rtc (dump_step store level) s (mkDump [] [] fs)) /\
      (dt_tasks s = [] -> dt_chunks s = [] ->
        (forall r, r ∈ rs -> exists raw, dt_fs s !! [store; block_file (Start r) level] = Some raw /\
          openChangeSetFile (block_file (Start r) level) raw = Ok (file_of (changes (Start r) (End_ r)))) /\
        (forall f, f ∈ (concat plan.*2).*1 -> dt_fs s !! f = None) /\
        (forall p, p ∉ output level <$> plan.*1 -> p ∉ (concat plan.*2).*1 -> dt_fs s !! p = fs0 !! p)).
Proof.
  unfold store_plan. rewrite Hfirst. rewrite (proj2 (Z.eqb_neq first 0)) by lia.
  replace (if first <? startVersion then startVersion else first) with (Z.max first startVersion) by (destruct (Z.ltb_spec first startVersion); lia).
  set (i := Z.max first startVersion).
  destruct (for_ranges_ok (iavl_chunk concurrency store) chunkSize endVersion Hsize ltac:(lia) (rounds i endVersion) i) as (rs & Hp & E); [lia..|].
  destruct (partition_ranges _ _ _ _ Hp Hsize) as [Fr _].
  destruct (plan_bodies store concurrency rs Hconc) with (acc := @nil (chunk * list (Path * Range))) as (plan & Ep & F).
  { eapply Forall_impl; [exact Fr|]. cbn. intros r Hr. lia. }
  exists plan, rs. split; [by rewrite E, Ep|]. split; [done|].
  assert (plan_ok store level plan) as P by (apply (plan_is_ok store level changes Tr chunkSize i endVersion rs); [lia|lia|lia|done|done]).
  intros s Hrun. pose proof (run_inv_rtc store level changes Hlevel Tr plan fs0 _ s P Hrun (init_inv store level changes plan fs0 P)) as I.
  split; [by eapply run_completes|]. intros E1 E2. destruct I as [(don & todo & Epl & Hc & Hd & _ & Hg & _) _ Hrest].
  rewrite E2 in Hc. destruct todo; [|done]. rewrite app_nil_r in Epl. subst don. split_and!.
  - intros r Hr. apply list_elem_of_lookup in Hr as [j Hj]. destruct (Forall2_lookup_l _ _ _ _ _ F Hj) as (x & Hx & Hpl).
    rewrite Forall_forall in Fr. specialize (Fr r ltac:(by eapply list_elem_of_lookup_2)).
    destruct (planned_contents store changes Tr r x) as (Ec & Es & Eb & _); [lia|done|].
    rewrite Forall_forall in Hd. destruct (Hd x) as (raw & Er & Eo); [by eapply list_elem_of_lookup_2|]. exists raw. unfold output in Er.
    rewrite Es, Eb in Er. rewrite Eb, Ec in Eo. done.
  - intros f ([g r] & -> & Hf)%list_elem_of_fmap. by apply (Hg g r).
  - exact Hrest.
Qed.

(** ** Samples *)

(** A database with one store whose first root is at version 3; every version
    writes one key.  The keys of nodes are the version and the nonce. *)
Definition iavl_changes (i e : Z) : list (Z * ChangeSet) := (fun v => (v, [mkKVPair false (str "k") (Some (fmt_d v))])) <$> seqZ i (e - i).

#[local] Instance sample_iavl : IavlDB := {|
  db_iterator store _ _ := if decide (store = str "bank") then ([reverse (PutUint64 3) ++ reverse (PutUint32 2); reverse (PutUint64 3) ++ reverse (PutUint32 1)], None) else ([], None);
  db_latest _ := Ok 12;
  db_traverse _ i j := (iavl_changes i (j + 1), None);
  rootKey v := reverse (PutUint64 v);
  rootScan k := be_decode k;
  nodeKeyInt64 v := reverse (PutUint64 v);
  nodeScan k := k;
|}.

Lemma sample_traverses : traverses (str "bank") iavl_changes.
Proof.
  split.
  - intros i e Hi He. cbn. by replace (e - 1 + 1) with e by lia.
  - intros i j e Hi Hj. unfold iavl_changes. rewrite <- fmap_app. f_equal. replace (e - i) with ((j - i) + (e - j)) by lia. rewrite seqZ_app by lia.
    do 2 f_equal. lia.
Qed.

Lemma dump_every_interleaving_witness :
  exists plan rs, store_plan 1 0 13 4 3 (str "bank") = Some (Ok plan) /\ partition 4 (Z.max 3 0) 13 rs /\
    forall s, rtc (dump_step (str "bank") 0) (dump_init plan ∅) s ->
      (exists fs, rtc (dump_step (str "bank") 0) s (mkDump [] [] fs)) /\
      (dt_tasks s = [] -> dt_chunks s = [] ->
        (forall r, r ∈ rs -> exists raw, dt_fs s !! [str "bank"; block_file (Start r) 0] = Some raw /\
          openChangeSetFile (block_file (Start r) 0) raw = Ok (file_of (iavl_changes (Start r) (End_ r)))) /\
        (forall f, f ∈ (concat plan.*2).*1 -> dt_fs s !! f = None) /\
        (forall p, p ∉ output 0 <$> plan.*1 -> p ∉ (concat plan.*2).*1 -> dt_fs s !! p = (∅ : FS) !! p)).
Proof.
  apply (dump_every_interleaving (str "bank") 0 1 3 0 13 4 3 iavl_changes ∅); try lia.
  - exact sample_traverses.
  - vm_compute. reflexivity.
Defined.
