(* ===== verification/ClientSst.v ===== *)
(** Building SST files from change sets: [versiondb/client/convert_to_sst.go].

    The change sets of a store are encoded as items, sorted by the external
    sorter and written to SST files, which RocksDB ingests later.  A file is only
    closed between different user keys.  The writer of SST files is RocksDB's; it is
    the interface [SSTWriter] with the laws of its documentation: records are added
    in strictly increasing order of the comparator, and a file needs a record.

    Theorems: an item is decoded to the change it was made from, and the order of
    items is the one of the comparator; the conversion writes, in order and
    without splitting a user key over two files, exactly the records that feeding
    the same change sets into the versioned store would write. *)
From stdpp Require Import prelude strings gmap pretty sorting.
From Stdlib Require Import ZArith Lia.
From S2P Require Import Prelude OrdMap Codec Node Hash Snapshot Wal Tree TreeSpec MultiTree DbDir Changeset ExtSort VersionDb ClientVerify StoreHistory ClientDump.
Local Open Scope Z_scope.

(** ** Items *)

Definition SizeKeyLength : Z := 4.

Definition sizeOfSorterItem (pair : KVPair) : Z :=
  let size := len (p_key pair) + Z.of_nat TimestampSize + 1 + SizeKeyLength in
  if negb (p_delete pair) then size + len (default [] (p_value pair)) else size.

(** The parts are copied one after the other into a buffer of that size. *)
Definition encodeSorterItem (version : Z) (pair : KVPair) : bytes :=
  p_key pair ++ PutUint64 version ++
  (if p_delete pair then [z2b 1] else z2b 0 :: default [] (p_value pair)) ++
  PutUint32 (u32 (len (p_key pair))).

(** [a[i:j]]; out of range panics. *)
Definition slice_of (a : bytes) (i j : Z) : res bytes :=
  if (0 <=? i) && (i <=? j) && (j <=? len a) then Ok (take (Z.to_nat (j - i)) (drop (Z.to_nat i) a)) else Panic "slice bounds out of range".

(** The length of the key is in the last bytes; offsets are [uint32]. *)
Definition decodeSorterItem (item : bytes) : res (bytes * KVPair) :=
  let* tail := slice_of item (len item - SizeKeyLength) (len item) in
  let* keyLen := of_option "index out of range" (Uint32 tail) in
  let* key := slice_of item 0 keyLen in
  let offset := keyLen in
  let* version := slice_of item offset (u32 (offset + Z.of_nat TimestampSize)) in
  let offset := u32 (offset + Z.of_nat TimestampSize) in
  let* flag := of_option "index out of range" (item !! Z.to_nat offset) in
  let delete := b2z flag =? 1 in
  if delete then Ok (version, mkKVPair true key None)
  else let* value := slice_of item (u32 (offset + 1)) (len item - SizeKeyLength) in Ok (version, mkKVPair false key (Some value)).

(** Key and version of an item.  The slices of the source are in range for every
    item that was encoded; elsewhere the values here are arbitrary. *)
Definition item_keyLen (a : bytes) : Z := default 0 (Uint32 (drop (length a - 4) a)).
Definition item_key (a : bytes) : bytes := take (Z.to_nat (item_keyLen a)) a.
Definition item_version (a : bytes) : Z := default 0 (Uint64 (drop (Z.to_nat (item_keyLen a)) a)).

Definition compareSorterItem (a b : bytes) : bool :=
  match bytes_compare (item_key a) (item_key b) with
  | Eq => item_version b <? item_version a
  | Lt => true
  | Gt => false
  end.

(** ** Files *)

Definition SSTFileExtension : bytes := str ".sst".
Definition sstFileName (store : name) (seq : Z) : bytes := store ++ str "-" ++ fmt_d seq ++ SSTFileExtension.

Class SSTWriter (W : Type) := {
  sstOpen : W -> bytes -> res W;
  sstPutWithTS : W -> bytes -> bytes -> bytes -> res W;
  sstDeleteWithTS : W -> bytes -> bytes -> res W;
  sstFinish : W -> res W;
  sstFileSize : W -> Z;
}.

Section Convert.
Context {W : Type} `{!SSTWriter W, !Sorting, !Snappy}.

(** The items of the change sets of a file. *)
Definition feed_version (items : list bytes) (version : Z) (cs : ChangeSet) : list bytes * (bool * option string) :=
  (items ++ ((fun pair => encodeSorterItem (u64 version) pair) <$> cs), (true, None)).

Fixpoint feed_files (files : list csFile) (csFiles : list (bytes * Z)) (items : list bytes) : res (list bytes) :=
  match csFiles with
  | [] => Ok items
  | (fileName, _) :: rest =>
      let* items := withChangeSetFile files fileName (fun reader =>
        let* (r, err) := IterateChangeSets reader feed_version items in
        match err with Some e => Err e | None => Ok (r.1 : list bytes) end) in
      feed_files files rest items
  end.

Definition openNextFile (store : name) (w : W) (sstSeq : Z) : res (W * Z) :=
  let* w := sstOpen w (sstFileName store sstSeq) in Ok (w, sstSeq + 1).

(** The loop over the sorted items. *)
Fixpoint write_items (store : name) (prefix : bytes) (sstFileSizeTarget : Z) (items : list bytes) (lastKey : slice) (w : W) (sstSeq : Z) : res (W * Z) :=
  match items with
  | [] => Ok (w, sstSeq)
  | item :: items =>
      let* (ts, kv) := decodeSorterItem item in
      let* (w, sstSeq) :=
        if (sstFileSizeTarget <=? sstFileSize w) && negb (bool_decide (default [] lastKey = p_key kv))
        then let* w := sstFinish w in openNextFile store w sstSeq
        else Ok (w, sstSeq) in
      let key := cloneAppend prefix (p_key kv) in
      let* w := if p_delete kv then sstDeleteWithTS w key ts else sstPutWithTS w key ts (default [] (p_value kv)) in
      write_items store prefix sstFileSizeTarget items (Some (p_key kv)) w sstSeq
  end.

(** [newWriter] is the writer before its first file; [order] and [fuel] are those
    of the sorter. *)
Definition convertSingleStore (newWriter : W) (store : name) (dir : option (list csFile)) (sstFileSizeTarget sorterChunkSize : Z)
  (fuel : nat) (order : list bytes -> list bytes) : res W :=
  let* csFiles := scanChangeSetFiles dir in
  match csFiles with
  | [] => Ok newWriter
  | _ =>
      let* items := feed_files (default [] dir) csFiles [] in
      match items with
      | [] => Ok newWriter
      | _ =>
          let* out := Spawn (ExtSort.mkOptions true true sorterChunkSize compareSorterItem) fuel order items in
          let* (w, sstSeq) := openNextFile store newWriter 0 in
          let* (w, _) := write_items store (storePrefix store) sstFileSizeTarget out None w sstSeq in
          sstFinish w
      end
  end.
End Convert.

(** ** Items: what is encoded *)

(** The item fits: its offsets do not wrap. *)
Definition item_ok (version : Z) (kv : KVPair) : Prop := 0 <= version < 2 ^ 64 /\ sizeOfSorterItem kv < 2 ^ 32.

(** What decoding gives back: a delete has no value, a write has one. *)
Definition decoded (kv : KVPair) : KVPair :=
  mkKVPair (p_delete kv) (p_key kv) (if p_delete kv then None else Some (default [] (p_value kv))).

Lemma encode_size v kv : len (encodeSorterItem v kv) = sizeOfSorterItem kv.
Proof.
  unfold encodeSorterItem, sizeOfSorterItem, PutUint64, PutUint32, SizeKeyLength. rewrite !len_app, !len_le_encode.
  destruct (p_delete kv); cbn [negb]; rewrite ?len_cons; unfold len, TimestampSize; cbn [length]; lia.
Qed.

Lemma slice_of_mid a b c i j : i = len a -> j = len a + len b -> slice_of (a ++ b ++ c) i j = Ok b.
Proof.
  intros -> ->. pose proof (len_nonneg a). pose proof (len_nonneg b). pose proof (len_nonneg c). unfold slice_of. rewrite !len_app.
  rewrite (proj2 (Z.leb_le 0 (len a))), (proj2 (Z.leb_le (len a) _)), (proj2 (Z.leb_le (len a + len b) _)) by lia. cbn [andb].
  unfold len. replace (Z.to_nat (Z.of_nat (length a) + Z.of_nat (length b) - Z.of_nat (length a))) with (length b) by lia.
  by rewrite Nat2Z.id, drop_app_length, take_app_length.
Qed.

Lemma item_parts v kv : item_ok v kv -> exists mid, encodeSorterItem v kv = p_key kv ++ PutUint64 v ++ mid ++ PutUint32 (len (p_key kv)) /\
  mid = (if p_delete kv then [z2b 1] else z2b 0 :: default [] (p_value kv)) /\ 0 <= len (p_key kv) < 2 ^ 32 /\
  len (p_key kv) + 8 + len mid + 4 < 2 ^ 32.
Proof.
  intros [Hv Hs]. pose proof (len_nonneg (p_key kv)). pose proof (len_nonneg (default [] (p_value kv))) as Hl. exists (if p_delete kv then [z2b 1] else z2b 0 :: default [] (p_value kv)).
  unfold encodeSorterItem, sizeOfSorterItem, SizeKeyLength, TimestampSize in *.
  destruct (p_delete kv); cbn [negb] in *; rewrite u32_small by lia; (split_and!; [done|done|lia|lia|]);
    change (len [z2b 1]) with 1 || rewrite len_cons; lia.
Qed.

Lemma decode_encode_item v kv : item_ok v kv -> decodeSorterItem (encodeSorterItem v kv) = Ok (PutUint64 v, decoded kv).
Proof.
  intros H. destruct (item_parts v kv H) as (mid & E & Em & Hk & Ht). destruct H as [Hv _]. rewrite E. unfold decodeSorterItem.
  pose proof (len_nonneg mid). assert (len (PutUint64 v) = 8) as L8 by apply len_le_encode.
  assert (len (PutUint32 (len (p_key kv))) = 4) as L4 by apply len_le_encode.
  set (item := p_key kv ++ PutUint64 v ++ mid ++ PutUint32 (len (p_key kv))).
  assert (len item = len (p_key kv) + 8 + len mid + 4) as Li by (unfold item; rewrite !len_app, L8, L4; lia).
  assert (slice_of item (len item - SizeKeyLength) (len item) = Ok (PutUint32 (len (p_key kv)))) as ->.
  { rewrite Li. assert (item = (p_key kv ++ PutUint64 v ++ mid) ++ PutUint32 (len (p_key kv)) ++ []) as -> by (unfold item; by rewrite app_nil_r, <- !app_assoc).
    apply slice_of_mid; rewrite !len_app, ?L8, ?L4; unfold SizeKeyLength; lia. }
  cbn [res_bind]. rewrite <- (app_nil_r (PutUint32 _)), Uint32_Put by lia. cbn [of_option res_bind].
  assert (slice_of item 0 (len (p_key kv)) = Ok (p_key kv)) as -> by (apply (slice_of_mid []); unfold len; cbn; lia).
  cbn [res_bind]. rewrite !(u32_small (len (p_key kv) + Z.of_nat TimestampSize)) by (unfold TimestampSize; lia).
  assert (slice_of item (len (p_key kv)) (len (p_key kv) + Z.of_nat TimestampSize) = Ok (PutUint64 v)) as -> by (apply slice_of_mid; [done|unfold TimestampSize; lia]).
  cbn [res_bind]. assert (forall x tl, mid = x :: tl -> item !! Z.to_nat (len (p_key kv) + Z.of_nat TimestampSize) = Some x) as Hflag.
  { intros x tl ->. unfold item. rewrite app_assoc. rewrite lookup_app_r; [|rewrite length_app; unfold len in *; unfold TimestampSize; lia].
    replace (Z.to_nat _ - length (p_key kv ++ PutUint64 v))%nat with 0%nat; [done|]. rewrite length_app. unfold len, TimestampSize in *. lia. }
  unfold decoded. destruct (p_delete kv).
  - rewrite (Hflag (z2b 1) [] Em). done.
  - rewrite (Hflag (z2b 0) (default [] (p_value kv)) Em). cbn [of_option res_bind]. change (b2z (z2b 0) =? 1) with false. cbn iota.
    rewrite u32_small by (unfold TimestampSize; lia).
    assert (slice_of item (len (p_key kv) + Z.of_nat TimestampSize + 1) (len item - SizeKeyLength) = Ok (default [] (p_value kv))) as ->; [|done].
    rewrite Li. assert (item = (p_key kv ++ PutUint64 v ++ [z2b 0]) ++ default [] (p_value kv) ++ PutUint32 (len (p_key kv))) as ->
      by (unfold item; by rewrite Em, <- !app_assoc).
    rewrite Em, len_cons. apply slice_of_mid; rewrite !len_app, L8; change (len [z2b 0]) with 1; unfold SizeKeyLength, TimestampSize; lia.
Qed.

Lemma item_key_encode v kv : item_ok v kv -> item_key (encodeSorterItem v kv) = p_key kv /\ item_version (encodeSorterItem v kv) = v.
Proof.
  intros H. destruct (item_parts v kv H) as (mid & E & _ & Hk & _). destruct H as [Hv _].
  assert (item_keyLen (encodeSorterItem v kv) = len (p_key kv)) as Ek.
  { unfold item_keyLen. rewrite E, !app_assoc. rewrite length_app. assert (length (PutUint32 (len (p_key kv))) = 4%nat) as -> by apply length_le_encode.
    rewrite Nat.add_sub, drop_app_length. rewrite <- (app_nil_r (PutUint32 _)), Uint32_Put by lia. done. }
  unfold item_key, item_version. rewrite Ek, E. unfold len. rewrite Nat2Z.id, take_app_length, drop_app_length. split; [done|].
  by rewrite Uint64_Put.
Qed.

(** ** The order of items *)

(** Key first; for equal keys the larger version first. *)
Definition item_before (k k' : bytes) (v v' : Z) : Prop := k ≺ k' \/ (k = k' /\ v' < v).

Lemma compareSorterItem_true a b : compareSorterItem a b = true <-> item_before (item_key a) (item_key b) (item_version a) (item_version b).
Proof.
  unfold compareSorterItem, item_before. destruct (bytes_compare (item_key a) (item_key b)) eqn:E.
  - apply bytes_compare_eq in E. rewrite E, Z.ltb_lt. split; [by right|]. intros [Hl|[_ ?]]; [by apply bytes_lt_irrefl in Hl|done].
  - split; [by left|done].
  - apply bytes_compare_gt in E. split; [done|]. intros [Hl|[Hl _]]; [|rewrite Hl in E]; exfalso; eapply bytes_lt_irrefl; [by eapply bytes_lt_trans|exact E].
Qed.

#[export] Instance compareSorterItem_weak : StrictWeak compareSorterItem.
Proof.
  split.
  - intros a b H. apply not_true_iff_false. rewrite compareSorterItem_true in *. intros H'. unfold item_before in *.
    destruct H as [H|[E H]], H' as [H'|[E' H']]; [| | |lia]; apply (bytes_lt_irrefl (item_key a)); [by eapply bytes_lt_trans|congruence|congruence].
  - intros a b c. rewrite <- !not_true_iff_false, !compareSorterItem_true. unfold item_before. intros H1 H2 H3.
    destruct (bytes_lt_total (item_key b) (item_key a)) as [H|[H|H]]; [by apply H1; left| |].
    + destruct H3 as [H3|[H3 H4]]; [apply H2; left; congruence|]. apply H1. right. split; [done|].
      destruct (Z.lt_ge_cases (item_version a) (item_version b)); [done|]. destruct H2. right. split; [congruence|lia].
    + apply H2. left. destruct H3 as [H3|[H3 _]]; [by eapply bytes_lt_trans|by rewrite H3].
Qed.

(** Items are ordered as RocksDB orders the keys they become. *)
Lemma item_order v kv v' kv' : item_ok v kv -> item_ok v' kv' ->
  compareSorterItem (encodeSorterItem v kv) (encodeSorterItem v' kv') = true <->
  compare (p_key kv ++ PutUint64 v) (p_key kv' ++ PutUint64 v') = Ok Lt.
Proof.
  intros H H'. rewrite compareSorterItem_true. destruct (item_key_encode v kv H) as [-> ->], (item_key_encode v' kv' H') as [-> ->].
  destruct H as [Hv _], H' as [Hv' _]. rewrite (proj1 (comparator_order _ _ v v' Hv Hv')). unfold item_before.
  destruct (bytes_compare (p_key kv) (p_key kv')) eqn:E.
  - apply bytes_compare_eq in E. rewrite E. split.
    + intros [Hl|[_ Hl]]; [by apply bytes_lt_irrefl in Hl|]. by rewrite (proj2 (Z.compare_lt_iff v' v)).
    + intros [= Hl]. right. by rewrite Z.compare_lt_iff in Hl.
  - split; [done|by left].
  - apply bytes_compare_gt in E. split; [|done]. intros [Hl|[Hl _]]; [|rewrite Hl in E]; exfalso; eapply bytes_lt_irrefl; [by eapply bytes_lt_trans|exact E].
Qed.

(** ** Writing the files *)

Definition op_key (o : BatchOp) : bytes := match o with BPut k _ => k | BPutTS k _ _ => k | BDeleteTS k _ => k end.
Definition op_ts (o : BatchOp) : bytes := match o with BPut _ _ => [] | BPutTS _ t _ => t | BDeleteTS _ t => t end.

(** The key comes after the last record in the order of the comparator. *)
Definition comes_after (rs : list BatchOp) (key ts : bytes) : Prop :=
  match last rs with Some o => compare (op_key o ++ op_ts o) (key ++ ts) = Ok Lt | None => True end.

(** RocksDB's writer: the finished files, and the open file with its records.
    Records must come in order; a file without records cannot be finished. *)
Class SSTLaws (W : Type) `{!SSTWriter W} := {
  sst_files : W -> list (bytes * list BatchOp);
  sst_current : W -> option (bytes * list BatchOp);
  sst_open : forall w f, sst_current w = None ->
    exists w', sstOpen w f = Ok w' /\ sst_current w' = Some (f, []) /\ sst_files w' = sst_files w;
  sst_put : forall w f rs key ts v, sst_current w = Some (f, rs) -> comes_after rs key ts ->
    exists w', sstPutWithTS w key ts v = Ok w' /\ sst_current w' = Some (f, rs ++ [BPutTS key ts v]) /\ sst_files w' = sst_files w;
  sst_delete : forall w f rs key ts, sst_current w = Some (f, rs) -> comes_after rs key ts ->
    exists w', sstDeleteWithTS w key ts = Ok w' /\ sst_current w' = Some (f, rs ++ [BDeleteTS key ts]) /\ sst_files w' = sst_files w;
  sst_finish : forall w f rs, sst_current w = Some (f, rs) -> rs <> [] ->
    exists w', sstFinish w = Ok w' /\ sst_current w' = None /\ sst_files w' = sst_files w ++ [(f, rs)];
  sst_empty : forall w f, sst_current w = Some (f, []) -> sstFileSize w = 0;
}.

(** A change of a store at a version. *)
Abbreviation change := (Z * KVPair)%type.

(** The operation of [FeedChangeSet] for a change. *)
Definition feed_op (store : name) (c : change) : BatchOp :=
  let key := cloneAppend (storePrefix store) (p_key c.2) in
  let ts := PutUint64 (u64 c.1) in
  if p_delete c.2 then BDeleteTS key ts else BPutTS key ts (default [] (p_value c.2)).

Definition change_ok (c : change) : Prop := 0 <= c.1 < 2 ^ 63 /\ sizeOfSorterItem c.2 < 2 ^ 32.
Definition change_lt (c c' : change) : Prop := item_before (p_key c.2) (p_key c'.2) c.1 c'.1.
Definition item_of (c : change) : bytes := encodeSorterItem (u64 c.1) c.2.

Lemma change_item c : change_ok c -> item_ok (u64 c.1) c.2 /\ u64 c.1 = c.1.
Proof. intros [Hc Hs]. assert (u64 c.1 = c.1) as E by (apply u64_small; lia). rewrite E. split; [split; [lia|done]|done]. Qed.

Section Written.
Context {W : Type} `{!SSTWriter W, !SSTLaws W} (store : name) (target : Z).
Hypothesis Htarget : 0 < target.

(** Files with their changes; no user key is in two files. *)
Definition apart (a b : list change) : Prop := forall c c', c ∈ a -> c' ∈ b -> p_key c.2 ≺ p_key c'.2.

Lemma feed_op_after ys y c : change_ok y -> change_ok c -> change_lt y c ->
  comes_after (feed_op store <$> (ys ++ [y])) (cloneAppend (storePrefix store) (p_key c.2)) (PutUint64 (u64 c.1)).
Proof.
  intros Hy Hc Hlt. unfold comes_after. rewrite fmap_app. cbn [fmap list_fmap]. rewrite last_snoc.
  destruct (change_item y Hy) as [_ Ey], (change_item c Hc) as [_ Ec]. destruct Hy as [Hy _], Hc as [Hc _].
  assert (op_key (feed_op store y) = cloneAppend (storePrefix store) (p_key y.2) /\ op_ts (feed_op store y) = PutUint64 (u64 y.1)) as [-> ->]
    by (unfold feed_op; by destruct (p_delete y.2)).
  rewrite Ey, Ec. rewrite (proj1 (comparator_order _ _ y.1 c.1 ltac:(lia) ltac:(lia))). unfold cloneAppend. rewrite compare_app_same.
  unfold change_lt, item_before in Hlt. destruct Hlt as [Hl|[El Hl]]; [by unfold bytes_lt in Hl; rewrite Hl|].
  rewrite El, bytes_compare_refl. by rewrite (proj2 (Z.compare_lt_iff _ _)).
Qed.

Lemma put_change w f ys c : sst_current w = Some (f, feed_op store <$> ys) -> change_ok c ->
  comes_after (feed_op store <$> ys) (cloneAppend (storePrefix store) (p_key c.2)) (PutUint64 (u64 c.1)) ->
  exists w', (if p_delete (decoded c.2) then sstDeleteWithTS w (cloneAppend (storePrefix store) (p_key (decoded c.2))) (PutUint64 (u64 c.1))
              else sstPutWithTS w (cloneAppend (storePrefix store) (p_key (decoded c.2))) (PutUint64 (u64 c.1)) (default [] (p_value (decoded c.2)))) = Ok w' /\
    sst_current w' = Some (f, feed_op store <$> (ys ++ [c])) /\ sst_files w' = sst_files w.
Proof.
  intros Hw Hc Ha. rewrite fmap_app. cbn [fmap list_fmap]. unfold decoded. cbn [p_delete p_key p_value].
  assert (feed_op store c = if p_delete c.2 then BDeleteTS (cloneAppend (storePrefix store) (p_key c.2)) (PutUint64 (u64 c.1))
    else BPutTS (cloneAppend (storePrefix store) (p_key c.2)) (PutUint64 (u64 c.1)) (default [] (p_value c.2))) as -> by done.
  destruct (p_delete c.2).
  - destruct (sst_delete w f _ _ _ Hw Ha) as (w' & E & E1 & E2). by exists w'.
  - cbn [default from_option id]. destruct (sst_put w f _ _ _ (default [] (p_value c.2)) Hw Ha) as (w' & E & E1 & E2). by exists w'.
Qed.

Definition written (p : bytes * list change) : bytes * list BatchOp := (p.1, feed_op store <$> p.2).

(** What the loop over sorted items has written at its end: the finished files
    [parts], and [zs] in the open one. *)
Record sst_result (seq : Z) (cs : list change) (w w' : W) (parts : list (bytes * list change)) (f : bytes) (zs : list change) : Prop := {
  sr_files : sst_files w' = sst_files w ++ (written <$> parts);
  sr_current : sst_current w' = Some (f, feed_op store <$> zs);
  sr_all : concat parts.*2 ++ zs = cs;
  sr_nonempty : Forall (fun p => p.2 <> []) parts;
  sr_apart : StronglySorted apart (parts.*2 ++ [zs]);
  sr_names : parts.*1 ++ [f] = sstFileName store <$> seqZ seq (len parts + 1);
}.

Lemma sst_result_cons seq ys cs w w1 w' g parts f zs : ys <> [] -> apart ys cs ->
  sst_files w1 = sst_files w ++ [(sstFileName store seq, feed_op store <$> ys)] -> g = sstFileName store seq ->
  sst_result (seq + 1) cs w1 w' parts f zs -> sst_result seq (ys ++ cs) w w' ((g, ys) :: parts) f zs.
Proof.
  intros Hne Ha Hf -> [R1 R2 R3 R4 R5 R6]. split.
  - rewrite R1, Hf, <- app_assoc. done.
  - done.
  - rewrite fmap_cons. cbn [concat snd]. by rewrite <- app_assoc, R3.
  - by constructor.
  - rewrite fmap_cons. cbn [snd app]. constructor; [done|]. apply Forall_forall. intros l Hl c c' Hc Hc'. apply (Ha c c' Hc). rewrite <- R3.
    apply elem_of_app in Hl as [Hl|Hl]; apply elem_of_app; [left|right; by apply list_elem_of_singleton in Hl as ->].
    apply list_elem_of_In, in_concat. exists l. split; by apply list_elem_of_In.
  - rewrite fmap_cons. cbn [fst app]. rewrite R6, len_cons. pose proof (len_nonneg parts). rewrite (seqZ_cons seq) by lia. rewrite fmap_cons. do 2 f_equal.
    f_equal; lia.
Qed.

(** Between different keys of a sorted list, all keys before are smaller than all
    after. *)
Lemma sorted_apart ys y c xs : StronglySorted change_lt ((ys ++ [y]) ++ c :: xs) -> p_key y.2 <> p_key c.2 -> apart (ys ++ [y]) (c :: xs).
Proof.
  intros S Hne. assert (forall a b, change_lt a b -> p_key a.2 = p_key b.2 \/ p_key a.2 ≺ p_key b.2) as Hle.
  { intros a b [?|[? _]]; [by right|by left]. }
  pose proof S as Sa. apply StronglySorted_app in Sa as (Sx & Sy & Sz).
  assert (p_key y.2 ≺ p_key c.2) as Hlt by (destruct (Hle y c) as [|]; [apply Sx; [apply elem_of_app; right|]; by left|done|done]).
  apply StronglySorted_inv in Sz as [_ Sz]. apply StronglySorted_app in Sy as (Sy & _ & _). rewrite Forall_forall in Sz.
  intros a b Ha Hb.
  assert (p_key a.2 = p_key y.2 \/ p_key a.2 ≺ p_key y.2) as Hay.
  { apply elem_of_app in Ha as [Ha|Ha]; [|apply list_elem_of_singleton in Ha as ->; by left]. apply Hle, Sy; [done|by left]. }
  assert (p_key c.2 = p_key b.2 \/ p_key c.2 ≺ p_key b.2) as Hcb by (apply elem_of_cons in Hb as [->|Hb]; [by left|by apply Hle, Sz]).
  assert (p_key a.2 ≺ p_key c.2) as Hac by (destruct Hay as [->|Hay]; [done|by eapply bytes_lt_trans]).
  destruct Hcb as [<-|Hcb]; [done|by eapply bytes_lt_trans].
Qed.

Lemma write_items_ok xs : forall w ys seq, sst_current w = Some (sstFileName store (seq - 1), feed_op store <$> ys) ->
  Forall change_ok (ys ++ xs) -> StronglySorted change_lt (ys ++ xs) -> (ys ++ xs <> []) ->
  exists w' seq' parts f zs, zs <> [] /\
    write_items store (storePrefix store) target (item_of <$> xs) ((fun c => p_key c.2) <$> last ys) w seq = Ok (w', seq') /\
    sst_result (seq - 1) (ys ++ xs) w w' parts f zs.
Proof.
  induction xs as [|c xs IH]; intros w ys seq Hw F S Hne.
  { rewrite app_nil_r in *. exists w, seq, [], (sstFileName store (seq - 1)), ys. split; [done|]. split; [done|].
    split; try done; cbn; [by rewrite app_nil_r|repeat constructor]. }
  rewrite fmap_cons. cbn [write_items]. pose proof F as Fc. rewrite Forall_app, Forall_cons in Fc. destruct Fc as (Fy & Hc & Fx).
  destruct (change_item c Hc) as [Hi _]. unfold item_of at 1. rewrite decode_encode_item by done. cbn [res_bind].
  change (p_key (decoded c.2)) with (p_key c.2).
  destruct ((target <=? sstFileSize w) && negb (bool_decide (default [] ((fun c0 => p_key c0.2) <$> last ys) = p_key c.2))) eqn:Eb.
  - apply andb_true_iff in Eb as [Hsz%Z.leb_le Hk%negb_true_iff]. apply bool_decide_eq_false in Hk.
    destruct ys as [|y ys _] using rev_ind; [rewrite (sst_empty w _ Hw) in Hsz; lia|]. rewrite last_snoc in Hk. cbn in Hk.
    destruct (sst_finish w _ _ Hw) as (w1 & E1 & C1 & F1); [rewrite fmap_app; by destruct (feed_op store <$> ys)|].
    destruct (sst_open w1 (sstFileName store seq) C1) as (w2 & E2 & C2 & F2).
    destruct (put_change w2 (sstFileName store seq) [] c C2 Hc) as (w3 & E3 & C3 & F3); [done|]. change (p_key (decoded c.2)) with (p_key c.2) in E3.
    rewrite E1. cbn [res_bind]. unfold openNextFile. rewrite E2. cbn [res_bind]. rewrite E3. cbn [res_bind].
    destruct (IH w3 [c] (seq + 1)) as (w' & seq' & parts & f & zs & Hz & E & R); [by replace (seq + 1 - 1) with seq by lia|by constructor| |done|].
    { by apply StronglySorted_app_1_r in S. }
    exists w', seq', ((sstFileName store (seq - 1), ys ++ [y]) :: parts), f, zs. split_and!; [done|exact E|].
    apply (sst_result_cons (seq - 1) (ys ++ [y]) (c :: xs) w w3); [by destruct ys|by apply sorted_apart|by rewrite F3, F2, F1|done|].
    by replace (seq - 1 + 1) with (seq + 1 - 1) by lia.
  - cbn [res_bind]. destruct (put_change w (sstFileName store (seq - 1)) ys c Hw Hc) as (w1 & E1 & Hw1 & Hf1).
    { destruct ys as [|y ys _] using rev_ind; [done|]. rewrite Forall_app, Forall_cons in Fy. destruct Fy as (_ & Hy & _). apply feed_op_after; [done..|].
      rewrite <- app_assoc in S. apply StronglySorted_app_1_r in S. cbn [app] in S. apply StronglySorted_inv in S as [_ S]. by apply Forall_cons in S as [S _]. }
    change (p_key (decoded c.2)) with (p_key c.2) in E1. rewrite E1. cbn [res_bind].
    destruct (IH w1 (ys ++ [c]) seq Hw1) as (w' & seq' & parts & f & zs & Hz & E & R); [by rewrite <- app_assoc..| |].
    { by destruct ys. }
    rewrite <- app_assoc in R. rewrite last_snoc in E. cbn [app fmap option_fmap option_map] in *. exists w', seq', parts, f, zs. split_and!; [done..|].
    destruct R as [R1 R2 R3 R4 R5 R6]. split; try done. by rewrite R1, Hf1.
Qed.
End Written.

(** ** From files to records *)

(** The changes of versions, in the order of the files. *)
Definition changes_of (vs : list (Z * ChangeSet)) : list change := vs ≫= fun x => (fun p => (x.1, p)) <$> x.2.

(** [feed_op] is what [FeedChangeSet] writes for each change. *)
Lemma FeedChangeSet_ops {D It : Type} `{!RocksIter It, !RocksDB D It} (s : @Store D) v store cs :
  FeedChangeSet s v store cs = write s (feed_op store <$> ((fun p => (v, p)) <$> cs)).
Proof. unfold FeedChangeSet. by rewrite <- list_fmap_compose. Qed.

Lemma item_read_as v p : encodeSorterItem v (read_as p) = encodeSorterItem v p.
Proof. unfold encodeSorterItem, read_as. cbn. by destruct p as [[] k [x|]]. Qed.

Lemma visit_feed vs : forall items off, exists off', visit true feed_version items off vs None = (items ++ (item_of <$> changes_of vs), off', None).
Proof.
  induction vs as [|[v cs] vs IH]; intros items off; [exists off; cbn; by rewrite app_nil_r|]. cbn [visit]. unfold feed_version at 1.
  edestruct IH as [off' E]. rewrite E. exists off'. do 2 f_equal. unfold changes_of. rewrite bind_cons, fmap_app, <- app_assoc. f_equal.
  f_equal. cbn [fst snd]. rewrite <- !list_fmap_compose. apply list_fmap_ext. intros i p _. apply item_read_as.
Qed.

Lemma feed_files_ok dir fs : NoDup dir.*1 -> Forall (fun f => file_fits f.2 /\ (f.1, Some (file_of f.2)) ∈ dir) fs -> forall items,
  feed_files dir (with_first <$> fs) items = Ok (items ++ (item_of <$> changes_of (all_versions fs))).
Proof.
  intros N. induction 1 as [|[n vs] fs [[Hf Hl] Hin] F IH]; intros items; [cbn; by rewrite app_nil_r|].
  rewrite fmap_cons. change (with_first (n, vs)) with (n, from_option fst 0 (head vs)). cbn [feed_files]. cbn [fst snd] in *.
  unfold withChangeSetFile. destruct (find_file dir n _ N Hin) as [i Ei]. rewrite Ei, IterateChangeSets_file by done.
  destruct (visit_feed vs items 0) as [off E]. rewrite E. cbn [res_bind fst]. rewrite IH. f_equal.
  change (all_versions ((n, vs) :: fs)) with (vs ++ all_versions fs). unfold changes_of. by rewrite bind_app, fmap_app, app_assoc.
Qed.

(** Sorted items of distinct changes are strictly ordered. *)
Lemma sorted_changes cs : Forall change_ok cs -> NoDup ((fun c => (p_key c.2, c.1)) <$> cs) -> StronglySorted (le compareSorterItem) (item_of <$> cs) ->
  StronglySorted change_lt cs.
Proof.
  intros F. induction F as [|c cs Hc F IH]; intros N S; [constructor|]. rewrite fmap_cons in N. rewrite fmap_cons in S. apply NoDup_cons in N as [Hn N].
  apply StronglySorted_inv in S as [S Sc]. constructor; [auto|]. rewrite Forall_fmap in Sc. rewrite Forall_forall in Sc, F. apply Forall_forall.
  intros d Hd. specialize (Sc d Hd). specialize (F d Hd). cbn in Sc. unfold le in Sc. rewrite <- not_true_iff_false, compareSorterItem_true in Sc.
  destruct (change_item c Hc) as [Ic Ec], (change_item d F) as [Id Ed]. unfold item_of in Sc.
  destruct (item_key_encode _ _ Ic) as [K1 V1], (item_key_encode _ _ Id) as [K2 V2]. rewrite K1, K2, V1, V2, Ec, Ed in Sc.
  unfold change_lt. unfold item_before in *. destruct (bytes_lt_total (p_key c.2) (p_key d.2)) as [H|[H|H]]; [by left| |by destruct Sc; left].
  right. split; [done|]. destruct (Z.lt_trichotomy d.1 c.1) as [|[E|]]; [done| |destruct Sc; by right].
  destruct Hn. apply list_elem_of_fmap. exists d. by rewrite H, E.
Qed.

(** The directory of a store for the conversion: the files tell versions in
    order, the changes fit and no key is changed twice in a version. *)
Record convertible (dir : list csFile) (fs : told_files) : Prop := {
  cv_lists : lists dir fs;
  cv_files : Forall (fun f => f.2 <> [] /\ file_fits f.2) fs;
  cv_sorted : StronglySorted Z.lt (all_versions fs).*1;
  cv_changes : Forall change_ok (changes_of (all_versions fs));
  cv_versions : forall v, v ∈ (all_versions fs).*1 -> 0 <= v < 2 ^ 63;
  cv_nodup : NoDup ((fun c => (p_key c.2, c.1)) <$> changes_of (all_versions fs));
}.

(** The conversion of the files of a store. *)
Lemma convert_ok {W : Type} `{!SSTWriter W, !SSTLaws W, Srt : !Sorting, Snp : !Snappy, SL : !SortingLaws, NL : !SnappyLaws}
  (w : W) (store : name) (dir : list csFile) (fs : told_files) (target sorterChunkSize : Z) (fuel : nat) (order : list bytes -> list bytes)
  (C : convertible dir fs) (Hw : sst_current w = None) (Htarget : 0 < target) (Ho : forall x, order x ≡ₚ x)
  (Hf : (length (changes_of (all_versions fs)) < fuel)%nat) :
  (changes_of (all_versions fs) = [] -> convertSingleStore w store (Some dir) target sorterChunkSize fuel order = Ok w) /\
  (changes_of (all_versions fs) <> [] -> exists (w' : W) (parts : list (bytes * list change)), convertSingleStore w store (Some dir) target sorterChunkSize fuel order = Ok w' /\
    sst_current w' = None /\ sst_files w' = sst_files w ++ (written store <$> parts) /\
    concat parts.*2 ≡ₚ changes_of (all_versions fs) /\ StronglySorted change_lt (concat parts.*2) /\
    StronglySorted (fun a b : list change => forall c c', c ∈ a -> c' ∈ b -> p_key c.2 ≺ p_key c'.2) parts.*2 /\
    sstFileName store <$> seqZ 0 (len parts) = parts.*1).
Proof.
  destruct C as [Hl Hff Hs Hc Hv Hn]. pose proof Hl as [Hnd [em Hdir]].
  assert (Forall (fun f : bytes * list (Z * ChangeSet) => f.2 <> []) fs) as Hne by (eapply Forall_impl; [exact Hff|]; by intros ? []).
  assert (feed_files dir (with_first <$> fs) [] = Ok (item_of <$> changes_of (all_versions fs))) as Efeed.
  { rewrite feed_files_ok; [done|done|]. rewrite Forall_forall in Hff |- *. intros f Hin. split; [by apply Hff|]. rewrite Hdir. apply elem_of_app. left.
    apply list_elem_of_fmap. by exists f. }
  unfold convertSingleStore. rewrite (scan_ok dir fs Hl Hne Hs Hv). cbn [res_bind default from_option id].
  split.
  - intros E. destruct fs as [|f fs]; [done|]. rewrite fmap_cons in *. rewrite Efeed, E. done.
  - intros Hcne. assert (with_first <$> fs <> []) as Hfs by (destruct fs; done). destruct (with_first <$> fs) as [|x rest]; [done|]. rewrite Efeed. cbn [res_bind].
    destruct (spawn_sorts (ExtSort.mkOptions true true sorterChunkSize compareSorterItem) order (item_of <$> changes_of (all_versions fs)) fuel) as (out & Eo & So & Po).
    { apply compareSorterItem_weak. }
    { apply Forall_fmap. eapply Forall_impl; [exact Hc|]. intros c [_ Hsz]. cbn. unfold item_of. by rewrite encode_size. }
    { done. }
    { by rewrite length_fmap. }
    destruct (fmap_perm_inv _ _ _ Po) as (cs & -> & Pc). cbn [LesserFunc] in So.
    apply sorted_changes in So; [|by rewrite Pc|by rewrite Pc]. assert (cs <> []) as Hcs by (intros ->; by apply Permutation_nil_l in Pc).
    destruct (item_of <$> changes_of (all_versions fs)) as [|i0 it] eqn:Ei; [apply fmap_nil_inv in Ei; done|]. rewrite Eo. cbn [res_bind].
    unfold openNextFile. destruct (sst_open w (sstFileName store 0) Hw) as (w1 & E1 & C1 & F1). rewrite E1. cbn [res_bind].
    destruct (write_items_ok store target Htarget cs w1 [] (0 + 1)) as (w2 & seq & parts & f & zs & Hz & E2 & R); [done|by rewrite Pc|done|done|].
    cbn [last fmap option_fmap option_map app] in E2, R. rewrite E2. cbn [res_bind]. destruct R as [R1 R2 R3 R4 R5 R6].
    destruct (sst_finish w2 f _ R2) as (w' & E3 & C3 & F3); [intros E; by apply fmap_nil_inv in E|]. exists w', (parts ++ [(f, zs)]).
    assert ((parts ++ [(f, zs)]).*2 = parts.*2 ++ [zs]) as Ep by (by rewrite fmap_app).
    assert (concat (parts ++ [(f, zs)]).*2 = cs) as Ec by (rewrite Ep, concat_app; cbn; by rewrite app_nil_r).
    rewrite Ec, Ep. split_and!; [done|done| |done|done|exact R5|].
    + rewrite F3, R1, F1, <- app_assoc, fmap_app. done.
    + rewrite fmap_app, len_app. symmetry. exact R6.
Qed.

(** [build-versiondb-sst] writes exactly the changes of a store.  The change
    set files are cut and listed in any way.  Without a change nothing is
    written.  Otherwise the conversion ends without error, and the files that
    RocksDB's writer has then finished, numbered from 0, hold together every
    change once, as the record that feeding the change set into the versioned
    store would write; the records are in the order of the comparator, and no
    user key is in two files. *)
Theorem sst_holds_changes {W : Type} `{!SSTWriter W, !SSTLaws W, Srt : !Sorting, Snp : !Snappy, SL : !SortingLaws, NL : !SnappyLaws}
  (w : W) (store : name) (dir : list csFile) (fs : told_files) (target sorterChunkSize : Z) (fuel : nat) (order : list bytes -> list bytes)
  (C : convertible dir fs) (Hw : sst_current w = None) (Htarget : 0 < target) (Ho : forall x, order x ≡ₚ x)
  (Hf : (length (changes_of (all_versions fs)) < fuel)%nat) :
  (changes_of (all_versions fs) = [] -> convertSingleStore w store (Some dir) target sorterChunkSize fuel order = Ok w) /\
  (changes_of (all_versions fs) <> [] -> exists (w' : W) (parts : list (bytes * list change)), convertSingleStore w store (Some dir) target sorterChunkSize fuel order = Ok w' /\
    sst_current w' = None /\ sst_files w' = sst_files w ++ (written store <$> parts) /\
    concat parts.*2 ≡ₚ changes_of (all_versions fs) /\ StronglySorted change_lt (concat parts.*2) /\
    StronglySorted (fun a b : list change => forall c c', c ∈ a -> c' ∈ b -> p_key c.2 ≺ p_key c'.2) parts.*2 /\
    sstFileName store <$> seqZ 0 (len parts) = parts.*1).
Proof. by apply convert_ok. Qed.

(** ** Samples *)

(** A writer that keeps its files in memory. *)
Record ListSst : Type := mkSst { ls_files : list (bytes * list BatchOp); ls_current : option (bytes * list BatchOp) }.

Definition ls_add (w : ListSst) (o : BatchOp) : res ListSst :=
  match ls_current w with
  | None => Err "file is not opened"
  | Some (f, rs) =>
      match last rs with
      | None => Ok (mkSst (ls_files w) (Some (f, rs ++ [o])))
      | Some o' => match compare (op_key o' ++ op_ts o') (op_key o ++ op_ts o) with
                   | Ok Lt => Ok (mkSst (ls_files w) (Some (f, rs ++ [o])))
                   | _ => Err "keys must be added in strict ascending order"
                   end
      end
  end.

#[export] Instance list_sst : SSTWriter ListSst := {|
  sstOpen w f := match ls_current w with None => Ok (mkSst (ls_files w) (Some (f, []))) | Some _ => Err "file is open" end;
  sstPutWithTS w k t v := ls_add w (BPutTS k t v);
  sstDeleteWithTS w k t := ls_add w (BDeleteTS k t);
  sstFinish w := match ls_current w with
                 | Some (f, (_ :: _) as rs) => Ok (mkSst (ls_files w ++ [(f, rs)]) None)
                 | _ => Err "cannot create sst file with no entries"
                 end;
  sstFileSize w := match ls_current w with Some (_, rs) => 100 * len rs | None => 0 end;
|}.

Lemma ls_add_ok w f rs o : ls_current w = Some (f, rs) -> comes_after rs (op_key o) (op_ts o) ->
  ls_add w o = Ok (mkSst (ls_files w) (Some (f, rs ++ [o]))).
Proof. intros Hw Ha. unfold ls_add, comes_after in *. rewrite Hw. destruct (last rs); [|done]. by rewrite Ha. Qed.

#[export] Instance list_sst_laws : SSTLaws ListSst.
Proof.
  refine {| sst_files := ls_files; sst_current := ls_current |}.
  - intros w f Hw. eexists. cbn. rewrite Hw. by split_and!.
  - intros w f rs key ts v Hw Ha. eexists. split; [exact (ls_add_ok w f rs (BPutTS key ts v) Hw Ha)|done].
  - intros w f rs key ts Hw Ha. eexists. split; [exact (ls_add_ok w f rs (BDeleteTS key ts) Hw Ha)|done].
  - intros w f [|r rs] Hw Hne; [done|]. eexists. cbn. rewrite Hw. by split_and!.
  - intros w f Hw. cbn. by rewrite Hw.
Defined.

Lemma sample_convertible : convertible sample_csdir sample_files.
Proof.
  split.
  - exact sample_lists.
  - repeat constructor; try done; apply sample_set_fits; lia.
  - repeat constructor.
  - by repeat constructor.
  - intros v Hv. cbn in Hv. apply elem_of_cons in Hv as [->|Hv]; [lia|]. apply list_elem_of_singleton in Hv as ->. lia.
  - by apply (bool_decide_unpack _); vm_compute.
Qed.

Lemma sst_holds_changes_witness :
  changes_of (all_versions sample_files) <> [] /\
  (changes_of (all_versions sample_files) <> [] -> exists (w' : ListSst) (parts : list (bytes * list change)),
    convertSingleStore (mkSst [] None) (str "bank") (Some sample_csdir) 1 1000 10 reverse = Ok w' /\
    sst_current w' = None /\ sst_files w' = [] ++ (written (str "bank") <$> parts) /\
    concat parts.*2 ≡ₚ changes_of (all_versions sample_files) /\ StronglySorted change_lt (concat parts.*2) /\
    StronglySorted (fun a b : list change => forall c c', c ∈ a -> c' ∈ b -> p_key c.2 ≺ p_key c'.2) parts.*2 /\
    sstFileName (str "bank") <$> seqZ 0 (len parts) = parts.*1).
Proof.
  split; [by vm_compute|].
  refine (proj2 (sst_holds_changes (mkSst [] None) (str "bank") sample_csdir sample_files 1 1000 10 reverse sample_convertible _ _ _ _)).
  - done.
  - lia.
  - intros x. apply reverse_Permutation.
  - cbn. lia.
Defined.
