(* ===== verification/ClientAppDb.v ===== *)
(** Restoring [application.db] from memiavl snapshots:
    [versiondb/client/restore_app_db.go], with [ScanNodes] of
    [memiavl/snapshot.go].

    Every node of a snapshot is encoded in the format of the iavl database,
    sorted by its hash and written to SST files under the key of the hash; the
    root record follows.  RocksDB's writer with its default (bytewise) order and
    iavl's key formats are interfaces, [AppWriter] and [KeyFormats].

    Theorems: the scan of a written snapshot visits every node of the tree once;
    [oneStore] writes, in order, for every node of the tree its encoding under its
    hash, and the root hash under the root key, unless two different byte strings
    with one hash have been found. *)
From stdpp Require Import prelude strings gmap pretty sorting.
From Stdlib Require Import ZArith Lia.
From S2P Require Import Prelude OrdMap Codec Node Hash Persisted Snapshot Wal Tree TreeSpec MultiTree ExtSort VersionDb ClientVerify StoreHistory ClientDump.
Local Open Scope Z_scope.

(** ** Nodes *)

(** [ScanNodes]: the leaves, then the branches, by index. *)
Definition scan_nodes (s : Snapshot) : list PersistedNode :=
  ((fun i => SnapshotLeaf (u32 i)) <$> seqZ 0 (leavesLen s)) ++ ((fun i => SnapshotNode (u32 i)) <$> seqZ 0 (nodesLen s)).

Fixpoint scan_loop {S} (callback : S -> PersistedNode -> res S) (ps : list PersistedNode) (st : S) : res S :=
  match ps with
  | [] => Ok st
  | p :: ps => let* st := callback st p in scan_loop callback ps st
  end.
Definition ScanNodes {S} (s : Snapshot) (callback : S -> PersistedNode -> res S) (st : S) : res S := scan_loop callback (scan_nodes s) st.

(** [encodeNode]; a read outside of the files is a fault, [None]. *)
Definition encodeNode (s : Snapshot) (node : PersistedNode) : option bytes :=
  let? height := Persisted.Height s node in
  let? size := Persisted.Size s node in
  let? version := Persisted.Version s node in
  let? key := Persisted.Key s node in
  let head := PutVarint height ++ PutVarint size ++ PutVarint version ++ EncodeBytes key in
  if height =? 0 then let? value := Persisted.Value s node in Some (head ++ EncodeBytes (default [] value))
  else
    let? lc := Persisted.Left s node in
    let? rc := Persisted.Right s node in
    let? lh := Persisted.Hash s lc in
    let? rh := Persisted.Hash s rc in
    Some (head ++ EncodeBytes lh ++ EncodeBytes rh).

Definition encodeSorterNode (s : Snapshot) (node : PersistedNode) : option bytes :=
  let? hash := Persisted.Hash s node in let? bz := encodeNode s node in Some (hash ++ bz).

(** The hash part of two items; every item begins with a hash. *)
Definition compareSorterNode (a b : bytes) : bool := bytes_ltb (take 32 a) (take 32 b).

(** ** Interfaces *)

(** [nodeKeyFormat] and [rootKeyFormat], iavl's key formats: the letters [n] and
    [r] before the hash and the version. *)
Class KeyFormats := { nodeKeyFormat : bytes -> bytes; rootKeyFormat : Z -> bytes }.
Class KeyFormatLaws `{!KeyFormats} : Prop := {
  node_key_order : forall a b, a ≺ b -> nodeKeyFormat a ≺ nodeKeyFormat b;
  node_before_root : forall a v, nodeKeyFormat a ≺ rootKeyFormat v;
}.

(** RocksDB's SST writer with the default comparator. *)
Class AppWriter (W : Type) := {
  appOpen : W -> bytes -> res W;
  appPut : W -> bytes -> bytes -> res W;
  appFinish : W -> res W;
  appFileSize : W -> Z;
}.

(** ** One store *)

(** [tmp-%s-%d.sst] *)
Definition StoreSSTFileName (store : name) (seq : Z) : bytes := str "tmp-" ++ store ++ str "-" ++ fmt_d seq ++ str ".sst".

Section OneStore.
Context {W : Type} `{!AppWriter W, !KeyFormats, !Sorting, !Snappy}.

Definition app_openNextFile (store : name) (w : W) (sstSeq : Z) : res (W * Z) :=
  let* w := appOpen w (StoreSSTFileName store sstSeq) in Ok (w, sstSeq + 1).

(** The loop over the sorted items. *)
Fixpoint write_nodes (store : name) (prefix : bytes) (sstFileSizeTarget : Z) (items : list bytes) (w : W) (sstSeq : Z) : res (W * Z) :=
  match items with
  | [] => Ok (w, sstSeq)
  | item :: items =>
      let hash := take 32 item in
      let value := drop 32 item in
      let key := cloneAppend prefix (nodeKeyFormat hash) in
      let* w := appPut w key value in
      let* (w, sstSeq) :=
        if sstFileSizeTarget <=? appFileSize w then let* w := appFinish w in app_openNextFile store w sstSeq else Ok (w, sstSeq) in
      write_nodes store prefix sstFileSizeTarget items w sstSeq
  end.

Definition oneStore (w : W) (store : name) (s : Snapshot) (sstFileSizeTarget sorterChunkSize : Z) (fuel : nat) (order : list bytes -> list bytes) : res W :=
  let prefix := storePrefix store in
  let* items := ScanNodes s (fun items node => let* bz := of_option "index out of range" (encodeSorterNode s node) in Ok (items ++ [bz])) [] in
  let* out := Spawn (ExtSort.mkOptions false true sorterChunkSize compareSorterNode) fuel order items in
  let* (w, sstSeq) := app_openNextFile store w 0 in
  let* (w, _) := write_nodes store prefix sstFileSizeTarget out w sstSeq in
  let rootKey := cloneAppend prefix (rootKeyFormat (version s)) in
  let* rootHash :=
    if IsEmpty s then Ok []
    else let* r := RootNode s in of_option "index out of range" (Persisted.Hash s r) in
  let* w := appPut w rootKey rootHash in
  appFinish w.
End OneStore.

(** ** The trees of a snapshot *)

(** The leaves of a tree in order, and its branches after their children. *)
Fixpoint leaf_nodes (n : Node) : list Node :=
  match n with Leaf _ _ _ => [n] | Branch _ _ _ _ l r => leaf_nodes l ++ leaf_nodes r end.
Fixpoint branch_nodes (n : Node) : list Node :=
  match n with Leaf _ _ _ => [] | Branch _ _ _ _ l r => branch_nodes l ++ branch_nodes r ++ [n] end.
Definition all_nodes (n : Node) : list Node := leaf_nodes n ++ branch_nodes n.

Section Scan.
Context (sha256 : bytes -> bytes) (sha256_len : forall b, len (sha256 b) = 32).

(** The index of a branch after its subtrees is its place in the file. *)
Lemma stored_scan s n : forall L B off, stored sha256 s L B off n -> fits L B off n -> search_tree n -> len (kvs s) < 2 ^ 64 ->
  Forall2 (presents sha256 s) (mkPersisted true <$> seqZ L (leaf_count n)) (leaf_nodes n) /\
  Forall2 (presents sha256 s) (mkPersisted false <$> seqZ B (leaf_count n - 1)) (branch_nodes n).
Proof.
  induction n as [v k x|h sz v k l IHl r IHr]; intros L B off St F So Hk.
  - pose proof (stored_presents sha256 sha256_len s _ L B off St F So Hk) as P. split; [|constructor].
    change (leaf_count (Leaf v k x)) with 1. rewrite seqZ_cons, seqZ_nil by lia. constructor; [exact P|constructor].
  - pose proof (stored_presents sha256 sha256_len s _ L B off St F So Hk) as P. destruct (fits_branch _ _ _ _ _ _ _ _ _ F) as [Fl Fr].
    destruct St as (Sl & Sr & _). destruct So as (Tl & Tr & _). destruct (IHl L B off Sl Fl Tl Hk) as [L1 B1].
    destruct (IHr _ _ _ Sr Fr Tr Hk) as [L2 B2]. cbn [leaf_nodes branch_nodes]. unfold root_at in P. cbn [IsLeaf] in P. rewrite leaf_count_branch in *.
    pose proof (leaf_count_pos l). pose proof (leaf_count_pos r). split.
    + rewrite seqZ_app, fmap_app by lia. by apply Forall2_app.
    + replace (leaf_count l + leaf_count r - 1) with ((leaf_count l - 1) + ((leaf_count r - 1) + 1)) by lia.
      rewrite seqZ_app, seqZ_app, !fmap_app by lia. apply Forall2_app; [done|]. apply Forall2_app.
      * by replace (B + (leaf_count l - 1)) with (B + leaf_count l - 1) by lia.
      * rewrite (seqZ_cons _ 1), seqZ_nil by lia. constructor; [|constructor].
        by replace (B + (leaf_count l - 1) + (leaf_count r - 1)) with (B + (leaf_count l + leaf_count r) - 2) by lia.
Qed.

(** The iavl encoding of a node, and the item of the sorter. *)
Definition iavl_node (n : Node) : bytes :=
  PutVarint (Height n) ++ PutVarint (Size n) ++ PutVarint (Version n) ++ EncodeBytes (Key n) ++
  match n with
  | Leaf _ _ x => EncodeBytes (default [] x)
  | Branch _ _ _ _ l r => EncodeBytes (HashNode sha256 l) ++ EncodeBytes (HashNode sha256 r)
  end.
Definition node_item (n : Node) : bytes := HashNode sha256 n ++ iavl_node n.

Lemma presents_encode s p n : avl n -> presents sha256 s p n -> encodeSorterNode s p = Some (node_item n).
Proof.
  intros A P. unfold encodeSorterNode, encodeNode, node_item, iavl_node. destruct n as [v k x|h sz v k l r]; cbn [presents] in P.
  - destruct P as (_ & -> & -> & -> & -> & -> & -> & _). cbn. by rewrite <- !app_assoc.
  - destruct P as (_ & -> & -> & -> & -> & _ & -> & pl & pr & -> & -> & Pl & Pr). cbn [mbind option_bind].
    assert (Persisted.Hash s pl = Some (HashNode sha256 l)) as -> by (destruct l; apply Pl).
    assert (Persisted.Hash s pr = Some (HashNode sha256 r)) as -> by (destruct r; apply Pr).
    destruct A as (Al & Ar & Eh & _). pose proof (avl_height_nonneg _ Al). pose proof (avl_height_nonneg _ Ar). cbn [Height] in *.
    rewrite (proj2 (Z.eqb_neq h 0)) by lia. cbn [mbind option_bind]. by rewrite <- !app_assoc.
Qed.

(** Scanning a snapshot that was written from a tree visits every node once. *)
Lemma scan_written s n : stored sha256 s 0 0 0 n -> fits 0 0 0 n -> search_tree n -> len (kvs s) < 2 ^ 64 ->
  leavesLen s = leaf_count n -> nodesLen s = leaf_count n - 1 -> Forall2 (presents sha256 s) (scan_nodes s) (all_nodes n).
Proof.
  intros St F So Hk E1 E2. destruct (stored_scan s n 0 0 0 St F So Hk) as [Hl Hb]. unfold scan_nodes, all_nodes. rewrite E1, E2.
  pose proof (fits_L _ _ _ _ F). assert (forall b k, k <= leaf_count n -> (fun i => mkPersisted b (u32 i)) <$> seqZ 0 k = mkPersisted b <$> seqZ 0 k) as Hu.
  { intros b k Hk'. apply list_fmap_ext. intros i x Hx. apply lookup_seqZ in Hx. rewrite u32_small by lia. done. }
  apply Forall2_app; unfold SnapshotLeaf, SnapshotNode; rewrite Hu by lia; done.
Qed.

Lemma scan_items s ps ns : Forall2 (presents sha256 s) ps ns -> Forall avl ns -> forall acc,
  scan_loop (fun items node => let* bz := of_option "index out of range" (encodeSorterNode s node) in Ok (items ++ [bz])) ps acc =
  Ok (acc ++ (node_item <$> ns)).
Proof.
  induction 1 as [|p n ps ns P F IH]; intros A acc; [cbn; by rewrite app_nil_r|]. apply Forall_cons in A as [An A]. cbn [scan_loop].
  rewrite (presents_encode s p n An P). cbn [of_option res_bind]. rewrite IH by done. by rewrite <- app_assoc.
Qed.

Lemma all_nodes_avl n : avl n -> Forall avl (all_nodes n).
Proof.
  intros A. unfold all_nodes. apply Forall_app. induction n as [v k x|h sz v k l IHl r IHr]; [by repeat constructor|].
  pose proof A as (Al & Ar & _). destruct (IHl Al) as [L1 B1], (IHr Ar) as [L2 B2]. cbn [leaf_nodes branch_nodes]. split.
  - by apply Forall_app.
  - apply Forall_app. split; [done|]. apply Forall_app. by split; [|constructor].
Qed.
End Scan.

(** ** The nodes of a tree are distinct *)

(** A property that a branch hands to its children holds of all nodes. *)
Lemma all_nodes_forall (P : Node -> Prop) n : (forall h s v k l r, P (Branch h s v k l r) -> P l /\ P r) -> P n -> Forall P (all_nodes n).
Proof.
  intros HP Hn. unfold all_nodes. apply Forall_app. induction n as [v k x|h sz v k l IHl r IHr]; [by repeat constructor|].
  destruct (HP _ _ _ _ _ _ Hn) as [Pl Pr]. destruct (IHl Pl) as [L1 B1], (IHr Pr) as [L2 B2]. cbn [leaf_nodes branch_nodes]. split.
  - by apply Forall_app.
  - apply Forall_app. split; [done|]. apply Forall_app. by split; [|constructor].
Qed.

(** A node of a tree has keys of the tree. *)
Lemma node_keys n m : m ∈ all_nodes n -> to_list m ⊆ to_list n.
Proof.
  unfold all_nodes. rewrite elem_of_app. induction n as [v k x|h sz v k l IHl r IHr]; cbn [leaf_nodes branch_nodes to_list].
  - intros [->%list_elem_of_singleton|Hm]; [done|by apply elem_of_nil in Hm].
  - rewrite !elem_of_app. intros [[Hm|Hm]|[Hm|[Hm| ->%list_elem_of_singleton]]]; [| | | |done].
    + intros p Hp. apply elem_of_app. left. by apply IHl; [left|].
    + intros p Hp. apply elem_of_app. right. by apply IHr; [left|].
    + intros p Hp. apply elem_of_app. left. by apply IHl; [right|].
    + intros p Hp. apply elem_of_app. right. by apply IHr; [right|].
Qed.

Lemma node_count n m : m ∈ all_nodes n -> leaf_count m <= leaf_count n.
Proof.
  unfold all_nodes. rewrite elem_of_app. induction n as [v k x|h sz v k l IHl r IHr]; cbn [leaf_nodes branch_nodes].
  - intros [->%list_elem_of_singleton|Hm]; [done|by apply elem_of_nil in Hm].
  - rewrite !elem_of_app, leaf_count_branch. pose proof (leaf_count_pos l). pose proof (leaf_count_pos r).
    intros [[Hm|Hm]|[Hm|[Hm| ->%list_elem_of_singleton]]]; [| | | |rewrite leaf_count_branch; lia].
    + specialize (IHl (or_introl Hm)). lia.
    + specialize (IHr (or_introl Hm)). lia.
    + specialize (IHl (or_intror Hm)). lia.
    + specialize (IHr (or_intror Hm)). lia.
Qed.

(** Nodes of different halves differ: they share no key. *)
Lemma halves_differ k l r m m' : keys_below k (to_list l) -> keys_above k (to_list r) -> m ∈ all_nodes l -> m' ∈ all_nodes r -> m <> m'.
Proof.
  intros Hb Ha Hm Hm' <-. apply node_keys in Hm, Hm'. pose proof (to_list_nonempty m) as Hne. destruct (to_list m) as [|p ps]; [done|].
  assert (p ∈ to_list l) as Hl by (apply Hm; by left). assert (p ∈ to_list r) as Hr by (apply Hm'; by left).
  unfold keys_below, keys_above in *. rewrite Forall_forall in Hb, Ha. by apply (Ha _ Hr), Hb.
Qed.

Lemma all_nodes_nodup n : search_tree n -> NoDup (all_nodes n).
Proof.
  intros S. unfold all_nodes. apply NoDup_app.
  assert (forall n m, m ∈ leaf_nodes n -> IsLeaf m = true) as Hleaf.
  { clear. induction n as [v k x|h sz v k l IHl r IHr]; cbn; intros m; [by intros ->%list_elem_of_singleton|]. intros [?|?]%elem_of_app; auto. }
  assert (forall n m, m ∈ branch_nodes n -> IsLeaf m = false) as Hbranch.
  { clear. induction n as [v k x|h sz v k l IHl r IHr]; cbn; intros m; [by intros ?%elem_of_nil|]. intros [?|[?| ->%list_elem_of_singleton]%elem_of_app]%elem_of_app; auto. }
  split_and!.
  - induction n as [v k x|h sz v k l IHl r IHr]; [apply NoDup_singleton|]. destruct S as (Sl & Sr & Hb & Ha & _). cbn [leaf_nodes]. apply NoDup_app.
    split_and!; [by apply IHl| |by apply IHr]. intros m Hm Hm'. apply (halves_differ k l r m m Hb Ha); [apply elem_of_app; by left..|done].
  - intros m H1%Hleaf H2%Hbranch. congruence.
  - induction n as [v k x|h sz v k l IHl r IHr]; [constructor|]. destruct S as (Sl & Sr & Hb & Ha & _). cbn [branch_nodes].
    assert (forall m, m ∈ branch_nodes l \/ m ∈ branch_nodes r -> m <> Branch h sz v k l r) as Hself.
    { intros m Hm ->. pose proof (leaf_count_pos l). pose proof (leaf_count_pos r). destruct Hm as [Hm|Hm].
      - assert (Branch h sz v k l r ∈ all_nodes l) as Hc%node_count by (apply elem_of_app; by right). rewrite leaf_count_branch in Hc. lia.
      - assert (Branch h sz v k l r ∈ all_nodes r) as Hc%node_count by (apply elem_of_app; by right). rewrite leaf_count_branch in Hc. lia. }
    apply NoDup_app. split_and!; [by apply IHl| |].
    + intros m Hm [Hm'|Hm']%elem_of_app.
      * apply (halves_differ k l r m m Hb Ha); [apply elem_of_app; by right..|done].
      * apply list_elem_of_singleton in Hm' as ->. by apply (Hself (Branch h sz v k l r)); [left|].
    + apply NoDup_app. split_and!; [by apply IHr| |apply NoDup_singleton]. intros m Hm ->%list_elem_of_singleton. by apply (Hself (Branch h sz v k l r)); [right|].
Qed.

(** Distinct nodes have distinct hashes, or a collision is found. *)
Lemma hashes_nodup sha256 ns : (forall b, len (sha256 b) = 32) -> Forall wf ns -> Forall fields_ok ns -> NoDup ns ->
  collision sha256 \/ NoDup (HashNode sha256 <$> ns).
Proof.
  intros Hl W F N. induction N as [|n ns Hn N IH]; [right; constructor|]. apply Forall_cons in W as [Wn W]. apply Forall_cons in F as [Fn F].
  destruct (IH W F) as [|IH']; [by left|]. destruct (decide (HashNode sha256 n ∈ HashNode sha256 <$> ns)) as [Hin|Hin].
  - apply list_elem_of_fmap in Hin as (m & E & Hm). rewrite Forall_forall in W, F.
    destruct (HashNode_binding sha256 Hl n m Wn (W m Hm) Fn (F m Hm) E) as [->|]; [done|by left].
  - right. by constructor.
Qed.

(** ** Writing the files *)

(** Records come in strictly increasing order of their keys; a file needs one. *)
Class AppLaws (W : Type) `{!AppWriter W} := {
  app_files : W -> list (bytes * list (bytes * bytes));
  app_current : W -> option (bytes * list (bytes * bytes));
  app_open : forall w f, app_current w = None ->
    exists w', appOpen w f = Ok w' /\ app_current w' = Some (f, []) /\ app_files w' = app_files w;
  app_put : forall w f rs key v, app_current w = Some (f, rs) -> (forall x, last rs = Some x -> x.1 ≺ key) ->
    exists w', appPut w key v = Ok w' /\ app_current w' = Some (f, rs ++ [(key, v)]) /\ app_files w' = app_files w;
  app_finish : forall w f rs, app_current w = Some (f, rs) -> rs <> [] ->
    exists w', appFinish w = Ok w' /\ app_current w' = None /\ app_files w' = app_files w ++ [(f, rs)];
}.

Section Written.
Context {W : Type} `{!AppWriter W, !AppLaws W, !KeyFormats, !KeyFormatLaws} (sha256 : bytes -> bytes) (sha256_len : forall b, len (sha256 b) = 32).
Context (store : name) (target : Z).

Definition node_record (n : Node) : bytes * bytes := (cloneAppend (storePrefix store) (nodeKeyFormat (HashNode sha256 n)), iavl_node sha256 n).

(** The records written from a state with [rs] in the open file. *)
Record app_result (seq : Z) (rs : list (bytes * bytes)) (w w' : W) (parts : list (bytes * list (bytes * bytes))) (f : bytes) (zs : list (bytes * bytes)) : Prop := {
  ar_files : app_files w' = app_files w ++ parts;
  ar_current : app_current w' = Some (f, zs);
  ar_all : concat parts.*2 ++ zs = rs;
  ar_nonempty : Forall (fun p => p.2 <> []) parts;
  ar_names : parts.*1 ++ [f] = StoreSSTFileName store <$> seqZ seq (len parts + 1);
}.

Lemma app_result_cons seq ys cs w w1 w' parts f zs : ys <> [] -> app_files w1 = app_files w ++ [(StoreSSTFileName store seq, ys)] ->
  app_result (seq + 1) cs w1 w' parts f zs -> app_result seq (ys ++ cs) w w' ((StoreSSTFileName store seq, ys) :: parts) f zs.
Proof.
  intros Hne Hf [R1 R2 R3 R4 R5]. split.
  - by rewrite R1, Hf, <- app_assoc.
  - done.
  - rewrite fmap_cons. cbn [concat snd]. by rewrite <- app_assoc, R3.
  - by constructor.
  - rewrite fmap_cons. cbn [fst app]. rewrite R5, len_cons. pose proof (len_nonneg parts). rewrite (seqZ_cons seq) by lia. rewrite fmap_cons. do 2 f_equal.
    f_equal; lia.
Qed.

Lemma item_split n : take 32 (node_item sha256 n) = HashNode sha256 n /\ drop 32 (node_item sha256 n) = iavl_node sha256 n.
Proof.
  assert (length (HashNode sha256 n) = 32%nat) as <- by (pose proof (HashNode_len sha256 sha256_len n); unfold len in *; lia).
  unfold node_item. by rewrite take_app_length, drop_app_length.
Qed.

(** Keys of a store under one prefix keep the order. *)
Lemma prefix_order a b : a ≺ b -> cloneAppend (storePrefix store) a ≺ cloneAppend (storePrefix store) b.
Proof. apply bytes_lt_app. Qed.

Lemma write_nodes_ok ns : forall w ys seq, app_current w = Some (StoreSSTFileName store (seq - 1), ys) ->
  StronglySorted bytes_lt (ys ++ (node_record <$> ns)).*1 ->
  exists w' seq' parts f zs, write_nodes store (storePrefix store) target (node_item sha256 <$> ns) w seq = Ok (w', seq') /\
    app_result (seq - 1) (ys ++ (node_record <$> ns)) w w' parts f zs.
Proof.
  induction ns as [|n ns IH]; intros w ys seq Hw S.
  { rewrite app_nil_r in *. exists w, seq, [], (StoreSSTFileName store (seq - 1)), ys. split; [done|].
    split; [by rewrite app_nil_r|done|done|constructor|done]. }
  rewrite fmap_cons in *. rewrite fmap_cons. cbn [write_nodes]. destruct (item_split n) as [-> ->].
  destruct (app_put w _ ys (node_record n).1 (iavl_node sha256 n) Hw) as (w1 & E1 & C1 & F1).
  { intros x Hx. apply last_Some in Hx as [ys' ->]. rewrite <- app_assoc, fmap_app in S. apply StronglySorted_app_1_r in S. cbn [app] in S.
    rewrite !fmap_cons in S. apply StronglySorted_inv in S as [_ S]. by apply Forall_cons in S as [S _]. }
  change (cloneAppend (storePrefix store) (nodeKeyFormat (HashNode sha256 n))) with (node_record n).1. rewrite E1. cbn [res_bind].
  change ((node_record n).1, iavl_node sha256 n) with (node_record n) in C1.
  assert (StronglySorted bytes_lt ((ys ++ [node_record n]) ++ (node_record <$> ns)).*1) as S' by (by rewrite <- app_assoc).
  destruct (target <=? appFileSize w1).
  - destruct (app_finish w1 _ _ C1) as (w2 & E2 & C2 & F2); [by destruct ys|]. rewrite E2. cbn [res_bind]. unfold app_openNextFile.
    destruct (app_open w2 (StoreSSTFileName store seq) C2) as (w3 & E3 & C3 & F3). rewrite E3. cbn [res_bind].
    destruct (IH w3 [] (seq + 1)) as (w' & seq' & parts & f & zs & E & R); [by replace (seq + 1 - 1) with seq by lia| |].
    { rewrite fmap_app in S'. by apply StronglySorted_app_1_r in S'. }
    exists w', seq', ((StoreSSTFileName store (seq - 1), ys ++ [node_record n]) :: parts), f, zs. split; [exact E|].
    change (ys ++ node_record n :: (node_record <$> ns)) with (ys ++ [node_record n] ++ (node_record <$> ns)). rewrite app_assoc.
    apply (app_result_cons (seq - 1) _ _ w w3); [by destruct ys|by rewrite F3, F2, F1|]. by replace (seq - 1 + 1) with (seq + 1 - 1) by lia.
  - cbn [res_bind]. destruct (IH w1 (ys ++ [node_record n]) seq C1 S') as (w' & seq' & parts & f & zs & E & R).
    exists w', seq', parts, f, zs. split; [exact E|]. rewrite <- app_assoc in R. destruct R as [R1 R2 R3 R4 R5]. split; try done. by rewrite R1, F1.
Qed.
End Written.

(** ** The snapshot of a store *)

(** What the files written for a tree open as. *)
Lemma snapshot_scan sha256 v (o : option Node) f s : (forall b, len (sha256 b) = 32) -> 0 <= v < 2 ^ 32 -> (forall n, o = Some n -> storable n) ->
  WriteSnapshotWithContext sha256 (fun _ => false) v o = Ok f -> OpenSnapshot f = Ok s ->
  version s = v /\ (o = None -> root s = None) /\
  (forall n, o = Some n -> exists p, root s = Some p /\ presents sha256 s p n) /\
  Forall2 (presents sha256 s) (scan_nodes s) (from_option all_nodes [] o).
Proof.
  intros Hl Hv Hst Ew Eo. destruct o as [n|].
  - specialize (Hst n eq_refl). rewrite (WriteSnapshot_out sha256 (fun _ => false) (fun _ => eq_refl) v n Hst) in Ew. injection Ew as <-.
    destruct (write_open sha256 Hl (fun _ => false) (fun _ => eq_refl) v n Hv Hst) as (f' & s' & Ef & Es & E1 & E2 & E3 & E4).
    rewrite (WriteSnapshot_out sha256 (fun _ => false) (fun _ => eq_refl) v n Hst) in Ef. injection Ef as <-. rewrite Es in Eo. injection Eo as ->.
    assert (leavesLen s = leaf_count n /\ nodesLen s = leaf_count n - 1) as [El En].
    { rewrite (OpenSnapshot_metadata _ v) in Es by done. unfold openData in Es. cbn [f_nodes f_leaves f_kvs] in Es.
      destruct (out_lens sha256 Hl 0 0 0 n) as [L1 L2]. destruct (negb _); [done|]. destruct (negb _); [done|]. destruct (_ || _); [done|].
      injection Es as <-. unfold leavesLen, nodesLen. cbn [leaves nodes]. rewrite L1, L2, SizeLeaf_eq, SizeNode_eq, !Z.div_mul by lia. done. }
    destruct Hst as [(A & _ & So) F]. split_and!; [done|done| |by apply scan_written].
    intros m [= <-]. exists (root_at 0 0 n). split; [done|]. by apply (stored_presents sha256 Hl s n 0 0 0).
  - injection Ew as <-. rewrite (OpenSnapshot_metadata _ v) in Eo by done. injection Eo as <-. split_and!; [done|done|done|constructor].
Qed.

#[export] Instance compareSorterNode_weak : StrictWeak compareSorterNode.
Proof. split; unfold compareSorterNode; [intros a b; apply bytes_ltb_weak|intros a b c; apply bytes_ltb_weak]. Qed.

Lemma sorted_nodes sha256 ns : (forall b, len (sha256 b) = 32) -> NoDup (HashNode sha256 <$> ns) ->
  StronglySorted (le compareSorterNode) (node_item sha256 <$> ns) -> StronglySorted bytes_lt (HashNode sha256 <$> ns).
Proof.
  intros Hl. induction ns as [|n ns IH]; intros N S; [constructor|]. rewrite fmap_cons in N. rewrite fmap_cons in S. rewrite fmap_cons.
  apply NoDup_cons in N as [Hn N]. apply StronglySorted_inv in S as [S Sn]. constructor; [auto|]. rewrite Forall_fmap in Sn |- *. rewrite Forall_forall in Sn |- *.
  intros m Hm. specialize (Sn m Hm). cbn in Sn |- *. unfold le, compareSorterNode in Sn.
  rewrite (proj1 (item_split sha256 Hl n)), (proj1 (item_split sha256 Hl m)), bytes_ltb_nlt in Sn.
  destruct (bytes_nlt_le _ _ Sn) as [E|]; [|done]. destruct Hn. rewrite E. by apply list_elem_of_fmap_2.
Qed.

Lemma records_sorted `{!KeyFormats, !KeyFormatLaws} sha256 store v hash ns : StronglySorted bytes_lt (HashNode sha256 <$> ns) ->
  StronglySorted bytes_lt ((node_record sha256 store <$> ns) ++ [(cloneAppend (storePrefix store) (rootKeyFormat v), hash)]).*1.
Proof.
  intros S. rewrite fmap_app. apply StronglySorted_app. split_and!.
  - intros a b Ha Hb. cbn in Hb. apply list_elem_of_singleton in Hb as ->. apply list_elem_of_fmap in Ha as (x & -> & Ha).
    apply list_elem_of_fmap in Ha as (n & -> & _). apply prefix_order, node_before_root.
  - induction ns as [|n ns IH]; [constructor|]. rewrite fmap_cons in S. rewrite !fmap_cons. apply StronglySorted_inv in S as [S Sn]. constructor; [auto|].
    rewrite !Forall_fmap. rewrite Forall_fmap in Sn. eapply Forall_impl; [exact Sn|]. cbn. intros m Hm. by apply prefix_order, node_key_order.
  - repeat constructor.
Qed.

(** [restore-app-db] writes every node of a store once.  For the snapshot that
    memiavl wrote of a tree (or of an empty tree), [oneStore] ends without error,
    and the SST files it has finished, numbered from 0, hold in strictly
    increasing order of the keys: for every node of the tree its encoding under
    the key of its hash, and the root record with the hash of the tree (empty for
    an empty tree); or else two different byte strings with the same [sha256]
    have been found. *)
Lemma oneStore_ok {W : Type} `{!AppWriter W, !AppLaws W, !KeyFormats, !KeyFormatLaws, Srt : !Sorting, Snp : !Snappy, SL : !SortingLaws, NL : !SnappyLaws}
  (sha256 : bytes -> bytes) (w : W) (store : name) (v : Z) (o : option Node) (f : Files) (s : Snapshot) (target sorterChunkSize : Z) (fuel : nat)
  (order : list bytes -> list bytes) (Hsha : forall b, len (sha256 b) = 32) (Hv : 0 <= v < 2 ^ 32) (Hst : forall n, o = Some n -> storable n)
  (Ew : WriteSnapshotWithContext sha256 (fun _ => false) v o = Ok f) (Eo : OpenSnapshot f = Ok s) (Hw : app_current w = None)
  (Hfit : Forall (fun n => len (node_item sha256 n) < 2 ^ 32) (from_option all_nodes [] o)) (Ho : forall x, order x ≡ₚ x)
  (Hfuel : (length (from_option all_nodes [] o) < fuel)%nat) :
  collision sha256 \/
  exists (w' : W) (parts : list (bytes * list (bytes * bytes))), oneStore w store s target sorterChunkSize fuel order = Ok w' /\
    app_current w' = None /\ app_files w' = app_files w ++ parts /\ Forall (fun p => p.2 <> []) parts /\
    StoreSSTFileName store <$> seqZ 0 (len parts) = parts.*1 /\
    concat parts.*2 ≡ₚ (node_record sha256 store <$> from_option all_nodes [] o) ++
      [(cloneAppend (storePrefix store) (rootKeyFormat v), from_option (HashNode sha256) [] o)] /\
    StronglySorted bytes_lt (concat parts.*2).*1.
Proof.
  destruct (snapshot_scan sha256 v o f s Hsha Hv Hst Ew Eo) as (Ev & Hn & Hs & Hsc). set (ns := from_option all_nodes [] o) in *.
  assert (Forall wf ns /\ Forall fields_ok ns /\ NoDup ns /\ Forall avl ns) as (Wn & Fn & Nn & An).
  { unfold ns. destruct o as [n|]; [|by repeat constructor]. destruct (Hst n eq_refl) as [W' F]. cbn. split_and!.
    - apply all_nodes_forall; [|done]. intros h sz u k l r ([Wl Wr _ _ _] & _)%wf_branch. done.
    - apply all_nodes_forall; [|apply F]. intros h sz u k l r (_ & _ & _ & Fl & Fr). done.
    - apply all_nodes_nodup, W'.
    - apply all_nodes_avl, W'. }
  destruct (hashes_nodup sha256 ns Hsha Wn Fn Nn) as [|Nh]; [by left|right].
  unfold oneStore, ScanNodes. rewrite (scan_items sha256 s (scan_nodes s) ns Hsc An). cbn [res_bind app].
  destruct (spawn_sorts (ExtSort.mkOptions false true sorterChunkSize compareSorterNode) order (node_item sha256 <$> ns) fuel) as (out & Es & So & Po).
  { apply compareSorterNode_weak. }
  { by apply Forall_fmap. }
  { done. }
  { by rewrite length_fmap. }
  destruct (fmap_perm_inv _ _ _ Po) as (ms & -> & Pm). cbn [LesserFunc] in So.
  apply sorted_nodes in So; [|done|by rewrite Pm]. rewrite Es. cbn [res_bind]. unfold app_openNextFile.
  destruct (app_open w (StoreSSTFileName store 0) Hw) as (w1 & E1 & C1 & F1). rewrite E1. cbn [res_bind].
  set (hash := from_option (HashNode sha256) [] o). pose proof (records_sorted sha256 store v hash ms So) as Sr.
  destruct (write_nodes_ok sha256 Hsha store target ms w1 [] (0 + 1)) as (w2 & seq & parts & g & zs & E2 & [R1 R2 R3 R4 R5]); [done| |].
  { rewrite fmap_app in Sr. by apply StronglySorted_app_1_l in Sr. }
  rewrite E2. cbn [res_bind]. assert ((if IsEmpty s then Ok [] else let* r := RootNode s in of_option "index out of range" (Persisted.Hash s r)) = Ok hash) as ->.
  { unfold IsEmpty, RootNode, hash. destruct o as [n|]; [|by rewrite Hn]. destruct (Hs n eq_refl) as (p & -> & P). cbn [res_bind].
    assert (Persisted.Hash s p = Some (HashNode sha256 n)) as -> by (destruct n; apply P). done. }
  cbn [res_bind app] in *. rewrite Ev. set (rootRec := (cloneAppend (storePrefix store) (rootKeyFormat v), hash)) in *.
  destruct (app_put w2 g zs rootRec.1 rootRec.2 R2) as (w3 & E3 & C3 & F3).
  { intros x Hx. apply last_Some in Hx as [zs' ->]. rewrite <- R3, <- !app_assoc, fmap_app in Sr. apply StronglySorted_app_1_r in Sr.
    rewrite fmap_app in Sr. apply StronglySorted_app_1_r in Sr. cbn in Sr. apply StronglySorted_inv in Sr as [_ Sr]. by apply Forall_cons in Sr as [Sr _]. }
  change hash with rootRec.2. change (cloneAppend (storePrefix store) (rootKeyFormat v)) with rootRec.1. rewrite E3. cbn [res_bind].
  destruct (app_finish w3 g _ C3) as (w' & E4 & C4 & F4); [by destruct zs|]. exists w', (parts ++ [(g, zs ++ [rootRec])]).
  assert (concat (parts ++ [(g, zs ++ [rootRec])]).*2 = (node_record sha256 store <$> ms) ++ [rootRec]) as Ec
    by (rewrite fmap_app, concat_app; cbn; by rewrite app_nil_r, app_assoc, R3).
  rewrite Ec. split_and!; [done|done|by rewrite F4, F3, R1, F1, <- app_assoc| | |by rewrite Pm|done].
  - apply Forall_app. split; [done|]. constructor; [by destruct zs|constructor].
  - rewrite len_app, fmap_app. symmetry. exact R5.
Qed.

(** ** Samples *)

(** iavl's key formats: a letter, and the hash or the version in big endian. *)
#[export] Instance letter_formats : KeyFormats := {|
  nodeKeyFormat h := z2b 110 :: h;
  rootKeyFormat v := z2b 114 :: reverse (PutUint64 v);
|}.
#[export] Instance letter_laws : KeyFormatLaws.
Proof.
  split.
  - intros a b Hab. exact (proj2 (bytes_lt_app [z2b 110] a b) Hab).
  - intros a v. done.
Qed.

(** A writer that keeps its files in memory. *)
Record ListApp : Type := mkApp { la_files : list (bytes * list (bytes * bytes)); la_current : option (bytes * list (bytes * bytes)) }.

#[export] Instance list_app : AppWriter ListApp := {|
  appOpen w f := match la_current w with None => Ok (mkApp (la_files w) (Some (f, []))) | Some _ => Err "file is open" end;
  appPut w k v :=
    match la_current w with
    | None => Err "file is not opened"
    | Some (f, rs) =>
        if from_option (fun x : bytes * bytes => bytes_ltb x.1 k) true (last rs)
        then Ok (mkApp (la_files w) (Some (f, rs ++ [(k, v)]))) else Err "keys must be added in strict ascending order"
    end;
  appFinish w := match la_current w with
                 | Some (f, (_ :: _) as rs) => Ok (mkApp (la_files w ++ [(f, rs)]) None)
                 | _ => Err "cannot create sst file with no entries"
                 end;
  appFileSize w := match la_current w with Some (_, rs) => 100 * len rs | None => 0 end;
|}.
#[export] Instance list_app_laws : AppLaws ListApp.
Proof.
  refine {| app_files := la_files; app_current := la_current |}.
  - intros w f Hw. eexists. cbn. rewrite Hw. by split_and!.
  - intros w f rs key v Hw Ha. eexists. cbn. rewrite Hw. destruct (last rs) as [x|]; cbn; [|by split_and!].
    rewrite (proj2 (bytes_ltb_lt x.1 key)) by (by apply Ha). by split_and!.
  - intros w f [|r rs] Hw Hne; [done|]. eexists. cbn. rewrite Hw. by split_and!.
Defined.
