(* ===== verification/ClientRestore.v ===== *)
(** [restore-app-db]: the command of [versiondb/client/restore_app_db.go].

    The snapshots of the stores are opened and the commit info is built from
    their trees; the stores are written in a pool of goroutines, each with its own
    writer on its own files of the target directory ([schedule] is the order in
    which they come to an end); the files whose name begins with [tmp-] are
    ingested, and the commit info and the latest version are put on top.  RocksDB
    and the protobuf encodings are parameters ([AppDir], [AppDB], [marshal],
    [marshalInt64]).

    Theorem: from the snapshot directory of a multi-tree the command makes a
    database with every node of every tree under its hash, the root record of
    every store, the commit info of the multi-tree and its version. *)
From stdpp Require Import prelude strings gmap pretty sorting.
From Stdlib Require Import ZArith Lia.
From S2P Require Import Prelude OrdMap Codec Node Hash Persisted Snapshot Wal Tree TreeSpec MultiTree ExtSort VersionDb RootMulti RootSpec StateSync ClientVerify ClientDump ClientAppDb.
Local Open Scope Z_scope.

(** The directory the writers share, with the records of its SST files. *)
Class AppDir (W : Type) := { readDir : W -> list (bytes * list (bytes * bytes)) }.
Class AppDirLaws (W : Type) `{!AppWriter W, !AppLaws W, !AppDir W} : Prop := {
  read_dir : forall w, NoDup (app_files w).*1 -> readDir w ≡ₚ app_files w;
}.

(** [application.db] as RocksDB opens it: ingestion needs a file, and keys that
    are in one file only are all found afterwards. *)
Class AppDB (D : Type) := {
  IngestExternalFile : D -> list (bytes * list (bytes * bytes)) -> res D;
  appDbPut : D -> bytes -> bytes -> res D;
}.
Class AppDBLaws (D : Type) `{!AppDB D} := {
  app_contents : D -> gmap bytes bytes;
  ingest_files : forall d files, files <> [] -> NoDup (concat files.*2).*1 ->
    exists d', IngestExternalFile d files = Ok d' /\ app_contents d' = list_to_map (concat files.*2) ∪ app_contents d;
  app_db_put : forall d k v, exists d', appDbPut d k v = Ok d' /\ app_contents d' = <[k := v]> (app_contents d);
}.

Section Command.
Context (sha256 : bytes -> bytes) {W : Type} `{!AppWriter W, !AppDir W, !KeyFormats, !Sorting, !Snappy} {D : Type} `{!AppDB D}.
Context (marshal : CommitInfo -> res bytes) (marshalInt64 : Z -> res bytes).

(** [NewFromSnapshot]; the root is read through the files. *)
Definition snapshot_tree (s : Snapshot) : res VTree :=
  if IsEmpty s then Ok (mkVTree (version s) None)
  else
    let* p := RootNode s in
    let* n := of_option "slice bounds out of range" (load depth s p) in
    Ok (mkVTree (version s) (Some n)).

(** The loop that opens the snapshots and collects the infos. *)
Fixpoint load_snapshots (snaps : name -> option Files) (stores : list name) (snapshots : list (name * Snapshot)) (storeInfos : list StoreInfo) (latest : Z)
  : res (list (name * Snapshot) * list StoreInfo * Z) :=
  match stores with
  | [] => Ok (snapshots, storeInfos, latest)
  | store :: stores =>
      let* f := of_option "open snapshot fail" (snaps store) in
      let* snapshot := OpenSnapshot f in
      let* tree := snapshot_tree snapshot in
      let commitID := lastCommitID sha256 tree in
      load_snapshots snaps stores (snapshots ++ [(store, snapshot)]) (storeInfos ++ [mkStoreInfo store commitID])
        (if latest <? cid_version commitID then cid_version commitID else latest)
  end.

(** The tasks in the order of their completion; the first error ends the group. *)
Fixpoint restore_tasks (sstFileSizeTarget sorterChunkSize : Z) (fuel : nat) (order : list bytes -> list bytes) (tasks : list (name * Snapshot)) (w : W) : res W :=
  match tasks with
  | [] => Ok w
  | (store, snapshot) :: tasks =>
      let* w := oneStore w store snapshot sstFileSizeTarget sorterChunkSize fuel order in
      restore_tasks sstFileSizeTarget sorterChunkSize fuel order tasks w
  end.

(** [s/%d] *)
Definition commitInfoKey (v : Z) : bytes := str "s/" ++ fmt_d v.

Definition writeMetadata (db : D) (cInfo : CommitInfo) : res D :=
  let* bz := marshal cInfo in
  let* db := appDbPut db (commitInfoKey (ci_version cInfo)) bz in
  let* bz := marshalInt64 (ci_version cInfo) in
  appDbPut db latestVersionKey bz.

Definition RestoreAppDB (snaps : name -> option Files) (stores : list name) (w : W) (db : D) (sstFileSizeTarget sorterChunkSize : Z) (fuel : nat)
  (order : list bytes -> list bytes) (schedule : list (name * Snapshot) -> list (name * Snapshot)) : res (W * D * CommitInfo) :=
  let* (r, lastestVersion) := load_snapshots snaps stores [] [] 0 in
  let (snapshots, storeInfos) := r : list (name * Snapshot) * list StoreInfo in
  let commitInfo := ClientVerify.buildCommitInfo storeInfos lastestVersion in
  let* w := restore_tasks sstFileSizeTarget sorterChunkSize fuel order (schedule snapshots) w in
  let sstFiles := filter (fun f => str "tmp-" `prefix_of` f.1) (readDir w) in
  let* db := IngestExternalFile db sstFiles in
  let* db := writeMetadata db commitInfo in
  Ok (w, db, commitInfo).
End Command.

(** ** Names of files *)

Lemma pretty_go_digits x : forall s, Forall (fun c => is_digit c = true) (str s) -> Forall (fun c => is_digit c = true) (str (pretty_N_go x s)).
Proof.
  induction (N.lt_wf_0 x) as [x _ IH]. intros s Hs. destruct (decide (x = 0)%N) as [->|Hx]; [done|].
  rewrite pretty_N_go_step by lia. apply IH; [apply N.div_lt; lia|]. constructor; [apply pretty_char_digit|done].
Qed.

Lemma fmt_d_digits v : 0 <= v -> Forall (fun c => is_digit c = true) (fmt_d v).
Proof.
  intros Hv. unfold fmt_d, pretty, pretty_Z. destruct v as [|p|p]; [by repeat constructor| |lia]. unfold pretty_positive, pretty, pretty_N.
  rewrite decide_False by done. by apply pretty_go_digits.
Qed.

(** What comes before the last byte that is no digit is determined. *)
Lemma last_mark_inj c a b x y : is_digit c = false -> Forall (fun c => is_digit c = true) x -> Forall (fun c => is_digit c = true) y ->
  a ++ c :: x = b ++ c :: y -> a = b /\ x = y.
Proof.
  intros Hc. revert b y. induction x as [|d x IH] using rev_ind; intros b y Hx Hy E.
  - destruct y as [|d y _] using rev_ind; [by apply app_inj_tail in E as [-> _]|]. apply Forall_app in Hy as [_ Hd].
    change (b ++ c :: y ++ [d]) with (b ++ (c :: y) ++ [d]) in E. rewrite app_assoc in E. apply app_inj_tail in E as [_ ->].
    apply Forall_cons in Hd as [Hd _]. congruence.
  - apply Forall_app in Hx as [Hx Hd]. apply Forall_cons in Hd as [Hd _]. change (a ++ c :: x ++ [d]) with (a ++ (c :: x) ++ [d]) in E. rewrite app_assoc in E.
    destruct y as [|d' y _] using rev_ind; [apply app_inj_tail in E as [_ ->]; congruence|].
    apply Forall_app in Hy as [Hy _]. change (b ++ c :: y ++ [d']) with (b ++ (c :: y) ++ [d']) in E. rewrite app_assoc in E.
    apply app_inj_tail in E as [E ->]. by destruct (IH b y Hx Hy E) as [-> ->].
Qed.

Lemma StoreSSTFileName_inj a b i j : 0 <= i -> 0 <= j -> StoreSSTFileName a i = StoreSSTFileName b j -> a = b /\ i = j.
Proof.
  intros Hi Hj E. unfold StoreSSTFileName in E. apply app_inv_head in E. rewrite !app_assoc in E. apply app_inv_tail in E. rewrite <- !app_assoc in E.
  apply (last_mark_inj (z2b 45)) in E as [-> E]; [|done|by apply fmt_d_digits..]. by apply fmt_d_inj in E as ->.
Qed.

(** ** The stores *)

Section Stores.
Context {W : Type} `{!AppWriter W, !AppLaws W, !KeyFormats, !KeyFormatLaws, !Sorting, !Snappy, !SortingLaws, !SnappyLaws}.
Context (sha256 : bytes -> bytes) (sha256_len : forall b, len (sha256 b) = 32).

(** The records of a store: its nodes and its root. *)
Definition store_records (e : NamedTree) : list (bytes * bytes) :=
  (node_record sha256 (nt_name e) <$> from_option all_nodes [] (vt_root (nt_tree e))) ++
  [(cloneAppend (storePrefix (nt_name e)) (rootKeyFormat (vt_version (nt_tree e))), from_option (HashNode sha256) [] (vt_root (nt_tree e)))].

(** A task on the snapshot that was written of a tree. *)
Definition task_of (e : NamedTree) (task : name * Snapshot) : Prop :=
  task.1 = nt_name e /\ exists f, WriteSnapshotWithContext sha256 (fun _ => false) (vt_version (nt_tree e)) (vt_root (nt_tree e)) = Ok f /\ OpenSnapshot f = Ok task.2.

(** What the items of a store have to fit. *)
Definition sortable (fuel : nat) (e : NamedTree) : Prop :=
  tree_storable e /\ Forall (fun n => len (node_item sha256 n) < 2 ^ 32) (from_option all_nodes [] (vt_root (nt_tree e))) /\
  (length (from_option all_nodes [] (vt_root (nt_tree e))) < fuel)%nat.

(** The files of some stores, with the records in them. *)
Record stores_written (ts : list NamedTree) (parts : list (bytes * list (bytes * bytes))) : Prop := {
  sw_records : concat parts.*2 ≡ₚ ts ≫= store_records;
  sw_nodup : Forall (fun e => NoDup (store_records e).*1) ts;
  sw_names : Forall (fun p => exists e i, e ∈ ts /\ 0 <= i /\ p.1 = StoreSSTFileName (nt_name e) i) parts;
  sw_distinct : NoDup (names ts) -> NoDup parts.*1;
}.

Lemma stores_written_cons e ts parts parts' : concat parts.*2 ≡ₚ store_records e -> StronglySorted bytes_lt (concat parts.*2).*1 ->
  StoreSSTFileName (nt_name e) <$> seqZ 0 (len parts) = parts.*1 -> stores_written ts parts' -> stores_written (e :: ts) (parts ++ parts').
Proof.
  intros P S N [R1 R2 R3 R4]. assert (forall f, f ∈ parts.*1 -> exists i, 0 <= i /\ f = StoreSSTFileName (nt_name e) i) as Hn.
  { intros f. rewrite <- N. intros (i & -> & Hi%elem_of_seqZ)%list_elem_of_fmap. exists i. split; [lia|done]. }
  split.
  - rewrite fmap_app, concat_app. change ((e :: ts) ≫= store_records) with (store_records e ++ (ts ≫= store_records)). by rewrite P, R1.
  - constructor; [|done]. rewrite <- P. by apply strict_nodup.
  - apply Forall_app. split.
    + apply Forall_forall. intros p Hp. destruct (Hn p.1) as (i & Hi & E); [by apply list_elem_of_fmap_2|]. exists e, i. split_and!; [left|done|done].
    + eapply Forall_impl; [exact R3|]. intros p (e' & i & He & Hi & E). exists e', i. split_and!; [by right|done|done].
  - intros Hd. unfold names in Hd. rewrite fmap_cons in Hd. apply NoDup_cons in Hd as [Hne Hd]. rewrite fmap_app. apply NoDup_app. split_and!.
    + rewrite <- N. apply NoDup_fmap_2_strong; [|apply NoDup_seqZ]. intros i j Hi%elem_of_seqZ Hj%elem_of_seqZ E.
      apply StoreSSTFileName_inj in E; [apply E|lia..].
    + intros f Hf Hf'. destruct (Hn f Hf) as (i & Hi & ->). apply list_elem_of_fmap in Hf' as (p & E & Hp). rewrite Forall_forall in R3.
      destruct (R3 p Hp) as (e' & j & He & Hj & E'). rewrite E' in E. apply StoreSSTFileName_inj in E as [E _]; [|done..]. apply Hne.
      rewrite E. by apply list_elem_of_fmap_2.
    + by apply R4.
Qed.

Lemma restore_tasks_ok target chunk fuel order ts tasks : (forall x, order x ≡ₚ x) -> Forall2 task_of ts tasks -> Forall (sortable fuel) ts ->
  forall w : W, app_current w = None -> collision sha256 \/
  exists w' parts, restore_tasks target chunk fuel order tasks w = Ok w' /\ app_current w' = None /\ app_files w' = app_files w ++ parts /\ stores_written ts parts.
Proof.
  intros Ho. induction 1 as [|e [n s] ts tasks (E & f & Ef & Es) F IH]; intros A w Hw; cbn in *.
  { right. exists w, []. split_and!; [done|done|by rewrite app_nil_r|]. split; [done|constructor|constructor|intros; constructor]. }
  subst n. apply Forall_cons in A as [((Hv & St) & Hfit & Hfuel) A].
  destruct (oneStore_ok sha256 w (nt_name e) (vt_version (nt_tree e)) (vt_root (nt_tree e)) f s target chunk fuel order) as [|(w1 & parts & E1 & C1 & F1 & _ & N1 & P1 & S1)];
    [done|done| |done..|by left|]. { intros x Hx. by rewrite Hx in St. }
  destruct (IH A w1 C1) as [|(w2 & parts' & E2 & C2 & F2 & S2)]; [by left|right]. rewrite E1. cbn [res_bind]. exists w2, (parts ++ parts').
  split_and!; [done|done|by rewrite F2, F1, app_assoc|]. by apply stores_written_cons.
Qed.

Definition info_of_tree (e : NamedTree) : StoreInfo := mkStoreInfo (nt_name e) (mkCommitID (vt_version (nt_tree e)) (rootHash sha256 (vt_root (nt_tree e)))).

Lemma load_snapshots_ok (snaps : name -> option Files) ts : Forall tree_storable ts ->
  Forall (fun e => exists f, snaps (nt_name e) = Some f /\ WriteSnapshotWithContext sha256 (fun _ => false) (vt_version (nt_tree e)) (vt_root (nt_tree e)) = Ok f) ts ->
  forall acc infos latest, exists tasks, Forall2 task_of ts tasks /\ load_snapshots sha256 snaps (names ts) acc infos latest =
    Ok (acc ++ tasks, infos ++ (info_of_tree <$> ts), foldl (fun m i => Z.max m (cid_version (si_commit i))) latest (info_of_tree <$> ts)).
Proof.
  intros A. induction A as [|e ts St A IH]; intros Hs acc infos latest.
  { exists []. split; [constructor|]. cbn. by rewrite !app_nil_r. }
  apply Forall_cons in Hs as [(f & Ef & Ew) Hs]. destruct (write_open_tree sha256 sha256_len (fun _ => false) e (fun _ => eq_refl) St) as (f' & Ew' & Eo).
  rewrite Ew in Ew'. injection Ew' as <-. unfold names. rewrite !fmap_cons. cbn [load_snapshots]. rewrite Ef. cbn [of_option res_bind].
  unfold open_tree in Eo. destruct (OpenSnapshot f) as [s| |] eqn:Es; [|done..]. cbn [res_bind] in *. change (snapshot_tree s = Ok (nt_tree e)) in Eo.
  rewrite Eo. cbn [res_bind]. rewrite lastCommitID_hash by done. change (mkStoreInfo _ _) with (info_of_tree e). cbn [cid_version].
  destruct (IH Hs (acc ++ [(nt_name e, s)]) (infos ++ [info_of_tree e]) (if latest <? vt_version (nt_tree e) then vt_version (nt_tree e) else latest)) as (tasks & F & E).
  exists ((nt_name e, s) :: tasks). split; [constructor; [split; [done|by exists f]|done]|]. change (nt_name <$> ts) with (names ts). rewrite E, <- !app_assoc. cbn [app foldl].
  do 3 f_equal. destruct (Z.ltb_spec latest (vt_version (nt_tree e))); cbn; lia.
Qed.
End Stores.

(** Stores do not share keys. *)
Lemma records_nodup `{!KeyFormats} sha256 ts : Forall (fun e => NoDup (store_records sha256 e).*1) ts -> NoDup (names ts) -> Forall no_slash (names ts) ->
  NoDup (ts ≫= store_records sha256).*1.
Proof.
  assert (forall e k, k ∈ (store_records sha256 e).*1 -> exists k', k = prependStoreKey (nt_name e) k') as Hk.
  { intros e k. unfold store_records. rewrite fmap_app, elem_of_app. intros [(p & -> & (n & -> & _)%list_elem_of_fmap)%list_elem_of_fmap| ->%list_elem_of_singleton]; by eexists. }
  unfold names. induction 1 as [|e ts He F IH]; intros N S; [constructor|]. rewrite fmap_cons in N. rewrite fmap_cons in S.
  apply NoDup_cons in N as [Hn N]. apply Forall_cons in S as [Se S].
  change ((e :: ts) ≫= store_records sha256) with (store_records sha256 e ++ (ts ≫= store_records sha256)). rewrite fmap_app. apply NoDup_app. split_and!; [done| |auto].
  intros k H1 H2. destruct (Hk e k H1) as [x ->]. apply list_elem_of_fmap in H2 as (p & E & (e' & Hp & He')%list_elem_of_bind).
  destruct (Hk e' p.1) as [y E']; [by apply list_elem_of_fmap_2|]. rewrite E' in E. assert (nt_name e' ∈ nt_name <$> ts) as Hin by (by apply list_elem_of_fmap_2).
  rewrite Forall_forall in S. apply full_key_inj in E as [E _]; [|done|by apply S]. by rewrite <- E in Hin.
Qed.

(** A snapshot directory by the names of its stores. *)
Definition snapshot_files (d : Dir) (n : name) : option Files := (list_to_map (d_trees d) : gmap bytes Files) !! n.

Lemma written_lookup sha256 ts fs : write_trees sha256 (fun _ => false) ts = Ok fs -> NoDup (names ts) ->
  Forall (fun e => exists f, (list_to_map fs : gmap bytes Files) !! nt_name e = Some f /\
    WriteSnapshotWithContext sha256 (fun _ => false) (vt_version (nt_tree e)) (vt_root (nt_tree e)) = Ok f) ts.
Proof.
  revert fs. induction ts as [|e ts IH]; intros fs E N; [constructor|]. unfold names in N. rewrite fmap_cons in N. apply NoDup_cons in N as [Hn N]. cbn [write_trees] in E.
  destruct (WriteSnapshotWithContext _ _ _ _) as [f| |] eqn:Ef; [|done..]. cbn [res_bind] in E. destruct (write_trees _ _ ts) as [rest| |]; [|done..].
  cbn [res_bind] in E. injection E as <-. constructor.
  - exists f. cbn. by rewrite lookup_insert_eq.
  - specialize (IH rest eq_refl N). rewrite Forall_forall in IH |- *. intros e' He'. destruct (IH e' He') as (f' & E' & Ew). exists f'. split; [|done]. cbn.
    rewrite lookup_insert_ne; [done|]. intros Eq. apply Hn. rewrite Eq. by apply list_elem_of_fmap_2.
Qed.

Lemma filter_all_or_none (p : bytes) (files : list (bytes * list (bytes * bytes))) old new : files ≡ₚ old ++ new ->
  Forall (fun f => ~ p `prefix_of` f.1) old -> Forall (fun f => p `prefix_of` f.1) new -> filter (fun f => p `prefix_of` f.1) files ≡ₚ new.
Proof.
  intros -> Ho Hn. rewrite filter_app. assert (filter (fun f => p `prefix_of` f.1) old = []) as ->.
  { induction Ho as [|x l Hx _ IH]; [done|]. by rewrite filter_cons_False. }
  cbn [app]. induction Hn as [|x l Hx _ IH]; [done|]. rewrite filter_cons_True by done. by rewrite IH.
Qed.

Lemma restored_info sha256 mt v ts : mt_wf mt -> ts ≡ₚ trees mt -> Forall (fun e => vt_version (nt_tree e) = v) (trees mt) -> trees mt <> [] -> 0 < v ->
  ClientVerify.buildCommitInfo (info_of_tree sha256 <$> ts) (foldl (fun m i => Z.max m (cid_version (si_commit i))) 0 (info_of_tree sha256 <$> ts)) =
  MultiTree.buildCommitInfo sha256 mt v.
Proof.
  intros Wf P Hv Hne H0. assert (si_name <$> (info_of_tree sha256 <$> trees mt) = names (trees mt)) as En by (by rewrite <- list_fmap_compose).
  rewrite latest_target with (target := v); [| | |done|lia].
  - unfold ClientVerify.buildCommitInfo. rewrite (sort_named_perm si_name _ (info_of_tree sha256 <$> trees mt)).
    + rewrite sort_named_id; [done|]. rewrite En. apply Wf.
    + by rewrite P.
    + rewrite P, En. apply strict_nodup, Wf.
  - intros E%fmap_nil_inv. subst ts. by apply Permutation_nil in P.
  - rewrite P. by apply Forall_fmap.
Qed.

(** The files that are ingested are the ones that were written. *)
Lemma collected_files {W : Type} `{!AppWriter W, !AppLaws W, !AppDir W, !AppDirLaws W, !KeyFormats} sha256 (w w' : W) ts parts :
  app_files w' = app_files w ++ parts -> stores_written sha256 ts parts -> NoDup (names ts) -> NoDup (app_files w).*1 ->
  Forall (fun f => ~ str "tmp-" `prefix_of` f.1) (app_files w) -> filter (fun f => str "tmp-" `prefix_of` f.1) (readDir w') ≡ₚ parts.
Proof.
  intros Fw [R1 R2 R3 R4] Hnd Hdup Hdir. apply (filter_all_or_none _ _ (app_files w)); [|done|].
  - rewrite read_dir; rewrite Fw; [done|]. rewrite fmap_app. apply NoDup_app. split_and!; [done| |by apply R4].
    intros f Hf (p & -> & Hp)%list_elem_of_fmap. rewrite Forall_forall in Hdir, R3. destruct (R3 p Hp) as (e & i & _ & _ & Ep).
    apply list_elem_of_fmap in Hf as (q & Eq & Hq). apply (Hdir q Hq). rewrite <- Eq, Ep. by eexists.
  - eapply Forall_impl; [exact R3|]. intros p (e & i & _ & _ & ->). by eexists.
Qed.


(** ** Samples *)

#[export] Instance list_dir : AppDir ListApp := {| readDir := la_files |}.
#[export] Instance list_dir_laws : AppDirLaws ListApp.
Proof. by split. Qed.

(** A database in memory. *)
#[export] Instance map_app_db : AppDB (gmap bytes bytes) := {|
  IngestExternalFile d files := match files with [] => Err "external_files is empty" | _ => Ok (list_to_map (concat files.*2) ∪ d) end;
  appDbPut d k v := Ok (<[k := v]> d);
|}.
#[export] Instance map_app_laws : AppDBLaws (gmap bytes bytes).
Proof.
  refine {| app_contents := fun d => d |}.
  - intros d [|f fs] Hne _; [done|]. by eexists.
  - intros d k v. by eexists.
Defined.

Lemma two_trees_sortable : Forall (sortable digest32 10) (trees two_trees).
Proof.
  constructor; [|constructor; [|constructor]].
  - split; [split; [by vm_compute|exact two_leaves_storable]|]. split; [repeat constructor; by vm_compute|cbn; lia].
  - split; [by split; vm_compute|]. split; [constructor|cbn; lia].
Qed.

