(* ===== verification/ClientVersionDb.v ===== *)
(** The commands that fill and read a versioned store:
    [versiondb/client/to_versiondb.go], [ingest_sst.go], [restore.go],
    [fixdata.go], [compact.go], [stores.go], [print.go] and [dump-versiondb] of
    [dump.go].

    The versioned store is the one of [VersionDb]; the ingestion of SST files is
    RocksDB's ([IngestDB]).  Flushing and compaction do not change what is read.

    Theorems: feeding the change set files of a store and ingesting the SST files
    that were built from them give the same records, and every read at a version
    returns the value of the history; a store restored from the state-sync stream
    of a multi-tree reads as its trees, and is marked with the height only when
    the whole stream was read; a dump of a version holds the keys set in it. *)
From stdpp Require Import prelude strings gmap pretty sorting.
From Stdlib Require Import ZArith Lia.
From S2P Require Import Prelude OrdMap Codec Node Hash Persisted Snapshot Wal Tree TreeSpec Export MultiTree Pending Db Changeset ExtSort VersionDb VersionMem RootMulti RootSpec StateSync ClientVerify ClientDump ClientSst.
Local Open Scope Z_scope.

(** ** Arguments *)

(** [strings.Split(stores, " ")]. *)
Fixpoint split_space (s : bytes) : list bytes :=
  match s with
  | [] => [[]]
  | c :: s =>
      if decide (c = z2b 32) then [] :: split_space s
      else match split_space s with w :: ws => (c :: w) :: ws | [] => [[c]] end
  end.
Definition GetStoresOrDefault (stores : bytes) (defaultStores : list bytes) : list bytes :=
  match stores with [] => defaultStores | _ => split_space stores end.

(** [mibToBytesPerSec] on [uint64]. *)
Definition mibToBytesPerSec (mib : Z) : res Z :=
  if Z.shiftr (2 ^ 63 - 1) 20 <? mib then Err "rate limit too large" else Ok (i64 (Z.shiftl (i64 mib) 20)).

(** ** Printing a file *)

(** The lines of the output; [js] is the text of a pair. *)
Inductive Line : Type := LVersion (version : Z) | LPair (js : bytes).

Section Print.
Context (json : KVPair -> res bytes).

Fixpoint print_pairs (cs : ChangeSet) (out : list Line) : list Line * option string :=
  match cs with
  | [] => (out, None)
  | p :: cs => match json p with Ok js => print_pairs cs (out ++ [LPair js]) | Err e | Panic e => (out, Some e) end
  end.

Definition print_versions (startVersion endVersion : Z) (out : list Line) (version : Z) : list Line * (bool * option string) :=
  if version <? startVersion then (out, (true, None))
  else if (0 <? endVersion) && (endVersion <=? version) then (out, (false, None))
  else (out ++ [LVersion version], (true, None)).

Definition print_changes (startVersion endVersion : Z) (out : list Line) (version : Z) (changeSet : ChangeSet) : list Line * (bool * option string) :=
  if version <? startVersion then (out, (true, None))
  else if (0 <? endVersion) && (endVersion <=? version) then (out, (false, None))
  else
    match print_pairs changeSet (out ++ [LVersion version]) with
    | (out, None) => (out, (true, None))
    | (out, Some e) => (out, (false, Some e))
    end.

Definition PrintChangeSet (files : list csFile) (fileName : bytes) (noParseChangeset : bool) (startVersion endVersion : Z) : res (list Line) :=
  withChangeSetFile files fileName (fun reader =>
    let* (r, err) :=
      if noParseChangeset then IterateVersions reader (print_versions startVersion endVersion) []
      else IterateChangeSets reader (print_changes startVersion endVersion) [] in
    match err with Some e => Err e | None => Ok (r.1 : list Line) end).
End Print.

(** ** Filling a store *)

(** Ingestion of SST files into the column family. *)
Class IngestDB (D : Type) := { IngestExternalFileCF : D -> list (bytes * list BatchOp) -> res D }.

Section Fill.
Context {D It : Type} `{!RocksIter It, !RocksDB D It}.

(** The callback on a version of a file. *)
Definition feed_callback (store : name) (s : @Store D) (version : Z) (changeSet : ChangeSet) : @Store D * (bool * option string) :=
  match FeedChangeSet s version store changeSet with
  | Ok s => (s, (true, None))
  | Err e | Panic e => (s, (false, Some e))
  end.

(** The loop over the files of the arguments. *)
Fixpoint ChangeSetToVersionDB (files : list csFile) (store : name) (plainFiles : list bytes) (s : @Store D) : res (@Store D) :=
  match plainFiles with
  | [] => Ok s
  | plainFile :: plainFiles =>
      let* s := withChangeSetFile files plainFile (fun reader =>
        let* (r, err) := IterateChangeSets reader (feed_callback store) s in
        match err with Some e => Err e | None => Ok (r.1 : @Store D) end) in
      ChangeSetToVersionDB files store plainFiles s
  end.

Definition IngestVersionDBSST `{!IngestDB D} (files : list (bytes * list BatchOp)) (maxVersion : Z) (d : D) : res D :=
  let* d := match files with [] => Ok d | _ => IngestExternalFileCF d files end in
  if 0 <? maxVersion then
    let store := mkStore d false in
    let* latestVersion := GetLatestVersion store in
    if latestVersion <? maxVersion then let* store := SetLatestVersion store maxVersion in Ok (st_db store) else Ok d
  else Ok d.

(** [readSnapshotEntries]: the entries that were sent, and the error.  The end of
    the list is the end of the stream. *)
Fixpoint readSnapshotEntries (storeKey : name) (msgs : list (res SnapshotItem)) : list ImportEntry * option string :=
  match msgs with
  | [] => ([], None)
  | Err e :: _ | Panic e :: _ => ([], Some ("invalid protobuf message: " ++ e)%string)
  | Ok (ItemStore n) :: msgs => readSnapshotEntries n msgs
  | Ok (ItemIAVL i) :: msgs =>
      if negb (ia_Height i =? 0) then readSnapshotEntries storeKey msgs
      else
        match storeKey with
        | [] => ([], Some "invalid protobuf message, store name is empty"%string)
        | _ => let '(es, err) := readSnapshotEntries storeKey msgs in
               ((storeKey, default [] (ia_Key i), default [] (ia_Value i)) :: es, err)
        end
  | Ok _ :: _ => ([], None)
  end.

(** The store after the import, and the error of the reader if there was one: then
    the latest version is not set. *)
Definition RestoreVersionDB (height : Z) (msgs : list (res SnapshotItem)) (s : @Store D) : res (@Store D * option string) :=
  let (entries, err) := readSnapshotEntries [] msgs in
  let* s := Import s (i64 height) entries in
  match err with
  | Some e => Ok (s, Some e)
  | None => let* s := SetLatestVersion s (i64 height) in Ok (s, None)
  end.

(** [fixdata]: the names of the flag, or the default. *)
Definition FixDataCmd (fuel : nat) (stores defaultStores : list name) (dryRun : bool) (d : D) : res (@Store D) :=
  FixData fuel (mkStore d false) (match stores with [] => defaultStores | _ => stores end) dryRun.

(** ** Dumping versions *)

(** The entries of the iterator with the timestamp of the version. *)
Fixpoint dump_pairs (version : Z) (entries : list (bytes * bytes * bytes)) : res ChangeSet :=
  match entries with
  | [] => Ok []
  | (key, value, ts) :: entries =>
      let* t := of_option "index out of range" (Uint64 ts) in
      let* rest := dump_pairs version entries in
      Ok (if t =? u64 version then mkKVPair false key (Some value) :: rest else rest)
  end.

(** [%s-%d] *)
Definition kvsFile (storeKey : name) (version : Z) : bytes := storeKey ++ str "-" ++ fmt_d version.

Definition dump_version (fuel : nat) (s : @Store D) (storeKey : name) (version : Z) : res (bytes * bytes) :=
  let* it := iteratorAtVersion fuel s storeKey None None (Some version) false in
  let* entries := VersionDb.collect fuel it in
  let* pairs := dump_pairs version entries in
  Ok (kvsFile storeKey version, WriteChangeSet version pairs).

Fixpoint dump_files (fuel : nat) (s : @Store D) (todo : list (name * Z)) : res (list (bytes * bytes)) :=
  match todo with
  | [] => Ok []
  | (storeKey, version) :: todo =>
      let* f := dump_version fuel s storeKey version in
      let* fs := dump_files fuel s todo in
      Ok (f :: fs)
  end.

(** The files of the stores for the versions of the range. *)
Definition DumpVersionDB (fuel : nat) (s : @Store D) (stores : list name) (startVersion endVersion : Z) : res (list (bytes * bytes)) :=
  dump_files fuel s (stores ≫= fun n => (fun v => (n, v)) <$> seqZ startVersion (endVersion - startVersion)).
End Fill.

(** ** What feeding writes *)

Section Feed.
Context {D It : Type} `{RI : !RocksIter It, RD : !RocksDB D It, IL : !RocksIterLaws It, RL : !RocksLaws D It}.

(** RocksDB takes every batch with timestamps of eight bytes. *)
Hypothesis writes : forall d b, forallb op_ok b = true -> exists d', dbWrite d b = Ok d'.

Lemma feed_op_ok store cs : forallb op_ok (feed_op store <$> cs) = true.
Proof. induction cs as [|c cs IH]; [done|]. rewrite fmap_cons. cbn [forallb]. rewrite IH. unfold feed_op. by destruct (p_delete c.2). Qed.

Lemma feed_op_plain store cs m : fold_left apply_plain (feed_op store <$> cs) m = m.
Proof. induction cs as [|c cs IH]; [done|]. rewrite fmap_cons. cbn [fold_left]. unfold feed_op at 2. by destruct (p_delete c.2). Qed.

(** The store after the operations of some changes. *)
Definition fed (store : name) (cs : list change) (s s' : @Store D) : Prop :=
  st_skipVersionZero s' = st_skipVersionZero s /\ plain (st_db s') = plain (st_db s) /\
  versions (st_db s') = fold_left apply_ts (feed_op store <$> cs) (versions (st_db s)).

Lemma fed_app store a b s1 s2 s3 : fed store a s1 s2 -> fed store b s2 s3 -> fed store (a ++ b) s1 s3.
Proof. intros (A1 & A2 & A3) (B1 & B2 & B3). split_and!; [by rewrite B1|by rewrite B2|]. by rewrite B3, A3, fmap_app, fold_left_app. Qed.

Lemma write_fed store cs s : exists s', write s (feed_op store <$> cs) = Ok s' /\ fed store cs s s'.
Proof.
  destruct (writes (st_db s) _ (feed_op_ok store cs)) as [d' E]. unfold write. rewrite E. cbn [res_bind]. eexists. split; [done|].
  apply law_write in E as [Ep Ev]. split_and!; [done| |exact Ev]. cbn [st_db]. by rewrite Ep, feed_op_plain.
Qed.

Lemma feed_read_as store v p : feed_op store (v, read_as p) = feed_op store (v, p).
Proof. unfold feed_op, read_as. cbn. by destruct p as [[] k [x|]]. Qed.

Lemma visit_fill store vs : forall s off, exists s' off', visit true (feed_callback store) s off vs None = (s', off', None) /\ fed store (changes_of vs) s s'.
Proof.
  induction vs as [|[v cs] vs IH]; intros s off; [by exists s, off|]. cbn [visit]. unfold feed_callback at 1. rewrite FeedChangeSet_ops.
  assert (feed_op store <$> ((fun p => (v, p)) <$> (read_as <$> cs)) = feed_op store <$> ((fun p => (v, p)) <$> cs)) as ->.
  { rewrite <- !list_fmap_compose. apply list_fmap_ext. intros i p _. apply feed_read_as. }
  destruct (write_fed store ((fun p => (v, p)) <$> cs) s) as (s1 & -> & F1). destruct (IH s1 (off + len (WriteChangeSet v cs))) as (s' & off' & E & F).
  exists s', off'. split; [exact E|]. unfold changes_of. rewrite bind_cons. by apply (fed_app store _ _ s s1).
Qed.

Lemma fill_ok store dir fs : NoDup dir.*1 -> Forall (fun f => file_fits f.2 /\ (f.1, Some (file_of f.2)) ∈ dir) fs -> forall s,
  exists s', ChangeSetToVersionDB dir store fs.*1 s = Ok s' /\ fed store (changes_of (all_versions fs)) s s'.
Proof.
  intros N. induction 1 as [|[n vs] fs [[Hf Hl] Hin] F IH]; intros s; [by exists s|]. rewrite fmap_cons. cbn [ChangeSetToVersionDB fst snd] in *.
  unfold withChangeSetFile. destruct (find_file dir n _ N Hin) as [i Ei]. rewrite Ei, IterateChangeSets_file by done.
  destruct (visit_fill store vs s 0) as (s1 & off & E & F1). rewrite E. cbn [res_bind fst]. destruct (IH s1) as (s' & E' & F'). exists s'. split; [done|].
  change (all_versions ((n, vs) :: fs)) with (vs ++ all_versions fs). unfold changes_of. rewrite bind_app. by apply (fed_app store _ _ s s1).
Qed.

(** ** The records of a history *)

(** The change sets of a store as blocks. *)
Definition blocks (store : name) (vs : list (Z * ChangeSet)) : list Block :=
  (fun x : Z * ChangeSet => (x.1, (fun p : KVPair => mkStoreKV store (p_delete p) (p_key p) (default [] (p_value p))) <$> x.2)) <$> vs.

Lemma feed_ops_pairs store v (cs : ChangeSet) : 0 <= v < 2 ^ 63 ->
  feed_op store <$> ((fun p => (v, p)) <$> cs) = pair_op (PutUint64 v) <$> ((fun p => mkStoreKV store (p_delete p) (p_key p) (default [] (p_value p))) <$> cs).
Proof.
  intros Hv. rewrite <- !list_fmap_compose. apply list_fmap_ext. intros i p _. unfold feed_op, pair_op, prependStoreKey, cloneAppend. cbn.
  by rewrite u64_small by lia.
Qed.

Lemma fed_lookup store key t vs : no_slash store -> (forall v, v ∈ vs.*1 -> 0 <= v < 2 ^ 63) -> forall m,
  fold_left apply_ts (feed_op store <$> changes_of vs) m !! (prependStoreKey store key, t) =
  fold_left (fun acc b => if b.1 =? t then match last_op b.2 store key with Some o => Some o | None => acc end else acc)
    (blocks store vs) (m !! (prependStoreKey store key, t)).
Proof.
  intros Hs. induction vs as [|[v cs] vs IH]; intros Hv m; [done|]. unfold changes_of, blocks. rewrite bind_cons, fmap_app, fold_left_app, fmap_cons. cbn [fst snd fold_left].
  assert (0 <= v < 2 ^ 63) by (apply Hv; by left). rewrite feed_ops_pairs by done.
  fold (changes_of vs) (blocks store vs). rewrite IH by (intros w Hw; apply Hv; by right). f_equal. rewrite ops_lookup; [done|lia|done|].
  apply Forall_fmap, Forall_forall. intros p _. exact Hs.
Qed.

Lemma fed_records store vs s s' key : fed store (changes_of vs) s s' -> fresh s -> no_slash store -> (forall v, v ∈ vs.*1 -> 0 <= v < 2 ^ 63) ->
  records s' (blocks store vs) store key.
Proof. intros (_ & _ & E) [Hf _] Hs Hv t. rewrite E, fed_lookup by done. by rewrite Hf. Qed.

Lemma blocks_ok store vs : no_slash store -> (forall v, v ∈ vs.*1 -> 1 <= v < 2 ^ 63) -> Forall block_ok (blocks store vs).
Proof.
  intros Hs Hv. apply Forall_fmap, Forall_forall. intros [v cs] Hin. split; cbn.
  - apply Hv. by apply (list_elem_of_fmap_2 fst) in Hin.
  - apply Forall_fmap, Forall_forall. intros p _. exact Hs.
Qed.

Lemma blocks_versions store vs : (blocks store vs).*1 = vs.*1.
Proof. unfold blocks. rewrite <- list_fmap_compose. done. Qed.
End Feed.

(** ** Ingestion *)

(** Files whose records have distinct keys and timestamps are all found after
    their ingestion. *)
Class IngestLaws (D It : Type) `{!RocksIter It, !RocksDB D It, !RocksIterLaws It, !RocksLaws D It, !IngestDB D} : Prop := {
  ingest_cf : forall d files, files <> [] -> NoDup ((fun o => (op_key o, op_ts o)) <$> concat files.*2) -> forallb op_ok (concat files.*2) = true ->
    exists d', IngestExternalFileCF d files = Ok d' /\ plain d' = fold_left apply_plain (concat files.*2) (plain d) /\
      versions d' = fold_left apply_ts (concat files.*2) (versions d);
}.

Lemma apply_feed store c m : 0 <= c.1 < 2 ^ 63 -> apply_ts m (feed_op store c) =
  <[(cloneAppend (storePrefix store) (p_key c.2), c.1) := if p_delete c.2 then None else Some (default [] (p_value c.2))]> m.
Proof. intros Hc. unfold feed_op. rewrite u64_small by lia. destruct (p_delete c.2); cbn [apply_ts]; by rewrite le_decode_ts by lia. Qed.

(** Operations on distinct keys may be taken in any order. *)
Lemma feed_perm store cs cs' : cs ≡ₚ cs' -> Forall change_ok cs -> NoDup ((fun c : change => (p_key c.2, c.1)) <$> cs) -> forall m,
  fold_left apply_ts (feed_op store <$> cs) m = fold_left apply_ts (feed_op store <$> cs') m.
Proof.
  induction 1 as [|c cs cs' P IH|a b cs|cs1 cs2 cs3 P1 IH1 P2 IH2]; intros F N m; [done| | |].
  - apply Forall_cons in F as [_ F]. rewrite fmap_cons in N. apply NoDup_cons in N as [_ N]. rewrite !fmap_cons. cbn [fold_left]. by apply IH.
  - rewrite !fmap_cons. cbn [fold_left]. f_equal. apply Forall_cons in F as [[Hb _] F]. apply Forall_cons in F as [[Ha _] F].
    rewrite !apply_feed by done. rewrite insert_insert_ne; [done|]. intros E. rewrite !fmap_cons in N. apply NoDup_cons in N as [N _]. apply N.
    apply pair_equal_spec in E as [E1 E2]. apply (app_inv_head (storePrefix store)) in E1. rewrite E1, E2. by left.
  - rewrite IH1, IH2; [done|by rewrite <- P1|by rewrite <- P1|done|done].
Qed.

Lemma written_ops store (parts : list (bytes * list change)) : concat (ClientSst.written store <$> parts).*2 = feed_op store <$> concat parts.*2.
Proof. induction parts as [|[f cs] parts IH]; [done|]. rewrite !fmap_cons. cbn [concat snd ClientSst.written]. by rewrite fmap_app, IH. Qed.

Lemma feed_keys_nodup store cs : Forall change_ok cs -> NoDup ((fun c : change => (p_key c.2, c.1)) <$> cs) ->
  NoDup ((fun o => (op_key o, op_ts o)) <$> (feed_op store <$> cs)).
Proof.
  assert (forall c, (op_key (feed_op store c), op_ts (feed_op store c)) = (cloneAppend (storePrefix store) (p_key c.2), PutUint64 (u64 c.1))) as Hop
    by (intros c; unfold feed_op; by destruct (p_delete c.2)).
  induction 1 as [|c cs [Hc _] F IH]; intros N; [constructor|]. rewrite fmap_cons in N. apply NoDup_cons in N as [Hn N]. rewrite !fmap_cons. constructor; [|auto].
  rewrite Hop, <- list_fmap_compose. intros (d & E & Hd)%list_elem_of_fmap. cbn in E. rewrite Hop in E. apply Hn. apply list_elem_of_fmap. exists d. split; [|done].
  rewrite Forall_forall in F. destruct (F d Hd) as [Hd' _]. apply pair_equal_spec in E as [E1 E2]. apply (app_inv_head (storePrefix store)) in E1. rewrite E1. f_equal.
  apply (f_equal le_decode) in E2. by rewrite !u64_small, !le_decode_ts in E2 by lia.
Qed.

Section Ingest.
Context {D It : Type} `{RI : !RocksIter It, RD : !RocksDB D It, IL : !RocksIterLaws It, RL : !RocksLaws D It, IG : !IngestDB D, GL : !IngestLaws D It}.
Hypothesis writes : forall d b, forallb op_ok b = true -> exists d', dbWrite d b = Ok d'.

Lemma latest_read (s : @Store D) v : plain (st_db s) !! latestVersionKey = Some (PutUint64 v) -> 0 <= v < 2 ^ 63 -> GetLatestVersion s = Ok v.
Proof.
  intros E Hv. unfold GetLatestVersion. rewrite law_get, E. cbn [res_bind default from_option id].
  pose proof (Uint64_ts v ltac:(lia)) as Hu. destruct (PutUint64 v) as [|b bs] eqn:Eb; [done|]. rewrite Hu. cbn [of_option res_bind]. by rewrite i64_small by lia.
Qed.

Lemma set_latest (s : @Store D) v : 0 <= v < 2 ^ 63 -> exists s', SetLatestVersion s v = Ok s' /\ st_skipVersionZero s' = st_skipVersionZero s /\
  plain (st_db s') = <[latestVersionKey := PutUint64 v]> (plain (st_db s)) /\ versions (st_db s') = versions (st_db s).
Proof.
  intros Hv. unfold SetLatestVersion, write. rewrite u64_small by lia. destruct (writes (st_db s) [BPut latestVersionKey (PutUint64 v)] eq_refl) as [d E]. rewrite E. cbn [res_bind].
  eexists. split; [done|]. by apply law_write in E as [E1 E2].
Qed.

(** The maximum version is recorded when it is newer. *)
Lemma ingest_latest files m (d d1 : D) old : match files with [] => Ok d | _ => IngestExternalFileCF d files end = Ok d1 -> plain d1 = plain d ->
  GetLatestVersion (mkStore d false) = Ok old -> 0 < m < 2 ^ 63 ->
  exists d2, IngestVersionDBSST files m d = Ok d2 /\ versions d2 = versions d1 /\ GetLatestVersion (mkStore d2 false) = Ok (Z.max old m).
Proof.
  intros Ei Ep Eo Hm. unfold IngestVersionDBSST. rewrite Ei. cbn [res_bind]. rewrite (proj2 (Z.ltb_lt 0 m)) by lia.
  assert (GetLatestVersion (mkStore d1 false) = Ok old) as Eo1.
  { unfold GetLatestVersion in *. cbn [st_db] in *. rewrite law_get in Eo. by rewrite law_get, Ep. }
  rewrite Eo1. cbn [res_bind]. destruct (Z.ltb_spec old m) as [Hlt|Hge].
  - destruct (set_latest (mkStore d1 false) m ltac:(lia)) as ([d2 k2] & E2 & K2 & P2 & V2). cbn in K2, P2, V2. subst k2. rewrite E2. cbn [res_bind st_db]. exists d2.
    split_and!; [done|done|]. replace (Z.max old m) with m by lia. apply latest_read; [|lia]. cbn [st_db]. by rewrite P2, lookup_insert_eq.
  - exists d1. split_and!; [done|done|]. by replace (Z.max old m) with old by lia.
Qed.
(** What the files of a conversion leave after their ingestion. *)
Lemma ingest_converted {W : Type} `{SW : !SSTWriter W, SWL : !SSTLaws W, Srt : !Sorting, Snp : !Snappy, SL : !SortingLaws, NL : !SnappyLaws}
  (w : W) store dir fs target chunk fuel order (s s1 : @Store D) :
  convertible dir fs -> sst_current w = None -> sst_files w = [] -> 0 < target -> (forall x, order x ≡ₚ x) -> (length (changes_of (all_versions fs)) < fuel)%nat ->
  fed store (changes_of (all_versions fs)) s s1 ->
  exists w' d1, convertSingleStore w store (Some dir) target chunk fuel order = Ok w' /\
    match sst_files w' with [] => Ok (st_db s) | _ => IngestExternalFileCF (st_db s) (sst_files w') end = Ok d1 /\ plain d1 = plain (st_db s) /\
    versions d1 = versions (st_db s1).
Proof.
  intros C Hw Hnew Ht Ho Hf (_ & _ & V1). destruct (convert_ok w store dir fs target chunk fuel order C Hw Ht Ho Hf) as [K1 K2].
  destruct (decide (changes_of (all_versions fs) = [])) as [Ee|Ene].
  - exists w, (st_db s). rewrite (K1 Ee), Hnew. split_and!; [done..|]. by rewrite V1, Ee.
  - destruct (K2 Ene) as (w' & parts & Ew & _ & Ef & Pc & _). rewrite Hnew in Ef. cbn [app] in Ef.
    destruct (ingest_cf (st_db s) (sst_files w')) as (d1 & Ei & Ep & Ev).
    + rewrite Ef. intros E%fmap_nil_inv. subst parts. cbn in Pc. by apply Permutation_nil in Pc.
    + rewrite Ef, written_ops. apply feed_keys_nodup; rewrite Pc; apply C.
    + rewrite Ef, written_ops. apply feed_op_ok.
    + exists w', d1. split_and!; [done| | |].
      * destruct (sst_files w') eqn:E; [|done]. symmetry in Ef. apply fmap_nil_inv in Ef as ->. cbn in Pc. by apply Permutation_nil in Pc.
      * by rewrite Ep, Ef, written_ops, feed_op_plain.
      * rewrite Ev, Ef, written_ops, V1. apply feed_perm; rewrite Pc; [done|apply C..].
Qed.
End Ingest.

(** ** Restoring from a state-sync stream *)

(** The leaves of a tree as entries of its store. *)
Definition tree_pairs (e : NamedTree) : pairs := from_option to_list [] (vt_root (nt_tree e)).
Definition tree_kvs (e : NamedTree) : list StoreKVPair := (fun p => mkStoreKV (nt_name e) false p.1 (default [] p.2)) <$> tree_pairs e.
Definition entry_of (p : StoreKVPair) : ImportEntry := (kv_store p, kv_key p, kv_value p).

(** The branches are skipped and the leaves are sent in the order of the keys. *)
Lemma read_tree (store : name) n : store <> [] -> avl n -> Height n < 128 -> forall msgs rest,
  Forall2 delivered (item_message <$> (INode <$> (exportNode <$> post_order n))) msgs ->
  readSnapshotEntries store ((Ok <$> msgs) ++ rest) =
    let '(es, err) := readSnapshotEntries store rest in (((fun p => (store, p.1, default [] p.2)) <$> to_list n) ++ es, err).
Proof.
  intros Hne. induction n as [v k x|h sz v k l IHl r IHr]; intros A Hh msgs rest F.
  - apply Forall2_cons_inv_l in F as (m & ms & D & F & ->). apply Forall2_nil_inv_l in F as ->. destruct m as [|n'|i|y]; try done.
    destruct D as (Ek & Ex & _ & Eh). cbn in Ek, Ex, Eh. cbn [fmap list_fmap app readSnapshotEntries]. rewrite <- Eh. cbn [negb Z.eqb].
    change (i32 (i8 0) =? 0) with true. cbn [negb]. rewrite <- Ek, <- Ex. destruct store; [done|]. by destruct (readSnapshotEntries _ rest).
  - destruct A as (Al & Ar & Eh & _). pose proof (avl_height_nonneg _ Al). pose proof (avl_height_nonneg _ Ar). cbn [Height] in *.
    cbn [post_order] in F. rewrite !fmap_app in F. apply Forall2_app_inv_l in F as (m1 & m' & F1 & F & ->). apply Forall2_app_inv_l in F as (m2 & m3 & F2 & F3 & ->).
    rewrite !fmap_app, <- !app_assoc, (IHl Al ltac:(lia) m1 _ F1), (IHr Ar ltac:(lia) m2 _ F2).
    apply Forall2_cons_inv_l in F3 as (m & ms & D & F3 & ->). apply Forall2_nil_inv_l in F3 as ->. destruct m as [|n'|i|y]; try done.
    destruct D as (_ & _ & _ & Ei). cbn in Ei. cbn [fmap list_fmap app readSnapshotEntries to_list]. rewrite i8_small, i32_small in Ei by lia. rewrite <- Ei.
    rewrite (proj2 (Z.eqb_neq h 0)) by lia. cbn [negb]. destruct (readSnapshotEntries store rest) as [es err]. change (to_list (Branch h sz v k l r)) with (to_list l ++ to_list r).
    by rewrite fmap_app, <- app_assoc.
Qed.

(** What follows the trees: the end, another item, or a broken message. *)
Inductive stream_tail : list (res SnapshotItem) -> option string -> Prop :=
| TailEnd : stream_tail [] None
| TailExtension x rest : stream_tail (Ok (ItemExtension x) :: rest) None
| TailBroken e rest : stream_tail (Err e :: rest) (Some ("invalid protobuf message: " ++ e)%string).

Lemma storable_height e n : tree_storable e -> vt_root (nt_tree e) = Some n -> avl n /\ Height n < 128.
Proof.
  intros [_ St] E. rewrite E in St. destruct St as [(A & _ & _) F]. split; [done|]. pose proof (fits_L _ _ _ _ F). unfold leaf_count in *.
  pose proof (avl_height_bound n A) as Hb. unfold small, max_leaves in *. specialize (Hb ltac:(lia)). lia.
Qed.

Lemma read_trees ts rest err : stream_tail rest err -> Forall tree_storable ts -> Forall (fun n => n <> []) (names ts) -> forall store msgs,
  Forall2 delivered (messages ts) msgs -> readSnapshotEntries store ((Ok <$> msgs) ++ rest) = (entry_of <$> (ts ≫= tree_kvs), err).
Proof.
  intros T. induction ts as [|e ts IH]; intros St Hn store msgs F.
  { apply Forall2_nil_inv_l in F as ->. destruct T; done. }
  rewrite messages_cons in F. apply Forall2_cons_inv_l in F as (m & ms & D & F & ->). destruct m as [|n'|i|y]; try done. cbn in D. subst n'.
  apply Forall2_app_inv_l in F as (m1 & m2 & F1 & F2 & ->). apply Forall_cons in St as [Se St]. unfold names in Hn. rewrite fmap_cons in Hn. apply Forall_cons in Hn as [Hne Hn].
  cbn [fmap list_fmap app readSnapshotEntries]. change (list_fmap _ _ Ok (m1 ++ m2)) with (Ok <$> (m1 ++ m2)). rewrite fmap_app, <- app_assoc. specialize (IH St Hn (nt_name e) m2 F2).
  rewrite bind_cons, fmap_app. unfold tree_kvs at 1. unfold tree_pairs. unfold export_stream in F1. destruct (vt_root (nt_tree e)) as [n|] eqn:Er; cbn [from_option] in *.
  - destruct (storable_height e n Se Er) as [A Hh]. rewrite (read_tree (nt_name e) n Hne A Hh m1 _ F1), IH. rewrite <- list_fmap_compose. done.
  - apply Forall2_nil_inv_l in F1 as ->. cbn [fmap list_fmap app]. exact IH.
Qed.

(** A change of a key that occurs once is the last one. *)
Lemma last_op_none cs store key : (store, key) ∉ (fun p => (kv_store p, kv_key p)) <$> cs -> last_op cs store key = None.
Proof.
  unfold last_op. induction cs as [|p cs IH] using rev_ind; [done|]. rewrite fold_left_app, fmap_app, not_elem_of_app. intros [H1 H2]. cbn [fold_left].
  unfold op_on at 1. rewrite decide_False; [auto|]. intros [<- <-]. apply H2. by left.
Qed.

Lemma last_op_once cs p : NoDup ((fun p => (kv_store p, kv_key p)) <$> cs) -> p ∈ cs ->
  last_op cs (kv_store p) (kv_key p) = Some (if kv_delete p then None else Some (kv_value p)).
Proof.
  unfold last_op. induction cs as [|q cs IH] using rev_ind; [by intros _ ?%elem_of_nil|]. rewrite fmap_app, fold_left_app. intros (N & Hd & _)%NoDup_app Hp. cbn [fold_left].
  unfold op_on at 1. apply elem_of_app in Hp as [Hp| ->%list_elem_of_singleton]; [|by rewrite decide_True].
  rewrite decide_False; [by apply IH|]. intros [E1 E2]. apply (Hd (kv_store p, kv_key p)).
  - apply list_elem_of_fmap. by exists p.
  - rewrite <- E1, <- E2. by left.
Qed.

Section Restore.
Context {D It : Type} `{RI : !RocksIter It, RD : !RocksDB D It, IL : !RocksIterLaws It, RL : !RocksLaws D It}.
Hypothesis writes : forall d b, forallb op_ok b = true -> exists d', dbWrite d b = Ok d'.

Lemma pair_ops_ok v ps : forallb op_ok (pair_op (PutUint64 v) <$> ps) = true.
Proof. induction ps as [|p ps IH]; [done|]. rewrite fmap_cons. cbn [forallb]. rewrite IH. unfold pair_op. by destruct (kv_delete p). Qed.

(** The batches of an import add up to the operations of all entries. *)
Lemma import_loop_ok v ps : Forall (fun p => kv_delete p = false) ps -> forall (s : @Store D) counter done_,
  exists s', import_loop s (PutUint64 v) counter (pair_op (PutUint64 v) <$> done_) (entry_of <$> ps) = Ok s' /\
    plain (st_db s') = plain (st_db s) /\ versions (st_db s') = fold_left apply_ts (pair_op (PutUint64 v) <$> (done_ ++ ps)) (versions (st_db s)).
Proof.
  assert (forall (s : @Store D) qs, exists s', write s (pair_op (PutUint64 v) <$> qs) = Ok s' /\ plain (st_db s') = plain (st_db s) /\
    versions (st_db s') = fold_left apply_ts (pair_op (PutUint64 v) <$> qs) (versions (st_db s))) as Hwr.
  { intros s qs. unfold write. destruct (writes (st_db s) _ (pair_ops_ok v qs)) as [d E]. rewrite E. cbn [res_bind]. eexists. split; [done|].
    apply law_write in E as [Ep Ev]. cbn [st_db]. split; [by rewrite Ep, fold_plain_ops|done]. }
  induction 1 as [|p ps Hp F IH]; intros s counter done_.
  - cbn [fmap list_fmap import_loop]. rewrite app_nil_r. destruct (0 <? len _) eqn:E; [apply Hwr|]. exists s. destruct done_ as [|q qs]; [done|].
    rewrite fmap_cons, len_cons in E. pose proof (len_nonneg (pair_op (PutUint64 v) <$> qs)). lia.
  - rewrite fmap_cons. unfold entry_of at 1. cbn [import_loop].
    assert ((pair_op (PutUint64 v) <$> done_) ++ [BPutTS (cloneAppend (storePrefix (kv_store p)) (kv_key p)) (PutUint64 v) (kv_value p)] = pair_op (PutUint64 v) <$> (done_ ++ [p])) as ->.
    { rewrite fmap_app. cbn. unfold pair_op at 3. by rewrite Hp. }
    destruct (_ =? 0).
    + destruct (Hwr s (done_ ++ [p])) as (s1 & -> & P1 & V1). cbn [res_bind]. destruct (IH s1 (counter + 1) []) as (s' & E & P & V). exists s'. split; [exact E|].
      split; [by rewrite P, P1|]. rewrite V, V1, <- fold_left_app, <- fmap_app, <- app_assoc. done.
    + destruct (IH s (counter + 1) (done_ ++ [p])) as (s' & E & P & V). exists s'. split; [exact E|]. split; [done|]. by rewrite V, <- app_assoc.
Qed.

Lemma restore_state (s : @Store D) ts h msgs rest err : fresh s -> Forall tree_storable ts -> Forall (fun n => n <> [] /\ no_slash n) (names ts) -> 0 < h < 2 ^ 63 ->
  Forall2 delivered (messages ts) msgs -> stream_tail rest err ->
  exists s', RestoreVersionDB h ((Ok <$> msgs) ++ rest) s = Ok (s', err) /\
    (forall store key, no_slash store -> records s' [(h, ts ≫= tree_kvs)] store key) /\ GetLatestVersion s' = Ok (match err with None => h | Some _ => 0 end).
Proof.
  intros [Hf Hl] St Hn Hh F T. unfold RestoreVersionDB.
  rewrite (read_trees ts rest err T St) by ((eapply Forall_impl; [exact Hn|by intros ? []]) || done). rewrite i64_small by lia. unfold Import. rewrite u64_small by lia.
  destruct (import_loop_ok h (ts ≫= tree_kvs)) with (s := s) (counter := 0) (done_ := @nil StoreKVPair) as (s1 & E & P & V).
  { apply Forall_forall. intros p (e & Hp & _)%list_elem_of_bind. unfold tree_kvs in Hp. by apply list_elem_of_fmap in Hp as (q & -> & _). }
  cbn [fmap list_fmap app] in E, V. rewrite E. cbn [res_bind].
  assert (forall store key, no_slash store -> records s1 [(h, ts ≫= tree_kvs)] store key) as Hr.
  { intros store key Hs t. rewrite V. change (list_fmap _ _ (pair_op (PutUint64 h)) ?l) with (pair_op (PutUint64 h) <$> l). rewrite ops_lookup; [|lia|done|].
    - rewrite Hf. unfold written. cbn [fold_left fst snd]. done.
    - apply Forall_forall. intros p (e & Hp & He)%list_elem_of_bind. unfold tree_kvs in Hp. apply list_elem_of_fmap in Hp as (q & -> & _). cbn.
      rewrite Forall_forall in Hn. by apply Hn, list_elem_of_fmap_2. }
  destruct err as [e|].
  - exists s1. split_and!; [done|done|]. unfold GetLatestVersion. rewrite law_get, P. by rewrite Hl.
  - destruct (set_latest writes s1 h ltac:(lia)) as (s2 & E2 & _ & P2 & V2). rewrite E2. cbn [res_bind]. exists s2. split_and!; [done| |].
    + intros store key Hs t. rewrite V2. by apply Hr.
    + apply latest_read; [|lia]. by rewrite P2, lookup_insert_eq.
Qed.
End Restore.

(** Distinct images tell the elements apart. *)
Lemma nodup_fmap_inj {A B} (f : A -> B) l a b : NoDup (f <$> l) -> a ∈ l -> b ∈ l -> f a = f b -> a = b.
Proof.
  induction l as [|x l IH]; [by intros _ ?%elem_of_nil|]. rewrite fmap_cons. intros [Hx N]%NoDup_cons Ha Hb E.
  apply elem_of_cons in Ha as [->|Ha], Hb as [->|Hb]; [done| | |auto].
  - destruct Hx. rewrite E. by apply list_elem_of_fmap_2.
  - destruct Hx. rewrite <- E. by apply list_elem_of_fmap_2.
Qed.

Lemma tree_kvs_keys ts : Forall tree_storable ts -> NoDup (names ts) -> NoDup ((fun p => (kv_store p, kv_key p)) <$> (ts ≫= tree_kvs)).
Proof.
  unfold names. induction 1 as [|e ts St F IH]; intros N; [constructor|]. rewrite fmap_cons in N. apply NoDup_cons in N as [Hn N]. rewrite bind_cons, fmap_app. apply NoDup_app.
  assert (forall e', (fun p => (kv_store p, kv_key p)) <$> tree_kvs e' = (fun k => (nt_name e', k)) <$> (tree_pairs e').*1) as Hk
    by (intros e'; unfold tree_kvs; by rewrite <- !list_fmap_compose).
  split_and!; [| |auto].
  - rewrite Hk. apply NoDup_fmap_2; [by intros ? ? [= ->]|]. unfold tree_pairs. destruct St as [_ St]. destruct (vt_root (nt_tree e)) as [n|]; [|constructor].
    destruct St as [(_ & _ & So) _]. apply strict_nodup. exact (search_tree_sorted n So).
  - intros x H1 H2. rewrite Hk in H1. apply list_elem_of_fmap in H1 as (k & -> & _). apply list_elem_of_fmap in H2 as (p & E & (e' & Hp & He)%list_elem_of_bind).
    unfold tree_kvs in Hp. apply list_elem_of_fmap in Hp as (q & -> & _). injection E as E _. apply Hn. rewrite E. by apply list_elem_of_fmap_2.
Qed.

(** ** The entries of a version *)

Lemma dump_pairs_ok version entries : 0 <= version < 2 ^ 63 -> Forall (fun e : bytes * bytes * bytes => exists u, e.2 = PutUint64 u /\ 0 <= u < 2 ^ 64) entries ->
  StronglySorted bytes_lt ((fun e => e.1.1) <$> entries) ->
  exists cs, dump_pairs version entries = Ok cs /\ StronglySorted bytes_lt (p_key <$> cs) /\
    forall p, p ∈ cs <-> exists k x, p = mkKVPair false k (Some x) /\ (k, x, PutUint64 version) ∈ entries.
Proof.
  intros Hv. induction 1 as [|[[k x] t] entries (u & Et & Hu) F IH]; intros S.
  { exists []. split_and!; [done|constructor|]. intros p. split; [by intros ?%elem_of_nil|]. by intros (k & x & _ & ?%elem_of_nil). }
  cbn [snd] in Et. subst t. rewrite fmap_cons in S. apply StronglySorted_inv in S as [S Hk]. rewrite List.Forall_forall in Hk. destruct (IH S) as (cs & E & Sc & Hc).
  cbn [dump_pairs]. rewrite Uint64_ts by lia. cbn [of_option res_bind]. rewrite E. cbn [res_bind]. rewrite u64_small by lia. eexists. split; [done|].
  assert (PutUint64 u = PutUint64 version -> u = version) as Hinj by (intros Eq; apply (f_equal le_decode) in Eq; by rewrite !le_decode_ts in Eq by lia).
  destruct (Z.eqb_spec u version) as [->|Hne]; split.
  - rewrite fmap_cons. constructor; [done|]. apply Forall_forall. intros y Hy. apply list_elem_of_fmap in Hy as (p & -> & Hp). apply Hc in Hp as (k' & x' & -> & Hin).
    apply Hk. apply list_elem_of_In, (list_elem_of_fmap_2 (fun e : bytes * bytes * bytes => e.1.1) _ _ Hin).
  - intros p. rewrite elem_of_cons, Hc. split.
    + intros [->|(k' & x' & -> & Hin)]; [exists k, x; split; [done|by left]|]. exists k', x'. split; [done|by right].
    + intros (k' & x' & -> & [[= <- <-]|Hin]%elem_of_cons); [by left|right]. by exists k', x'.
  - done.
  - intros p. rewrite Hc. split; intros (k' & x' & -> & Hin); exists k', x'; (split; [done|]); [by right|].
    apply elem_of_cons in Hin as [Eq|Hin]; [|done]. destruct Hne. apply Hinj. by apply (f_equal snd) in Eq.
Qed.

(** What a dumped file tells of a store at a version. *)
Definition dumped_version (hist : list Block) (task : name * Z) (f : bytes * bytes) : Prop :=
  exists cs, f = (kvsFile task.1 task.2, WriteChangeSet task.2 cs) /\ StronglySorted bytes_lt (p_key <$> cs) /\
    forall p, p ∈ cs <-> exists k x, p = mkKVPair false k (Some x) /\ VersionDb.written hist task.1 k task.2 = Some (Some x).

Section Dumped.
Context {D It : Type} `{RI : !RocksIter It, RD : !RocksDB D It, IL : !RocksIterLaws It, RL : !RocksLaws D It}.

Lemma dump_version_ok fuel (s : @Store D) hist store v : (forall key, records s hist store key) -> Forall block_ok hist -> 0 <= v < 2 ^ 63 ->
  (length (rows (dbNewIterator (st_db s) (newTSReadOptions (Some v)))) < fuel)%nat ->
  exists f, dump_version fuel s store v = Ok f /\ dumped_version hist (store, v) f.
Proof.
  intros Hr Hok Hv Hf. destruct (iterate_recorded hist s store None None v false fuel Hr Hok Hv Hf) as (itr & out & E1 & E2 & So & Hin); [done..|].
  destruct (dump_pairs_ok v out Hv) as (cs & E3 & Sc & Hc); [|done|].
  { apply Forall_forall. intros [[k x] t] (_ & u & -> & Hn)%Hin. exists u. split; [done|]. pose proof (written_range _ _ _ _ _ _ _ Hok Hn). lia. }
  unfold dump_version. rewrite E1. cbn [res_bind]. rewrite E2. cbn [res_bind]. rewrite E3. cbn [res_bind]. eexists. split; [done|]. exists cs. split_and!; [done..|].
  intros p. rewrite Hc. cbn [fst snd]. split; intros (k & x & -> & H); exists k, x; (split; [done|]).
  - apply Hin in H as (_ & u & Eu & Hn). pose proof (written_range _ _ _ _ _ _ _ Hok Hn). apply (f_equal le_decode) in Eu.
    rewrite !le_decode_ts in Eu by lia. subst u. apply Hn.
  - apply Hin. split; [split; [by destruct k|done]|]. exists v. split; [done|]. split_and!; [done|lia|]. intros; lia.
Qed.
End Dumped.

(** ** Properties *)


(** C26: [restore-versiondb] fills a new versioned store from the state-sync stream
    of a multi-tree.  Whatever number of batches it takes, every store reads at
    each version from the height on as the tree of the snapshot: each key of the
    tree has its value there and other keys have none; before the height nothing
    is found.  The latest version is the height when the stream ended, or went
    over to an extension, after the trees; it stays unset, and the error is
    returned, when a message after them was broken. *)
Theorem restore_versiondb_reads {D It : Type} `{RI : !RocksIter It, RD : !RocksDB D It, IL : !RocksIterLaws It, RL : !RocksLaws D It}
  (writes : forall (d : D) b, forallb op_ok b = true -> exists d', dbWrite d b = Ok d')
  (s : @Store D) (ts : list NamedTree) (h : Z) (msgs : list SnapshotItem) (rest : list (res SnapshotItem)) (err : option string)
  (Hf : fresh s) (St : Forall tree_storable ts) (Hd : NoDup (names ts)) (Hn : Forall (fun n => n <> [] /\ no_slash n) (names ts)) (Hh : 0 < h < 2 ^ 63)
  (F : Forall2 delivered (messages ts) msgs) (T : stream_tail rest err) :
  exists s' : @Store D, RestoreVersionDB h ((Ok <$> msgs) ++ rest) s = Ok (s', err) /\
    (forall e v, e ∈ ts -> h <= v < 2 ^ 63 ->
       (forall k x, (k, x) ∈ tree_pairs e -> GetAtVersion s' (nt_name e) k (Some v) = Ok (Some (default [] x))) /\
       (forall k, k ∉ (tree_pairs e).*1 -> GetAtVersion s' (nt_name e) k (Some v) = Ok None)) /\
    (forall e v k, e ∈ ts -> 0 <= v < h -> GetAtVersion s' (nt_name e) k (Some v) = Ok None) /\
    GetLatestVersion s' = Ok (match err with None => h | Some _ => 0 end).
Proof.
  destruct (restore_state writes s ts h msgs rest err Hf St Hn Hh F T) as (s' & E & R & L). exists s'. pose proof (tree_kvs_keys ts St Hd) as Nk.
  assert (forall e, e ∈ ts -> no_slash (nt_name e)) as Hs by (intros e He; rewrite Forall_forall in Hn; by apply Hn, list_elem_of_fmap_2).
  assert (forall e v k, e ∈ ts -> 0 <= v < 2 ^ 63 -> GetAtVersion s' (nt_name e) k (Some v) =
    Ok (if h <=? v then match last_op (ts ≫= tree_kvs) (nt_name e) k with Some o => o | None => None end else None)) as Hg.
  { intros e v k He Hv. unfold GetAtVersion. rewrite (get_recorded [(h, ts ≫= tree_kvs)]); [done|by apply R, Hs| |repeat constructor|by intros ? [= <-]].
    constructor; [|constructor]. split; [cbn; lia|]. apply Forall_forall. intros p (e' & Hp & He')%list_elem_of_bind. unfold tree_kvs in Hp.
    apply list_elem_of_fmap in Hp as (q & -> & _). by apply Hs. }
  split_and!; [done| | |done].
  - intros e v He Hv. split; intros k; [intros x Hx|intros Hx]; rewrite Hg, (proj2 (Z.leb_le h v)) by (done || lia).
    + pose proof (last_op_once _ (mkStoreKV (nt_name e) false k (default [] x)) Nk) as Hl. cbn [kv_store kv_key kv_delete kv_value] in Hl.
      rewrite Hl; [done|]. apply list_elem_of_bind. exists e. split; [|done].
      unfold tree_kvs. apply list_elem_of_fmap. by exists (k, x).
    + rewrite last_op_none; [done|]. intros (p & Ep & (e' & Hp & He')%list_elem_of_bind)%list_elem_of_fmap. unfold tree_kvs in Hp.
      apply list_elem_of_fmap in Hp as (q & -> & Hq). injection Ep as En ->. cbn [kv_store kv_key] in *. assert (e' = e) as -> by (by apply (nodup_fmap_inj nt_name ts)).
      apply Hx. by apply list_elem_of_fmap_2.
  - intros e v k He Hv. rewrite Hg by (done || lia). by rewrite (proj2 (Z.leb_gt h v)) by lia.
Qed.

(** [dump-versiondb] writes, for every store and every version of the range, a
    file named after them with one change set: the keys that the block of that
    version has left set in the store, with their values, in increasing order;
    keys that the block deleted, and keys of other versions, are not in it. *)
Theorem dump_versiondb_holds_sets {D It : Type} `{RI : !RocksIter It, RD : !RocksDB D It, IL : !RocksIterLaws It, RL : !RocksLaws D It}
  (s s' : @Store D) (hist : list Block) (stores : list name) (startVersion endVersion : Z) (fuel : nat)
  (E : put_all s hist = Ok s') (Hf : fresh s) (Hok : Forall block_ok hist) (Hs : Forall no_slash stores) (Hv : 0 <= startVersion /\ endVersion <= 2 ^ 63)
  (Hfuel : forall v, startVersion <= v < endVersion -> (length (rows (dbNewIterator (st_db s') (newTSReadOptions (Some v)))) < fuel)%nat) :
  exists out, DumpVersionDB fuel s' stores startVersion endVersion = Ok out /\
    Forall2 (dumped_version hist) (stores ≫= fun n => (fun v => (n, v)) <$> seqZ startVersion (endVersion - startVersion)) out.
Proof.
  unfold DumpVersionDB. assert (Forall (fun t : name * Z => no_slash t.1 /\ startVersion <= t.2 < endVersion) (stores ≫= fun n => (fun v => (n, v)) <$> seqZ startVersion (endVersion - startVersion))) as Ht.
  { apply Forall_forall. intros t (n & Hin & Hn)%list_elem_of_bind. apply list_elem_of_fmap in Hin as (v & -> & Hin%elem_of_seqZ). rewrite Forall_forall in Hs. split; [by apply Hs|cbn; lia]. }
  induction Ht as [|[n v] todo [Hn Hr] _ (out & IH & F)]; [by exists []|]. cbn [dump_files fst snd] in *.
  destruct (dump_version_ok fuel s' hist n v) as (f & -> & Hd); [intros key; by eapply put_all_records|done|lia|by apply Hfuel|]. cbn [res_bind]. rewrite IH. cbn [res_bind].
  exists (f :: out). split; [done|by constructor].
Qed.

(** ** Samples *)

#[export] Instance mem_ingest : IngestDB MemDB := {| IngestExternalFileCF d files := dbWrite d (concat files.*2) |}.
#[export] Instance mem_ingest_laws : IngestLaws MemDB MemIter.
Proof.
  split. intros d files _ _ Hok. cbn [IngestExternalFileCF mem_ingest]. destruct (dbWrite d (concat files.*2)) as [d'| |] eqn:E; [|cbn in E; by rewrite Hok in E..].
  exists d'. split; [done|]. by apply law_write.
Qed.

Lemma mem_writes (d : MemDB) b : forallb op_ok b = true -> exists d', dbWrite d b = Ok d'.
Proof. intros Hb. cbn. rewrite Hb. by eexists. Qed.

Lemma bank_name : no_slash (str "bank").
Proof. unfold no_slash. apply (bool_decide_unpack _). by vm_compute. Qed.


Lemma sample_names_ok : Forall (fun n => n <> [] /\ no_slash n) (names (trees two_trees)).
Proof. repeat constructor; try done; unfold no_slash; apply (bool_decide_unpack _); by vm_compute. Qed.

Lemma two_trees_storable : Forall tree_storable (trees two_trees).
Proof. constructor; [split; [by vm_compute|exact two_leaves_storable]|constructor; [split; [by vm_compute|done]|constructor]]. Qed.

(** A stream that breaks after the trees. *)
Lemma restore_versiondb_reads_witness : exists s' : @Store MemDB,
  RestoreVersionDB 7 ((Ok <$> messages (trees two_trees)) ++ [Err "unexpected EOF"]) empty_store = Ok (s', Some "invalid protobuf message: unexpected EOF"%string) /\
  (forall e v, e ∈ trees two_trees -> 7 <= v < 2 ^ 63 ->
     (forall k x, (k, x) ∈ tree_pairs e -> GetAtVersion s' (nt_name e) k (Some v) = Ok (Some (default [] x))) /\
     (forall k, k ∉ (tree_pairs e).*1 -> GetAtVersion s' (nt_name e) k (Some v) = Ok None)) /\
  (forall e v k, e ∈ trees two_trees -> 0 <= v < 7 -> GetAtVersion s' (nt_name e) k (Some v) = Ok None) /\
  GetLatestVersion s' = Ok 0.
Proof.
  refine (restore_versiondb_reads mem_writes empty_store (trees two_trees) 7 (messages (trees two_trees)) [Err "unexpected EOF"%string] _ empty_fresh two_trees_storable _ sample_names_ok _ _ _).
  - apply strict_nodup, two_trees_wf.
  - lia.
  - apply Forall_Forall2_diag, Forall_forall. intros m _. apply delivered_refl.
  - exact (TailBroken "unexpected EOF" []).
Defined.

Lemma dump_versiondb_holds_sets_witness : exists out, DumpVersionDB 10 sample_store [store_a; store_ab] 3 6 = Ok out /\
  Forall2 (dumped_version sample_blocks) [(store_a, 3); (store_a, 4); (store_a, 5); (store_ab, 3); (store_ab, 4); (store_ab, 5)] out.
Proof.
  refine (dump_versiondb_holds_sets empty_store sample_store sample_blocks [store_a; store_ab] 3 6 10 _ empty_fresh sample_blocks_ok _ _ _).
  - by vm_compute.
  - repeat constructor; unfold no_slash; apply (bool_decide_unpack _); by vm_compute.
  - lia.
  - intros v Hv. assert (v = 3 \/ v = 4 \/ v = 5) as [->|[->| ->]] by lia; vm_compute; lia.
Defined.

(** ** Small facts *)

(** The rate in bytes is exact, or the limit is refused. *)
Lemma mib_bounds mib : 0 <= mib < 2 ^ 64 ->
  mibToBytesPerSec mib = if mib * 2 ^ 20 <? 2 ^ 63 then Ok (mib * 2 ^ 20) else Err "rate limit too large".
Proof.
  intros Hm. unfold mibToBytesPerSec. rewrite Z.shiftr_div_pow2 by lia. change ((2 ^ 63 - 1) / 2 ^ 20) with (2 ^ 43 - 1).
  destruct (Z.ltb_spec (2 ^ 43 - 1) mib), (Z.ltb_spec (mib * 2 ^ 20) (2 ^ 63)); try lia; [done|].
  by rewrite (i64_small mib), Z.shiftl_mul_pow2, i64_small by lia.
Qed.

(** Names without spaces, joined by single spaces, are read back. *)
Lemma stores_flag ns d : ns <> [] -> Forall (fun n => n <> [] /\ z2b 32 ∉ n) ns ->
  GetStoresOrDefault (foldr (fun n acc => match acc with [] => n | _ => n ++ z2b 32 :: acc end) [] ns) d = ns.
Proof.
  intros Hne F. assert (forall n s, z2b 32 ∉ n -> split_space (n ++ z2b 32 :: s) = n :: split_space s) as Hs.
  { induction n as [|c n IH]; intros s Hn; cbn; [by rewrite decide_True|]. apply not_elem_of_cons in Hn as [Hc Hn]. rewrite decide_False by done. by rewrite IH. }
  assert (forall n, z2b 32 ∉ n -> split_space n = [n]) as Hl.
  { induction n as [|c n IH]; intros Hn; cbn; [done|]. apply not_elem_of_cons in Hn as [Hc Hn]. rewrite decide_False by done. by rewrite IH. }
  set (join := foldr _ []). assert (forall ns, Forall (fun n => n <> [] /\ z2b 32 ∉ n) ns -> ns <> [] -> join ns <> [] /\ split_space (join ns) = ns) as Hj.
  { clear -Hs Hl. induction 1 as [|n ns [Hn Hsp] F IH]; intros Hne; [done|]. cbn. fold (join ns). destruct ns as [|m ns]; [cbn; by rewrite Hl|].
    destruct (IH ltac:(done)) as [J1 J2]. destruct (join (m :: ns)) as [|c r]; [done|]. split; [by destruct n|]. by rewrite Hs, J2. }
  destruct (Hj ns F Hne) as [J1 J2]. unfold GetStoresOrDefault. by destruct (join ns).
Qed.

(** Printing a file shows the versions of the range and their changes. *)
Definition in_window (startVersion endVersion v : Z) : bool := (startVersion <=? v) && ((endVersion <=? 0) || (v <? endVersion)).
Definition shown (js : KVPair -> bytes) (startVersion endVersion : Z) (vs : list (Z * ChangeSet)) : list Line :=
  vs ≫= fun x => if in_window startVersion endVersion x.1 then LVersion x.1 :: (LPair ∘ js ∘ read_as <$> x.2) else [].

Lemma print_pairs_ok js (cs : ChangeSet) : forall out, print_pairs (fun p => Ok (js p)) cs out = (out ++ (LPair ∘ js <$> cs), None).
Proof. induction cs as [|p cs IH]; intros out; cbn; [by rewrite app_nil_r|]. by rewrite IH, <- app_assoc. Qed.

Lemma visit_print js a b vs : StronglySorted Z.lt vs.*1 -> forall out off,
  exists off', visit true (print_changes (fun p => Ok (js p)) a b) out off vs None = (out ++ shown js a b vs, off', None).
Proof.
  induction vs as [|[v cs] vs IH]; intros S out off; [exists off; cbn; by rewrite app_nil_r|]. rewrite fmap_cons in S. apply StronglySorted_inv in S as [S Hv].
  cbn [visit]. unfold print_changes at 1. unfold shown. rewrite bind_cons. fold (shown js a b vs). cbn [fst snd]. unfold in_window.
  destruct (Z.ltb_spec v a); [rewrite (proj2 (Z.leb_gt a v)) by lia; apply (IH S)|]. rewrite (proj2 (Z.leb_le a v)) by lia. cbn [andb].
  destruct ((0 <? b) && (b <=? v)) eqn:Eb.
  - apply andb_true_iff in Eb as [H0%Z.ltb_lt H1%Z.leb_le]. eexists. rewrite (proj2 (Z.leb_gt b 0)), (proj2 (Z.ltb_ge v b)) by lia. cbn [orb app].
    assert (shown js a b vs = []) as ->; [|by rewrite app_nil_r]. clear IH S. unfold shown. induction vs as [|[w ds] vs IH]; [done|].
    rewrite fmap_cons in Hv. apply Forall_cons in Hv as [Hw Hv]. cbn [fst] in Hw. rewrite bind_cons, IH by done.
    cbn [fst]. unfold in_window. by rewrite (proj2 (Z.leb_gt b 0)), (proj2 (Z.ltb_ge w b)), andb_false_r by lia.
  - assert ((b <=? 0) || (v <? b) = true) as ->.
    { apply orb_true_iff. apply andb_false_iff in Eb as [?%Z.ltb_ge|?%Z.leb_gt]; [left; by apply Z.leb_le|right; by apply Z.ltb_lt]. }
    rewrite print_pairs_ok. edestruct (IH S) as [off' E]. rewrite E. exists off'. rewrite <- !app_assoc, <- list_fmap_compose. done.
Qed.

Lemma print_ok js dir f vs a b : NoDup dir.*1 -> (f, Some (file_of vs)) ∈ dir -> file_fits vs -> StronglySorted Z.lt vs.*1 ->
  PrintChangeSet (fun p => Ok (js p)) dir f false a b = Ok (shown js a b vs).
Proof.
  intros N Hin [Hf Hl] S. unfold PrintChangeSet, withChangeSetFile. destruct (find_file dir f _ N Hin) as [i ->]. rewrite IterateChangeSets_file by done.
  destruct (visit_print js a b vs S [] 0) as [off ->]. done.
Qed.
