(* ===== verification/VersionAdmin.v ===== *)
(** Opening, trimming and compacting a versioned store: [versiondb/tsrocksdb/opts.go],
    [compact.go], the constructors of [store.go], and the command of
    [versiondb/client/compact.go].

    RocksDB's administration is the interface [RocksAdmin]: it opens a directory
    with settings, compacts, and reports properties.  Its laws are what the manual
    says of the contents: opening and compacting keep them, opening with a
    timestamp to trim drops the newer versions of the column family that has
    timestamps.

    Theorems: a store opened with a version to trim reads as if only the blocks up
    to it had been written, and still reports the latest version of before; a
    compaction that reports success has replaced every file of the column family,
    met no background error and left every read as it was. *)
From stdpp Require Import prelude strings gmap fin_maps sorting pretty.
From Stdlib Require Import ZArith Lia.
From S2P Require Import Prelude OrdMap Codec Tree VersionDb VersionMem VersionStore ClientVersionDb.
Local Open Scope Z_scope.

(** ** Settings *)

Inductive Compression : Type := NoCompression | LZ4 | ZSTD.

(** One call on an options object. *)
Inductive Setting : Type :=
| CreateIfMissing (b : bool)
| CreateIfMissingColumnFamilies (b : bool)
| TSComparator
| IncreaseParallelism (n : Z)
| OptimizeLevelStyleCompaction (memtable : Z)
| TargetFileSizeMultiplier (n : Z)
| LevelCompactionDynamicLevelBytes (b : bool)
| BlockSize (n : Z)
| BlockCache (n : Z)
| RibbonFilter
| IndexBinarySearchWithFirstKey
| OptimizeFiltersForMemory (b : bool)
| CompressionParallelThreads (n : Z)
| CompressionPerLevel (levels : list Compression)
| BottommostCompression (c : Compression)
| BottommostCompressionOptions (maxDictBytes level : Z)
| BottommostZstdMaxTrainBytes (n : Z)
| MaxSubcompactions (n : Z)
| RateLimiter (bytesPerSec : Z).

Section Opts.
(** [runtime.NumCPU()] and the number of levels of the options. *)
Context (numCPU : Z) (numLevels : nat).

Definition NewVersionDBOpts (sstFileWriter : bool) : res (list Setting) :=
  let opts := [CreateIfMissing true; TSComparator; IncreaseParallelism numCPU; OptimizeLevelStyleCompaction (512 * 1024 * 1024);
               TargetFileSizeMultiplier 2; LevelCompactionDynamicLevelBytes true; BlockSize (32 * 1024); BlockCache (Z.shiftl 1 30);
               RibbonFilter; IndexBinarySearchWithFirstKey; OptimizeFiltersForMemory true; CompressionParallelThreads 4] in
  if sstFileWriter then Ok opts
  else
    let levels := replicate numLevels LZ4 in
    if (numLevels <? 2)%nat then Panic "index out of range"
    else
      let levels := <[1%nat := ZSTD]> (<[0%nat := ZSTD]> levels) in
      Ok (opts ++ [CompressionPerLevel levels; BottommostCompression ZSTD; BottommostCompressionOptions 112640 12;
                   BottommostZstdMaxTrainBytes (112640 * 100)]).

Definition defaultDBOpts : list Setting := [CreateIfMissing true; CreateIfMissingColumnFamilies true].

Definition compactionDBOpts (rateBytesPerSec : Z) : list Setting :=
  MaxSubcompactions (u32 numCPU) :: (if 0 <? rateBytesPerSec then [RateLimiter rateBytesPerSec] else []).
End Opts.

Definition VersionDBCFName : string := "versiondb".
Definition defaultCFName : string := "default".

(** ** RocksDB's administration *)

Inductive OpenMode : Type :=
| ReadWrite
| ReadOnlyMode (errorIfWalFileExists : bool)
| TrimHistory (ts : bytes).

(** [E] is a directory; the column families are given with their settings. *)
Class RocksAdmin (E D : Type) := {
  adOpen : OpenMode -> E -> list Setting -> list (string * list Setting) -> res D;
  adLiveSSTFilesSize : D -> option Z;
  adBackgroundErrors : D -> option Z;
  adLiveFiles : D -> list (string * string);
  adCompactRange : D -> D;
}.

Section Admin.
Context {E D : Type} `{!RocksAdmin E D} (numCPU : Z) (numLevels : nat).

Definition open_families (mode : OpenMode) (dir : E) (opts : list Setting) : res D :=
  let* cf := NewVersionDBOpts numCPU numLevels false in
  adOpen mode dir opts [(defaultCFName, opts); (VersionDBCFName, cf)].

Definition openVersionDB (dir : E) (opts : list Setting) : res D := open_families ReadWrite dir opts.
Definition OpenVersionDB (dir : E) : res D := openVersionDB dir defaultDBOpts.
Definition OpenVersionDBForReadOnly (dir : E) (errorIfWalFileExists : bool) : res D :=
  open_families (ReadOnlyMode errorIfWalFileExists) dir [].
Definition OpenVersionDBAndTrimHistory (dir : E) (version : Z) : res D :=
  open_families (TrimHistory (PutUint64 (u64 version))) dir defaultDBOpts.

Definition NewStoreWithDB (db : D) : @Store D := mkStore db false.
Definition NewStore (dir : E) : res (@Store D) := let* db := OpenVersionDB dir in Ok (mkStore db false).

(** ** Compaction *)

Definition liveSSTFiles (db : D) : list string :=
  omap (fun f => if decide (f.2 = VersionDBCFName) then Some f.1 else None) (adLiveFiles db).

Definition liveSSTFilesSize (db : D) : res Z :=
  match adLiveSSTFilesSize db with Some size => Ok size | None => Err "failed to read rocksdb.live-sst-files-size" end.

(** The first live file that was live before. *)
Fixpoint not_rewritten (old : list string) (live : list (string * string)) : res unit :=
  match live with
  | [] => Ok tt
  | f :: live => if decide (f.1 ∈ old) then Err ("sst file " ++ f.1 ++ " was not rewritten")%string else not_rewritten old live
  end.

(** The sizes before and after, and the database as it is closed. *)
Definition CompactVersionDB (dir : E) (rateBytesPerSec : Z) : res (Z * Z) * option D :=
  if rateBytesPerSec <? 0 then (Err "negative rate limit", None)
  else
    match openVersionDB dir (compactionDBOpts numCPU rateBytesPerSec) with
    | Err e => (Err ("open versiondb: " ++ e)%string, None)
    | Panic e => (Panic e, None)
    | Ok db =>
        match liveSSTFilesSize db with
        | Err e => (Err e, Some db)
        | Panic e => (Panic e, Some db)
        | Ok before =>
            let oldFiles := liveSSTFiles db in
            let db := adCompactRange db in
            (match adBackgroundErrors db with
             | None => Err "failed to read rocksdb.background-errors"
             | Some bgErrors =>
                 if 0 <? bgErrors then Err "compaction failed with background errors"
                 else
                   let* _ := not_rewritten oldFiles (adLiveFiles db) in
                   let* after := liveSSTFilesSize db in
                   Ok (before, after)
             end, Some db)
        end
    end.

(** [CompactVersionDBCmd]: the rate is given in MiB per second. *)
Definition CompactVersionDBCmd (dir : E) (rateLimit : Z) : res (Z * Z) * option D :=
  match mibToBytesPerSec rateLimit with
  | Ok rateBytesPerSec => CompactVersionDB dir rateBytesPerSec
  | Err e => (Err e, None)
  | Panic e => (Panic e, None)
  end.
End Admin.

(** ** The laws of the contents *)

Section Contents.
Context {D It : Type} `{RI : !RocksIter It, RD : !RocksDB D It, IL : !RocksIterLaws It, RL : !RocksLaws D It}.

Definition same_contents (d d' : D) : Prop := versions d' = versions d /\ plain d' = plain d.

(** Only the versions up to [v] are kept, in the family with timestamps. *)
Definition trimmed (v : Z) (d d' : D) : Prop :=
  plain d' = plain d /\ forall k t, versions d' !! (k, t) = if t <=? v then versions d !! (k, t) else None.

Class AdminLaws (E : Type) `{!RocksAdmin E D} := {
  contents : E -> D;
  law_adOpen : forall mode e opts cfs d, adOpen mode e opts cfs = Ok d ->
    match mode with TrimHistory ts => trimmed (le_decode ts) (contents e) d | _ => same_contents (contents e) d end;
  law_adCompact : forall d, same_contents d (adCompactRange d);
  law_adErrors : forall d n, adBackgroundErrors d = Some n -> 0 <= n;
}.

(** The blocks up to a version. *)
Definition blocks_upto (v : Z) (hist : list Block) : list Block := filter (fun b => b.1 <= v) hist.

Lemma written_upto hist store key v t : written (blocks_upto v hist) store key t = if t <=? v then written hist store key t else None.
Proof.
  unfold written, blocks_upto. induction hist as [|b hist IH] using rev_ind; [by destruct (t <=? v)|].
  rewrite filter_app, !fold_left_app. cbn [fold_left]. unfold filter at 1. cbn [list_filter]. destruct (decide (b.1 <= v)) as [Hb|Hb]; cbn [fold_left].
  - rewrite IH. destruct (Z.eqb_spec b.1 t) as [<-|]; [by rewrite (proj2 (Z.leb_le b.1 v) Hb)|done].
  - rewrite IH. destruct (Z.leb_spec t v); [|done]. by rewrite (proj2 (Z.eqb_neq b.1 t)) by lia.
Qed.

Lemma value_upto hist store key v w : value_at (blocks_upto v hist) store key w = value_at hist store key (Z.min v w).
Proof.
  unfold value_at, blocks_upto. induction hist as [|b hist IH] using rev_ind; [done|].
  rewrite filter_app, !fold_left_app. cbn [fold_left]. unfold filter at 1. cbn [list_filter].
  destruct (decide (b.1 <= v)) as [Hb|Hb]; cbn [fold_left]; rewrite IH.
  - destruct (Z.leb_spec b.1 w), (Z.leb_spec b.1 (Z.min v w)); done || lia.
  - by destruct (Z.leb_spec b.1 (Z.min v w)); [lia|].
Qed.

Lemma Forall_upto (P : Block -> Prop) v hist : Forall P hist -> Forall P (blocks_upto v hist).
Proof. rewrite !Forall_forall. intros H b [_ Hb]%list_elem_of_filter. auto. Qed.

Lemma blocks_upto_ok lo v hist : Forall (block_from lo) hist -> increasing hist ->
  Forall (block_from lo) (blocks_upto v hist) /\ increasing (blocks_upto v hist).
Proof.
  intros Hok Hinc. split; [by apply Forall_upto|]. unfold increasing, blocks_upto in *. induction hist as [|b hist IH]; [constructor|].
  apply Forall_cons in Hok as [_ Hok]. rewrite fmap_cons in Hinc. apply StronglySorted_inv in Hinc as [Hinc Hf]. specialize (IH Hok Hinc).
  rewrite filter_cons. destruct (decide _); [|done]. cbn. constructor; [done|]. rewrite Forall_fmap in *. by apply (Forall_upto (Z.lt b.1 ∘ fst) v).
Qed.

Lemma trimmed_records (s : @Store D) d hist store key v : records s hist store key -> trimmed v (st_db s) d ->
  records (NewStoreWithDB d) (blocks_upto v hist) store key.
Proof. intros Hr [_ Ht] t. cbn. by rewrite Ht, written_upto, Hr. Qed.

Lemma latest_plain (s : @Store D) d : plain d = plain (st_db s) -> GetLatestVersion (NewStoreWithDB d) = GetLatestVersion s.
Proof. intros Hp. unfold GetLatestVersion. rewrite !law_get. cbn. by rewrite Hp. Qed.

(** Equal contents, equal reads. *)
Lemma same_reads d d' ts k : same_contents d d' -> dbGetTS d' ts k = dbGetTS d ts k.
Proof.
  intros [Hv _]. destruct (mem_get (versions d) k (le_decode ts)) as [[v t]|] eqn:Em.
  - apply mem_get_spec in Em. rewrite (law_get_found d ts k t v Em). apply law_get_found. by rewrite Hv.
  - assert (forall t v, ~ newest (versions d) k (le_decode ts) t (Some v)) as Hn
      by (intros t v Hn; apply mem_get_spec in Hn; congruence).
    rewrite (law_get_missing d ts k Hn). apply law_get_missing. by rewrite Hv.
Qed.

Lemma same_trans d1 d2 d3 : same_contents d1 d2 -> same_contents d2 d3 -> same_contents d1 d3.
Proof. unfold same_contents. intuition congruence. Qed.

Lemma not_rewritten_spec old live : not_rewritten old live = Ok tt -> forall f, f ∈ old -> f ∉ live.*1.
Proof.
  induction live as [|x live IH]; cbn; [intros _ f _; apply not_elem_of_nil|]. destruct (decide (x.1 ∈ old)) as [|Hx]; [done|].
  intros H f Hf. rewrite not_elem_of_cons. split; [by intros ->|auto].
Qed.
End Contents.

(** ** Properties *)

(** C35: Rolling back.  A store opened to be trimmed at a version reads, at every version
    and without one, as if only the blocks up to it had been written, and its
    iterators walk exactly these pairs.  The latest version lives outside the
    family that is trimmed: the store still reports the version of the last block
    of before. *)
Theorem trim_is_rollback {E D It : Type} `{RI : !RocksIter It, RD : !RocksDB D It, IL : !RocksIterLaws It, RL : !RocksLaws D It,
    RA : !RocksAdmin E D, AL : !AdminLaws E} (numCPU : Z) (numLevels : nat) (s : @Store D) (dir : E) (d : D) (hist : list Block)
  (store key : bytes) (start end_ : slice) (target : Z) (version : option Z) (rev : bool)
  (Hf : fresh s) (Hw : put_all s hist = Ok (mkStore (contents dir) (st_skipVersionZero s))) (Hok : Forall (block_from 0) hist) (Hinc : increasing hist)
  (Ho : OpenVersionDBAndTrimHistory numCPU numLevels dir target = Ok d) (Ht : 0 <= target < 2 ^ 63) (Hs : no_slash store)
  (Hv : version_ok version) (Hst : start <> Some []) (Hen : end_ <> Some []) :
  GetAtVersion (NewStoreWithDB d) store key version = Ok (value_at hist store key (Z.min target (read_version version))) /\
  (exists n, forall fuel, (n <= fuel)%nat -> exists itr, iteratorAtVersion fuel (NewStoreWithDB d) store start end_ version rev = Ok itr /\
     consume fuel itr = Ok (listing (blocks_upto target hist) store start end_ (read_version version) rev)) /\
  GetLatestVersion (NewStoreWithDB d) = Ok (match last hist with Some b => b.1 | None => 0 end).
Proof.
  unfold OpenVersionDBAndTrimHistory, open_families in Ho. apply res_bind_ok in Ho as (cf & _ & Ho). apply law_adOpen in Ho.
  rewrite u64_small, le_decode_ts in Ho by lia.
  set (s' := mkStore (contents dir) (st_skipVersionZero s)) in *.
  assert (forall key, records (NewStoreWithDB d) (blocks_upto target hist) store key) as Hr
    by (intros k; eapply (trimmed_records s'); [by eapply put_all_records|done]).
  destruct (blocks_upto_ok 0 target hist Hok Hinc) as [Hok' Hinc']. split_and!.
  - rewrite <- value_upto. by apply (get_from 0).
  - exists (Datatypes.S (length (rows (dbNewIterator d (newTSReadOptions version))))). intros fuel Hfuel. by apply (iterate_listing 0); try done; cbn; lia.
  - rewrite (latest_plain s') by apply Ho. by eapply latest_block.
Qed.

(** Compaction.  However it ends, a database that was opened keeps its contents, so
    every read returns what it returned.  A success means that the rate was not
    negative, that no background error was met, that the reported sizes are those
    before and after, and that no file of the versioned family that was live
    before is live afterwards. *)
Theorem compaction_keeps_contents {E D It : Type} `{RI : !RocksIter It, RD : !RocksDB D It, IL : !RocksIterLaws It, RL : !RocksLaws D It,
    RA : !RocksAdmin E D, AL : !AdminLaws E} (numCPU : Z) (numLevels : nat) (dir : E) (rate : Z) (r : res (Z * Z)) (d : D)
  (Hc : CompactVersionDB numCPU numLevels dir rate = (r, Some d)) :
  same_contents (contents dir) d /\
  (forall store key version, GetAtVersion (NewStoreWithDB d) store key version = GetAtVersion (NewStoreWithDB (contents dir)) store key version) /\
  (forall before after, r = Ok (before, after) -> 0 <= rate /\ adBackgroundErrors d = Some 0 /\ adLiveSSTFilesSize d = Some after /\
     exists d0, openVersionDB numCPU numLevels dir (compactionDBOpts numCPU rate) = Ok d0 /\ adLiveSSTFilesSize d0 = Some before /\
       forall f, f ∈ liveSSTFiles d0 -> f ∉ (adLiveFiles d).*1).
Proof.
  unfold CompactVersionDB in Hc. destruct (Z.ltb_spec rate 0) as [|Hrate]; [done|].
  destruct (openVersionDB _ _ _ _) as [d0| |] eqn:Eo; [|done|done].
  assert (same_contents (contents dir) d0) as H0.
  { unfold openVersionDB, open_families in Eo. apply res_bind_ok in Eo as (cf & _ & Eo). by apply law_adOpen in Eo. }
  assert (same_contents (contents dir) d) as Hd.
  { destruct (liveSSTFilesSize d0); injection Hc as _ <-; [|done|done]. apply (same_trans _ d0); [done|apply law_adCompact]. }
  split_and!; [done| |].
  { intros store key version. unfold GetAtVersion, GetAtVersionSlice. cbn [st_db NewStoreWithDB]. by rewrite (same_reads _ _ _ _ Hd). }
  intros before after ->. unfold liveSSTFilesSize in Hc. destruct (adLiveSSTFilesSize d0) as [b0|] eqn:Eb; [|done].
  injection Hc as Hc <-. destruct (adBackgroundErrors (adCompactRange d0)) as [n|] eqn:En; [|done].
  destruct (Z.ltb_spec 0 n) as [|Hn]; [done|]. apply res_bind_ok in Hc as ([] & Hf & Hc).
  destruct (adLiveSSTFilesSize (adCompactRange d0)) as [a0|] eqn:Ea; [|done]. injection Hc as -> ->.
  pose proof (law_adErrors _ _ En). replace n with 0 by lia. split_and!; [done..|]. exists d0. split_and!; [done..|].
  by apply not_rewritten_spec.
Qed.

(** ** A database with files in memory *)

(** A generation number for the one file of the versioned family. *)
Record FileDB : Type := mkFileDB { fdb_mem : MemDB; fdb_gen : nat }.

#[export] Instance file_db : RocksDB FileDB MemIter := {|
  dbGet d k := dbGet (fdb_mem d) k;
  dbWrite d b := let* m := dbWrite (fdb_mem d) b in Ok (mkFileDB m (fdb_gen d));
  dbGetTS d ts k := dbGetTS (fdb_mem d) ts k;
  dbNewIterator d ts := dbNewIterator (fdb_mem d) ts;
|}.

#[export, refine] Instance file_laws : RocksLaws FileDB MemIter :=
  {| plain d := plain (fdb_mem d); versions d := versions (fdb_mem d) |}.
Proof.
  - intros d k. exact (law_get (fdb_mem d) k).
  - intros d d' b (m & Em & <-%Ok_inj)%res_bind_ok. exact (law_write (fdb_mem d) m b Em).
  - intros d. exact (law_get_found (fdb_mem d)).
  - intros d. exact (law_get_missing (fdb_mem d)).
  - intros d. exact (law_iter (fdb_mem d)).
Defined.

Definition trim_mem (v : Z) (m : MemDB) : MemDB := mkMemDB (mem_plain m) (filter (fun x => x.1.2 <= v) (mem_raw m)).

#[export] Instance file_admin : RocksAdmin FileDB FileDB := {|
  adOpen mode e opts cfs := Ok (match mode with TrimHistory ts => mkFileDB (trim_mem (le_decode ts) (fdb_mem e)) (fdb_gen e) | _ => e end);
  adLiveSSTFilesSize d := Some (Z.of_nat (size (mem_raw (fdb_mem d))));
  adBackgroundErrors d := Some 0;
  adLiveFiles d := [(pretty (fdb_gen d), VersionDBCFName); ("CURRENT"%string, defaultCFName)];
  adCompactRange d := mkFileDB (fdb_mem d) (S (fdb_gen d));
|}.

#[export, refine] Instance file_admin_laws : AdminLaws FileDB := {| contents e := e |}.
Proof.
  - intros mode e opts cfs d [= <-]. destruct mode as [| |ts]; [done|done|]. split; [done|]. intros k t. cbn. unfold clean.
    destruct (Z.leb_spec t (le_decode ts)) as [Ht|Ht].
    + apply option_eq. intros x. rewrite !map_lookup_filter_Some. cbn. naive_solver.
    + apply map_lookup_filter_None. left. apply map_lookup_filter_None. right. cbn. intros x _. lia.
  - intros d. done.
  - intros d n [= <-]. done.
Defined.

Definition file_store : @Store FileDB := mkStore (mkFileDB (mkMemDB ∅ ∅) 0) false.
Definition file_dir : FileDB := match put_all file_store sample_blocks with Ok s => st_db s | _ => st_db file_store end.
Definition file_trimmed : FileDB := match OpenVersionDBAndTrimHistory 4 7 file_dir 3 with Ok d => d | _ => file_dir end.

Lemma file_fresh : fresh file_store.
Proof. split; [intros k t; cbn; unfold clean; by rewrite map_filter_empty, lookup_empty|done]. Qed.

Lemma sample_blocks_from_0 : Forall (block_from 0) sample_blocks.
Proof. eapply Forall_impl; [apply sample_blocks_ok|]. intros b [Hb Hn]. split; [lia|done]. Qed.

(** Trimmed at 3: the deletion of block 5 is gone, and 5 is still reported. *)
Lemma trim_is_rollback_witness :
  GetAtVersion (NewStoreWithDB file_trimmed) store_a [z2b 1] None = Ok (Some [z2b 10]) /\ GetLatestVersion (NewStoreWithDB file_trimmed) = Ok 5.
Proof.
  destruct (trim_is_rollback 4 7 file_store file_dir file_trimmed sample_blocks store_a [z2b 1] None None 3 None false) as (H1 & _ & H3).
  - exact file_fresh.
  - vm_compute. reflexivity.
  - exact sample_blocks_from_0.
  - exact sample_increasing.
  - vm_compute. reflexivity.
  - lia.
  - exact store_a_name.
  - done.
  - done.
  - done.
  - split; [rewrite H1; vm_compute; reflexivity|rewrite H3; vm_compute; reflexivity].
Defined.

Definition file_compacted : FileDB := mkFileDB (fdb_mem file_dir) 1.

Lemma compaction_keeps_contents_witness :
  same_contents file_dir file_compacted /\ forall f, f ∈ liveSSTFiles file_dir -> f ∉ (adLiveFiles file_compacted).*1.
Proof.
  destruct (compaction_keeps_contents 4 7 file_dir 1000 (Ok (5, 5)) file_compacted) as (H1 & _ & H3); [vm_compute; reflexivity|].
  split; [exact H1|]. destruct (H3 5 5 eq_refl) as (_ & _ & _ & d0 & E0 & _ & Hf). intros f Hin. apply Hf.
  injection E0 as <-. exact Hin.
Defined.

(** The limits of the command.  The rate given in MiB per second reaches the
    compaction exactly, as long as it fits 63 bits of bytes per second; a larger
    one is refused before the directory is opened, so the compaction is never
    given a negative rate. *)
Theorem compact_command_rate {E D : Type} `{RA : !RocksAdmin E D} (numCPU : Z) (numLevels : nat) (dir : E) (mib : Z) (Hm : 0 <= mib < 2 ^ 64) :
  CompactVersionDBCmd numCPU numLevels dir mib =
    if mib * 2 ^ 20 <? 2 ^ 63 then CompactVersionDB numCPU numLevels dir (mib * 2 ^ 20) else (Err "rate limit too large", None).
Proof. unfold CompactVersionDBCmd. rewrite mib_bounds by done. by destruct (mib * 2 ^ 20 <? 2 ^ 63). Qed.
