(* ===== verification/ClientRoot.v ===== *)
(** [dump-memiavl-root]: [memiavl/client/cmd.go].

    The command opens the database for reading at a version and prints the root
    hash of every store and of the multi-tree.  [infoHash] is the hash of a commit
    info of the SDK.

    Theorem: on a directory with snapshots of a history and its log, the command
    prints the roots of the state that was committed at that version. *)
From stdpp Require Import prelude strings gmap sorting.
From Stdlib Require Import ZArith Lia.
From S2P Require Import Prelude OrdMap Codec Node Hash Persisted Snapshot Tree MultiTree Wal Pending Db DbDir DbRewrite RootMulti.
Local Open Scope Z_scope.

(** The lines of the output. *)
Inductive RootLine : Type :=
| LModule (n : name) (version : Z) (hash : bytes)
| LNotLoaded (n : name)
| LMultiTree (version : Z) (hash : bytes).

Section Root.
Context {L : Type} `{!Log L} (sha256 : bytes -> bytes) (unmarshal : bytes -> res WALEntry) (infoHash : CommitInfo -> bytes).

Definition module_line (t : MultiTree) (storeName : name) : RootLine :=
  match TreeByName t storeName with
  | Some tree => LModule storeName (vt_version tree) (rootHash sha256 (vt_root tree))
  | None => LNotLoaded storeName
  end.

Definition root_options (storeNames : list name) (version : Z) : Options :=
  mkOptions false 0 true storeNames 0 0 version 0 false 0.

(** [dumpRootCmd]; the names are sorted in place. *)
Definition dumpRoot (r : Root) (l : L) (storeNames : list name) (version : Z) : res (list RootLine) :=
  let* (db, _) := Load sha256 unmarshal (root_options storeNames version) r l in
  let storeNames := sort_named (fun n => n) storeNames in
  let lines := module_line (db_tree db) <$> storeNames in
  let lastCommitInfo := convertCommitInfo (lastCommitInfo (UpdateCommitInfo sha256 (db_tree db))) in
  Ok (lines ++ [LMultiTree (ci_version lastCommitInfo) (infoHash lastCommitInfo)]).
End Root.

(** ** Properties *)

Lemma convert_same info : convertCommitInfo info = info.
Proof.
  destruct info as [v ss]. unfold convertCommitInfo. cbn. f_equal. rewrite <- (list_fmap_id ss) at 2. apply list_fmap_ext. intros i [n [w h]] _. done.
Qed.

(** The roots of a version: let the directory hold snapshots of states of one
    history and the log its entries.  For a version of the history that is not
    older than every snapshot the command prints, in the order of the names, the
    version and the root hash that each tree had right after the commit of that
    version (or that it was not loaded), and then the hash of the commit info that
    this commit recorded. *)
Theorem dump_root_at_version {L : Type} `{Lg : !Log L, LL : !LogLaws L} (sha256 : bytes -> bytes) (marshal : WALEntry -> res bytes) (unmarshal : bytes -> res WALEntry)
  (infoHash : CommitInfo -> bytes) (Hu : forall e b, marshal e = Ok b -> unmarshal b = Ok (wire e)) (t0 : MultiTree)
  (Hbase : base_version (MTVersion t0) (initialVersion t0)) (Hiv : 0 <= initialVersion t0 < 2 ^ 32)
  (es : list WALEntry) (bs : list bytes) (r : Root) (l : L) (m : nat) (tm : MultiTree) (v : Z) (names : list name)
  (Hst : stored sha256 marshal t0 es bs r l) (Hl : linked r) (Hm : (1 <= m <= length es)%nat) (Em : live sha256 t0 (take m es) tm)
  (Hin : v ∈ versions (r_entries r)) (Hle : v <= MTVersion tm) :
  dumpRoot sha256 unmarshal infoHash r l names (MTVersion tm) =
    Ok ((module_line sha256 tm <$> sort_named (fun n => n) names) ++ [LMultiTree (MTVersion tm) (infoHash (lastCommitInfo tm))]).
Proof.
  unfold dumpRoot.
  destruct (load_version_state sha256 marshal unmarshal Hu t0 Hbase Hiv (root_options names (MTVersion tm)) es bs r l m tm v) as (d & r' & mk & -> & Et & _); [done..|].
  cbn [res_bind]. rewrite Et, convert_same. assert (lastCommitInfo (UpdateCommitInfo sha256 (with_meta mk tm)) = lastCommitInfo tm) as ->; [|done].
  rewrite (live_info sha256 t0 (take m es) tm) by (done || (destruct es; cbn in Hm; [lia|by destruct m; [lia|]])). done.
Qed.

(** ** Samples *)

Lemma dump_root_at_version_witness :
  dumpRoot digest32 bit_unmarshal (fun i => concat (cid_hash <$> (si_commit <$> ci_stores i))) sample_root sample_log [str "z"; str "a"] 5 =
  Ok ((module_line digest32 (state_after (take 1 sample_history)) <$> sort_named (fun n => n) [str "z"; str "a"]) ++
    [LMultiTree 5 (concat (cid_hash <$> (si_commit <$> ci_stores (lastCommitInfo (state_after (take 1 sample_history))))))]).
Proof.
  refine (dump_root_at_version digest32 bit_marshal bit_unmarshal (fun i => concat (cid_hash <$> (si_commit <$> ci_stores i))) bit_unmarshal_ok (NewEmptyMultiTree 5) sample_base _
    sample_history sample_bytes sample_root sample_log 1 (state_after (take 1 sample_history)) 0 [str "z"; str "a"] sample_stored sample_linked _ _ _ _).
  - by vm_compute.
  - cbn. lia.
  - vm_compute. reflexivity.
  - vm_compute. set_solver.
  - by vm_compute.
Defined.
